(* ===== verification/_CoqProject ===== *)
-Q . S2P
Prelude.v
GoStrings.v
GoTime.v
Strconv.v
Sha256.v
Base64.v
Netip.v
GoURL.v
Pow.v
PowTheory.v
Matcher.v
Storage.v
MemoryUsage.v
MemoryCounter.v
Postgres.v
Redis.v
RedisCounter.v
Instrumented.v
Cidr.v
Config.v
RiskMatcher.v
RiskEngine.v
RiskEngineTheory.v
ConfigValidate.v
ConfigTheory.v
YamlStructure.v
ConfigLoad.v
ConfigStore.v
ConfigStoreTheory.v
ConfigSecret.v
ConfigSecretTheory.v
ConfigCtl.v
ConfigCtlTheory.v
Pending.v
RiskCounter.v
Auth.v
App.v
Garmr.v
GarmrTheory.v
Transport.v
AppBuild.v
AuthLogic.v
AuthTheory.v
AuthRecord.v
AuthSound.v
AuthCarry.v
AuthQuota.v
AuthBehaviour.v
AuthLabels.v
AuthComplete.v
AuthSample.v
TransportTheory.v
Histories.v
CounterLaws.v
Interleaving.v
RateLimit.v
Deployment.v
Lifecycle.v
Server.v
Metrics.v
Logging.v
Front.v
