(* ===== verification/Prelude.v ===== *)
(** * A verification of garmr, the request filter of a software mirror

    The program answers nginx's [auth_request] subrequests: may this client
    fetch this path?  It demands a proof-of-work token for protected paths, runs
    a chain of risk rules, counts the uses of a token in a store, and limits the
    requests one address has pending.  This library models the decision of one
    request, from its headers to the status code, with the state the decision
    reads and writes; the stores that keep that state; the configuration, from
    the text of a file to a running service; and the management command that
    changes the file.  It proves what makes them correct.

    ** The parts, bottom up

    - [GoStrings], [GoTime], [Strconv], [Sha256], [Base64], [Netip], [GoURL],
      [Cidr]: what the code uses of the Go language and its standard library.
      Strings are byte strings; runes are decoded as Go does; the case tables
      beyond ASCII are the class [Unicode].  Integers are [Z], with [wrap64]
      where an [int] or [int64] can overflow.  Times and durations are
      nanoseconds; [Seconds] is rounded as the two doubles of its sum are.
    - [Pow], [PowTheory]: [internal/pow].  Token payloads and their validation,
      the canonical signing input, signs, sign ids and difficulty.  [Pow] has the
      definitions, [PowTheory] the theorems: validation accepts exactly the
      well-formed payloads; the canonical input determines the fields it signs;
      the difficulty test is a bound on the value of the hash; sign ids separate
      different work, but also different spellings of one sign.
    - [Matcher]: [internal/matcher].  Normalisation of paths and the matchers.
      The protection verdict does not depend on how a client spells a path.
    - [Storage]: [internal/storage/store.go].  The two store interfaces are the
      classes [UsageStore] and [CounterStore]; [UsageStoreLaws] is the contract
      a usage store promises to the service: what a call may do to the record of
      an id, and which records may disappear.  The quota and the stability of
      the first IP follow from the laws alone.
    - [MemoryUsage], [MemoryCounter]: [internal/storage/memory].  The in-memory
      stores, method by method; the usage store keeps the contract
      ([MemUsage.Laws]), the counter store refines fixed-window counters.
      Methods that lock twice are split where they do, and interleaved.
    - [Postgres], [Redis], [RedisCounter]: [internal/storage/{postgres,redis}].
      The SQL statements as functions on a table and the Lua script over the
      commands it calls, with the methods around them.  A statement or command
      may fail before it ran, or after, when its answer is lost.  Both usage
      stores keep the contract ([PgUsage.Laws], [RedisUsage.Laws]), hence the
      quota ([postgres_quota], [redis_quota]); the redis counters refine the same
      fixed windows as those in memory.
    - [Instrumented]: [internal/storage/instrumented.go].  The wrapper that
      counts calls; a wrapped store keeps the laws of the store
      ([wrapped_laws]).
    - [Config]: [internal/config/{config,defaults}.go].  The configuration tree
      and its defaults.
    - [ConfigValidate], [ConfigTheory]: [internal/config/validate.go].  Every
      check is a problem in a list.  [Validate] is read as a type system: it
      accepts exactly [valid_config], and a valid configuration compiles to an
      engine without surprises ([Validate_engine]).  The search for cycles ends
      and is exact ([detectCycles_spec]).
    - [YamlStructure], [ConfigLoad]: [internal/config/{structure,loader}.go].
      The structure check walks a heap of nodes with aliases, and ends on every
      one; what the loader hands out was read, completed and validated.
    - [ConfigStore], [ConfigStoreTheory]: [internal/configstore].  The file, its
      numbered revisions and a draft, on a disk any call to which may fail, with
      the log of its states so that a crash is a point of it.  [Apply_spec]: an
      application is all or nothing, and one that succeeds leaves a disk that
      opens again at every point, while one that fails need not
      ([stranded_revision]); [history_immutable]: revisions stay.
    - [ConfigSecret], [ConfigSecretTheory]: [internal/configctl/secret.go].
      Redaction is non-interference ([redactNode_hides]), merging gives back what
      redaction took ([merge_redacted_roundtrip]) and vets every section that is
      a mapping on both sides ([mergeSecretNode_spec]), but no other
      ([merge_guard_bypassed], [section_removal_unguarded]).
    - [ConfigCtl], [ConfigCtlTheory]: [internal/configctl/manager.go].  A plan
      lists exactly the settings that differ ([plan_spec]), and what is applied
      is what was planned ([planned_application], [rollback_restores]).
    - [Garmr], [GarmrTheory]: [cmd/garmr/main.go].  The subcommands over the
      terminal and an editor that may write anything; nothing changes without the
      phrase, the yes and the reason it needs ([nothing_unasked]).
    - [RiskMatcher], [RiskEngine], [RiskEngineTheory], [RiskCounter], [Pending]:
      [internal/risk].  Conditions and their compilation, chains and their
      evaluation, counters, and the limiter of pending requests.  Evaluation
      always finishes, gives a terminal target, and computes the declarative
      reading [reads] of the rules, marks and trace included; the limiter's counts
      are the slots held, and every block ends ([blocks_end]).
    - [Auth]: [internal/auth].  Requests, results, the checks of a token, the
      quota, the first-use binding, the use of the engine's verdict, recording,
      and [Verify].
    - [App]: [internal/app].  The matchers built from the configuration, and one
      turn of the cleanup loop.  [AppBuild] assembles stores, engine and service
      from a configuration, with what is opened and closed ([build_spec]).
    - [Transport], [TransportTheory]: [internal/transport/echo].  The request a
      handler makes of the headers and the status and headers it answers;
      [verifyPow_sound] is end to end from headers to status.
    - [AuthLogic], [AuthTheory], [AuthRecord], [AuthSound], [AuthCarry],
      [AuthQuota], [AuthBehaviour], [AuthComplete]: the theorems about [Verify].
      [AuthCarry] takes a count of grants through every method of the service.
    - [AuthLabels]: the label values of the events of [Verify] are valid UTF-8.
    - [AuthSample]: a small deployment on which the theorems are applied.
    - [Histories], [Interleaving]: requests at the same time.  A history orders
      the calls of a store; [concurrent_quota]: the quota holds over every history
      that fits the requests.
    - [CounterLaws], [RateLimit]: the contract of the counter stores, as a class
      like [UsageStoreLaws], kept in memory, on redis and instrumented; and what a
      rule on a counter guarantees, end to end and for requests at the same time
      ([rate_limit]): the limit, and the requests under way less one.
    - [Deployment]: the three drivers as one store behind the interface, and the
      quota of the service [build] makes of a valid configuration, redis
      included, for requests at the same time ([built_concurrent_quota]).
    - [Lifecycle]: [App.Start], [Shutdown], the cleanup loop and the signal
      handler, with the server of [server.go], as one process.  What is closed
      when the process ends ([closed_after]), that a shutdown can always be
      completed ([shutdown_completes]), and that [run] does not wait for it
      ([exit_does_not_wait]).
    - [Server]: [internal/version] and [run] of [cmd/server/main.go], from flags
      and configuration to the process ([shutdown_safe]).
    - [Metrics]: [internal/metrics].  The collectors, their registration, and the
      samples a run leaves: no request makes a vector panic and the verdicts are
      counted exactly ([verdicts_exported]), under a mode label that is the
      client's to choose ([mode_label_unbounded]).
    - [Logging]: [internal/logging].  Which lines are written, and with which
      fields ([recordResult_lines], [faults_are_logged]).
    - [Front]: the middleware, routes and error handler of [transport/echo]; what
      any request gets through them ([front_spec]).

    ** How the service is modelled

    A method of the service is a function on the record [world] (the monad [M]):
    the usage store, the counters and their cache, the limiter, the token the
    request carries, the events emitted (metrics and log lines), and the number
    of instants at which the service looked at the outside so far.  The code
    passes the payload by pointer and fills its IP in place; since every pointer
    to it is to one object, it is one cell of the state.  The outside is three
    functions of an instant: [clk] gives the time, [uenv] and [cenv] what a store
    meets (its own clock, a failing back end).  A theorem holds for all of them.

    Errors are values of [result]; an absent dependency or pointer is [None].
    Go's iteration over a map is in no order: a loop over a map takes its order
    from the class [MapRange], which only promises a permutation.  Concurrency
    is modelled where it shows: [Pending] is a step relation over handles,
    [MemoryUsage] interleaves critical sections, and [AuthComplete] the two store
    calls of the first-use binding.  In [AuthQuota] requests run one after the
    other; [Interleaving] and [RateLimit] let other requests' calls of the usage
    and the counter store come between any two of one request's, the contract
    making each call atomic.  The goroutines of the process are steps of
    [Lifecycle].

    [AuthLogic] gives weakest preconditions for [M].  [AuthRecord] shows that a
    request is counted once, as what was answered; [AuthSound] that nothing is
    admitted without a good token where one is demanded; [AuthComplete] that a
    good token is admitted; [AuthQuota] and [Interleaving] that [max_uses] holds end
    to end, over any store with the contract, dry run off, for what is admitted on
    one sign id in generic mode, HEAD requests left out unless they are to be
    counted; [AuthBehaviour] that status and verdict agree, and what dry run does.

    The configuration files do not use [M]: [ConfigStore] has a state of its own,
    [io] (the disk, its log, the calls made so far), and a failing call is the
    predicate [works] on their number.  The manager and the command are
    functions on the store and [io]; the terminal is the list of bytes still to
    be read.

    ** Fuel

    [RiskEngine.walk_rules] and [evalChain] recurse on fuel.  [walk_fuel] is
    enough for every engine, cyclic ones included: a chain is entered at most
    eight times under each name, and [Evaluate_total] shows the fuel is never
    exhausted.  [ConfigValidate.visit] has fuel for one visit per chain and more,
    and [detectCycles_spec] shows it is enough; [validateYAMLNode] has one more
    than the nodes of the heap, enough by [validateYAMLNode_spec]; the merge and
    the comparison of values have the depth of the tree, enough by
    [mergeSecretNode_spec] and [plan_spec].  [Garmr.prompt] has the bytes of its
    input.  Only [Garmr.edit_loop] may truly run for ever, when the input ends on
    an invalid text ([edit_spins]); its fuel is the number of runs of the editor,
    and its theorem holds for every number.  Other recursions are structural.

    ** Parameters

    [JsonCodec] is [encoding/json] on a payload, [MetaCodec] on the metadata of
    a revision, [Regexp] the regular expression engine, [Unicode] the case
    tables; viper, the YAML parser, encoder and decoder, the file system, the
    editor, zap's levels, the opening of connections, what postgres takes for
    text, and the rounding of a deadline by the redis client are arguments.
    [Redis] is the server with its laws; [MapRedis] is an instance.  [Echo] is the
    web framework, with [EchoLaws] its documented behaviour; [Prometheus] gives a
    vector's series for a tuple of label values, with [PrometheusLaws].  Of zap a
    core is the levels it enables.
    [AuthSample], [RiskEngineTheory.Sample], [BuildSample] and the other samples
    use concrete ones ([ascii_unicode], [literal_regexp], [key_order] and small
    codecs).

    ** What is not modelled

    [internal/clock] is one call of the operating system, here [clk].  The
    parsing of flags, the layout of what is printed, the encoding of log lines
    and of the metrics page and the connections beneath the HTTP server are input and
    output; a latency is kept as what it measures ([Since]), since it is taken from
    the wall clock and not from the service's.  Concurrent requests meet in one store at a
    time: [concurrent_quota] leaves to each request any counters and limiter of
    its own, [rate_limit] any usage store and limiter; pending slots are shared in
    [Pending], whose steps interleave by themselves. *)

From stdpp Require Export base tactics list gmap strings.
From Stdlib Require Export Ascii ZArith Lia.

#[global] Open Scope Z_scope.

(** ** Results *)

(** A Go call that returns [(value, error)]: exactly one of the two matters. *)
Inductive result (E A : Type) : Type :=
  | Ok (a : A)
  | Err (e : E).
Arguments Ok {E A} _.
Arguments Err {E A} _.

Definition is_ok {E A} (r : result E A) : bool :=
  match r with Ok _ => true | Err _ => false end.

(** [if guard { return err }] followed by the rest of the body. *)
Definition guard {E A} (bad : bool) (e : E) (k : result E A) : result E A :=
  if bad then Err e else k.

Declare Scope waf_scope.
Delimit Scope waf_scope with waf.
Notation "'reject!' c 'with' e ;; k" := (guard c e k)
  (at level 200, c at level 99, e at level 99, k at level 200, right associativity,
   format "'[v' 'reject!'  c  'with'  e  ;; '/' k ']'") : waf_scope.
Notation "x <-! c ;; k" := (match c with Ok x => k | Err e => Err e end)
  (at level 200, c at level 99, k at level 200, right associativity) : waf_scope.
#[global] Open Scope waf_scope.

Lemma guard_Ok {E A} (bad : bool) (e : E) (k : result E A) (a : A) :
  guard bad e k = Ok a <-> bad = false /\ k = Ok a.
Proof. unfold guard; destruct bad; naive_solver. Qed.

Lemma guard_Err {E A} (bad : bool) (e e' : E) (k : result E A) :
  guard bad e k = Err e' <-> (bad = true /\ e = e') \/ (bad = false /\ k = Err e').
Proof. unfold guard; destruct bad; naive_solver. Qed.

(** ** Automation *)

(** [inv H]: invert, substitute, drop [H]. *)
Ltac inv H := inversion H; subst; clear H.

(** Turn boolean tests of the code into propositions, hypotheses and goal. *)
Ltac bprop :=
  repeat match goal with
  | H : (_ && _)%bool = true |- _ => apply andb_prop in H; destruct H
  | H : (_ || _)%bool = false |- _ => apply orb_false_elim in H; destruct H
  | H : (_ && _)%bool = false |- _ => apply andb_false_iff in H
  | H : (_ || _)%bool = true |- _ => apply orb_prop in H
  | H : negb _ = true |- _ => apply negb_true_iff in H
  | H : negb _ = false |- _ => apply negb_false_iff in H
  | H : (_ =? _)%Z = true |- _ => apply Z.eqb_eq in H
  | H : (_ =? _)%Z = false |- _ => apply Z.eqb_neq in H
  | H : (_ <? _)%Z = true |- _ => apply Z.ltb_lt in H
  | H : (_ <? _)%Z = false |- _ => apply Z.ltb_ge in H
  | H : (_ <=? _)%Z = true |- _ => apply Z.leb_le in H
  | H : (_ <=? _)%Z = false |- _ => apply Z.leb_gt in H
  | H : (_ >? _)%Z = true |- _ => rewrite Z.gtb_ltb in H; apply Z.ltb_lt in H
  | H : (_ >? _)%Z = false |- _ => rewrite Z.gtb_ltb in H; apply Z.ltb_ge in H
  | H : (_ >=? _)%Z = true |- _ => rewrite Z.geb_leb in H; apply Z.leb_le in H
  | H : (_ >=? _)%Z = false |- _ => rewrite Z.geb_leb in H; apply Z.leb_gt in H
  | H : (_ =? _)%string = true |- _ => apply String.eqb_eq in H
  | H : (_ =? _)%string = false |- _ => apply String.eqb_neq in H
  | H : bool_decide _ = true |- _ => apply bool_decide_eq_true_1 in H
  | H : bool_decide _ = false |- _ => apply bool_decide_eq_false_1 in H
  end.

(** [bprop], and the cases of the disjunctions it leaves. *)
Ltac bcases := bprop; repeat match goal with Hx : _ \/ _ |- _ => destruct Hx; bprop end.

(** Case analysis on the innermost test of the goal, keeping the equation. *)
Ltac case_if :=
  match goal with
  | |- context [if ?b then _ else _] =>
      lazymatch b with context [if _ then _ else _] => fail | _ => destruct b eqn:? end
  end.
Ltac case_if_in H :=
  match type of H with
  | context [if ?b then _ else _] =>
      lazymatch b with context [if _ then _ else _] => fail | _ => destruct b eqn:? end
  end.

(** A [Forall] over an explicit list, one goal per element. *)
Ltac forall_cons := repeat (apply Forall_cons; split); try apply Forall_nil.

(** The lemmas every component registers for its own simplification. *)
Create HintDb waf discriminated.
Create HintDb wafsimpl.

(** ** Machine integers *)

Definition two63 : Z := 9223372036854775808.
Definition two64 : Z := 18446744073709551616.
Definition max_int64 : Z := 9223372036854775807.
Definition min_int64 : Z := -9223372036854775808.

(** Two's-complement wrap-around of Go's [int] and [int64]. *)
Definition wrap64 (z : Z) : Z := (z + two63) mod two64 - two63.
(** [uint64] wrap-around. *)
Definition wrapu64 (z : Z) : Z := z mod two64.

Definition int64_range (z : Z) : Prop := min_int64 <= z <= max_int64.

Lemma wrap64_range z : int64_range (wrap64 z).
Proof.
  unfold int64_range, wrap64, min_int64, max_int64, two63, two64.
  pose proof (Z.mod_pos_bound (z + 9223372036854775808) 18446744073709551616). lia.
Qed.

Lemma wrap64_id z : int64_range z -> wrap64 z = z.
Proof.
  unfold int64_range, wrap64, min_int64, max_int64, two63, two64; intros.
  rewrite Z.mod_small; lia.
Qed.

Lemma wrap64_wrap64 z : wrap64 (wrap64 z) = wrap64 z.
Proof. apply wrap64_id, wrap64_range. Qed.

#[export] Hint Resolve wrap64_range : waf.

(** ** Lists and options *)

Lemma Forall_existsb_false {A} (f : A -> bool) l :
  existsb f l = false <-> Forall (fun x => f x = false) l.
Proof.
  induction l; simpl; [split; auto|].
  rewrite orb_false_iff, IHl, Forall_cons; tauto.
Qed.

Lemma forallb_Forall {A} (f : A -> bool) l :
  forallb f l = true <-> Forall (fun x => f x = true) l.
Proof.
  induction l; simpl; [split; auto|].
  rewrite andb_true_iff, IHl, Forall_cons; tauto.
Qed.

Lemma existsb_eqb_elem (x : string) l :
  existsb (fun s => s =? x)%string l = true <-> x ∈ l.
Proof.
  induction l as [|y l IH]; simpl.
  - split; [done|]. intros H; inv H.
  - rewrite orb_true_iff, IH, elem_of_cons, String.eqb_eq. naive_solver.
Qed.

(** Splitting at the first or last occurrence of a separator is unambiguous when
    the part outside does not contain it. *)
Lemma sep_first_inj {A} (c : A) x y u v :
  c ∉ x -> c ∉ y -> x ++ c :: u = y ++ c :: v -> x = y /\ u = v.
Proof.
  revert y; induction x as [|a x IH]; intros [|b y] Hx Hy E; simpl in *.
  - by inv E.
  - inv E. exfalso. apply Hy. left.
  - inv E. exfalso. apply Hx. left.
  - inv E. destruct (IH y) as [-> ->]; auto; intros Hin; [apply Hx|apply Hy]; by right.
Qed.

Lemma sep_last_inj {A} (c : A) x y u v :
  c ∉ x -> c ∉ y -> u ++ c :: x = v ++ c :: y -> u = v /\ x = y.
Proof.
  intros Hx Hy E. apply (f_equal (@rev A)) in E. rewrite !rev_app_distr in E. simpl in E.
  rewrite <- !app_assoc in E. simpl in E.
  apply sep_first_inj in E as [Ex Eu]; [|intros Hin; apply list_elem_of_In, in_rev,
    list_elem_of_In in Hin; done..].
  split; [rewrite <- (rev_involutive u), Eu|rewrite <- (rev_involutive x), Ex];
    by rewrite rev_involutive.
Qed.

Definition opt_default {A} (d : A) (o : option A) : A :=
  match o with Some a => a | None => d end.

(** ** Ranging over a Go map

    The order is unspecified and may differ from one loop to the next: the
    [n]-th loop of a run visits the entries in some order. *)
Class MapRange := {
  map_range : forall {V : Type}, nat -> gmap string V -> list (string * V);
  map_range_perm : forall (V : Type) n (m : gmap string V), map_range n m ≡ₚ map_to_list m;
}.

Lemma elem_of_map_range `{MapRange} {V} n (m : gmap string V) k v :
  (k, v) ∈ map_range n m <-> m !! k = Some v.
Proof. by rewrite map_range_perm, elem_of_map_to_list. Qed.

(** One possible order, to evaluate definitions. *)
Definition key_order : MapRange.
Proof. refine {| map_range V n m := map_to_list m |}. done. Defined.
