(* ===== verification/GoStrings.v ===== *)
(** * Go strings

    A Go string is a sequence of bytes; [range s] decodes it as UTF-8.  This
    file models what the program uses of the packages [strings], [unicode],
    [unicode/utf8] and [strconv]: byte and rune views of a string, case
    mapping and case folding, searching and trimming, decimal printing and
    parsing.  The case tables of non-ASCII runes are the parameter [Unicode]. *)

From S2P Require Import Prelude.

(** ** Bytes of a string *)

Definition byte_of (a : ascii) : Z := Z.of_N (N_of_ascii a).
Definition ascii_of (b : Z) : ascii := ascii_of_N (Z.to_N b).

Fixpoint bytes_of (s : string) : list Z :=
  match s with
  | EmptyString => []
  | String a s => byte_of a :: bytes_of s
  end.
Fixpoint of_bytes (l : list Z) : string :=
  match l with
  | [] => EmptyString
  | b :: l => String (ascii_of b) (of_bytes l)
  end.

(** [len(s)]. *)
Definition len (s : string) : Z := Z.of_nat (String.length s).

Definition is_byte (b : Z) : Prop := 0 <= b < 256.

Lemma byte_of_range a : is_byte (byte_of a).
Proof. unfold is_byte, byte_of. pose proof (N_ascii_bounded a). lia. Qed.

Lemma ascii_of_byte_of a : ascii_of (byte_of a) = a.
Proof. unfold ascii_of, byte_of. rewrite N2Z.id. apply ascii_N_embedding. Qed.

Lemma byte_of_ascii_of b : is_byte b -> byte_of (ascii_of b) = b.
Proof.
  unfold is_byte, byte_of, ascii_of; intros. rewrite N_ascii_embedding by lia. lia.
Qed.

Lemma bytes_of_range s : Forall is_byte (bytes_of s).
Proof. induction s; simpl; constructor; auto using byte_of_range. Qed.

Lemma of_bytes_of s : of_bytes (bytes_of s) = s.
Proof. induction s; simpl; [done|]. by rewrite ascii_of_byte_of, IHs. Qed.

Lemma bytes_of_of l : Forall is_byte l -> bytes_of (of_bytes l) = l.
Proof. induction 1; simpl; [done|]. by rewrite byte_of_ascii_of, IHForall. Qed.

Lemma bytes_of_inj s t : bytes_of s = bytes_of t -> s = t.
Proof. intros H. by rewrite <- (of_bytes_of s), H, of_bytes_of. Qed.

Lemma bytes_of_app s t : bytes_of (s +:+ t) = bytes_of s ++ bytes_of t.
Proof. induction s; simpl; [done|]. by rewrite IHs. Qed.

Lemma of_bytes_app l k : of_bytes (l ++ k) = of_bytes l +:+ of_bytes k.
Proof. induction l; simpl; [done|]. by rewrite IHl. Qed.

Lemma length_bytes_of s : length (bytes_of s) = String.length s.
Proof. induction s; simpl; auto. Qed.

Lemma length_of_bytes l : String.length (of_bytes l) = length l.
Proof. induction l; simpl; auto. Qed.

Lemma len_bytes s : len s = Z.of_nat (length (bytes_of s)).
Proof. unfold len. by rewrite length_bytes_of. Qed.

Lemma len_nonneg s : 0 <= len s.
Proof. unfold len; lia. Qed.

Lemma len_app s t : len (s +:+ t) = len s + len t.
Proof. rewrite !len_bytes, bytes_of_app, length_app. lia. Qed.

Lemma len_zero s : len s = 0 <-> s = ""%string.
Proof. unfold len; destruct s; simpl; split; intros; try done; lia. Qed.

#[export] Hint Resolve bytes_of_range byte_of_range len_nonneg : waf.
#[export] Hint Rewrite of_bytes_of bytes_of_app of_bytes_app length_bytes_of
  length_of_bytes len_app : wafsimpl.

(** ** Runes: UTF-8 decoding and encoding *)

Definition rune_error : Z := 65533.

Definition in_range (lo hi b : Z) : bool := (lo <=? b) && (b <=? hi).
Definition cont (b : Z) : bool := in_range 128 191 b.

(** One step of [utf8.DecodeRune] per rune; each rune comes with the bytes it
    was decoded from.  An invalid byte yields [RuneError] and is one byte wide. *)
Fixpoint decode_utf8 (l : list Z) : list (Z * list Z) :=
  match l with
  | [] => []
  | b0 :: l0 =>
      let bad (_ : unit) := (rune_error, [b0]) :: decode_utf8 l0 in
      if b0 <? 128 then (b0, [b0]) :: decode_utf8 l0
      else if in_range 194 223 b0 then
        match l0 with
        | b1 :: l1 =>
            if cont b1
            then ((b0 - 192) * 64 + (b1 - 128), [b0; b1]) :: decode_utf8 l1
            else bad tt
        | _ => bad tt
        end
      else if in_range 224 239 b0 then
        match l0 with
        | b1 :: b2 :: l2 =>
            let lo := if b0 =? 224 then 160 else 128 in
            let hi := if b0 =? 237 then 159 else 191 in
            if in_range lo hi b1 && cont b2
            then ((b0 - 224) * 4096 + (b1 - 128) * 64 + (b2 - 128), [b0; b1; b2])
                   :: decode_utf8 l2
            else bad tt
        | _ => bad tt
        end
      else if in_range 240 244 b0 then
        match l0 with
        | b1 :: b2 :: b3 :: l3 =>
            let lo := if b0 =? 240 then 144 else 128 in
            let hi := if b0 =? 244 then 143 else 191 in
            if in_range lo hi b1 && cont b2 && cont b3
            then ((b0 - 240) * 262144 + (b1 - 128) * 4096 + (b2 - 128) * 64 + (b3 - 128),
                  [b0; b1; b2; b3]) :: decode_utf8 l3
            else bad tt
        | _ => bad tt
        end
      else bad tt
  end.

(** [for _, r := range s]. *)
Definition runes (s : string) : list Z := (decode_utf8 (bytes_of s)).*1.

(** [utf8.AppendRune]. *)
Definition encode_rune (r : Z) : list Z :=
  if in_range 0 127 r then [r]
  else if in_range 128 2047 r then [192 + r / 64; 128 + r mod 64]
  else if (r <? 0) || in_range 55296 57343 r || (1114111 <? r) then [239; 191; 189]
  else if r <? 65536 then [224 + r / 4096; 128 + (r / 64) mod 64; 128 + r mod 64]
  else [240 + r / 262144; 128 + (r / 4096) mod 64; 128 + (r / 64) mod 64; 128 + r mod 64].

(** Induction along the decoder: each step consumes a non-empty chunk whose
    rune is either an ASCII byte or at least 128. *)
Lemma decode_utf8_ind (P : list Z -> Prop) :
  P [] ->
  (forall b l, b < 128 -> decode_utf8 (b :: l) = (b, [b]) :: decode_utf8 l ->
     P l -> P (b :: l)) ->
  (forall r c l, c <> [] -> Forall (fun b => 128 <= b) c -> 128 <= r ->
     decode_utf8 (c ++ l) = (r, c) :: decode_utf8 l -> P l -> P (c ++ l)) ->
  forall l, P l.
Proof.
  intros Hnil Hasc Hmul l.
  induction (Nat.lt_wf_0_projected (@length Z) l) as [l _ IH].
  destruct l as [|b0 l0]; [done|].
  remember (decode_utf8 (b0 :: l0)) as d eqn:Hd. pose proof Hd as Hd'.
  simpl in Hd. destruct (b0 <? 128) eqn:E0; bprop.
  { apply Hasc; [lia|congruence|apply IH; simpl; lia]. }
  unfold cont, in_range in Hd.
  repeat case_match; subst d; bprop;
    match goal with
    | H : (?r, ?c) :: decode_utf8 ?l = decode_utf8 ?k |- _ =>
        change k with (c ++ l); apply (Hmul r)
    end; try done; try (forall_cons; repeat case_if; lia);
    try (unfold rune_error; lia); try (apply IH; simpl; lia).
Qed.

Lemma decode_utf8_concat l : concat (decode_utf8 l).*2 = l.
Proof.
  induction l as [|b l ? E IH|r c l ? ? ? E IH] using decode_utf8_ind; [done| |];
    rewrite E, fmap_cons; cbn [concat snd]; by rewrite IH.
Qed.

(** On ASCII the runes are the bytes. *)
Definition is_ascii (l : list Z) : Prop := Forall (fun b => 0 <= b < 128) l.

Lemma decode_utf8_ascii l : is_ascii l -> decode_utf8 l = map (fun b => (b, [b])) l.
Proof.
  induction 1 as [|b l Hb _ IH]; [done|]. simpl.
  destruct (Z.ltb_spec b 128); [|lia]. by rewrite IH.
Qed.

Lemma runes_ascii s : is_ascii (bytes_of s) -> runes s = bytes_of s.
Proof.
  intros. unfold runes. rewrite decode_utf8_ascii by done.
  rewrite <- list_fmap_compose. apply list_fmap_id.
Qed.

(** If every rune satisfies a predicate that holds of ASCII only, the string
    is ASCII. *)
Lemma runes_all_ascii (P : Z -> Prop) s :
  (forall r, P r -> r < 128) -> Forall P (runes s) ->
  runes s = bytes_of s /\ Forall P (bytes_of s).
Proof.
  intros HP. unfold runes. generalize (bytes_of s) as l. intros l.
  induction l as [|b l Hb E IH|r c l Hc Hc1 Hr E IH] using decode_utf8_ind; intros Hall.
  - done.
  - rewrite E, fmap_cons in *. cbn [fst] in *. inv Hall. destruct IH as [-> ?]; auto.
  - rewrite E, fmap_cons in Hall. inv Hall. cbn [fst] in *.
    match goal with H : P r |- _ => apply HP in H; lia end.
Qed.

(** The ASCII bytes of a string are among its runes. *)
Lemma byte_in_runes b s : b < 128 -> b ∈ bytes_of s -> b ∈ runes s.
Proof.
  unfold runes. generalize (bytes_of s) as l. intros l Hb.
  induction l as [|c l Hc E IH|r c l Hc Hc1 Hr E IH] using decode_utf8_ind; intros Hin.
  - done.
  - rewrite E, fmap_cons. cbn [fst]. apply elem_of_cons in Hin as [->|Hin].
    + apply list_elem_of_here.
    + by apply list_elem_of_further, IH.
  - rewrite E, fmap_cons. apply list_elem_of_further, IH.
    apply elem_of_app in Hin as [Hin|]; [|done].
    apply (proj1 (Forall_forall _ _) Hc1) in Hin. lia.
Qed.

(** ** Case mapping *)

(** The rune tables of package [unicode] above ASCII: [unicode.ToLower],
    [unicode.ToUpper], and the least element of a rune's [SimpleFold] orbit. *)
Class Unicode := {
  uni_lower : Z -> Z;
  uni_upper : Z -> Z;
  uni_fold : Z -> Z;
}.

(** The tables of a world without cased letters above ASCII, to evaluate
    definitions on ASCII inputs. *)
Definition ascii_unicode : Unicode :=
  {| uni_lower := fun r => r; uni_upper := fun r => r; uni_fold := fun r => r |}.

Definition is_upper (b : Z) : bool := in_range 65 90 b.
Definition is_lower (b : Z) : bool := in_range 97 122 b.
Definition is_digit (b : Z) : bool := in_range 48 57 b.

Section CaseMapping.
Context `{Unicode}.

Definition lower_rune (r : Z) : Z :=
  if r <? 128 then (if is_upper r then r + 32 else r) else uni_lower r.
Definition upper_rune (r : Z) : Z :=
  if r <? 128 then (if is_lower r then r - 32 else r) else uni_upper r.
Definition fold_rune (r : Z) : Z :=
  if r <? 128 then (if is_lower r then r - 32 else r) else uni_fold r.

(** [strings.Map] over the runes (an invalid byte becomes U+FFFD). *)
Definition map_runes (f : Z -> Z) (s : string) : string :=
  of_bytes (concat (map (fun r => encode_rune (f r)) (runes s))).
Definition ToLower : string -> string := map_runes lower_rune.
Definition ToUpper : string -> string := map_runes upper_rune.

(** [strings.EqualFold]. *)
Definition EqualFold (s t : string) : bool :=
  bool_decide (map fold_rune (runes s) = map fold_rune (runes t)).

Lemma EqualFold_refl s : EqualFold s s = true.
Proof. by apply bool_decide_eq_true. Qed.

Lemma EqualFold_sym s t : EqualFold s t = EqualFold t s.
Proof. unfold EqualFold. apply bool_decide_ext. split; done. Qed.

Lemma EqualFold_trans s t u :
  EqualFold s t = true -> EqualFold t u = true -> EqualFold s u = true.
Proof. unfold EqualFold. rewrite !bool_decide_eq_true. congruence. Qed.

Definition upper_ascii (b : Z) : Z := if is_lower b then b - 32 else b.

Lemma concat_encode_ascii l :
  is_ascii l -> concat (map (fun r => encode_rune (upper_rune r)) l) = map upper_ascii l.
Proof.
  induction 1 as [|b l Hb _ IH]; [done|]. simpl. rewrite IH.
  unfold upper_rune, upper_ascii, is_lower, encode_rune, in_range.
  destruct (Z.ltb_spec b 128); [|lia].
  destruct (Z.leb_spec 97 b), (Z.leb_spec b 122); simpl; try lia;
    match goal with |- (if ?c then _ else _) ++ _ = _ =>
      replace c with true by (symmetry; apply andb_true_intro; split; apply Z.leb_le; lia)
    end; done.
Qed.

(** On ASCII strings, folding is upper-casing. *)
Lemma EqualFold_ToUpper s t :
  is_ascii (bytes_of s) -> is_ascii (bytes_of t) ->
  EqualFold s t = true <-> ToUpper s = ToUpper t.
Proof.
  intros Hs Ht. unfold EqualFold, ToUpper, map_runes.
  rewrite bool_decide_eq_true, !runes_ascii, !concat_encode_ascii by done.
  assert (forall l, is_ascii l -> map fold_rune l = map upper_ascii l) as Hm.
  { intros l Hl. apply map_ext_in. intros b Hb. apply list_elem_of_In in Hb.
    apply (proj1 (Forall_forall _ _) Hl) in Hb. unfold fold_rune, upper_ascii.
    destruct (Z.ltb_spec b 128); [done|lia]. }
  rewrite !Hm by done. split; [congruence|]. intros E.
  apply (f_equal bytes_of) in E. rewrite !bytes_of_of in E; [done| |];
    apply Forall_forall; intros x Hx; apply list_elem_of_In, in_map_iff in Hx;
    destruct Hx as (b & <- & Hb); apply list_elem_of_In in Hb;
    [apply (proj1 (Forall_forall _ _) Ht) in Hb|apply (proj1 (Forall_forall _ _) Hs) in Hb];
    unfold upper_ascii, is_lower, is_byte, in_range; case_if; bprop; lia.
Qed.

End CaseMapping.

(** ** Searching *)

Fixpoint prefix_of (p l : list Z) : bool :=
  match p, l with
  | [], _ => true
  | a :: p, b :: l => (a =? b) && prefix_of p l
  | _ :: _, [] => false
  end.

Definition HasPrefix (s p : string) : bool := prefix_of (bytes_of p) (bytes_of s).
Definition HasSuffix (s p : string) : bool :=
  prefix_of (rev (bytes_of p)) (rev (bytes_of s)).

Fixpoint contains_at (p l : list Z) : bool :=
  prefix_of p l || match l with [] => false | _ :: l => contains_at p l end.
Definition Contains (s sub : string) : bool := contains_at (bytes_of sub) (bytes_of s).

(** [strings.ContainsAny] with an ASCII cutset. *)
Definition ContainsAny (s chars : string) : bool :=
  existsb (fun b => existsb (fun c => c =? b) (bytes_of chars)) (bytes_of s).

Fixpoint index_where (f : Z -> bool) (l : list Z) : option nat :=
  match l with
  | [] => None
  | b :: l => if f b then Some 0%nat else S <$> index_where f l
  end.
Definition index_byte (c : Z) : list Z -> option nat := index_where (fun b => b =? c).
(** [strings.LastIndexByte]. *)
Fixpoint last_index_byte (c : Z) (l : list Z) : option nat :=
  match l with
  | [] => None
  | b :: l => match last_index_byte c l with
              | Some i => Some (S i)
              | None => if b =? c then Some 0%nat else None
              end
  end.

Fixpoint drop_while {A} (f : A -> bool) (l : list A) : list A :=
  match l with
  | [] => []
  | a :: l' => if f a then drop_while f l' else l
  end.
Definition drop_while_end {A} (f : A -> bool) (l : list A) : list A :=
  rev (drop_while f (rev l)).

(** [strings.TrimRight] with an ASCII cutset. *)
Definition TrimRight (s cutset : string) : string :=
  of_bytes (drop_while_end (fun b => existsb (fun c => c =? b) (bytes_of cutset)) (bytes_of s)).

(** [unicode.IsSpace]. *)
Definition is_space (r : Z) : bool :=
  in_range 9 13 r || (r =? 32) || (r =? 133) || (r =? 160) || (r =? 5760)
  || in_range 8192 8202 r || (r =? 8232) || (r =? 8233) || (r =? 8239)
  || (r =? 8287) || (r =? 12288).
(** [unicode.IsControl]. *)
Definition is_control (r : Z) : bool := in_range 0 31 r || in_range 127 159 r.

(** [strings.TrimSpace]. *)
Definition TrimSpace (s : string) : string :=
  let sp := fun x : Z * list Z => is_space x.1 in
  of_bytes (concat (drop_while_end sp (drop_while sp (decode_utf8 (bytes_of s)))).*2).

Definition Join (l : list string) (sep : string) : string :=
  match l with
  | [] => ""
  | s :: l => fold_left (fun acc t => acc +:+ sep +:+ t) l s
  end.

Lemma prefix_of_spec p l : prefix_of p l = true <-> exists r, l = p ++ r.
Proof.
  revert l; induction p as [|a p IH]; intros l; simpl; [naive_solver|].
  destruct l as [|b l]; [split; [done|intros [r Hr]; done]|].
  rewrite andb_true_iff, Z.eqb_eq, IH. naive_solver.
Qed.

Lemma HasPrefix_spec s p : HasPrefix s p = true <-> exists r, s = p +:+ r.
Proof.
  unfold HasPrefix. rewrite prefix_of_spec. split; intros [r Hr].
  - exists (of_bytes r). rewrite <- (of_bytes_of s), Hr, of_bytes_app. by rewrite of_bytes_of.
  - exists (bytes_of r). by rewrite Hr, bytes_of_app.
Qed.

Lemma HasSuffix_spec s p : HasSuffix s p = true <-> exists r, s = r +:+ p.
Proof.
  unfold HasSuffix. rewrite prefix_of_spec. split; intros [r Hr].
  - exists (of_bytes (rev r)). apply (f_equal (@rev Z)) in Hr.
    rewrite rev_involutive, rev_app_distr, rev_involutive in Hr.
    rewrite <- (of_bytes_of s), Hr, of_bytes_app. by rewrite of_bytes_of.
  - exists (rev (bytes_of r)). by rewrite Hr, bytes_of_app, rev_app_distr.
Qed.

Lemma drop_while_end_last {A} (f : A -> bool) l x k :
  drop_while_end f l = k ++ [x] -> f x = false.
Proof.
  unfold drop_while_end. intros Hd. apply (f_equal (@rev A)) in Hd.
  rewrite rev_involutive, rev_app_distr in Hd. simpl in Hd.
  induction (rev l) as [|a r IH]; simpl in Hd; [done|].
  destruct (f a) eqn:E; [auto|]. by inv Hd.
Qed.

Lemma drop_while_suffix {A} (f : A -> bool) l : exists k, l = k ++ drop_while f l /\ forallb f k = true.
Proof.
  induction l as [|a l (k & Hk & Hf)]; simpl; [by exists []|].
  destruct (f a) eqn:E; [|by exists []].
  exists (a :: k); simpl. rewrite <- Hk, E. auto.
Qed.

Lemma drop_while_end_prefix {A} (f : A -> bool) l :
  exists k, l = drop_while_end f l ++ k /\ forallb f k = true.
Proof.
  destruct (drop_while_suffix f (rev l)) as (k & Hk & Hf).
  exists (rev k). unfold drop_while_end. split.
  - rewrite <- rev_app_distr, <- Hk, rev_involutive. done.
  - rewrite forallb_forall in *. intros x Hx. apply Hf, in_rev. done.
Qed.

(** ** Byte strings as numbers *)

(** The number a byte string spells, most significant byte first. *)
Definition be_value (l : list Z) : Z := fold_left (fun acc b => 256 * acc + b) l 0.

Lemma be_value_acc l acc :
  fold_left (fun acc b => 256 * acc + b) l acc = acc * 2 ^ (8 * Z.of_nat (length l)) + be_value l.
Proof.
  unfold be_value. revert acc; induction l as [|b l IH]; intros acc; simpl fold_left; [simpl; lia|].
  rewrite IH, (IH (256 * 0 + b)). cbn [length].
  replace (8 * Z.of_nat (S (length l))) with (8 + 8 * Z.of_nat (length l)) by lia.
  rewrite Z.pow_add_r by lia. change (2 ^ 8) with 256. ring.
Qed.

Lemma be_value_app a b : be_value (a ++ b) = be_value a * 2 ^ (8 * Z.of_nat (length b)) + be_value b.
Proof. unfold be_value at 1. by rewrite fold_left_app, be_value_acc. Qed.

Lemma be_value_cons b l : be_value (b :: l) = b * 2 ^ (8 * Z.of_nat (length l)) + be_value l.
Proof. change (b :: l) with ([b] ++ l). rewrite be_value_app. unfold be_value at 1. simpl. lia. Qed.

Lemma be_value_range l : Forall is_byte l -> 0 <= be_value l < 2 ^ (8 * Z.of_nat (length l)).
Proof.
  induction 1 as [|b l Hb _ IH]; [by vm_compute|]. rewrite be_value_cons. cbn [length].
  replace (8 * Z.of_nat (S (length l))) with (8 + 8 * Z.of_nat (length l)) by lia.
  rewrite Z.pow_add_r by lia. change (2 ^ 8) with 256. unfold is_byte in Hb. nia.
Qed.
