(* ===== verification/GoTime.v ===== *)
(** * Time

    What the program uses of [time]: an instant is its nanoseconds since the
    Unix epoch, a duration its nanoseconds. *)

From S2P Require Import Prelude.

Definition second : Z := 1000000000.
Definition minute : Z := 60 * second.
Definition hour : Z := 60 * minute.

(** The zero [time.Time], January 1 of year 1. *)
Definition zero_time : Z := -62135596800000000000.
Definition is_zero_time (t : Z) : bool := t =? zero_time.

(** [t.Sub(u)] saturates at the ends of [time.Duration]. *)
Definition time_sub (t u : Z) : Z := Z.max min_int64 (Z.min max_int64 (t - u)).

(** [t.UnixNano()] and [t.Unix()]. *)
Definition unix_nano (t : Z) : Z := wrap64 t.
Definition unix_sec (t : Z) : Z := t / second.

(** ** [d.Seconds()]

    A double-precision number, from 0 on and within the normal range, is a fraction
    [n / 2^k]; what matters is how a quotient is rounded to one. *)

Module Float64.

(** The integer nearest to [a / b], the even one of two. *)
Definition round_even (a b : Z) : Z :=
  let q := a / b in
  match 2 * (a mod b) ?= b with
  | Lt => q
  | Gt => q + 1
  | Eq => if Z.even q then q else q + 1
  end.

(** The exponent of the last of the 53 bits of [a / b], [0 < a]. *)
Definition exponent (a b : Z) : Z :=
  let e := Z.log2 a - Z.log2 b in
  if b * 2 ^ Z.max 0 e <=? a * 2 ^ Z.max 0 (- e) then e - 52 else e - 53.

(** [a / b] rounded, as a fraction. *)
Definition of_quot (a b : Z) : Z * Z :=
  let e := exponent a b in
  if e <=? 0 then (round_even (a * 2 ^ (- e)) b, 2 ^ (- e)) else (round_even a (b * 2 ^ e) * 2 ^ e, 1).

(** A rounded quotient stays between two integers. *)
Lemma round_even_between a b lo hi : 0 < b -> lo * b <= a <= hi * b -> lo <= round_even a b <= hi.
Proof.
  intros Hb [Hlo Hhi]. unfold round_even.
  pose proof (Z.div_mod a b ltac:(lia)) as Hd. pose proof (Z.mod_pos_bound a b Hb) as Hm.
  assert (lo <= a / b) by (apply Z.div_le_lower_bound; lia).
  assert (2 * (a mod b) >= b -> a / b + 1 <= hi) by nia.
  assert (a / b <= hi) by nia.
  destruct (2 * (a mod b) ?= b) eqn:E; [rewrite Z.compare_eq_iff in E|rewrite Z.compare_lt_iff in E|rewrite Z.compare_gt_iff in E];
    [destruct (Z.even _)|..]; lia.
Qed.

(** Below [2^52] the grid of the doubles has the integers, so that rounding does not
    leave the interval between two of them. *)
Lemma of_quot_between a b lo hi : 0 <= a -> 0 < b -> a < 2 ^ 52 * b -> lo * b <= a <= hi * b ->
  let '(n, k) := of_quot a b in 0 < k /\ lo * k <= n <= hi * k.
Proof.
  intros Ha Hb Hsmall [Hlo Hhi]. unfold of_quot.
  assert (exponent a b <= 0) as He.
  { unfold exponent. destruct (Z.le_gt_cases (Z.log2 a - Z.log2 b) 52) as [Hl|Hl]; [case_if; lia|].
    pose proof (Z.log2_spec b Hb) as [Hb1 Hb2].
    assert (0 < a) as Ha0.
    { destruct (Z.eq_dec a 0) as [->|]; [|lia]. change (Z.log2 0) with 0 in Hl. pose proof (Z.log2_nonneg b). lia. }
    pose proof (Z.log2_spec a Ha0) as [Ha1 _]. exfalso.
    assert (2 ^ 52 * b < 2 ^ Z.log2 a); [|lia].
    apply Z.lt_le_trans with (2 ^ 52 * 2 ^ Z.succ (Z.log2 b)); [lia|].
    pose proof (Z.log2_nonneg b). rewrite <- Z.pow_add_r by lia. apply Z.pow_le_mono_r; lia. }
  rewrite (proj2 (Z.leb_le _ _) He). assert (0 < 2 ^ (- exponent a b)) as Hp by (apply Z.pow_pos_nonneg; lia).
  split; [done|]. apply round_even_between; nia.
Qed.
End Float64.

(** [float64(d/Second) + float64(d%Second)/1e9], for a duration from 0 on: whole
    seconds are exact as doubles, the quotient and the sum are rounded. *)
Definition Seconds (d : Z) : Z * Z :=
  let '(n, k) := Float64.of_quot (Z.rem d second) second in
  Float64.of_quot (Z.quot d second * k + n) k.

(** [int(d.Seconds())] *)
Definition int_seconds (d : Z) : Z := let '(n, k) := Seconds d in Z.quot n k.

(** The seconds of [d], or one more when the fraction is rounded up. *)
Lemma int_seconds_bounds d : 0 <= d <= max_int64 -> d / second <= int_seconds d <= d / second + 1.
Proof.
  intros Hd. unfold int_seconds, Seconds. rewrite Z.quot_div_nonneg, Z.rem_mod_nonneg by (unfold second; lia).
  pose proof (Z.mod_pos_bound d second ltac:(done)) as Hr.
  assert (0 <= d / second <= 9223372036) as Hq.
  { split; [by apply Z.div_pos; unfold second; lia|]. change 9223372036 with (max_int64 / second). apply Z.div_le_mono; [done|lia]. }
  assert (d mod second < 2 ^ 52 * second) as Hs by (apply Z.lt_le_trans with (1 * second); [lia|done]).
  pose proof (Float64.of_quot_between (d mod second) second 0 1 (proj1 Hr) eq_refl Hs ltac:(lia)) as H1.
  destruct (Float64.of_quot _ second) as [n k]. destruct H1 as [Hk Hn].
  assert (d / second * k + n < 2 ^ 52 * k) as Hsmall.
  { apply Z.le_lt_trans with ((9223372036 + 1) * k); [|apply Z.mul_lt_mono_pos_r; lia].
    rewrite Z.mul_add_distr_r. apply Z.add_le_mono; [apply Z.mul_le_mono_nonneg_r|]; lia. }
  pose proof (Float64.of_quot_between (d / second * k + n) k (d / second) (d / second + 1)
    ltac:(nia) Hk Hsmall ltac:(lia)) as H2.
  destruct (Float64.of_quot _ k) as [n2 k2]. destruct H2 as [Hk2 Hn2].
  rewrite Z.quot_div_nonneg by nia. split; [apply Z.div_le_lower_bound; lia|].
  apply Z.lt_succ_r, Z.div_lt_upper_bound; nia.
Qed.

(** A minute is a minute; a year and a bit of less than a second is rounded up. *)
Example int_seconds_minute : int_seconds minute = 60 /\ int_seconds (minute + second - 1) = 60.
Proof. by vm_compute. Qed.
Example int_seconds_year : int_seconds (2 ^ 25 * second + 999999999) = 2 ^ 25 + 1.
Proof. by vm_compute. Qed.
