(* ===== verification/Strconv.v ===== *)
(** * Decimal numbers

    The program's own [itoa] loops (memory and redis counters, HTTP headers),
    [strconv.FormatInt]/[%d], and [strconv.ParseInt] with base 10, on 64-bit
    integers. *)

From S2P Require Import Prelude GoStrings.

(** [for n > 0 { i--; buf[i] = byte('0' + n%10); n /= 10 }]: the digits are
    pushed in front of what the buffer already holds.  [fuel] bounds the
    iterations; the buffers of the program have 20 bytes. *)
Fixpoint itoa_loop (fuel : nat) (n : Z) (acc : list Z) : list Z :=
  match fuel with
  | O => acc
  | S fuel => if n <=? 0 then acc else itoa_loop fuel (n / 10) ((48 + n mod 10) :: acc)
  end.

(** The hand-written [itoa]: negation wraps around. *)
Definition itoa (n : Z) : string :=
  if n =? 0 then "0"
  else
    let neg := n <? 0 in
    let m := if neg then wrap64 (- n) else n in
    of_bytes ((if neg then [45] else []) ++ itoa_loop 20 m []).

(** [strconv.FormatInt(n, 10)], [fmt.Sprintf("%d", n)]. *)
Definition format_int (n : Z) : string :=
  if n =? 0 then "0"
  else of_bytes ((if n <? 0 then [45] else []) ++ itoa_loop 20 (Z.abs n) []).

(** Value of a digit list, most significant first. *)
Fixpoint dec_value (acc : Z) (l : list Z) : Z :=
  match l with
  | [] => acc
  | b :: l => dec_value (acc * 10 + (b - 48)) l
  end.

(** [strconv.ParseInt(s, 10, 64)]; [None] is a syntax or range error. *)
Definition parse_int (s : string) : option Z :=
  let '(neg, l) :=
    match bytes_of s with
    | [] => (false, [])
    | c :: l => if c =? 43 then (false, l) else if c =? 45 then (true, l) else (false, c :: l)
    end in
  match l with
  | [] => None
  | _ :: _ =>
      if forallb is_digit l then
        let v := dec_value 0 l in
        if neg then (if v <=? two63 then Some (- v) else None)
        else (if v <? two63 then Some v else None)
      else None
  end.

(** ** Digits *)

Lemma dec_value_snoc acc l b : dec_value acc (l ++ [b]) = dec_value acc l * 10 + (b - 48).
Proof. revert acc; induction l; intros; simpl; [done|auto]. Qed.

Lemma itoa_loop_app fuel n acc : itoa_loop fuel n acc = itoa_loop fuel n [] ++ acc.
Proof.
  revert n acc; induction fuel as [|f IH]; intros; simpl; [done|].
  case_if; [done|]. rewrite IH, (IH _ [_]), <- app_assoc. done.
Qed.

Lemma itoa_loop_digits fuel n : Forall (fun b => is_digit b = true) (itoa_loop fuel n []).
Proof.
  revert n; induction fuel as [|f IH]; intros; simpl; [constructor|].
  case_if; [constructor|]. rewrite itoa_loop_app. apply Forall_app; split; [done|].
  constructor; [|done]. unfold is_digit, in_range.
  pose proof (Z.mod_pos_bound n 10). apply andb_true_intro; split; apply Z.leb_le; lia.
Qed.

Lemma itoa_loop_value fuel n :
  0 <= n < 10 ^ Z.of_nat fuel -> dec_value 0 (itoa_loop fuel n []) = n.
Proof.
  revert n; induction fuel as [|f IH]; intros n Hn; [simpl in *; lia|].
  rewrite Nat2Z.inj_succ, Z.pow_succ_r in Hn by lia.
  simpl. destruct (Z.leb_spec n 0); [simpl; lia|].
  rewrite itoa_loop_app, dec_value_snoc, IH.
  - pose proof (Z.div_mod n 10). lia.
  - split; [apply Z.div_pos; lia|]. apply Z.div_lt_upper_bound; lia.
Qed.

(** The digit loop fills no more cells than the number has digits. *)
Lemma itoa_loop_length fuel n k :
  0 <= n < 10 ^ Z.of_nat k -> (length (itoa_loop fuel n []) <= k)%nat.
Proof.
  revert n k; induction fuel as [|f IH]; intros n k Hn; simpl; [lia|].
  destruct (Z.leb_spec n 0); [simpl; lia|].
  rewrite itoa_loop_app, length_app; simpl.
  destruct k as [|k]; [simpl in Hn; lia|].
  rewrite Nat2Z.inj_succ, Z.pow_succ_r in Hn by lia.
  assert (length (itoa_loop f (n / 10) []) <= k)%nat; [|lia].
  apply IH. split; [apply Z.div_pos; lia|]. apply Z.div_lt_upper_bound; lia.
Qed.

Lemma itoa_loop_nonempty fuel n : 0 < n -> itoa_loop (S fuel) n [] <> [].
Proof.
  intros. simpl. destruct (Z.leb_spec n 0); [lia|]. rewrite itoa_loop_app.
  intros E. apply app_eq_nil in E. naive_solver.
Qed.

Lemma is_digit_range b : is_digit b = true -> 48 <= b <= 57.
Proof. unfold is_digit, in_range; intros; bprop; lia. Qed.

Lemma digits_bytes l : Forall (fun b => is_digit b = true) l -> Forall is_byte l.
Proof.
  intros H; eapply Forall_impl; [exact H|]. intros b Hb; apply is_digit_range in Hb.
  unfold is_byte; lia.
Qed.

(** The bytes of a printed number: an optional sign and digits. *)
Definition dec_bytes (n : Z) : list Z :=
  if n =? 0 then [48]
  else (if n <? 0 then [45] else []) ++ itoa_loop 20 (Z.abs n) [].

Lemma format_int_bytes n : bytes_of (format_int n) = dec_bytes n.
Proof.
  unfold format_int, dec_bytes. destruct (n =? 0); [reflexivity|].
  apply bytes_of_of, Forall_app; split; [destruct (n <? 0); forall_cons; unfold is_byte; lia|].
  apply digits_bytes, itoa_loop_digits.
Qed.

Definition dec_char (b : Z) : Prop := b = 45 \/ 48 <= b <= 57.

Lemma dec_bytes_chars n : Forall dec_char (dec_bytes n).
Proof.
  unfold dec_bytes, dec_char. destruct (n =? 0); [forall_cons; lia|].
  apply Forall_app; split; [destruct (n <? 0); forall_cons; lia|].
  eapply Forall_impl; [apply itoa_loop_digits|]. intros b Hb. apply is_digit_range in Hb. lia.
Qed.

Lemma parse_format_int n : int64_range n -> parse_int (format_int n) = Some n.
Proof.
  intros Hn. unfold parse_int. rewrite format_int_bytes. unfold dec_bytes.
  unfold int64_range, min_int64, max_int64 in Hn.
  destruct (Z.eqb_spec n 0) as [->|Hz]; [reflexivity|].
  pose proof (itoa_loop_digits 20 (Z.abs n)) as Hd.
  pose proof (itoa_loop_value 20 (Z.abs n) ltac:(lia)) as Hv.
  pose proof (itoa_loop_nonempty 19 (Z.abs n) ltac:(lia)) as Hne.
  change (Z.abs n) with (Z.abs n) in *.
  remember (itoa_loop 20 (Z.abs n) []) as ds eqn:Eds. clear Eds.
  destruct ds as [|d ds]; [done|].
  assert (Hfb : forallb is_digit (d :: ds) = true) by (apply forallb_Forall; done).
  assert (48 <= d <= 57) by (inv Hd; auto using is_digit_range).
  unfold two63. destruct (Z.ltb_spec n 0).
  - simpl app. cbv iota beta. cbn [Z.eqb Pos.eqb].
    cbv iota zeta. rewrite Hfb, Hv.
    destruct (Z.leb_spec (Z.abs n) 9223372036854775808); [f_equal; lia|lia].
  - simpl app. cbv iota beta.
    rewrite (proj2 (Z.eqb_neq d 43)), (proj2 (Z.eqb_neq d 45)) by lia.
    cbv iota zeta. rewrite Hfb, Hv.
    destruct (Z.ltb_spec (Z.abs n) 9223372036854775808); [f_equal; lia|lia].
Qed.

Lemma format_int_inj n m :
  int64_range n -> int64_range m -> format_int n = format_int m -> n = m.
Proof.
  intros Hn Hm E. apply (f_equal parse_int) in E. rewrite !parse_format_int in E by done.
  congruence.
Qed.

(** The hand-written loop agrees with [strconv] everywhere but at the least
    integer, whose negation wraps. *)
Lemma itoa_format_int n : min_int64 < n <= max_int64 -> itoa n = format_int n.
Proof.
  intros Hn. unfold itoa, format_int. destruct (n =? 0); [done|].
  do 2 f_equal. destruct (Z.ltb_spec n 0).
  - rewrite wrap64_id; [by rewrite Z.abs_neq by lia|].
    unfold int64_range, min_int64, max_int64 in *; lia.
  - by rewrite Z.abs_eq by lia.
Qed.

Lemma itoa_min_int64 : itoa min_int64 = "-"%string.
Proof. vm_compute. reflexivity. Qed.
