(* ===== verification/Sha256.v ===== *)
(** * SHA-256 and hexadecimal

    [crypto/sha256.Sum256] (FIPS 180-4) and [encoding/hex.EncodeToString], on
    byte lists.  Words are 32-bit integers in [Z]. *)

From S2P Require Import Prelude GoStrings.

Definition mask32 (x : Z) : Z := Z.land x 4294967295.
Definition add32 (x y : Z) : Z := mask32 (x + y).
Definition rotr (n x : Z) : Z := Z.lor (Z.shiftr x n) (mask32 (Z.shiftl x (32 - n))).

Definition ch (x y z : Z) : Z := Z.lxor (Z.land x y) (Z.land (Z.lxor x 4294967295) z).
Definition maj (x y z : Z) : Z :=
  Z.lxor (Z.lxor (Z.land x y) (Z.land x z)) (Z.land y z).
Definition big_sigma0 (x : Z) : Z := Z.lxor (Z.lxor (rotr 2 x) (rotr 13 x)) (rotr 22 x).
Definition big_sigma1 (x : Z) : Z := Z.lxor (Z.lxor (rotr 6 x) (rotr 11 x)) (rotr 25 x).
Definition small_sigma0 (x : Z) : Z :=
  Z.lxor (Z.lxor (rotr 7 x) (rotr 18 x)) (Z.shiftr x 3).
Definition small_sigma1 (x : Z) : Z :=
  Z.lxor (Z.lxor (rotr 17 x) (rotr 19 x)) (Z.shiftr x 10).

(** The constants are fractional parts of roots of the first primes (FIPS 180-4,
    4.2.2 and 5.3.3): 32 bits of the cube roots of 64 primes, and of the square
    roots of the first eight. *)
Fixpoint first_primes (fuel : nat) (want : nat) (n : Z) (found : list Z) : list Z :=
  match fuel, want with
  | S fuel, S want' =>
      if existsb (fun p => n mod p =? 0) found then first_primes fuel want (n + 1) found
      else first_primes fuel want' (n + 1) (found ++ [n])
  | _, _ => found
  end.
Definition primes : list Z := Eval vm_compute in first_primes 400 64 2 [].

(** The largest [x] with [x ^ 3 <= n], bit by bit from bit [k - 1]. *)
Fixpoint cube_root (k : nat) (x n : Z) : Z :=
  match k with
  | O => x
  | S k => let y := x + 2 ^ Z.of_nat k in cube_root k (if y * y * y <=? n then y else x) n
  end.

Definition sha256_k : list Z := Eval vm_compute in
  map (fun p => mask32 (cube_root 40 0 (p * 2 ^ 96))) primes.

Record sha_state := ShaState {
  sa : Z; sb : Z; sc : Z; sd : Z; se : Z; sf : Z; sg : Z; sh : Z
}.

Definition sha256_init : sha_state := Eval vm_compute in
  let h i := mask32 (Z.sqrt (nth i primes 0 * 2 ^ 64)) in
  ShaState (h 0%nat) (h 1%nat) (h 2%nat) (h 3%nat) (h 4%nat) (h 5%nat) (h 6%nat) (h 7%nat).

Definition sha_round (s : sha_state) (kw : Z * Z) : sha_state :=
  let '(ShaState a b c d e f g h) := s in
  let t1 := mask32 (h + big_sigma1 e + ch e f g + kw.1 + kw.2) in
  let t2 := add32 (big_sigma0 a) (maj a b c) in
  ShaState (add32 t1 t2) a b c (add32 d t1) e f g.

(** The message schedule, newest word first. *)
Fixpoint schedule (n : nat) (w : list Z) : list Z :=
  match n with
  | O => w
  | S n =>
      let x := mask32 (small_sigma1 (nth 1 w 0) + nth 6 w 0
                       + small_sigma0 (nth 14 w 0) + nth 15 w 0) in
      schedule n (x :: w)
  end.

Definition sha_block (s : sha_state) (w16 : list Z) : sha_state :=
  let w := rev (schedule 48 (rev w16)) in
  let r := fold_left sha_round (combine sha256_k w) s in
  ShaState (add32 (sa s) (sa r)) (add32 (sb s) (sb r)) (add32 (sc s) (sc r))
           (add32 (sd s) (sd r)) (add32 (se s) (se r)) (add32 (sf s) (sf r))
           (add32 (sg s) (sg r)) (add32 (sh s) (sh r)).

(** Big-endian words of a byte list whose length is a multiple of four. *)
Fixpoint be_words (l : list Z) : list Z :=
  match l with
  | b0 :: b1 :: b2 :: b3 :: l => (b0 * 16777216 + b1 * 65536 + b2 * 256 + b3) :: be_words l
  | _ => []
  end.

Fixpoint sha_blocks (fuel : nat) (s : sha_state) (w : list Z) : sha_state :=
  match fuel, w with
  | O, _ | _, [] => s
  | S fuel, _ => sha_blocks fuel (sha_block s (take 16 w)) (drop 16 w)
  end.

Definition be_bytes (n : nat) (x : Z) : list Z :=
  map (fun i => Z.land (Z.shiftr x (8 * Z.of_nat i)) 255) (rev (seq 0 n)).

Definition sha_pad (l : list Z) : list Z :=
  let n := Z.of_nat (length l) in
  l ++ [128] ++ repeat 0 (Z.to_nat ((55 - n) mod 64)) ++ be_bytes 8 (8 * n).

(** [sha256.Sum256]. *)
Definition sha256 (l : list Z) : list Z :=
  let w := be_words (sha_pad l) in
  let '(ShaState a b c d e f g h) := sha_blocks (length w) sha256_init w in
  concat (map (be_bytes 4) [a; b; c; d; e; f; g; h]).

Definition hex_digit (n : Z) : Z := if n <? 10 then 48 + n else 87 + n.

(** [hex.EncodeToString]. *)
Definition hex_encode (l : list Z) : string :=
  of_bytes (concat (map (fun b => [hex_digit (b / 16); hex_digit (b mod 16)]) l)).

(** Value of a digit, for the inverse. *)
Definition hex_value (c : Z) : option Z :=
  if in_range 48 57 c then Some (c - 48)
  else if in_range 97 102 c then Some (c - 87)
  else if in_range 65 70 c then Some (c - 55)
  else None.

Lemma hex_value_digit n : 0 <= n < 16 -> hex_value (hex_digit n) = Some n.
Proof.
  intros. unfold hex_value, hex_digit, in_range.
  destruct (Z.ltb_spec n 10);
    repeat (match goal with |- context [?a <=? ?b] => destruct (Z.leb_spec a b) end;
            simpl; try lia); f_equal; lia.
Qed.

Lemma be_bytes_range n x : Forall is_byte (be_bytes n x).
Proof.
  unfold be_bytes. apply Forall_forall. intros b Hb. apply list_elem_of_In, in_map_iff in Hb.
  destruct Hb as (i & <- & _). change 255 with (Z.ones 8). rewrite Z.land_ones by lia.
  apply Z.mod_pos_bound; lia.
Qed.

Lemma length_be_bytes n x : length (be_bytes n x) = n.
Proof. unfold be_bytes. by rewrite length_map, length_rev, length_seq. Qed.

Lemma sha256_length l : length (sha256 l) = 32%nat.
Proof. unfold sha256. by destruct (sha_blocks _ _ _). Qed.

Lemma sha256_bytes l : Forall is_byte (sha256 l).
Proof.
  unfold sha256. destruct (sha_blocks _ _ _).
  cbn [concat map]. rewrite !Forall_app. auto 20 using be_bytes_range.
Qed.

Lemma hex_encode_length l : String.length (hex_encode l) = (2 * length l)%nat.
Proof.
  unfold hex_encode. rewrite length_of_bytes. induction l; [done|]. simpl in *. lia.
Qed.

Definition hex_lower (b : Z) : Prop := 48 <= b <= 57 \/ 97 <= b <= 102.

Lemma hex_digit_range n : 0 <= n < 16 -> hex_lower (hex_digit n).
Proof. unfold hex_lower, hex_digit. intros. destruct (Z.ltb_spec n 10); lia. Qed.

Lemma hex_encode_chars l :
  Forall is_byte l ->
  Forall hex_lower (concat (map (fun b => [hex_digit (b / 16); hex_digit (b mod 16)]) l)).
Proof.
  induction 1 as [|b l Hb _ IH]; simpl; [done|]. unfold is_byte in Hb.
  repeat (apply Forall_cons; split); [| |done]; apply hex_digit_range.
  - split; [apply Z.div_pos; lia|apply Z.div_lt_upper_bound; lia].
  - apply Z.mod_pos_bound; lia.
Qed.

Lemma hex_lower_byte b : hex_lower b -> is_byte b.
Proof. unfold hex_lower, is_byte; lia. Qed.

Lemma hex_encode_bytes l :
  Forall is_byte l ->
  bytes_of (hex_encode l)
  = concat (map (fun b => [hex_digit (b / 16); hex_digit (b mod 16)]) l).
Proof.
  intros. unfold hex_encode. apply bytes_of_of.
  eapply Forall_impl; [by apply hex_encode_chars|apply hex_lower_byte].
Qed.

Lemma hex_digits_inj x y :
  is_byte x -> is_byte y ->
  hex_digit (x / 16) = hex_digit (y / 16) -> hex_digit (x mod 16) = hex_digit (y mod 16) ->
  x = y.
Proof.
  unfold is_byte; intros Hx Hy H1 H2.
  assert (forall a, 0 <= a < 256 -> 0 <= a / 16 < 16 /\ 0 <= a mod 16 < 16) as Hr.
  { intros; split; [|apply Z.mod_pos_bound; lia].
    split; [apply Z.div_pos; lia|apply Z.div_lt_upper_bound; lia]. }
  pose proof (Hr x Hx) as []; pose proof (Hr y Hy) as [].
  apply (f_equal hex_value) in H1, H2. rewrite !hex_value_digit in H1, H2 by done.
  inv H1; inv H2. rewrite (Z.div_mod x 16), (Z.div_mod y 16) by lia. congruence.
Qed.

(** Hex encoding loses nothing. *)
Lemma hex_encode_inj l k :
  Forall is_byte l -> Forall is_byte k -> hex_encode l = hex_encode k -> l = k.
Proof.
  intros Hl Hk E. apply (f_equal bytes_of) in E. rewrite !hex_encode_bytes in E by done.
  revert k Hk E. induction Hl as [|b l Hb Hl IH]; intros [|c k] Hk E; try done.
  inv Hk. f_equal; eauto using hex_digits_inj.
Qed.

Example sha256_abc :
  hex_encode (sha256 (bytes_of "abc"))
  = "ba7816bf8f01cfea414140de5dae2223b00361a396177a9cb410ff61f20015ad"%string.
Proof. vm_compute. reflexivity. Qed.

Example sha256_empty :
  hex_encode (sha256 [])
  = "e3b0c44298fc1c149afbf4c8996fb92427ae41e4649b934ca495991b7852b855"%string.
Proof. vm_compute. reflexivity. Qed.

Example sha256_two_blocks :
  hex_encode (sha256 (bytes_of "abcdbcdecdefdefgefghfghighijhijkijkljklmklmnlmnomnopnopq"))
  = "248d6a61d20638b8e5c026930c3e6039a33ce45964ff2167f6ecedd419db06c1"%string.
Proof. vm_compute. reflexivity. Qed.
