(* ===== verification/Base64.v ===== *)
(** * Base64url

    [base64.RawURLEncoding] and [base64.URLEncoding] of [encoding/base64] in
    their default, non-strict mode: line breaks are skipped, trailing bits are
    not checked. *)

From S2P Require Import Prelude GoStrings.

(** Alphabet: A-Z a-z 0-9 - _ *)
Definition b64_char (n : Z) : Z :=
  if n <? 26 then 65 + n
  else if n <? 52 then 71 + n
  else if n <? 62 then n - 4
  else if n =? 62 then 45 else 95.

Definition b64_value (c : Z) : option Z :=
  if in_range 65 90 c then Some (c - 65)
  else if in_range 97 122 c then Some (c - 71)
  else if in_range 48 57 c then Some (c + 4)
  else if c =? 45 then Some 62
  else if c =? 95 then Some 63
  else None.

Fixpoint b64_encode (pad : bool) (l : list Z) : list Z :=
  let eq := if pad then [61] else [] in
  match l with
  | [] => []
  | [b0] => [b64_char (b0 / 4); b64_char ((b0 mod 4) * 16)] ++ eq ++ eq
  | [b0; b1] =>
      [b64_char (b0 / 4); b64_char ((b0 mod 4) * 16 + b1 / 16);
       b64_char ((b1 mod 16) * 4)] ++ eq
  | b0 :: b1 :: b2 :: l =>
      b64_char (b0 / 4) :: b64_char ((b0 mod 4) * 16 + b1 / 16)
      :: b64_char ((b1 mod 16) * 4 + b2 / 64) :: b64_char (b2 mod 64)
      :: b64_encode pad l
  end.

(** One quantum of four characters per step, line breaks already removed. *)
Fixpoint b64_quanta (pad : bool) (l : list Z) : option (list Z) :=
  match l with
  | [] => Some []
  | [_] => None
  | [c0; c1] =>
      if pad then None
      else match b64_value c0, b64_value c1 with
           | Some v0, Some v1 => Some [v0 * 4 + v1 / 16]
           | _, _ => None
           end
  | [c0; c1; c2] =>
      if pad then None
      else match b64_value c0, b64_value c1, b64_value c2 with
           | Some v0, Some v1, Some v2 =>
               Some [v0 * 4 + v1 / 16; (v1 mod 16) * 16 + v2 / 4]
           | _, _, _ => None
           end
  | c0 :: c1 :: c2 :: c3 :: l =>
      match b64_value c0, b64_value c1 with
      | Some v0, Some v1 =>
          match b64_value c2, b64_value c3 with
          | Some v2, Some v3 =>
              match b64_quanta pad l with
              | Some r => Some (v0 * 4 + v1 / 16 :: (v1 mod 16) * 16 + v2 / 4
                                :: (v2 mod 4) * 64 + v3 :: r)
              | None => None
              end
          | Some v2, None =>
              if pad && (c3 =? 61) && bool_decide (l = [])
              then Some [v0 * 4 + v1 / 16; (v1 mod 16) * 16 + v2 / 4] else None
          | None, _ =>
              if pad && (c2 =? 61) && (c3 =? 61) && bool_decide (l = [])
              then Some [v0 * 4 + v1 / 16] else None
          end
      | _, _ => None
      end
  end.

Definition is_crlf (b : Z) : bool := (b =? 10) || (b =? 13).

(** [DecodeString]; [pad] tells [URLEncoding] from [RawURLEncoding]. *)
Definition b64_decode (pad : bool) (l : list Z) : option (list Z) :=
  b64_quanta pad (List.filter (fun b => negb (is_crlf b)) l).

(** ** Round trip *)

Lemma b64_value_char n : 0 <= n < 64 -> b64_value (b64_char n) = Some n.
Proof.
  intros Hn. unfold b64_char.
  repeat (match goal with
          | |- context [n <? ?b] => destruct (Z.ltb_spec n b)
          | |- context [n =? ?b] => destruct (Z.eqb_spec n b)
          end); unfold b64_value, in_range;
  repeat (match goal with
          | |- context [?a <=? ?b] => destruct (Z.leb_spec a b); try lia
          | |- context [?a =? ?b] => destruct (Z.eqb_spec a b); try lia
          end; cbn [andb]); f_equal; lia.
Qed.

Lemma b64_char_range n : 0 <= n < 64 -> 45 <= b64_char n <= 122.
Proof.
  intros. unfold b64_char.
  repeat (match goal with
          | |- context [?a <? ?b] => destruct (Z.ltb_spec a b)
          | |- context [?a =? ?b] => destruct (Z.eqb_spec a b)
          end; try lia).
Qed.

(** Three bytes at a time. *)
Lemma triple_ind (P : list Z -> Prop) :
  P [] -> (forall a, P [a]) -> (forall a b, P [a; b]) ->
  (forall a b c l, P l -> P (a :: b :: c :: l)) -> forall l, P l.
Proof.
  intros H0 H1 H2 H3 l. induction (Nat.lt_wf_0_projected (@length Z) l) as [l _ IH].
  destruct l as [|a [|b [|c l]]]; auto. apply H3, IH. simpl; lia.
Qed.

Ltac byte_bounds :=
  unfold is_byte in *;
  repeat match goal with
  | H : 0 <= ?b < 256 |- _ =>
      lazymatch goal with
      | _ : 0 <= b / 4 < 64 |- _ => fail
      | _ =>
          assert (0 <= b / 4 < 64) by (split; [apply Z.div_pos; lia|apply Z.div_lt_upper_bound; lia]);
          assert (0 <= b / 16 < 16) by (split; [apply Z.div_pos; lia|apply Z.div_lt_upper_bound; lia]);
          assert (0 <= b / 64 < 4) by (split; [apply Z.div_pos; lia|apply Z.div_lt_upper_bound; lia]);
          pose proof (Z.mod_pos_bound b 4 ltac:(lia)); pose proof (Z.mod_pos_bound b 16 ltac:(lia));
          pose proof (Z.mod_pos_bound b 64 ltac:(lia));
          pose proof (Z.div_mod b 4 ltac:(lia)); pose proof (Z.div_mod b 16 ltac:(lia));
          pose proof (Z.div_mod b 64 ltac:(lia))
      end
  end.

Lemma div_pack a b n : 0 < n -> 0 <= b < n -> (a * n + b) / n = a.
Proof. intros. rewrite Z.div_add_l, Z.div_small by lia. lia. Qed.
Lemma mod_pack a b n : 0 < n -> 0 <= b < n -> (a * n + b) mod n = b.
Proof. intros. rewrite Z.add_comm, Z.mod_add, Z.mod_small by lia. lia. Qed.

Lemma b64_quanta_encode pad l :
  Forall is_byte l -> b64_quanta pad (b64_encode pad l) = Some l.
Proof.
  induction l as [|a|a b|a b c l IH] using triple_ind; intros Hl;
    repeat match goal with H : Forall _ (_ :: _) |- _ => inv H end; byte_bounds.
  - done.
  - assert ((a mod 4 * 16) / 16 = a mod 4) by (apply Z.div_mul; lia).
    destruct pad; simpl; rewrite !b64_value_char by lia; simpl; repeat f_equal; lia.
  - pose proof (div_pack (a mod 4) (b / 16) 16 ltac:(lia) ltac:(lia)).
    pose proof (mod_pack (a mod 4) (b / 16) 16 ltac:(lia) ltac:(lia)).
    assert ((b mod 16 * 4) / 4 = b mod 16) by (apply Z.div_mul; lia).
    destruct pad; simpl; rewrite !b64_value_char by lia; simpl; repeat f_equal; lia.
  - pose proof (div_pack (a mod 4) (b / 16) 16 ltac:(lia) ltac:(lia)).
    pose proof (mod_pack (a mod 4) (b / 16) 16 ltac:(lia) ltac:(lia)).
    pose proof (div_pack (b mod 16) (c / 64) 4 ltac:(lia) ltac:(lia)).
    pose proof (mod_pack (b mod 16) (c / 64) 4 ltac:(lia) ltac:(lia)).
    simpl. rewrite !b64_value_char, IH by (done || lia).
    repeat f_equal; lia.
Qed.

Lemma b64_encode_chars pad l :
  Forall is_byte l -> Forall (fun c => 45 <= c <= 122) (b64_encode pad l).
Proof.
  induction l as [|a|a b|a b c l IH] using triple_ind; intros Hl;
    repeat match goal with H : Forall _ (_ :: _) |- _ => inv H end; byte_bounds;
    destruct pad; simpl; forall_cons; try apply b64_char_range; auto; lia.
Qed.

Lemma filter_crlf_id k : Forall (fun c => 45 <= c <= 122) k ->
  List.filter (fun b => negb (is_crlf b)) k = k.
Proof.
  induction 1 as [|c k Hc _ IH]; [done|]. simpl. unfold is_crlf at 1.
  destruct (Z.eqb_spec c 10), (Z.eqb_spec c 13); try lia. simpl. by rewrite IH.
Qed.

(** Decoding an encoding gives the bytes back, with or without padding. *)
Lemma b64_decode_encode pad l :
  Forall is_byte l -> b64_decode pad (b64_encode pad l) = Some l.
Proof.
  intros Hl. unfold b64_decode. rewrite filter_crlf_id by auto using b64_encode_chars.
  by apply b64_quanta_encode.
Qed.

(** The unpadded decoder on a padded text: it stops at the padding, and where
    there is none it gives the same bytes. *)
Lemma b64_quanta_padded l :
  Forall is_byte l ->
  b64_quanta false (b64_encode true l) = None \/ b64_quanta false (b64_encode true l) = Some l.
Proof.
  intros Hl. pose proof (b64_quanta_encode true l Hl) as E. revert Hl E.
  induction l as [|a|a b|a b c l IH] using triple_ind; intros Hl E; [by right| | |].
  - left. simpl. by repeat case_match.
  - left. simpl. by repeat case_match.
  - repeat match goal with H : Forall _ (_ :: _) |- _ => inv H end.
    rename select (Forall _ _) into Hl.
    specialize (IH Hl (b64_quanta_encode true l Hl)). simpl in E |- *.
    repeat case_match; try (by left); try congruence; simplify_eq; auto.
    destruct IH as [?|?]; simplify_eq; auto.
Qed.

Lemma b64_decode_padded l :
  Forall is_byte l ->
  b64_decode false (b64_encode true l) = None \/ b64_decode false (b64_encode true l) = Some l.
Proof.
  intros Hl. unfold b64_decode. rewrite filter_crlf_id by auto using b64_encode_chars.
  by apply b64_quanta_padded.
Qed.
