(* ===== verification/Netip.v ===== *)
(** * IP addresses

    What the program uses of [net/netip]: [ParseAddr], [Addr.Unmap],
    [Addr.String] and address equality. *)

From S2P Require Import Prelude GoStrings Strconv Sha256.

(** An address is four bytes, or sixteen bytes with an optional zone ([""]
    when there is none). *)
Inductive addr : Type :=
  | Addr4 (b : list Z)
  | Addr6 (b : list Z) (zone : string).

#[export] Instance addr_eq_dec : EqDecision addr.
Proof. solve_decision. Defined.

(** ** Parsing *)

(** [parseIPv4Fields]: octets, most recent first; [prev] is the byte before. *)
Fixpoint v4_fields (l : list Z) (prev : option Z) (val digLen : Z) (fields : list Z)
  : option (list Z) :=
  match l with
  | [] => if (length fields <? 3)%nat then None else Some (rev (val :: fields))
  | c :: l' =>
      if is_digit c then
        if (digLen =? 1) && (val =? 0) then None
        else
          let val' := val * 10 + (c - 48) in
          if 255 <? val' then None else v4_fields l' (Some c) val' (digLen + 1) fields
      else if c =? 46 then
        if bool_decide (prev = None) || bool_decide (l' = []) || bool_decide (prev = Some 46)
        then None
        else if (length fields =? 3)%nat then None
        else v4_fields l' (Some c) 0 0 (val :: fields)
      else None
  end.

(** One group of at most four hex digits: value, digits read, rest. *)
Fixpoint hex_group (l : list Z) (acc off : Z) : option (Z * Z * list Z) :=
  match l with
  | [] => Some (acc, off, [])
  | c :: l' =>
      match hex_value c with
      | Some v => if 3 <? off then None else hex_group l' (acc * 16 + v) (off + 1)
      | None => Some (acc, off, l)
      end
  end.

(** The group loop of [parseIPv6]: [ip] the bytes so far, [ell] the position of
    [::].  At most eight groups of two bytes fit, which bounds [fuel]. *)
Fixpoint v6_loop (fuel : nat) (s ip : list Z) (ell : option nat)
  : option (list Z * list Z * option nat) :=
  match fuel with
  | O => Some (s, ip, ell)
  | S fuel =>
      match hex_group s 0 0 with
      | None => None
      | Some (acc, off, rest) =>
          if off =? 0 then None
          else match rest with
          | [] => Some ([], ip ++ [acc / 256; acc mod 256], ell)
          | c :: rest' =>
              if c =? 46 then
                if bool_decide (ell = None) && negb (length ip =? 12)%nat then None
                else if (16 <? length ip + 4)%nat then None
                else match v4_fields s None 0 0 [] with
                     | Some fs => Some ([], ip ++ fs, ell)
                     | None => None
                     end
              else
                let ip' := ip ++ [acc / 256; acc mod 256] in
                if negb (c =? 58) then None
                else match rest' with
                | [] => None
                | d :: rest'' =>
                    if d =? 58 then
                      match ell with
                      | Some _ => None
                      | None =>
                          match rest'' with
                          | [] => Some ([], ip', Some (length ip'))
                          | _ :: _ => v6_loop fuel rest'' ip' (Some (length ip'))
                          end
                      end
                    else v6_loop fuel rest' ip' ell
                end
          end
      end
  end.

Definition v6_finish (r : list Z * list Z * option nat) : option (list Z) :=
  let '(s, ip, ell) := r in
  match s with
  | _ :: _ => None
  | [] =>
      if (length ip <? 16)%nat then
        match ell with
        | None => None
        | Some e => Some (take e ip ++ repeat 0 (16 - length ip) ++ drop e ip)
        end
      else match ell with Some _ => None | None => Some ip end
  end.

(** Split at the first ['%']; an empty zone is an error. *)
Definition split_zone (l : list Z) : option (list Z * list Z) :=
  match index_byte 37 l with
  | None => Some (l, [])
  | Some i => match drop (S i) l with [] => None | z => Some (take i l, z) end
  end.

Definition parse_ipv6 (l : list Z) : option addr :=
  match split_zone l with
  | None => None
  | Some (s, zone) =>
      let r :=
        if prefix_of [58; 58] s then
          match drop 2 s with
          | [] => Some (repeat 0 16)
          | s' => match v6_loop 8 s' [] (Some 0%nat) with
                  | Some r => v6_finish r
                  | None => None
                  end
          end
        else match v6_loop 8 s [] None with
             | Some r => v6_finish r
             | None => None
             end in
      match r with Some ip => Some (Addr6 ip (of_bytes zone)) | None => None end
  end.

Fixpoint first_separator (l : list Z) : option Z :=
  match l with
  | [] => None
  | c :: l => if (c =? 46) || (c =? 58) || (c =? 37) then Some c else first_separator l
  end.

(** [netip.ParseAddr]. *)
Definition ParseAddr (s : string) : option addr :=
  let l := bytes_of s in
  match first_separator l with
  | Some c =>
      if c =? 46 then
        match v4_fields l None 0 0 [] with Some b => Some (Addr4 b) | None => None end
      else if c =? 58 then parse_ipv6 l
      else None
  | None => None
  end.

(** ** Printing *)

(** [Addr.Unmap]: an IPv4-mapped IPv6 address becomes IPv4, its zone dropped. *)
Definition Unmap (a : addr) : addr :=
  match a with
  | Addr6 b zone =>
      if bool_decide (take 12 b = [0; 0; 0; 0; 0; 0; 0; 0; 0; 0; 255; 255])
      then Addr4 (drop 12 b) else a
  | Addr4 _ => a
  end.

Fixpoint words16 (b : list Z) : list Z :=
  match b with
  | x :: y :: b => (x * 256 + y) :: words16 b
  | _ => []
  end.

(** Length of the run of zero words at the head. *)
Fixpoint zero_run (w : list Z) : nat :=
  match w with
  | x :: w => if x =? 0 then S (zero_run w) else 0%nat
  | [] => 0%nat
  end.

(** The first longest run of at least two zero words, from index [i] on. *)
Fixpoint best_run (i : nat) (w : list Z) (best : nat * nat) : nat * nat :=
  match w with
  | [] => best
  | _ :: w' =>
      let l := zero_run w in
      best_run (S i) w'
        (if (2 <=? l)%nat && (best.2 <? l)%nat then (i, l) else best)
  end.

Definition hex_word (x : Z) : list Z :=
  let ds := [x / 4096; (x / 256) mod 16; (x / 16) mod 16; x mod 16] in
  match drop_while (fun d => d =? 0) ds with
  | [] => [48]
  | ds => map hex_digit ds
  end.

Fixpoint join_words (w : list Z) : list Z :=
  match w with
  | [] => []
  | [x] => hex_word x
  | x :: w => hex_word x ++ [58] ++ join_words w
  end.

Definition v6_string (b : list Z) : list Z :=
  let w := words16 b in
  match best_run 0 w (0%nat, 0%nat) with
  | (_, 0%nat) => join_words w
  | (i, n) => join_words (take i w) ++ [58; 58] ++ join_words (drop (i + n) w)
  end.

Definition v4_string (b : list Z) : list Z :=
  match b with
  | [w; x; y; z] =>
      dec_bytes w ++ [46] ++ dec_bytes x ++ [46] ++ dec_bytes y ++ [46] ++ dec_bytes z
  | _ => []
  end.

(** [Addr.String]. *)
Definition addr_string (a : addr) : string :=
  match a with
  | Addr4 b => of_bytes (v4_string b)
  | Addr6 b zone =>
      let z := match zone with EmptyString => [] | _ => 37 :: bytes_of zone end in
      if bool_decide (take 12 b = [0; 0; 0; 0; 0; 0; 0; 0; 0; 0; 255; 255])
      then of_bytes (bytes_of "::ffff:" ++ v4_string (drop 12 b) ++ z)
      else of_bytes (v6_string b ++ z)
  end.

(** ** Which characters an accepted address has *)

Definition ip_char (c : Z) : Prop :=
  c = 46 \/ c = 58 \/ 48 <= c <= 57 \/ 97 <= c <= 102 \/ 65 <= c <= 70.

Lemma v4_fields_chars l prev val dl fs r :
  v4_fields l prev val dl fs = Some r -> Forall ip_char l.
Proof.
  revert prev val dl fs; induction l as [|c l IH]; intros prev val dl fs Hf; [constructor|].
  simpl in Hf. repeat case_if_in Hf; try done; apply Forall_cons; split; eauto; bprop;
    unfold ip_char; try lia; match goal with H : is_digit _ = true |- _ =>
      apply is_digit_range in H; lia end.
Qed.

Lemma hex_value_ip_char c v : hex_value c = Some v -> ip_char c.
Proof.
  unfold hex_value, in_range, ip_char. intros Hv. repeat case_if_in Hv; try done; bprop; lia.
Qed.

Lemma hex_group_chars l acc off r :
  hex_group l acc off = Some r -> exists k, l = k ++ r.2 /\ Forall ip_char k.
Proof.
  revert acc off; induction l as [|c l IH]; intros acc off Hg; simpl in Hg.
  - inv Hg. by exists [].
  - destruct (hex_value c) eqn:E; [|inv Hg; by exists []].
    case_if_in Hg; [done|]. apply IH in Hg as (k & -> & Hk).
    exists (c :: k). split; [done|]. apply Forall_cons; split; eauto using hex_value_ip_char.
Qed.

Lemma v6_loop_chars fuel s ip ell r :
  v6_loop fuel s ip ell = Some r -> r.1.1 = [] -> Forall ip_char s.
Proof.
  revert s ip ell; induction fuel as [|f IH]; intros s ip ell Hl Hr; simpl in Hl.
  { inv Hl. simpl in Hr. subst. constructor. }
  destruct (hex_group s 0 0) as [[[acc off] rest]|] eqn:Eg; [|done].
  destruct (off =? 0); [done|].
  pose proof (hex_group_chars _ _ _ _ Eg) as (k & -> & Hk). simpl in *.
  apply Forall_app; split; [done|].
  destruct rest as [|c rest]; [constructor|].
  case_if_in Hl.
  - repeat case_if_in Hl; try done.
    destruct (v4_fields _ _ _ _ _) eqn:Ev; [|done].
    apply v4_fields_chars in Ev. by apply Forall_app in Ev as [].
  - destruct (c =? 58) eqn:Ec; [|done]. bprop. simpl in Hl.
    apply Forall_cons; split; [unfold ip_char; lia|].
    destruct rest as [|d rest]; [done|].
    case_if_in Hl; [|eauto]. bprop.
    apply Forall_cons; split; [unfold ip_char; lia|].
    destruct ell; [done|]. destruct rest; [constructor|eauto].
Qed.

Lemma v6_finish_rest r ip : v6_finish r = Some ip -> r.1.1 = [].
Proof. destruct r as [[[|? ?] ?] ?]; simpl; done. Qed.

Lemma index_where_None f l : index_where f l = None <-> Forall (fun b => f b = false) l.
Proof.
  induction l as [|b l IH]; simpl; [split; constructor|].
  rewrite Forall_cons. destruct (f b); simpl; [naive_solver|].
  rewrite <- IH. destruct (index_where f l); naive_solver.
Qed.

(** Without a zone, an accepted address has only hex digits, dots and colons;
    in particular no line break. *)
Lemma ParseAddr_chars s a :
  ParseAddr s = Some a -> 37 ∉ bytes_of s -> Forall ip_char (bytes_of s).
Proof.
  unfold ParseAddr. intros Hp Hz. destruct (first_separator _) as [c|]; [|done].
  case_if_in Hp.
  { destruct (v4_fields _ _ _ _ _) eqn:E; [|done]. eauto using v4_fields_chars. }
  case_if_in Hp; [|done]. unfold parse_ipv6, split_zone, index_byte in Hp.
  rewrite (proj2 (index_where_None _ _)) in Hp.
  2:{ apply Forall_forall. intros x Hx. apply Z.eqb_neq. intros ->; done. }
  destruct (prefix_of [58; 58] (bytes_of s)) eqn:Epre.
  - apply prefix_of_spec in Epre as [r Er]. rewrite Er in *. change (drop 2 ([58; 58] ++ r)) with (drop 0 r) in Hp. rewrite drop_0 in Hp.
    repeat (apply Forall_cons; split; [unfold ip_char; lia|]).
    destruct r as [|d r]; [constructor|].
    destruct (v6_loop _ _ _ _) eqn:El; [|done].
    destruct (v6_finish _) eqn:Ef; [|done].
    apply v6_finish_rest in Ef. eapply v6_loop_chars; eauto.
  - destruct (v6_loop _ _ _ _) eqn:El; [|done].
    destruct (v6_finish _) eqn:Ef; [|done].
    apply v6_finish_rest in Ef. eapply v6_loop_chars; eauto.
Qed.

(** ** Samples *)

(** ** Shape of parsed addresses *)

Definition addr_ok (a : addr) : Prop :=
  match a with
  | Addr4 b => length b = 4%nat /\ Forall is_byte b
  | Addr6 b _ => length b = 16%nat /\ Forall is_byte b
  end.

Lemma v4_fields_ok l prev val dl fs r :
  v4_fields l prev val dl fs = Some r -> is_byte val -> Forall is_byte fs ->
  (length fs <= 3)%nat -> length r = 4%nat /\ Forall is_byte r.
Proof.
  revert prev val dl fs; induction l as [|c l IH]; intros prev val dl fs Hv Hb Hf Hl; cbn [v4_fields] in Hv.
  - destruct (Nat.ltb_spec (length fs) 3); [done|]. injection Hv as <-.
    change (length (rev (val :: fs)) = 4%nat /\ Forall is_byte (rev (val :: fs))).
    rewrite length_rev. split; [simpl; lia|]. apply Forall_rev. by constructor.
  - destruct (is_digit c) eqn:Ed.
    + apply is_digit_range in Ed. destruct (_ && _); [done|].
      destruct (Z.ltb_spec 255 (val * 10 + (c - 48))); [done|].
      apply IH in Hv; auto. unfold is_byte in *. lia.
    + destruct (c =? 46); [|done]. destruct (_ || _); [done|].
      destruct (Nat.eqb_spec (length fs) 3); [done|].
      apply IH in Hv; auto; [unfold is_byte; lia|simpl; lia].
Qed.

Lemma hex_value_bound c v : hex_value c = Some v -> 0 <= v < 16.
Proof. unfold hex_value, in_range. repeat case_if; bprop; intros [= <-]; lia. Qed.

Lemma hex_group_bound l acc off a o rest :
  hex_group l acc off = Some (a, o, rest) -> 0 <= off <= 4 -> 0 <= acc < 16 ^ off ->
  0 <= a < 65536.
Proof.
  revert acc off; induction l as [|c l IH]; intros acc off Hg Ho Ha; simpl in Hg.
  - injection Hg as <- _ _. assert (16 ^ off <= 16 ^ 4) by (apply Z.pow_le_mono_r; lia).
    change (16 ^ 4) with 65536 in *. lia.
  - destruct (hex_value c) as [v|] eqn:Ev.
    + destruct (Z.ltb_spec 3 off); [done|]. apply hex_value_bound in Ev.
      apply IH in Hg; [done|lia|]. rewrite Z.pow_add_r by lia. change (16 ^ 1) with 16. nia.
    + injection Hg as <- _ _. assert (16 ^ off <= 16 ^ 4) by (apply Z.pow_le_mono_r; lia).
      change (16 ^ 4) with 65536 in *. lia.
Qed.

Lemma group_bytes acc : 0 <= acc < 65536 -> Forall is_byte [acc / 256; acc mod 256].
Proof.
  intros Ha. pose proof (Z.mod_pos_bound acc 256 ltac:(lia)).
  assert (0 <= acc / 256 < 256) by (split; [apply Z.div_pos; lia|apply Z.div_lt_upper_bound; lia]).
  forall_cons; unfold is_byte; lia.
Qed.

Lemma v6_loop_ok fuel s ip ell r :
  v6_loop fuel s ip ell = Some r -> (length ip + 2 * fuel <= 16)%nat -> Forall is_byte ip ->
  (length r.1.2 <= 16)%nat /\ Forall is_byte r.1.2.
Proof.
  revert s ip ell; induction fuel as [|fuel IH]; intros s ip ell Hv Hl Hb; cbn [v6_loop] in Hv.
  - injection Hv as <-. simpl. split; [lia|done].
  - destruct (hex_group s 0 0) as [[[acc off] rest]|] eqn:Eg; [|done].
    apply hex_group_bound in Eg; [|lia|simpl; lia]. pose proof (group_bytes _ Eg) as Hg.
    assert (Forall is_byte (ip ++ [acc / 256; acc mod 256])) as Hb' by (by apply Forall_app).
    assert (length (ip ++ [acc / 256; acc mod 256]) = (length ip + 2)%nat) as Hl'
      by (rewrite length_app; done).
    destruct (off =? 0); [done|]. destruct rest as [|c rest]; [injection Hv as <-; simpl; split; [lia|done]|].
    destruct (c =? 46).
    + destruct (_ && _); [done|]. destruct (Nat.ltb_spec 16 (length ip + 4)); [done|].
      destruct (v4_fields s None 0 0 []) as [fs|] eqn:Ef; [|done]. injection Hv as <-. simpl.
      apply v4_fields_ok in Ef as [E4 F4]; [|unfold is_byte; lia|done|simpl; lia].
      split; [rewrite length_app; lia|by apply Forall_app].
    + destruct (negb (c =? 58)); [done|]. destruct rest as [|d rest]; [done|].
      destruct (d =? 58); [|eapply IH; [exact Hv|lia|done]].
      destruct ell; [done|]. destruct rest; [injection Hv as <-; simpl; split; [lia|done]|].
      eapply IH; [exact Hv|lia|done].
Qed.

Lemma v6_finish_ok r ip :
  v6_finish r = Some ip -> (length r.1.2 <= 16)%nat -> Forall is_byte r.1.2 ->
  length ip = 16%nat /\ Forall is_byte ip.
Proof.
  destruct r as [[s b] ell]; unfold v6_finish; simpl. intros Hf Hl Hb.
  destruct s; [|done]. destruct (Nat.ltb_spec (length b) 16).
  - destruct ell as [e|]; [|done]. injection Hf as <-.
    rewrite !length_app, repeat_length, length_take, length_drop. split; [lia|].
    rewrite <- (take_drop e b) in Hb. apply Forall_app in Hb as [H1 H2].
    apply Forall_app; split; [done|]. apply Forall_app; split; [|done].
    apply Forall_forall. intros x Hx. apply list_elem_of_In, repeat_spec in Hx as ->.
    unfold is_byte. lia.
  - destruct ell; [done|]. injection Hf as <-. split; [lia|done].
Qed.

Lemma ParseAddr_ok s a : ParseAddr s = Some a -> addr_ok a.
Proof.
  unfold ParseAddr. destruct (first_separator _) as [c|]; [|done].
  destruct (c =? 46).
  { destruct (v4_fields _ _ _ _ _) as [b|] eqn:E; [|done]. intros [= <-].
    apply v4_fields_ok in E; [done|unfold is_byte; lia|done|simpl; lia]. }
  destruct (c =? 58); [|done]. unfold parse_ipv6. destruct (split_zone _) as [[l z]|]; [|done].
  assert (forall s' e r, v6_loop 8 s' [] e = Some r ->
            (length r.1.2 <= 16)%nat /\ Forall is_byte r.1.2) as Hloop.
  { intros s' e r Hr. eapply v6_loop_ok; [exact Hr|simpl; lia|done]. }
  destruct (prefix_of _ l).
  - destruct (drop 2 l) as [|d l'].
    + intros [= <-]. split; [done|]. repeat constructor; lia.
    + destruct (v6_loop _ _ _ _) as [r|] eqn:E; [|done]. apply Hloop in E as [? ?].
      destruct (v6_finish r) as [ip|] eqn:Ef; [|done]. intros [= <-].
      by apply v6_finish_ok in Ef.
  - destruct (v6_loop _ _ _ _) as [r|] eqn:E; [|done]. apply Hloop in E as [? ?].
    destruct (v6_finish r) as [ip|] eqn:Ef; [|done]. intros [= <-].
    by apply v6_finish_ok in Ef.
Qed.

Definition canon (s : string) : option string := addr_string ∘ Unmap <$> ParseAddr s.

Example parse_samples :
  map canon ["192.0.2.1"; "::ffff:1.2.3.4"; "2001:DB8:0:0:1:0:0:1"; "::"; "fe80::1%eth0";
             "1:2:3:4:5:6:7:8"; "::1"; "1::"; "::1.2.3.4"; "0:0:1::"]%string
  = map Some ["192.0.2.1"; "1.2.3.4"; "2001:db8::1:0:0:1"; "::"; "fe80::1%eth0";
              "1:2:3:4:5:6:7:8"; "::1"; "1::"; "::102:304"; "0:0:1::"]%string.
Proof. vm_compute. reflexivity. Qed.

Example parse_rejects :
  map ParseAddr ["01.2.3.4"; "1.2.3"; "256.1.1.1"; ""; "1.2.3.4.5"; ":::"; "12345::"; "fe80::1%";
                 "1:2:3:4:5:6:7:8:9"; "1.2.3.4/24"; "a.b.c.d"; "1::2::3"; "%eth0"; "localhost"]%string
  = repeat None 14.
Proof. vm_compute. reflexivity. Qed.
