(* ===== verification/GoURL.v ===== *)
(** * Query strings

    What the program uses of [net/url]: [ParseQuery] and [Values.Get]. *)

From S2P Require Import Prelude GoStrings Sha256.

(** [QueryUnescape]: ['+'] is a space. *)
Fixpoint query_unescape (l : list Z) : option (list Z) :=
  match l with
  | [] => Some []
  | b :: l' =>
      if b =? 37 then
        match l' with
        | h :: k :: l'' =>
            match hex_value h, hex_value k with
            | Some x, Some y => (cons (16 * x + y)) <$> query_unescape l''
            | _, _ => None
            end
        | _ => None
        end
      else cons (if b =? 43 then 32 else b) <$> query_unescape l'
  end.

(** The parts between separators. *)
Fixpoint split_on (c : Z) (l : list Z) : list (list Z) :=
  match l with
  | [] => [[]]
  | b :: l =>
      if b =? c then [] :: split_on c l
      else match split_on c l with
           | [] => [[b]]
           | p :: ps => (b :: p) :: ps
           end
  end.

(** [strings.Cut]. *)
Definition cut (c : Z) (l : list Z) : list Z * list Z :=
  match index_byte c l with
  | Some i => (take i l, drop (S i) l)
  | None => (l, [])
  end.

(** The values in order of appearance, and whether any part was malformed. *)
Fixpoint parse_parts (ps : list (list Z)) : list (string * string) * bool :=
  match ps with
  | [] => ([], false)
  | p :: ps =>
      let '(vs, err) := parse_parts ps in
      if existsb (fun b => b =? 59) p then (vs, true)
      else
        match p with
        | [] => (vs, err)
        | _ =>
            let '(k, v) := cut 61 p in
            match query_unescape k, query_unescape v with
            | Some k, Some v => ((of_bytes k, of_bytes v) :: vs, err)
            | _, _ => (vs, true)
            end
        end
  end.

(** The most parameters [ParseQuery] accepts. *)
Definition max_query_params : nat := 10000.

(** [ParseQuery]: [None] is an error. *)
Definition ParseQuery (query : string) : option (list (string * string)) :=
  let parts := split_on 38 (bytes_of query) in
  if (max_query_params <? length parts)%nat then None
  else
    let '(vs, err) := parse_parts parts in
    if err then None else Some vs.

Definition values_get (vs : list (string * string)) (key : string) : string :=
  match List.find (fun kv : string * string => kv.1 =? key)%string vs with
  | Some (_, v) => v
  | None => ""
  end.
