(* ===== verification/Pow.v ===== *)
(** * Proof-of-work tokens ([internal/pow])

    The token payload, its wire encoding, field validation, the canonical
    signing input, the sign and the sign id, and the difficulty test.  JSON is
    the codec parameter [JsonCodec]. *)

From S2P Require Import Prelude GoStrings Strconv Sha256 Base64 Netip.

(** ** Data *)

Record TokenPayload := MkTokenPayload {
  tpVersion : Z;
  tpMode : string;
  tpAlgorithm : string;
  tpIP : string;
  tpPath : string;
  tpTimestamp : Z;
  tpExpiresAt : Z;
  tpDifficulty : Z;
  tpCounter : string;
  tpSalt : string;
}.

#[export] Instance TokenPayload_eq_dec : EqDecision TokenPayload.
Proof. solve_decision. Defined.

(** The integer fields are machine integers. *)
Definition payload_typed (p : TokenPayload) : Prop :=
  int64_range (tpTimestamp p) /\ int64_range (tpExpiresAt p) /\ int64_range (tpDifficulty p).

(** [encoding/json] on the payload's tagged fields. *)
Class JsonCodec := {
  json_marshal : TokenPayload -> option (list Z);
  json_unmarshal : list Z -> option TokenPayload;
}.

Inductive pow_error :=
  | ErrEmpty | ErrMalformed | ErrUnsupportedVersion | ErrUnsupportedMode
  | ErrUnsupportedAlgorithm | ErrPathInvalid | ErrPathTooLong | ErrIPMissing
  | ErrIPInvalid | ErrIPForbidden | ErrCounterInvalid | ErrDifficultyInvalid
  | ErrTimestampInvalid | ErrExpiryInvalid | ErrSaltInvalid.

#[export] Instance pow_error_eq_dec : EqDecision pow_error.
Proof. solve_decision. Defined.

Definition MaxPathLength : Z := 4096.
Definition MaxCounterLength : Z := 64.
Definition MaxDifficulty : Z := 64.
Definition Version1 : Z := 1.
Definition DefaultAlgorithm : string := "sha256".
Definition CanonicalPrefix : string := "mirrors-pow-v1".
Definition SignIDVersion : string := "mirrors-pow-sign-id-v2".

Record ValidatorOptions := MkValidatorOptions {
  voAllowedSalts : list string;
  voAllowEmptySalt : bool;
  voAllowedModes : list string;
  voRequireIP : bool;
  voMinDifficulty : Z;
  voMaxDifficulty : Z;
  voAlgorithm : string;
}.

(** ** Wire format *)

Definition DecodeToken `{JsonCodec} (raw : string) : result pow_error TokenPayload :=
  if (raw =? "")%string then Err ErrEmpty
  else
    let decoded :=
      match b64_decode false (bytes_of raw) with
      | Some b => Some b
      | None => b64_decode true (bytes_of raw)
      end in
    match decoded with
    | None => Err ErrMalformed
    | Some b =>
        match json_unmarshal b with
        | None => Err ErrMalformed
        | Some p => Ok p
        end
    end.

Definition EncodeToken `{JsonCodec} (p : TokenPayload) : option string :=
  match json_marshal p with
  | None => None
  | Some b => Some (of_bytes (b64_encode false b))
  end.

(** ** Character checks *)

Definition isValidIPString (s : string) : bool :=
  if (s =? "")%string then false
  else match ParseAddr s with Some _ => true | None => false end.

Definition counter_rune (r : Z) : bool :=
  (in_range 48 57 r || in_range 97 102 r || in_range 65 90 r
   || ((r =? 45) || (r =? 95) || (r =? 61)))
  && negb (is_control r).

Definition ws_any : string := of_bytes [10; 13; 9; 32].

Definition isCounterSafe (s : string) : bool :=
  if (s =? "")%string then false
  else forallb counter_rune (runes s) && negb (ContainsAny s ws_any).

Definition isCanonicalSafe (s : string) : bool :=
  if ContainsAny s (of_bytes [10; 13]) then false
  else forallb (fun r => negb (is_control r)) (runes s).

(** ** Field validation *)

Section Validation.
Context `{Unicode}.

Definition mode_allowed (p : TokenPayload) (opts : option ValidatorOptions) : bool :=
  let modeOK := (tpMode p =? "ip_bound")%string || (tpMode p =? "generic")%string in
  match opts with
  | Some o =>
      match voAllowedModes o with
      | [] => modeOK
      | ms => existsb (fun m => (tpMode p =? m)%string) ms
      end
  | None => modeOK
  end.

Definition want_algorithm (opts : option ValidatorOptions) : string :=
  match opts with
  | Some o => if (voAlgorithm o =? "")%string then DefaultAlgorithm else voAlgorithm o
  | None => DefaultAlgorithm
  end.

Definition min_difficulty (opts : option ValidatorOptions) : Z :=
  match opts with
  | Some o => if 0 <? voMinDifficulty o then voMinDifficulty o else 0
  | None => 0
  end.
Definition max_difficulty (opts : option ValidatorOptions) : Z :=
  match opts with
  | Some o => if 0 <? voMaxDifficulty o then voMaxDifficulty o else MaxDifficulty
  | None => MaxDifficulty
  end.

(** [switch p.Mode]: the rule on the token's IP. *)
Definition check_ip (p : TokenPayload) : result pow_error unit :=
  if (tpMode p =? "ip_bound")%string then
    reject! negb (tpIP p =? "")%string && negb (isValidIPString (tpIP p)) with ErrIPInvalid ;;
    Ok tt
  else if (tpMode p =? "generic")%string then
    reject! negb (tpIP p =? "")%string with ErrIPForbidden ;; Ok tt
  else Ok tt.

Definition check_salt (p : TokenPayload) (opts : option ValidatorOptions)
  : result pow_error unit :=
  match opts with
  | None => Ok tt
  | Some o =>
      if (tpSalt p =? "")%string then
        reject! negb (voAllowEmptySalt o) with ErrSaltInvalid ;; Ok tt
      else
        reject! negb (isCanonicalSafe (tpSalt p)) with ErrSaltInvalid ;;
        reject! negb (existsb (fun s => (s =? tpSalt p)%string) (voAllowedSalts o))
          with ErrSaltInvalid ;;
        Ok tt
  end.

Definition ValidatePayload (p : option TokenPayload) (opts : option ValidatorOptions)
  : result pow_error unit :=
  match p with
  | None => Err ErrMalformed
  | Some p =>
      reject! negb (tpVersion p =? Version1) with ErrUnsupportedVersion ;;
      reject! negb (mode_allowed p opts) with ErrUnsupportedMode ;;
      reject! (tpAlgorithm p =? "")%string with ErrUnsupportedAlgorithm ;;
      reject! negb (EqualFold (tpAlgorithm p) (want_algorithm opts))
        with ErrUnsupportedAlgorithm ;;
      reject! (tpPath p =? "")%string || negb (HasPrefix (tpPath p) "/") with ErrPathInvalid ;;
      reject! MaxPathLength <? len (tpPath p) with ErrPathTooLong ;;
      reject! negb (isCanonicalSafe (tpPath p)) with ErrPathInvalid ;;
      _ <-! check_ip p ;;
      reject! (tpCounter p =? "")%string || (MaxCounterLength <? len (tpCounter p))
        with ErrCounterInvalid ;;
      reject! negb (isCounterSafe (tpCounter p)) with ErrCounterInvalid ;;
      reject! (tpDifficulty p <? min_difficulty opts) || (max_difficulty opts <? tpDifficulty p)
        with ErrDifficultyInvalid ;;
      _ <-! check_salt p opts ;;
      reject! tpTimestamp p <=? 0 with ErrTimestampInvalid ;;
      reject! tpExpiresAt p <=? 0 with ErrExpiryInvalid ;;
      reject! tpExpiresAt p <=? tpTimestamp p with ErrExpiryInvalid ;;
      Ok tt
  end.

End Validation.

(** ** Canonical input, sign and sign id *)

Definition nl : string := of_bytes [10].

Definition canonical_ip (p : TokenPayload) : string :=
  if (tpMode p =? "ip_bound")%string then tpIP p else "".

Definition BuildCanonicalInput (p : option TokenPayload) : string :=
  match p with
  | None => ""
  | Some p =>
      CanonicalPrefix +:+ nl
      +:+ "mode=" +:+ tpMode p +:+ nl
      +:+ "ip=" +:+ canonical_ip p +:+ nl
      +:+ "path=" +:+ tpPath p +:+ nl
      +:+ "ts=" +:+ format_int (tpTimestamp p) +:+ nl
      +:+ "exp=" +:+ format_int (tpExpiresAt p) +:+ nl
      +:+ "difficulty=" +:+ format_int (tpDifficulty p) +:+ nl
      +:+ "cnt=" +:+ tpCounter p +:+ nl
      +:+ "salt=" +:+ tpSalt p +:+ nl
  end%string.

Definition HashCanonical (canonical : string) : list Z := sha256 (bytes_of canonical).

Definition ComputeSign (p : option TokenPayload) : string :=
  hex_encode (sha256 (bytes_of (BuildCanonicalInput p))).

Definition CompareSign `{Unicode} (computedSign clientSign : string) : bool :=
  if (computedSign =? "")%string || (clientSign =? "")%string then false
  else EqualFold computedSign clientSign.

Definition sign_id_input (p : option TokenPayload) (sign mode : string) : string :=
  (SignIDVersion +:+ nl
   +:+ "mode=" +:+ mode +:+ nl
   +:+ "canonical=" +:+ BuildCanonicalInput p +:+ nl
   +:+ "sign=" +:+ sign +:+ nl)%string.

Definition ComputeSignID (p : option TokenPayload) (sign mode : string) : string :=
  hex_encode (sha256 (bytes_of (sign_id_input p sign mode))).

Definition HashToken (tokenRaw : string) : string :=
  if (tokenRaw =? "")%string then "" else hex_encode (sha256 (bytes_of tokenRaw)).

(** ** Difficulty *)

(** [for i := 0; i < fullBytes; i++ { if hash[i] != 0 { return false } }] *)
Definition leading_bytes_zero (hash : list Z) (fullBytes : nat) : bool :=
  forallb (fun b => b =? 0) (take fullBytes hash).

Definition HasLeadingZeroBits (hash : list Z) (n : Z) : bool :=
  if n <=? 0 then true
  else if Z.of_nat (length hash) * 8 <? n then false
  else
    let fullBytes := n / 8 in
    let remBits := n mod 8 in
    if negb (leading_bytes_zero hash (Z.to_nat fullBytes)) then false
    else if 0 <? remBits then
      let mask := Z.land (Z.shiftl 255 (8 - remBits)) 255 in
      if negb (Z.land (nth (Z.to_nat fullBytes) hash 0) mask =? 0) then false else true
    else true.

Definition HasLeadingZeroBits32 (hash : list Z) (n : Z) : bool := HasLeadingZeroBits hash n.

Definition MinimumSignForDifficulty (d : Z) : string :=
  if d <=? 0 then ""
  else
    let fullHex := d / 4 in
    let remBits := d mod 4 in
    of_bytes (repeat 48 (Z.to_nat fullHex)
      ++ (if 0 <? remBits
          then let max := Z.land (Z.shiftl 1 remBits - 1) 255 in
               [if max <? 10 then 48 + max else 97 + max - 10]
          else [])).
