(* ===== verification/PowTheory.v ===== *)
(** * Properties of proof-of-work tokens

    What [ValidatePayload] accepts and why it rejects, injectivity of the
    canonical signing input and of the sign-id input, the wire round trip, and
    the meaning of the difficulty test. *)

From S2P Require Import Prelude GoStrings Strconv Sha256 Base64 Netip Pow.

(** ** Character checks *)

Definition no_nl (l : list Z) : Prop := 10 ∉ l.

Lemma ContainsAny_false s cs :
  ContainsAny s cs = false <-> forall b, b ∈ bytes_of s -> b ∉ bytes_of cs.
Proof.
  unfold ContainsAny. rewrite Forall_existsb_false, Forall_forall.
  split; intros Hs b Hb; specialize (Hs b Hb).
  - rewrite Forall_existsb_false, Forall_forall in Hs. intros Hc. apply Hs in Hc.
    apply Z.eqb_neq in Hc. done.
  - rewrite Forall_existsb_false, Forall_forall. intros c Hc.
    apply Z.eqb_neq. intros ->. done.
Qed.

Lemma isCanonicalSafe_no_nl s : isCanonicalSafe s = true -> no_nl (bytes_of s).
Proof.
  unfold isCanonicalSafe, no_nl. destruct (ContainsAny _ _) eqn:E; [done|]. intros _ Hin.
  rewrite ContainsAny_false in E. apply (E 10 Hin). vm_compute. left.
Qed.

(** The newline test is implied by the control-rune test. *)
Lemma isCanonicalSafe_spec s :
  isCanonicalSafe s = true <-> Forall (fun r => is_control r = false) (runes s).
Proof.
  unfold isCanonicalSafe. split.
  - destruct (ContainsAny _ _); [done|]. rewrite forallb_Forall.
    intros H; eapply Forall_impl; [exact H|]. intros r; apply negb_true_iff.
  - intros H. assert (ContainsAny s (of_bytes [10; 13]) = false) as ->.
    { apply ContainsAny_false. intros b Hb Hc.
      assert (b = 10 \/ b = 13) as Hb'.
      { change (bytes_of (of_bytes [10; 13])) with [10; 13] in Hc.
        apply elem_of_cons in Hc as [->|Hc]; [auto|]. apply list_elem_of_singleton in Hc. auto. }
      pose proof (proj1 (Forall_forall _ _) H b ltac:(apply byte_in_runes; [lia|done])) as Hf.
      destruct Hb' as [-> | ->]; vm_compute in Hf; done. }
    apply forallb_Forall. eapply Forall_impl; [exact H|]. intros r; apply negb_true_iff.
Qed.

Definition counter_char (b : Z) : Prop :=
  48 <= b <= 57 \/ 97 <= b <= 102 \/ 65 <= b <= 90 \/ b = 45 \/ b = 95 \/ b = 61.

Lemma counter_rune_char r : counter_rune r = true <-> counter_char r.
Proof.
  unfold counter_rune, counter_char, is_control, in_range.
  rewrite !andb_true_iff, negb_true_iff, !orb_true_iff, !orb_false_iff, !andb_true_iff,
    !andb_false_iff, !Z.leb_le, !Z.leb_gt, !Z.eqb_eq. lia.
Qed.

(** An accepted counter is a non-empty ASCII string of [0-9a-fA-Z=_-]. *)
Lemma isCounterSafe_spec s :
  isCounterSafe s = true <-> s <> ""%string /\ Forall counter_char (bytes_of s).
Proof.
  unfold isCounterSafe. destruct (String.eqb_spec s ""); [naive_solver|].
  rewrite andb_true_iff, negb_true_iff, forallb_Forall. split.
  - intros [Hr _]. split; [done|].
    apply (runes_all_ascii counter_char); [unfold counter_char; lia|].
    eapply Forall_impl; [exact Hr|]. intros r; apply counter_rune_char.
  - intros [_ Hb].
    assert (is_ascii (bytes_of s)) as Ha.
    { eapply Forall_impl; [exact Hb|]. unfold counter_char; simpl; lia. }
    rewrite runes_ascii by done. split.
    + eapply Forall_impl; [exact Hb|]. intros r; apply counter_rune_char.
    + apply ContainsAny_false. intros b Hin Hc.
      apply (proj1 (Forall_forall _ _) Hb) in Hin.
      change (bytes_of ws_any) with [10; 13; 9; 32] in Hc.
      repeat (apply elem_of_cons in Hc as [->|Hc]; [unfold counter_char in Hin; lia|]).
      by apply elem_of_nil in Hc.
Qed.

Lemma isCounterSafe_no_nl s : isCounterSafe s = true -> no_nl (bytes_of s).
Proof.
  intros H%isCounterSafe_spec Hin. destruct H as [_ H].
  apply (proj1 (Forall_forall _ _) H) in Hin. unfold counter_char in Hin. lia.
Qed.

(** ** What validation accepts *)

Section Accepted.
Context `{Unicode}.

Definition ip_rule (p : TokenPayload) : Prop :=
  (tpMode p = "ip_bound"%string -> tpIP p = ""%string \/ is_Some (ParseAddr (tpIP p))) /\
  (tpMode p = "generic"%string -> tpIP p = ""%string).

Definition salt_rule (p : TokenPayload) (o : option ValidatorOptions) : Prop :=
  forall opts, o = Some opts ->
    (tpSalt p = ""%string /\ voAllowEmptySalt opts = true) \/
    (tpSalt p <> ""%string /\ isCanonicalSafe (tpSalt p) = true
     /\ tpSalt p ∈ voAllowedSalts opts).

(** The declarative reading of [ValidatePayload]. *)
Record well_formed (p : TokenPayload) (o : option ValidatorOptions) : Prop := {
  wf_version : tpVersion p = 1;
  wf_mode : mode_allowed p o = true;
  wf_alg_set : tpAlgorithm p <> ""%string;
  wf_alg : EqualFold (tpAlgorithm p) (want_algorithm o) = true;
  wf_path_abs : HasPrefix (tpPath p) "/" = true;
  wf_path_len : len (tpPath p) <= MaxPathLength;
  wf_path_safe : isCanonicalSafe (tpPath p) = true;
  wf_ip : ip_rule p;
  wf_counter_len : len (tpCounter p) <= MaxCounterLength;
  wf_counter_safe : isCounterSafe (tpCounter p) = true;
  wf_difficulty : min_difficulty o <= tpDifficulty p <= max_difficulty o;
  wf_salt : salt_rule p o;
  wf_times : 0 < tpTimestamp p < tpExpiresAt p;
}.

Lemma isValidIPString_spec s :
  isValidIPString s = true <-> is_Some (ParseAddr s).
Proof.
  unfold isValidIPString. destruct (String.eqb_spec s "") as [->|].
  - split; [done|]. intros [a Ha]. vm_compute in Ha. done.
  - destruct (ParseAddr s); [split; eauto|split; [done|intros [? ?]; done]].
Qed.

Lemma check_ip_spec p : check_ip p = Ok tt <-> ip_rule p.
Proof.
  unfold check_ip, ip_rule, guard.
  destruct (String.eqb_spec (tpMode p) "ip_bound") as [Em|Em].
  - rewrite Em. destruct (String.eqb_spec (tpIP p) ""); simpl; [naive_solver|].
    rewrite <- isValidIPString_spec. destruct (isValidIPString _); simpl; naive_solver.
  - destruct (String.eqb_spec (tpMode p) "generic") as [Eg|Eg]; [|naive_solver].
    destruct (String.eqb_spec (tpIP p) ""); simpl; naive_solver.
Qed.

Lemma check_salt_spec p o : check_salt p o = Ok tt <-> salt_rule p o.
Proof.
  unfold check_salt, salt_rule, guard. destruct o as [opts|]; [|naive_solver].
  destruct (String.eqb_spec (tpSalt p) "") as [E|E].
  - destruct (voAllowEmptySalt opts) eqn:Ea; simpl; split; try done; [intros _ ? [= <-]; auto|].
    intros Hs. destruct (Hs opts eq_refl) as [[]|[]]; congruence.
  - destruct (isCanonicalSafe (tpSalt p)) eqn:Ec; simpl.
    + destruct (existsb _ _) eqn:Ex; simpl; split; try done.
      * intros _ ? [= <-]. apply existsb_eqb_elem in Ex. auto.
      * intros Hs. destruct (Hs opts eq_refl) as [[]|(_ & _ & Hin)]; [congruence|].
        apply existsb_eqb_elem in Hin. congruence.
    + split; [done|]. intros Hs. destruct (Hs opts eq_refl) as [[]|(_ & ? & _)]; congruence.
Qed.

Lemma match_ok_tt {E} (r k : result E unit) :
  match r with Ok _ => k | Err e => Err e end = Ok tt <-> r = Ok tt /\ k = Ok tt.
Proof. destruct r as [[]|]; naive_solver. Qed.

Lemma counter_nonempty s : isCounterSafe s = true -> (s =? "")%string = false.
Proof. unfold isCounterSafe. by destruct (s =? "")%string. Qed.

Lemma path_nonempty s : HasPrefix s "/" = true -> (s =? "")%string = false.
Proof. destruct s; [done|reflexivity]. Qed.

Lemma validate_iff p o : ValidatePayload (Some p) o = Ok tt <-> well_formed p o.
Proof.
  unfold ValidatePayload. rewrite !guard_Ok, !match_ok_tt, !guard_Ok, !match_ok_tt, !guard_Ok,
    check_ip_spec, check_salt_spec, !orb_false_iff, !negb_false_iff.
  rewrite Z.eqb_eq, !Z.ltb_ge, !Z.leb_gt, String.eqb_neq. unfold Version1.
  split.
  - intros (? & ? & ? & ? & [? ?] & ? & ? & ? & [? ?] & ? & [? ?] & ? & ? & ? & ? & _).
    constructor; auto; lia.
  - intros []. repeat match goal with |- _ /\ _ => split end;
      auto using path_nonempty, counter_nonempty; lia.
Qed.

(** The condition that each error of [ValidatePayload] reports. *)
Definition violated (e : pow_error) (p : TokenPayload) (o : option ValidatorOptions) : Prop :=
  match e with
  | ErrUnsupportedVersion => tpVersion p <> 1
  | ErrUnsupportedMode => mode_allowed p o = false
  | ErrUnsupportedAlgorithm =>
      tpAlgorithm p = ""%string \/ EqualFold (tpAlgorithm p) (want_algorithm o) = false
  | ErrPathInvalid =>
      HasPrefix (tpPath p) "/" = false \/ isCanonicalSafe (tpPath p) = false
  | ErrPathTooLong => MaxPathLength < len (tpPath p)
  | ErrIPInvalid => tpMode p = "ip_bound"%string /\ tpIP p <> ""%string /\ ParseAddr (tpIP p) = None
  | ErrIPForbidden => tpMode p = "generic"%string /\ tpIP p <> ""%string
  | ErrCounterInvalid => MaxCounterLength < len (tpCounter p) \/ isCounterSafe (tpCounter p) = false
  | ErrDifficultyInvalid =>
      tpDifficulty p < min_difficulty o \/ max_difficulty o < tpDifficulty p
  | ErrSaltInvalid => ~ salt_rule p o
  | ErrTimestampInvalid => tpTimestamp p <= 0
  | ErrExpiryInvalid => tpExpiresAt p <= 0 \/ tpExpiresAt p <= tpTimestamp p
  | ErrEmpty | ErrMalformed | ErrIPMissing => False
  end.

Lemma check_ip_err p e : check_ip p = Err e -> forall o, violated e p o.
Proof.
  unfold check_ip, guard. intros Hc o.
  destruct (String.eqb_spec (tpMode p) "ip_bound") as [Em|].
  - destruct (String.eqb_spec (tpIP p) ""); simpl in Hc; [done|].
    destruct (isValidIPString (tpIP p)) eqn:E; simpl in Hc; [done|]. inv Hc. simpl.
    repeat split; auto. destruct (ParseAddr (tpIP p)) eqn:Ep; [|done].
    assert (isValidIPString (tpIP p) = true) by (apply isValidIPString_spec; eauto). congruence.
  - destruct (String.eqb_spec (tpMode p) "generic") as [Em|]; [|done].
    destruct (String.eqb_spec (tpIP p) ""); simpl in Hc; [done|]. inv Hc. by simpl.
Qed.

Lemma check_salt_err p o e : check_salt p o = Err e -> violated e p o.
Proof.
  intros Hc. assert (e = ErrSaltInvalid) as ->.
  { revert Hc. unfold check_salt, guard. destruct o; [|done]. repeat case_if; congruence. }
  simpl. intros Hs. apply check_salt_spec in Hs. congruence.
Qed.

Lemma match_err {E} (r k : result E unit) e :
  match r with Ok _ => k | Err e => Err e end = Err e <-> r = Err e \/ (r = Ok tt /\ k = Err e).
Proof. destruct r as [[]|]; naive_solver. Qed.

Lemma validate_err p o e : ValidatePayload (Some p) o = Err e -> violated e p o.
Proof.
  unfold ValidatePayload, Version1. rewrite !guard_Err, !match_err, !guard_Err, !match_err, !guard_Err.
  intros Hv. repeat (destruct Hv as [[Hb <-]|[_ Hv]]; [bprop; simpl|]); try tauto; try lia.
  - destruct Hb as [Hb|Hb]; bprop; [rewrite Hb; by left|auto].
  - destruct Hv as [Hv|[_ Hv]]; [by apply check_ip_err|].
    repeat (destruct Hv as [[Hb <-]|[_ Hv]]; [bprop; simpl|]); try tauto; try lia.
    + destruct Hb as [Hb|Hb]; bprop; [rewrite Hb; by right|auto].
    + destruct Hv as [Hv|[_ Hv]]; [by apply check_salt_err|].
      repeat (destruct Hv as [[Hb <-]|[_ Hv]]; [bprop; simpl|]); try lia; done.
Qed.

(** C14: [ValidatePayload] accepts exactly the well-formed payloads, and an
    error it reports names a requirement the payload breaks. *)
Theorem ValidatePayload_spec p o :
  (ValidatePayload (Some p) o = Ok tt <-> well_formed p o) /\
  (forall e, ValidatePayload (Some p) o = Err e -> violated e p o).
Proof. split; [apply validate_iff|apply validate_err]. Qed.

End Accepted.

(** ** The canonical input *)

(** A line [key ++ value ++ "\n"] appended to a text; a text is either empty or
    ends in a newline. *)
Definition line (acc k v : list Z) : list Z := acc ++ (k ++ v) ++ [10].
Definition ends_nl (l : list Z) : Prop := exists k, l = k ++ [10].

Lemma line_ends_nl acc k v : ends_nl (line acc k v).
Proof. unfold line. exists (acc ++ k ++ v). by rewrite <- !app_assoc. Qed.

Lemma first_nl_inj x y u v : no_nl x -> no_nl y -> x ++ 10 :: u = y ++ 10 :: v -> x = y /\ u = v.
Proof. apply sep_first_inj. Qed.

Lemma last_nl_inj x y u v : no_nl x -> no_nl y -> u ++ [10] ++ x = v ++ [10] ++ y -> u = v /\ x = y.
Proof. apply sep_last_inj. Qed.

Lemma line_inj acc acc' k x y :
  ends_nl acc -> ends_nl acc' -> no_nl k -> no_nl x -> no_nl y ->
  line acc k x = line acc' k y -> acc = acc' /\ x = y.
Proof.
  intros [a ->] [b ->] Hk Hx Hy E. unfold line in E.
  rewrite !app_assoc in E. apply app_inj_tail in E as [E _]. rewrite <- !app_assoc in E.
  apply last_nl_inj in E as [-> E]; [|unfold no_nl in *; rewrite elem_of_app; tauto..].
  split; [done|]. by apply app_inv_head in E.
Qed.

Lemma dec_bytes_no_nl n : no_nl (dec_bytes n).
Proof.
  intros Hin. apply (proj1 (Forall_forall _ _) (dec_bytes_chars n)) in Hin.
  unfold dec_char in Hin. lia.
Qed.

Definition canonical_lines (p : TokenPayload) : list Z :=
  let l0 := bytes_of (CanonicalPrefix +:+ nl) in
  let l1 := line l0 (bytes_of "mode=") (bytes_of (tpMode p)) in
  let l2 := line l1 (bytes_of "ip=") (bytes_of (canonical_ip p)) in
  let l3 := line l2 (bytes_of "path=") (bytes_of (tpPath p)) in
  let l4 := line l3 (bytes_of "ts=") (dec_bytes (tpTimestamp p)) in
  let l5 := line l4 (bytes_of "exp=") (dec_bytes (tpExpiresAt p)) in
  let l6 := line l5 (bytes_of "difficulty=") (dec_bytes (tpDifficulty p)) in
  let l7 := line l6 (bytes_of "cnt=") (bytes_of (tpCounter p)) in
  line l7 (bytes_of "salt=") (bytes_of (tpSalt p)).

Lemma canonical_bytes p : bytes_of (BuildCanonicalInput (Some p)) = canonical_lines p.
Proof.
  unfold BuildCanonicalInput, canonical_lines, line. rewrite !bytes_of_app, !format_int_bytes.
  change (bytes_of nl) with [10]. rewrite <- !app_assoc. done.
Qed.

Lemma no_nl_key s : bytes_of s = List.filter (fun b => negb (b =? 10)) (bytes_of s) ->
  no_nl (bytes_of s).
Proof.
  intros E Hin. rewrite E in Hin. apply list_elem_of_In, filter_In in Hin as [_ H]. done.
Qed.

Lemma dec_bytes_inj n m : int64_range n -> int64_range m -> dec_bytes n = dec_bytes m -> n = m.
Proof.
  intros Hn Hm E. rewrite <- !format_int_bytes in E. apply bytes_of_inj in E.
  by apply format_int_inj.
Qed.

(** The fields of a payload that the canonical input determines. *)
Definition same_signed_fields (p q : TokenPayload) : Prop :=
  tpMode p = tpMode q /\ canonical_ip p = canonical_ip q /\ tpPath p = tpPath q /\
  tpTimestamp p = tpTimestamp q /\ tpExpiresAt p = tpExpiresAt q /\
  tpDifficulty p = tpDifficulty q /\ tpCounter p = tpCounter q /\ tpSalt p = tpSalt q.

(** What injectivity needs of the free-text fields: no line break, except in
    the IP. *)
Record line_safe (p : TokenPayload) : Prop := {
  ls_mode : no_nl (bytes_of (tpMode p));
  ls_path : no_nl (bytes_of (tpPath p));
  ls_counter : no_nl (bytes_of (tpCounter p));
  ls_salt : no_nl (bytes_of (tpSalt p));
  ls_typed : payload_typed p;
}.

Ltac key_no_nl := apply no_nl_key; reflexivity.
Ltac strip_line E H :=
  apply line_inj in E as [E H];
  [|lazymatch goal with
    | |- ends_nl (line _ _ _) => apply line_ends_nl
    | |- ends_nl _ => by exists (bytes_of CanonicalPrefix)
    | |- no_nl (dec_bytes _) => apply dec_bytes_no_nl
    | |- no_nl (bytes_of (String _ _)) => key_no_nl
    | _ => assumption
    end..].

Lemma canonical_inj p q :
  line_safe p -> line_safe q ->
  BuildCanonicalInput (Some p) = BuildCanonicalInput (Some q) -> same_signed_fields p q.
Proof.
  intros [] [] E. apply (f_equal bytes_of) in E. rewrite !canonical_bytes in E.
  unfold canonical_lines in E. cbv zeta in E.
  strip_line E Hsalt. strip_line E Hcnt. strip_line E Hd. strip_line E Hexp.
  strip_line E Hts. strip_line E Hpath.
  unfold line in E. rewrite <- !app_assoc in E. do 2 apply app_inv_head in E.
  apply first_nl_inj in E as [Hmode E]; [|done..]. apply app_inv_head, app_inj_tail in E as [Hip _].
  unfold payload_typed in *. destruct_and!.
  unfold same_signed_fields.
  split_and!;
    lazymatch goal with
    | |- @eq string _ _ => apply bytes_of_inj; assumption
    | |- _ => apply dec_bytes_inj; assumption
    end.
Qed.

Section Injectivity.
Context `{Unicode}.

Lemma well_formed_line_safe p opts :
  well_formed p (Some opts) -> no_nl (bytes_of (tpMode p)) -> payload_typed p -> line_safe p.
Proof.
  intros [] Hm Ht. constructor; auto using isCanonicalSafe_no_nl, isCounterSafe_no_nl.
  destruct (wf_salt0 opts eq_refl) as [[-> _]|(_ & Hs & _)]; [vm_compute; by inversion 1|].
  auto using isCanonicalSafe_no_nl.
Qed.

Definition known_mode (p : TokenPayload) : Prop :=
  tpMode p = "ip_bound"%string \/ tpMode p = "generic"%string.

Lemma known_mode_no_nl p : known_mode p -> no_nl (bytes_of (tpMode p)).
Proof. intros [-> | ->]; key_no_nl. Qed.

(** C15: the canonical signing input is injective on accepted payloads: two
    payloads that [ValidatePayload] accepts and that have the same canonical
    input agree in every field but the spelling of the algorithm name.  No
    field value can forge another line, so one sign stands for one claim. *)
Theorem canonical_injective_on_accepted p q o o' :
  ValidatePayload (Some p) (Some o) = Ok tt ->
  ValidatePayload (Some q) (Some o') = Ok tt ->
  known_mode p -> known_mode q -> payload_typed p -> payload_typed q ->
  BuildCanonicalInput (Some p) = BuildCanonicalInput (Some q) ->
  p = {| tpVersion := tpVersion q; tpMode := tpMode q; tpAlgorithm := tpAlgorithm p;
         tpIP := tpIP q; tpPath := tpPath q; tpTimestamp := tpTimestamp q;
         tpExpiresAt := tpExpiresAt q; tpDifficulty := tpDifficulty q;
         tpCounter := tpCounter q; tpSalt := tpSalt q |}.
Proof.
  intros Hp%validate_iff Hq%validate_iff Mp Mq Tp Tq E.
  apply canonical_inj in E; [|eauto using well_formed_line_safe, known_mode_no_nl..].
  destruct E as (Em & Eip & ? & ? & ? & ? & ? & ?).
  assert (tpIP p = tpIP q) as Ei.
  { unfold canonical_ip in Eip. rewrite Em in Eip.
    destruct Mq as [Mq|Mq]; rewrite Mq in Eip, Em; simpl in Eip; [done|].
    pose proof (wf_ip _ _ Hp) as [_ Ip]. pose proof (wf_ip _ _ Hq) as [_ Iq].
    by rewrite Ip, Iq. }
  pose proof (wf_version _ _ Hp); pose proof (wf_version _ _ Hq).
  destruct p, q; simpl in *; congruence.
Qed.

End Injectivity.

(** ** Signs *)

Lemma ComputeSign_chars p : Forall hex_lower (bytes_of (ComputeSign p)).
Proof.
  unfold ComputeSign. rewrite hex_encode_bytes by apply sha256_bytes.
  apply hex_encode_chars, sha256_bytes.
Qed.

Lemma ComputeSign_len p : len (ComputeSign p) = 64.
Proof. unfold len, ComputeSign. by rewrite hex_encode_length, sha256_length. Qed.

Lemma ComputeSignID_len p s m : len (ComputeSignID p s m) = 64.
Proof. unfold len, ComputeSignID. by rewrite hex_encode_length, sha256_length. Qed.

(** The preimage of a sign id determines mode, canonical input and sign, when
    mode and sign have no line break (the sign is checked to be hex first). *)
Lemma sign_id_input_inj p q s s' m m' :
  no_nl (bytes_of m) -> no_nl (bytes_of m') -> no_nl (bytes_of s) -> no_nl (bytes_of s') ->
  sign_id_input (Some p) s m = sign_id_input (Some q) s' m' ->
  m = m' /\ BuildCanonicalInput (Some p) = BuildCanonicalInput (Some q) /\ s = s'.
Proof.
  intros Hm Hm' Hs Hs' E. apply (f_equal bytes_of) in E. unfold sign_id_input in E.
  rewrite !bytes_of_app in E. change (bytes_of nl) with [10] in E.
  do 3 apply app_inv_head in E. apply first_nl_inj in E as [Em E]; [|done..].
  apply app_inv_head in E. rewrite !canonical_bytes in E.
  assert (forall c u, c ++ [10] ++ bytes_of "sign=" ++ u ++ [10]
            = line (c ++ [10]) (bytes_of "sign=") u) as Hl.
  { intros. unfold line. by rewrite <- !app_assoc. }
  rewrite !Hl in E. apply line_inj in E as [E Es]; [|lazymatch goal with
    | |- ends_nl _ => by eexists
    | |- no_nl (bytes_of (String _ _)) => key_no_nl
    | _ => assumption
    end..].
  apply app_inj_tail in E as [E _].
  repeat split; apply bytes_of_inj; rewrite ?canonical_bytes; done.
Qed.

(** ** Difficulty *)

Lemma be_value_zero l : Forall is_byte l -> be_value l = 0 <-> forallb (fun b => b =? 0) l = true.
Proof.
  induction 1 as [|b l Hb Hl IH]; [done|]. rewrite be_value_cons. simpl.
  pose proof (be_value_range l Hl). pose proof (Z.pow_pos_nonneg 2 (8 * Z.of_nat (length l))).
  unfold is_byte in Hb. rewrite andb_true_iff, <- IH, Z.eqb_eq. split; [|nia].
  intros E. assert (b * 2 ^ (8 * Z.of_nat (length l)) = 0) by nia.
  assert (b = 0) by nia. nia.
Qed.

(** The byte mask of the partial byte keeps the top [r] bits. *)
Lemma mask_spec b r : is_byte b -> 0 < r < 8 ->
  (Z.land b (Z.land (Z.shiftl 255 (8 - r)) 255) =? 0) = (b <? 2 ^ (8 - r)).
Proof.
  intros Hb Hr.
  assert (forallb (fun b => forallb (fun r =>
    Bool.eqb (Z.land b (Z.land (Z.shiftl 255 (8 - r)) 255) =? 0) (b <? 2 ^ (8 - r)))
    [1;2;3;4;5;6;7]) (map Z.of_nat (seq 0 256)) = true) as E by (vm_compute; reflexivity).
  rewrite forallb_forall in E. specialize (E b). rewrite forallb_forall in E.
  apply eqb_prop, E.
  - rewrite <- (Z2Nat.id b) by (unfold is_byte in Hb; lia).
    apply in_map, in_seq. unfold is_byte in Hb. lia.
  - assert (r = 1 \/ r = 2 \/ r = 3 \/ r = 4 \/ r = 5 \/ r = 6 \/ r = 7) by lia.
    simpl. intuition lia.
Qed.

(** A value with its top bytes [V] and the rest [w], against a power of two
    that cuts inside [w]'s width. *)
Lemma top_zero V w m k :
  0 <= V -> 0 <= w < 2 ^ m -> 0 <= k <= m ->
  V * 2 ^ m + w < 2 ^ k <-> V = 0 /\ w < 2 ^ k.
Proof.
  intros HV Hw Hk. assert (2 ^ k <= 2 ^ m) by (apply Z.pow_le_mono_r; lia).
  split; [|lia]. intros. assert (V = 0) as -> by nia. lia.
Qed.

Lemma cut_byte b w m r :
  0 <= w < 2 ^ m -> 0 <= m -> 0 < r < 8 ->
  b * 2 ^ m + w < 2 ^ (8 + m - r) <-> b < 2 ^ (8 - r).
Proof.
  intros Hw Hm Hr. replace (8 + m - r) with ((8 - r) + m) by lia.
  rewrite Z.pow_add_r by lia. nia.
Qed.

(** The difficulty test means what it says: a hash has [n] leading zero
    bits exactly when [n] is at most its bit length and the hash, read as a
    big-endian number of that length, is below [2^(bits - n)]. *)
Theorem HasLeadingZeroBits_spec hash n :
  Forall is_byte hash ->
  HasLeadingZeroBits hash n = true <->
  n <= 0 \/ (n <= 8 * Z.of_nat (length hash) /\
             be_value hash < 2 ^ (8 * Z.of_nat (length hash) - n)).
Proof.
  intros Hb. unfold HasLeadingZeroBits. case_if; [bprop; split; auto|]. case_if; bprop; [lia|].
  set (k := Z.to_nat (n / 8)).
  assert (n = 8 * Z.of_nat k + n mod 8) as En.
  { unfold k. rewrite Z2Nat.id by (apply Z.div_pos; lia). apply Z.div_mod. lia. }
  pose proof (Z.mod_pos_bound n 8 ltac:(lia)) as Hr.
  set (L := length hash) in *.
  assert (length (take k hash) = k) as Hlk by (rewrite length_take; lia).
  assert (Z.of_nat (length (drop k hash)) = Z.of_nat L - Z.of_nat k) as Hld
    by (rewrite length_drop; lia).
  rewrite <- (take_drop k hash) in Hb. apply Forall_app in Hb as [Ht Hd].
  assert (be_value hash = be_value (take k hash) * 2 ^ (8 * (Z.of_nat L - Z.of_nat k))
                          + be_value (drop k hash)) as Ev.
  { rewrite <- (take_drop k hash) at 1. by rewrite be_value_app, Hld. }
  pose proof (be_value_range _ Ht). pose proof (be_value_range _ Hd) as Hw. rewrite Hld in Hw.
  rewrite Ev, top_zero, be_value_zero by (lia || done).
  unfold leading_bytes_zero. destruct (forallb _ (take k hash)); simpl; [|naive_solver lia].
  assert (forall P : Prop, (n <= 0 \/ (n <= 8 * Z.of_nat L /\ true = true /\ P)) <-> P) as Hred
    by (intros; intuition lia).
  rewrite Hred. case_if; bprop.
  - destruct (drop k hash) as [|b t] eqn:Ed; [simpl in Hld; lia|].
    assert (nth k hash 0 = b) as ->.
    { rewrite <- (take_drop k hash), app_nth2, Hlk, Nat.sub_diag, Ed by lia. done. }
    apply Forall_cons in Hd as [Hb Hd]. rewrite be_value_cons, mask_spec by (done || lia).
    cbn [length] in Hld.
    replace (8 * Z.of_nat L - n) with (8 + 8 * Z.of_nat (length t) - n mod 8) by lia.
    rewrite cut_byte by (lia || by apply be_value_range).
    destruct (Z.ltb_spec b (2 ^ (8 - n mod 8))); simpl; split; done || lia.
  - replace (8 * Z.of_nat L - n) with (8 * (Z.of_nat L - Z.of_nat k)) by lia. split; [lia|done].
Qed.

Lemma HasLeadingZeroBits_witness :
  Forall is_byte [0; 15] /\
  (HasLeadingZeroBits [0; 15] 12 = true <->
   12 <= 0 \/ (12 <= 16 /\ be_value [0; 15] < 2 ^ (16 - 12))).
Proof.
  assert (Forall is_byte [0; 15]) as Hb by (repeat constructor; lia).
  split; [exact Hb|exact (HasLeadingZeroBits_spec [0; 15] 12 Hb)].
Defined.

(** ** Wire format *)

(** What the decoder relies on of [encoding/json] on one payload: the encoding
    of [p] is a text of bytes, and decodes to [p]. *)
Definition json_faithful `{JsonCodec} (p : TokenPayload) : Prop :=
  forall b, json_marshal p = Some b -> Forall is_byte b /\ b <> [] /\ json_unmarshal b = Some p.

Lemma b64_encode_nil pad l : b64_encode pad l = [] -> l = [].
Proof. by destruct l as [|? [|? [|? ?]]]. Qed.

Lemma of_bytes_empty l : of_bytes l = ""%string -> l = [].
Proof. by destruct l. Qed.

(** An encoded token decodes to the payload it was made from, both in the
    form [EncodeToken] emits and with the standard base64 padding added. *)
Theorem DecodeToken_EncodeToken `{JsonCodec} p b pad :
  json_faithful p -> json_marshal p = Some b ->
  (exists raw, EncodeToken p = Some raw /\ DecodeToken raw = Ok p) /\
  DecodeToken (of_bytes (b64_encode pad b)) = Ok p.
Proof.
  intros Hj Hb. destruct (Hj b Hb) as (Hby & Hne & Hu).
  assert (forall pd, DecodeToken (of_bytes (b64_encode pd b)) = Ok p) as Hd.
  { intros pd. unfold DecodeToken. destruct (String.eqb_spec (of_bytes (b64_encode pd b)) "") as [E|_].
    { by apply of_bytes_empty, b64_encode_nil in E. }
    rewrite bytes_of_of by (eapply Forall_impl; [by apply b64_encode_chars|]; intros ? ?;
      unfold is_byte; simpl in *; lia).
    destruct pd; [|by rewrite b64_decode_encode, Hu].
    destruct (b64_decode_padded b Hby) as [-> | ->]; [|by rewrite Hu].
    by rewrite b64_decode_encode, Hu. }
  split; [|apply Hd]. exists (of_bytes (b64_encode false b)).
  unfold EncodeToken. by rewrite Hb, Hd.
Qed.

Definition sample_payload : TokenPayload :=
  MkTokenPayload 1 "ip_bound" "sha256" "203.0.113.9" "/ubuntu/x.iso" 1700000000 1700000600 4
    "abc-1" "".

(** A codec that knows one document, enough to run the decoder. *)
Definition sample_codec : JsonCodec := {|
  json_marshal p := if bool_decide (p = sample_payload) then Some (bytes_of "{sample}") else None;
  json_unmarshal b := if bool_decide (b = bytes_of "{sample}") then Some sample_payload else None;
|}.

Lemma DecodeToken_EncodeToken_witness :
  (exists raw, @EncodeToken sample_codec sample_payload = Some raw /\
               @DecodeToken sample_codec raw = Ok sample_payload) /\
  @DecodeToken sample_codec (of_bytes (b64_encode true (bytes_of "{sample}"))) = Ok sample_payload.
Proof.
  apply (@DecodeToken_EncodeToken sample_codec sample_payload (bytes_of "{sample}") true).
  - intros b E. vm_compute in E. injection E as <-.
    split_and!; [|by intros E|vm_compute; reflexivity]. apply Forall_forall. intros x Hx.
    repeat (apply elem_of_cons in Hx as [->|Hx]; [by vm_compute|]). by apply elem_of_nil in Hx.
  - vm_compute. reflexivity.
Defined.

(** ** Sign identity *)

(** The sign id is computed from an input that separates different work: if
    two accepted proofs of work in a known mode have the same id input, mode,
    canonical input and sign agree. *)
Theorem sign_id_separates p q s s' m m' :
  Forall hex_lower (bytes_of s) -> Forall hex_lower (bytes_of s') ->
  no_nl (bytes_of m) -> no_nl (bytes_of m') ->
  sign_id_input (Some p) s m = sign_id_input (Some q) s' m' ->
  m = m' /\ BuildCanonicalInput (Some p) = BuildCanonicalInput (Some q) /\ s = s'.
Proof.
  assert (forall t, Forall hex_lower (bytes_of t) -> no_nl (bytes_of t)) as Hh.
  { intros t Ht Hin. apply (proj1 (Forall_forall _ _) Ht) in Hin. unfold hex_lower in Hin. lia. }
  intros Hs Hs' Hm Hm'. by apply sign_id_input_inj; auto.
Qed.

Lemma sign_id_separates_witness :
  "ip_bound"%string = "ip_bound"%string /\
  BuildCanonicalInput (Some sample_payload) = BuildCanonicalInput (Some sample_payload) /\
  "0a"%string = "0a"%string.
Proof.
  assert (Forall hex_lower (bytes_of "0a")) as Hs by (repeat constructor; vm_compute; intuition congruence).
  assert (no_nl (bytes_of "ip_bound")) as Hm by key_no_nl.
  exact (sign_id_separates sample_payload sample_payload "0a" "0a" "ip_bound" "ip_bound"
           Hs Hs Hm Hm eq_refl).
Defined.

(** The client's spelling of the sign enters the id, while the sign check
    ignores its case. *)
Definition upper_hex (s : string) : string := of_bytes (map upper_ascii (bytes_of s)).

Lemma fold_upper_ascii `{Unicode} b : 0 <= b < 128 -> fold_rune (upper_ascii b) = fold_rune b.
Proof.
  intros Hb. unfold fold_rune, upper_ascii, is_lower, in_range.
  repeat case_if; bprop; try lia; repeat case_if; bprop; lia.
Qed.

Lemma upper_ascii_ascii l : is_ascii l -> is_ascii (map upper_ascii l).
Proof.
  induction 1; simpl; constructor; auto.
  unfold upper_ascii, is_lower, in_range. case_if; bprop; lia.
Qed.

Lemma ascii_is_byte l : is_ascii l -> Forall is_byte l.
Proof. intros Hl. eapply Forall_impl; [exact Hl|]. intros ? ?. unfold is_byte. simpl in *. lia. Qed.

Lemma upper_hex_folds `{Unicode} s :
  is_ascii (bytes_of s) -> s <> ""%string -> CompareSign s (upper_hex s) = true.
Proof.
  intros Ha Hne. pose proof (upper_ascii_ascii _ Ha) as Hu. unfold CompareSign, upper_hex.
  destruct (String.eqb_spec s "") as [->|_]; [done|].
  destruct (String.eqb_spec (of_bytes (map upper_ascii (bytes_of s))) "") as [E|_].
  { apply of_bytes_empty, map_eq_nil in E. by destruct s. }
  simpl. apply bool_decide_eq_true. rewrite !runes_ascii; rewrite ?bytes_of_of by auto using ascii_is_byte;
    auto. rewrite map_map. apply map_ext_in. intros b Hb. symmetry. apply fold_upper_ascii.
  apply list_elem_of_In in Hb. by apply (proj1 (Forall_forall _ _) Ha) in Hb.
Qed.

(** The sign check accepts the upper-case spelling of a sign, and the sign
    id keeps the spelling: whenever the hash has a letter, one proof of work
    has two accepted signs with different id inputs, hence two usage records. *)
Theorem sign_spelling_changes_identity `{Unicode} p m :
  upper_hex (ComputeSign (Some p)) <> ComputeSign (Some p) ->
  CompareSign (ComputeSign (Some p)) (ComputeSign (Some p)) = true /\
  CompareSign (ComputeSign (Some p)) (upper_hex (ComputeSign (Some p))) = true /\
  sign_id_input (Some p) (upper_hex (ComputeSign (Some p))) m
    <> sign_id_input (Some p) (ComputeSign (Some p)) m.
Proof.
  intros Hne.
  assert (is_ascii (bytes_of (ComputeSign (Some p)))) as Ha.
  { eapply Forall_impl; [apply ComputeSign_chars|]. unfold hex_lower. simpl. lia. }
  assert (ComputeSign (Some p) <> ""%string) as Hn.
  { intros E. pose proof (ComputeSign_len (Some p)) as Hl. by rewrite E in Hl. }
  split_and!; [|by apply upper_hex_folds|].
  - unfold CompareSign. destruct (String.eqb_spec (ComputeSign (Some p)) ""); [done|].
    apply EqualFold_refl.
  - intros E. apply (f_equal bytes_of) in E. unfold sign_id_input in E.
    rewrite !bytes_of_app in E. repeat apply app_inv_head in E. apply app_inv_tail in E.
    by apply bytes_of_inj in E.
Qed.

(** On the sample payload even the ids differ. *)
Lemma sign_spelling_changes_identity_witness :
  let c := ComputeSign (Some sample_payload) in
  upper_hex c <> c /\ @CompareSign ascii_unicode c (upper_hex c) = true /\
  ComputeSignID (Some sample_payload) (upper_hex c) "ip_bound"
    <> ComputeSignID (Some sample_payload) c "ip_bound".
Proof.
  intros c. assert (upper_hex c <> c) as Hne by (vm_compute; discriminate).
  split; [exact Hne|].
  destruct (@sign_spelling_changes_identity ascii_unicode sample_payload "ip_bound" Hne)
    as (_ & Hc & _).
  split; [exact Hc|]. vm_compute. discriminate.
Defined.

(** The prefix [MinimumSignForDifficulty] returns is below hashes that pass. *)
Example MinimumSignForDifficulty_too_low :
  HasLeadingZeroBits (127 :: repeat 255 31) 1 = true /\
  hex_encode [127] = "7f"%string /\ MinimumSignForDifficulty 1 = "1"%string.
Proof. split_and!; vm_compute; reflexivity. Qed.

(** ** The theorems at concrete payloads *)

Definition sample_options : ValidatorOptions := MkValidatorOptions [] true [] false 2 8 "sha256".

Lemma canonical_injective_witness :
  let p := sample_payload in
  let q := MkTokenPayload 1 "ip_bound" "SHA256" "203.0.113.9" "/ubuntu/x.iso" 1700000000 1700000600
             4 "abc-1" "" in
  p = MkTokenPayload (tpVersion q) (tpMode q) (tpAlgorithm p) (tpIP q) (tpPath q) (tpTimestamp q)
        (tpExpiresAt q) (tpDifficulty q) (tpCounter q) (tpSalt q).
Proof.
  intros p q.
  apply (@canonical_injective_on_accepted ascii_unicode p q sample_options sample_options).
  - vm_compute. reflexivity.
  - vm_compute. reflexivity.
  - by left.
  - by left.
  - unfold payload_typed, int64_range, min_int64, max_int64; simpl; lia.
  - unfold payload_typed, int64_range, min_int64, max_int64; simpl; lia.
  - vm_compute. reflexivity.
Defined.

Lemma ValidatePayload_spec_witness :
  let p := MkTokenPayload 1 "generic" "sha256" "203.0.113.9" "/x" 1 2 4 "c" "" in
  @ValidatePayload ascii_unicode (Some p) (Some sample_options) = Err ErrIPForbidden /\
  @violated ascii_unicode ErrIPForbidden p (Some sample_options).
Proof.
  intros p.
  assert (@ValidatePayload ascii_unicode (Some p) (Some sample_options) = Err ErrIPForbidden) as E
    by (vm_compute; reflexivity).
  split; [exact E|]. by apply (@ValidatePayload_spec ascii_unicode p (Some sample_options)).
Defined.
