(* ===== verification/Matcher.v ===== *)
(** * Path protection ([internal/matcher])

    Path normalisation, the extension and regular-expression matchers, and
    their combination.  [regexp] is the parameter class [Regexp]. *)

From S2P Require Import Prelude GoStrings Sha256.

(** ** [url.PathUnescape] *)

Fixpoint path_unescape (l : list Z) : option (list Z) :=
  match l with
  | [] => Some []
  | b :: l' =>
      if b =? 37 then
        match l' with
        | h :: k :: l'' =>
            match hex_value h, hex_value k with
            | Some x, Some y => (cons (16 * x + y)) <$> path_unescape l''
            | _, _ => None
            end
        | _ => None
        end
      else cons b <$> path_unescape l'
  end.

(** ** Normalisation *)

Definition strip_nul (path : list Z) : list Z :=
  match index_byte 0 path with Some i => take i path | None => path end.

Definition strip_params (path : list Z) : list Z :=
  match last_index_byte 47 path with
  | Some i =>
      match index_byte 59 (drop i path) with Some j => take (i + j) path | None => path end
  | None =>
      match index_byte 59 path with Some j => take j path | None => path end
  end.

Definition trim_set : string := of_bytes [47; 46; 32; 9].

Definition NormalizePath (path : string) : string :=
  if (path =? "")%string then ""
  else
    let path := match path_unescape (bytes_of path) with
                | Some decoded => decoded
                | None => bytes_of path
                end in
    let path := strip_nul path in
    let path := strip_params path in
    TrimRight (of_bytes path) trim_set.

(** ** Matchers *)

(** The [Matcher] interface: its one method. *)
Definition Matcher : Type := string -> bool.

Section Matchers.
Context `{Unicode}.

Record ExtensionMatcher := { exts : list string }.

(** One configured extension, lower-cased, trimmed and dotted; [None] when
    blank. *)
Definition normal_ext (e : string) : option string :=
  let e := TrimSpace (ToLower e) in
  if (e =? "")%string then None
  else Some (if negb (HasPrefix e ".") then ("." +:+ e)%string else e).

(** The loop keeps first occurrences; [extSet] is the set of [exts]. *)
Fixpoint add_exts (acc : list string) (extensions : list string) : list string :=
  match extensions with
  | [] => acc
  | e :: rest =>
      match normal_ext e with
      | None => add_exts acc rest
      | Some e => if existsb (fun x => x =? e)%string acc then add_exts acc rest
                  else add_exts (acc ++ [e]) rest
      end
  end.

Definition NewExtensionMatcher (extensions : list string) : ExtensionMatcher :=
  {| exts := add_exts [] extensions |}.

Definition ExtensionMatcher_ShouldProtect (m : ExtensionMatcher) : Matcher := fun path =>
  if (path =? "")%string then false
  else let lower := ToLower path in existsb (fun e => HasSuffix lower e) (exts m).

(** [regexp.Compile] and [MatchString]. *)
Class Regexp := {
  regexp : Type;
  re_compile : string -> option regexp;
  re_match : regexp -> string -> bool;
}.

Context `{Regexp}.

Record RegexMatcher := { patterns : list regexp }.

(** The loop of [NewRegexMatcher]: the compiled patterns and the bad ones. *)
Fixpoint compile_patterns (ps : list string) : list regexp * list string :=
  match ps with
  | [] => ([], [])
  | p :: ps =>
      if (p =? "")%string then compile_patterns ps
      else
        let '(res, errs) := compile_patterns ps in
        match re_compile p with
        | None => (res, p :: errs)
        | Some re => (re :: res, errs)
        end
  end.

Definition NewRegexMatcher (ps : list string) : result (list string) RegexMatcher :=
  let '(res, errs) := compile_patterns ps in
  if (0 <? length errs)%nat then Err errs else Ok {| patterns := res |}.

Definition RegexMatcher_ShouldProtect (m : RegexMatcher) : Matcher := fun path =>
  if (path =? "")%string then false else existsb (fun re => re_match re path) (patterns m).

(** Both fields are interface values, which may be nil. *)
Record Composite := { protected : option Matcher; excluded : option Matcher }.

Definition NewComposite (p e : option Matcher) : Composite :=
  {| protected := p; excluded := e |}.

Definition Composite_ShouldProtect (c : option Composite) : Matcher := fun path =>
  match c with
  | None => false
  | Some c =>
      match protected c with
      | None => false
      | Some p =>
          let path := NormalizePath path in
          if negb (p path) then false
          else match excluded c with None => true | Some e => negb (e path) end
      end
  end.

Definition NoopMatcher : Matcher := fun _ => false.
Definition AlwaysMatcher : Matcher := fun _ => true.
Definition Union_ShouldProtect (a b : Matcher) : Matcher := fun path => a path || b path.

End Matchers.

(** An engine for literal patterns, to evaluate definitions: a pattern with an
    open parenthesis does not compile, another one matches where it occurs. *)
Definition literal_regexp : Regexp := {|
  regexp := string;
  re_compile p := if Contains p "(" then None else Some p;
  re_match p s := Contains s p;
|}.

(** ** Spellings of a path *)

(** [pct_spelling e l]: [e] is a percent-encoding of [l], any byte of which may
    be escaped, in either hex case. *)
Inductive pct_spelling : list Z -> list Z -> Prop :=
  | ps_nil : pct_spelling [] []
  | ps_lit b e l : b <> 37 -> pct_spelling e l -> pct_spelling (b :: e) (b :: l)
  | ps_hex h k x y e l : hex_value h = Some x -> hex_value k = Some y ->
      pct_spelling e l -> pct_spelling (37 :: h :: k :: e) (16 * x + y :: l).

(** Text a server ignores at the end of a file name: separators, dots and
    blanks, then parameters of that segment, then a NUL and anything. *)
Definition ignored_tail (t : list Z) : Prop :=
  exists seps params garbage,
    t = seps ++ params ++ garbage /\
    Forall (fun b => b ∈ [47; 46; 32; 9]) seps /\
    (params = [] \/ exists v, params = 59 :: v /\ 47 ∉ v /\ 0 ∉ v) /\
    (garbage = [] \/ exists g, garbage = 0 :: g).

(** A file name with none of the characters normalisation acts on. *)
Record plain_path (p : list Z) : Prop := {
  pp_no_nul : 0 ∉ p;
  pp_no_params : 59 ∉ p;
  pp_end : exists k x, p = k ++ [x] /\ x ∉ [47; 46; 32; 9];
}.

Lemma path_unescape_spelling e l : pct_spelling e l -> path_unescape e = Some l.
Proof.
  induction 1 as [|b e l Hb _ IH|h k x y e l Hh Hk _ IH]; [done| |].
  - simpl. destruct (Z.eqb_spec b 37); [done|]. by rewrite IH.
  - simpl. by rewrite Hh, Hk, IH.
Qed.

Lemma index_byte_app c l k : c ∉ l -> index_byte c (l ++ c :: k) = Some (length l).
Proof.
  unfold index_byte. intros Hc. induction l as [|a l IH]; simpl; [by rewrite Z.eqb_refl|].
  destruct (Z.eqb_spec a c) as [->|]; [exfalso; apply Hc; left|].
  rewrite IH; [done|]. intros ?; apply Hc; by right.
Qed.

Lemma index_byte_none c l : c ∉ l -> index_byte c l = None.
Proof.
  unfold index_byte. intros Hc. induction l as [|a l IH]; simpl; [done|].
  destruct (Z.eqb_spec a c) as [->|]; [exfalso; apply Hc; left|].
  rewrite IH; [done|]. intros ?; apply Hc; by right.
Qed.

Lemma strip_nul_tail l g : 0 ∉ l -> (g = [] \/ exists g', g = 0 :: g') -> strip_nul (l ++ g) = l.
Proof.
  intros Hl [->|[g' ->]]; unfold strip_nul.
  - by rewrite app_nil_r, index_byte_none.
  - rewrite index_byte_app by done. by rewrite take_app_length.
Qed.

Lemma last_index_byte_lt c l i : last_index_byte c l = Some i -> (i < length l)%nat.
Proof.
  revert i; induction l as [|a l IH]; intros i; simpl; [done|].
  destruct (last_index_byte c l) as [j|]; [intros [= <-]; specialize (IH j eq_refl); lia|].
  case_if; [intros [= <-]; lia|done].
Qed.

Lemma last_index_byte_app c l k :
  c ∉ k -> last_index_byte c (l ++ k) = last_index_byte c l.
Proof.
  intros Hk. assert (last_index_byte c k = None) as E.
  { induction k as [|a k IH]; [done|]. simpl. rewrite IH by (intros ?; apply Hk; by right).
    destruct (Z.eqb_spec a c) as [->|]; [exfalso; apply Hk; left|done]. }
  induction l as [|a l IH]; simpl; [done|]. by rewrite IH.
Qed.

Lemma elem_drop (x : Z) i l : x ∈ drop i l -> x ∈ l.
Proof. intros Hx. rewrite <- (take_drop i l). apply elem_of_app. by right. Qed.

Lemma strip_params_tail l v :
  59 ∉ l -> (v = [] \/ exists w, v = 59 :: w /\ 47 ∉ w) -> strip_params (l ++ v) = l.
Proof.
  intros Hl Hv. unfold strip_params.
  assert (47 ∉ v) as Hs.
  { destruct Hv as [->|(w & -> & Hw)]; [apply not_elem_of_nil|].
    rewrite elem_of_cons. intros [?|?]; [lia|done]. }
  rewrite last_index_byte_app by done.
  destruct (last_index_byte 47 l) as [i|] eqn:Ei.
  - apply last_index_byte_lt in Ei. rewrite drop_app_le by lia.
    destruct Hv as [->|(w & -> & Hw)].
    + rewrite !app_nil_r, index_byte_none; [done|]. intros ?%elem_drop. done.
    + rewrite index_byte_app by (intros ?%elem_drop; done).
      rewrite length_drop. replace (i + (length l - i))%nat with (length l) by lia.
      apply take_app_length.
  - destruct Hv as [->|(w & -> & Hw)]; [by rewrite app_nil_r, index_byte_none|].
    rewrite index_byte_app by done. apply take_app_length.
Qed.

Lemma drop_while_all {A} (f : A -> bool) l k :
  Forall (fun x => f x = true) l -> drop_while f (l ++ k) = drop_while f k.
Proof. induction 1 as [|x l Hx _ IH]; simpl; [done|]. by rewrite Hx. Qed.

Lemma trim_tail l t :
  (exists k x, l = k ++ [x] /\ x ∉ [47; 46; 32; 9]) ->
  Forall (fun b => b ∈ [47; 46; 32; 9]) t -> 
  drop_while_end (fun b => existsb (fun c => c =? b) [47; 46; 32; 9]) (l ++ t) = l.
Proof.
  intros (k & x & -> & Hx) Ht.
  assert (forall b, existsb (fun c => c =? b) [47; 46; 32; 9] = true <-> b ∈ [47; 46; 32; 9]) as He.
  { intros b. rewrite existsb_exists. setoid_rewrite Z.eqb_eq. setoid_rewrite <- list_elem_of_In.
    naive_solver. }
  unfold drop_while_end. rewrite rev_app_distr, drop_while_all.
  - rewrite rev_app_distr. cbn [rev app drop_while].
    destruct (existsb _ _) eqn:E; [apply He in E; done|]. 
    change (rev (x :: rev k) = k ++ [x]). simpl. by rewrite rev_involutive.
  - apply Forall_forall. intros b Hb. apply He. apply (proj1 (Forall_forall _ _) Ht).
    apply list_elem_of_In, in_rev, list_elem_of_In in Hb. done.
Qed.

Lemma hex_value_range c x : hex_value c = Some x -> 0 <= x < 16.
Proof. unfold hex_value, in_range. repeat case_if; bprop; intros [= <-]; lia. Qed.

Lemma pct_spelling_bytes e l : pct_spelling e l -> Forall is_byte e -> Forall is_byte l.
Proof.
  induction 1 as [|b e l Hb _ IH|h k x y e l Hh Hk _ IH]; intros He; [done| |].
  - inv He. auto.
  - apply hex_value_range in Hh, Hk. do 3 (apply Forall_cons in He as [_ He]).
    constructor; [unfold is_byte; lia|auto].
Qed.

Lemma bytes_of_bytes s : Forall is_byte (bytes_of s).
Proof. apply bytes_of_range. Qed.

(** Normalisation sees through spelling: whatever percent-encoding a client
    uses, and whatever ignored tail (separators, dots, blanks, parameters, a
    NUL and anything after it) it adds, a plain path normalises to itself. *)
Lemma NormalizePath_spelling s p t :
  plain_path p -> ignored_tail t -> pct_spelling (bytes_of s) (p ++ t) ->
  NormalizePath s = of_bytes p.
Proof.
  intros Hp (seps & params & garbage & -> & Hseps & Hparams & Hg) Hs.
  pose proof (pct_spelling_bytes _ _ Hs (bytes_of_bytes s)) as Hb.
  unfold NormalizePath. destruct (String.eqb_spec s "") as [->|_].
  { inv Hs. destruct (pp_end _ Hp) as (k & x & -> & _). by destruct k. }
  rewrite (path_unescape_spelling _ _ Hs).
  rewrite !app_assoc, strip_nul_tail, strip_params_tail.
  - unfold TrimRight. f_equal. rewrite bytes_of_of.
    + apply trim_tail; [apply Hp|done].
    + rewrite !app_assoc in Hb. apply Forall_app in Hb as [Hb _].
      by apply Forall_app in Hb as [Hb _].
  - rewrite elem_of_app. intros [Hin|Hin]; [by apply Hp in Hin|].
    apply (proj1 (Forall_forall _ _) Hseps) in Hin. set_solver by lia.
  - destruct Hparams as [->|(v & -> & ? & ?)]; eauto.
  - rewrite !elem_of_app. intros [[Hin|Hin]|Hin]; [by apply Hp in Hin| |].
    + apply (proj1 (Forall_forall _ _) Hseps) in Hin. set_solver by lia.
    + destruct Hparams as [->|(v & -> & _ & Hv)]; [by apply elem_of_nil in Hin|].
      apply elem_of_cons in Hin as [?|?]; [lia|done].
  - done.
Qed.

(** C36: protection ignores spelling: whatever percent-encoding a client uses,
    and whatever ignored tail (separators, dots, blanks, parameters of the last
    segment, a NUL and anything after it) it adds to a plain path, the verdict
    is that of the plain path, protected and not excluded. *)
Theorem protection_ignores_spelling m excl s p t :
  plain_path p -> ignored_tail t -> pct_spelling (bytes_of s) (p ++ t) ->
  Composite_ShouldProtect (Some (NewComposite (Some m) excl)) s =
  m (of_bytes p) && negb (match excl with Some e => e (of_bytes p) | None => false end).
Proof.
  intros Hp Ht Hs. simpl. rewrite (NormalizePath_spelling s p t) by done.
  destruct (m (of_bytes p)); [|done]. by destruct excl.
Qed.

Lemma protection_ignores_spelling_witness :
  let m := ExtensionMatcher_ShouldProtect (H := ascii_unicode)
             (NewExtensionMatcher (H := ascii_unicode) ["iso"%string]) in
  Composite_ShouldProtect (Some (NewComposite (Some m) None)) "/u%2Eis%6f/. ;a=b" = true.
Proof.
  intros m.
  assert (plain_path (bytes_of "/u.iso")) as Hp.
  { split; [vm_compute; set_solver by lia..|].
    exists (bytes_of "/u.is"), 111. split; [by vm_compute|set_solver by lia]. }
  assert (ignored_tail (bytes_of "/. ;a=b")) as Ht.
  { exists [47; 46; 32], (bytes_of ";a=b"), []. split_and!; [by vm_compute| | |by left].
    - repeat constructor; set_solver.
    - right. exists (bytes_of "a=b"). split_and!; [by vm_compute|vm_compute; set_solver by lia..]. }
  assert (pct_spelling (bytes_of "/u%2Eis%6f/. ;a=b") (bytes_of "/u.iso" ++ bytes_of "/. ;a=b")) as Hs.
  { repeat first [apply ps_nil|apply ps_lit; [vm_compute; lia|]
                 |apply (ps_hex _ _ 2 14); [by vm_compute..|]
                 |apply (ps_hex _ _ 6 15); [by vm_compute..|]]. }
  rewrite (protection_ignores_spelling m None _ _ _ Hp Ht Hs). vm_compute. reflexivity.
Defined.

(** A separator after the parameters is the one tail it does not see through. *)
Example NormalizePath_params_then_slash :
  NormalizePath "/ubuntu.iso;x=1/" = "/ubuntu.iso;x=1"%string /\
  NormalizePath "/ubuntu.iso/;x=1" = "/ubuntu.iso"%string.
Proof. split; vm_compute; reflexivity. Qed.

Section Extensions.
Context `{Unicode}.

Lemma add_exts_elem acc l e :
  e ∈ add_exts acc l <-> e ∈ acc \/ exists x, x ∈ l /\ normal_ext x = Some e.
Proof.
  revert acc; induction l as [|x l IH]; intros acc; simpl.
  - split; [auto|]. intros [?|(x & Hx & _)]; [done|by apply elem_of_nil in Hx].
  - assert (forall P : string -> Prop, (exists y, y ∈ x :: l /\ P y) <-> P x \/ exists y, y ∈ l /\ P y) as Hc.
    { intros P. setoid_rewrite elem_of_cons. naive_solver. }
    rewrite Hc. destruct (normal_ext x) as [d|] eqn:E; [|rewrite IH; naive_solver].
    destruct (existsb _ acc) eqn:Ex; rewrite IH.
    + apply existsb_eqb_elem in Ex. naive_solver.
    + rewrite elem_of_app, list_elem_of_singleton. naive_solver.
Qed.

Lemma add_exts_nodup acc l : NoDup acc -> NoDup (add_exts acc l).
Proof.
  revert acc; induction l as [|x l IH]; intros acc Ha; simpl; [done|].
  destruct (normal_ext x) as [d|]; [|auto]. destruct (existsb _ acc) eqn:Ex; [auto|].
  apply IH, NoDup_app. split_and!; [done| |apply NoDup_singleton].
  intros y Hy ->%list_elem_of_singleton. apply existsb_eqb_elem in Hy. congruence.
Qed.

Lemma normal_ext_dot e d : normal_ext e = Some d -> HasPrefix d "." = true.
Proof.
  unfold normal_ext. case_if; [done|]. case_if; bprop; intros [= <-]; [|done].
  apply HasPrefix_spec. eauto.
Qed.

Lemma ExtensionMatcher_iff extensions path :
  ExtensionMatcher_ShouldProtect (NewExtensionMatcher extensions) path = true <->
  path <> ""%string /\ exists e d stem, e ∈ extensions /\ normal_ext e = Some d /\
    ToLower path = (stem +:+ d)%string.
Proof.
  unfold ExtensionMatcher_ShouldProtect, NewExtensionMatcher. simpl.
  destruct (String.eqb_spec path ""); [naive_solver|].
  rewrite existsb_exists. setoid_rewrite <- list_elem_of_In. setoid_rewrite add_exts_elem.
  setoid_rewrite HasSuffix_spec. split.
  - intros (d & [Hd|(e & He & Hd)] & stem & Hs); [by apply elem_of_nil in Hd|].
    split; [done|]. by exists e, d, stem.
  - intros (_ & e & d & stem & He & Hd & Hs). exists d. split; eauto.
Qed.

(** An extension matcher built from any list holds distinct dotted
    extensions, and protects exactly the non-empty paths whose lower-cased form
    ends in one of the configured extensions, read after lower-casing,
    trimming and dotting it; blank entries protect nothing. *)
Theorem ExtensionMatcher_spec extensions :
  let m := NewExtensionMatcher extensions in
  NoDup (exts m) /\ Forall (fun e => HasPrefix e "." = true) (exts m) /\
  forall path, ExtensionMatcher_ShouldProtect m path = true <->
    path <> ""%string /\ exists e d stem, e ∈ extensions /\ normal_ext e = Some d /\
      ToLower path = (stem +:+ d)%string.
Proof.
  intros m. unfold m. split_and!.
  - apply add_exts_nodup, NoDup_nil_2.
  - apply Forall_forall. intros d Hd. apply add_exts_elem in Hd as [Hd|(e & _ & Hd)].
    + by apply elem_of_nil in Hd.
    + by apply normal_ext_dot in Hd.
  - apply ExtensionMatcher_iff.
Qed.

End Extensions.

Section Regexes.
Context `{Regexp}.

Definition bad_pattern (p : string) : Prop := p <> ""%string /\ re_compile p = None.

Lemma compile_patterns_errs ps p : p ∈ (compile_patterns ps).2 <-> p ∈ ps /\ bad_pattern p.
Proof.
  unfold bad_pattern. induction ps as [|q ps IH]; simpl; [set_solver|].
  rewrite elem_of_cons.
  destruct (String.eqb_spec q ""); [rewrite IH; naive_solver|].
  destruct (compile_patterns ps) as [res errs]; simpl in *.
  destruct (re_compile q) eqn:E; simpl; rewrite ?elem_of_cons, ?IH; naive_solver.
Qed.

Lemma compile_patterns_res ps re :
  re ∈ (compile_patterns ps).1 <-> exists p, p ∈ ps /\ p <> ""%string /\ re_compile p = Some re.
Proof.
  induction ps as [|q ps IH]; simpl; [set_solver|].
  setoid_rewrite elem_of_cons.
  destruct (String.eqb_spec q ""); [rewrite IH; naive_solver|].
  destruct (compile_patterns ps) as [res errs]; simpl in *.
  destruct (re_compile q) eqn:E; simpl; rewrite ?elem_of_cons, ?IH; naive_solver.
Qed.

Lemma NewRegexMatcher_iff ps :
  match NewRegexMatcher ps with
  | Err errs => errs <> [] /\ forall p, p ∈ errs <-> p ∈ ps /\ bad_pattern p
  | Ok m => Forall (fun p => ~ bad_pattern p) ps /\
      forall path, RegexMatcher_ShouldProtect m path = true <->
        path <> ""%string /\ exists p re, p ∈ ps /\ p <> ""%string /\
          re_compile p = Some re /\ re_match re path = true
  end.
Proof.
  pose proof (compile_patterns_errs ps) as He. pose proof (compile_patterns_res ps) as Hr.
  unfold NewRegexMatcher. destruct (compile_patterns ps) as [res errs]. simpl in *.
  destruct errs as [|e errs]; simpl; [|split; [done|apply He]]. split.
  - apply Forall_forall. intros p Hp Hb. assert (p ∈ @nil string) by (apply He; auto). set_solver.
  - intros path. unfold RegexMatcher_ShouldProtect. simpl.
    destruct (String.eqb_spec path ""); [naive_solver|].
    rewrite existsb_exists. setoid_rewrite <- list_elem_of_In. setoid_rewrite Hr. naive_solver.
Qed.

(** A regex matcher is built exactly when every non-empty pattern compiles
    (otherwise the error lists exactly the bad ones), and then matches exactly
    the non-empty paths that one of the patterns matches. *)
Theorem NewRegexMatcher_spec ps :
  match NewRegexMatcher ps with
  | Err errs => errs <> [] /\ forall p, p ∈ errs <-> p ∈ ps /\ bad_pattern p
  | Ok m => Forall (fun p => ~ bad_pattern p) ps /\
      forall path, RegexMatcher_ShouldProtect m path = true <->
        path <> ""%string /\ exists p re, p ∈ ps /\ p <> ""%string /\
          re_compile p = Some re /\ re_match re path = true
  end.
Proof. apply NewRegexMatcher_iff. Qed.

End Regexes.
