(* ===== verification/Storage.v ===== *)
(** * The storage contract ([internal/storage])

    The records of [store.go], the two store interfaces as type classes, and
    the contract a usage store keeps towards the authentication service: its
    laws, and the quota theorem that follows from the laws alone. *)

From S2P Require Import Prelude.

(** ** Data *)

Record ConsumeInput := MkConsumeInput {
  ciID : string;
  ciMode : string;
  ciPath : string;
  ciSign : string;
  ciTokenHash : string;
  ciExpiresAt : Z;
  ciMaxUses : Z;
  ciIP : string;
  ciUserAgent : string;
  ciNowUnix : Z;
  ciGraceSeconds : Z;
  ciSkipConsume : bool;
}.

Record ConsumeResult := MkConsumeResult {
  crAllowed : bool;
  crUses : Z;
  crMaxUses : Z;
  crReason : string;
}.

(** [ConsumeResult{}], returned beside an error. *)
Definition zero_result : ConsumeResult := MkConsumeResult false 0 0 "".

Record UsageRecord := MkUsageRecord {
  urID : string;
  urMode : string;
  urPath : string;
  urSign : string;
  urTokenHash : string;
  urUses : Z;
  urMaxUses : Z;
  urFirstIP : string;
  urLastIP : string;
  urUserAgent : string;
  urExpiresAt : Z;
  urCreatedAt : Z;
  urUpdatedAt : Z;
}.

(** Errors of the stores.  [ErrBackend] wraps a failure of the database or of
    Redis; [NilMapPanic] is not an error value but the run-time panic of a write
    to a nil map. *)
Inductive storage_error :=
  | ErrNotFound
  | ErrClosed
  | ErrInvalidWindow
  | ErrBackend (what : string)
  | NilMapPanic.

#[export] Instance storage_error_eq_dec : EqDecision storage_error.
Proof. solve_decision. Defined.

(** ** Interfaces

    A store's operations on its state.  [us_env] is what the outside world
    contributes to a call: the wall clock, and the backend's failures. *)

Class UsageStore (S : Type) := {
  us_env : Type;
  us_consume : us_env -> ConsumeInput -> S -> result storage_error ConsumeResult * S;
  us_get : us_env -> string -> S -> result storage_error UsageRecord * S;
  us_cleanup : us_env -> Z -> S -> result storage_error Z * S;
  us_close : S -> S;
}.

(** Windows and the remaining time are nanoseconds. *)
Class CounterStore (S : Type) := {
  cs_env : Type;
  cs_incr : cs_env -> string -> string -> Z -> S -> result storage_error (Z * Z) * S;
  cs_get : cs_env -> string -> string -> Z -> S -> result storage_error Z * S;
  cs_reset : cs_env -> string -> string -> Z -> S -> result storage_error unit * S;
  cs_close : S -> S;
}.

(** [storage.ActiveCounter]. *)
Class ActiveCounter (S : Type) `{UsageStore S} := {
  us_count_active : us_env -> S -> result storage_error Z;
}.

(** ** The contract of a usage store *)

(** What the contract observes of a record. *)
Record usage_view := MkView {
  uv_uses : Z;
  uv_max : Z;
  uv_expires : Z;
  uv_first_ip : string;
}.

Definition view_of (r : UsageRecord) : usage_view :=
  MkView (urUses r) (urMaxUses r) (urExpiresAt r) (urFirstIP r).

Definition views : Type := string -> option usage_view.

Definition view_uses (v : option usage_view) : Z := default 0 (uv_uses <$> v).

(** Records that expired before [c] may disappear; the others stay. *)
Definition drops (c : Z) (v v' : views) : Prop :=
  forall id, v' id = v id \/ (v' id = None /\ exists x, v id = Some x /\ uv_expires x < c).

Lemma drops_refl c v : drops c v v.
Proof. intros id. by left. Qed.

(** The record a first call creates, with [n] uses on it. *)
Definition created (inp : ConsumeInput) (n : Z) : usage_view :=
  MkView n (ciMaxUses inp) (ciExpiresAt inp) (ciIP inp).

Definition with_uses (n : Z) (x : usage_view) : usage_view :=
  MkView n (uv_max x) (uv_expires x) (uv_first_ip x).

(** The record after one more use. *)
Definition charged_view (inp : ConsumeInput) (v : option usage_view) : option usage_view :=
  Some (match v with
        | Some x => with_uses (uv_uses x + 1) x
        | None => created inp 1
        end).

(** The record unchanged, or created with no use on it. *)
Definition uncharged (inp : ConsumeInput) (v v' : option usage_view) : Prop :=
  v' = v \/ (v = None /\ v' = Some (created inp 0)).

(** The cap that governs a record: the caller's, or the one stored with it. *)
Definition cap (inp : ConsumeInput) (v : option usage_view) : Z :=
  Z.max 1 (Z.max (ciMaxUses inp) (default 0 (uv_max <$> v))).

(** A call that counts as one use of the token. *)
Definition is_charge (inp : ConsumeInput) (r : result storage_error ConsumeResult) : bool :=
  match r with Ok cr => crAllowed cr && negb (ciSkipConsume inp) | Err _ => false end.

(** The effect of a call: a charge happens only below the cap and adds one use;
    a denial or a skipped call leaves the count; an error may leave the use
    charged, never take one away. *)
Definition consume_effect (inp : ConsumeInput) (r : result storage_error ConsumeResult)
  (v v' : views) : Prop :=
  (forall id, id <> ciID inp -> v' id = v id) /\
  let x := v (ciID inp) in let x' := v' (ciID inp) in
  match r with
  | Ok cr =>
      if is_charge inp r then view_uses x < cap inp x /\ x' = charged_view inp x
      else uncharged inp x x'
  | Err _ => uncharged inp x x' \/ x' = charged_view inp x
  end.

(** [us_grace]: how long past its expiry a record is kept at least. *)
Class UsageStoreLaws (S : Type) `{UsageStore S} := {
  us_inv : S -> Prop;
  us_view : S -> views;
  us_time : us_env -> Z;
  us_grace : Z;
  us_call_ok : us_env -> ConsumeInput -> Prop;
  us_consume_law : forall e inp s r s', us_inv s -> us_call_ok e inp ->
    us_consume e inp s = (r, s') ->
    us_inv s' /\
    exists v, drops (us_time e - us_grace) (us_view s) v /\ consume_effect inp r v (us_view s');
  us_get_law : forall e id s r s', us_inv s -> us_get e id s = (r, s') ->
    us_inv s' /\ drops (us_time e - us_grace) (us_view s) (us_view s');
  us_cleanup_law : forall e before s r s', us_inv s -> us_cleanup e before s = (r, s') ->
    us_inv s' /\ drops (Z.max before (us_time e - us_grace)) (us_view s) (us_view s');
}.

(** ** Runs of a store *)

Section Runs.
Context {S : Type} `{UsageStore S}.

Inductive us_event :=
  | EvConsume (e : us_env) (inp : ConsumeInput)
  | EvGet (e : us_env) (id : string)
  | EvCleanup (e : us_env) (before : Z).

(** One event: the new state, and whether it charged a use to [id]. *)
Definition us_step (id : string) (ev : us_event) (s : S) : bool * S :=
  match ev with
  | EvConsume e inp =>
      let '(r, s') := us_consume e inp s in
      (is_charge inp r && bool_decide (ciID inp = id), s')
  | EvGet e i => (false, (us_get e i s).2)
  | EvCleanup e before => (false, (us_cleanup e before s).2)
  end.

(** The uses charged to [id] in a run. *)
Fixpoint charges (id : string) (evs : list us_event) (s : S) : Z :=
  match evs with
  | [] => 0
  | ev :: evs =>
      let '(c, s') := us_step id ev s in (if c then 1 else 0) + charges id evs s'
  end.

End Runs.
Arguments us_event S {_}.

(** ** The quota theorem *)

Section Quota.
Context {S : Type} `{UsageStoreLaws S}.
Variables (id : string) (E M : Z).

(** The calls of the service: time does not run backwards, the token is
    presented only up to its expiry plus the grace period, with the caps of the
    configuration between 1 and [M]; cleanup keeps the grace period. *)
Definition ev_time (ev : us_event S) : Z :=
  match ev with EvConsume e _ | EvGet e _ | EvCleanup e _ => us_time e end.

Definition ev_ok (ev : us_event S) : Prop :=
  match ev with
  | EvConsume e inp =>
      us_call_ok e inp /\
      (ciID inp = id -> ciExpiresAt inp = E /\ 1 <= ciMaxUses inp <= M /\ us_time e <= E + us_grace)
  | EvGet _ _ => True
  | EvCleanup e before => before <= us_time e - us_grace
  end.

Fixpoint well_timed (t : Z) (evs : list (us_event S)) : Prop :=
  match evs with
  | [] => True
  | ev :: evs => t <= ev_time ev /\ ev_ok ev /\ well_timed (ev_time ev) evs
  end.

(** The record of [id], if there is one, belongs to this token. *)
Definition record_ok (v : option usage_view) : Prop :=
  forall x, v = Some x -> uv_expires x = E /\ uv_max x <= M.

Lemma drops_alive c v v' : drops c v v' -> record_ok (v id) -> c <= E -> v' id = v id.
Proof.
  intros Hd Hr Hc. destruct (Hd id) as [?|(_ & x & Hx & Hlt)]; [done|].
  destruct (Hr x Hx). lia.
Qed.

Lemma drops_record_ok c v v' : drops c v v' -> record_ok (v id) -> record_ok (v' id).
Proof. intros Hd Hr x Hx. destruct (Hd id) as [E'|(E' & _)]; rewrite E' in Hx; [auto|done]. Qed.

Lemma record_ok_uncharged inp x x' :
  ciExpiresAt inp = E -> ciMaxUses inp <= M -> uncharged inp x x' -> record_ok x ->
  record_ok x' /\ view_uses x' = view_uses x.
Proof.
  intros He Hm [->|[-> ->]] Hr; [done|]. split; [|done]. intros y [= <-]. done.
Qed.

Lemma record_ok_charged inp x :
  ciExpiresAt inp = E -> ciMaxUses inp <= M -> record_ok x ->
  record_ok (charged_view inp x) /\ view_uses (charged_view inp x) = view_uses x + 1.
Proof.
  intros He Hm Hr. destruct x as [x|]; simpl; (split; [|unfold view_uses; simpl; lia]);
    intros y [= <-]; simpl; [by apply (Hr x)|done].
Qed.

Lemma cap_le inp x : record_ok x -> 1 <= ciMaxUses inp <= M -> cap inp x <= M.
Proof.
  intros Hr Hm. unfold cap. destruct x as [x|]; simpl; [|lia]. destruct (Hr x eq_refl). lia.
Qed.

(** One event, while the token lives: the record stays this token's, and a
    charge adds a use that fits under [M]. *)
Lemma us_step_alive ev s c s' :
  us_inv s -> record_ok (us_view s id) -> ev_ok ev -> ev_time ev <= E + us_grace ->
  us_step id ev s = (c, s') ->
  us_inv s' /\ record_ok (us_view s' id) /\
  (c = true -> view_uses (us_view s id) < M) /\
  view_uses (us_view s id) + (if c then 1 else 0) <= view_uses (us_view s' id).
Proof.
  intros Hi Hr Hok Ht Hs. destruct ev as [e inp|e i|e before]; simpl in *.
  - destruct (us_consume e inp s) as [r s1] eqn:Ec. injection Hs as <- <-.
    destruct Hok as [Hcall Hid].
    destruct (us_consume_law _ _ _ _ _ Hi Hcall Ec) as (Hi' & v & Hd & Ho & Heff).
    pose proof (drops_alive _ _ _ Hd Hr ltac:(lia)) as Ev. split; [done|].
    destruct (decide (ciID inp = id)) as [Eid|Hne].
    + rewrite bool_decide_eq_true_2 by done. rewrite andb_true_r.
      destruct (Hid Eid) as (He & Hm & _). rewrite Eid, Ev in Heff.
      pose proof (record_ok_charged inp _ He ltac:(lia) Hr) as [Hc1 Hc2].
      pose proof (cap_le inp _ Hr Hm).
      destruct r as [cr|err].
      * destruct (is_charge inp (Ok cr)).
        -- destruct Heff as [Hlt ->]. split_and!; [done|lia|lia].
        -- destruct (record_ok_uncharged _ _ _ He ltac:(lia) Heff Hr) as [? ->].
           split_and!; [done|done|lia].
      * simpl. destruct Heff as [Hu|Hu].
        -- destruct (record_ok_uncharged _ _ _ He ltac:(lia) Hu Hr) as [? ->].
           split_and!; [done|done|lia].
        -- rewrite Hu. split_and!; [done|done|lia].
    + rewrite bool_decide_eq_false_2, andb_false_r by done.
      rewrite Ho, Ev by congruence. split_and!; [done|done|lia].
  - injection Hs as <- <-. destruct (us_get e i s) as [r s1] eqn:Eg.
    destruct (us_get_law _ _ _ _ _ Hi Eg) as [Hi' Hd]. simpl.
    rewrite (drops_alive _ _ _ Hd Hr) by lia. split_and!; [done|done|done|lia].
  - injection Hs as <- <-. destruct (us_cleanup e before s) as [r s1] eqn:Eg.
    destruct (us_cleanup_law _ _ _ _ _ Hi Eg) as [Hi' Hd]. simpl.
    rewrite (drops_alive _ _ _ Hd Hr) by lia. split_and!; [done|done|done|lia].
Qed.

(** One event after the token's life charges nothing to it. *)
Lemma us_step_dead ev s c s' :
  us_inv s -> ev_ok ev -> E + us_grace < ev_time ev ->
  us_step id ev s = (c, s') ->
  us_inv s' /\ c = false.
Proof.
  intros Hi Hok Ht Hs. destruct ev as [e inp|e i|e before]; simpl in *.
  - destruct (us_consume e inp s) as [r s1] eqn:Ec. injection Hs as <- <-.
    destruct Hok as [Hcall Hid].
    destruct (us_consume_law _ _ _ _ _ Hi Hcall Ec) as (Hi' & _). split; [done|].
    destruct (decide (ciID inp = id)) as [Eid|Hne]; [destruct (Hid Eid); lia|].
    by rewrite bool_decide_eq_false_2, andb_false_r.
  - injection Hs as <- <-. destruct (us_get e i s) as [r s1] eqn:Eg.
    by destruct (us_get_law _ _ _ _ _ Hi Eg).
  - injection Hs as <- <-. destruct (us_cleanup e before s) as [r s1] eqn:Eg.
    by destruct (us_cleanup_law _ _ _ _ _ Hi Eg).
Qed.

Lemma charges_dead evs t s :
  us_inv s -> well_timed t evs -> E + us_grace < t -> charges id evs s = 0.
Proof.
  revert t s; induction evs as [|ev evs IH]; intros t s Hi Hw Ht; simpl in *; [done|].
  destruct Hw as (Hle & Hok & Hw). destruct (us_step id ev s) as [c s'] eqn:Es.
  destruct (us_step_dead ev s c s' Hi Hok ltac:(lia) Es) as [Hi' ->].
  rewrite (IH (ev_time ev)); [done|done|done|lia].
Qed.

Lemma charges_bound evs t s :
  us_inv s -> record_ok (us_view s id) -> well_timed t evs ->
  charges id evs s <= Z.max 0 (M - view_uses (us_view s id)).
Proof.
  revert t s; induction evs as [|ev evs IH]; intros t s Hi Hr Hw; simpl; [lia|].
  destruct (decide (E + us_grace < ev_time ev)) as [Hdead|Halive].
  - pose proof (charges_dead (ev :: evs) (ev_time ev) s Hi) as Hc. simpl in Hc, Hw.
    rewrite Hc; [lia| |done]. split_and!; [lia|apply Hw..].
  - destruct Hw as (Hle & Hok & Hw). destruct (us_step id ev s) as [c s'] eqn:Es.
    destruct (us_step_alive ev s c s' Hi Hr Hok ltac:(lia) Es) as (Hi' & Hr' & Hc & Hu).
    specialize (IH _ _ Hi' Hr' Hw). destruct c; [specialize (Hc eq_refl)|]; lia.
Qed.

(** The state after a run. *)
Fixpoint us_run (evs : list (us_event S)) (s : S) : S :=
  match evs with [] => s | ev :: evs => us_run evs (us_step id ev s).2 end.

Definition ev_alive (ev : us_event S) : Prop := ev_time ev <= E + us_grace.

Lemma us_step_first_ip ev s c s' x :
  us_inv s -> record_ok (us_view s id) -> ev_ok ev -> ev_time ev <= E + us_grace ->
  us_step id ev s = (c, s') -> us_view s id = Some x ->
  exists y, us_view s' id = Some y /\ uv_first_ip y = uv_first_ip x.
Proof.
  intros Hi Hr Hok Ht Hs Hx. destruct ev as [e inp|e i|e before]; simpl in *.
  - destruct (us_consume e inp s) as [r s1] eqn:Ec. injection Hs as <- <-.
    destruct Hok as [Hcall _].
    destruct (us_consume_law _ _ _ _ _ Hi Hcall Ec) as (_ & v & Hd & Ho & Heff).
    pose proof (drops_alive _ _ _ Hd Hr ltac:(lia)) as Ev.
    destruct (decide (ciID inp = id)) as [Eid|Hne]; [|rewrite Ho, Ev by congruence; eauto].
    rewrite Eid, Ev, Hx in Heff.
    assert (forall z, uncharged inp (Some x) z -> exists y, z = Some y /\ uv_first_ip y = uv_first_ip x)
      as Hunc by (intros z [->|[? _]]; [eauto|done]).
    destruct r as [cr|err]; [destruct (is_charge inp (Ok cr)); [destruct Heff as [_ ->]|]|
      destruct Heff as [Heff| ->]]; eauto; eexists; (split; [reflexivity|done]).
  - injection Hs as <- <-. destruct (us_get e i s) as [r s1] eqn:Eg.
    destruct (us_get_law _ _ _ _ _ Hi Eg) as [_ Hd]. simpl.
    rewrite (drops_alive _ _ _ Hd Hr) by lia. eauto.
  - injection Hs as <- <-. destruct (us_cleanup e before s) as [r s1] eqn:Eg.
    destruct (us_cleanup_law _ _ _ _ _ Hi Eg) as [_ Hd]. simpl.
    rewrite (drops_alive _ _ _ Hd Hr) by lia. eauto.
Qed.

(** The first-use binding.  Against any store that keeps the contract, once
    a record of a token exists, the IP it was created with stays its first IP in
    any run of calls up to the token's expiry plus the grace period. *)
Theorem first_ip_persists evs t s x :
  us_inv s -> record_ok (us_view s id) -> us_view s id = Some x ->
  well_timed t evs -> Forall ev_alive evs ->
  exists y, us_view (us_run evs s) id = Some y /\ uv_first_ip y = uv_first_ip x.
Proof.
  revert t s x; induction evs as [|ev evs IH]; intros t s x Hi Hr Hx Hw Ha; simpl; [eauto|].
  destruct Hw as (Hle & Hok & Hw). apply Forall_cons in Ha as [Ha Has]. unfold ev_alive in Ha.
  destruct (us_step id ev s) as [c s'] eqn:Es.
  destruct (us_step_alive ev s c s' Hi Hr Hok Ha Es) as (Hi' & Hr' & _).
  destruct (us_step_first_ip ev s c s' x Hi Hr Hok Ha Es Hx) as (y & Hy & Ey).
  destruct (IH _ s' y Hi' Hr' Hy Hw Has) as (z & Hz & Ez). simpl. exists z. split; [done|congruence].
Qed.

(** The quota.  Against any store that keeps the contract, in any run of
    calls whose times do not run backwards and that present the token up to its
    expiry plus the grace period, cleanup passes and other tokens' calls in
    between, the uses charged to one sign id never exceed the cap [M]. *)
Theorem quota_respected evs t s :
  us_inv s -> us_view s id = None -> well_timed t evs -> 1 <= M ->
  charges id evs s <= M.
Proof.
  intros Hi Hn Hw HM. pose proof (charges_bound evs t s Hi) as Hb. rewrite Hn in Hb.
  specialize (Hb ltac:(intros x; done) Hw). unfold view_uses in Hb. simpl in Hb. lia.
Qed.

End Quota.
