(* ===== verification/MemoryUsage.v ===== *)
(** * The in-memory usage store ([internal/storage/memory/usage.go])

    Each method locks the mutex for [isClosed] and again for its body: the two
    critical sections are separate definitions, composed here without anything
    in between, and interleaved with [Close] in the last section.  [Get] returns
    a copy, so the records are values. *)

From S2P Require Import Prelude Storage.

Module MemUsage.

Record UsageStore := MkStore {
  records : option (gmap string UsageRecord);
  closed : bool;
}.

Definition NewUsageStore : UsageStore := MkStore (Some ∅) false.

Definition isClosed (s : UsageStore) : bool := closed s.

(** [now := in.NowUnix; if now == 0 { now = time.Now().Unix() }]. *)
Definition now_of (wall : Z) (inp : ConsumeInput) : Z :=
  if ciNowUnix inp =? 0 then wall else ciNowUnix inp.

Definition new_record (now : Z) (inp : ConsumeInput) : UsageRecord := {|
  urID := ciID inp; urMode := ciMode inp; urPath := ciPath inp; urSign := ciSign inp;
  urTokenHash := ciTokenHash inp; urUses := 0; urMaxUses := ciMaxUses inp;
  urFirstIP := ciIP inp; urLastIP := ciIP inp; urUserAgent := ciUserAgent inp;
  urExpiresAt := ciExpiresAt inp; urCreatedAt := now; urUpdatedAt := now;
|}.

(** The updates of an allowed call. *)
Definition touch (now : Z) (inp : ConsumeInput) (r : UsageRecord) : UsageRecord := {|
  urID := urID r; urMode := urMode r; urPath := urPath r; urSign := urSign r;
  urTokenHash := urTokenHash r;
  urUses := if ciSkipConsume inp then urUses r else wrap64 (urUses r + 1);
  urMaxUses := urMaxUses r;
  urFirstIP := urFirstIP r; urLastIP := ciIP inp;
  urUserAgent := if (urUserAgent r =? "")%string then ciUserAgent inp else urUserAgent r;
  urExpiresAt := urExpiresAt r; urCreatedAt := urCreatedAt r; urUpdatedAt := now;
|}.

(** The second critical section of [Consume]. *)
Definition consume_locked (wall : Z) (inp : ConsumeInput) (s : UsageStore)
  : result storage_error ConsumeResult * UsageStore :=
  let now := now_of wall inp in
  match records s with
  | None => (Err NilMapPanic, s)
  | Some m =>
      let '(rec, m) :=
        match m !! ciID inp with
        | Some rec => (rec, m)
        | None => let rec := new_record now inp in (rec, <[ciID inp := rec]> m)
        end in
      if ciMaxUses inp <=? urUses rec then
        (Ok (MkConsumeResult false (urUses rec) (ciMaxUses inp) "used_up"), MkStore (Some m) (closed s))
      else
        let rec := touch now inp rec in
        (Ok (MkConsumeResult true (urUses rec) (ciMaxUses inp) "ok"),
         MkStore (Some (<[ciID inp := rec]> m)) (closed s))
  end.

Definition Consume (wall : Z) (inp : ConsumeInput) (s : UsageStore)
  : result storage_error ConsumeResult * UsageStore :=
  if isClosed s then (Err ErrClosed, s) else consume_locked wall inp s.

Definition get_locked (id : string) (s : UsageStore) : result storage_error UsageRecord :=
  match (records s ≫= fun m => m !! id) with
  | None => Err ErrNotFound
  | Some rec => Ok rec
  end.

Definition Get (id : string) (s : UsageStore) : result storage_error UsageRecord :=
  if isClosed s then Err ErrClosed else get_locked id s.

Definition cleanup_locked (before : Z) (s : UsageStore) : result storage_error Z * UsageStore :=
  match records s with
  | None => (Ok 0, s)
  | Some m =>
      let expired := filter (fun kv : string * UsageRecord => urExpiresAt kv.2 < before) m in
      (Ok (Z.of_nat (size expired)), MkStore (Some (m ∖ expired)) (closed s))
  end.

Definition CleanupExpired (before : Z) (s : UsageStore) : result storage_error Z * UsageStore :=
  if isClosed s then (Err ErrClosed, s) else cleanup_locked before s.

Definition CountActive (s : UsageStore) : result storage_error Z :=
  if isClosed s then Err ErrClosed
  else Ok (Z.of_nat (match records s with Some m => size m | None => 0%nat end)).

Definition Close (s : UsageStore) : UsageStore := MkStore None true.

#[export] Instance UsageStore_ops : Storage.UsageStore UsageStore := {|
  us_env := Z;
  us_consume := Consume;
  us_get _ id s := (Get id s, s);
  us_cleanup _ := CleanupExpired;
  us_close := Close;
|}.

#[export] Instance UsageStore_counter : ActiveCounter UsageStore :=
  {| us_count_active _ := CountActive |}.

(** ** Invariant *)

(** An open store has its map, a closed one has none; records are keyed by
    their id and their counts are in the range the code can reach. *)
Record inv (s : UsageStore) : Prop := {
  inv_open : closed s = false <-> is_Some (records s);
  inv_rec : forall m id r, records s = Some m -> m !! id = Some r ->
    urID r = id /\ 0 <= urUses r <= max_int64;
}.

Definition call_ok (inp : ConsumeInput) : Prop := ciMaxUses inp <= max_int64.

Lemma inv_new : inv NewUsageStore.
Proof. split; [split; eauto|]. intros m id r [= <-] Hr. by rewrite lookup_empty in Hr. Qed.

Lemma inv_close s : inv (Close s).
Proof. split; [split; [done|intros [? ?]; done]|]. by intros m id r [=]. Qed.

(** The outcome of an open store's [Consume] on one record. *)
Definition current (wall : Z) (inp : ConsumeInput) (m : gmap string UsageRecord) : UsageRecord :=
  default (new_record (now_of wall inp) inp) (m !! ciID inp).

Lemma consume_eq wall inp m :
  consume_locked wall inp (MkStore (Some m) false) =
  let rec := current wall inp m in
  if ciMaxUses inp <=? urUses rec then
    (Ok (MkConsumeResult false (urUses rec) (ciMaxUses inp) "used_up"),
     MkStore (Some (<[ciID inp := rec]> m)) false)
  else
    (Ok (MkConsumeResult true (urUses (touch (now_of wall inp) inp rec)) (ciMaxUses inp) "ok"),
     MkStore (Some (<[ciID inp := touch (now_of wall inp) inp rec]> m)) false).
Proof.
  unfold consume_locked, current. simpl. destruct (m !! ciID inp) as [r|] eqn:E; simpl.
  - case_if; [|done]. by rewrite insert_id.
  - case_if; [done|]. by rewrite insert_insert_eq.
Qed.

Lemma inv_current wall inp m :
  inv (MkStore (Some m) false) ->
  urID (current wall inp m) = ciID inp /\ 0 <= urUses (current wall inp m) <= max_int64.
Proof.
  intros Hi. unfold current. destruct (m !! ciID inp) as [r|] eqn:E; simpl.
  - by eapply (inv_rec _ Hi).
  - split; [done|unfold max_int64; lia].
Qed.

Lemma touch_uses now inp r :
  0 <= urUses r < max_int64 ->
  urUses (touch now inp r) = urUses r + (if ciSkipConsume inp then 0 else 1).
Proof.
  intros. simpl. destruct (ciSkipConsume inp); [lia|].
  apply wrap64_id. unfold int64_range, min_int64, max_int64 in *. lia.
Qed.

Lemma inv_insert m id r :
  inv (MkStore (Some m) false) -> urID r = id -> 0 <= urUses r <= max_int64 ->
  inv (MkStore (Some (<[id := r]> m)) false).
Proof.
  intros Hi Hid Hu. split; [split; eauto|]. intros m' id' r' [= <-] Hl.
  destruct (decide (id = id')) as [->|]; [rewrite lookup_insert_eq in Hl; by simplify_eq|].
  rewrite lookup_insert_ne in Hl by done. by eapply (inv_rec _ Hi).
Qed.

Lemma inv_cases s : inv s -> s = MkStore None true \/ exists m, s = MkStore (Some m) false.
Proof.
  intros [Ho _]. destruct s as [[m|] [|]]; simpl in *; eauto.
  - exfalso. assert (true = false) by (apply Ho; eauto). done.
  - exfalso. destruct (proj1 Ho eq_refl); done.
Qed.

Lemma inv_consume wall inp s r s' :
  inv s -> call_ok inp -> Consume wall inp s = (r, s') -> inv s' /\ r <> Err NilMapPanic.
Proof.
  unfold call_ok. intros Hi Hc. destruct (inv_cases _ Hi) as [->|[m ->]].
  - intros [= <- <-]. done.
  - unfold Consume. simpl. rewrite consume_eq. cbv zeta.
    destruct (inv_current wall inp m Hi) as [Hid Hu].
    case_if; bprop; intros [= <- <-]; (split; [|done]); apply inv_insert; try done.
    rewrite touch_uses by lia. destruct (ciSkipConsume inp); lia.
Qed.

Lemma inv_cleanup before s r s' : inv s -> CleanupExpired before s = (r, s') -> inv s'.
Proof.
  intros Hi. destruct (inv_cases _ Hi) as [->|[m ->]]; intros [= <- <-]; [done|].
  split; [split; eauto|]. intros m' id r' [= <-] Hl.
  apply lookup_difference_Some in Hl as [Hl _]. by eapply (inv_rec _ Hi).
Qed.

(** ** The contract *)

Definition view (s : UsageStore) : views := fun id => view_of <$> (records s ≫= lookup id).

Lemma consume_law g wall inp s r s' :
  inv s -> call_ok inp -> Consume wall inp s = (r, s') ->
  inv s' /\ exists v, drops g (view s) v /\ consume_effect inp r v (view s').
Proof.
  intros Hi Hc Hs. split; [by eapply inv_consume|].
  exists (view s). split; [apply drops_refl|].
  destruct (inv_cases _ Hi) as [->|[m ->]].
  { injection Hs as <- <-. split; [done|]. left; by left. }
  destruct (inv_current wall inp m Hi) as [Hid Hu].
  unfold Consume in Hs. simpl in Hs. rewrite consume_eq in Hs. cbv zeta in Hs.
  unfold consume_effect, view. 
  case_if_in Hs; bprop; injection Hs as <- <-; simpl.
  - split; [by intros id Hne; rewrite lookup_insert_ne|].
    rewrite lookup_insert_eq. unfold current. destruct (m !! ciID inp) as [rec|]; simpl; [by left|].
    right. done.
  - split; [by intros id Hne; rewrite lookup_insert_ne|].
    rewrite lookup_insert_eq. pose proof (touch_uses (now_of wall inp) inp (current wall inp m)) as Ht.
    unfold call_ok in Hc. specialize (Ht ltac:(lia)).
    assert (Hv : Some (view_of (touch (now_of wall inp) inp (current wall inp m))) =
      if ciSkipConsume inp then Some (view_of (current wall inp m))
      else charged_view inp (view_of <$> m !! ciID inp)).
    { unfold view_of at 1. rewrite Ht. unfold current.
      destruct (ciSkipConsume inp), (m !! ciID inp) as [rec|]; simpl; by rewrite ?Z.add_0_r. }
    destruct (ciSkipConsume inp) eqn:Es; simpl.
    + rewrite Hv. unfold current. destruct (m !! ciID inp) as [rec|]; simpl; [by left|by right].
    + split; [|exact Hv]. unfold cap, view_uses, current in *.
      destruct (m !! ciID inp) as [rec|]; simpl in *; lia.
Qed.

Lemma cleanup_law g before s r s' :
  inv s -> CleanupExpired before s = (r, s') ->
  inv s' /\ drops (Z.max before g) (view s) (view s').
Proof.
  intros Hi Hs. split; [by eapply inv_cleanup|].
  destruct (inv_cases _ Hi) as [->|[m ->]]; injection Hs as <- <-; [apply drops_refl|].
  intros id. unfold view. simpl.
  destruct (m !! id) as [rec|] eqn:E; [|left].
  - destruct (decide (urExpiresAt rec < before)) as [Hlt|Hge].
    + right. split; [|exists (view_of rec); simpl; split; [done|lia]].
      rewrite lookup_difference. by rewrite (proj2 (map_lookup_filter_Some _ m id rec)).
    + left. rewrite lookup_difference, E.
      by rewrite (proj2 (map_lookup_filter_None _ m id)) by
        (right; intros x Hx; simplify_eq; simpl; lia).
  - rewrite lookup_difference. by rewrite E, (proj2 (map_lookup_filter_None _ m id)) by auto.
Qed.

(** The store keeps the contract with any grace period, since it never drops a
    record by itself. *)
Definition Laws (grace : Z) : UsageStoreLaws UsageStore.
Proof.
  refine {| us_inv := inv; us_view := view; us_time := (fun e => e);
            us_grace := grace; us_call_ok _ inp := call_ok inp |}.
  - intros e inp s r s'. apply consume_law.
  - intros e id s r s' Hi [= <- <-]. split; [done|apply drops_refl].
  - intros e before s r s'. apply cleanup_law.
Defined.

(** The in-memory store enforces [max_uses]: started empty, in any run of
    calls and cleanups in the order of time, the uses charged to a sign id
    never exceed the configured cap, whatever else is stored. *)
Theorem memory_quota grace id E M evs t :
  1 <= M -> well_timed (H0 := Laws grace) id E M t evs ->
  charges id evs NewUsageStore <= M.
Proof.
  intros HM Hw.
  pose proof (charges_bound (H0 := Laws grace) id E M evs t NewUsageStore inv_new) as Hb.
  unfold us_view, Laws, view in Hb. simpl in Hb. rewrite lookup_empty in Hb.
  specialize (Hb ltac:(intros x; done) Hw). unfold view_uses in Hb. simpl in Hb. lia.
Qed.

Definition sample_input (ip : string) (skip : bool) : ConsumeInput :=
  MkConsumeInput "id" "generic" "/x" "s" "h" 100 2 ip "ua" 50 0 skip.

Definition sample_run : list (us_event UsageStore) :=
  [EvConsume 50 (sample_input "1.1.1.1" false);
   EvConsume 60 (sample_input "1.1.1.1" true);
   EvCleanup 70 70;
   EvConsume 80 (sample_input "2.2.2.2" false);
   EvConsume 90 (sample_input "2.2.2.2" false);
   EvCleanup 200 200].

Lemma memory_quota_witness :
  charges "id" sample_run NewUsageStore = 2 /\ charges "id" sample_run NewUsageStore <= 2.
Proof.
  split; [vm_compute; reflexivity|].
  apply (memory_quota 0 "id" 100 2 sample_run 50); [lia|].
  unfold well_timed, sample_run, ev_time, ev_ok, us_time, us_grace, us_call_ok; simpl.
  unfold call_ok, max_int64; simpl. split_and!; intros; split_and?; try lia; done.
Defined.

Lemma first_ip_persists_witness :
  let st := (Consume 50 (sample_input "1.1.1.1" false) NewUsageStore).2 in
  exists y, us_view (UsageStoreLaws := Laws 0) (us_run "id" (take 5 sample_run) st) "id" = Some y /\
    uv_first_ip y = "1.1.1.1"%string.
Proof.
  intros st.
  apply (first_ip_persists (H0 := Laws 0) "id" 100 2 (take 5 sample_run) 50 st (MkView 1 2 100 "1.1.1.1")).
  - exact (proj1 (inv_consume 50 (sample_input "1.1.1.1" false) NewUsageStore _ st inv_new
             ltac:(vm_compute; discriminate) (surjective_pairing _))).
  - intros x Hx. vm_compute in Hx. injection Hx as <-. simpl. lia.
  - vm_compute. reflexivity.
  - unfold well_timed, sample_run, ev_time, ev_ok, us_time, us_grace, us_call_ok; simpl.
    unfold call_ok, max_int64; simpl. split_and!; intros; split_and?; try lia; done.
  - unfold ev_alive, ev_time, us_time, us_grace, sample_run; simpl. repeat constructor; simpl; lia.
Defined.

(** ** Behaviour of each operation *)

Definition contents (s : UsageStore) : gmap string UsageRecord := default ∅ (records s).

(** What an open in-memory store does on [Consume]: at or above the cap it
    denies and at most creates the record; below the cap it allows, reports the
    new count, and rewrites the one record; no other record changes.  It never
    panics, and once closed every operation reports [ErrClosed]. *)
Theorem memory_consume_spec wall inp s :
  inv s -> call_ok inp ->
  let rec := current wall inp (contents s) in
  Consume wall inp s =
    if closed s then (Err ErrClosed, s)
    else if ciMaxUses inp <=? urUses rec then
      (Ok (MkConsumeResult false (urUses rec) (ciMaxUses inp) "used_up"),
       MkStore (Some (<[ciID inp := rec]> (contents s))) false)
    else
      let n := urUses rec + (if ciSkipConsume inp then 0 else 1) in
      (Ok (MkConsumeResult true n (ciMaxUses inp) "ok"),
       MkStore (Some (<[ciID inp := touch (now_of wall inp) inp rec]> (contents s))) false).
Proof.
  intros Hi Hc rec. unfold rec. destruct (inv_cases _ Hi) as [->|[m ->]]; [done|].
  unfold Consume, contents. simpl. rewrite consume_eq. cbv zeta.
  destruct (inv_current wall inp m Hi) as [_ Hu]. case_if; [done|]. bprop.
  unfold call_ok in Hc. by rewrite touch_uses by lia.
Qed.

Lemma memory_consume_spec_witness :
  Consume 7 (sample_input "1.1.1.1" false) NewUsageStore =
  (Ok (MkConsumeResult true 1 2 "ok"),
   MkStore (Some (<["id"%string := touch 50 (sample_input "1.1.1.1" false)
                     (new_record 50 (sample_input "1.1.1.1" false))]> ∅)) false).
Proof.
  assert (call_ok (sample_input "1.1.1.1" false)) as Hc by (vm_compute; discriminate).
  exact (memory_consume_spec 7 (sample_input "1.1.1.1" false) NewUsageStore inv_new Hc).
Defined.

(** Cleanup removes exactly the records that expired strictly before the
    threshold, and returns how many it removed. *)
Theorem memory_cleanup_spec before s r s' :
  inv s -> closed s = false -> CleanupExpired before s = (r, s') ->
  (forall id, contents s' !! id =
     match contents s !! id with
     | Some rec => if urExpiresAt rec <? before then None else Some rec
     | None => None
     end) /\
  r = Ok (Z.of_nat (size (contents s)) - Z.of_nat (size (contents s'))).
Proof.
  intros Hi Hcl Hs. destruct (inv_cases _ Hi) as [->|[m ->]]; [done|].
  injection Hs as <- <-. unfold contents; simpl.
  set (ex := filter (fun kv : string * UsageRecord => urExpiresAt kv.2 < before) m).
  split.
  - unfold ex. intros id. rewrite lookup_difference. destruct (m !! id) as [rec|] eqn:E.
    + destruct (Z.ltb_spec (urExpiresAt rec) before).
      * by rewrite (proj2 (map_lookup_filter_Some _ m id rec)).
      * by rewrite (proj2 (map_lookup_filter_None _ m id)) by
          (right; intros x Hx; simplify_eq; simpl; lia).
    + by rewrite (proj2 (map_lookup_filter_None _ m id)) by auto.
  - assert (ex ⊆ m) as Hsub by apply map_filter_subseteq.
    assert (size m = size ex + size (m ∖ ex))%nat as ->.
    { rewrite <- (map_difference_union ex m Hsub) at 1.
      apply map_size_disj_union. by apply map_disjoint_difference_r1. }
    f_equal. lia.
Qed.

Lemma memory_cleanup_spec_witness :
  let s := (Consume 0 (sample_input "1.1.1.1" false) NewUsageStore).2 in
  (CleanupExpired 101 s).1 = Ok 1 /\ (CleanupExpired 100 s).1 = Ok 0.
Proof.
  intros s.
  assert (inv s) as Hi.
  { eapply (inv_consume 0 (sample_input "1.1.1.1" false)); [apply inv_new| |].
    - vm_compute. discriminate.
    - unfold s. apply surjective_pairing. }
  destruct (CleanupExpired 101 s) as [r1 s1] eqn:E1.
  destruct (CleanupExpired 100 s) as [r2 s2] eqn:E2.
  destruct (memory_cleanup_spec 101 s r1 s1 Hi eq_refl E1) as [_ ->].
  destruct (memory_cleanup_spec 100 s r2 s2 Hi eq_refl E2) as [_ ->].
  vm_compute in E1, E2. injection E1 as _ <-. injection E2 as _ <-. by vm_compute.
Defined.

(** ** Interleavings

    Threads calling one store: each call is two critical sections, so another
    thread's sections may run between them. *)

Inductive call :=
  | CallConsume (wall : Z) (inp : ConsumeInput)
  | CallCleanup (before : Z)
  | CallClose.

Inductive thread :=
  | Ready (c : call)
  | Checked (c : call)
  | Done (e : option storage_error).

Definition err_of {A} (r : result storage_error A) : option storage_error :=
  match r with Ok _ => None | Err e => Some e end.

(** The second section of a call. *)
Definition body (c : call) (s : UsageStore) : option storage_error * UsageStore :=
  match c with
  | CallConsume wall inp => let '(r, s') := consume_locked wall inp s in (err_of r, s')
  | CallCleanup before => let '(r, s') := cleanup_locked before s in (err_of r, s')
  | CallClose => (None, Close s)
  end.

Inductive step : UsageStore * list thread -> UsageStore * list thread -> Prop :=
  | step_check s l c r :
      isClosed s = false -> step (s, l ++ Ready c :: r) (s, l ++ Checked c :: r)
  | step_refuse s l c r :
      c <> CallClose -> isClosed s = true ->
      step (s, l ++ Ready c :: r) (s, l ++ Done (Some ErrClosed) :: r)
  | step_close s l r :
      step (s, l ++ Ready CallClose :: r) (Close s, l ++ Done None :: r)
  | step_body s l c r e s' :
      body c s = (e, s') -> step (s, l ++ Checked c :: r) (s', l ++ Done e :: r).

Definition panicked (t : thread) : Prop := t = Done (Some NilMapPanic).
Definition closes (t : thread) : Prop := t = Ready CallClose \/ t = Checked CallClose.

Lemma body_open c s e s' :
  is_Some (records s) -> c <> CallClose -> body c s = (e, s') ->
  is_Some (records s') /\ e <> Some NilMapPanic.
Proof.
  intros [m Hm] Hc Hb. destruct c as [wall inp|before|]; simpl in Hb; [| |done].
  - unfold consume_locked in Hb. rewrite Hm in Hb.
    destruct (m !! ciID inp); simpl in Hb; case_if_in Hb; injection Hb as <- <-; eauto.
  - unfold cleanup_locked in Hb. rewrite Hm in Hb. injection Hb as <- <-. eauto.
Qed.

Definition calm (st : UsageStore * list thread) : Prop :=
  is_Some (records st.1) /\ Forall (fun t => ~ panicked t /\ ~ closes t) st.2.

Lemma calm_step st st' : calm st -> step st st' -> calm st'.
Proof.
  unfold calm, panicked, closes. intros [Hs Ht] Hstep. destruct Hstep as [s l c r Hc|s l c r Hn Hc|s l r|s l c r e s' Hb];
    simpl in *; apply Forall_app in Ht as [Hl Ht]; apply Forall_cons in Ht as [Ht Hr].
  - split; [done|]. apply Forall_app; split; [done|]. constructor; [|done].
    split; [done|]. intros [?|[=]]; [done|]. subst. apply Ht. by left.
  - split; [done|]. apply Forall_app; split; [done|]. constructor; [|done]. naive_solver.
  - exfalso. apply Ht. by left.
  - assert (c <> CallClose) as Hne by (intros ->; apply Ht; by right).
    destruct (body_open _ _ _ _ Hs Hne Hb). split; [done|].
    apply Forall_app; split; [done|]. constructor; [|done]. naive_solver.
Qed.

(** While nobody closes the store, no interleaving of calls panics. *)
Theorem no_panic_while_open calls st :
  Forall (fun c => c <> CallClose) calls ->
  rtc step (NewUsageStore, Ready <$> calls) st -> Forall (fun t => ~ panicked t) st.2.
Proof.
  intros Hc Hr.
  assert (calm (NewUsageStore, Ready <$> calls)) as Hi.
  { split; [simpl; eauto|]. simpl. apply Forall_fmap. eapply Forall_impl; [exact Hc|].
    intros c Hne. unfold panicked, closes. naive_solver. }
  assert (calm st) as [_ H].
  { induction Hr as [|x y z Hxy _ IH]; [done|]. apply IH. by eapply calm_step. }
  eapply Forall_impl; [exact H|]. naive_solver.
Qed.

Lemma no_panic_while_open_witness :
  Forall (fun t => ~ panicked t) [Checked (CallConsume 0 (sample_input "1.1.1.1" false))].
Proof.
  apply (no_panic_while_open [CallConsume 0 (sample_input "1.1.1.1" false)]
    (NewUsageStore, [Checked (CallConsume 0 (sample_input "1.1.1.1" false))])).
  - repeat constructor. discriminate.
  - apply rtc_once. apply (step_check NewUsageStore [] _ []). reflexivity.
Defined.

(** A [Close] between the two sections of a [Consume] makes it write to a nil
    map. *)
Theorem close_race_panics inp :
  rtc step (NewUsageStore, [Ready (CallConsume 0 inp); Ready CallClose])
    (Close NewUsageStore, [Done (Some NilMapPanic); Done None]).
Proof.
  eapply rtc_l; [apply (step_check NewUsageStore [] _ [Ready CallClose]); reflexivity|].
  eapply rtc_l; [apply (step_close NewUsageStore [Checked (CallConsume 0 inp)] [])|].
  eapply rtc_l; [|apply rtc_refl].
  apply (step_body (Close NewUsageStore) [] (CallConsume 0 inp) [Done None]). reflexivity.
Qed.

End MemUsage.
