(* ===== verification/MemoryCounter.v ===== *)
(** * The in-memory counters ([internal/storage/memory/counter.go])

    Fixed windows: the bucket key holds the start of the window, so a rollover
    starts at zero.  A time is its nanoseconds since the Unix epoch; a call's
    environment holds its two clock readings. *)

From S2P Require Import Prelude GoStrings GoTime Strconv Storage.

Module MemCounter.

Record counterBucket := MkBucket { value : Z; expiresAt : Z }.

Record CounterStore := MkStore {
  buckets : option (gmap string counterBucket);
  closed : bool;
  lastSweep : Z;
}.

Record clock_readings := MkClock { now1 : Z; now2 : Z }.

Definition sweepInterval : Z := 30000000000.

Definition NewCounterStore : CounterStore := MkStore (Some ∅) false zero_time.

Definition bucketStart (window t : Z) : Z := Z.quot (unix_nano t) window * window.

Definition bucketKey (name key : string) (window t : Z) : string :=
  (name +:+ "|" +:+ key +:+ "|" +:+ itoa (bucketStart window t))%string.

(** [sweepLocked]: the buckets and the time of the last sweep. *)
Definition sweepLocked (now : Z) (m : gmap string counterBucket) (lastSweep : Z)
  : gmap string counterBucket * Z :=
  if time_sub now lastSweep <? sweepInterval then (m, lastSweep)
  else (filter (fun kb : string * counterBucket => ~ expiresAt kb.2 < now) m, now).

Definition isClosed (s : CounterStore) : bool := closed s.

Definition Incr (e : clock_readings) (name key : string) (window : Z) (s : CounterStore)
  : result storage_error (Z * Z) * CounterStore :=
  if isClosed s then (Err ErrClosed, s)
  else if window <=? 0 then (Err ErrInvalidWindow, s)
  else
    let now := now1 e in
    match buckets s with
    | None => (Err NilMapPanic, s)
    | Some m =>
        let '(m, ls) := sweepLocked now m (lastSweep s) in
        let bkey := bucketKey name key window now in
        let b := match m !! bkey with
                 | Some b => if expiresAt b <? now then MkBucket 0 (now + window) else b
                 | None => MkBucket 0 (now + window)
                 end in
        let b := MkBucket (wrap64 (value b + 1)) (expiresAt b) in
        let remaining := time_sub (expiresAt b) (now2 e) in
        let remaining := if remaining <? 0 then 0 else remaining in
        (Ok (value b, remaining), MkStore (Some (<[bkey := b]> m)) (closed s) ls)
    end.

Definition Get (e : clock_readings) (name key : string) (window : Z) (s : CounterStore)
  : result storage_error Z :=
  if isClosed s then Err ErrClosed
  else if window <=? 0 then Err ErrInvalidWindow
  else
    let now := now1 e in
    match buckets s ≫= lookup (bucketKey name key window now) with
    | None => Ok 0
    | Some b => if expiresAt b <? now then Ok 0 else Ok (value b)
    end.

Definition Reset (e : clock_readings) (name key : string) (window : Z) (s : CounterStore)
  : result storage_error unit * CounterStore :=
  if isClosed s then (Err ErrClosed, s)
  else if window <=? 0 then (Err ErrInvalidWindow, s)
  else
    let now := now1 e in
    (Ok tt, MkStore (delete (bucketKey name key window now) <$> buckets s) (closed s) (lastSweep s)).

Definition Close (s : CounterStore) : CounterStore := MkStore None true (lastSweep s).

#[export] Instance CounterStore_ops : Storage.CounterStore CounterStore := {|
  cs_env := clock_readings;
  cs_incr := Incr;
  cs_get e name key w s := (Get e name key w s, s);
  cs_reset := Reset;
  cs_close := Close;
|}.

(** ** Bucket keys *)

(** A name that the key's separator does not occur in. *)
Definition plain_name (s : string) : Prop := 124 ∉ bytes_of s.

Definition time_ok (t : Z) : Prop := 0 <= t <= max_int64.

Lemma bucketStart_range w t : time_ok t -> 0 < w ->
  bucketStart w t = t / w * w /\ int64_range (bucketStart w t) /\ bucketStart w t <= t < bucketStart w t + w.
Proof.
  unfold time_ok, bucketStart, unix_nano. intros Ht Hw.
  rewrite wrap64_id by (unfold int64_range, min_int64; lia).
  rewrite Z.quot_div_nonneg by lia.
  pose proof (Z.div_mod t w ltac:(lia)). pose proof (Z.mod_pos_bound t w Hw).
  pose proof (Z.div_pos t w ltac:(lia) Hw).
  unfold int64_range, min_int64. split_and!; nia.
Qed.

Lemma format_int_no_bar n : 124 ∉ bytes_of (format_int n).
Proof.
  rewrite format_int_bytes. intros Hin.
  apply (proj1 (Forall_forall _ _) (dec_bytes_chars n)) in Hin. unfold dec_char in Hin. lia.
Qed.

(** The bucket of a window start. *)
Definition bkey (name key : string) (start : Z) : string :=
  (name +:+ "|" +:+ key +:+ "|" +:+ format_int start)%string.

Lemma bucketKey_bkey name key w t :
  time_ok t -> 0 < w -> bucketKey name key w t = bkey name key (bucketStart w t).
Proof.
  intros Ht Hw. unfold bucketKey, bkey. rewrite itoa_format_int; [done|].
  destruct (bucketStart_range w t Ht Hw) as (E & Hr & _). unfold time_ok in Ht.
  pose proof (Z.div_pos t w ltac:(lia) Hw). unfold int64_range in Hr. unfold min_int64 in *. nia.
Qed.

(** The key determines name, key and start, whatever the client put in [key]. *)
Lemma bkey_inj name name' key key' s s' :
  plain_name name -> plain_name name' -> int64_range s -> int64_range s' ->
  bkey name key s = bkey name' key' s' -> name = name' /\ key = key' /\ s = s'.
Proof.
  unfold plain_name, bkey. intros Hn Hn' Hs Hs' E. apply (f_equal bytes_of) in E.
  rewrite !bytes_of_app in E. change (bytes_of "|") with [124] in E.
  simpl in E. apply sep_first_inj in E as [En E]; [|done..].
  apply sep_last_inj in E as [Ek E]; [|apply format_int_no_bar..].
  apply bytes_of_inj in En, Ek, E. split_and!; [done|done|by apply format_int_inj].
Qed.

(** ** The counters count *)

Section Counting.

(** Each counter name is used with one window. *)
Variable win : string -> Z.

(** What a counter promises: one count per name, key and window start. *)
Definition spec : Type := string -> string -> Z -> Z.
Definition spec_set (sp : spec) (name key : string) (start v : Z) : spec :=
  fun n k s => if bool_decide (n = name /\ k = key /\ s = start) then v else sp n k s.
Definition spec_init : spec := fun _ _ _ => 0.

Inductive op := OpIncr (name key : string) | OpGet (name key : string) | OpReset (name key : string).

Definition op_name (o : op) : string := match o with OpIncr n _ | OpGet n _ | OpReset n _ => n end.

Definition spec_step (o : op) (t : Z) (sp : spec) : Z * spec :=
  match o with
  | OpIncr n k =>
      let st := bucketStart (win n) t in
      let v := wrap64 (sp n k st + 1) in (v, spec_set sp n k st v)
  | OpGet n k => (sp n k (bucketStart (win n) t), sp)
  | OpReset n k => (0, spec_set sp n k (bucketStart (win n) t) 0)
  end.

Definition store_step (o : op) (e : clock_readings) (s : CounterStore)
  : result storage_error Z * CounterStore :=
  match o with
  | OpIncr n k => let '(r, s') := Incr e n k (win n) s in
                  (match r with Ok (v, _) => Ok v | Err x => Err x end, s')
  | OpGet n k => (Get e n k (win n) s, s)
  | OpReset n k => let '(r, s') := Reset e n k (win n) s in
                   (match r with Ok _ => Ok 0 | Err x => Err x end, s')
  end.

(** The buckets that can still be reached at or after [t] hold the counts, and
    no bucket expires before its window ends. *)
Record related (t : Z) (s : CounterStore) (sp : spec) (m : gmap string counterBucket) : Prop := {
  rel_open : closed s = false;
  rel_map : buckets s = Some m;
  rel_count : forall n k st, plain_name n -> int64_range st -> t < st + win n ->
    default 0 (value <$> m !! bkey n k st) = sp n k st;
  rel_expiry : forall n k st b, plain_name n -> int64_range st ->
    m !! bkey n k st = Some b -> st + win n <= expiresAt b;
}.

Lemma related_later t t' s sp m : related t s sp m -> t <= t' -> related t' s sp m.
Proof. intros [] Ht. constructor; eauto with lia. Qed.

Lemma sweep_related t s sp m m' ls :
  related t s sp m -> sweepLocked t m (lastSweep s) = (m', ls) ->
  related t (MkStore (Some m') (closed s) ls) sp m'.
Proof.
  intros [Ho Hm Hc He]. unfold sweepLocked. case_if; intros [= <- <-]; [constructor; auto|].
  constructor; simpl; [done|done| |].
  - intros n k st Hn Hst Hlt. rewrite <- Hc by done. f_equal.
    destruct (m !! bkey n k st) as [b|] eqn:Eb.
    + f_equal. apply map_lookup_filter_Some. split; [done|]. specialize (He _ _ _ _ Hn Hst Eb). simpl. lia.
    + f_equal. apply map_lookup_filter_None. by left.
  - intros n k st b Hn Hst [Hb _]%map_lookup_filter_Some. eauto.
Qed.

Lemma set_related t s sp m n k st v b ls :
  related t s sp m -> plain_name n -> int64_range st -> st + win n <= expiresAt b -> value b = v ->
  related t (MkStore (Some (<[bkey n k st := b]> m)) false ls)
    (spec_set sp n k st v) (<[bkey n k st := b]> m).
Proof.
  intros [Ho Hm Hc He] Hn Hst Hb <-. constructor; simpl; [done|done| |].
  - intros n' k' st' Hn' Hst' Hlt. unfold spec_set. case_bool_decide as Heq.
    + destruct Heq as (-> & -> & ->). by rewrite lookup_insert_eq.
    + rewrite lookup_insert_ne; [auto|]. intros E. apply Heq. symmetry in E. by apply bkey_inj in E.
  - intros n' k' st' b' Hn' Hst' Hl.
    destruct (decide (bkey n k st = bkey n' k' st')) as [E|E].
    + rewrite <- E, lookup_insert_eq in Hl. apply bkey_inj in E as (-> & -> & ->); [|done..].
      by simplify_eq.
    + rewrite lookup_insert_ne in Hl by done. eauto.
Qed.

Lemma reset_related t s sp m n k st ls :
  related t s sp m -> plain_name n -> int64_range st ->
  related t (MkStore (Some (delete (bkey n k st) m)) false ls)
    (spec_set sp n k st 0) (delete (bkey n k st) m).
Proof.
  intros [Ho Hm Hc He] Hn Hst. constructor; simpl; [done|done| |].
  - intros n' k' st' Hn' Hst' Hlt. unfold spec_set. case_bool_decide as Heq.
    + destruct Heq as (-> & -> & ->). by rewrite lookup_delete_eq.
    + rewrite lookup_delete_ne; [auto|]. intros E. apply Heq. symmetry in E. by apply bkey_inj in E.
  - intros n' k' st' b' Hn' Hst' Hl. apply lookup_delete_Some in Hl as [_ Hl]. eauto.
Qed.

Lemma store_step_related t o e s sp m :
  related t s sp m -> t <= now1 e -> time_ok (now1 e) -> plain_name (op_name o) ->
  0 < win (op_name o) ->
  exists m', let '(r, s') := store_step o e s in
    let '(v, sp') := spec_step o (now1 e) sp in
    r = Ok v /\ related (now1 e) s' sp' m'.
Proof.
  intros Hrel Hle Ht Hn Hw. apply (related_later _ (now1 e)) in Hrel; [|done].
  pose proof (bucketStart_range (win (op_name o)) (now1 e) Ht Hw) as (_ & Hst & Hin).
  destruct o as [n k|n k|n k]; simpl in *.
  - unfold Incr, isClosed. rewrite (rel_open _ _ _ _ Hrel).
    destruct (Z.leb_spec (win n) 0); [lia|]. rewrite (rel_map _ _ _ _ Hrel).
    destruct (sweepLocked (now1 e) m (lastSweep s)) as [m1 ls] eqn:Esw.
    pose proof (sweep_related _ _ _ _ _ _ Hrel Esw) as Hrel1.
    rewrite bucketKey_bkey by done.
    set (st := bucketStart (win n) (now1 e)) in *.
    pose proof (rel_count _ _ _ _ Hrel1 n k st Hn Hst ltac:(lia)) as Hc.
    destruct (m1 !! bkey n k st) as [b|] eqn:Eb; simpl in Hc.
    + pose proof (rel_expiry _ _ _ _ Hrel1 n k st b Hn Hst Eb) as Hx.
      destruct (Z.ltb_spec (expiresAt b) (now1 e)); [lia|]. eexists. split; [by rewrite Hc|].
      rewrite <- Hc. apply (set_related _ _ _ _ n k st _ _ _ Hrel1); simpl; done.
    + eexists. simpl. split; [by rewrite <- Hc|].
      rewrite <- Hc. apply (set_related _ _ _ _ n k st _ _ _ Hrel1); simpl; [done|done|lia|done].
  - unfold Get, isClosed. rewrite (rel_open _ _ _ _ Hrel).
    destruct (Z.leb_spec (win n) 0); [lia|]. rewrite (rel_map _ _ _ _ Hrel). simpl.
    rewrite bucketKey_bkey by done.
    set (st := bucketStart (win n) (now1 e)) in *.
    pose proof (rel_count _ _ _ _ Hrel n k st Hn Hst ltac:(lia)) as Hc. exists m. split; [|done].
    destruct (m !! bkey n k st) as [b|] eqn:Eb; simpl in Hc; [|by rewrite <- Hc].
    pose proof (rel_expiry _ _ _ _ Hrel n k st b Hn Hst Eb).
    destruct (Z.ltb_spec (expiresAt b) (now1 e)); [lia|]. by rewrite Hc.
  - unfold Reset, isClosed. rewrite (rel_open _ _ _ _ Hrel).
    destruct (Z.leb_spec (win n) 0); [lia|]. rewrite (rel_map _ _ _ _ Hrel).
    rewrite bucketKey_bkey by done. eexists. split; [done|].
    by eapply reset_related.
Qed.

Fixpoint run (ops : list (op * clock_readings)) (s : CounterStore) : list (result storage_error Z) :=
  match ops with
  | [] => []
  | (o, e) :: ops => let '(r, s') := store_step o e s in r :: run ops s'
  end.

Fixpoint spec_run (ops : list (op * clock_readings)) (sp : spec) : list Z :=
  match ops with
  | [] => []
  | (o, e) :: ops => let '(v, sp') := spec_step o (now1 e) sp in v :: spec_run ops sp'
  end.

Fixpoint ops_ok (t : Z) (ops : list (op * clock_readings)) : Prop :=
  match ops with
  | [] => True
  | (o, e) :: ops =>
      t <= now1 e /\ time_ok (now1 e) /\ plain_name (op_name o) /\ 0 < win (op_name o) /\
      ops_ok (now1 e) ops
  end.

Lemma run_spec ops t s sp m :
  related t s sp m -> ops_ok t ops -> run ops s = map Ok (spec_run ops sp).
Proof.
  revert t s sp m; induction ops as [|[o e] ops IH]; intros t s sp m Hrel Hok; simpl in *; [done|].
  destruct Hok as (Hle & Ht & Hn & Hw & Hok).
  destruct (store_step_related t o e s sp m Hrel Hle Ht Hn Hw) as [m' Hs].
  destruct (store_step o e s) as [r s'], (spec_step o (now1 e) sp) as [v sp'].
  destruct Hs as [-> Hrel']. simpl. f_equal. by eapply IH.
Qed.

Lemma related_new t : related t NewCounterStore spec_init ∅.
Proof.
  constructor; [done|done| |].
  - intros. by rewrite lookup_empty.
  - intros n k st b _ _ Hl. by rewrite lookup_empty in Hl.
Qed.

(** C27: the counter store refines the window counter: from an empty store, in
    any sequence of increments, reads and resets in the order of time, every
    answer is that of one plain count per name, key and window start, whatever
    the keys contain and however the sweeps fall. *)
Theorem counter_refines_spec ops t :
  ops_ok t ops -> run ops NewCounterStore = map Ok (spec_run ops spec_init).
Proof. intros Hok. by apply (run_spec ops t _ _ ∅); [apply related_new|]. Qed.

End Counting.

Definition sample_ops : list (op * clock_readings) :=
  let at_s s := MkClock (s * 1000000000) (s * 1000000000) in
  [(OpIncr "req" "1.1.1.1|x", at_s 100); (OpIncr "req" "1.1.1.1|x", at_s 105);
   (OpIncr "req" "1.1.1.1", at_s 106); (OpGet "req" "1.1.1.1|x", at_s 109);
   (OpGet "req" "1.1.1.1|x", at_s 110); (OpIncr "req" "1.1.1.1|x", at_s 500)].

Lemma counter_refines_spec_witness :
  run (fun _ => 10000000000) sample_ops NewCounterStore = [Ok 1; Ok 2; Ok 1; Ok 2; Ok 0; Ok 1].
Proof.
  rewrite (counter_refines_spec (fun _ => 10000000000) sample_ops 0).
  - vm_compute. reflexivity.
  - assert (plain_name "req") as Hp by (unfold plain_name; vm_compute; set_solver by lia).
    unfold sample_ops, ops_ok, time_ok, max_int64; simpl. split_and!; done.
Defined.

(** Memory is reclaimed: an increment that comes thirty seconds or more
    after the last sweep leaves only buckets that had not expired when it ran,
    its own included. *)
Theorem sweep_reclaims e n k w s r s' :
  Incr e n k w s = (Ok r, s') -> time_sub (now1 e) (lastSweep s) >= sweepInterval ->
  0 < w -> lastSweep s' = now1 e /\
  forall m' key b, buckets s' = Some m' -> m' !! key = Some b -> now1 e <= expiresAt b.
Proof.
  intros Hi Hs Hw. unfold Incr in Hi.
  destruct (isClosed s); [done|]. destruct (Z.leb_spec w 0); [lia|].
  destruct (buckets s) as [m|]; [|done]. unfold sweepLocked in Hi.
  destruct (Z.ltb_spec (time_sub (now1 e) (lastSweep s)) sweepInterval); [lia|].
  injection Hi as <- <-. simpl. split; [done|]. intros m' key b [= <-] Hl.
  destruct (decide (bucketKey n k w (now1 e) = key)) as [<-|Hne].
  - rewrite lookup_insert_eq in Hl. injection Hl as <-. simpl.
    destruct (filter _ m !! _) as [b0|]; simpl; [|lia].
    destruct (Z.ltb_spec (expiresAt b0) (now1 e)); simpl; lia.
  - rewrite lookup_insert_ne in Hl by done.
    apply map_lookup_filter_Some in Hl as [_ Hl]. simpl in Hl. lia.
Qed.

Lemma sweep_reclaims_witness :
  let e := MkClock 100000000000 100000000000 in
  lastSweep (Incr e "n" "k" 5 NewCounterStore).2 = 100000000000.
Proof.
  intros e. destruct (Incr e "n" "k" 5 NewCounterStore) as [[r|x] s'] eqn:E.
  - apply (sweep_reclaims e "n" "k" 5 NewCounterStore r s' E); [vm_compute; discriminate|lia].
  - exfalso. vm_compute in E. discriminate.
Defined.

End MemCounter.
