(* ===== verification/Postgres.v ===== *)
(** * The PostgreSQL usage store ([internal/storage/postgres/{usage,client}.go])

    The table [pow_usage], the statements of the driver as functions on it, and
    the methods over them.  A statement may fail before it ran or after, when its
    answer is lost; what the server takes for text is a parameter. *)

From S2P Require Import Prelude GoTime Storage.

Module PgUsage.

(** ** The table *)

(** The three nullable columns are options. *)
Record row := MkRow {
  mode : string; path : string; sign : string; token_hash : string;
  uses : Z; max_uses : Z; first_ip : option string; last_ip : option string; user_agent : option string;
  expires_at : Z; created_at : Z; updated_at : Z;
}.

Notation table := (gmap string row).

(** [INTEGER] columns and parameters have four bytes. *)
Definition int4 (z : Z) : bool := (-2147483648 <=? z) && (z <=? 2147483647).

(** Whether a statement is executed, and its answer arrives. *)
Inductive fault := Works | FailsBefore | AnswerLost.

(** What the world contributes to a call: the wall clock in seconds, and the
    fault of its [n]-th statement. *)
Record env := MkEnv { wall : Z; faults : nat -> fault }.

Record UsageStore := MkStore { pool : table; closed : bool }.

Definition NewUsageStoreFromPool (p : table) : UsageStore := MkStore p false.

Section Store.
(** The strings the server takes for [TEXT]. *)
Variable text_ok : string -> bool.

Definition backend {A} (what : string) : result storage_error A := Err (ErrBackend what).

(** A statement under a fault: its own error, or its effect and answer. *)
Definition execute {A} (f : fault) (stmt : table -> option (A * table)) (t : table)
  : result storage_error A * table :=
  match f with
  | FailsBefore => (backend "postgres", t)
  | Works => match stmt t with Some (a, t') => (Ok a, t') | None => (backend "postgres", t) end
  | AnswerLost => (backend "postgres", match stmt t with Some (_, t') => t' | None => t end)
  end.

(** ** Statements *)

(** [COALESCE(NULLIF(pow_usage.user_agent, ''), EXCLUDED.user_agent)]. *)
Definition coalesce_agent (old : option string) (new : string) : option string :=
  match old with
  | Some ua => if (ua =? "")%string then Some new else Some ua
  | None => Some new
  end.

(** [INSERT ... ON CONFLICT (id) DO UPDATE ... WHERE uses < max_uses RETURNING
    uses, max_uses]: no row when the condition fails. *)
Definition upsert (inp : ConsumeInput) (now : Z) (t : table) : option (option (Z * Z) * table) :=
  if negb (forallb text_ok [ciID inp; ciMode inp; ciPath inp; ciSign inp; ciTokenHash inp; ciIP inp; ciUserAgent inp])
     || negb (forallb int4 [ciMaxUses inp; ciExpiresAt inp; now])
  then None
  else
    match t !! ciID inp with
    | None =>
        let r := MkRow (ciMode inp) (ciPath inp) (ciSign inp) (ciTokenHash inp) 1 (ciMaxUses inp)
                   (Some (ciIP inp)) (Some (ciIP inp)) (Some (ciUserAgent inp)) (ciExpiresAt inp) now now in
        Some (Some (1, ciMaxUses inp), <[ciID inp := r]> t)
    | Some r =>
        if uses r <? max_uses r then
          if negb (int4 (uses r + 1)) then None
          else
            let r := MkRow (mode r) (path r) (sign r) (token_hash r) (uses r + 1) (max_uses r) (first_ip r)
                       (Some (ciIP inp)) (coalesce_agent (user_agent r) (ciUserAgent inp)) (expires_at r)
                       (created_at r) now in
            Some (Some (uses r, max_uses r), <[ciID inp := r]> t)
        else Some (None, t)
    end.

(** [SELECT ... WHERE id = $1]. *)
Definition select (id : string) (t : table) : option (option row * table) :=
  if text_ok id then Some (t !! id, t) else None.

(** [DELETE ... WHERE expires_at < $1], with the number of rows. *)
Definition delete_expired (before : Z) (t : table) : option (Z * table) :=
  if int4 before then
    let expired := filter (fun kv : string * row => expires_at kv.2 < before) t in
    Some (Z.of_nat (size expired), t ∖ expired)
  else None.

(** [SELECT count( * ) ... WHERE expires_at >= $1]. *)
Definition count_active (now : Z) (t : table) : option (Z * table) :=
  if int4 now then Some (Z.of_nat (size (filter (fun kv : string * row => now <= expires_at kv.2) t)), t) else None.

(** ** Methods *)

Definition isClosed (s : UsageStore) : bool := closed s.

Definition record_of (id : string) (r : row) : UsageRecord := {|
  urID := id; urMode := mode r; urPath := path r; urSign := sign r; urTokenHash := token_hash r;
  urUses := uses r; urMaxUses := max_uses r; urFirstIP := default ""%string (first_ip r);
  urLastIP := default ""%string (last_ip r); urUserAgent := default ""%string (user_agent r);
  urExpiresAt := expires_at r; urCreatedAt := created_at r; urUpdatedAt := updated_at r;
|}.

(** [f] the fault of its statement. *)
Definition get_with (f : fault) (id : string) (s : UsageStore) : result storage_error UsageRecord * UsageStore :=
  if isClosed s then (Err ErrClosed, s)
  else
    let '(r, t) := execute f (select id) (pool s) in
    (match r with
     | Err e => Err e
     | Ok None => Err ErrNotFound
     | Ok (Some r) => Ok (record_of id r)
     end, MkStore t (closed s)).

Definition Get (e : env) (id : string) (s : UsageStore) : result storage_error UsageRecord * UsageStore :=
  get_with (faults e 0%nat) id s.

Definition Consume (e : env) (inp : ConsumeInput) (s : UsageStore)
  : result storage_error ConsumeResult * UsageStore :=
  if isClosed s then (Err ErrClosed, s)
  else if ciSkipConsume inp then
    match get_with (faults e 0%nat) (ciID inp) s with
    | (Err ErrNotFound, s) => (Ok (MkConsumeResult true 0 (ciMaxUses inp) "ok_head_first"), s)
    | (Err x, s) => (Err x, s)
    | (Ok rec, s) =>
        let allowed := urUses rec <? ciMaxUses inp in
        (Ok (MkConsumeResult allowed (urUses rec) (ciMaxUses inp) (if allowed then "ok_head" else "used_up_head")), s)
    end
  else
    let now := if ciNowUnix inp =? 0 then wall e else ciNowUnix inp in
    let '(r, t) := execute (faults e 0%nat) (upsert inp now) (pool s) in
    let s := MkStore t (closed s) in
    match r with
    | Err x => (Err x, s)
    | Ok (Some (u, m)) => (Ok (MkConsumeResult true u m "ok"), s)
    | Ok None =>
        match get_with (faults e 1%nat) (ciID inp) s with
        | (Err x, s) => (Err x, s)
        | (Ok rec, s) => (Ok (MkConsumeResult false (urUses rec) (urMaxUses rec) "used_up"), s)
        end
    end.

Definition CleanupExpired (e : env) (before : Z) (s : UsageStore) : result storage_error Z * UsageStore :=
  if isClosed s then (Err ErrClosed, s)
  else let '(r, t) := execute (faults e 0%nat) (delete_expired before) (pool s) in (r, MkStore t (closed s)).

Definition CountActive (e : env) (s : UsageStore) : result storage_error Z :=
  if isClosed s then Err ErrClosed else (execute (faults e 0%nat) (count_active (wall e)) (pool s)).1.

Definition Close (s : UsageStore) : UsageStore := MkStore (pool s) true.

Definition UsageStore_ops : Storage.UsageStore UsageStore := {|
  us_env := env;
  us_consume := Consume;
  us_get := Get;
  us_cleanup := CleanupExpired;
  us_close := Close;
|}.
#[local] Existing Instance UsageStore_ops.

Definition UsageStore_counter : ActiveCounter UsageStore := {| us_count_active := CountActive |}.

End Store.

(** ** The contract *)

Section Contract.
Variable text_ok : string -> bool.

Definition view_row (r : row) : usage_view :=
  MkView (uses r) (max_uses r) (expires_at r) (default ""%string (first_ip r)).
Definition view (s : UsageStore) : views := fun id => view_row <$> pool s !! id.

(** A statement that fails did nothing, unless its answer was lost. *)
Lemma execute_cases {A} f (stmt : table -> option (A * table)) t r t' :
  execute f stmt t = (r, t') ->
  (exists a, r = Ok a /\ stmt t = Some (a, t')) \/
  (r = backend "postgres" /\ (t' = t \/ exists a, stmt t = Some (a, t'))).
Proof.
  destruct f; simpl; [destruct (stmt t) as [[a t1]|]| |destruct (stmt t) as [[a t1]|]]; intros [= <- <-]; eauto 6.
Qed.

Lemma get_with_same f id s : (get_with text_ok f id s).2 = s.
Proof.
  destruct s as [t c]. unfold get_with, isClosed. simpl. destruct c; [done|].
  destruct (execute f (select text_ok id) t) as [r t'] eqn:E. apply execute_cases in E.
  assert (t' = t) as ->; [|by destruct r as [[?|]|]].
  unfold select in E. destruct (text_ok id); destruct E as [(a & _ & E)|[_ [E|[a E]]]]; congruence.
Qed.

(** What the statement of [Consume] does to the view. *)
Lemma upsert_view inp now t o t' :
  upsert text_ok inp now t = Some (o, t') ->
  (forall id, id <> ciID inp -> t' !! id = t !! id) /\
  match o with
  | Some (u, m) => view_uses (view_row <$> t !! ciID inp) < cap inp (view_row <$> t !! ciID inp) /\
      view_row <$> t' !! ciID inp = charged_view inp (view_row <$> t !! ciID inp) /\
      u = view_uses (view_row <$> t !! ciID inp) + 1
  | None => t' = t
  end.
Proof.
  unfold upsert. destruct (_ || _); [done|]. destruct (t !! ciID inp) as [r|] eqn:E.
  - destruct (Z.ltb_spec (uses r) (max_uses r)) as [Hlt|].
    + destruct (int4 (uses r + 1)); [|done]. intros [= <- <-]. split; [intros id Hne; by rewrite lookup_insert_ne|].
      rewrite lookup_insert_eq. split_and!; [unfold cap, view_uses; simpl; lia|done|done].
    + intros [= <- <-]. done.
  - intros [= <- <-]. split; [intros id Hne; by rewrite lookup_insert_ne|].
    rewrite lookup_insert_eq. split_and!; [unfold cap, view_uses; simpl; lia|done|done].
Qed.

Lemma table_consume_law g e inp s r s' :
  Consume text_ok e inp s = (r, s') ->
  exists v, drops g (view s) v /\ consume_effect inp r v (view s').
Proof.
  intros Hc. exists (view s). split; [apply drops_refl|]. destruct s as [t c]. unfold Consume, isClosed in Hc. simpl in Hc.
  assert (forall x, uncharged inp x x) as Hsame by (by left).
  destruct c; [injection Hc as <- <-; split; [done|by left]|]. destruct (ciSkipConsume inp) eqn:Hskip.
  - destruct (get_with text_ok (faults e 0) (ciID inp) (MkStore t false)) as [r1 s1] eqn:Eg.
    pose proof (get_with_same (faults e 0) (ciID inp) (MkStore t false)) as Hs. rewrite Eg in Hs. simpl in Hs. subst s1.
    destruct r1 as [rec|x]; [|destruct x]; injection Hc as <- <-; (split; [done|]); unfold is_charge; simpl;
      rewrite ?Hskip, ?andb_false_r; simpl; auto.
  - set (now := if ciNowUnix inp =? 0 then _ else _) in Hc.
    destruct (execute (faults e 0) (upsert text_ok inp now) t) as [r1 t1] eqn:Ex. apply execute_cases in Ex.
    assert (Hpair : forall w (P : Prop), (forall id, id <> ciID inp -> t1 !! id = t !! id) -> P ->
      (forall id, id <> ciID inp -> view (MkStore t1 w) id = view (MkStore t false) id) /\ P).
    { intros w P Ho HP. split; [|done]. intros id Hne. unfold view. simpl. by rewrite Ho. }
    destruct Ex as [(o & -> & Hu)|[-> Hu]].
    + apply upsert_view in Hu as [Ho Hv]. destruct o as [[u m]|].
      * injection Hc as <- <-. unfold consume_effect. cbv zeta. apply Hpair; [done|]. unfold is_charge. simpl.
        rewrite Hskip. simpl. unfold view. simpl. tauto.
      * destruct (get_with text_ok (faults e 1) (ciID inp) (MkStore t1 false)) as [r2 s2] eqn:Eg.
        pose proof (get_with_same (faults e 1) (ciID inp) (MkStore t1 false)) as Hs. rewrite Eg in Hs. simpl in Hs.
        subst s2 t1. destruct r2 as [rec|x]; injection Hc as <- <-; (split; [done|]); simpl; auto.
    + injection Hc as <- <-. unfold consume_effect. cbv zeta. destruct Hu as [->|[o Hu]]; [by split; [|left]|].
      apply upsert_view in Hu as [Ho Hv]. apply Hpair; [done|].
      destruct o as [[u m]|]; [right; tauto|left; subst t1; by left].
Qed.

Lemma get_law g e id s r s' : Get text_ok e id s = (r, s') -> drops g (view s) (view s').
Proof.
  intros Hg. pose proof (get_with_same (faults e 0) id s) as Hs. unfold Get in Hg. rewrite Hg in Hs. simpl in Hs. subst.
  apply drops_refl.
Qed.

Lemma table_cleanup_law g e before s r s' :
  CleanupExpired e before s = (r, s') -> drops (Z.max before g) (view s) (view s').
Proof.
  destruct s as [t c]. unfold CleanupExpired, isClosed. simpl. destruct c; [intros [= <- <-]; apply drops_refl|].
  destruct (execute (faults e 0) (delete_expired before) t) as [r1 t1] eqn:Ex. intros [= <- <-]. apply execute_cases in Ex.
  assert (t1 = t \/ t1 = t ∖ filter (fun kv : string * row => expires_at kv.2 < before) t) as [-> | ->].
  { unfold delete_expired in Ex. destruct (int4 before); destruct Ex as [(a & _ & E)|[_ [E|[a E]]]]; simplify_eq; auto. }
  - apply drops_refl.
  - intros id. unfold view. simpl. rewrite lookup_difference. destruct (t !! id) as [rec|] eqn:E.
    + destruct (decide (expires_at rec < before)) as [Hlt|Hge].
      * rewrite (proj2 (map_lookup_filter_Some _ t id rec)) by done. right. split; [done|].
        exists (view_row rec). simpl. split; [done|lia].
      * rewrite (proj2 (map_lookup_filter_None _ t id)) by (right; intros x Hx; simplify_eq; simpl; lia). by left.
    + rewrite (proj2 (map_lookup_filter_None _ t id)) by auto. by left.
Qed.

End Contract.

(** The store keeps the contract with any grace period, whatever the server takes
    for text and whichever statements fail. *)
Definition Laws (text_ok : string -> bool) (grace : Z) : UsageStoreLaws (H := UsageStore_ops text_ok) UsageStore.
Proof.
  refine {| us_inv _ := True; us_view := view; us_time := (wall : @us_env _ (UsageStore_ops text_ok) -> Z);
            us_grace := grace; us_call_ok _ _ := True |}.
  - intros e inp s r s' _ _ Hc. split; [done|]. eapply table_consume_law. exact Hc.
  - intros e id s r s' _ Hg. split; [done|]. eapply get_law. exact Hg.
  - intros e before s r s' _ Hc. split; [done|]. eapply table_cleanup_law. exact Hc.
Defined.

(** C17: Postgres enforces [max_uses]: from an empty table, in any run of calls and
    cleanups in the order of time, statements failing before or after they took
    effect, the uses charged to a sign id never exceed the cap. *)
Theorem postgres_quota text_ok grace id E M evs t :
  1 <= M -> well_timed (H := UsageStore_ops text_ok) (H0 := Laws text_ok grace) id E M t evs ->
  charges (H := UsageStore_ops text_ok) id evs (NewUsageStoreFromPool ∅) <= M.
Proof.
  intros HM Hw. by eapply (quota_respected (H0 := Laws text_ok grace) id E M evs t).
Qed.

Definition any_text (_ : string) : bool := true.
Definition sample_input (ip : string) (now : Z) (skip : bool) : ConsumeInput :=
  MkConsumeInput "id" "generic" "/x" "s" "h" 100 2 ip "ua" now 0 skip.
Definition at_time (w : Z) (f : fault) : env := MkEnv w (fun _ => f).

(** Two charges, one of which was not answered. *)
Definition sample_run : list (us_event (H := UsageStore_ops any_text) UsageStore) :=
  let consume w f inp := EvConsume (H := UsageStore_ops any_text) (at_time w f) inp in
  [consume 50 Works (sample_input "1.1.1.1" 50 false);
   consume 60 AnswerLost (sample_input "1.1.1.1" 60 false);
   EvCleanup (H := UsageStore_ops any_text) (at_time 70 Works) 70;
   consume 80 Works (sample_input "2.2.2.2" 80 false);
   consume 90 Works (sample_input "2.2.2.2" 90 true)].

Lemma postgres_quota_witness :
  charges (H := UsageStore_ops any_text) "id" sample_run (NewUsageStoreFromPool ∅) = 1 /\
  charges (H := UsageStore_ops any_text) "id" sample_run (NewUsageStoreFromPool ∅) <= 2.
Proof.
  split; [vm_compute; reflexivity|]. apply (postgres_quota any_text 0 "id" 100 2 sample_run 50); [lia|].
  unfold well_timed, sample_run, ev_time, ev_ok, us_time, us_grace, us_call_ok; simpl.
  split_and!; intros; split_and?; try lia; done.
Defined.

(** A skipped call creates no record, and answers from the caller's cap; a
    refused one answers the cap stored with the record; times past 2038 do not
    fit their columns. *)
Example postgres_answers :
  let s1 := (Consume any_text (at_time 50 Works) (sample_input "1.1.1.1" 50 false) (NewUsageStoreFromPool ∅)).2 in
  Consume any_text (at_time 50 Works) (sample_input "1.1.1.1" 50 true) (NewUsageStoreFromPool ∅) =
    (Ok (MkConsumeResult true 0 2 "ok_head_first"), NewUsageStoreFromPool ∅) /\
  (Consume any_text (at_time 50 Works) (sample_input "1.1.1.1" 50 true) s1).1 = Ok (MkConsumeResult true 1 2 "ok_head") /\
  (Consume any_text (at_time 50 Works) (sample_input "1.1.1.1" 2147483648 false) (NewUsageStoreFromPool ∅)).1 =
    backend "postgres".
Proof. split_and!; vm_compute; reflexivity. Qed.

End PgUsage.

(** ** The pool ([OpenPool]) *)

Record PoolConfig := MkPoolConfig {
  DSN : string; MaxOpenConns : Z; MaxIdleConns : Z; MaxLifetime : Z; MaxIdleTime : Z;
}.

(** What is set on the parsed configuration; [None] leaves the default. *)
Record pool_settings := MkSettings { MaxConns : Z; MinConns : option Z; MaxConnLifetime : Z; MaxConnIdleTime : Z }.

Definition pool_of (cfg : PoolConfig) : pool_settings :=
  MkSettings (if 0 <? MaxOpenConns cfg then MaxOpenConns cfg else 20)
    (if 0 <? MaxIdleConns cfg then Some (MaxIdleConns cfg) else None)
    (if 0 <? MaxLifetime cfg then MaxLifetime cfg else 3600 * second)
    (if 0 <? MaxIdleTime cfg then MaxIdleTime cfg else 900 * second).

(** [ParseConfig], [NewWithConfig] and [Ping] are what may fail. *)
Definition OpenPool (parse : string -> bool) (connect ping : pool_settings -> bool) (cfg : PoolConfig) : option pool_settings :=
  if negb (parse (DSN cfg)) then None
  else let pc := pool_of cfg in if connect pc && ping pc then Some pc else None.
