(* ===== verification/Redis.v ===== *)
(** * The Redis usage store ([internal/storage/redis/{lua,usage}.go])

    The server is a parameter: commands on keys that hold a hash or a string and
    may have a deadline, with the laws the code relies on (no eviction of live
    keys).  The Lua script is translated over them and runs atomically; a command
    may fail before it ran or after, when its answer is lost. *)

From S2P Require Import Prelude GoStrings GoTime Strconv Storage.

(** ** The server *)

Inductive rvalue := RHash (h : gmap string string) | RString (s : string).

(** The commands of the code at a time of the server's clock, in nanoseconds;
    [None] is a reply that is an error. *)
Class Redis (R : Type) := {
  hget : Z -> string -> string -> R -> option (option string);
  hgetall : Z -> string -> R -> option (gmap string string);
  hset : Z -> string -> list (string * string) -> R -> option R;
  expire : Z -> string -> Z -> R -> R;
  incr : Z -> string -> R -> option (Z * R);
  get : Z -> string -> R -> option (option string);
  del : Z -> string -> R -> R;
}.

(** What is stored under a key, with its deadline, and whether it is still there. *)
Definition entry : Type := option (rvalue * option Z).
Definition live (t : Z) (x : entry) : option rvalue :=
  match x with
  | Some (v, Some d) => if t <=? d then Some v else None
  | Some (v, None) => Some v
  | None => None
  end.
Definition deadline (x : entry) : option Z := x ≫= snd.

Definition hash_of (o : option rvalue) : option (gmap string string) :=
  match o with Some (RHash h) => Some h | Some (RString _) => None | None => Some ∅ end.
Definition set_fields (fs : list (string * string)) (h : gmap string string) : gmap string string :=
  fold_left (fun h fv => <[fv.1 := fv.2]> h) fs h.

(** The other keys are as they were, or were removed past their deadline. *)
Definition others_kept (t : Z) (k : string) (x x' : string -> entry) : Prop :=
  forall k', k' <> k -> x' k' = x k' \/ (x' k' = None /\ live t (x k') = None).

Class RedisLaws (R : Type) `{Redis R} := {
  stored : R -> string -> entry;
  hget_law : forall t k f s, hget t k f s = (fun h => h !! f) <$> hash_of (live t (stored s k));
  hgetall_law : forall t k s, hgetall t k s = hash_of (live t (stored s k));
  hset_law : forall t k fs s,
    match hash_of (live t (stored s k)) with
    | None => hset t k fs s = None
    | Some h => exists s', hset t k fs s = Some s' /\ others_kept t k (stored s) (stored s') /\
        stored s' k = Some (RHash (set_fields fs h),
          match live t (stored s k) with Some _ => deadline (stored s k) | None => None end)
    end;
  expire_law : forall t k n s, 0 < n <= 9223372036 ->
    others_kept t k (stored s) (stored (expire t k n s)) /\
    live t (stored (expire t k n s) k) = live t (stored s k) /\
    (forall v, live t (stored s k) = Some v -> stored (expire t k n s) k = Some (v, Some (t + n * second)));
  incr_law : forall t k s,
    match live t (stored s k) with
    | Some (RHash _) => incr t k s = None
    | x =>
        let d := match x with Some _ => deadline (stored s k) | None => None end in
        match (match x with Some (RString b) => parse_int b | _ => Some 0 end) with
        | Some v => if v <? max_int64 then
              exists s', incr t k s = Some (v + 1, s') /\ others_kept t k (stored s) (stored s') /\
                stored s' k = Some (RString (format_int (v + 1)), d)
            else incr t k s = None
        | None => incr t k s = None
        end
    end;
  get_law : forall t k s, get t k s =
    match live t (stored s k) with Some (RHash _) => None | Some (RString b) => Some (Some b) | None => Some None end;
  del_law : forall t k s, others_kept t k (stored s) (stored (del t k s)) /\ live t (stored (del t k s) k) = None;
}.

(** Whether a command runs, and its answer arrives. *)
Inductive fault := Works | FailsBefore | AnswerLost.

Definition backend {A} (what : string) : result storage_error A := Err (ErrBackend what).

(** A command under a fault: an error reply, or its effect and answer. *)
Definition command {A R} (f : fault) (cmd : R -> option (A * R)) (s : R) : result storage_error A * R :=
  match f with
  | FailsBefore => (backend "redis", s)
  | Works => match cmd s with Some (a, s') => (Ok a, s') | None => (backend "redis", s) end
  | AnswerLost => (backend "redis", match cmd s with Some (_, s') => s' | None => s end)
  end.

Lemma command_cases {A R} f (cmd : R -> option (A * R)) s r s' :
  command f cmd s = (r, s') ->
  (exists a, r = Ok a /\ cmd s = Some (a, s')) \/
  (r = backend "redis" /\ (s' = s \/ exists a, cmd s = Some (a, s'))).
Proof.
  destruct f; simpl; [destruct (cmd s) as [[a s1]|]| |destruct (cmd s) as [[a s1]|]]; intros [= <- <-]; eauto 6.
Qed.

Module RedisUsage.

Section Script.
Context {R : Type} `{Redis R}.

(** [tonumber] on the decimal strings of Go's integers and of stored numbers, and
    a number as an argument of a command; exact up to [2^53]. *)
Definition tonumber : string -> option Z := parse_int.
Definition number : Z -> string := format_int.

(** The script [consumeUsage]: the pair it returns. *)
Definition consumeUsage (t : Z) (key max_uses ttl now ip ua mode path sign token_hash expires_at : string) (s : R)
  : option ((Z * Z) * R) :=
  max_uses ← tonumber max_uses;
  ttl ← tonumber ttl;
  o ← hget t key "uses" s;
  uses ← tonumber (default "0"%string o);
  if max_uses <=? uses then Some ((0, uses), s)
  else
    let uses := uses + 1 in
    if uses =? 1 then
      s ← hset t key
            [("uses", number uses); ("mode", mode); ("path", path); ("sign", sign); ("token_hash", token_hash);
             ("max_uses", number max_uses); ("first_ip", ip); ("last_ip", ip); ("user_agent", ua);
             ("expires_at", expires_at); ("created_at", now); ("updated_at", now)]%string s;
      Some ((1, uses), expire t key ttl s)
    else
      s ← hset t key [("uses", number uses); ("last_ip", ip); ("updated_at", now)]%string s;
      Some ((1, uses), s).

End Script.

(** ** Methods *)

Record UsageStore (R : Type) := MkStore { client : R; keyPrefix : string; closed : bool }.
Arguments MkStore {R} _ _ _.
Arguments client {R} _.
Arguments keyPrefix {R} _.
Arguments closed {R} _.

(** What the world contributes to a call: the wall clock in seconds, the time of
    the server in nanoseconds, and the fault of its command. *)
Record env := MkEnv { wall : Z; rtime : Z; fault_of : fault }.

Section Store.
Context {R : Type} `{Redis R}.

Definition NewUsageStore (client : R) (keyPrefix : string) : UsageStore R :=
  MkStore client (if (keyPrefix =? "")%string then "mirrors-waf" else keyPrefix) false.

Definition isClosed (s : UsageStore R) : bool := closed s.

Definition usageKey (s : UsageStore R) (id : string) : string := keyPrefix s +:+ ":pow:usage:" +:+ id.

Definition with_client (s : UsageStore R) (c : R) : UsageStore R := MkStore c (keyPrefix s) (closed s).

Definition now_of (e : env) (inp : ConsumeInput) : Z := if ciNowUnix inp =? 0 then wall e else ciNowUnix inp.
Definition grace_of (inp : ConsumeInput) : Z := if ciGraceSeconds inp <=? 0 then 60 else ciGraceSeconds inp.
Definition ttl_of (e : env) (inp : ConsumeInput) : Z :=
  wrap64 (wrap64 (ciExpiresAt inp - now_of e inp) + grace_of inp).

(** [HGET key uses] of a skipped call. *)
Definition head_consume (e : env) (inp : ConsumeInput) (s : UsageStore R) : result storage_error ConsumeResult :=
  match command (fault_of e) (fun c => (fun o => (o, c)) <$> hget (rtime e) (usageKey s (ciID inp)) "uses" c) (client s) with
  | (Err x, _) => Err x
  | (Ok None, _) => Ok (MkConsumeResult true 0 (ciMaxUses inp) "ok_head_first")
  | (Ok (Some v), _) =>
      match parse_int v with
      | None => backend "redis: head consume"
      | Some v =>
          let allowed := v <? ciMaxUses inp in
          Ok (MkConsumeResult allowed v (ciMaxUses inp) (if allowed then "ok_head" else "used_up_head"))
      end
  end.

(** The script's reply is two integers, so that its shape is never wrong. *)
Definition Consume (e : env) (inp : ConsumeInput) (s : UsageStore R)
  : result storage_error ConsumeResult * UsageStore R :=
  if isClosed s then (Err ErrClosed, s)
  else if wrap64 (ciExpiresAt inp - now_of e inp) <=? 0 then
    (Ok (MkConsumeResult false 0 (ciMaxUses inp) "expired"), s)
  else if ciSkipConsume inp then (head_consume e inp s, s)
  else
    let '(r, c) := command (fault_of e)
      (consumeUsage (rtime e) (usageKey s (ciID inp)) (format_int (ciMaxUses inp)) (format_int (ttl_of e inp))
         (format_int (now_of e inp)) (ciIP inp) (ciUserAgent inp) (ciMode inp) (ciPath inp) (ciSign inp)
         (ciTokenHash inp) (format_int (ciExpiresAt inp))) (client s) in
    (match r with
     | Err x => Err x
     | Ok (allowed, uses) =>
         Ok (MkConsumeResult (allowed =? 1) uses (ciMaxUses inp) (if allowed =? 1 then "ok" else "used_up"))
     end, with_client s c).

Definition text (h : gmap string string) (f : string) : string := default ""%string (h !! f).
(** A field that is not a number stays 0. *)
Definition num (h : gmap string string) (f : string) : Z := default 0 (parse_int (text h f)).

Definition record_of (id : string) (h : gmap string string) : UsageRecord := {|
  urID := id; urMode := text h "mode"; urPath := text h "path"; urSign := text h "sign";
  urTokenHash := text h "token_hash"; urUses := num h "uses"; urMaxUses := num h "max_uses";
  urFirstIP := text h "first_ip"; urLastIP := text h "last_ip"; urUserAgent := text h "user_agent";
  urExpiresAt := num h "expires_at"; urCreatedAt := num h "created_at"; urUpdatedAt := num h "updated_at";
|}.

Definition Get (e : env) (id : string) (s : UsageStore R) : result storage_error UsageRecord * UsageStore R :=
  if isClosed s then (Err ErrClosed, s)
  else
    (match command (fault_of e) (fun c => (fun h => (h, c)) <$> hgetall (rtime e) (usageKey s id) c) (client s) with
     | (Err x, _) => Err x
     | (Ok h, _) => if decide (h = ∅) then Err ErrNotFound else Ok (record_of id h)
     end, s).

(** The records have deadlines: nothing to do. *)
Definition CleanupExpired (_ : env) (_ : Z) (s : UsageStore R) : result storage_error Z * UsageStore R := (Ok 0, s).

Definition Close (s : UsageStore R) : UsageStore R := MkStore (client s) (keyPrefix s) true.

Definition UsageStore_ops : Storage.UsageStore (UsageStore R) := {|
  us_env := env;
  us_consume := Consume;
  us_get := Get;
  us_cleanup := CleanupExpired;
  us_close := Close;
|}.

End Store.

(** ** The contract *)

Section Contract.
Context {R : Type} `{RedisLaws R}.

(** How long past its expiry a record is kept for sure. *)
Variable grace : Z.

(** What a usage key holds: the fields of a record, and a deadline a second or
    more after the token's expiry and that grace. *)
Record good (x : rvalue * option Z) (h : gmap string string) (n m E : Z) (d : Z) : Prop := {
  gd_value : x = (RHash h, Some d);
  gd_uses : h !! "uses"%string = Some (format_int n) /\ 1 <= n <= 2 ^ 53;
  gd_max : h !! "max_uses"%string = Some (format_int m) /\ int64_range m;
  gd_expires : h !! "expires_at"%string = Some (format_int E) /\ int64_range E;
  gd_deadline : (E + 1 + grace) * second <= d;
}.

Definition inv (s : UsageStore R) : Prop :=
  forall id x, stored (client s) (usageKey s id) = Some x -> exists h n m E d, good x h n m E d.

Definition view_hash (h : gmap string string) : usage_view :=
  MkView (num h "uses") (num h "max_uses") (num h "expires_at") (text h "first_ip").
Definition view_entry (x : entry) : option usage_view :=
  match x with Some (RHash h, _) => Some (view_hash h) | _ => None end.
Definition view (s : UsageStore R) : views := fun id => view_entry (stored (client s) (usageKey s id)).

(** The numbers are those of Go and exact in Lua, and what Go's clock
    may be ahead of the server's is less than the grace period asked for, less
    [grace]. *)
Record call_ok (e : env) (inp : ConsumeInput) : Prop := {
  ok_max : min_int64 <= ciMaxUses inp <= 2 ^ 53;
  ok_now : 0 <= now_of e inp <= max_int64;
  ok_expires : 0 <= ciExpiresAt inp <= max_int64;
  ok_ttl : ciExpiresAt inp - now_of e inp + grace_of inp <= 9223372036;
  ok_clocks : now_of e inp + grace < rtime e / second + grace_of inp;
}.

Lemma int64_small n : 0 <= n <= 2 ^ 53 -> int64_range n.
Proof. unfold int64_range, min_int64, max_int64. lia. Qed.

Lemma num_format h f n : h !! f = Some (format_int n) -> int64_range n -> num h f = n.
Proof. intros Hf Hn. unfold num, text. rewrite Hf. simpl. by rewrite parse_format_int. Qed.

Lemma others_kept_trans t k x y z : others_kept t k x y -> others_kept t k y z -> others_kept t k x z.
Proof.
  intros Hxy Hyz k' Hne. destruct (Hxy k' Hne) as [E|[E D]], (Hyz k' Hne) as [E'|[E' D']].
  - left. congruence.
  - right. by rewrite <- E.
  - right. by rewrite E', E.
  - by right.
Qed.

Lemma usageKey_inj (s : UsageStore R) id id' : usageKey s id = usageKey s id' -> id = id'.
Proof.
  intros E. apply (f_equal bytes_of) in E. unfold usageKey in E. rewrite !bytes_of_app in E.
  apply app_inv_head, app_inv_head, bytes_of_inj in E. done.
Qed.

(** Past its deadline a record has expired. *)
Lemma dead_expired x h n m E d t : good x h n m E d -> live t (Some x) = None -> E + grace < t / second.
Proof.
  intros [-> _ _ _ Hd]. simpl. destruct (Z.leb_spec t d); [done|]. intros _.
  assert (second = 1000000000) as Hs by done. apply Z.lt_le_trans with (E + 1 + grace); [lia|]. apply Z.div_le_lower_bound; lia.
Qed.

Lemma drops_others (s : UsageStore R) c t id v :
  inv s -> others_kept t (usageKey s id) (stored (client s)) (stored c) ->
  (v id = view s id \/ (v id = None /\ live t (stored (client s) (usageKey s id)) = None)) ->
  (forall i, i <> id -> v i = view (with_client s c) i) -> drops (t / second - grace) (view s) v.
Proof.
  intros Hi Ho Hid Hv i.
  assert (Hdead : live t (stored (client s) (usageKey s i)) = None -> view s i = None \/
    exists x, view s i = Some x /\ uv_expires x < t / second - grace).
  { intros Hl. unfold view. destruct (stored (client s) (usageKey s i)) as [x|] eqn:Ex; [|by left].
    destruct (Hi _ _ Ex) as (h & n & m & E & d & Hg). right. pose proof (dead_expired _ _ _ _ _ _ _ Hg Hl).
    destruct (gd_expires _ _ _ _ _ _ Hg) as [He Hr]. rewrite (gd_value _ _ _ _ _ _ Hg). eexists. split; [done|].
    simpl. rewrite (num_format _ _ E) by done. lia. }
  destruct (decide (i = id)) as [->|Hne].
  - destruct Hid as [->|[-> Hl]]; [by left|]. destruct (Hdead Hl) as [->|]; [by left|by right].
  - rewrite (Hv i Hne).
    assert (view (with_client s c) i = view s i \/
      (view (with_client s c) i = None /\ live t (stored (client s) (usageKey s i)) = None)) as [->|[-> Hl]].
    { unfold view. change (usageKey (with_client s c) i) with (usageKey s i). cbn [client with_client].
      destruct (Ho (usageKey s i)) as [->|[-> Hl]]; [|by left|by right].
      intros E. apply Hne. eapply usageKey_inj. exact E. }
    + by left.
    + destruct (Hdead Hl) as [Hn|Hn]; [by left|by right].
Qed.

(** The script on a key that is free, and on a record. *)
Lemma script_free t key mx ttl now ip ua mode path sign th ex s :
  live t (stored s key) = None -> int64_range mx -> 0 < ttl <= 9223372036 ->
  let run := consumeUsage t key (format_int mx) (format_int ttl) now ip ua mode path sign th ex s in
  if mx <=? 0 then run = Some ((0, 0), s)
  else exists s', run = Some ((1, 1), s') /\ others_kept t key (stored s) (stored s') /\
    exists h, stored s' key = Some (RHash h, Some (t + ttl * second)) /\
      h !! "uses"%string = Some (format_int 1) /\ h !! "max_uses"%string = Some (format_int mx) /\
      h !! "first_ip"%string = Some ip /\ h !! "expires_at"%string = Some ex.
Proof.
  intros Hl Hm Ht run. unfold run, consumeUsage, tonumber, number. rewrite !parse_format_int by (done || (unfold int64_range, min_int64, max_int64; lia)).
  simpl. rewrite hget_law, Hl. simpl. rewrite lookup_empty. simpl.
  change (0 * 10 + (byte_of "0" - 48)) with 0. change (0 + 1) with 1.
  destruct (mx <=? 0); [done|]. match goal with |- context [hset t key ?fs s] => pose proof (hset_law t key fs s) as Hs end.
  rewrite Hl in Hs. simpl in Hs. destruct Hs as (s1 & -> & Ho & Hk). simpl.
  destruct (expire_law t key ttl s1 Ht) as (Ho2 & _ & Hx). eexists. split; [done|].
  split; [by eapply others_kept_trans|]. specialize (Hx _ ltac:(rewrite Hk; reflexivity)). eexists. split; [exact Hx|].
  unfold set_fields; cbn [fold_left fst snd]. split_and!; by simplify_map_eq.
Qed.

Lemma script_record t key h n mx ttl now ip ua mode path sign th ex s :
  live t (stored s key) = Some (RHash h) -> h !! "uses"%string = Some (format_int n) -> 1 <= n <= 2 ^ 53 ->
  int64_range mx -> int64_range ttl ->
  let run := consumeUsage t key (format_int mx) (format_int ttl) now ip ua mode path sign th ex s in
  if mx <=? n then run = Some ((0, n), s)
  else exists s', run = Some ((1, n + 1), s') /\ others_kept t key (stored s) (stored s') /\
    exists h', stored s' key = Some (RHash h', deadline (stored s key)) /\
      h' !! "uses"%string = Some (format_int (n + 1)) /\
      h' !! "max_uses"%string = h !! "max_uses"%string /\ h' !! "first_ip"%string = h !! "first_ip"%string /\
      h' !! "expires_at"%string = h !! "expires_at"%string.
Proof.
  intros Hl Hu Hn Hm Ht run. unfold run, consumeUsage, tonumber, number. rewrite !parse_format_int by done. simpl.
  rewrite hget_law, Hl. simpl. rewrite Hu. simpl. rewrite parse_format_int by (apply int64_small; lia). simpl.
  destruct (mx <=? n); [done|]. rewrite (proj2 (Z.eqb_neq (n + 1) 1)) by lia.
  match goal with |- context [hset t key ?fs s] => pose proof (hset_law t key fs s) as Hs end.
  rewrite Hl in Hs. simpl in Hs. destruct Hs as (s1 & -> & Ho & Hk). simpl. eexists. split; [done|]. split; [done|].
  eexists. split; [exact Hk|]. unfold set_fields; cbn [fold_left fst snd]. split_and!; by simplify_map_eq.
Qed.

Lemma live_stored t x v : live t x = Some v -> exists d, x = Some (v, d).
Proof. destruct x as [[w [d|]]|]; simpl; [case_if|..]; intros [= <-]; eauto. Qed.

Lemma inv_other (s : UsageStore R) c t id :
  inv s -> others_kept t (usageKey s id) (stored (client s)) (stored c) ->
  (forall x, stored c (usageKey s id) = Some x -> exists h n m E d, good x h n m E d) -> inv (with_client s c).
Proof.
  intros Hi Ho Hk i x. change (usageKey (with_client s c) i) with (usageKey s i). cbn [client with_client].
  destruct (decide (usageKey s i = usageKey s id)) as [->|Hne]; [apply Hk|].
  destruct (Ho _ Hne) as [->|[-> _]]; [apply Hi|done].
Qed.

(** The view after a script that charged, in terms of the one the script met. *)
Definition charged_by (s : UsageStore R) (t : Z) (inp : ConsumeInput) (c : R) : Prop :=
  exists v, drops (t / second - grace) (view s) v /\ (forall i, i <> ciID inp -> v i = view (with_client s c) i) /\
    view_uses (v (ciID inp)) < cap inp (v (ciID inp)) /\
    view (with_client s c) (ciID inp) = charged_view inp (v (ciID inp)).

Lemma script_effect e inp (s : UsageStore R) a u c :
  inv s -> call_ok e inp -> 0 < ciExpiresAt inp - now_of e inp ->
  consumeUsage (rtime e) (usageKey s (ciID inp)) (format_int (ciMaxUses inp))
    (format_int (ciExpiresAt inp - now_of e inp + grace_of inp)) (format_int (now_of e inp)) (ciIP inp) (ciUserAgent inp)
    (ciMode inp) (ciPath inp) (ciSign inp) (ciTokenHash inp) (format_int (ciExpiresAt inp)) (client s) = Some ((a, u), c) ->
  (a = 0 /\ c = client s) \/ (a = 1 /\ inv (with_client s c) /\ charged_by s (rtime e) inp c).
Proof.
  intros Hi [Hm Hnow Hexp Httl Hclk] Hlive. set (key := usageKey s (ciID inp)).
  assert (0 < grace_of inp) as Hg by (unfold grace_of; case_if; bprop; lia).
  assert (int64_range (ciMaxUses inp) /\ int64_range (ciExpiresAt inp)) as [Hmr Her]
    by (unfold int64_range, min_int64, max_int64 in *; lia).
  destruct (live (rtime e) (stored (client s) key)) as [x|] eqn:El.
  - destruct (live_stored _ _ _ El) as [d0 Ex]. destruct (Hi _ _ Ex) as (h & n & m & E & d & Hgood).
    pose proof (gd_value _ _ _ _ _ _ Hgood) as [= -> ->]. destruct (gd_uses _ _ _ _ _ _ Hgood) as [Hu Hn].
    destruct (gd_max _ _ _ _ _ _ Hgood) as [Hmx Hmxr]. destruct (gd_expires _ _ _ _ _ _ Hgood) as [Hex Hexr].
    match goal with |- ?run = _ -> _ => pose proof (script_record (rtime e) key h n (ciMaxUses inp)
      (ciExpiresAt inp - now_of e inp + grace_of inp) (format_int (now_of e inp)) (ciIP inp) (ciUserAgent inp)
      (ciMode inp) (ciPath inp) (ciSign inp) (ciTokenHash inp) (format_int (ciExpiresAt inp)) (client s) El Hu Hn Hmr
      ltac:(unfold int64_range, min_int64, max_int64; lia)) as Hs end.
    destruct (Z.leb_spec (ciMaxUses inp) n); [rewrite Hs; intros [= <- <- <-]; by left|].
    destruct Hs as (s' & -> & Ho & h' & Hk & Hu' & Hm' & Hf' & He'). intros [= <- <- <-]. right. split; [done|].
    rewrite Hmx in Hm'. rewrite Hex in He'. rewrite Ex in Hk. simpl in Hk.
    assert (int64_range n /\ int64_range (n + 1)) as [Hnr Hnr'] by (split; apply int64_small; lia). split.
    + eapply inv_other; [done|exact Ho|]. intros x Hx. fold key in Hx. rewrite Hk in Hx. injection Hx as <-.
      exists h', (n + 1), m, E, d. split; [done|split; [done|lia]|done|done|apply (gd_deadline _ _ _ _ _ _ Hgood)].
    + exists (fun i => if decide (i = ciID inp) then view s i else view (with_client s s') i).
      assert (view s (ciID inp) = Some (MkView n m E (text h "first_ip"))) as Hv.
      { unfold view. fold key. rewrite Ex. simpl. unfold view_hash. by rewrite (num_format _ _ n), (num_format _ _ m), (num_format _ _ E). }
      split_and!.
      * eapply drops_others; [done|exact Ho|left; by rewrite decide_True|]. intros i Hne. by rewrite decide_False.
      * intros i Hne. by rewrite decide_False.
      * rewrite decide_True, Hv by done. unfold view_uses, cap. simpl. lia.
      * rewrite decide_True, Hv by done. unfold view. change (usageKey (with_client s s') (ciID inp)) with key.
        cbn [client with_client]. rewrite Hk. simpl. unfold view_hash, with_uses. simpl.
        rewrite (num_format _ _ (n + 1)), (num_format _ _ m), (num_format _ _ E) by done. unfold text. by rewrite Hf'.
  - match goal with |- ?run = _ -> _ => pose proof (script_free (rtime e) key (ciMaxUses inp)
      (ciExpiresAt inp - now_of e inp + grace_of inp) (format_int (now_of e inp)) (ciIP inp) (ciUserAgent inp)
      (ciMode inp) (ciPath inp) (ciSign inp) (ciTokenHash inp) (format_int (ciExpiresAt inp)) (client s) El Hmr
      ltac:(lia)) as Hs end.
    destruct (Z.leb_spec (ciMaxUses inp) 0); [rewrite Hs; intros [= <- <- <-]; by left|].
    destruct Hs as (s' & -> & Ho & h & Hk & Hu & Hmx & Hf & Hex). intros [= <- <- <-]. right. split; [done|]. split.
    + eapply inv_other; [done|exact Ho|]. intros x Hx. fold key in Hx. rewrite Hk in Hx. injection Hx as <-.
      exists h, 1, (ciMaxUses inp), (ciExpiresAt inp), (rtime e + (ciExpiresAt inp - now_of e inp + grace_of inp) * second).
      split; [done|split; [exact Hu|lia]|exact (conj Hmx Hmr)|exact (conj Hex Her)|].
      pose proof (Z.mul_div_le (rtime e) second ltac:(done)). change second with 1000000000 in *. lia.
    + exists (fun i => if decide (i = ciID inp) then None else view (with_client s s') i). split_and!.
      * eapply drops_others; [done|exact Ho|right; rewrite decide_True by done; done|].
        intros i Hne. by rewrite decide_False.
      * intros i Hne. by rewrite decide_False.
      * rewrite decide_True by done. unfold view_uses, cap. simpl. lia.
      * rewrite decide_True by done. unfold view. change (usageKey (with_client s s') (ciID inp)) with key.
        cbn [client with_client]. rewrite Hk. simpl. unfold view_hash, created.
        rewrite (num_format _ _ 1 Hu (int64_small 1 ltac:(lia))), (num_format _ _ _ Hmx Hmr), (num_format _ _ _ Hex Her).
        unfold text. by rewrite Hf.
Qed.

Lemma script_consume_law e inp (s : UsageStore R) r s' :
  inv s -> call_ok e inp -> Consume e inp s = (r, s') ->
  inv s' /\ exists v, drops (rtime e / second - grace) (view s) v /\ consume_effect inp r v (view s').
Proof.
  intros Hi Hok Hc. assert (forall x, uncharged inp x x) as Hsame by (by left).
  assert (forall r, (is_charge inp r = false \/ exists x, r = Err x) ->
    inv s /\ exists v, drops (rtime e / second - grace) (view s) v /\ consume_effect inp r v (view s)) as Hstay.
  { intros r0 Hr. split; [done|]. exists (view s). split; [apply drops_refl|]. split; [done|].
    destruct Hr as [Hr|[x ->]]; [|by left; left]. destruct r0 as [cr|x]; [by rewrite Hr|by left; left]. }
  unfold Consume in Hc. destruct (isClosed s); [injection Hc as <- <-; apply Hstay; eauto|].
  pose proof (ok_now _ _ Hok). pose proof (ok_expires _ _ Hok). pose proof (ok_ttl _ _ Hok).
  assert (0 < grace_of inp) as Hg by (unfold grace_of; case_if; bprop; lia).
  assert (wrap64 (ciExpiresAt inp - now_of e inp) = ciExpiresAt inp - now_of e inp) as Hw.
  { apply wrap64_id. unfold int64_range, min_int64, max_int64 in *. lia. }
  rewrite Hw in Hc. destruct (Z.leb_spec (ciExpiresAt inp - now_of e inp) 0); [injection Hc as <- <-; apply Hstay; by left|].
  destruct (ciSkipConsume inp) eqn:Hskip.
  { injection Hc as <- <-. apply Hstay. destruct (head_consume e inp s); [left|eauto]. simpl. by rewrite Hskip, andb_false_r. }
  unfold ttl_of in Hc. rewrite Hw, wrap64_id in Hc by (unfold int64_range, min_int64, max_int64 in *; lia).
  destruct (command _ _ (client s)) as [r1 c] eqn:Ec. injection Hc as <- <-. apply command_cases in Ec.
  destruct Ec as [([a u] & -> & Hs)|[-> [-> |[[a u] Hs]]]]; [| |].
  - apply script_effect in Hs as [[-> ->]|(-> & Hi' & v & Hd & Ho & Hlt & Hv)]; [| |done|done|lia].
    + destruct s. apply Hstay. by left.
    + split; [done|]. exists v. split; [done|]. split; [by intros i Hne; rewrite Ho|]. simpl. by rewrite Hskip.
  - destruct s. apply Hstay. eauto.
  - apply script_effect in Hs as [[-> ->]|(-> & Hi' & v & Hd & Ho & Hlt & Hv)]; [| |done|done|lia].
    + destruct s. apply Hstay. eauto.
    + split; [done|]. exists v. split; [done|]. split; [by intros i Hne; rewrite Ho|]. simpl. by right.
Qed.

(** The store keeps the contract towards a server that keeps its laws; a record
    may be gone as soon as its token has expired. *)
Definition Laws : UsageStoreLaws (H := UsageStore_ops) (UsageStore R).
Proof.
  refine {| us_inv := inv; us_view := view;
            us_time := (fun e => rtime e / second) : @us_env _ UsageStore_ops -> Z;
            us_grace := grace; us_call_ok := call_ok |}.
  - intros e inp s r s' Hi Hok Hc. eapply script_consume_law; [exact Hi|exact Hok|exact Hc].
  - intros e id s r s' Hi Hg. unfold us_get, UsageStore_ops, Get in Hg.
    assert (s' = s) as -> by (by destruct (isClosed s); injection Hg). split; [done|apply drops_refl].
  - intros e before s r s' Hi [= _ <-]. split; [done|apply drops_refl].
Defined.

Lemma inv_NewUsageStore (c : R) p : (forall id, stored c (usageKey (NewUsageStore c p) id) = None) -> inv (NewUsageStore c p).
Proof. intros Hc id x Hx. unfold NewUsageStore at 1 in Hx. simpl in Hx. by rewrite Hc in Hx. Qed.

(** C18: Redis enforces [max_uses]: on a server that keeps its laws and holds no
    usage key of the prefix, in any run of calls and cleanups in the order of the
    server's time, commands failing before or after they took effect and keys
    disappearing past their deadline, the uses charged to a sign id never exceed
    the cap, as long as no caller's clock is so far ahead that the deadline it
    asks for comes too early. *)
Theorem redis_quota (c : R) p id E M evs t :
  (forall i, stored c (usageKey (NewUsageStore c p) i) = None) ->
  1 <= M -> well_timed (H0 := Laws) id E M t evs ->
  charges (H := UsageStore_ops) id evs (NewUsageStore c p) <= M.
Proof.
  intros Hc HM Hw. apply (quota_respected (H0 := Laws) id E M evs t); [by apply inv_NewUsageStore| |done|done].
  unfold us_view, Laws, view. unfold NewUsageStore at 1. simpl. by rewrite Hc.
Qed.

End Contract.

End RedisUsage.

(** ** A server *)

Module MapRedis.

(** Keys in a map; those past their deadline stay until they are written. *)
Notation server := (gmap string (rvalue * option Z)).
Definition at_ (t : Z) (s : server) (k : string) : option rvalue := live t (s !! k).
Definition kept (t : Z) (s : server) (k : string) : option Z :=
  match at_ t s k with Some _ => deadline (s !! k) | None => None end.

#[export] Instance MapRedis_ops : Redis server := {|
  hget t k f s := (fun h => h !! f) <$> hash_of (at_ t s k);
  hgetall t k s := hash_of (at_ t s k);
  hset t k fs s := (fun h => <[k := (RHash (set_fields fs h), kept t s k)]> s) <$> hash_of (at_ t s k);
  expire t k n s := match at_ t s k with
                    | Some v => if 0 <? n then <[k := (v, Some (t + n * second))]> s else delete k s
                    | None => s
                    end;
  incr t k s :=
    match at_ t s k with
    | Some (RHash _) => None
    | x =>
        v ← match x with Some (RString b) => parse_int b | _ => Some 0 end;
        if v <? max_int64 then Some (v + 1, <[k := (RString (format_int (v + 1)), kept t s k)]> s) else None
    end;
  get t k s := match at_ t s k with
               | Some (RHash _) => None
               | Some (RString b) => Some (Some b)
               | None => Some None
               end;
  del t k s := delete k s;
|}.

Lemma kept_insert t k x (s : server) : others_kept t k (fun i => s !! i) (fun i => <[k := x]> s !! i).
Proof. intros i Hne. left. by rewrite lookup_insert_ne. Qed.
Lemma kept_delete t k (s : server) : others_kept t k (fun i => s !! i) (fun i => delete k s !! i).
Proof. intros i Hne. left. by rewrite lookup_delete_ne. Qed.

#[export] Instance MapRedis_laws : RedisLaws server.
Proof.
  refine {| stored s k := s !! k |}; simpl; [done|done|..]; unfold at_, kept.
  - intros t k fs s. unfold at_, kept. destruct (hash_of (live t (s !! k))) as [h|]; [|done]. simpl.
    eexists. split; [done|]. split; [apply kept_insert|by rewrite lookup_insert_eq].
  - intros t k n s Hn. rewrite (proj2 (Z.ltb_lt 0 n)) by lia. destruct (live t (s !! k)) as [v|] eqn:E.
    + split; [apply kept_insert|]. rewrite lookup_insert_eq. split; [|by intros w [= <-]]. simpl.
      destruct (Z.leb_spec t (t + n * second)); [done|]. change second with 1000000000 in *. lia.
    + split; [by left|]. by rewrite E.
  - intros t k s. unfold at_, kept. destruct (live t (s !! k)) as [[h|b]|] eqn:E; [done|destruct (parse_int b) as [v|]; simpl; [|done]|];
      (simpl; try (case_if; [|done]); eexists; split; [done|]; split; [apply kept_insert|by rewrite lookup_insert_eq]).
  - done.
  - intros t k s. split; [apply kept_delete|by rewrite lookup_delete_eq].
Defined.

Import RedisUsage.

Definition sample_input (ip : string) (now : Z) : ConsumeInput :=
  MkConsumeInput "id" "generic" "/x" "s" "h" 100 2 ip "ua" now 0 false.
Definition at_time (w : Z) (f : fault) : RedisUsage.env := RedisUsage.MkEnv w (w * second) f.
Definition empty_server : server := ∅.

(** Two charges, one of them not answered, a refusal, and a presentation after
    the token has expired. *)
Definition sample_run : list (us_event (H := UsageStore_ops (R := server)) (UsageStore server)) :=
  let consume w f inp := EvConsume (H := UsageStore_ops (R := server)) (at_time w f) inp in
  [consume 50 Works (sample_input "1.1.1.1" 50); consume 60 AnswerLost (sample_input "1.1.1.1" 60);
   consume 80 Works (sample_input "2.2.2.2" 80); consume 100 Works (sample_input "2.2.2.2" 100)].

Lemma redis_quota_witness :
  charges (H := UsageStore_ops) "id" sample_run (NewUsageStore empty_server "") = 1 /\
  charges (H := UsageStore_ops) "id" sample_run (NewUsageStore empty_server "") <= 2.
Proof.
  split; [vm_compute; reflexivity|]. apply (redis_quota 0 empty_server "" "id" 100 2 sample_run 50); [|lia|].
  - intros i. reflexivity.
  - assert (forall w f ip, 50 <= w <= 100 -> call_ok 0 (at_time w f) (sample_input ip w)) as Hok.
    { intros w f ip Hw. assert (now_of (at_time w f) (sample_input ip w) = w) as Hn.
      { unfold now_of. simpl. by rewrite (proj2 (Z.eqb_neq w 0)) by lia. }
      assert (rtime (at_time w f) / second = w) as Ht by (apply Z.div_mul; done).
      split; rewrite ?Hn, ?Ht; simpl; unfold min_int64, max_int64, grace_of; simpl; lia. }
    assert (forall w, w * second / second = w) as Hd by (intros w; by apply Z.div_mul).
    unfold well_timed, sample_run, ev_time, ev_ok, us_time, us_grace, us_call_ok. simpl. rewrite !Hd.
    split_and!; intros; split_and?; try lia; try done; apply Hok; lia.
Defined.

(** The client's copies in the answers: a record is created on the first charge,
    with its deadline; a skipped call creates none; an expired token is refused. *)
Example redis_answers :
  let s := NewUsageStore empty_server "" in
  let s1 := (Consume (at_time 50 Works) (sample_input "1.1.1.1" 50) s).2 in
  (Consume (at_time 50 Works) (sample_input "1.1.1.1" 50) s).1 = Ok (MkConsumeResult true 1 2 "ok") /\
  deadline (client s1 !! usageKey s1 "id") = Some (160 * second) /\
  (Get (at_time 60 Works) "id" s1).1 =
    Ok (MkUsageRecord "id" "generic" "/x" "s" "h" 1 2 "1.1.1.1" "1.1.1.1" "ua" 100 50 50) /\
  (Get (at_time 161 Works) "id" s1).1 = Err ErrNotFound /\
  (Consume (at_time 100 Works) (sample_input "1.1.1.1" 100) s1).1 = Ok (MkConsumeResult false 0 2 "expired").
Proof. split_and!; vm_compute; reflexivity. Qed.

End MapRedis.
