(* ===== verification/RedisCounter.v ===== *)
(** * The Redis counters ([internal/storage/redis/counter.go])

    One key per window, incremented and given a deadline in one transaction.  The
    client library rounds the deadline to seconds, which is a parameter. *)

From S2P Require Import Prelude GoStrings GoTime Strconv Storage MemoryCounter Redis.

Module RedisCounter.

Record CounterStore (R : Type) := MkStore { client : R; keyPrefix : string; closed : bool }.
Arguments MkStore {R} _ _ _.
Arguments client {R} _.
Arguments keyPrefix {R} _.
Arguments closed {R} _.

(** The two readings of the wall clock, the time of the server, and the fault of
    the command. *)
Record env := MkEnv { now1 : Z; now2 : Z; rtime : Z; fault_of : fault }.

Section Store.
Context {R : Type} `{Redis R}.
(** The seconds [Expire] asks for, for a duration. *)
Variable seconds_of : Z -> Z.

Definition NewCounterStore (client : R) (keyPrefix : string) : CounterStore R :=
  MkStore client (if (keyPrefix =? "")%string then "mirrors-waf" else keyPrefix) false.

Definition isClosed (s : CounterStore R) : bool := closed s.
Definition Close (s : CounterStore R) : CounterStore R := MkStore (client s) (keyPrefix s) true.
Definition with_client (s : CounterStore R) (c : R) : CounterStore R := MkStore c (keyPrefix s) (closed s).

Definition bucketStart (window t : Z) : Z := Z.quot (unix_nano t) window * window.

Definition counterKey (s : CounterStore R) (name key : string) (bucketStart : Z) : string :=
  keyPrefix s +:+ ":risk:counter:" +:+ name +:+ ":" +:+ key +:+ ":" +:+ itoa bucketStart.

(** [MULTI], [INCR], [EXPIRE], [EXEC]: the server runs both commands, the second
    after an error of the first too, which is then the error of [Exec]. *)
Definition incr_tx (t : Z) (k : string) (window : Z) (c : R) : option Z * R :=
  let '(v, c) := match incr t k c with Some (v, c) => (Some v, c) | None => (None, c) end in
  (v, expire t k (seconds_of window) c).

(** A transaction under a fault: none of it runs, or all of it. *)
Definition transaction {A} (f : fault) (tx : R -> option A * R) (c : R) : result storage_error A * R :=
  match f with
  | FailsBefore => (backend "redis", c)
  | Works => let '(a, c) := tx c in (match a with Some a => Ok a | None => backend "redis" end, c)
  | AnswerLost => (backend "redis", (tx c).2)
  end.

Definition Incr (e : env) (name key : string) (window : Z) (s : CounterStore R)
  : result storage_error (Z * Z) * CounterStore R :=
  if isClosed s then (Err ErrClosed, s)
  else if window <=? 0 then (Err ErrInvalidWindow, s)
  else
    let start := bucketStart window (now1 e) in
    let '(r, c) := transaction (fault_of e) (incr_tx (rtime e) (counterKey s name key start) window) (client s) in
    (match r with
     | Err x => Err x
     | Ok v =>
         let remaining := time_sub (start + window) (now2 e) in
         Ok (v, if remaining <? 0 then 0 else remaining)
     end, with_client s c).

Definition Get (e : env) (name key : string) (window : Z) (s : CounterStore R) : result storage_error Z :=
  if isClosed s then Err ErrClosed
  else if window <=? 0 then Err ErrInvalidWindow
  else
    let k := counterKey s name key (bucketStart window (now1 e)) in
    match command (fault_of e) (fun c => (fun o => (o, c)) <$> get (rtime e) k c) (client s) with
    | (Err x, _) => Err x
    | (Ok None, _) => Ok 0
    | (Ok (Some b), _) => match parse_int b with Some v => Ok v | None => backend "redis: get" end
    end.

Definition Reset (e : env) (name key : string) (window : Z) (s : CounterStore R)
  : result storage_error unit * CounterStore R :=
  if isClosed s then (Err ErrClosed, s)
  else if window <=? 0 then (Err ErrInvalidWindow, s)
  else
    let k := counterKey s name key (bucketStart window (now1 e)) in
    let '(r, c) := command (fault_of e) (fun c => Some (tt, del (rtime e) k c)) (client s) in
    (r, with_client s c).

Definition CounterStore_ops : Storage.CounterStore (CounterStore R) := {|
  cs_env := env;
  cs_incr := Incr;
  cs_get e name key w s := (Get e name key w s, s);
  cs_reset := Reset;
  cs_close := Close;
|}.

End Store.

(** ** The counters count *)

Section Counting.
Context {R : Type} `{RedisLaws R}.
Variable seconds_of : Z -> Z.

(** Each counter name is used with one window. *)
Variable win : string -> Z.

(** A name without the separator of the keys. *)
Definition plain_name (s : string) : Prop := 58 ∉ bytes_of s.

Lemma format_int_no_colon n : 58 ∉ bytes_of (format_int n).
Proof.
  rewrite format_int_bytes. intros Hin.
  apply (proj1 (Forall_forall _ _) (dec_bytes_chars n)) in Hin. unfold dec_char in Hin. lia.
Qed.

Definition bkey (p name key : string) (start : Z) : string :=
  p +:+ ":risk:counter:" +:+ name +:+ ":" +:+ key +:+ ":" +:+ format_int start.

Lemma redis_key_inj p name name' key key' s s' :
  plain_name name -> plain_name name' -> int64_range s -> int64_range s' ->
  bkey p name key s = bkey p name' key' s' -> name = name' /\ key = key' /\ s = s'.
Proof.
  unfold plain_name, bkey. intros Hn Hn' Hs Hs' E. apply (f_equal bytes_of) in E.
  rewrite !bytes_of_app in E. change (bytes_of ":") with [58] in E. do 2 apply app_inv_head in E.
  simpl in E. apply sep_first_inj in E as [En E]; [|done..].
  apply sep_last_inj in E as [Ek E]; [|apply format_int_no_colon..].
  apply bytes_of_inj in En, Ek, E. split_and!; [done|done|by apply format_int_inj].
Qed.

Lemma window_start_range w t : MemCounter.time_ok t -> 0 < w ->
  0 <= bucketStart w t <= t /\ t < bucketStart w t + w.
Proof.
  intros Ht Hw. pose proof (MemCounter.bucketStart_range w t Ht Hw) as (E & _ & Hb).
  change (MemCounter.bucketStart w t) with (bucketStart w t) in *. unfold MemCounter.time_ok in Ht.
  pose proof (Z.div_pos t w ltac:(lia) Hw). nia.
Qed.

Lemma counterKey_bkey (s : CounterStore R) name key w t :
  MemCounter.time_ok t -> 0 < w -> counterKey s name key (bucketStart w t) = bkey (keyPrefix s) name key (bucketStart w t).
Proof.
  intros Ht Hw. unfold counterKey, bkey. destruct (window_start_range w t Ht Hw) as [Hb _].
  unfold MemCounter.time_ok in Ht. rewrite itoa_format_int; [done|]. unfold min_int64. lia.
Qed.

Definition store_step (o : MemCounter.op) (e : env) (s : CounterStore R) : result storage_error Z * CounterStore R :=
  match o with
  | MemCounter.OpIncr n k => let '(r, s') := Incr seconds_of e n k (win n) s in
                  (match r with Ok (v, _) => Ok v | Err x => Err x end, s')
  | MemCounter.OpGet n k => (Get e n k (win n) s, s)
  | MemCounter.OpReset n k => let '(r, s') := Reset e n k (win n) s in
                   (match r with Ok _ => Ok 0 | Err x => Err x end, s')
  end.

(** What a key of a window that is not over yet holds: its count, under a deadline
    no earlier than the end of the window; free when the count is 0. *)
Definition counts (t : Z) (x : entry) (stop v : Z) : Prop :=
  match live t x with
  | None => v = 0
  | Some (RString b) => b = format_int v /\ 0 <= v /\ exists d, deadline x = Some d /\ stop <= d
  | Some (RHash _) => False
  end.

(** [n] the increments so far, which bound every count. *)
Record related (t n : Z) (s : CounterStore R) (sp : MemCounter.spec) : Prop := {
  rel_open : closed s = false;
  rel_count : forall name key st, plain_name name -> int64_range st -> t < st + win name ->
    counts t (stored (client s) (bkey (keyPrefix s) name key st)) (st + win name) (sp name key st);
  rel_bound : forall name key st, 0 <= sp name key st <= n;
}.

Lemma counts_later t t' x stop v : counts t x stop v -> t <= t' -> t' <= stop -> counts t' x stop v.
Proof.
  unfold counts. intros Hc Ht Hs. destruct x as [[y [d|]]|]; simpl in *; [|done|done].
  destruct (Z.leb_spec t d), (Z.leb_spec t' d); try done; try lia.
  destruct y as [h|b]; [done|]. destruct Hc as (_ & _ & d' & [= <-] & Hd). lia.
Qed.

Lemma related_in_time t t' n s sp : related t n s sp -> t <= t' -> related t' n s sp.
Proof.
  intros [Ho Hc Hb] Ht. split; [done| |done]. intros name key st Hn Hst Hlt.
  eapply counts_later; [apply Hc; [done|done|lia]|done|lia].
Qed.

(** An operation on one key. *)
Lemma related_set t n n' s sp name key st v c :
  related t n s sp -> plain_name name -> int64_range st -> 0 <= v <= n' -> n <= n' ->
  others_kept t (bkey (keyPrefix s) name key st) (stored (client s)) (stored c) ->
  counts t (stored c (bkey (keyPrefix s) name key st)) (st + win name) v ->
  related t n' (with_client s c) (MemCounter.spec_set sp name key st v).
Proof.
  intros [Ho Hc Hb] Hn Hst Hv Hle Hk Hx. split; [done| |].
  - intros name' key' st' Hn' Hst' Hlt. unfold MemCounter.spec_set. cbn [client with_client keyPrefix].
    case_bool_decide as Heq; [by destruct Heq as (-> & -> & ->)|].
    assert (bkey (keyPrefix s) name' key' st' <> bkey (keyPrefix s) name key st) as Hne.
    { intros E. apply Heq. by apply redis_key_inj in E. }
    specialize (Hc name' key' st' Hn' Hst' Hlt). destruct (Hk _ Hne) as [->|[-> Hd]]; [done|].
    unfold counts in *. by rewrite Hd in Hc.
  - intros name' key' st'. unfold MemCounter.spec_set. specialize (Hb name' key' st'). case_bool_decide; lia.
Qed.

(** The clocks agree and the command is answered; the deadline asked for covers
    the window. *)
Definition call_ok (t : Z) (o : MemCounter.op) (e : env) : Prop :=
  t <= now1 e /\ MemCounter.time_ok (now1 e) /\ rtime e = now1 e /\ fault_of e = Works /\
  plain_name (MemCounter.op_name o) /\ 0 < win (MemCounter.op_name o) /\
  0 < seconds_of (win (MemCounter.op_name o)) <= 9223372036 /\
  win (MemCounter.op_name o) <= seconds_of (win (MemCounter.op_name o)) * second.

Lemma incr_tx_spec t k w stop v c :
  counts t (stored c k) stop v -> v < max_int64 -> 0 < seconds_of w <= 9223372036 -> stop <= t + seconds_of w * second ->
  exists c', incr_tx seconds_of t k w c = (Some (v + 1), c') /\ others_kept t k (stored c) (stored c') /\
    counts t (stored c' k) stop (v + 1).
Proof.
  unfold counts, incr_tx. intros Hc Hv Hs Hstop. pose proof (incr_law t k c) as Hi.
  assert (exists c1 d, incr t k c = Some (v + 1, c1) /\ others_kept t k (stored c) (stored c1) /\
    stored c1 k = Some (RString (format_int (v + 1)), d) /\ live t (stored c1 k) <> None) as (c1 & d & -> & Ho & Hk & Hl).
  { destruct (live t (stored c k)) as [[h|b]|] eqn:El; [done| |].
    - destruct Hc as (-> & Hv0 & d & Hd & Hsd). cbv beta iota zeta in Hi. rewrite parse_format_int in Hi
        by (unfold int64_range, min_int64; lia).
      rewrite (proj2 (Z.ltb_lt _ _)) in Hi by done. destruct Hi as (c1 & -> & Ho & Hk). exists c1, (Some d).
      rewrite Hd in Hk. split_and!; [done|done|done|]. rewrite Hk. simpl.
      destruct (stored c k) as [[y dy]|]; [|done]. simpl in Hd. subst dy. simpl in El.
      by destruct (t <=? d).
    - subst v. cbv beta iota zeta in Hi. change (0 <? max_int64) with true in Hi. destruct Hi as (c1 & -> & Ho & Hk). exists c1, None. rewrite Hk. done. }
  destruct (expire_law t k (seconds_of w) c1 Hs) as (Ho2 & Hl2 & Hx).
  eexists. split; [done|]. split; [by eapply RedisUsage.others_kept_trans|]. rewrite Hl2.
  assert (live t (stored c1 k) = Some (RString (format_int (v + 1)))) as Hlive.
  { rewrite Hk in *. simpl in *. by destruct d as [d|]; [destruct (t <=? d)|]. }
  rewrite Hlive. split_and!; [done| |].
  - destruct (live t (stored c k)) as [[h|b]|]; [done|lia|lia].
  - rewrite (Hx _ Hlive). simpl. eauto.
Qed.

(** One operation; [n'] bounds the counts after it. *)
Lemma redis_step t n n' o e s sp :
  related t n s sp -> n <= n' -> n <= max_int64 -> call_ok t o e ->
  (forall name key, o = MemCounter.OpIncr name key ->
     sp name key (bucketStart (win name) (now1 e)) < Z.min n' max_int64) ->
  let '(r, s') := store_step o e s in
  let '(v, sp') := MemCounter.spec_step win o (now1 e) sp in
  r = Ok v /\ related (now1 e) n' s' sp'.
Proof.
  intros Hrel Hn' Hmax (Hle & Ht & Hrt & Hf & Hn & Hw & Hsec & Hcover) Hroom. apply (related_in_time _ (now1 e)) in Hrel; [|done].
  pose proof (window_start_range (win (MemCounter.op_name o)) (now1 e) Ht Hw) as [Hst Hin].
  assert (int64_range (bucketStart (win (MemCounter.op_name o)) (now1 e))) as Hsr.
  { unfold MemCounter.time_ok in Ht. unfold int64_range, min_int64. lia. }
  assert (forall name key st, 0 <= sp name key st <= n') as Hbound
    by (intros; pose proof (rel_bound _ _ _ _ Hrel name key st); lia).
  destruct o as [name key|name key|name key]; cbn [MemCounter.op_name] in *; simpl;
    change (MemCounter.bucketStart (win name) (now1 e)) with (bucketStart (win name) (now1 e));
    pose proof (counterKey_bkey s name key (win name) (now1 e) Ht Hw) as Hkey;
    set (st := bucketStart (win name) (now1 e)) in *;
    pose proof (rel_count _ _ _ _ Hrel name key st Hn Hsr ltac:(lia)) as Hc;
    pose proof (rel_bound _ _ _ _ Hrel name key st) as Hv.
  - specialize (Hroom _ _ eq_refl). fold st in Hroom. unfold Incr, isClosed. rewrite (rel_open _ _ _ _ Hrel). destruct (Z.leb_spec (win name) 0); [lia|].
    rewrite Hf, Hrt. fold st. rewrite Hkey.
    destruct (incr_tx_spec (now1 e) (bkey (keyPrefix s) name key st) (win name) _ _ _ Hc ltac:(lia) Hsec ltac:(lia))
      as (c & Hi & Ho & Hc').
    simpl. rewrite Hi. rewrite wrap64_id by (unfold int64_range, min_int64; lia). split; [done|].
    eapply related_set; [done|done|done|lia|lia|exact Ho|exact Hc'].
  - unfold Get, isClosed. rewrite (rel_open _ _ _ _ Hrel). destruct (Z.leb_spec (win name) 0); [lia|].
    rewrite Hf, Hrt. fold st. rewrite Hkey. simpl. rewrite get_law.
    split; [|destruct Hrel; by split]. unfold counts in Hc.
    destruct (live (now1 e) _) as [[h|b]|]; [done| |by rewrite Hc]. destruct Hc as (-> & Hv0 & _). simpl.
    by rewrite parse_format_int by (unfold int64_range, min_int64; lia).
  - unfold Reset, isClosed. rewrite (rel_open _ _ _ _ Hrel). destruct (Z.leb_spec (win name) 0); [lia|].
    rewrite Hf, Hrt. fold st. rewrite Hkey. simpl. split; [done|].
    destruct (del_law (now1 e) (bkey (keyPrefix s) name key st) (client s)) as [Ho Hl].
    eapply related_set; [done|done|done|lia|lia|exact Ho|]. unfold counts. by rewrite Hl.
Qed.

Lemma redis_step_related t n o e s sp :
  related t n s sp -> n < max_int64 -> call_ok t o e ->
  let '(r, s') := store_step o e s in
  let '(v, sp') := MemCounter.spec_step win o (now1 e) sp in
  r = Ok v /\ related (now1 e) (n + 1) s' sp'.
Proof.
  intros Hrel Hmax Hc. apply (redis_step t n (n + 1)); [done|lia|lia|done|].
  intros name key _. pose proof (rel_bound _ _ _ _ Hrel name key (bucketStart (win name) (now1 e))). lia.
Qed.

Fixpoint run (ops : list (MemCounter.op * env)) (s : CounterStore R) : list (result storage_error Z) :=
  match ops with
  | [] => []
  | (o, e) :: ops => let '(r, s') := store_step o e s in r :: run ops s'
  end.

Fixpoint spec_run (ops : list (MemCounter.op * env)) (sp : MemCounter.spec) : list Z :=
  match ops with
  | [] => []
  | (o, e) :: ops => let '(v, sp') := MemCounter.spec_step win o (now1 e) sp in v :: spec_run ops sp'
  end.

Fixpoint ops_ok (t : Z) (ops : list (MemCounter.op * env)) : Prop :=
  match ops with
  | [] => True
  | (o, e) :: ops => call_ok t o e /\ ops_ok (now1 e) ops
  end.

Lemma redis_run_spec ops t n s sp :
  related t n s sp -> ops_ok t ops -> n + Z.of_nat (length ops) <= max_int64 -> run ops s = map Ok (spec_run ops sp).
Proof.
  revert t n s sp; induction ops as [|[o e] ops IH]; intros t n s sp Hrel Hok Hlen; simpl in *; [done|].
  destruct Hok as [Hc Hok]. pose proof (redis_step_related t n o e s sp Hrel ltac:(lia) Hc) as Hs.
  destruct (store_step o e s) as [r s'], (MemCounter.spec_step win o (now1 e) sp) as [v sp'].
  destruct Hs as [-> Hrel']. simpl. f_equal. eapply IH; [exact Hrel'|done|lia].
Qed.

(** C28: The counters of redis and those in memory refine the same window counter:
    from a server without counters of the prefix, in any sequence of increments,
    reads and resets in the order of time, every answer is that of one plain
    count per name, key and window start, as long as the clocks agree and the
    deadline asked for covers the window. *)
Theorem redis_counter_refines_spec (c : R) p ops t :
  (forall name key st, stored c (bkey (keyPrefix (NewCounterStore c p)) name key st) = None) ->
  ops_ok t ops -> Z.of_nat (length ops) <= max_int64 ->
  run ops (NewCounterStore c p) = map Ok (spec_run ops MemCounter.spec_init).
Proof.
  intros Hc Hok Hlen. apply (redis_run_spec ops t 0); [|done|lia]. split; [done| |done].
  intros name key st _ _ _. unfold counts. change (client (NewCounterStore c p)) with c. by rewrite Hc.
Qed.

End Counting.

#[local] Existing Instances MapRedis.MapRedis_ops MapRedis.MapRedis_laws.

Definition at_s (s : Z) : env := MkEnv (s * second) (s * second) (s * second) Works.
Definition sample_ops : list (MemCounter.op * env) :=
  [(MemCounter.OpIncr "req" "1.1.1.1:x", at_s 100); (MemCounter.OpIncr "req" "1.1.1.1:x", at_s 105);
   (MemCounter.OpIncr "req" "1.1.1.1", at_s 106); (MemCounter.OpGet "req" "1.1.1.1:x", at_s 109);
   (MemCounter.OpGet "req" "1.1.1.1:x", at_s 110); (MemCounter.OpIncr "req" "1.1.1.1:x", at_s 500)].

(** Whole seconds, at least one. *)
Definition whole_seconds (d : Z) : Z := Z.max 1 (d / second).

Lemma redis_counter_refines_spec_witness :
  run whole_seconds (fun _ => 10 * second) sample_ops (NewCounterStore MapRedis.empty_server "") =
  [Ok 1; Ok 2; Ok 1; Ok 2; Ok 0; Ok 1].
Proof.
  rewrite (redis_counter_refines_spec whole_seconds (fun _ => 10 * second) MapRedis.empty_server "" sample_ops 0).
  - vm_compute. reflexivity.
  - intros name key st. reflexivity.
  - assert (plain_name "req") as Hp by (unfold plain_name; vm_compute; set_solver by lia).
    unfold sample_ops, ops_ok, call_ok, MemCounter.time_ok, max_int64; simpl. split_and!; done.
  - vm_compute. discriminate.
Defined.

(** A window that is not whole seconds outlives its key: after a second without
    an increment the count is forgotten. *)
Example short_deadline :
  run whole_seconds (fun _ => 1900000000) [(MemCounter.OpIncr "req" "k", MkEnv 0 0 0 Works);
    (MemCounter.OpGet "req" "k", MkEnv 1500000000 1500000000 1500000000 Works)]
    (NewCounterStore MapRedis.empty_server "") = [Ok 1; Ok 0].
Proof. vm_compute. reflexivity. Qed.

End RedisCounter.
