(* ===== verification/Instrumented.v ===== *)
(** * Instrumented stores ([internal/storage/instrumented.go])

    A store wrapped to count its calls by driver, operation and outcome.  The
    counts are a list, newest last; the latencies observed beside them are left
    out. *)

From S2P Require Import Prelude Storage.

(** The labels of one count. *)
Definition labels : Type := string * string * string.

Definition outcome {A} (r : result storage_error A) : string := match r with Ok _ => "ok" | Err _ => "err" end.

(** [ErrNotFound] counts as a success. *)
Definition ignoreNotFound {A} (r : result storage_error A) : result storage_error unit :=
  match r with Ok _ | Err ErrNotFound => Ok tt | Err e => Err e end.

(** [instrumentedUsage], and [instrumentedCounter]. *)
Record instrumented (S : Type) := MkInstrumented { driver : string; operations : list labels; next : S }.
Arguments MkInstrumented {S} _ _ _.
Arguments driver {S} _.
Arguments operations {S} _.
Arguments next {S} _.

(** A nil container returns the store as it is. *)
Inductive wrapped (S : Type) := Plain (s : S) | Counted (s : instrumented S).
Arguments Plain {S} _.
Arguments Counted {S} _.

Definition InstrumentUsage {S} (drv : string) (metrics : bool) (s : S) : wrapped S :=
  if metrics then Counted (MkInstrumented drv [] s) else Plain s.
Definition InstrumentCounter {S} (drv : string) (metrics : bool) (s : S) : wrapped S :=
  if metrics then Counted (MkInstrumented drv [] s) else Plain s.

(** The call's result and the wrapped store after it, counted. *)
Definition observe {S A B} (op : string) (count : result storage_error A -> result storage_error B)
    (s : instrumented S) (call : result storage_error A * S) : result storage_error A * instrumented S :=
  let '(r, s') := call in
  (r, MkInstrumented (driver s) (operations s ++ [(driver s, op, outcome (count r))]) s').

Definition unwrap {S} (s : wrapped S) : S := match s with Plain s => s | Counted s => next s end.

(** A call of either kind of store. *)
Definition through {S A B} (op : string) (count : result storage_error A -> result storage_error B)
    (call : S -> result storage_error A * S) (s : wrapped S) : result storage_error A * wrapped S :=
  match s with
  | Plain s => let '(r, s) := call s in (r, Plain s)
  | Counted s => let '(r, s) := observe op count s (call (next s)) in (r, Counted s)
  end.

Definition map_next {S} (f : S -> S) (s : wrapped S) : wrapped S :=
  match s with
  | Plain s => Plain (f s)
  | Counted s => Counted (MkInstrumented (driver s) (operations s) (f (next s)))
  end.

Section Usage.
Context {S : Type} `{UsageStore S}.

Definition Consume (e : us_env) (inp : ConsumeInput) : wrapped S -> result storage_error ConsumeResult * wrapped S :=
  through "consume" id (us_consume e inp).
Definition Get (e : us_env) (i : string) : wrapped S -> result storage_error UsageRecord * wrapped S :=
  through "get" ignoreNotFound (us_get e i).
Definition CleanupExpired (e : us_env) (before : Z) : wrapped S -> result storage_error Z * wrapped S :=
  through "cleanup_expired" id (us_cleanup e before).
Definition Close : wrapped S -> wrapped S := map_next us_close.

#[export] Instance wrapped_usage : UsageStore (wrapped S) := {|
  us_env := us_env;
  us_consume := Consume;
  us_get := Get;
  us_cleanup := CleanupExpired;
  us_close := Close;
|}.

(** The capability of the store is the wrapper's: [CountActive], counted. *)
Definition CountActive `{!ActiveCounter S} (e : us_env (S := S)) : wrapped S -> result storage_error Z * wrapped S :=
  through "count_active" id (fun s : S => (us_count_active e s, s)).

End Usage.

Section Counter.
Context {S : Type} `{CounterStore S}.

Definition Incr (e : cs_env) (name key : string) (w : Z) : wrapped S -> result storage_error (Z * Z) * wrapped S :=
  through "counter_incr" id (cs_incr e name key w).
Definition Get_counter (e : cs_env) (name key : string) (w : Z) : wrapped S -> result storage_error Z * wrapped S :=
  through "counter_get" id (cs_get e name key w).
Definition Reset (e : cs_env) (name key : string) (w : Z) : wrapped S -> result storage_error unit * wrapped S :=
  through "counter_reset" id (cs_reset e name key w).
Definition Close_counter : wrapped S -> wrapped S := map_next cs_close.

#[export] Instance wrapped_counter : CounterStore (wrapped S) := {|
  cs_env := cs_env;
  cs_incr := Incr;
  cs_get := Get_counter;
  cs_reset := Reset;
  cs_close := Close_counter;
|}.

End Counter.

(** ** Transparency *)

Definition counted {S} (s : wrapped S) : list labels := match s with Plain _ => [] | Counted s => operations s end.

Lemma through_spec {S A B} op (count : result storage_error A -> result storage_error B) call (s : wrapped S) :
  let '(r, s') := through op count call s in
  (r, unwrap s') = call (unwrap s) /\
  counted s' = counted s ++ match s with Plain _ => [] | Counted i => [(driver i, op, outcome (count r))] end.
Proof.
  destruct s as [s|i]; simpl; [by destruct (call s)|]. by destruct (call (next i)).
Qed.

Lemma through_call {S A B} op (count : result storage_error A -> result storage_error B) call (s s' : wrapped S) r :
  through op count call s = (r, s') -> call (unwrap s) = (r, unwrap s').
Proof.
  intros E. pose proof (through_spec op count call s) as Ht. rewrite E in Ht. symmetry. apply Ht.
Qed.

(** A wrapped store keeps the contract its store keeps: what is proved of the
    service on any such store holds with the metrics on. *)
Definition wrapped_laws {S} `{Hl : UsageStoreLaws S} : UsageStoreLaws (wrapped S).
Proof.
  refine {| us_inv s := us_inv (unwrap s); us_view s := us_view (unwrap s); us_time := us_time (S := S);
            us_grace := us_grace (S := S); us_call_ok := us_call_ok (S := S) |}.
  - intros e inp s r s' Hi Hc E. apply through_call in E. by eapply us_consume_law.
  - intros e i s r s' Hi E. apply through_call in E. by eapply us_get_law.
  - intros e before s r s' Hi E. apply through_call in E. by eapply us_cleanup_law.
Defined.

(** Instrumentation is transparent: a wrapped usage store answers what its
    store answers and leaves it in the same state, and counts each call exactly
    once under its driver and operation, a record that is not there as a
    success; without a metrics container nothing is counted. *)
Theorem instrumentation_transparent {S} `{UsageStore S} (s : wrapped S) (e : us_env (S := S)) inp i before :
  let label (op o : string) : list labels := match s with Plain _ => [] | Counted st => [(driver st, op, o)] end in
  (let '(r, s') := us_consume (S := wrapped S) e inp s in
   (r, unwrap s') = us_consume (S := S) e inp (unwrap s) /\ counted s' = counted s ++ label "consume" (outcome r)) /\
  (let '(r, s') := us_get (S := wrapped S) e i s in
   (r, unwrap s') = us_get (S := S) e i (unwrap s) /\
   counted s' = counted s ++ label "get" (match r with Err ErrNotFound => "ok" | r => outcome r end)) /\
  (let '(r, s') := us_cleanup (S := wrapped S) e before s in
   (r, unwrap s') = us_cleanup (S := S) e before (unwrap s) /\ counted s' = counted s ++ label "cleanup_expired" (outcome r)) /\
  unwrap (us_close (S := wrapped S) s) = us_close (S := S) (unwrap s) /\ counted (us_close (S := wrapped S) s) = counted s.
Proof.
  intros label. split; [|split; [|split; [|split]]].
  - apply (through_spec "consume" id (us_consume e inp) s).
  - pose proof (through_spec "get" ignoreNotFound (us_get e i) s) as Ht.
    cbn [us_get wrapped_usage]. unfold Get.
    destruct (through _ _ _ s) as [r s']. destruct Ht as [-> ->]. split; [done|]. f_equal. unfold label.
    destruct s; [done|]. by destruct r as [|[]].
  - apply (through_spec "cleanup_expired" id (us_cleanup e before) s).
  - by destruct s.
  - by destruct s.
Qed.
