(* ===== verification/Cidr.v ===== *)
(** * Networks

    What the program uses of [net]: [ParseCIDR] and [IPNet.Contains] ([IPNet_Contains]), on
    addresses as byte strings. *)

From S2P Require Import Prelude GoStrings Strconv Netip.

Record IPNet := MkNet { netIP : list Z; netMask : list Z }.

Definition v4_prefix : list Z := [0; 0; 0; 0; 0; 0; 0; 0; 0; 0; 255; 255].

(** [addr.As16] and [addr.AsSlice]. *)
Definition as16 (a : addr) : list Z :=
  match a with Addr4 b => v4_prefix ++ b | Addr6 b _ => b end.
Definition as_slice (a : addr) : list Z :=
  match a with Addr4 b => b | Addr6 b _ => b end.
Definition bit_len (a : addr) : Z := match a with Addr4 _ => 32 | Addr6 _ _ => 128 end.
Definition zone (a : addr) : string := match a with Addr4 _ => "" | Addr6 _ z => z end.

(** [dtoi]: the leading digits as a number below [0xFFFFFF], and the rest. *)
Fixpoint dtoi_loop (l : list Z) (n : Z) : option (Z * list Z) :=
  match l with
  | c :: l' =>
      if is_digit c then
        let n := n * 10 + (c - 48) in if 16777215 <=? n then None else dtoi_loop l' n
      else Some (n, l)
  | [] => Some (n, [])
  end.
Definition dtoi (l : list Z) : option (Z * list Z) :=
  match l with
  | c :: _ => if is_digit c then dtoi_loop l 0 else None
  | [] => None
  end.

(** [CIDRMask]: [n] ones over [len] bytes. *)
Fixpoint cidr_mask (len : nat) (n : Z) : list Z :=
  match len with
  | O => []
  | S len => (if 8 <=? n then 255 else if 0 <? n then 256 - 2 ^ (8 - n) else 0)
             :: cidr_mask len (n - 8)
  end.

Definition and_bytes (l m : list Z) : list Z := zip_with Z.land l m.

(** [IP.To4]. *)
Definition to4 (ip : list Z) : option (list Z) :=
  if (length ip =? 4)%nat then Some ip
  else if (length ip =? 16)%nat && bool_decide (take 12 ip = v4_prefix) then Some (drop 12 ip)
  else None.

(** [IP.Mask] on a 16-byte address. *)
Definition mask16 (ip mask : list Z) : list Z :=
  if (length mask =? 4)%nat then
    (if bool_decide (take 12 ip = v4_prefix) then and_bytes (drop 12 ip) mask else [])
  else and_bytes ip mask.

Definition ParseCIDR (s : string) : option IPNet :=
  let l := bytes_of s in
  match index_byte 47 l with
  | None => None
  | Some i =>
      match ParseAddr (of_bytes (take i l)), dtoi (drop (S i) l) with
      | Some a, Some (n, []) =>
          if negb (zone a =? "")%string || (bit_len a <? n) then None
          else
            let m := cidr_mask (Z.to_nat (bit_len a / 8)) n in
            Some (MkNet (mask16 (as16 a) m) m)
      | _, _ => None
      end
  end.

(** [networkNumberAndMask]. *)
Definition network_number_and_mask (n : IPNet) : option (list Z * list Z) :=
  let ip := match to4 (netIP n) with
            | Some ip => Some ip
            | None => if (length (netIP n) =? 16)%nat then Some (netIP n) else None
            end in
  match ip with
  | None => None
  | Some ip =>
      if (length (netMask n) =? 4)%nat then
        (if (length ip =? 4)%nat then Some (ip, netMask n) else None)
      else if (length (netMask n) =? 16)%nat then
        Some (ip, if (length ip =? 4)%nat then drop 12 (netMask n) else netMask n)
      else None
  end.

Definition IPNet_Contains (n : IPNet) (ip : list Z) : bool :=
  match network_number_and_mask n with
  | None => (length (default ip (to4 ip)) =? 0)%nat
  | Some (nn, m) =>
      let ip := default ip (to4 ip) in
      (length ip =? length nn)%nat
      && bool_decide (and_bytes nn m = and_bytes ip m)
  end.

(** ** Membership is agreement on the leading bits *)

Definition prefix_bits (b : list Z) (n : Z) : Z := be_value b / 2 ^ (8 * Z.of_nat (length b) - n).

Lemma byte_mask_spec x n : is_byte x -> 0 <= n < 8 ->
  Z.land x (if 0 <? n then 256 - 2 ^ (8 - n) else 0) = x / 2 ^ (8 - n) * 2 ^ (8 - n).
Proof.
  intros Hx Hn.
  assert (forallb (fun x => forallb (fun n =>
    Z.land x (if 0 <? n then 256 - 2 ^ (8 - n) else 0) =? x / 2 ^ (8 - n) * 2 ^ (8 - n))
    [0;1;2;3;4;5;6;7]) (map Z.of_nat (seq 0 256)) = true) as E by (vm_compute; reflexivity).
  rewrite forallb_forall in E. specialize (E x). rewrite forallb_forall in E.
  apply Z.eqb_eq, E.
  - rewrite <- (Z2Nat.id x) by (unfold is_byte in Hx; lia).
    apply in_map, in_seq. unfold is_byte in Hx. lia.
  - assert (n = 0 \/ n = 1 \/ n = 2 \/ n = 3 \/ n = 4 \/ n = 5 \/ n = 6 \/ n = 7) by lia.
    simpl. intuition lia.
Qed.

Lemma land_255 x : is_byte x -> Z.land x 255 = x.
Proof. intros Hx. change 255 with (Z.ones 8). rewrite Z.land_ones by lia.
  apply Z.mod_small. exact Hx. Qed.

Lemma cidr_mask_zero len l : (length l = len)%nat -> forall k, k <= 0 ->
  and_bytes l (cidr_mask len k) = repeat 0 len.
Proof.
  revert l; induction len as [|len IH]; intros [|x l] Hl k Hk; simpl in *; try done; try lia.
  destruct (Z.leb_spec 8 k); [lia|]. destruct (Z.ltb_spec 0 k); [lia|].
  rewrite Z.land_0_r. f_equal. apply IH; lia.
Qed.

Lemma div_top x v k : 0 <= v < 2 ^ k -> 0 <= k -> (x * 2 ^ k + v) / 2 ^ k = x.
Proof. intros Hv Hk. rewrite Z.div_add_l by lia. rewrite Z.div_small by lia. lia. Qed.

Lemma masked_eq a b n :
  Forall is_byte a -> Forall is_byte b -> length a = length b ->
  0 <= n <= 8 * Z.of_nat (length a) ->
  and_bytes a (cidr_mask (length a) n) = and_bytes b (cidr_mask (length a) n) <->
  prefix_bits a n = prefix_bits b n.
Proof.
  intros Ha; revert b n; induction Ha as [|x a Hx Ha IH]; intros b n Hb Hl Hn.
  { destruct b; [|done]. split; done. }
  destruct Hb as [|y b Hy Hb]; [done|]. injection Hl as Hl. cbn [length] in Hn.
  set (L := 8 * Z.of_nat (length a)).
  pose proof (be_value_range _ Ha) as Ra. pose proof (be_value_range _ Hb) as Rb.
  rewrite <- Hl in Rb. fold L in Ra, Rb.
  unfold prefix_bits. rewrite !be_value_cons. cbn [length]. rewrite <- Hl.
  replace (8 * Z.of_nat (S (length a)) - n) with (L + (8 - n)) by lia. fold L.
  unfold and_bytes. cbn [cidr_mask zip_with]. fold (and_bytes a (cidr_mask (length a) (n - 8))).
  fold (and_bytes b (cidr_mask (length a) (n - 8))).
  destruct (Z.leb_spec 8 n).
  - rewrite !land_255 by done. specialize (IH b (n - 8) Hb Hl ltac:(lia)).
    replace (L + (8 - n)) with (L - (n - 8)) by lia.
    unfold prefix_bits in IH. rewrite <- Hl in IH. fold L in IH.
    assert (Hd : forall z v, 0 <= v < 2 ^ L ->
      (z * 2 ^ L + v) / 2 ^ (L - (n - 8)) = z * 2 ^ (n - 8) + v / 2 ^ (L - (n - 8))).
    { intros z v Hv. replace (2 ^ L) with (2 ^ (n - 8) * 2 ^ (L - (n - 8)))
        by (rewrite <- Z.pow_add_r by lia; f_equal; lia).
      rewrite Z.mul_assoc, Z.div_add_l by lia. done. }
    rewrite !Hd by done.
    assert (Hq : forall v, 0 <= v < 2 ^ L -> 0 <= v / 2 ^ (L - (n - 8)) < 2 ^ (n - 8)).
    { intros v Hv. split; [apply Z.div_pos; lia|]. apply Z.div_lt_upper_bound; [lia|].
      rewrite <- Z.pow_add_r by lia. replace (L - (n - 8) + (n - 8)) with L by lia. lia. }
    pose proof (Hq _ Ra). pose proof (Hq _ Rb).
    split.
    + intros [= -> E]. apply IH in E. lia.
    + intros E. assert (x = y) as -> by nia. f_equal. apply IH. lia.
  - rewrite !byte_mask_spec by (done || lia).
    rewrite !cidr_mask_zero by (done || lia).
    assert (Hd : forall z v, 0 <= v < 2 ^ L -> (z * 2 ^ L + v) / 2 ^ (L + (8 - n)) = z / 2 ^ (8 - n)).
    { intros z v Hv. rewrite Z.pow_add_r, <- Z.div_div by lia. by rewrite div_top by lia. }
    rewrite !Hd by done. pose proof (Z.pow_pos_nonneg 2 (8 - n) ltac:(lia) ltac:(lia)).
    split; [intros [= E]; nia|intros ->; done].
Qed.

Lemma and_bytes_idem l m : and_bytes (and_bytes l m) m = and_bytes l m.
Proof.
  revert m; induction l as [|x l IH]; intros [|y m]; simpl; [done..|].
  rewrite <- Z.land_assoc, Z.land_diag. f_equal. apply IH.
Qed.

Lemma cidr_mask_length len n : length (cidr_mask len n) = len.
Proof. revert n; induction len; intros n; simpl; auto. Qed.

Lemma and_bytes_length l m : length l = length m -> length (and_bytes l m) = length l.
Proof. intros. unfold and_bytes. rewrite length_zip_with. lia. Qed.

(** The network of [a/n]. *)
Definition net_of (a : addr) (n : Z) : IPNet :=
  let m := cidr_mask (Z.to_nat (bit_len a / 8)) n in MkNet (mask16 (as16 a) m) m.

Lemma to4_four l : length l = 4%nat -> to4 l = Some l.
Proof. intros E. unfold to4. by rewrite E. Qed.

Lemma to4_sixteen l : length l = 16%nat ->
  to4 l = if bool_decide (take 12 l = v4_prefix) then Some (drop 12 l) else None.
Proof. intros E. unfold to4. by rewrite E. Qed.

(** Membership of an address in an IPv4 network: the address, mapped forms
    included, is IPv4 and agrees with the network on its first [n] bits. *)
Lemma IPNet_Contains_v4 b n ip :
  addr_ok (Addr4 b) -> addr_ok ip -> 0 <= n <= 32 ->
  IPNet_Contains (net_of (Addr4 b) n) (as_slice ip) = true <->
  exists c, Unmap ip = Addr4 c /\ prefix_bits c n = prefix_bits b n.
Proof.
  intros [Hb Fb] Hip Hn. unfold net_of, mask16. change (Z.to_nat (bit_len (Addr4 b) / 8)) with 4%nat.
  rewrite cidr_mask_length. cbn [Nat.eqb as16].
  set (m := cidr_mask 4 n). assert (length m = 4%nat) as Hm by apply cidr_mask_length.
  assert (length (and_bytes b m) = 4%nat) as Hbm by (rewrite and_bytes_length; lia).
  rewrite bool_decide_eq_true_2 by (by rewrite take_app_length').
  rewrite drop_app_length' by done.
  unfold IPNet_Contains, network_number_and_mask. cbn [netIP netMask].
  rewrite (to4_four _ Hbm), Hbm, Hm. cbn [Nat.eqb]. cbv iota beta. rewrite Hbm, and_bytes_idem.
  assert (Hfour : forall c, length c = 4%nat -> Forall is_byte c ->
    (and_bytes b m = and_bytes c m <-> prefix_bits c n = prefix_bits b n)).
  { intros c Hc Fc. pose proof (masked_eq b c n Fb Fc ltac:(lia) ltac:(lia)) as Hq.
    rewrite Hb in Hq. fold m in Hq. rewrite Hq. split; congruence. }
  destruct ip as [c|c z]; destruct Hip as [Hc Fc]; cbn [as_slice Unmap].
  - rewrite (to4_four c Hc). cbn [from_option id]. rewrite Hc. cbn [Nat.eqb andb].
    rewrite bool_decide_eq_true, Hfour by done. naive_solver.
  - rewrite (to4_sixteen c Hc). unfold v4_prefix. case_bool_decide as Hp; cbn [from_option id].
    + assert (length (drop 12 c) = 4%nat) as Hd by (rewrite length_drop; lia).
      rewrite Hd. cbn [Nat.eqb andb]. rewrite bool_decide_eq_true.
      rewrite Hfour; [naive_solver|done|by apply Forall_drop].
    + rewrite Hc. cbn [Nat.eqb andb]. naive_solver.
Qed.
