(* ===== verification/Config.v ===== *)
(** * Configuration data and defaults ([internal/config])

    The configuration tree of [config.go] and [applyDefaults].  Durations are
    nanoseconds; an optional boolean is a pointer that may be nil. *)

From S2P Require Import Prelude GoTime.

(** ** The configuration tree ([config.go]) *)

Record ServerConfig := MkServer {
  sListen : string; sReadTimeout : Z; sWriteTimeout : Z; sIdleTimeout : Z; sShutdownTimeout : Z;
}.

Record ModeConfig := MkMode {
  mEnabled : bool;
  mMinDifficulty : Z;
  mMaxDifficulty : Z;
  mMaxTTLSeconds : Z;
  mRequireIP : bool;
  mCountUsage : bool;
  mMaxUses : Z;
  mCountHeadRequest : bool;
}.

Record ModesConfig := MkModes { mIPBound : ModeConfig; mGeneric : ModeConfig }.

Record PowConfig := MkPow {
  pEnabled : option bool;
  pDryRun : bool;
  pBypassAll : bool;
  pTokenParam : string;
  pSignParam : string;
  pMaxTokenLength : Z;
  pMaxSignLength : Z;
  pAlgorithm : string;
  pPublicSalt : string;
  pAllowEmptySalt : bool;
  pAllowedPreviousSalts : list string;
  pModes : ModesConfig;
}.

Record ProtectionConfig := MkProtection {
  ProtectedExtensions : list string;
  ProtectedPaths : list string;
  ExcludedPaths : list string;
}.

Record PostgresConfig := MkPostgres { pgDSN : string; pgMaxOpenConns : Z; pgMaxIdleConns : Z }.
Record RedisConfig := MkRedis { rdAddr : string; rdPassword : string; rdDB : Z; rdKeyPrefix : string }.

Record StorageConfig := MkStorage {
  stDriver : string; stCounterDriver : string; stPostgres : PostgresConfig; stRedis : RedisConfig;
}.

Record CounterWhenConfig := MkWhen {
  whIsProtected : option bool;
  whIsRangeRequest : option bool;
  whPowStatus : string;
  whPowMode : string;
}.

Record CounterConfig := MkCounter {
  ccKey : string; ccWindow : Z; ccWhen : CounterWhenConfig; ccStorage : string;
}.

Record CounterMatch := MkCounterMatch { cmName : string; cmOp : string; cmValue : Z }.

Record MatchConfig := MkMatch {
  mcPathRegex : string;
  mcPathPrefix : string;
  mcExtensionIn : list string;
  mcMethodIn : list string;
  mcIPCIDRIn : list string;
  mcUserAgentRegex : string;
  mcPowStatus : string;
  mcPowStatusIn : list string;
  mcPowMode : string;
  mcIsProtected : option bool;
  mcIsRangeRequest : option bool;
  mcCounter : option CounterMatch;
  mcRiskScoreGte : option Z;
}.

Record RuleConfig := MkRule {
  rlName : string;
  rlMatch : MatchConfig;
  rlTarget : string;
  rlChain : string;
  rlStatus : Z;
  rlLimitRate : string;
  rlReason : string;
  rlMark : string;
}.

Record PolicyConfig := MkPolicy {
  plTarget : string; plStatus : Z; plLimitRate : string; plReason : string;
}.

Record ChainConfig := MkChain { chPolicy : PolicyConfig; chRules : list RuleConfig }.

Record PendingConfig := MkPending { pdEnabled : option bool; pdMaxPerIP : Z; pdBlockTTL : Z }.

Record RiskControlConfig := MkRisk {
  rcEnabled : bool;
  rcPending : PendingConfig;
  rcCounters : gmap string CounterConfig;
  rcChains : gmap string ChainConfig;
}.

Record LoggingConfig := MkLogging {
  lgLevel : string;
  lgFormat : string;
  lgLogAccess : option bool;
  lgLogDenied : option bool;
  lgHashIP : bool;
  lgLogSalt : string;
}.

Record CleanupConfig := MkCleanup {
  clEnabled : option bool; clInterval : Z; clExpiredGracePeriod : Z;
}.

Record Config := MkConfig {
  cServer : ServerConfig;
  cPow : PowConfig;
  cProtection : ProtectionConfig;
  cStorage : StorageConfig;
  cRiskControl : RiskControlConfig;
  cLogging : LoggingConfig;
  cCleanup : CleanupConfig;
}.

(** ** Defaults ([defaults.go]) *)

(** [if x == "" { x = d }], [if x == 0 { x = d }], [if p == nil { p = &d }]. *)
Definition or_string (x d : string) : string := if (x =? "")%string then d else x.
Definition or_int (x d : Z) : Z := if x =? 0 then d else x.
Definition or_bool (x : option bool) (d : bool) : option bool :=
  match x with None => Some d | Some b => Some b end.

Definition default_mode (ttl uses : Z) (m : ModeConfig) : ModeConfig := {|
  mEnabled := mEnabled m;
  mMinDifficulty := or_int (mMinDifficulty m) 22;
  mMaxDifficulty := or_int (mMaxDifficulty m) 28;
  mMaxTTLSeconds := or_int (mMaxTTLSeconds m) ttl;
  mRequireIP := mRequireIP m;
  mCountUsage := mCountUsage m;
  mMaxUses := if uses =? 0 then mMaxUses m else or_int (mMaxUses m) uses;
  mCountHeadRequest := mCountHeadRequest m;
|}.

Definition applyDefaults (c : Config) : Config := {|
  cServer := let s := cServer c in {|
    sListen := or_string (sListen s) "127.0.0.1:8080";
    sReadTimeout := or_int (sReadTimeout s) (2 * second);
    sWriteTimeout := or_int (sWriteTimeout s) (2 * second);
    sIdleTimeout := or_int (sIdleTimeout s) (30 * second);
    sShutdownTimeout := or_int (sShutdownTimeout s) (5 * second) |};
  cPow := let p := cPow c in {|
    pEnabled := or_bool (pEnabled p) true;
    pDryRun := pDryRun p;
    pBypassAll := pBypassAll p;
    pTokenParam := or_string (pTokenParam p) "token";
    pSignParam := or_string (pSignParam p) "sign";
    pMaxTokenLength := or_int (pMaxTokenLength p) 4096;
    pMaxSignLength := or_int (pMaxSignLength p) 128;
    pAlgorithm := or_string (pAlgorithm p) "sha256";
    pPublicSalt := pPublicSalt p;
    pAllowEmptySalt := pAllowEmptySalt p;
    pAllowedPreviousSalts := pAllowedPreviousSalts p;
    pModes := {| mIPBound := default_mode 86400 0 (mIPBound (pModes p));
                 mGeneric := default_mode 1800 5 (mGeneric (pModes p)) |} |};
  cProtection := cProtection c;
  cStorage := let s := cStorage c in {|
    stDriver := or_string (stDriver s) "memory";
    stCounterDriver := or_string (stCounterDriver s) "memory";
    stPostgres := {| pgDSN := pgDSN (stPostgres s);
                     pgMaxOpenConns := or_int (pgMaxOpenConns (stPostgres s)) 20;
                     pgMaxIdleConns := or_int (pgMaxIdleConns (stPostgres s)) 5 |};
    stRedis := {| rdAddr := or_string (rdAddr (stRedis s)) "127.0.0.1:6379";
                  rdPassword := rdPassword (stRedis s);
                  rdDB := rdDB (stRedis s);
                  rdKeyPrefix := or_string (rdKeyPrefix (stRedis s)) "mirrors-waf" |} |};
  cRiskControl := let r := cRiskControl c in {|
    rcEnabled := rcEnabled r;
    rcPending := {| pdEnabled := or_bool (pdEnabled (rcPending r)) true;
                    pdMaxPerIP := or_int (pdMaxPerIP (rcPending r)) 128;
                    pdBlockTTL := or_int (pdBlockTTL (rcPending r)) hour |};
    rcCounters := rcCounters r;
    rcChains := rcChains r |};
  cLogging := let l := cLogging c in {|
    lgLevel := or_string (lgLevel l) "info";
    lgFormat := or_string (lgFormat l) "json";
    lgLogAccess := or_bool (lgLogAccess l) true;
    lgLogDenied := or_bool (lgLogDenied l) true;
    lgHashIP := lgHashIP l;
    lgLogSalt := lgLogSalt l |};
  cCleanup := let k := cCleanup c in {|
    clEnabled := or_bool (clEnabled k) true;
    clInterval := or_int (clInterval k) (10 * minute);
    clExpiredGracePeriod := or_int (clExpiredGracePeriod k) (24 * hour) |};
|}.

(** The configuration of an empty file, before defaults. *)
Definition zero_mode : ModeConfig := MkMode false 0 0 0 false false 0 false.
Definition zero_config : Config :=
  MkConfig (MkServer "" 0 0 0 0)
    (MkPow None false false "" "" 0 0 "" "" false [] (MkModes zero_mode zero_mode))
    (MkProtection [] [] [])
    (MkStorage "" "" (MkPostgres "" 0 0) (MkRedis "" "" 0 ""))
    (MkRisk false (MkPending None 0 0) ∅ ∅)
    (MkLogging "" "" None None false "")
    (MkCleanup None 0 0).

Lemma or_string_idem x d : or_string (or_string x d) d = or_string x d.
Proof. unfold or_string. destruct (String.eqb_spec x "") as [->|Hx]; [by destruct d|].
  by destruct (String.eqb_spec x ""). Qed.

Lemma or_int_idem x d : or_int (or_int x d) d = or_int x d.
Proof. unfold or_int. destruct (Z.eqb_spec x 0); [destruct (Z.eqb_spec d 0); congruence|].
  by destruct (Z.eqb_spec x 0). Qed.

Lemma or_bool_idem x d : or_bool (or_bool x d) d = or_bool x d.
Proof. by destruct x. Qed.

#[export] Hint Rewrite or_string_idem or_int_idem or_bool_idem : wafsimpl.

Lemma default_mode_idem t u m : default_mode t u (default_mode t u m) = default_mode t u m.
Proof.
  unfold default_mode. simpl. autorewrite with wafsimpl.
  destruct (u =? 0); autorewrite with wafsimpl; done.
Qed.

(** Defaulting is idempotent, so a configuration that went through it once
    (a saved revision, say) is not changed by loading it again; and it decides
    every optional switch, all to on. *)
Theorem applyDefaults_idempotent c :
  applyDefaults (applyDefaults c) = applyDefaults c /\
  is_Some (pEnabled (cPow (applyDefaults c))) /\
  is_Some (pdEnabled (rcPending (cRiskControl (applyDefaults c)))) /\
  is_Some (clEnabled (cCleanup (applyDefaults c))) /\
  pEnabled (cPow (applyDefaults c)) = Some (default true (pEnabled (cPow c))).
Proof.
  split_and!; try (destruct c as [? [[]] ? ? [? [[]] ?] [? ? [] []] [[]]]; simpl; eauto; fail).
  unfold applyDefaults. simpl. rewrite !default_mode_idem. autorewrite with wafsimpl. done.
Qed.
