(* ===== verification/RiskMatcher.v ===== *)
(** * Rule conditions ([internal/risk/matcher.go], [types.go])

    A request as rules see it, the compiled matchers, and [CompileMatcher].
    Counters are read through a resolver that keeps state (a cache, a store), so
    matching passes that state [R] along. *)

From S2P Require Import Prelude GoStrings Netip Cidr Config Matcher.

(** ** Requests *)

(** [CounterResolver]: its one method. *)
Definition CounterResolver (R : Type) : Type := string -> R -> Z * R.

Definition NoopCounterResolver {R} : CounterResolver R := fun _ st => (0, st).

Record RequestContext (R : Type) := MkRequest {
  rqPath : string;
  rqMethod : string;
  rqArgs : string;
  rqIP : string;
  rqUserAgent : string;
  rqHasToken : bool;
  rqHasSign : bool;
  rqPowStatus : string;
  rqPowMode : string;
  rqIsProtected : bool;
  rqIsRangeRequest : bool;
  rqCounters : option (CounterResolver R);
}.
Arguments MkRequest {R} _ _ _ _ _ _ _ _ _ _ _ _.
Arguments rqPath {R} _.
Arguments rqMethod {R} _.
Arguments rqArgs {R} _.
Arguments rqIP {R} _.
Arguments rqUserAgent {R} _.
Arguments rqHasToken {R} _.
Arguments rqHasSign {R} _.
Arguments rqPowStatus {R} _.
Arguments rqPowMode {R} _.
Arguments rqIsProtected {R} _.
Arguments rqIsRangeRequest {R} _.
Arguments rqCounters {R} _.

Section Matchers.
Context `{Unicode, Regexp}.

(** ** Compiled conditions *)

Inductive matcher : Type :=
  | matchAll
  | pathRegexMatcher (re : regexp)
  | pathPrefixMatcher (p : string)
  | extensionMatcher (exts : list string)
  | methodMatcher (methods : gset string)
  | ipCIDRMatcher (nets : list IPNet)
  | uaRegexMatcher (re : regexp)
  | powStatusMatcher (s : string)
  | powStatusInMatcher (s : gset string)
  | powModeMatcher (m : string)
  | boolMatcher (field : string) (want : bool)
  | counterMatcher (c : CounterMatch)
  | andMatcher (parts : list matcher).

(** [path.Ext]: from the last dot of the last segment. *)
Fixpoint path_ext_rev (l acc : list Z) : list Z :=
  match l with
  | [] => []
  | c :: l => if c =? 47 then [] else if c =? 46 then c :: acc else path_ext_rev l (c :: acc)
  end.
Definition path_ext (s : string) : string := of_bytes (path_ext_rev (rev (bytes_of s)) []).

Definition compareCounter (v : Z) (op : string) (target : Z) : bool :=
  if (op =? ">=")%string then target <=? v
  else if (op =? ">")%string then target <? v
  else if (op =? "==")%string then v =? target
  else if (op =? "!=")%string then negb (v =? target)
  else if (op =? "<=")%string then v <=? target
  else if (op =? "<")%string then v <? target
  else false.

Section Matching.
Context {R : Type}.

(** The methods [Match]; the conditions other than counters and conjunctions
    read the request only. *)
Definition match_plain (ctx : RequestContext R) (m : matcher) : bool :=
  match m with
  | matchAll => true
  | pathRegexMatcher re => re_match re (rqPath ctx)
  | pathPrefixMatcher p => HasPrefix (rqPath ctx) p
  | extensionMatcher exts =>
      let ext := ToLower (path_ext (rqPath ctx)) in
      if (ext =? "")%string then false else existsb (fun e => e =? ext)%string exts
  | methodMatcher methods => bool_decide (ToUpper (rqMethod ctx) ∈ methods)
  | ipCIDRMatcher nets =>
      match ParseAddr (rqIP ctx) with
      | None => false
      | Some a => existsb (fun n => IPNet_Contains n (as_slice a)) nets
      end
  | uaRegexMatcher re => re_match re (rqUserAgent ctx)
  | powStatusMatcher s => (rqPowStatus ctx =? s)%string
  | powStatusInMatcher s => bool_decide (rqPowStatus ctx ∈ s)
  | powModeMatcher m => (rqPowMode ctx =? m)%string
  | boolMatcher field want =>
      if (field =? "is_protected")%string then Bool.eqb (rqIsProtected ctx) want
      else if (field =? "is_range_request")%string then Bool.eqb (rqIsRangeRequest ctx) want
      else false
  | counterMatcher _ | andMatcher _ => false
  end.

Fixpoint Match (ctx : RequestContext R) (m : matcher) (st : R) : bool * R :=
  match m with
  | counterMatcher c =>
      match rqCounters ctx with
      | None => (false, st)
      | Some get => let '(v, st) := get (cmName c) st in (compareCounter v (cmOp c) (cmValue c), st)
      end
  | andMatcher parts =>
      (fix all (ps : list matcher) (st : R) : bool * R :=
         match ps with
         | [] => (true, st)
         | p :: ps => let '(b, st) := Match ctx p st in if b then all ps st else (false, st)
         end) parts st
  | m => (match_plain ctx m, st)
  end.

(** The loop of [andMatcher.Match]. *)
Fixpoint match_all_of (ctx : RequestContext R) (ps : list matcher) (st : R) : bool * R :=
  match ps with
  | [] => (true, st)
  | p :: ps => let '(b, st) := Match ctx p st in if b then match_all_of ctx ps st else (false, st)
  end.

Lemma Match_and ctx parts st : Match ctx (andMatcher parts) st = match_all_of ctx parts st.
Proof.
  simpl. revert st; induction parts as [|p ps IH]; intros st; simpl; [done|].
  destruct (Match ctx p st) as [[|] st']; [apply IH|done].
Qed.

End Matching.

(** ** Compilation *)

Inductive compile_error := BadRegex (p : string) | BadCIDR (c : string).

(** [if cond { parts = append(parts, m) }]. *)
Definition part_if (c : bool) (m : matcher) : list matcher := if c then [m] else [].

Definition opt_part {A} (o : option A) (f : A -> matcher) : list matcher :=
  match o with Some a => [f a] | None => [] end.

Definition nonempty {A} (l : list A) : bool := match l with [] => false | _ => true end.

Definition regex_part (p : string) (f : regexp -> matcher) : result compile_error (list matcher) :=
  if (p =? "")%string then Ok []
  else match re_compile p with None => Err (BadRegex p) | Some re => Ok [f re] end.

(** One entry of [extension_in]; [None] when blank. *)
Definition clean_ext (e : string) : option string :=
  let e := ToLower (TrimSpace e) in
  if (e =? "")%string then None
  else Some (if negb (HasPrefix e ".") then ("." +:+ e)%string else e).

Fixpoint parse_cidrs (l : list string) : result compile_error (list IPNet) :=
  match l with
  | [] => Ok []
  | c :: l =>
      match ParseCIDR c with
      | None => Err (BadCIDR c)
      | Some n => ns <-! parse_cidrs l ;; Ok (n :: ns)
      end
  end.

Definition CompileMatcher (m : MatchConfig) : result compile_error matcher :=
  path_re <-! regex_part (mcPathRegex m) pathRegexMatcher ;;
  let path_prefix := part_if (negb (mcPathPrefix m =? "")%string) (pathPrefixMatcher (mcPathPrefix m)) in
  let exts := part_if (nonempty (mcExtensionIn m)) (extensionMatcher (omap clean_ext (mcExtensionIn m))) in
  let methods := part_if (nonempty (mcMethodIn m))
    (methodMatcher (list_to_set (map (fun mm => ToUpper (TrimSpace mm)) (mcMethodIn m)))) in
  nets <-! parse_cidrs (mcIPCIDRIn m) ;;
  let cidrs := part_if (nonempty (mcIPCIDRIn m)) (ipCIDRMatcher nets) in
  ua_re <-! regex_part (mcUserAgentRegex m) uaRegexMatcher ;;
  let status := part_if (negb (mcPowStatus m =? "")%string) (powStatusMatcher (mcPowStatus m)) in
  let status_in := part_if (nonempty (mcPowStatusIn m)) (powStatusInMatcher (list_to_set (mcPowStatusIn m))) in
  let mode := part_if (negb (mcPowMode m =? "")%string) (powModeMatcher (mcPowMode m)) in
  let prot := opt_part (mcIsProtected m) (boolMatcher "is_protected") in
  let range := opt_part (mcIsRangeRequest m) (boolMatcher "is_range_request") in
  let counter := opt_part (mcCounter m) counterMatcher in
  match path_re ++ path_prefix ++ exts ++ methods ++ cidrs ++ ua_re ++ status ++ status_in
        ++ mode ++ prot ++ range ++ counter with
  | [] => Ok matchAll
  | [p] => Ok p
  | parts => Ok (andMatcher parts)
  end.

(** ** What a compiled condition means *)

Section Meaning.
Context {R : Type} (ctx : RequestContext R) (st : R).

Definition regex_holds (p subject : string) : Prop :=
  p <> ""%string -> exists re, re_compile p = Some re /\ re_match re subject = true.

Definition counter_holds (c : CounterMatch) : Prop :=
  exists get, rqCounters ctx = Some get /\
    compareCounter (get (cmName c) st).1 (cmOp c) (cmValue c) = true.

(** Every condition the configuration sets holds of the request; a condition
    left empty says nothing. *)
Record config_matches (m : MatchConfig) : Prop := {
  mm_path : regex_holds (mcPathRegex m) (rqPath ctx);
  mm_prefix : HasPrefix (rqPath ctx) (mcPathPrefix m) = true;
  mm_ext : mcExtensionIn m <> [] ->
    exists e, e ∈ mcExtensionIn m /\ clean_ext e = Some (ToLower (path_ext (rqPath ctx)));
  mm_method : mcMethodIn m <> [] ->
    exists x, x ∈ mcMethodIn m /\ ToUpper (TrimSpace x) = ToUpper (rqMethod ctx);
  mm_cidr : mcIPCIDRIn m <> [] ->
    exists c n a, c ∈ mcIPCIDRIn m /\ ParseCIDR c = Some n /\ ParseAddr (rqIP ctx) = Some a /\
      IPNet_Contains n (as_slice a) = true;
  mm_ua : regex_holds (mcUserAgentRegex m) (rqUserAgent ctx);
  mm_status : mcPowStatus m <> ""%string -> rqPowStatus ctx = mcPowStatus m;
  mm_status_in : mcPowStatusIn m <> [] -> rqPowStatus ctx ∈ mcPowStatusIn m;
  mm_mode : mcPowMode m <> ""%string -> rqPowMode ctx = mcPowMode m;
  mm_prot : forall b, mcIsProtected m = Some b -> rqIsProtected ctx = b;
  mm_range : forall b, mcIsRangeRequest m = Some b -> rqIsRangeRequest ctx = b;
  mm_counter : forall c, mcCounter m = Some c -> counter_holds c;
}.

Definition is_plain (m : matcher) : bool :=
  match m with counterMatcher _ | andMatcher _ => false | _ => true end.

Lemma Match_plain m s : is_plain m = true -> Match ctx m s = (match_plain ctx m, s).
Proof. by destruct m. Qed.

Lemma match_all_plain ps qs s :
  Forall (fun p => is_plain p = true) ps ->
  match_all_of ctx (ps ++ qs) s =
  if forallb (match_plain ctx) ps then match_all_of ctx qs s else (false, s).
Proof.
  induction 1 as [|p ps Hp _ IH]; [done|]. simpl. rewrite Match_plain by done.
  destruct (match_plain ctx p); [exact IH|done].
Qed.

Lemma match_all_counter c s :
  (match_all_of ctx (opt_part c counterMatcher) s).1 = true <->
  forall k, c = Some k -> exists get, rqCounters ctx = Some get /\
    compareCounter (get (cmName k) s).1 (cmOp k) (cmValue k) = true.
Proof.
  destruct c as [k|]; simpl; [|naive_solver].
  destruct (rqCounters ctx) as [get|]; [|naive_solver].
  destruct (get (cmName k) s) as [v s'] eqn:E. destruct (compareCounter v _ _) eqn:Ec; simpl.
  - split; [|done]. intros _ k' [= <-]. exists get. rewrite E. auto.
  - split; [done|]. intros Hk. destruct (Hk k eq_refl) as (g & [= <-] & Hc). rewrite E in Hc.
    simpl in Hc. congruence.
Qed.

Lemma Match_parts parts :
  Match ctx (match parts with [] => matchAll | [p] => p | _ => andMatcher parts end) st = match_all_of ctx parts st.
Proof.
  destruct parts as [|p [|q ps]]; [done| |by rewrite Match_and].
  simpl. destruct (Match ctx p st) as [[|] s]; done.
Qed.

Lemma part_if_holds c m :
  forallb (match_plain ctx) (part_if c m) = true <-> (c = true -> match_plain ctx m = true).
Proof. destruct c; simpl; [rewrite andb_true_r|]; naive_solver. Qed.

Lemma opt_bool_holds o f :
  (f = "is_protected"%string \/ f = "is_range_request"%string) ->
  forallb (match_plain ctx) (opt_part o (boolMatcher f)) = true <->
  (forall b, o = Some b ->
     (if (f =? "is_protected")%string then rqIsProtected ctx else rqIsRangeRequest ctx) = b).
Proof.
  intros [-> | ->]; destruct o as [b|]; simpl; rewrite ?andb_true_r, ?eqb_true_iff; naive_solver.
Qed.

Lemma regex_part_holds p f subj ps :
  (forall re, match_plain ctx (f re) = re_match re subj) ->
  regex_part p f = Ok ps ->
  forallb (match_plain ctx) ps = true <-> regex_holds p subj.
Proof.
  unfold regex_part, regex_holds. intros Hf. destruct (String.eqb_spec p "").
  - intros [= <-]. naive_solver.
  - destruct (re_compile p) as [re|]; [|done]. intros [= <-]. simpl. rewrite andb_true_r, Hf.
    naive_solver.
Qed.

Lemma regex_part_plain p f ps :
  (forall re, is_plain (f re) = true) -> regex_part p f = Ok ps ->
  Forall (fun p => is_plain p = true) ps.
Proof.
  unfold regex_part. intros Hf. destruct (p =? "")%string; [intros [= <-]; done|].
  destruct (re_compile p); [|done]. intros [= <-]. by repeat constructor.
Qed.

Lemma nonempty_true {A} (l : list A) : nonempty l = true <-> l <> [].
Proof. by destruct l. Qed.

Lemma nonempty_string s : negb (s =? "")%string = true <-> s <> ""%string.
Proof. by rewrite negb_true_iff, String.eqb_neq. Qed.

Lemma parse_cidrs_elem l ns n :
  parse_cidrs l = Ok ns -> n ∈ ns <-> exists c, c ∈ l /\ ParseCIDR c = Some n.
Proof.
  revert ns; induction l as [|c l IH]; intros ns; simpl.
  - intros [= <-]. set_solver.
  - destruct (ParseCIDR c) as [m|] eqn:E; [|done].
    destruct (parse_cidrs l) as [ms|]; [|done]. intros [= <-].
    rewrite elem_of_cons, (IH ms eq_refl). setoid_rewrite elem_of_cons. naive_solver.
Qed.

Lemma clean_ext_nonempty e d : clean_ext e = Some d -> d <> ""%string.
Proof.
  unfold clean_ext. destruct (String.eqb_spec (ToLower (TrimSpace e)) "") as [|Hne]; [done|].
  destruct (negb _); intros [= <-]; done.
Qed.

Lemma ext_holds l :
  match_plain ctx (extensionMatcher (omap clean_ext l)) = true <->
  exists e, e ∈ l /\ clean_ext e = Some (ToLower (path_ext (rqPath ctx))).
Proof.
  simpl. destruct (String.eqb_spec (ToLower (path_ext (rqPath ctx))) "") as [E|E].
  - split; [done|]. intros (e & _ & He). by apply clean_ext_nonempty in He.
  - rewrite existsb_eqb_elem, list_elem_of_omap. naive_solver.
Qed.

Lemma method_holds l :
  match_plain ctx (methodMatcher (list_to_set (map (fun mm => ToUpper (TrimSpace mm)) l))) = true <->
  exists x, x ∈ l /\ ToUpper (TrimSpace x) = ToUpper (rqMethod ctx).
Proof.
  simpl. rewrite bool_decide_eq_true, elem_of_list_to_set, list_elem_of_fmap. naive_solver.
Qed.

Lemma cidr_holds l ns :
  parse_cidrs l = Ok ns ->
  match_plain ctx (ipCIDRMatcher ns) = true <->
  exists c n a, c ∈ l /\ ParseCIDR c = Some n /\ ParseAddr (rqIP ctx) = Some a /\
    IPNet_Contains n (as_slice a) = true.
Proof.
  intros Hp. simpl. destruct (ParseAddr (rqIP ctx)) as [a|]; [|naive_solver].
  rewrite existsb_exists. setoid_rewrite <- list_elem_of_In.
  setoid_rewrite (fun n => parse_cidrs_elem l ns n Hp). naive_solver.
Qed.

Lemma status_in_holds l :
  match_plain ctx (powStatusInMatcher (list_to_set l)) = true <-> rqPowStatus ctx ∈ l.
Proof. simpl. by rewrite bool_decide_eq_true, elem_of_list_to_set. Qed.

Lemma plain_part_if c m : is_plain m = true -> Forall (fun p => is_plain p = true) (part_if c m).
Proof. destruct c; simpl; auto. Qed.

Lemma plain_opt_bool o f : Forall (fun p => is_plain p = true) (opt_part o (boolMatcher f)).
Proof. destruct o; simpl; auto. Qed.

(** The parts [CompileMatcher] collects, and the matcher it makes of them. *)
Lemma CompileMatcher_parts m mt :
  CompileMatcher m = Ok mt ->
  exists path_re nets ua_re,
    regex_part (mcPathRegex m) pathRegexMatcher = Ok path_re /\
    parse_cidrs (mcIPCIDRIn m) = Ok nets /\
    regex_part (mcUserAgentRegex m) uaRegexMatcher = Ok ua_re /\
    let plain := path_re
      ++ part_if (negb (mcPathPrefix m =? "")%string) (pathPrefixMatcher (mcPathPrefix m))
      ++ part_if (nonempty (mcExtensionIn m)) (extensionMatcher (omap clean_ext (mcExtensionIn m)))
      ++ part_if (nonempty (mcMethodIn m))
           (methodMatcher (list_to_set (map (fun mm => ToUpper (TrimSpace mm)) (mcMethodIn m))))
      ++ part_if (nonempty (mcIPCIDRIn m)) (ipCIDRMatcher nets)
      ++ ua_re
      ++ part_if (negb (mcPowStatus m =? "")%string) (powStatusMatcher (mcPowStatus m))
      ++ part_if (nonempty (mcPowStatusIn m)) (powStatusInMatcher (list_to_set (mcPowStatusIn m)))
      ++ part_if (negb (mcPowMode m =? "")%string) (powModeMatcher (mcPowMode m))
      ++ opt_part (mcIsProtected m) (boolMatcher "is_protected")
      ++ opt_part (mcIsRangeRequest m) (boolMatcher "is_range_request") in
    Match ctx mt st = match_all_of ctx (plain ++ opt_part (mcCounter m) counterMatcher) st /\
    Forall (fun p => is_plain p = true) plain.
Proof.
  unfold CompileMatcher. intros Hc.
  destruct (regex_part (mcPathRegex m) _) as [pr|] eqn:E1; [|done].
  destruct (parse_cidrs (mcIPCIDRIn m)) as [ns|] eqn:E2; [|done].
  destruct (regex_part (mcUserAgentRegex m) _) as [ur|] eqn:E3; [|done].
  exists pr, ns, ur. split_and!; [done..| |].
  - rewrite <- !app_assoc. rewrite <- Match_parts. f_equal.
    repeat (destruct (_ ++ _) as [|? [|? ?]]; [by injection Hc as <-..|]). by injection Hc as <-.
  - apply regex_part_plain in E1; [|done]. apply regex_part_plain in E3; [|done].
    rewrite !Forall_app. split_and!; auto using plain_part_if, plain_opt_bool.
Qed.

(** A compiled rule condition is the conjunction of what its configuration
    says: it matches a request exactly when every condition that is set holds,
    the counter read last with its current value. *)
Theorem CompileMatcher_spec m mt :
  CompileMatcher m = Ok mt -> (Match ctx mt st).1 = true <-> config_matches m.
Proof.
  intros Hc. destruct (CompileMatcher_parts m mt Hc) as (pr & ns & ur & E1 & E2 & E3 & -> & Hpl).
  rewrite match_all_plain by done.
  assert (forall (b : bool) (x : bool * R) (P : Prop), (x.1 = true <-> P) ->
    (if b then x else (false, st)).1 = true <-> b = true /\ P) as Hif
    by (intros [|] x P HP; simpl; rewrite ?HP; naive_solver).
  rewrite (Hif _ _ _ (match_all_counter (mcCounter m) st)).
  rewrite !forallb_app, !andb_true_iff, !part_if_holds, !nonempty_true, !nonempty_string.
  rewrite (regex_part_holds _ pathRegexMatcher (rqPath ctx) _ (fun _ => eq_refl) E1).
  rewrite (regex_part_holds _ uaRegexMatcher (rqUserAgent ctx) _ (fun _ => eq_refl) E3).
  rewrite !opt_bool_holds by auto. rewrite ext_holds, method_holds, (cidr_holds _ _ E2), status_in_holds.
  simpl String.eqb. cbv iota. unfold match_plain. rewrite !String.eqb_eq.
  split.
  - intros [(?&?&?&?&?&?&?&?&?&?&?) ?]. constructor; auto.
    destruct (decide (mcPathPrefix m = ""%string)) as [->|]; [|auto].
    apply HasPrefix_spec. by exists (rqPath ctx).
  - intros []. split_and!; auto.
Qed.

End Meaning.
End Matchers.

(** ** The theorem at a concrete rule *)

Definition sample_match : MatchConfig :=
  MkMatch "ISO" "" [".iso"%string] ["get"%string] ["10.0.0.0/8"%string] "" "missing" [] "" (Some true) None
    (Some (MkCounterMatch "req" ">=" 3)) None.

Definition sample_request (n : Z) : RequestContext unit :=
  MkRequest "/u.ISO" "GET" "" "10.1.2.3" "curl" false false "missing" "" true false
    (Some (fun _ st => (n, st))).

Definition sample_matcher : @matcher literal_regexp :=
  match @CompileMatcher ascii_unicode literal_regexp sample_match with
  | Ok m => m
  | Err _ => matchAll
  end.

Lemma CompileMatcher_spec_witness :
  @config_matches ascii_unicode literal_regexp unit (sample_request 5) tt sample_match /\
  ~ @config_matches ascii_unicode literal_regexp unit (sample_request 2) tt sample_match.
Proof.
  assert (@CompileMatcher ascii_unicode literal_regexp sample_match = Ok sample_matcher) as Hc
    by (vm_cast_no_check (eq_refl (Ok sample_matcher : result compile_error _))).
  split.
  - apply (@CompileMatcher_spec ascii_unicode literal_regexp unit (sample_request 5) tt _ _ Hc).
    vm_cast_no_check (eq_refl true).
  - intros Hm. apply (@CompileMatcher_spec ascii_unicode literal_regexp unit (sample_request 2) tt _ _ Hc) in Hm.
    assert ((@Match ascii_unicode literal_regexp unit (sample_request 2) sample_matcher tt).1 = false) as Hf
      by (vm_cast_no_check (eq_refl false)).
    congruence.
Defined.
