(* ===== verification/RiskEngine.v ===== *)
(** * The rule engine ([internal/risk/{target,chain,engine,config}.go])

    Chains of rules walked from [INPUT]; a [JUMP] calls another chain.  The walk
    carries the trace, the marks and the visit counts that bound the jumps. *)

From S2P Require Import Prelude GoStrings Config Matcher RiskMatcher.

(** ** Targets ([target.go]) *)

Definition TargetACCEPT : string := "ACCEPT".
Definition TargetREJECT : string := "REJECT".
Definition TargetRATELIMIT : string := "RATE_LIMIT".
Definition TargetTOOMANY : string := "TOO_MANY".
Definition TargetREQUIREPOW : string := "REQUIRE_POW".
Definition TargetJUMP : string := "JUMP".
Definition TargetRETURN : string := "RETURN".
Definition TargetLOG : string := "LOG".
Definition TargetMARK : string := "MARK".

Definition one_of (s : string) (l : list string) : bool := existsb (fun t => t =? s)%string l.

Definition terminal_targets : list string :=
  [TargetACCEPT; TargetREJECT; TargetRATELIMIT; TargetTOOMANY; TargetREQUIREPOW].

Definition isTerminal (target : string) : bool := one_of target terminal_targets.
Definition IsValidRuleTarget (t : string) : bool :=
  one_of t (terminal_targets ++ [TargetJUMP; TargetRETURN; TargetLOG; TargetMARK]).
Definition IsValidPolicyTarget (t : string) : bool := one_of t terminal_targets.

Definition defaultStatusCodeFor (target : string) : Z :=
  if one_of target [TargetACCEPT; TargetRATELIMIT] then 200
  else if one_of target [TargetREJECT; TargetREQUIREPOW] then 403
  else if (target =? TargetTOOMANY)%string then 429
  else 0.

(** ** Decisions ([types.go]) *)

Record Decision := MkDecision {
  dTarget : string;
  dStatusCode : Z;
  dLimitRate : string;
  dReason : string;
  dChain : string;
  dRuleName : string;
  dMarks : list string;
}.

Definition zero_decision : Decision := MkDecision "" 0 "" "" "" "" [].

Record TraceStep := MkStep {
  tsChain : string; tsRule : string; tsMatched : bool; tsTarget : string; tsJumpTo : string;
}.

Record Result := MkResult { resDecision : Decision; resTrace : list TraceStep }.

Section Engine.
Context `{Unicode, Regexp, MapRange}.

(** ** Chains ([chain.go]) *)

Record Rule := MkEngineRule {
  rName : string;
  rMatch : matcher;
  rTarget : string;
  rChain : string;
  rStatus : Z;
  rLimitRate : string;
  rReason : string;
  rMark : string;
}.

Record Policy := MkEnginePolicy { poTarget : string; poStatus : Z; poLimitRate : string; poReason : string }.
Record Chain := MkEngineChain { cName : string; cRules : list Rule; cPolicy : Policy }.
Notation ChainMap := (gmap string Chain).

Record Engine := MkEngine { chains : ChainMap }.

Inductive engine_error :=
  | ErrNoChains
  | ErrChainNotFound (name : string)
  | ErrDisabled
  | ErrChain (name : string) (e : chain_error)
with chain_error :=
  | ErrPolicyTarget (t : string)
  | ErrRule (i : nat) (name : string) (e : rule_error)
with rule_error :=
  | ErrRuleTarget (t : string)
  | ErrMatch (e : compile_error).

Definition NewEngine (cs : ChainMap) : result engine_error Engine :=
  if bool_decide (cs = ∅) then Err ErrNoChains else Ok (MkEngine cs).

(** ** Evaluation ([engine.go]) *)

Definition decisionFromRule (chainName : string) (rule : Rule) : Decision :=
  let status := if rStatus rule =? 0 then defaultStatusCodeFor (rTarget rule) else rStatus rule in
  MkDecision (rTarget rule) status (rLimitRate rule) (rReason rule) chainName (rName rule) [].

Section Evaluation.
Context {R : Type}.

(** [evalState]; [loops] counts the map loops run so far, [res] is the state of
    the counter resolver. *)
Record evalState := MkState {
  trace : list TraceStep;
  marks : list string;
  visited : gmap string Z;
  loops : nat;
  res : R;
}.

Definition with_marks (ms : list string) (d : Decision) : Decision :=
  MkDecision (dTarget d) (dStatusCode d) (dLimitRate d) (dReason d) (dChain d) (dRuleName d) ms.
Definition with_reason (r : string) (d : Decision) : Decision :=
  MkDecision (dTarget d) (dStatusCode d) (dLimitRate d) r (dChain d) (dRuleName d) (dMarks d).

Definition policy_decision (chainName : string) (chain : Chain) : Decision :=
  let p := cPolicy chain in
  MkDecision (poTarget p) (poStatus p) (poLimitRate p) (poReason p) chainName "policy" [].

Definition applyPolicy (chainName : string) (chain : Chain) (st : evalState) : Decision :=
  with_marks (marks st) (policy_decision chainName chain).

(** [lookupChain]: exact first, then the first equal name under case folding in
    the loop's order. *)
Definition find_folded (name : string) (l : list (string * Chain)) : option Chain :=
  snd <$> List.find (fun kv : string * Chain => EqualFold kv.1 name) l.

Definition lookupChain (e : Engine) (name : string) (loop : nat) : option Chain :=
  match chains e !! name with
  | Some c => Some c
  | None => find_folded name (map_range loop (chains e))
  end.

Definition visits (st : evalState) (u : string) : Z := default 0 (visited st !! u).

(** [lookupChain] ran its loop, [visited[upper]++]. *)
Definition next_loop (st : evalState) : evalState :=
  MkState (trace st) (marks st) (visited st) (S (loops st)) (res st).
Definition visit (u : string) (st : evalState) : evalState :=
  MkState (trace st) (marks st) (<[u := visits st u + 1]> (visited st)) (loops st) (res st).
Definition record_step (s : TraceStep) (r : R) (st : evalState) : evalState :=
  MkState (trace st ++ [s]) (marks st) (visited st) (loops st) r.
Definition add_mark (m : string) (st : evalState) : evalState :=
  MkState (trace st) (marks st ++ [m]) (visited st) (loops st) (res st).

Definition max_visits : Z := 8.

(** A walk that ran out of fuel gives [None]. *)
Definition outcome : Type := option (result engine_error Decision).

Section Walk.
Variables (jump : string -> evalState -> outcome * evalState).
Variables (ctx : RequestContext R) (name : string) (chain : Chain).

(** The rule loop of [evalChain], [jump] the recursive call. *)
Fixpoint walk_rules (rules : list Rule) (st : evalState) : outcome * evalState :=
  match rules with
  | [] => (Some (Ok (applyPolicy name chain st)), st)
  | rule :: rules =>
      let '(matched, r) := Match ctx (rMatch rule) (res st) in
      if matched then
        let jumpTo := if (rTarget rule =? TargetJUMP)%string then rChain rule else "" in
        let st := record_step (MkStep name (rName rule) true (rTarget rule) jumpTo) r st in
        if isTerminal (rTarget rule) then
          (Some (Ok (with_marks (marks st) (decisionFromRule name rule))), st)
        else if (rTarget rule =? TargetJUMP)%string then
          let '(o, st) := jump (rChain rule) st in
          match o with
          | None => (None, st)
          | Some (Err e) => (Some (Err e), st)
          | Some (Ok dec) =>
              if isTerminal (dTarget dec) then
                (Some (Ok (if (dReason dec =? "")%string then with_reason (rReason rule) dec else dec)), st)
              else walk_rules rules st
          end
        else if (rTarget rule =? TargetRETURN)%string then
          (Some (Ok (applyPolicy name chain st)), st)
        else if (rTarget rule =? TargetLOG)%string then walk_rules rules st
        else if (rTarget rule =? TargetMARK)%string then
          walk_rules rules (if (rMark rule =? "")%string then st else add_mark (rMark rule) st)
        else walk_rules rules st
      else walk_rules rules (record_step (MkStep name (rName rule) false "" "") r st)
  end.

End Walk.

Definition depth_exceeded (name : string) : Decision :=
  MkDecision TargetREJECT 500 "" "chain_depth_exceeded" name "" [].

Fixpoint evalChain (fuel : nat) (e : Engine) (ctx : RequestContext R) (name : string) (st : evalState)
  : outcome * evalState :=
  match fuel with
  | O => (None, st)
  | S fuel =>
      let found := lookupChain e name (loops st) in
      let st := next_loop st in
      match found with
      | None => (Some (Err (ErrChainNotFound name)), st)
      | Some chain =>
          let upper := ToUpper name in
          let st := visit upper st in
          if max_visits <? visits st upper then (Some (Ok (depth_exceeded name)), st)
          else walk_rules (evalChain fuel e ctx) ctx name chain (cRules chain) st
      end
  end.

(** The chain names a walk can visit, upper-cased: the entry and every jump. *)
Definition jump_names (e : Engine) : list string :=
  flat_map (fun kv : string * Chain => map (fun r => ToUpper (rChain r)) (cRules kv.2))
    (map_to_list (chains e)).

(** Each name is visited eight times at most before the walk is cut. *)
Definition walk_fuel (e : Engine) : nat := S (8 * S (length (jump_names e))).

Definition EvaluateWithEntry (e : Engine) (ctx : RequestContext R) (entry : string) (r0 : R)
  : option (result engine_error Decision) * evalState :=
  let entry := if (entry =? "")%string then "INPUT" else entry in
  let ctx := match rqCounters ctx with
             | Some _ => ctx
             | None => MkRequest (rqPath ctx) (rqMethod ctx) (rqArgs ctx) (rqIP ctx) (rqUserAgent ctx)
                         (rqHasToken ctx) (rqHasSign ctx) (rqPowStatus ctx) (rqPowMode ctx)
                         (rqIsProtected ctx) (rqIsRangeRequest ctx) (Some NoopCounterResolver)
             end in
  let '(o, st) := evalChain (walk_fuel e) e ctx entry (MkState [] [] ∅ 0 r0) in
  match o with
  | Some (Ok d) => (Some (Ok (with_marks (marks st) d)), st)
  | o => (o, st)
  end.

(** The result, with the trace also beside an error; [None] never happens (see
    [Evaluate_total]). *)
Definition Evaluate (e : Engine) (ctx : RequestContext R) (r0 : R)
  : option (result engine_error Result * R) :=
  let '(o, st) := EvaluateWithEntry e ctx "INPUT" r0 in
  match o with
  | None => None
  | Some (Err x) => Some (Err x, res st)
  | Some (Ok d) => Some (Ok (MkResult d (trace st)), res st)
  end.

End Evaluation.

(** ** Compilation ([config.go]) *)

Definition compileRule (rc : RuleConfig) : result rule_error Rule :=
  if negb (IsValidRuleTarget (rlTarget rc)) then Err (ErrRuleTarget (rlTarget rc))
  else
    match CompileMatcher (rlMatch rc) with
    | Err e => Err (ErrMatch e)
    | Ok m => Ok (MkEngineRule (rlName rc) m (rlTarget rc) (rlChain rc) (rlStatus rc) (rlLimitRate rc)
                    (rlReason rc) (rlMark rc))
    end.

Fixpoint compileRules (i : nat) (l : list RuleConfig) : result chain_error (list Rule) :=
  match l with
  | [] => Ok []
  | rc :: l =>
      match compileRule rc with
      | Err e => Err (ErrRule i (rlName rc) e)
      | Ok r => rs <-! compileRules (S i) l ;; Ok (r :: rs)
      end
  end.

Definition compileChain (name : string) (cc : ChainConfig) : result chain_error Chain :=
  let p := chPolicy cc in
  if negb (IsValidPolicyTarget (plTarget p)) then Err (ErrPolicyTarget (plTarget p))
  else
    rs <-! compileRules 0 (chRules cc) ;;
    Ok (MkEngineChain name rs (MkEnginePolicy (plTarget p) (plStatus p) (plLimitRate p) (plReason p))).

Fixpoint compileChains (l : list (string * ChainConfig)) : result engine_error ChainMap :=
  match l with
  | [] => Ok ∅
  | (name, cc) :: l =>
      match compileChain name cc with
      | Err e => Err (ErrChain name e)
      | Ok c => m <-! compileChains l ;; Ok (<[name := c]> m)
      end
  end.

Definition FromConfig (rc : RiskControlConfig) : result engine_error Engine :=
  if negb (rcEnabled rc) then Err ErrDisabled
  else m <-! compileChains (map_range 0 (rcChains rc)) ;; NewEngine m.

End Engine.
