(* ===== verification/RiskEngineTheory.v ===== *)
(** * The rule engine decides

    The walk ends within its fuel; with terminal policies and existing chains it
    gives a terminal verdict; without cycles that verdict is the one a plain
    reading of the chains gives, and the depth cut never happens. *)

From S2P Require Import Prelude GoStrings Config Matcher RiskMatcher RiskEngine.

Section Theory.
Context `{Unicode, Regexp, MapRange}.
Context {R : Type}.
Implicit Types (st : evalState (R := R)) (e : Engine) (ctx : RequestContext R).

Lemma one_of_elem s l : one_of s l = true <-> s ∈ l.
Proof. unfold one_of. apply existsb_eqb_elem. Qed.

(** ** Termination *)

Definition more_visits st st' : Prop := forall u, visits st u <= visits st' u.

(** Two states with the same visits. *)
Ltac same_visits := intros ?u; unfold visits; simpl; lia.

#[local] Instance more_visits_po : PreOrder more_visits.
Proof. split; [intros st u; lia|]. intros a b c Hab Hbc u. specialize (Hab u); specialize (Hbc u). lia. Qed.

Lemma visits_visit u st v :
  visits (visit u st) v = if bool_decide (u = v) then visits st u + 1 else visits st v.
Proof.
  unfold visits at 1. simpl. case_bool_decide as E.
  - subst. by rewrite lookup_insert_eq.
  - by rewrite lookup_insert_ne.
Qed.

Lemma more_visits_visit u st : more_visits st (visit u (next_loop st)).
Proof.
  intros v. rewrite visits_visit. change (visits (next_loop st)) with (visits st).
  case_bool_decide; subst; lia.
Qed.

Section WalkFacts.
Variables (jump : string -> evalState (R := R) -> outcome * evalState (R := R)).
Variables (ctx : RequestContext R) (name : string) (chain : Chain).

Lemma walk_more_visits rules st o st' :
  (forall n s o s', jump n s = (o, s') -> more_visits s s') ->
  walk_rules jump ctx name chain rules st = (o, st') -> more_visits st st'.
Proof.
  intros Hj. revert st; induction rules as [|r rules IH]; intros st Hw; simpl in Hw.
  - injection Hw as <- <-. done.
  - destruct (Match ctx (rMatch r) (res st)) as [[|] r'].
    + destruct (isTerminal (rTarget r)); [injection Hw as <- <-; same_visits|].
      destruct (rTarget r =? TargetJUMP)%string.
      { destruct (jump (rChain r) _) as [o1 s1] eqn:Ej. apply Hj in Ej.
        destruct o1 as [[d|x]|]; [destruct (isTerminal (dTarget d))|..];
          try (injection Hw as <- <-; exact Ej).
        etrans; [exact Ej|]. by apply IH. }
      destruct (rTarget r =? TargetRETURN)%string; [injection Hw as <- <-; same_visits|].
      destruct (rTarget r =? TargetLOG)%string; [by apply IH in Hw|].
      destruct (rTarget r =? TargetMARK)%string; [|by apply IH in Hw].
      apply IH in Hw. by destruct (rMark r =? "")%string.
    + by apply IH in Hw.
Qed.

(** The walk ends if its jumps do, from any later state. *)
Lemma walk_total rules st :
  (forall n s o s', jump n s = (o, s') -> more_visits s s') ->
  (forall r s, r ∈ rules -> more_visits st s -> (jump (rChain r) s).1 <> None) ->
  (walk_rules jump ctx name chain rules st).1 <> None.
Proof.
  intros Hj. revert st; induction rules as [|r rules IH]; intros st Ht; simpl; [done|].
  assert (Hrest : forall s, more_visits st s -> (walk_rules jump ctx name chain rules s).1 <> None).
  { intros s Hs. apply IH. intros r' s' Hin Hs'. apply Ht; [by right|]. by etrans. }
  destruct (Match ctx (rMatch r) (res st)) as [[|] r']; [|apply Hrest; same_visits].
  destruct (isTerminal (rTarget r)); [done|].
  destruct (rTarget r =? TargetJUMP)%string.
  { destruct (jump (rChain r) _) as [o1 s1] eqn:Ej. pose proof (Hj _ _ _ _ Ej) as Hm.
    assert (o1 <> None) as Hne.
    { change o1 with (o1, s1).1. rewrite <- Ej. apply Ht; [by left|same_visits]. }
    destruct o1 as [[d|x]|]; [destruct (isTerminal (dTarget d))|..]; try done.
    apply Hrest. exact Hm. }
  destruct (rTarget r =? TargetRETURN)%string; [done|].
  destruct (rTarget r =? TargetLOG)%string; [apply Hrest; same_visits|].
  destruct (rTarget r =? TargetMARK)%string; [|apply Hrest; same_visits].
  apply Hrest. destruct (rMark r =? "")%string; same_visits.
Qed.

End WalkFacts.

Lemma evalChain_more_visits fuel e ctx name st o st' :
  evalChain fuel e ctx name st = (o, st') -> more_visits st st'.
Proof.
  revert name st o st'; induction fuel as [|fuel IH]; intros name st o st' He; simpl in He.
  - by injection He as <- <-.
  - destruct (lookupChain e name (loops st)) as [c|]; [|injection He as <- <-; same_visits].
    etrans; [apply (more_visits_visit (ToUpper name))|].
    destruct (max_visits <? _); [by injection He as <- <-|]. eapply walk_more_visits; [|exact He]. exact IH.
Qed.

(** How many more visits the names of [U] have left. *)
Fixpoint budget (U : list string) st : Z :=
  match U with [] => 0 | u :: U => Z.max 0 (max_visits - visits st u) + budget U st end.

Lemma budget_mono U st st' : more_visits st st' -> budget U st' <= budget U st.
Proof. intros Hm. induction U as [|u U IH]; simpl; [lia|]. specialize (Hm u). lia. Qed.

Lemma budget_nonneg U st : 0 <= budget U st.
Proof. induction U; simpl; lia. Qed.

Lemma budget_visit U u st :
  u ∈ U -> visits st u < max_visits -> budget U (visit u (next_loop st)) <= budget U st - 1.
Proof.
  intros Hu Hv. induction Hu as [u U|u v U Hu IH]; simpl.
  - rewrite visits_visit, bool_decide_eq_true_2 by done.
    pose proof (budget_mono U _ _ (more_visits_visit u st)).
    change (visits (next_loop st) u) with (visits st u). lia.
  - pose proof (more_visits_visit u st v). specialize (IH Hv). lia.
Qed.

Lemma find_folded_in name l c : find_folded name l = Some c -> exists k, (k, c) ∈ l /\ EqualFold k name = true.
Proof.
  unfold find_folded. destruct (List.find _ l) as [[k c']|] eqn:E; [|done]. intros [= <-].
  apply find_some in E as [Hin Hf]. exists k. by rewrite list_elem_of_In.
Qed.

Lemma lookupChain_in e name loop c : lookupChain e name loop = Some c -> exists k, chains e !! k = Some c.
Proof.
  unfold lookupChain. destruct (chains e !! name) eqn:E; [intros [= <-]; eauto|].
  intros (k & Hk & _)%find_folded_in. apply elem_of_map_range in Hk. eauto.
Qed.

Lemma jump_names_elem e k c r : chains e !! k = Some c -> r ∈ cRules c -> ToUpper (rChain r) ∈ jump_names e.
Proof.
  intros Hk Hr. unfold jump_names. apply list_elem_of_In, in_flat_map. exists (k, c).
  split; [apply list_elem_of_In, elem_of_map_to_list, Hk|].
  apply (in_map (fun r => ToUpper (rChain r))), list_elem_of_In, Hr.
Qed.

Lemma evalChain_total fuel e ctx name st U :
  (forall u, u ∈ jump_names e -> u ∈ U) -> ToUpper name ∈ U ->
  budget U st < Z.of_nat fuel -> (evalChain fuel e ctx name st).1 <> None.
Proof.
  intros HU. revert name st; induction fuel as [|fuel IH]; intros name st Hn Hb.
  { pose proof (budget_nonneg U st). lia. }
  simpl. destruct (lookupChain e name (loops st)) as [c|] eqn:El; [|done].
  destruct (Z.ltb_spec max_visits (visits (visit (ToUpper name) (next_loop st)) (ToUpper name))) as [|Hle]; [done|].
  rewrite visits_visit, bool_decide_eq_true_2 in Hle by done.
  change (visits (next_loop st)) with (visits st) in Hle.
  pose proof (budget_visit U (ToUpper name) st Hn ltac:(lia)) as Hb'.
  apply walk_total; [apply evalChain_more_visits|]. intros r s Hr Hs.
  apply lookupChain_in in El as [k Hk]. apply IH.
  - apply HU. by eapply jump_names_elem.
  - apply (budget_mono U) in Hs. lia.
Qed.

Lemma budget_init U r0 : budget U (MkState [] [] ∅ 0 r0) = 8 * Z.of_nat (length U).
Proof.
  induction U as [|u U IH]; [done|]. cbn [budget length]. rewrite IH.
  unfold visits. simpl visited. rewrite lookup_empty. unfold max_visits. simpl. lia.
Qed.

Lemma Evaluate_runs e ctx entry r0 : (EvaluateWithEntry e ctx entry r0).1 <> None.
Proof.
  unfold EvaluateWithEntry. set (name := if (entry =? "")%string then _ else _).
  set (ctx' := match rqCounters ctx with Some _ => _ | None => _ end).
  pose proof (evalChain_total (walk_fuel e) e ctx' name (MkState [] [] ∅ 0 r0)
    (ToUpper name :: jump_names e)) as Ht.
  destruct (evalChain _ e ctx' name _) as [o st]. cbn [fst] in Ht.
  destruct o as [[d|x]|]; [done|done|]. exfalso. apply Ht; [|by left| |done].
  - intros u Hu. by right.
  - rewrite (budget_init (ToUpper name :: jump_names e)). unfold walk_fuel. cbn [length]. lia.
Qed.

(** Evaluation terminates: whatever the chains, cycles included, the visit
    limit ends the walk within the fuel computed from the engine, so a request
    always gets a decision or an error. *)
Theorem Evaluate_total e ctx entry r0 : (EvaluateWithEntry e ctx entry r0).1 <> None.
Proof. apply Evaluate_runs. Qed.

(** ** Terminal verdicts *)

(** A chain of that name, up to case. *)
Definition exists_chain e (name : string) : Prop :=
  exists k c, chains e !! k = Some c /\ (k = name \/ EqualFold k name = true).

Record engine_ok e : Prop := {
  ok_policy : forall k c, chains e !! k = Some c -> isTerminal (poTarget (cPolicy c)) = true;
  ok_jumps : forall k c r, chains e !! k = Some c -> r ∈ cRules c -> rTarget r = TargetJUMP ->
    exists_chain e (rChain r);
}.

Lemma lookupChain_exists e name loop :
  exists_chain e name -> is_Some (lookupChain e name loop).
Proof.
  intros (k & c & Hk & [->|Hf]); unfold lookupChain; [rewrite Hk; eauto|].
  destruct (chains e !! name); [eauto|]. unfold find_folded.
  destruct (List.find _ _) as [[k' c']|] eqn:E; [simpl; eauto|]. exfalso.
  pose proof (find_none _ _ E (k, c)) as Hn. simpl in Hn. rewrite Hf in Hn.
  assert (true = false); [|done]. apply Hn. apply list_elem_of_In. by apply elem_of_map_range.
Qed.

Definition decides_terminal (o : outcome) : Prop :=
  o = None \/ exists d, o = Some (Ok d) /\ isTerminal (dTarget d) = true.

Lemma jump_not_terminal : isTerminal TargetJUMP = false.
Proof. reflexivity. Qed.

Lemma walk_terminal jump ctx name chain rules st :
  isTerminal (poTarget (cPolicy chain)) = true ->
  (forall r s, r ∈ rules -> rTarget r = TargetJUMP -> decides_terminal (jump (rChain r) s).1) ->
  decides_terminal (walk_rules jump ctx name chain rules st).1.
Proof.
  intros Hp. revert st; induction rules as [|r rules IH]; intros st Hj; simpl.
  { right. eexists. split; [done|exact Hp]. }
  assert (Hrest : forall s, decides_terminal (walk_rules jump ctx name chain rules s).1).
  { intros s. apply IH. intros r' s' Hin. apply Hj. by right. }
  destruct (Match ctx (rMatch r) (res st)) as [[|] r']; [|apply Hrest].
  destruct (isTerminal (rTarget r)) eqn:Et; [right; eexists; split; [done|exact Et]|].
  destruct (String.eqb_spec (rTarget r) TargetJUMP) as [Ej|_].
  { set (s1 := record_step _ _ _). specialize (Hj r s1 ltac:(by left) Ej).
    destruct (jump (rChain r) s1) as [o s2]. simpl in Hj.
    destruct Hj as [->|(d & -> & Hd)]; [by left|]. rewrite Hd. right.
    eexists. split; [done|]. by destruct (dReason d =? "")%string. }
  destruct (rTarget r =? TargetRETURN)%string; [right; eexists; split; [done|exact Hp]|].
  destruct (rTarget r =? TargetLOG)%string; [apply Hrest|].
  destruct (rTarget r =? TargetMARK)%string; apply Hrest.
Qed.

Lemma evalChain_terminal fuel e ctx name st :
  engine_ok e -> exists_chain e name -> decides_terminal (evalChain fuel e ctx name st).1.
Proof.
  intros He. revert name st; induction fuel as [|fuel IH]; intros name st Hn; simpl; [by left|].
  destruct (lookupChain_exists e name (loops st) Hn) as [c Hc]. rewrite Hc.
  destruct (max_visits <? _); [right; eexists; split; [done|reflexivity]|].
  apply lookupChain_in in Hc as [k Hk].
  apply walk_terminal; [by eapply ok_policy|]. intros r s Hr Hj. apply IH. by eapply ok_jumps.
Qed.

(** With terminal policies and existing jump targets, evaluation from an
    existing entry always ends in a terminal verdict: the service never meets a
    [JUMP], a [RETURN] or an unknown target as the answer. *)
Theorem Evaluate_terminal e ctx entry r0 :
  engine_ok e -> exists_chain e (if (entry =? "")%string then "INPUT" else entry) ->
  exists d, (EvaluateWithEntry e ctx entry r0).1 = Some (Ok d) /\ isTerminal (dTarget d) = true.
Proof.
  intros He Hn. pose proof (evalChain_total (walk_fuel e) e) as Ht. unfold EvaluateWithEntry.
  set (name := if (entry =? "")%string then _ else _) in *.
  set (ctx' := match rqCounters ctx with Some _ => _ | None => _ end).
  specialize (Ht ctx' name (MkState [] [] ∅ 0 r0) (ToUpper name :: jump_names e)).
  pose proof (evalChain_terminal (walk_fuel e) e ctx' name (MkState [] [] ∅ 0 r0) He Hn) as Hd.
  destruct (evalChain _ e ctx' name _) as [o st]. cbn [fst] in *.
  destruct Hd as [->|(d & -> & Hd)]; [|eexists; split; [reflexivity|exact Hd]].
  exfalso. apply Ht; [|by left| |done].
  - intros u Hu. by right.
  - rewrite (budget_init (ToUpper name :: jump_names e)). unfold walk_fuel. cbn [length]. lia.
Qed.

(** ** The plain reading of the chains

    [reads name c rules s d ms ts s']: reading [rules] of chain [c], entered as
    [name], with the resolver in [s], the verdict is [d]: the first matching
    rule that decides, a jump standing for the verdict of its chain, the policy
    when no rule decides.  [ms] are the marks of the rules passed on the way, [ts]
    the rules looked at, in order.  No visit counts. *)
Definition resolves e (name : string) (c : Chain) : Prop :=
  chains e !! name = Some c \/
  (chains e !! name = None /\ exists k, chains e !! k = Some c /\ EqualFold k name = true).

Definition passes (t : string) : Prop :=
  isTerminal t = false /\ t <> TargetJUMP /\ t <> TargetRETURN.

Definition fill_reason (r : Rule) (d : Decision) : Decision :=
  if (dReason d =? "")%string then with_reason (rReason r) d else d.

(** The mark a rule leaves, and what the trace says of a rule. *)
Definition marked (r : Rule) : list string :=
  if (rTarget r =? TargetMARK)%string && negb (rMark r =? "")%string then [rMark r] else [].
Definition missed (name : string) (r : Rule) : TraceStep := MkStep name (rName r) false "" "".
Definition hit (name : string) (r : Rule) : TraceStep :=
  MkStep name (rName r) true (rTarget r) (if (rTarget r =? TargetJUMP)%string then rChain r else "").

Inductive reads e ctx : string -> Chain -> list Rule -> R -> Decision -> list string -> list TraceStep -> R -> Prop :=
  | rd_policy name c s : reads e ctx name c [] s (policy_decision name c) [] [] s
  | rd_skip name c r rules s s1 d ms ts s2 :
      Match ctx (rMatch r) s = (false, s1) ->
      reads e ctx name c rules s1 d ms ts s2 -> reads e ctx name c (r :: rules) s d ms (missed name r :: ts) s2
  | rd_pass name c r rules s s1 d ms ts s2 :
      Match ctx (rMatch r) s = (true, s1) -> passes (rTarget r) ->
      reads e ctx name c rules s1 d ms ts s2 ->
      reads e ctx name c (r :: rules) s d (marked r ++ ms) (hit name r :: ts) s2
  | rd_stop name c r rules s s1 :
      Match ctx (rMatch r) s = (true, s1) -> isTerminal (rTarget r) = true ->
      reads e ctx name c (r :: rules) s (decisionFromRule name r) [] [hit name r] s1
  | rd_return name c r rules s s1 :
      Match ctx (rMatch r) s = (true, s1) -> rTarget r = TargetRETURN ->
      reads e ctx name c (r :: rules) s (policy_decision name c) [] [hit name r] s1
  | rd_jump name c r rules s s1 c' d ms ts s2 :
      Match ctx (rMatch r) s = (true, s1) -> rTarget r = TargetJUMP -> resolves e (rChain r) c' ->
      reads e ctx (rChain r) c' (cRules c') s1 d ms ts s2 ->
      reads e ctx name c (r :: rules) s (fill_reason r d) ms (hit name r :: ts) s2.

(** No chain reaches itself: a rank that every jump lowers. *)
Definition acyclic e (rank : string -> nat) : Prop :=
  forall k c r, chains e !! k = Some c -> r ∈ cRules c -> rTarget r = TargetJUMP ->
    (rank (ToUpper (rChain r)) < rank (ToUpper k))%nat.

Lemma lookupChain_resolves e name loop c : lookupChain e name loop = Some c -> resolves e name c.
Proof.
  unfold lookupChain, resolves. destruct (chains e !! name) eqn:E; [by left|].
  intros (k & Hk & Hf)%find_folded_in. apply elem_of_map_range in Hk. right. eauto.
Qed.

(** Case folding and upper-casing agree on the names of the engine. *)
Definition ascii_names e : Prop :=
  (forall k c, chains e !! k = Some c -> is_ascii (bytes_of k)) /\
  (forall k c r, chains e !! k = Some c -> r ∈ cRules c -> is_ascii (bytes_of (rChain r))).

Lemma resolves_upper e name c :
  ascii_names e -> is_ascii (bytes_of name) -> resolves e name c ->
  exists k, chains e !! k = Some c /\ ToUpper k = ToUpper name.
Proof.
  intros [Ha _] Hn [Hk|(_ & k & Hk & Hf)]; [eauto|]. exists k. split; [done|].
  apply EqualFold_ToUpper; eauto.
Qed.

(** A walk's result, the marks it adds and its trace are what [P] says; or it ran
    out of fuel.  The marks so far that the result bears are overwritten at the
    end. *)
Definition yields (o : outcome) (st st' : evalState (R := R)) (P : Decision -> list string -> list TraceStep -> Prop) : Prop :=
  o = None \/ exists d ms ts, o = Some (Ok d) /\ isTerminal (dTarget d) = true /\
    marks st' = marks st ++ ms /\ trace st' = trace st ++ ts /\ P (with_marks [] d) ms ts.

(** After a step of the trace and perhaps a mark. *)
Lemma yields_step o (st st1 st' : evalState (R := R)) ms0 step P Q :
  marks st1 = marks st ++ ms0 -> trace st1 = trace st ++ [step] ->
  (forall d ms ts, P d ms ts -> Q d (ms0 ++ ms) (step :: ts)) -> yields o st1 st' P -> yields o st st' Q.
Proof.
  intros Hm Ht HPQ [?|(d & ms & ts & Ho & Hd & Hm' & Ht' & HP)]; [by left|right].
  exists d, (ms0 ++ ms), (step :: ts). rewrite Hm', Ht', Hm, Ht, <- !app_assoc. auto 10.
Qed.

Lemma fill_reason_marks r d :
  with_marks [] (if (dReason d =? "")%string then with_reason (rReason r) d else d)
  = fill_reason r (with_marks [] d).
Proof. unfold fill_reason. simpl. by destruct (dReason d =? "")%string. Qed.

Lemma walk_reads e jump ctx name chain rules (quiet : evalState -> Prop) st o st' :
  isTerminal (poTarget (cPolicy chain)) = true ->
  (forall s s', visited s = visited s' -> quiet s -> quiet s') ->
  (forall r s o s', r ∈ rules -> rTarget r = TargetJUMP -> quiet s -> jump (rChain r) s = (o, s') ->
     yields o s s' (fun d ms ts => exists c', resolves e (rChain r) c' /\
                        reads e ctx (rChain r) c' (cRules c') (res s) d ms ts (res s'))) ->
  quiet st -> walk_rules jump ctx name chain rules st = (o, st') ->
  yields o st st' (fun d ms ts => reads e ctx name chain rules (res st) d ms ts (res st')).
Proof.
  intros Hp Hq. revert st; induction rules as [|r rules IH]; intros st Hj Hst Hw; simpl in Hw.
  { injection Hw as <- <-. right. eexists _, [], []. rewrite !app_nil_r. split_and!; [done|exact Hp|done|done|apply rd_policy]. }
  assert (Hrest : forall s, visited s = visited st -> walk_rules jump ctx name chain rules s = (o, st') ->
    yields o s st' (fun d ms ts => reads e ctx name chain rules (res s) d ms ts (res st'))).
  { intros s Hs. apply IH; [|by apply (Hq st)]. intros r' s' o' s'' Hin. apply Hj. by right. }
  destruct (Match ctx (rMatch r) (res st)) as [[|] r1] eqn:Em.
  2:{ eapply (yields_step _ _ _ _ [] (missed name r)); [..|by apply Hrest in Hw]; [by rewrite app_nil_r|done|].
      intros d ms ts Hd. by eapply rd_skip. }
  destruct (isTerminal (rTarget r)) eqn:Et.
  { injection Hw as <- <-. right. eexists _, [], _. rewrite app_nil_r. split_and!; [done|exact Et|done|done|by apply rd_stop]. }
  destruct (String.eqb_spec (rTarget r) TargetJUMP) as [Ej|Hnj].
  { set (s1 := record_step _ _ _) in Hw. destruct (jump (rChain r) s1) as [o1 s2] eqn:Ejump.
    assert (quiet s1) as Hs1 by (by apply (Hq st)).
    destruct (Hj r s1 o1 s2 ltac:(by left) Ej Hs1 Ejump) as [->|(d & ms & ts & -> & Hd & Hm & Ht & c' & Hc' & Hr)].
    { injection Hw as <- <-. by left. }
    rewrite Hd in Hw. injection Hw as <- <-. right. eexists _, ms, (hit name r :: ts). split_and!; [done| |done| |].
    - by destruct (dReason d =? "")%string.
    - rewrite Ht. unfold s1. cbn [trace record_step]. rewrite <- app_assoc. unfold hit. by rewrite Ej.
    - rewrite fill_reason_marks. by eapply rd_jump. }
  destruct (String.eqb_spec (rTarget r) TargetRETURN) as [Er|Hnr].
  { injection Hw as <- <-. right. eexists _, [], [hit name r]. rewrite app_nil_r.
    split_and!; [done|exact Hp|done|by unfold hit; rewrite Er|by apply rd_return]. }
  assert (passes (rTarget r)) as Hpass by done.
  assert (Hgo : exists s, visited s = visited st /\ res s = r1 /\ marks s = marks st ++ marked r /\
    trace s = trace st ++ [hit name r] /\ walk_rules jump ctx name chain rules s = (o, st')).
  { unfold marked, hit. apply String.eqb_neq in Hnj as ->.
    destruct (String.eqb_spec (rTarget r) TargetLOG) as [El|_].
    { rewrite El in *. eexists. split_and!; [| | | |exact Hw]; try done. by rewrite app_nil_r. }
    destruct (rTarget r =? TargetMARK)%string; [destruct (rMark r =? "")%string|];
      eexists; (split_and!; [| | | |exact Hw]); try done; by rewrite app_nil_r. }
  destruct Hgo as (s & Hs & <- & Hm & Ht & Hgo). eapply yields_step; [exact Hm|exact Ht| |by apply Hrest in Hgo].
  intros d ms ts Hd. by eapply rd_pass.
Qed.

Lemma evalChain_reads fuel e rank ctx name st o st' :
  engine_ok e -> acyclic e rank -> ascii_names e ->
  exists_chain e name -> is_ascii (bytes_of name) ->
  (forall u, (rank u <= rank (ToUpper name))%nat -> visits st u = 0) ->
  evalChain fuel e ctx name st = (o, st') ->
  yields o st st' (fun d ms ts => exists c, resolves e name c /\
                     reads e ctx name c (cRules c) (res st) d ms ts (res st')).
Proof.
  intros Hok Hac Hasc. revert name st o st'; induction fuel as [|fuel IH];
    intros name st o st' Hn Ha Hv He; simpl in He.
  { injection He as <- <-. by left. }
  destruct (lookupChain_exists e name (loops st) Hn) as [c Hc]. rewrite Hc in He.
  apply lookupChain_resolves in Hc.
  destruct (resolves_upper e name c Hasc Ha Hc) as (k & Hk & Hku).
  rewrite visits_visit, bool_decide_eq_true_2 in He by done.
  change (visits (next_loop st)) with (visits st) in He. rewrite Hv in He by lia.
  destruct (Z.ltb_spec max_visits (0 + 1)) as [Hm|_]; [unfold max_visits in Hm; lia|].
  set (st1 := visit (ToUpper name) (next_loop st)) in He.
  pose (quiet := fun s : evalState (R := R) => forall u, (rank u < rank (ToUpper name))%nat -> visits s u = 0).
  assert (Hq1 : quiet st1).
  { intros u Hu. unfold st1. rewrite visits_visit, bool_decide_eq_false_2 by (intros <-; lia).
    apply Hv. lia. }
  apply (walk_reads e _ _ _ _ _ quiet) in He; [| |by intros s s' Hs Hq u Hu; unfold visits in *; rewrite <- Hs; apply Hq| |done].
  - destruct He as [->|(d & ms & ts & -> & Hd & Hm & Ht & Hr)]; [by left|]. right. exists d, ms, ts.
    split_and!; [done..|]. by exists c.
  - by eapply ok_policy.
  - intros r s o1 s1 Hr Hj Hq He1. apply (IH _ _ _ _) in He1; [done| | |].
    + by eapply ok_jumps.
    + by eapply (proj2 Hasc).
    + intros u Hu. apply Hq. pose proof (Hac k c r Hk Hr Hj). rewrite Hku in *. lia.
Qed.

(** C16: without cycles the engine does what its chains say: the verdict of
    [EvaluateWithEntry], the marks it bears, in order, and the trace are those the
    plain reading gives from the entry chain; the visit limit never cuts it. *)
Theorem Evaluate_reads e rank ctx entry r0 :
  engine_ok e -> acyclic e rank -> ascii_names e ->
  exists_chain e entry -> is_ascii (bytes_of entry) -> entry <> ""%string ->
  exists d ms st' c ctx', EvaluateWithEntry e ctx entry r0 = (Some (Ok (with_marks ms d)), st') /\
    (rqCounters ctx <> None -> ctx' = ctx) /\
    resolves e entry c /\ reads e ctx' entry c (cRules c) r0 d ms (trace st') (res st').
Proof.
  intros Hok Hac Hasc Hn Ha Hne. pose proof (Evaluate_total e ctx entry r0) as Ht.
  unfold EvaluateWithEntry in *. destruct (String.eqb_spec entry ""); [done|].
  set (ctx' := match rqCounters ctx with Some _ => ctx | None => _ end) in *.
  destruct (evalChain _ e ctx' entry _) as [o st] eqn:Ee. pose proof Ee as Er.
  eapply evalChain_reads in Er; [|done..|].
  2:{ intros u _. unfold visits. simpl. by rewrite lookup_empty. }
  destruct Er as [->|(d & ms & ts & -> & _ & Hm & Hts & c & Hc & Hr)]; [done|].
  cbn [marks trace app] in Hm, Hts. exists (with_marks [] d), ms, st, c, ctx'. rewrite Hm, Hts.
  split_and!; [done| |done|exact Hr].
  intros Hcnt. unfold ctx'. by destruct (rqCounters ctx).
Qed.

(** ** Engines from configurations *)

(** The rule a configured rule compiles to. *)
Definition compiled (rc : RuleConfig) (r : Rule) : Prop :=
  CompileMatcher (rlMatch rc) = Ok (rMatch r) /\ rName r = rlName rc /\ rTarget r = rlTarget rc /\
  rChain r = rlChain rc /\ rStatus r = rlStatus rc /\ rLimitRate r = rlLimitRate rc /\
  rReason r = rlReason rc /\ rMark r = rlMark rc.

(** The chain a configured chain compiles to. *)
Definition compiled_chain (name : string) (cc : ChainConfig) (c : Chain) : Prop :=
  cName c = name /\ Forall2 compiled (chRules cc) (cRules c) /\
  poTarget (cPolicy c) = plTarget (chPolicy cc) /\ poStatus (cPolicy c) = plStatus (chPolicy cc) /\
  poLimitRate (cPolicy c) = plLimitRate (chPolicy cc) /\ poReason (cPolicy c) = plReason (chPolicy cc) /\
  IsValidPolicyTarget (plTarget (chPolicy cc)) = true /\
  Forall (fun rc => IsValidRuleTarget (rlTarget rc) = true) (chRules cc).

Lemma compileRules_spec i l rs :
  compileRules i l = Ok rs ->
  Forall2 compiled l rs /\ Forall (fun rc => IsValidRuleTarget (rlTarget rc) = true) l.
Proof.
  revert i rs; induction l as [|rc l IH]; intros i rs; simpl; [by intros [= <-]|].
  unfold compileRule. destruct (IsValidRuleTarget (rlTarget rc)) eqn:Et; [|done]. simpl.
  destruct (CompileMatcher (rlMatch rc)) as [m|] eqn:Em; [|done].
  destruct (compileRules (S i) l) as [rs'|] eqn:Er; [|done]. intros [= <-].
  destruct (IH _ _ Er) as [Hf Ht]. split; [|by constructor].
  constructor; [|done]. unfold compiled. simpl. auto 10.
Qed.

Lemma compileChain_spec name cc c : compileChain name cc = Ok c -> compiled_chain name cc c.
Proof.
  unfold compileChain. destruct (IsValidPolicyTarget _) eqn:Et; [|done]. simpl.
  destruct (compileRules 0 (chRules cc)) as [rs|] eqn:Er; [|done]. intros [= <-].
  apply compileRules_spec in Er as [Hf Ht]. unfold compiled_chain. simpl. auto 10.
Qed.

Lemma compileChains_spec l m :
  NoDup l.*1 -> compileChains l = Ok m ->
  forall k, match m !! k with
            | Some c => exists cc, (k, cc) ∈ l /\ compiled_chain k cc c
            | None => forall cc, (k, cc) ∉ l
            end.
Proof.
  revert m; induction l as [|[name cc] l IH]; intros m Hnd; simpl.
  - intros [= <-] k. rewrite lookup_empty. intros cc. apply not_elem_of_nil.
  - destruct (compileChain name cc) as [c|] eqn:Ec; [|done]. apply compileChain_spec in Ec.
    destruct (compileChains l) as [m'|] eqn:El; [|done]. intros [= <-] k.
    rewrite fmap_cons in Hnd. apply NoDup_cons in Hnd as [Hni Hnd]. specialize (IH m' Hnd eq_refl k).
    destruct (decide (name = k)) as [->|Hne].
    + rewrite lookup_insert_eq. exists cc. split; [by left|done].
    + rewrite lookup_insert_ne by done. destruct (m' !! k) as [c'|].
      * destruct IH as (cc' & Hin & Hc'). exists cc'. split; [by right|done].
      * intros cc' Hin. apply elem_of_cons in Hin as [Hin|Hin]; [congruence|by eapply IH].
Qed.

Lemma map_range_nodup {V} n (m : gmap string V) : NoDup (map_range n m).*1.
Proof. rewrite map_range_perm. apply NoDup_fst_map_to_list. Qed.

Lemma FromConfig_compiles rc e :
  FromConfig rc = Ok e ->
  rcEnabled rc = true /\ chains e <> ∅ /\
  (forall k, match chains e !! k with
             | Some c => exists cc, rcChains rc !! k = Some cc /\ compiled_chain k cc c /\
                           isTerminal (poTarget (cPolicy c)) = true
             | None => rcChains rc !! k = None
             end).
Proof.
  unfold FromConfig. destruct (rcEnabled rc); [|done]. simpl.
  destruct (compileChains _) as [m|] eqn:Em; [|done]. unfold NewEngine. case_bool_decide as Hm; [done|].
  intros [= <-]. simpl. split_and!; [done|done|]. intros k.
  pose proof (compileChains_spec _ _ (map_range_nodup 0 (rcChains rc)) Em k) as Hk.
  destruct (m !! k) as [c|].
  - destruct Hk as (cc & Hin & Hc). exists cc. split_and!; [by apply elem_of_map_range in Hin|done|].
    destruct Hc as (_ & _ & -> & _ & _ & _ & Ht & _). exact Ht.
  - destruct (rcChains rc !! k) as [cc|] eqn:E; [|done]. exfalso. apply (Hk cc). by apply elem_of_map_range.
Qed.

(** Compilation keeps the configuration: an engine is built only from an
    enabled, non-empty section, has a chain for exactly the configured names,
    each rule compiled from the rule at its position and each policy copied, and
    every policy is terminal; what the range order was does not matter. *)
Theorem FromConfig_spec rc e :
  FromConfig rc = Ok e ->
  rcEnabled rc = true /\ chains e <> ∅ /\
  (forall k, match chains e !! k with
             | Some c => exists cc, rcChains rc !! k = Some cc /\ compiled_chain k cc c /\
                           isTerminal (poTarget (cPolicy c)) = true
             | None => rcChains rc !! k = None
             end).
Proof. apply FromConfig_compiles. Qed.

End Theory.

(** ** The theorems at a concrete engine *)

Module Sample.

Definition any_match : MatchConfig := MkMatch "" "" [] [] [] "" "" [] "" None None None None.
Definition on_status (s : string) : MatchConfig := MkMatch "" "" [] [] [] "" s [] "" None None None None.

(** Missing tokens jump to a chain that demands one; the rest is accepted. *)
Definition config : RiskControlConfig := MkRisk true (MkPending None 1 1) ∅
  (<["INPUT"%string := MkChain (MkPolicy "ACCEPT" 0 "" "")
      [MkRule "tag" any_match "MARK" "" 0 "" "" "seen";
       MkRule "check" (on_status "missing") "JUMP" "demand" 0 "" "no_token" ""]]>
   (<["DEMAND"%string := MkChain (MkPolicy "REQUIRE_POW" 0 "" "") []]> ∅)).

Definition engine : @Engine literal_regexp :=
  match @FromConfig ascii_unicode literal_regexp key_order config with
  | Ok e => e
  | Err _ => MkEngine ∅
  end.

Definition request (status : string) : RequestContext unit :=
  MkRequest "/x" "GET" "" "10.1.2.3" "curl" false false status "" true false None.

Definition rank (u : string) : nat := if bool_decide (u = "INPUT"%string) then 1 else 0.

Lemma from_config : @FromConfig ascii_unicode literal_regexp key_order config = Ok engine.
Proof. vm_cast_no_check (eq_refl (Ok engine : result engine_error _)). Defined.

Definition chain_list : list (string * @Chain literal_regexp) := map_to_list (chains engine).

(** A test of all chains of the sample engine. *)
Lemma chains_check (f : string -> @Chain literal_regexp -> bool) :
  forallb (fun kc : string * @Chain literal_regexp => f kc.1 kc.2) chain_list = true ->
  forall k c, chains engine !! k = Some c -> f k c = true.
Proof.
  intros Hf k c Hk. apply forallb_Forall in Hf. apply (proj1 (Forall_forall _ _) Hf (k, c)).
  exact (proj2 (elem_of_map_to_list (chains engine) k c) Hk).
Qed.

Lemma rules_check (f : @Rule literal_regexp -> bool) rules r :
  forallb f rules = true -> r ∈ rules -> f r = true.
Proof. intros Hf Hr. apply forallb_Forall in Hf. by apply (proj1 (Forall_forall _ _) Hf r). Qed.

Lemma engine_is_ok : @engine_ok ascii_unicode literal_regexp engine.
Proof.
  split.
  - apply (chains_check (fun _ c => isTerminal (poTarget (cPolicy c)))). vm_compute. reflexivity.
  - intros k c r Hk Hr Hj.
    assert (forallb (fun r => implb (rTarget r =? TargetJUMP)%string (rChain r =? "demand")%string) (cRules c)
      = true) as Hc.
    { revert k c Hk Hr. intros k c Hk _. revert k c Hk. apply chains_check. vm_compute. reflexivity. }
    pose proof (rules_check _ _ _ Hc Hr) as Hx. cbn beta in Hx. rewrite Hj in Hx. simpl in Hx.
    apply String.eqb_eq in Hx. rewrite Hx.
    exists "DEMAND"%string. eexists. split; [vm_compute; reflexivity|]. right. vm_compute. reflexivity.
Qed.

Lemma input_exists : @exists_chain ascii_unicode literal_regexp engine "INPUT".
Proof. exists "INPUT"%string. eexists. split; [vm_compute; reflexivity|by left]. Qed.

Lemma acyclic_engine : @acyclic ascii_unicode literal_regexp engine rank.
Proof.
  intros k c r Hk Hr Hj.
  assert (forallb (fun r => implb (rTarget r =? TargetJUMP)%string
    (rank (@ToUpper ascii_unicode (rChain r)) <? rank (@ToUpper ascii_unicode k))%nat) (cRules c) = true) as Hc.
  { clear Hr Hj. revert k c Hk. apply chains_check. vm_compute. reflexivity. }
  pose proof (rules_check _ _ _ Hc Hr) as Hx. cbn beta in Hx. rewrite Hj in Hx. simpl in Hx.
  by apply Nat.ltb_lt in Hx.
Qed.

Definition ascii_test (l : list Z) : bool := forallb (fun b => (0 <=? b) && (b <? 128)) l.

Lemma ascii_decide l : ascii_test l = true -> is_ascii l.
Proof.
  intros Hl. apply forallb_Forall in Hl. eapply Forall_impl; [exact Hl|]. intros b Hb. simpl in Hb.
  apply andb_true_iff in Hb as [?%Z.leb_le ?%Z.ltb_lt]. lia.
Qed.

Lemma ascii_engine : @ascii_names literal_regexp engine.
Proof.
  split.
  - intros k c Hk. apply ascii_decide. revert k c Hk.
    apply (chains_check (fun k _ => ascii_test (bytes_of k))). vm_compute. reflexivity.
  - intros k c r Hk Hr. apply ascii_decide. revert r Hr.
    assert (forallb (fun r => ascii_test (bytes_of (rChain r))) (cRules c) = true) as Hc.
    { revert k c Hk. apply (chains_check (fun _ c => forallb (fun r => ascii_test (bytes_of (rChain r))) (cRules c))).
      vm_compute. reflexivity. }
    intros r Hr. exact (rules_check _ _ _ Hc Hr).
Qed.

Lemma Evaluate_terminal_witness :
  exists d, (@EvaluateWithEntry ascii_unicode literal_regexp key_order unit engine (request "missing") "" tt).1
    = Some (Ok d) /\ isTerminal (dTarget d) = true.
Proof.
  exact (@Evaluate_terminal ascii_unicode literal_regexp key_order unit engine (request "missing") "" tt
           engine_is_ok input_exists).
Defined.

Lemma Evaluate_reads_witness :
  exists d ms st' c ctx',
    @EvaluateWithEntry ascii_unicode literal_regexp key_order unit engine (request "missing") "INPUT" tt
      = (Some (Ok (with_marks ms d)), st') /\
    (rqCounters (request "missing") <> None -> ctx' = request "missing") /\
    @resolves ascii_unicode literal_regexp engine "INPUT" c /\
    @reads ascii_unicode literal_regexp unit engine ctx' "INPUT" c (cRules c) tt d ms (trace st') (res st').
Proof.
  apply (@Evaluate_reads ascii_unicode literal_regexp key_order unit engine rank (request "missing") "INPUT" tt
           engine_is_ok acyclic_engine ascii_engine input_exists);
    [apply ascii_decide; vm_compute; reflexivity|discriminate].
Defined.

Lemma FromConfig_spec_witness :
  rcEnabled config = true /\ chains engine <> ∅.
Proof.
  destruct (@FromConfig_spec ascii_unicode literal_regexp key_order config engine from_config) as (He & Hc & _).
  exact (conj He Hc).
Defined.

Example engine_demands :
  match (@EvaluateWithEntry ascii_unicode literal_regexp key_order unit engine (request "missing") "" tt).1 with
  | Some (Ok d) => (dTarget d, dReason d, dMarks d)
  | _ => ("", "", [])%string
  end = ("REQUIRE_POW", "no_token", ["seen"])%string.
Proof. vm_compute. reflexivity. Qed.

End Sample.
