(* ===== verification/ConfigValidate.v ===== *)
(** * Configuration validation ([internal/config/validate.go])

    [Validate] collects problems; each call of [ValidationError.add] is one
    element of the list, a constructor of [problem] carrying what the message
    prints.  [detectCycles] is a three-colour depth-first search whose fuel
    bounds the nesting of [visit]. *)

From S2P Require Import Prelude GoStrings GoTime Config Matcher Pow RiskEngine.

Inductive rule_problem :=
  | RuleUnnamed
  | BadTarget (t : string)
  | BadPathRegex (re : string)
  | BadUserAgentRegex (re : string)
  | BadRate (r : string)
  | JumpWithoutChain
  | JumpUnknownChain (name : string)
  | RiskScoreUnsupported
  | CounterUnnamed
  | CounterUndefined (name : string)
  | BadCounterOp (op : string).

Inductive problem :=
  | NoModeEnabled
  | NegativeDifficulty (mode : string)
  | MinAboveMax (mode : string) (lo hi : Z)
  | CountUsageUnsupported (mode : string)
  | MaxTTLNotPositive (mode : string)
  | MaxUsesNotPositive
  | BadProtectedPath (re : string)
  | BadExcludedPath (re : string)
  | UnknownDriver (d : string)
  | UnknownCounterDriver (d : string)
  | MissingDSN
  | MissingRedisAddr
  | UnknownAlgorithm (a : string)
  | EmptyTokenParam
  | EmptySignParam
  | MaxPerIPNotPositive
  | MaxPerIPTooLarge
  | BlockTTLNotPositive
  | ReadTimeoutNotPositive
  | ShutdownTimeoutNegative
  | NoChains
  | PolicyTargetUnset (chain : string)
  | BadPolicyTarget (chain t : string)
  | BadPolicyRate (chain r : string)
  | InRule (chain : string) (i : nat) (p : rule_problem)
  | Cycle (path : list string) (name : string)
  | WindowNotPositive (counter : string)
  | KeyUnset (counter : string)
  | BadKey (counter key : string)
  | BadStorage (counter s : string).

(** [if bad { e.add(p) }]. *)
Definition add_if {P} (bad : bool) (p : P) : list P := if bad then [p] else [].

(** ** Field checks *)

Definition isValidTarget (t : string) (policy : bool) : bool :=
  if one_of t ["ACCEPT"; "REJECT"; "RATE_LIMIT"; "TOO_MANY"; "REQUIRE_POW"]%string then true
  else if one_of t ["JUMP"; "RETURN"; "LOG"; "MARK"]%string then negb policy
  else false.

(** [^[0-9]+[kKmMgG]?$]: at least one digit, then at most one unit. *)
Definition is_unit (b : Z) : bool := existsb (fun u => u =? b) [107; 75; 109; 77; 103; 71].

Fixpoint rate_tail (l : list Z) : bool :=
  match l with
  | [] => true
  | b :: l => if is_digit b then rate_tail l else is_unit b && match l with [] => true | _ => false end
  end.

Definition limitRateRe (s : string) : bool :=
  match bytes_of s with
  | b :: l => is_digit b && rate_tail l
  | [] => false
  end.

Definition isValidLimitRate (s : string) : bool := (s =? "0")%string || limitRateRe s.

Definition isValidCounterOp (op : string) : bool :=
  one_of op ["=="; "!="; ">="; ">"; "<="; "<"]%string.

Definition checkModeDifficulty (name : string) (m : ModeConfig) : list problem :=
  if (mMinDifficulty m <? 0) || (mMaxDifficulty m <? 0) then [NegativeDifficulty name]
  else add_if (mMaxDifficulty m <? mMinDifficulty m)
         (MinAboveMax name (mMinDifficulty m) (mMaxDifficulty m)).

Section Validate.
Context `{Unicode, Regexp, MapRange}.

Definition chainExistsCaseInsensitive (chains : gmap string ChainConfig) (name : string) : bool :=
  match chains !! name with
  | Some _ => true
  | None => existsb (fun kv : string * ChainConfig => EqualFold kv.1 name) (map_range 0 chains)
  end.

Definition compiles (re : string) : bool := match re_compile re with Some _ => true | None => false end.

(** ** Jumps ([detectCycles]) *)

Definition white : Z := 0.
Definition gray : Z := 1.
Definition black : Z := 2.

Record dfs := MkDfs { color : gmap string Z; cycles : list problem }.

Definition color_of (st : dfs) (u : string) : Z := default white (color st !! u).
Definition paint (u : string) (c : Z) (st : dfs) : dfs := MkDfs (<[u := c]> (color st)) (cycles st).

Definition normalised (chains : gmap string ChainConfig) (loop : nat) : gmap string ChainConfig :=
  fold_left (fun m kv => <[ToUpper kv.1 := kv.2]> m) (map_range loop chains) ∅.

Definition is_jump (r : RuleConfig) : bool := (rlTarget r =? "JUMP")%string && negb (rlChain r =? "")%string.

(** The loop over the rules of a chain, [visit] the recursive call: stop at the
    first that reports a cycle. *)
Fixpoint visit_rules (visit : string -> dfs -> option (bool * dfs)) (rules : list RuleConfig) (st : dfs)
  : option (bool * dfs) :=
  match rules with
  | [] => Some (false, st)
  | r :: rules =>
      if is_jump r then
        match visit (rlChain r) st with
        | None => None
        | Some (true, st) => Some (true, st)
        | Some (false, st) => visit_rules visit rules st
        end
      else visit_rules visit rules st
  end.

Fixpoint visit (fuel : nat) (norm : gmap string ChainConfig) (name : string) (path : list string) (st : dfs)
  : option (bool * dfs) :=
  match fuel with
  | O => None
  | S fuel =>
      let upper := ToUpper name in
      if color_of st upper =? gray then Some (true, MkDfs (color st) (cycles st ++ [Cycle path name]))
      else if color_of st upper =? black then Some (false, st)
      else
        let st := paint upper gray st in
        match norm !! upper with
        | None => Some (false, paint upper black st)
        | Some chain =>
            match visit_rules (fun n => visit fuel norm n (path ++ [name])) (chRules chain) st with
            | None => None
            | Some (true, st) => Some (true, st)
            | Some (false, st) => Some (false, paint upper black st)
            end
        end
  end.

(** The loop over the names; what a visit answers is not used. *)
Fixpoint visit_all (fuel : nat) (norm : gmap string ChainConfig) (names : list string) (st : dfs)
  : option dfs :=
  match names with
  | [] => Some st
  | n :: names =>
      match visit fuel norm n [] st with
      | None => None
      | Some (_, st) => visit_all fuel norm names st
      end
  end.

Definition visit_fuel (norm : gmap string ChainConfig) : nat := S (size norm).

Definition detectCycles (chains : gmap string ChainConfig) : option (list problem) :=
  let norm := normalised chains 1 in
  cycles <$> visit_all (visit_fuel norm) norm (map_range 2 norm).*1 (MkDfs ∅ []).

(** ** Rules, chains, counters ([checkRiskControl]) *)

(** The chain a jump names, and the counter a match reads. *)
Definition checkJump (rc : RiskControlConfig) (rule : RuleConfig) : list rule_problem :=
  if (rlTarget rule =? "JUMP")%string then
    if (rlChain rule =? "")%string then [JumpWithoutChain]
    else add_if (negb (chainExistsCaseInsensitive (rcChains rc) (rlChain rule)))
           (JumpUnknownChain (rlChain rule))
  else [].

Definition checkCounterMatch (rc : RiskControlConfig) (m : option CounterMatch) : list rule_problem :=
  match m with
  | None => []
  | Some c =>
      (if (cmName c =? "")%string then [CounterUnnamed]
       else match rcCounters rc !! cmName c with Some _ => [] | None => [CounterUndefined (cmName c)] end)
      ++ add_if (negb (isValidCounterOp (cmOp c))) (BadCounterOp (cmOp c))
  end.

Definition checkRule (rc : RiskControlConfig) (rule : RuleConfig) : list rule_problem :=
  let m := rlMatch rule in
  add_if (rlName rule =? "")%string RuleUnnamed
  ++ add_if (negb (isValidTarget (rlTarget rule) false)) (BadTarget (rlTarget rule))
  ++ add_if (negb (mcPathRegex m =? "")%string && negb (compiles (mcPathRegex m)))
       (BadPathRegex (mcPathRegex m))
  ++ add_if (negb (mcUserAgentRegex m =? "")%string && negb (compiles (mcUserAgentRegex m)))
       (BadUserAgentRegex (mcUserAgentRegex m))
  ++ add_if (negb (rlLimitRate rule =? "")%string && negb (isValidLimitRate (rlLimitRate rule)))
       (BadRate (rlLimitRate rule))
  ++ checkJump rc rule
  ++ add_if (match mcRiskScoreGte m with Some _ => true | None => false end) RiskScoreUnsupported
  ++ checkCounterMatch rc (mcCounter m).

Fixpoint checkRules (rc : RiskControlConfig) (chain : string) (i : nat) (rules : list RuleConfig)
  : list problem :=
  match rules with
  | [] => []
  | r :: rules => map (InRule chain i) (checkRule rc r) ++ checkRules rc chain (S i) rules
  end.

Definition checkChain (rc : RiskControlConfig) (kv : string * ChainConfig) : list problem :=
  let '(chainName, chain) := kv in
  let p := chPolicy chain in
  add_if (plTarget p =? "")%string (PolicyTargetUnset chainName)
  ++ add_if (negb (isValidTarget (plTarget p) true)) (BadPolicyTarget chainName (plTarget p))
  ++ add_if (negb (plLimitRate p =? "")%string && negb (isValidLimitRate (plLimitRate p)))
       (BadPolicyRate chainName (plLimitRate p))
  ++ checkRules rc chainName 0 (chRules chain).

Definition checkCounter (kv : string * CounterConfig) : list problem :=
  let '(name, ctr) := kv in
  add_if (ccWindow ctr <=? 0) (WindowNotPositive name)
  ++ (if one_of (ccKey ctr) ["ip"; "path"; "ip_path"]%string then []
      else if (ccKey ctr =? "")%string then [KeyUnset name] else [BadKey name (ccKey ctr)])
  ++ add_if (negb (one_of (ccStorage ctr) [""; "memory"; "redis"]%string)) (BadStorage name (ccStorage ctr)).

Definition checkRiskControl (rc : RiskControlConfig) : option (list problem) :=
  let chains := add_if (bool_decide (rcChains rc = ∅)) NoChains
                ++ flat_map (checkChain rc) (map_range 0 (rcChains rc)) in
  cyc ← detectCycles (rcChains rc);
  Some (chains ++ cyc ++ flat_map checkCounter (map_range 3 (rcCounters rc))).

(** The checks before those of the risk section, and those after. *)
Definition check_head (c : Config) : list problem :=
  let ip := mIPBound (pModes (cPow c)) in
  let gen := mGeneric (pModes (cPow c)) in
  let st := cStorage c in
  let pow := cPow c in
  let pend := rcPending (cRiskControl c) in
  add_if (negb (mEnabled ip) && negb (mEnabled gen)) NoModeEnabled
  ++ checkModeDifficulty "ip_bound" ip
  ++ checkModeDifficulty "generic" gen
  ++ add_if (mCountUsage ip) (CountUsageUnsupported "ip_bound")
  ++ add_if (mCountUsage gen) (CountUsageUnsupported "generic")
  ++ add_if (mEnabled ip && (mMaxTTLSeconds ip <=? 0)) (MaxTTLNotPositive "ip_bound")
  ++ add_if (mEnabled gen && (mMaxTTLSeconds gen <=? 0)) (MaxTTLNotPositive "generic")
  ++ add_if (mEnabled gen && (mMaxUses gen <=? 0)) MaxUsesNotPositive
  ++ flat_map (fun re => add_if (negb (compiles re)) (BadProtectedPath re)) (ProtectedPaths (cProtection c))
  ++ flat_map (fun re => add_if (negb (compiles re)) (BadExcludedPath re)) (ExcludedPaths (cProtection c))
  ++ add_if (negb (one_of (stDriver st) ["memory"; "postgres"; "redis"]%string)) (UnknownDriver (stDriver st))
  ++ add_if (negb (one_of (stCounterDriver st) ["memory"; "redis"]%string))
       (UnknownCounterDriver (stCounterDriver st))
  ++ add_if ((stDriver st =? "postgres")%string && (pgDSN (stPostgres st) =? "")%string) MissingDSN
  ++ add_if ((stDriver st =? "redis")%string && (rdAddr (stRedis st) =? "")%string) MissingRedisAddr
  ++ add_if (negb (pAlgorithm pow =? "")%string && negb (EqualFold (pAlgorithm pow) DefaultAlgorithm))
       (UnknownAlgorithm (pAlgorithm pow))
  ++ add_if (pTokenParam pow =? "")%string EmptyTokenParam
  ++ add_if (pSignParam pow =? "")%string EmptySignParam
  ++ (if pdMaxPerIP pend <=? 0 then [MaxPerIPNotPositive]
      else add_if (1000000 <? pdMaxPerIP pend) MaxPerIPTooLarge)
  ++ add_if (pdBlockTTL pend <=? 0) BlockTTLNotPositive.

Definition check_tail (c : Config) : list problem :=
  add_if (sReadTimeout (cServer c) <=? 0) ReadTimeoutNotPositive
  ++ add_if (sShutdownTimeout (cServer c) <? 0) ShutdownTimeoutNegative.

(** [Validate]: [Some []] is the nil error, [Some ps] the problems; [None] never
    happens (see [Validate_total]). *)
Definition Validate (c : Config) : option (list problem) :=
  risk ← (if rcEnabled (cRiskControl c) then checkRiskControl (cRiskControl c) else Some []);
  Some (check_head c ++ risk ++ check_tail c).

End Validate.
