(* ===== verification/ConfigTheory.v ===== *)
(** * What a validated configuration promises

    [detectCycles] ends and reports a cycle exactly when there is one; a
    configuration without problems compiles to an engine whose policies decide,
    whose jumps lead somewhere and never round, so that evaluation reads it
    plainly. *)

From S2P Require Import Prelude GoStrings Config Matcher Cidr RiskMatcher RiskEngine.
From S2P Require Import RiskEngineTheory ConfigValidate.

Section Theory.
Context `{Unicode, Regexp, MapRange}.

(** ** The search ends *)

Section Search.
Variable norm : gmap string ChainConfig.
Implicit Types (st : dfs) (u v : string).

Definition seen_node st u : Prop := color_of st u = gray \/ color_of st u = black.
#[local] Instance seen_dec st u : base.Decision (seen_node st u).
Proof. unfold seen_node. apply _. Defined.

Lemma color_paint u c st v : color_of (paint u c st) v = if bool_decide (u = v) then c else color_of st v.
Proof.
  unfold color_of, paint. simpl. case_bool_decide as E; [subst; by rewrite lookup_insert_eq|].
  by rewrite lookup_insert_ne.
Qed.

(** Nodes of [U] not yet seen. *)
Fixpoint unseen (U : list string) st : nat :=
  match U with [] => 0 | u :: U => (if decide (seen_node st u) then 0 else 1) + unseen U st end.

Definition grows st st' : Prop := forall u, seen_node st u -> seen_node st' u.

#[local] Instance grows_po : PreOrder grows.
Proof. split; [intros st u; done|]. intros a b c Hab Hbc u Hu. auto. Qed.

Lemma grows_paint u c st : c = gray \/ c = black -> grows st (paint u c st).
Proof.
  intros Hc v Hv. unfold seen_node. rewrite color_paint. case_bool_decide; [done|exact Hv].
Qed.

Lemma unseen_mono U st st' : grows st st' -> (unseen U st' <= unseen U st)%nat.
Proof.
  intros Hg. induction U as [|u U IH]; simpl; [lia|].
  destruct (decide (seen_node st u)) as [Hs|]; destruct (decide (seen_node st' u)) as [|Hn]; try lia.
  exfalso. auto.
Qed.

Lemma unseen_paint U u c st :
  c = gray \/ c = black -> u ∈ U -> ~ seen_node st u -> (unseen U (paint u c st) < unseen U st)%nat.
Proof.
  intros Hc Hu Hn. induction Hu as [u U|u v U Hu IH]; simpl.
  - pose proof (unseen_mono U _ _ (grows_paint u c st Hc)).
    rewrite (decide_False (P := seen_node st u)) by done. rewrite decide_True; [lia|].
    unfold seen_node. by rewrite color_paint, bool_decide_eq_true_2.
  - specialize (IH Hn). pose proof (grows_paint u c st Hc v).
    destruct (decide (seen_node st v)), (decide (seen_node (paint u c st) v)); try lia.
    exfalso; auto.
Qed.

Lemma visit_rules_grows vis rules st b st' :
  (forall n s b s', vis n s = Some (b, s') -> grows s s') ->
  visit_rules vis rules st = Some (b, st') -> grows st st'.
Proof.
  intros Hv. revert st; induction rules as [|r rules IH]; intros st Hr; simpl in Hr.
  { by injection Hr as <- <-. }
  destruct (is_jump r); [|auto]. destruct (vis (rlChain r) st) as [[[|] s1]|] eqn:E; [|..|done].
  - injection Hr as <- <-. eauto.
  - etrans; [eapply Hv, E|auto].
Qed.

Lemma visit_rules_total vis rules st U n :
  (forall n s b s', vis n s = Some (b, s') -> grows s s') ->
  (forall name s, (unseen U s < n)%nat -> vis name s <> None) ->
  (unseen U st < n)%nat -> visit_rules vis rules st <> None.
Proof.
  intros Hg Hv. revert st; induction rules as [|r rules IH]; intros st Hn; simpl; [done|].
  destruct (is_jump r); [|auto]. destruct (vis (rlChain r) st) as [[[|] s1]|] eqn:E; [done| |].
  - apply IH. pose proof (unseen_mono U _ _ (Hg _ _ _ _ E)). lia.
  - by apply (Hv _ _ Hn) in E.
Qed.

(** One step of [visit], by the colour of the node. *)
Ltac visit_cases Hv :=
  simpl in Hv;
  match type of Hv with context [color_of ?st ?u =? gray] => destruct (Z.eqb_spec (color_of st u) gray) end;
  [|match type of Hv with context [color_of ?st ?u =? black] => destruct (Z.eqb_spec (color_of st u) black) end;
    [|match type of Hv with context [norm !! ?u] => destruct (norm !! u) as [chain|] eqn:?Hchain end]].

Lemma visit_grows fuel name path st b st' :
  visit fuel norm name path st = Some (b, st') -> grows st st'.
Proof.
  revert name path st b st'; induction fuel as [|fuel IH]; intros name path st b st' Hv; [done|].
  visit_cases Hv.
  - injection Hv as <- <-. by intros u.
  - by injection Hv as <- <-.
  - destruct (visit_rules _ _ _) as [[[|] s1]|] eqn:Er; [..|done];
      apply visit_rules_grows in Er; try (intros; by eapply IH);
      injection Hv as <- <-; (etrans; [by apply (grows_paint (ToUpper name) gray st); left|]).
    + exact Er.
    + etrans; [exact Er|]. apply grows_paint. by right.
  - injection Hv as <- <-. etrans; [by apply (grows_paint (ToUpper name) gray st); left|].
    apply grows_paint. by right.
Qed.

Lemma visit_total fuel name path st :
  (unseen (elements (dom norm)) st < fuel)%nat -> visit fuel norm name path st <> None.
Proof.
  revert name path st; induction fuel as [|fuel IH]; intros name path st Hf; [lia|]. simpl.
  destruct (Z.eqb_spec (color_of st (ToUpper name)) gray) as [|Hg]; [done|].
  destruct (Z.eqb_spec (color_of st (ToUpper name)) black) as [|Hb]; [done|].
  destruct (norm !! ToUpper name) as [chain|] eqn:E; [|done].
  assert (visit_rules (fun n => visit fuel norm n (path ++ [name])) (chRules chain)
            (paint (ToUpper name) gray st) <> None) as Hr.
  { apply (visit_rules_total _ _ _ (elements (dom norm)) fuel).
    - intros n s b s'. apply visit_grows.
    - intros n s Hs. by apply IH.
    - pose proof (unseen_paint (elements (dom norm)) (ToUpper name) gray st (or_introl eq_refl)) as Hlt.
      enough (unseen (elements (dom norm)) (paint (ToUpper name) gray st) <
              unseen (elements (dom norm)) st)%nat by lia.
      apply Hlt; [apply elem_of_elements, elem_of_dom; eauto|]. intros [?|?]; auto. }
  destruct (visit_rules _ _ _) as [[[|] s]|]; done.
Qed.

Lemma visit_all_total fuel names st :
  (unseen (elements (dom norm)) st < fuel)%nat -> visit_all fuel norm names st <> None.
Proof.
  revert st; induction names as [|n names IH]; intros st Hf; simpl; [done|].
  destruct (visit fuel norm n [] st) as [[b s]|] eqn:E; [|by apply visit_total in E].
  apply IH. pose proof (unseen_mono (elements (dom norm)) _ _ (visit_grows _ _ _ _ _ _ E)). lia.
Qed.

Lemma unseen_le U st : (unseen U st <= length U)%nat.
Proof. induction U; simpl; [lia|]. destruct (decide _); lia. Qed.

Lemma visit_fuel_enough names st : visit_all (visit_fuel norm) norm names st <> None.
Proof.
  apply visit_all_total. unfold visit_fuel. pose proof (unseen_le (elements (dom norm)) st) as Hl.
  change (length (elements (dom norm))) with (size (dom norm)) in Hl. rewrite size_dom in Hl. lia.
Qed.

(** ** It reports a cycle exactly when there is one *)

(** [u] has a rule that jumps to [v]. *)
Definition jumps_to u v : Prop :=
  exists chain r, norm !! u = Some chain /\ r ∈ chRules chain /\ is_jump r = true /\ v = ToUpper (rlChain r).

Definition ranked (rank : string -> nat) : Prop := forall u v, jumps_to u v -> (rank v < rank u)%nat.

(** The finished nodes only jump to finished nodes of lower rank. *)
Definition finished_below (rk : string -> nat) (n : nat) st : Prop :=
  forall u, color_of st u = black ->
    (rk u < n)%nat /\ forall v, jumps_to u v -> color_of st v = black /\ (rk v < rk u)%nat.
Definition sound st : Prop := exists rk n, finished_below rk n st.

(** From [st] to [st'] nodes were finished, and nothing is left begun. *)
Record blackened st st' : Prop := {
  bl_gray : forall u, color_of st u = gray <-> color_of st' u = gray;
  bl_black : forall u, color_of st u = black -> color_of st' u = black;
  bl_cycles : cycles st' = cycles st;
}.

#[local] Instance blackened_po : PreOrder blackened.
Proof. split; [by split|]. intros a b c [? ? ?] [? ? ?]. split; [naive_solver|auto|congruence]. Qed.

(** Beginning [u], then [st1] to [st2], then finishing [u]. *)
Lemma blackened_paint u st st2 :
  color_of st u <> gray -> color_of st u <> black ->
  blackened (paint u gray st) st2 -> blackened st (paint u black st2).
Proof.
  intros Hg Hb [G B C]. split; [| |exact C]; intros v; rewrite ?color_paint.
  - specialize (G v). rewrite color_paint in G. case_bool_decide; [subst; by split|done].
  - specialize (B v). rewrite color_paint in B. case_bool_decide; [done|auto].
Qed.

Lemma sound_gray u st : color_of st u <> black -> sound st -> sound (paint u gray st).
Proof.
  intros Hu (rk & n & Hs). exists rk, n. intros v Hv. rewrite color_paint in Hv.
  case_bool_decide; [done|]. destruct (Hs v Hv) as [Hn Hj]. split; [done|]. intros w Hw.
  destruct (Hj w Hw) as [Hb Hr]. split; [|done]. rewrite color_paint. case_bool_decide; [by subst|done].
Qed.

Lemma sound_black u st :
  color_of st u = gray -> (forall v, jumps_to u v -> color_of st v = black) ->
  sound st -> sound (paint u black st).
Proof.
  intros Hu Hj (rk & n & Hs). exists (fun v => if bool_decide (u = v) then n else rk v), (S n).
  intros v. rewrite color_paint. case_bool_decide as E.
  - intros _. subst v. split; [lia|]. intros w Hw. specialize (Hj w Hw). rewrite color_paint.
    destruct (Hs w Hj) as [Hn _]. case_bool_decide; [by subst; rewrite Hu in Hj|done].
  - intros Hv. destruct (Hs v Hv) as [Hn Hw]. split; [lia|]. intros w Hjw.
    destruct (Hw w Hjw) as [Hb Hr]. rewrite color_paint. case_bool_decide; [by subst; rewrite Hu in Hb|done].
Qed.

Lemma visit_rules_clean vis rules st st' :
  (forall n s s', vis n s = Some (false, s') -> sound s ->
     sound s' /\ blackened s s' /\ color_of s' (ToUpper n) = black) ->
  visit_rules vis rules st = Some (false, st') -> sound st ->
  sound st' /\ blackened st st' /\
  forall r, r ∈ rules -> is_jump r = true -> color_of st' (ToUpper (rlChain r)) = black.
Proof.
  intros Hv. revert st; induction rules as [|r rules IH]; intros st Hr Hs; simpl in Hr.
  { injection Hr as <-. split_and!; [done|done|]. intros r Hin. by apply not_elem_of_nil in Hin. }
  destruct (is_jump r) eqn:Ej.
  - destruct (vis (rlChain r) st) as [[[|] s1]|] eqn:E; [done| |done].
    destruct (Hv _ _ _ E Hs) as (Hs1 & Hb1 & Hc1). destruct (IH s1 Hr Hs1) as (Hs2 & Hb2 & Hc2).
    split_and!; [done|by etrans|]. intros r' Hin Hj'. apply elem_of_cons in Hin as [->|Hin]; [|auto].
    by eapply bl_black.
  - destruct (IH st Hr Hs) as (Hs2 & Hb2 & Hc2). split_and!; [done..|]. intros r' Hin Hj'.
    apply elem_of_cons in Hin as [->|Hin]; [congruence|auto].
Qed.

Lemma visit_clean fuel name path st st' :
  visit fuel norm name path st = Some (false, st') -> sound st ->
  sound st' /\ blackened st st' /\ color_of st' (ToUpper name) = black.
Proof.
  revert name path st st'; induction fuel as [|fuel IH]; intros name path st st' Hv Hs; [done|].
  visit_cases Hv; [done|by injection Hv as <-|..].
  - destruct (visit_rules _ _ _) as [[[|] s1]|] eqn:Er; [done| |done]. injection Hv as <-.
    apply visit_rules_clean in Er as (Hs1 & Hb1 & Hc1); [|intros ??? E; by eapply IH|by apply sound_gray].
    split_and!; [|by apply blackened_paint|by rewrite color_paint, bool_decide_eq_true_2].
    apply sound_black; [|intros v (ch & r & Hch & Hr & Hj & ->)|done].
    + apply (bl_gray _ _ Hb1). by rewrite color_paint, bool_decide_eq_true_2.
    + rewrite Hchain in Hch. injection Hch as <-. auto.
  - injection Hv as <-. split_and!; [|by apply blackened_paint|by rewrite color_paint, bool_decide_eq_true_2].
    apply sound_black; [by rewrite color_paint, bool_decide_eq_true_2| |by apply sound_gray].
    intros v (ch & r & Hch & _). congruence.
Qed.

Lemma visit_rules_cycles vis rules st b st' :
  (forall n s b s', vis n s = Some (b, s') -> cycles s `prefix_of` cycles s' /\ (b = true -> cycles s' <> [])) ->
  visit_rules vis rules st = Some (b, st') ->
  cycles st `prefix_of` cycles st' /\ (b = true -> cycles st' <> []).
Proof.
  intros Hv. revert st; induction rules as [|r rules IH]; intros st Hr; simpl in Hr.
  { injection Hr as <- <-. done. }
  destruct (is_jump r); [|auto]. destruct (vis (rlChain r) st) as [[[|] s1]|] eqn:E; [|..|done].
  - injection Hr as <- <-. eauto.
  - apply Hv in E as [E _]. destruct (IH s1 Hr). split; [by etrans|done].
Qed.

(** Problems only accumulate, and [true] comes with one. *)
Lemma visit_cycles fuel name path st b st' :
  visit fuel norm name path st = Some (b, st') ->
  cycles st `prefix_of` cycles st' /\ (b = true -> cycles st' <> []).
Proof.
  revert name path st b st'; induction fuel as [|fuel IH]; intros name path st b st' Hv; [done|].
  visit_cases Hv.
  - injection Hv as <- <-. split; [by apply prefix_app_r|]. intros _. simpl. by destruct (cycles st).
  - by injection Hv as <- <-.
  - destruct (visit_rules _ _ _) as [[[|] s1]|] eqn:Er; [..|done];
      apply visit_rules_cycles in Er; try (intros; by eapply IH); injection Hv as <- <-; naive_solver.
  - by injection Hv as <- <-.
Qed.

Lemma visit_all_cycles fuel names st st' :
  visit_all fuel norm names st = Some st' -> cycles st `prefix_of` cycles st'.
Proof.
  revert st; induction names as [|n names IH]; intros st Hv; simpl in Hv; [by injection Hv as <-|].
  destruct (visit fuel norm n [] st) as [[b s]|] eqn:E; [|done].
  apply visit_cycles in E as [E _]. etrans; [exact E|auto].
Qed.

Lemma visit_all_clean fuel names st st' :
  visit_all fuel norm names st = Some st' -> cycles st' = [] -> sound st ->
  sound st' /\ (forall u, color_of st u = black -> color_of st' u = black) /\
  forall n, n ∈ names -> color_of st' (ToUpper n) = black.
Proof.
  intros Hv Hc. revert st Hv; induction names as [|n names IH]; intros st Hv Hs; simpl in Hv.
  { injection Hv as <-. split_and!; [done|done|]. intros n Hin. by apply not_elem_of_nil in Hin. }
  destruct (visit fuel norm n [] st) as [[b s]|] eqn:E; [|done].
  pose proof (visit_all_cycles _ _ _ _ Hv) as Hp. rewrite Hc in Hp. apply prefix_nil_inv in Hp.
  destruct b; [apply visit_cycles in E as [_ E]; naive_solver|].
  destruct (visit_clean _ _ _ _ _ E Hs) as (Hs1 & Hb1 & Hn).
  destruct (IH s Hv Hs1) as (Hs2 & Hb2 & Hn2). split_and!; [done| |].
  - intros u Hu. apply Hb2, (bl_black _ _ Hb1), Hu.
  - intros m Hin. apply elem_of_cons in Hin as [->|Hin]; auto.
Qed.

(** With a rank, what is begun ranks above what is visited, so nothing is
    reported. *)
Definition above (rank : string -> nat) u st : Prop :=
  forall w, color_of st w = gray -> (rank u < rank w)%nat.

Lemma visit_rules_ranked rank vis rules st b st' :
  (forall r s b s', r ∈ rules -> is_jump r = true -> vis (rlChain r) s = Some (b, s') ->
     above rank (ToUpper (rlChain r)) s -> b = false /\ blackened s s') ->
  (forall r, r ∈ rules -> is_jump r = true -> above rank (ToUpper (rlChain r)) st) ->
  visit_rules vis rules st = Some (b, st') -> b = false /\ blackened st st'.
Proof.
  revert st; induction rules as [|r rules IH]; intros st Hv Ha Hr; simpl in Hr.
  { by injection Hr as <- <-. }
  assert (forall s, blackened st s -> visit_rules vis rules s = Some (b, st') -> b = false /\ blackened s st') as Hrest.
  { intros s Hb. apply IH; [intros r' ????; apply Hv; by right|]. intros r' Hin Hj w Hw.
    apply (Ha r' ltac:(by right) Hj), (bl_gray _ _ Hb), Hw. }
  destruct (is_jump r) eqn:Ej; [|by apply Hrest].
  destruct (vis (rlChain r) st) as [[b1 s1]|] eqn:E; [|done].
  destruct (Hv r st b1 s1 ltac:(by left) Ej E (Ha r ltac:(by left) Ej)) as [-> Hb].
  destruct (Hrest s1 Hb Hr) as [-> Hb2]. split; [done|by etrans].
Qed.

Lemma visit_ranked rank fuel name path st b st' :
  ranked rank -> visit fuel norm name path st = Some (b, st') -> above rank (ToUpper name) st ->
  b = false /\ blackened st st'.
Proof.
  intros Hrk. revert name path st b st'; induction fuel as [|fuel IH]; intros name path st b st' Hv Ha; [done|].
  visit_cases Hv.
  - exfalso. specialize (Ha (ToUpper name)). naive_solver lia.
  - by injection Hv as <- <-.
  - destruct (visit_rules _ _ _) as [[b1 s1]|] eqn:Er; [|done].
    apply (visit_rules_ranked rank) in Er as [-> Hb]; [|intros; by eapply IH|].
    + injection Hv as <- <-. split; [done|]. by apply blackened_paint.
    + intros r Hr Hj w. rewrite color_paint.
      assert (rank (ToUpper (rlChain r)) < rank (ToUpper name))%nat by (apply Hrk; do 2 eexists; eauto).
      case_bool_decide; [by subst|]. intros Hw. specialize (Ha w Hw). lia.
  - injection Hv as <- <-. split; [done|]. by apply blackened_paint.
Qed.

Lemma visit_all_ranked rank fuel names st st' :
  ranked rank -> (forall u, color_of st u <> gray) ->
  visit_all fuel norm names st = Some st' -> cycles st' = cycles st.
Proof.
  intros Hrk. revert st; induction names as [|n names IH]; intros st Hg Hv; simpl in Hv; [congruence|].
  destruct (visit fuel norm n [] st) as [[b s]|] eqn:E; [|done].
  apply (visit_ranked rank) in E as [-> [G _ C]]; [|done|by intros w Hw; apply Hg in Hw].
  rewrite <- C. apply IH; [|done]. intros u Hu. by apply (Hg u), G.
Qed.

Lemma visit_all_spec names :
  (forall u v, jumps_to u v -> exists n, n ∈ names /\ u = ToUpper n) ->
  (cycles <$> visit_all (visit_fuel norm) norm names (MkDfs ∅ [])) = Some [] <-> exists rank, ranked rank.
Proof.
  intros Hn. pose proof (visit_fuel_enough names (MkDfs ∅ [])) as Ht.
  assert (forall u c, c <> white -> color_of (MkDfs ∅ []) u <> c) as Hc0.
  { intros u c Hc. unfold color_of. simpl. rewrite lookup_empty. simpl. congruence. }
  destruct (visit_all _ _ _ _) as [st'|] eqn:E; [|done]. split.
  - intros [= Hc]. destruct (visit_all_clean _ _ _ _ E Hc) as ((rk & n & Hs) & _ & Hb).
    { exists (fun _ => O), O. intros u Hu. by apply Hc0 in Hu. }
    exists rk. intros u v Hj. destruct (Hn u v Hj) as (m & Hm & ->).
    apply (Hs _ (Hb m Hm)), Hj.
  - intros [rank Hrk]. simpl. f_equal. rewrite (visit_all_ranked rank _ _ _ _ Hrk (fun u => Hc0 u gray ltac:(done)) E). done.
Qed.

End Search.

(** ** Names *)

(** The names of the chains: ASCII, no two of them equal but for case. *)
Record plain_names (chains : gmap string ChainConfig) : Prop := {
  pn_ascii : forall k c, chains !! k = Some c -> is_ascii (bytes_of k);
  pn_unique : forall k k' c c', chains !! k = Some c -> chains !! k' = Some c' ->
    ToUpper k = ToUpper k' -> k = k';
}.

Lemma upper_ascii_range b : 0 <= b < 128 -> 0 <= upper_ascii b < 128.
Proof. intros Hb. unfold upper_ascii, is_lower, in_range. case_if; bprop; lia. Qed.

Lemma ToUpper_ascii s : is_ascii (bytes_of s) -> bytes_of (ToUpper s) = map upper_ascii (bytes_of s).
Proof.
  intros Hs. unfold ToUpper, map_runes. rewrite runes_ascii, concat_encode_ascii by done.
  apply bytes_of_of, Forall_map. eapply Forall_impl; [exact Hs|]. intros b Hb.
  apply upper_ascii_range in Hb. simpl. unfold is_byte. lia.
Qed.

Lemma ToUpper_idem s : is_ascii (bytes_of s) -> ToUpper (ToUpper s) = ToUpper s.
Proof.
  intros Hs. apply bytes_of_inj. rewrite ToUpper_ascii; rewrite ToUpper_ascii by done.
  - rewrite map_map. apply map_ext_in. intros b Hb. unfold upper_ascii, is_lower, in_range.
    repeat case_if; bprop; try done; lia.
  - apply Forall_map. eapply Forall_impl; [exact Hs|]. intros b Hb. by apply upper_ascii_range.
Qed.

Definition put_upper (m : gmap string ChainConfig) (kv : string * ChainConfig) : gmap string ChainConfig :=
  <[ToUpper kv.1 := kv.2]> m.

(** Keys that stay apart in upper case are all kept. *)
Lemma put_upper_lookup l m u c :
  NoDup (map (fun kv => ToUpper kv.1) l) ->
  fold_left put_upper l m !! u = Some c <->
  (exists k, (k, c) ∈ l /\ u = ToUpper k) \/ (m !! u = Some c /\ u ∉ map (fun kv => ToUpper kv.1) l).
Proof.
  revert m; induction l as [|[k v] l IH]; intros m Hnd; simpl.
  { split; [intros ?; right; split; [done|apply not_elem_of_nil]|].
    intros [(k & Hk & _)|[Hm _]]; [by apply not_elem_of_nil in Hk|done]. }
  apply NoDup_cons in Hnd as [Hni Hnd]. rewrite IH by done. clear IH.
  setoid_rewrite elem_of_cons. unfold put_upper. simpl. destruct (decide (u = ToUpper k)) as [->|Hne].
  - rewrite lookup_insert_eq. split.
    + intros [(k' & Hin & E)|[[= ->] _]]; left; eauto.
    + intros [(k' & [Hin|Hin] & E)|[_ Hx]]; [injection Hin as -> ->; auto|left; eauto|].
      exfalso. apply Hx. by left.
  - rewrite lookup_insert_ne by done. naive_solver.
Qed.

Lemma normalised_lookup chains loop u c :
  plain_names chains ->
  normalised chains loop !! u = Some c <-> exists k, chains !! k = Some c /\ u = ToUpper k.
Proof.
  intros [_ Hu]. unfold normalised. change (fun m kv => _) with put_upper.
  rewrite put_upper_lookup.
  - setoid_rewrite elem_of_map_range. rewrite lookup_empty. naive_solver.
  - assert (forall kv, kv ∈ map_range loop chains -> chains !! kv.1 = Some kv.2) as Hl
      by (intros [k v]; apply elem_of_map_range).
    pose proof (map_range_nodup loop chains) as Hnd. induction (map_range loop chains) as [|[k v] l IH]; [constructor|].
    rewrite fmap_cons in Hnd. apply NoDup_cons in Hnd as [Hni Hnd]. simpl. constructor.
    + intros Hin. apply list_elem_of_In, in_map_iff in Hin as ([k' v'] & E & Hin). apply list_elem_of_In in Hin.
      apply Hni, list_elem_of_fmap. exists (k', v'). split; [|done]. simpl in *.
      pose proof (Hl (k, v) ltac:(by left)). pose proof (Hl (k', v') ltac:(by right)). eauto.
    + apply IH; [intros kv Hkv; apply Hl; by right|done].
Qed.

(** The jumps of the configured chains go down in rank. *)
Definition acyclic_config (chains : gmap string ChainConfig) (rank : string -> nat) : Prop :=
  forall k c r, chains !! k = Some c -> r ∈ chRules c -> is_jump r = true ->
    (rank (ToUpper (rlChain r)) < rank (ToUpper k))%nat.

Lemma detectCycles_total chains : detectCycles chains <> None.
Proof.
  unfold detectCycles. pose proof (visit_fuel_enough (normalised chains 1)
    (map_range 2 (normalised chains 1)).*1 (MkDfs ∅ [])) as Ht.
  by destruct (visit_all _ _ _ _).
Qed.

Lemma detectCycles_iff chains :
  plain_names chains -> detectCycles chains = Some [] <-> exists rank, acyclic_config chains rank.
Proof.
  intros Hn. unfold detectCycles. rewrite visit_all_spec.
  - apply exist_proper. intros rank. split.
    + intros Hr k c r Hk Hin Hj. apply Hr. exists c, r. split_and!; [|done..].
      apply normalised_lookup; eauto.
    + intros Ha u v (c & r & Hu & Hin & Hj & ->). apply normalised_lookup in Hu as (k & Hk & ->); eauto.
  - intros u v (c & r & Hu & _). exists u. split.
    + apply list_elem_of_fmap. exists (u, c). by rewrite elem_of_map_range.
    + apply normalised_lookup in Hu as (k & Hk & ->); [|done].
      symmetry. eapply ToUpper_idem, pn_ascii; eauto.
Qed.

(** C32: The search for cycles ends, whatever the chains, and reports none exactly
    when the jumps can be ranked, that is when no chain reaches itself; the
    order of the map does not matter. *)
Theorem detectCycles_spec chains :
  detectCycles chains <> None /\
  (plain_names chains -> detectCycles chains = Some [] <-> exists rank, acyclic_config chains rank).
Proof. split; [apply detectCycles_total|apply detectCycles_iff]. Qed.

(** ** Validation ends, and what it lets through *)

Lemma Validate_total c : Validate c <> None.
Proof.
  unfold Validate, checkRiskControl. destruct (rcEnabled _); [|done].
  pose proof (detectCycles_total (rcChains (cRiskControl c))). by destruct (detectCycles _).
Qed.

Lemma add_if_nil {P} b (p : P) : add_if b p = [] <-> b = false.
Proof. by destruct b. Qed.

Lemma flat_map_nil {A B} (f : A -> list B) l : flat_map f l = [] <-> forall x, x ∈ l -> f x = [].
Proof.
  induction l as [|x l IH]; simpl; [split; [intros _ x Hx; by apply not_elem_of_nil in Hx|done]|].
  rewrite app_nil, IH. setoid_rewrite elem_of_cons. naive_solver.
Qed.

Lemma map_nil_iff {A B} (f : A -> B) l : map f l = [] <-> l = [].
Proof. by destruct l. Qed.

Lemma orb_nil (x : string) b : negb (x =? "")%string && negb b = false <-> x = ""%string \/ b = true.
Proof. destruct (String.eqb_spec x ""), b; naive_solver. Qed.

(** The two target tables agree (validation cannot import the engine). *)
Lemma isValidTarget_agrees t :
  isValidTarget t false = IsValidRuleTarget t /\ isValidTarget t true = IsValidPolicyTarget t.
Proof.
  unfold isValidTarget, IsValidRuleTarget, IsValidPolicyTarget, one_of. rewrite existsb_app.
  change (existsb (fun t0 => t0 =? t)%string ["ACCEPT"; "REJECT"; "RATE_LIMIT"; "TOO_MANY"; "REQUIRE_POW"]%string)
    with (existsb (fun t0 => t0 =? t)%string terminal_targets).
  destruct (existsb _ terminal_targets); [done|]. simpl. by destruct (_ || _).
Qed.

Definition blank_or (f : string -> bool) (s : string) : Prop := s = ""%string \/ f s = true.

(** A rule that can be compiled and evaluated. *)
Record valid_rule (rc : RiskControlConfig) (r : RuleConfig) : Prop := {
  vr_name : rlName r <> ""%string;
  vr_target : IsValidRuleTarget (rlTarget r) = true;
  vr_path : blank_or compiles (mcPathRegex (rlMatch r));
  vr_agent : blank_or compiles (mcUserAgentRegex (rlMatch r));
  vr_rate : blank_or isValidLimitRate (rlLimitRate r);
  vr_jump : rlTarget r = TargetJUMP ->
    rlChain r <> ""%string /\ chainExistsCaseInsensitive (rcChains rc) (rlChain r) = true;
  vr_score : mcRiskScoreGte (rlMatch r) = None;
  vr_counter : forall c, mcCounter (rlMatch r) = Some c ->
    cmName c <> ""%string /\ is_Some (rcCounters rc !! cmName c) /\ isValidCounterOp (cmOp c) = true;
}.

Lemma checkJump_iff rc r :
  checkJump rc r = [] <->
  (rlTarget r = TargetJUMP ->
   rlChain r <> ""%string /\ chainExistsCaseInsensitive (rcChains rc) (rlChain r) = true).
Proof.
  unfold checkJump. change "JUMP"%string with TargetJUMP.
  destruct (String.eqb_spec (rlTarget r) TargetJUMP) as [E|]; [|done].
  destruct (String.eqb_spec (rlChain r) "") as [E'|].
  - split; [done|]. intros Hj. by destruct (Hj E).
  - rewrite add_if_nil, negb_false_iff. tauto.
Qed.

Lemma checkCounterMatch_iff rc m :
  checkCounterMatch rc m = [] <->
  forall c, m = Some c ->
    cmName c <> ""%string /\ is_Some (rcCounters rc !! cmName c) /\ isValidCounterOp (cmOp c) = true.
Proof.
  destruct m as [c|]; [|done]. unfold checkCounterMatch. rewrite app_nil, add_if_nil, negb_false_iff.
  split; [|intros Hc; destruct (Hc c eq_refl) as (Hne & [x Hx] & Hop)].
  - intros [Hc Hop] c' [= <-]. destruct (String.eqb_spec (cmName c) ""); [done|].
    destruct (rcCounters rc !! cmName c); [eauto|done].
  - rewrite Hx. by destruct (String.eqb_spec (cmName c) "").
Qed.

Lemma checkRule_iff rc r : checkRule rc r = [] <-> valid_rule rc r.
Proof.
  unfold checkRule. rewrite !app_nil, !add_if_nil, !orb_nil, String.eqb_neq, negb_false_iff.
  rewrite (proj1 (isValidTarget_agrees _)), checkJump_iff, checkCounterMatch_iff.
  assert (match mcRiskScoreGte (rlMatch r) with Some _ => true | None => false end = false <->
    mcRiskScoreGte (rlMatch r) = None) as -> by (by destruct (mcRiskScoreGte _)).
  split; [intros (? & ? & ? & ? & ? & ? & ? & ?); by constructor|intros []; tauto].
Qed.

Lemma checkRules_iff rc chain i rules :
  checkRules rc chain i rules = [] <-> forall r, r ∈ rules -> valid_rule rc r.
Proof.
  revert i; induction rules as [|r rules IH]; intros i; simpl.
  { split; [intros _ r Hr; by apply not_elem_of_nil in Hr|done]. }
  rewrite app_nil, IH, map_nil_iff, checkRule_iff. setoid_rewrite elem_of_cons. naive_solver.
Qed.

(** The section of the configuration the engine is built from. *)
Record valid_risk (rc : RiskControlConfig) : Prop := {
  vk_chains : rcChains rc <> ∅;
  vk_policy : forall k c, rcChains rc !! k = Some c -> IsValidPolicyTarget (plTarget (chPolicy c)) = true;
  vk_policy_rate : forall k c, rcChains rc !! k = Some c -> blank_or isValidLimitRate (plLimitRate (chPolicy c));
  vk_rules : forall k c r, rcChains rc !! k = Some c -> r ∈ chRules c -> valid_rule rc r;
  vk_cycles : detectCycles (rcChains rc) = Some [];
  vk_window : forall k c, rcCounters rc !! k = Some c -> 0 < ccWindow c;
  vk_key : forall k c, rcCounters rc !! k = Some c -> ccKey c ∈ ["ip"; "path"; "ip_path"]%string;
  vk_storage : forall k c, rcCounters rc !! k = Some c -> ccStorage c ∈ [""; "memory"; "redis"]%string;
}.

Lemma checkChain_iff rc k c :
  checkChain rc (k, c) = [] <->
  IsValidPolicyTarget (plTarget (chPolicy c)) = true /\
  blank_or isValidLimitRate (plLimitRate (chPolicy c)) /\ forall r, r ∈ chRules c -> valid_rule rc r.
Proof.
  unfold checkChain. rewrite !app_nil, !add_if_nil, orb_nil, negb_false_iff, checkRules_iff, String.eqb_neq.
  rewrite (proj2 (isValidTarget_agrees _)). unfold blank_or.
  split; [naive_solver|]. intros (Hp & Hr & Hv). split_and!; try done. intros E. by rewrite E in Hp.
Qed.

Lemma checkCounter_iff k c :
  checkCounter (k, c) = [] <->
  0 < ccWindow c /\ ccKey c ∈ ["ip"; "path"; "ip_path"]%string /\ ccStorage c ∈ [""; "memory"; "redis"]%string.
Proof.
  unfold checkCounter. rewrite !app_nil, !add_if_nil, negb_false_iff, one_of_elem, Z.leb_gt.
  rewrite <- (one_of_elem (ccKey c)).
  assert ((if one_of (ccKey c) ["ip"; "path"; "ip_path"]%string then []
           else if (ccKey c =? "")%string then [KeyUnset k] else [BadKey k (ccKey c)]) = [] <->
          one_of (ccKey c) ["ip"; "path"; "ip_path"]%string = true) as ->; [|tauto].
  destruct (one_of (ccKey c) _); [done|]. by destruct (ccKey c =? "")%string.
Qed.

Lemma checkRiskControl_iff rc : checkRiskControl rc = Some [] <-> valid_risk rc.
Proof.
  unfold checkRiskControl. pose proof (detectCycles_total (rcChains rc)) as Ht.
  destruct (detectCycles (rcChains rc)) as [cyc|] eqn:E; [|done]. simpl.
  transitivity ((add_if (bool_decide (rcChains rc = ∅)) NoChains
                 ++ flat_map (checkChain rc) (map_range 0 (rcChains rc)))
                ++ cyc ++ flat_map checkCounter (map_range 3 (rcCounters rc)) = []); [split; congruence|].
  rewrite !app_nil, add_if_nil, bool_decide_eq_false, !flat_map_nil.
  assert (forall {V} n (m : gmap string V) (P : string * V -> Prop),
    (forall x, x ∈ map_range n m -> P x) <-> forall k v, m !! k = Some v -> P (k, v)) as Hm.
  { intros V n m P. split; [intros Hx k v Hk; by apply Hx, elem_of_map_range|].
    intros Hx [k v] Hk. by apply Hx, (elem_of_map_range n). }
  rewrite !Hm. setoid_rewrite checkChain_iff. setoid_rewrite checkCounter_iff. split.
  - intros ((Hne & Hc) & -> & Hk). constructor; try done; intros k c; try apply (Hk k c); try apply (Hc k c).
    intros r Hkc. by apply (Hc k c).
  - intros [Hne Hp Hr Hv Hcyc Hw Hk Hs]. split_and!; [done| |congruence|]; intros k c Hkc; split_and!; eauto.
Qed.

(** The other sections. *)
Definition valid_difficulty (m : ModeConfig) : Prop := 0 <= mMinDifficulty m <= mMaxDifficulty m.

Record valid_pow (p : PowConfig) : Prop := {
  vp_some_mode : mEnabled (mIPBound (pModes p)) = true \/ mEnabled (mGeneric (pModes p)) = true;
  vp_difficulty : valid_difficulty (mIPBound (pModes p)) /\ valid_difficulty (mGeneric (pModes p));
  vp_unmetered : mCountUsage (mIPBound (pModes p)) = false /\ mCountUsage (mGeneric (pModes p)) = false;
  vp_ip_ttl : mEnabled (mIPBound (pModes p)) = true -> 0 < mMaxTTLSeconds (mIPBound (pModes p));
  vp_generic_ttl : mEnabled (mGeneric (pModes p)) = true -> 0 < mMaxTTLSeconds (mGeneric (pModes p));
  vp_max_uses : mEnabled (mGeneric (pModes p)) = true -> 0 < mMaxUses (mGeneric (pModes p));
  vp_algorithm : blank_or (fun a => EqualFold a Pow.DefaultAlgorithm) (pAlgorithm p);
  vp_params : pTokenParam p <> ""%string /\ pSignParam p <> ""%string;
}.

Record valid_storage (s : StorageConfig) : Prop := {
  vs_driver : stDriver s ∈ ["memory"; "postgres"; "redis"]%string;
  vs_counter_driver : stCounterDriver s ∈ ["memory"; "redis"]%string;
  vs_dsn : stDriver s = "postgres"%string -> pgDSN (stPostgres s) <> ""%string;
  vs_addr : stDriver s = "redis"%string -> rdAddr (stRedis s) <> ""%string;
}.

Record valid_head (c : Config) : Prop := {
  vh_pow : valid_pow (cPow c);
  vh_storage : valid_storage (cStorage c);
  vh_paths : forall re, re ∈ ProtectedPaths (cProtection c) ++ ExcludedPaths (cProtection c) -> compiles re = true;
  vh_pending : 0 < pdMaxPerIP (rcPending (cRiskControl c)) <= 1000000 /\ 0 < pdBlockTTL (rcPending (cRiskControl c));
}.

Lemma checkModeDifficulty_iff name m : checkModeDifficulty name m = [] <-> valid_difficulty m.
Proof.
  unfold checkModeDifficulty, valid_difficulty. case_if; [split; [done|]|].
  - intros [Hl Hh]. bcases; lia.
  - rewrite add_if_nil, Z.ltb_ge. bcases. split; intros; [split; [lia|done]|lia].
Qed.

Lemma and_nonpos (b : bool) x : b && (x <=? 0) = false <-> (b = true -> 0 < x).
Proof. destruct b; simpl; [rewrite Z.leb_gt; tauto|]. split; done. Qed.

Lemma and_blank (s d t : string) :
  ((s =? d)%string && (t =? "")%string) = false <-> (s = d -> t <> ""%string).
Proof.
  destruct (String.eqb_spec s d), (String.eqb_spec t ""); simpl; split; try done. intros Hi. by destruct Hi.
Qed.

Lemma pending_nil n :
  (if n <=? 0 then [MaxPerIPNotPositive] else add_if (1000000 <? n) MaxPerIPTooLarge) = [] <-> 0 < n <= 1000000.
Proof.
  destruct (Z.leb_spec n 0); [split; [done|lia]|]. rewrite add_if_nil, Z.ltb_ge. lia.
Qed.

Lemma bad_paths_nil (f : string -> problem) l :
  flat_map (fun re => add_if (negb (compiles re)) (f re)) l = [] <-> forall re, re ∈ l -> compiles re = true.
Proof. rewrite flat_map_nil. by setoid_rewrite add_if_nil; setoid_rewrite negb_false_iff. Qed.

Lemma check_head_iff c : check_head c = [] <-> valid_head c.
Proof.
  unfold check_head. cbv zeta.
  rewrite !app_nil, !checkModeDifficulty_iff, !bad_paths_nil, !add_if_nil, pending_nil, !and_nonpos, !and_blank.
  rewrite !negb_false_iff, !one_of_elem, !String.eqb_neq, orb_nil, Z.leb_gt, andb_false_iff, !negb_false_iff.
  split.
  - intros (? & ? & ? & ? & ? & ? & ? & ? & Hp & He & ? & ? & ? & ? & ? & ? & ? & ? & ?).
    split; [by split|by split| |by split]. intros re Hre. apply elem_of_app in Hre as [?|?]; auto.
  - intros [[] [] Hre []]. setoid_rewrite elem_of_app in Hre. intuition.
Qed.

(** A configuration of the right shape: what [Validate] checks, and no more. *)
Record valid_config (c : Config) : Prop := {
  vc_head : valid_head c;
  vc_risk : rcEnabled (cRiskControl c) = true -> valid_risk (cRiskControl c);
  vc_timeouts : 0 < sReadTimeout (cServer c) /\ 0 <= sShutdownTimeout (cServer c);
}.

Lemma Validate_iff c : Validate c = Some [] <-> valid_config c.
Proof.
  unfold Validate.
  assert (check_tail c = [] <-> 0 < sReadTimeout (cServer c) /\ 0 <= sShutdownTimeout (cServer c)) as Ht
    by (unfold check_tail; by rewrite app_nil, !add_if_nil, Z.leb_gt, Z.ltb_ge).
  destruct (rcEnabled (cRiskControl c)) eqn:En.
  - pose proof (checkRiskControl_iff (cRiskControl c)) as Hr.
    destruct (checkRiskControl (cRiskControl c)) as [risk|]; simpl.
    + transitivity (check_head c ++ risk ++ check_tail c = []); [split; congruence|].
      rewrite !app_nil, check_head_iff, Ht.
      transitivity (valid_head c /\ Some risk = Some [] /\ 0 < sReadTimeout (cServer c) /\
        0 <= sShutdownTimeout (cServer c)); [split; intros (? & ? & ?); split_and!; try congruence; tauto|].
      rewrite Hr. split; [intros (? & ? & ?); by constructor|intros [? Hv ?]; auto].
    + split; [done|]. intros [_ Hv _]. by apply Hr in Hv.
  - simpl. transitivity (check_head c ++ check_tail c = []); [split; congruence|].
    rewrite app_nil, check_head_iff, Ht.
    split; [intros [? ?]; constructor; [done|congruence|done]|intros [? _ ?]; auto].
Qed.

(** ** From a valid configuration to an engine *)

(** What [Validate] leaves to the compiler: the address ranges parse. *)
Definition ranges_parse (rc : RiskControlConfig) : Prop :=
  forall k c r, rcChains rc !! k = Some c -> r ∈ chRules c -> is_ok (parse_cidrs (mcIPCIDRIn (rlMatch r))) = true.

Lemma regex_part_ok p f : blank_or compiles p -> is_ok (regex_part p f) = true.
Proof.
  unfold regex_part, compiles. intros [->|Hp]; [done|]. destruct (p =? "")%string; [done|].
  by destruct (re_compile p).
Qed.

Lemma CompileMatcher_ok m :
  blank_or compiles (mcPathRegex m) -> blank_or compiles (mcUserAgentRegex m) ->
  is_ok (parse_cidrs (mcIPCIDRIn m)) = true -> is_ok (CompileMatcher m) = true.
Proof.
  intros Hp Hu Hc. unfold CompileMatcher.
  pose proof (regex_part_ok _ pathRegexMatcher Hp) as Hp'. pose proof (regex_part_ok _ uaRegexMatcher Hu) as Hu'.
  destruct (regex_part (mcPathRegex m) _); [|done]. destruct (parse_cidrs _); [|done].
  destruct (regex_part (mcUserAgentRegex m) _); [|done]. by destruct (_ ++ _) as [|? []].
Qed.

Lemma compileRules_ok rc i l :
  (forall r, r ∈ l -> valid_rule rc r /\ is_ok (parse_cidrs (mcIPCIDRIn (rlMatch r))) = true) ->
  is_ok (compileRules i l) = true.
Proof.
  revert i; induction l as [|r l IH]; intros i Hl; simpl; [done|].
  destruct (Hl r ltac:(by left)) as [[_ Ht Hp Hu _ _ _ _] Hc]. unfold compileRule. rewrite Ht. simpl.
  pose proof (CompileMatcher_ok _ Hp Hu Hc). destruct (CompileMatcher _); [|done].
  specialize (IH (S i) ltac:(intros r' Hr'; apply Hl; by right)). by destruct (compileRules (S i) l).
Qed.

Lemma compileChains_ok l :
  (forall k cc, (k, cc) ∈ l -> is_ok (compileChain k cc) = true) ->
  exists m, compileChains l = Ok m /\ (l <> [] -> m <> ∅).
Proof.
  induction l as [|[k cc] l IH]; intros Hl; simpl; [by exists ∅|].
  specialize (Hl k cc ltac:(by left)) as Hk. destruct (compileChain k cc) as [c|]; [|done].
  destruct IH as (m & -> & _); [intros k' cc' Hin; apply Hl; by right|].
  eexists. split; [done|]. intros _. apply insert_non_empty.
Qed.

Lemma FromConfig_ok rc :
  rcEnabled rc = true -> valid_risk rc -> ranges_parse rc -> exists e, FromConfig rc = Ok e.
Proof.
  intros Hen [Hne Hp _ Hr _ _ _ _] Hc. unfold FromConfig. rewrite Hen. simpl.
  destruct (compileChains_ok (map_range 0 (rcChains rc))) as (m & -> & Hm).
  - intros k cc Hk. apply elem_of_map_range in Hk. unfold compileChain. rewrite (Hp k cc Hk). simpl.
    pose proof (compileRules_ok rc 0 (chRules cc)) as Hok. destruct (compileRules 0 (chRules cc)); [done|].
    apply Hok. intros r Hin. split; [eauto|by eapply Hc].
  - unfold NewEngine. rewrite bool_decide_eq_false_2; [eauto|]. apply Hm. intros E. apply Hne.
    apply map_empty. intros k. destruct (rcChains rc !! k) as [c|] eqn:Hk; [|done].
    apply (elem_of_map_range 0) in Hk. rewrite E in Hk. by apply not_elem_of_nil in Hk.
Qed.

Lemma chainExists_iff (chains : gmap string ChainConfig) name :
  chainExistsCaseInsensitive chains name = true <->
  exists k c, chains !! k = Some c /\ (k = name \/ EqualFold k name = true).
Proof.
  unfold chainExistsCaseInsensitive. destruct (chains !! name) as [c|] eqn:E; [by split; eauto 6|].
  rewrite existsb_exists. split.
  - intros ([k c] & Hin & Hf). apply list_elem_of_In, elem_of_map_range in Hin. eauto.
  - intros (k & c & Hk & [->|Hf]); [congruence|]. exists (k, c).
    by rewrite <- list_elem_of_In, elem_of_map_range.
Qed.

(** The configured rule of a rule of the engine. *)
Lemma engine_rule rc e k c r :
  FromConfig rc = Ok e -> chains e !! k = Some c -> r ∈ cRules c ->
  exists cc rl, rcChains rc !! k = Some cc /\ rl ∈ chRules cc /\ compiled rl r.
Proof.
  intros (_ & _ & He)%FromConfig_compiles Hk Hr. specialize (He k). rewrite Hk in He.
  destruct He as (cc & Hcc & (_ & Hf & _) & _). apply list_elem_of_lookup in Hr as [i Hi].
  destruct (Forall2_lookup_r _ _ _ _ _ Hf Hi) as (rl & Hrl & Hc).
  exists cc, rl. split_and!; [done|by eapply list_elem_of_lookup_2|done].
Qed.

Lemma valid_engine_ok rc e : valid_risk rc -> FromConfig rc = Ok e -> engine_ok e.
Proof.
  intros Hv He. pose proof (FromConfig_compiles _ _ He) as (_ & _ & Hc). split.
  - intros k c Hk. specialize (Hc k). rewrite Hk in Hc. naive_solver.
  - intros k c r Hk Hr Hj. destruct (engine_rule _ _ _ _ _ He Hk Hr) as (cc & rl & Hcc & Hrl & Hcp).
    destruct Hcp as (_ & _ & Ht & Hch & _). rewrite Hch.
    destruct (vr_jump _ _ (vk_rules _ Hv k cc rl Hcc Hrl)) as [_ Hx]; [by rewrite <- Ht|].
    apply chainExists_iff in Hx as (k' & cc' & Hk' & Hx). specialize (Hc k').
    destruct (chains e !! k') as [c'|] eqn:E; [|congruence]. exists k', c'. done.
Qed.

Lemma valid_engine_acyclic rc e :
  valid_risk rc -> plain_names (rcChains rc) -> FromConfig rc = Ok e -> exists rank, acyclic e rank.
Proof.
  intros Hv Hn He. destruct (proj1 (detectCycles_iff _ Hn) (vk_cycles _ Hv)) as [rank Hr]. exists rank.
  intros k c r Hk Hin Hj. destruct (engine_rule _ _ _ _ _ He Hk Hin) as (cc & rl & Hcc & Hrl & Hcp).
  destruct Hcp as (_ & _ & Ht & Hch & _). rewrite Hch. eapply Hr; [done..|]. unfold is_jump.
  rewrite <- Ht, Hj. destruct (vr_jump _ _ (vk_rules _ Hv k cc rl Hcc Hrl)) as [Hne _]; [by rewrite <- Ht|].
  simpl. by destruct (String.eqb_spec (rlChain rl) "").
Qed.

(** C9: Validation is a type system for the engine: it ends on every
    configuration; it accepts exactly those of the shape [valid_config]; and one
    it accepts compiles, as soon as its address ranges parse, to an engine every
    policy of which decides, every jump of which finds its chain, and whose
    jumps go down in rank, so that evaluation is the plain reading of the
    rules. *)
Theorem Validate_engine c :
  Validate c <> None /\ (Validate c = Some [] <-> valid_config c) /\
  (Validate c = Some [] -> rcEnabled (cRiskControl c) = true -> ranges_parse (cRiskControl c) ->
   exists e, FromConfig (cRiskControl c) = Ok e /\ engine_ok e /\
     (plain_names (rcChains (cRiskControl c)) -> exists rank, acyclic e rank)).
Proof.
  split_and!; [apply Validate_total|apply Validate_iff|]. intros Hv Hen Hp.
  apply Validate_iff in Hv as [_ Hv _]. specialize (Hv Hen).
  destruct (FromConfig_ok _ Hen Hv Hp) as [e He]. exists e.
  eauto using valid_engine_ok, valid_engine_acyclic.
Qed.

End Theory.

(** ** The theorems at concrete configurations *)

Module ConfigSample.

#[local] Existing Instances ascii_unicode literal_regexp key_order.

(** The empty file with one mode switched on and the given risk section, after
    defaulting. *)
Definition with_risk (rc : RiskControlConfig) : Config :=
  let c := zero_config in
  let p := cPow c in
  let on (m : ModeConfig) := MkMode true (mMinDifficulty m) (mMaxDifficulty m) (mMaxTTLSeconds m)
    (mRequireIP m) (mCountUsage m) (mMaxUses m) (mCountHeadRequest m) in
  applyDefaults (MkConfig (cServer c)
    (MkPow (pEnabled p) (pDryRun p) (pBypassAll p) (pTokenParam p) (pSignParam p) (pMaxTokenLength p)
       (pMaxSignLength p) (pAlgorithm p) (pPublicSalt p) (pAllowEmptySalt p) (pAllowedPreviousSalts p)
       (MkModes (mIPBound (pModes p)) (on (mGeneric (pModes p)))))
    (cProtection c) (cStorage c) rc (cLogging c) (cCleanup c)).

Lemma names_check (chains : gmap string ChainConfig) :
  let names := (map_to_list chains).*1 in
  forallb (fun k => Sample.ascii_test (bytes_of k)) names = true ->
  NoDup (map ToUpper names) -> plain_names chains.
Proof.
  intros names Ha Hn.
  assert (forall k c, chains !! k = Some c -> k ∈ names) as Hin.
  { intros k c Hk. apply list_elem_of_fmap. exists (k, c). by rewrite elem_of_map_to_list. }
  split.
  - intros k c Hk%Hin. apply Sample.ascii_decide. apply forallb_Forall in Ha.
    by apply (proj1 (Forall_forall _ _) Ha k).
  - intros k k' c c' Hk%Hin Hk'%Hin E. apply list_elem_of_lookup in Hk as [i Hi].
    apply list_elem_of_lookup in Hk' as [j Hj].
    assert (i = j) as <-; [|congruence]. apply (NoDup_lookup _ _ _ (ToUpper k) Hn).
    + change (map ToUpper names) with (ToUpper <$> names). by rewrite list_lookup_fmap, Hi.
    + change (map ToUpper names) with (ToUpper <$> names). by rewrite list_lookup_fmap, Hj, E.
Qed.

Lemma plain_sample : plain_names (rcChains Sample.config).
Proof. apply names_check; [vm_compute; reflexivity|]. apply (bool_decide_eq_true_1 (NoDup _)). vm_compute. reflexivity. Qed.

(** A jump to a chain that jumps back. *)
Definition round : RiskControlConfig := MkRisk true (MkPending None 1 1) ∅
  (<["INPUT"%string := MkChain (MkPolicy "ACCEPT" 0 "" "")
      [MkRule "go" Sample.any_match "JUMP" "other" 0 "" "" ""]]>
   (<["other"%string := MkChain (MkPolicy "ACCEPT" 0 "" "")
      [MkRule "back" Sample.any_match "JUMP" "input" 0 "" "" ""]]> ∅)).

(** A visit that reports leaves its nodes gray, so the next root meets one at once
    and a second problem with an empty path follows. *)
Example round_reported :
  Validate (with_risk round) = Some [Cycle ["OTHER"; "input"]%string "other"; Cycle [] "INPUT"].
Proof. vm_compute. reflexivity. Qed.

Lemma detectCycles_spec_witness :
  detectCycles (rcChains Sample.config) = Some [] /\
  exists rank, acyclic_config (rcChains Sample.config) rank.
Proof.
  split; [vm_compute; reflexivity|].
  apply (proj2 (detectCycles_spec (rcChains Sample.config)) plain_sample). vm_compute. reflexivity.
Defined.

Lemma sample_ranges : ranges_parse Sample.config.
Proof.
  assert (forallb (fun kc : string * ChainConfig =>
      forallb (fun r => is_ok (parse_cidrs (mcIPCIDRIn (rlMatch r)))) (chRules kc.2))
    (map_to_list (rcChains Sample.config)) = true) as Hc by (vm_compute; reflexivity).
  intros k c r Hk Hr. apply forallb_Forall in Hc.
  pose proof (proj1 (Forall_forall _ _) Hc (k, c) (proj2 (elem_of_map_to_list _ _ _) Hk)) as Hx. simpl in Hx.
  apply forallb_Forall in Hx. by apply (proj1 (Forall_forall _ _) Hx r).
Qed.

Lemma Validate_engine_witness :
  exists e, FromConfig Sample.config = Ok e /\ engine_ok e /\ exists rank, acyclic e rank.
Proof.
  destruct (proj2 (proj2 (Validate_engine (with_risk Sample.config)))) as (e & He & Hok & Hr).
  - vm_compute. reflexivity.
  - reflexivity.
  - exact sample_ranges.
  - exists e. split; [exact He|]. split; [exact Hok|]. apply Hr. exact plain_sample.
Defined.

(** ** What validation does not see *)

(** A range that does not parse passes validation and stops the engine from being
    built. *)
Definition bad_range : RiskControlConfig := MkRisk true (MkPending None 1 1) ∅
  (<["INPUT"%string := MkChain (MkPolicy "ACCEPT" 0 "" "")
      [MkRule "range" (MkMatch "" "" [] [] ["10.0.0.0/40"%string] "" "" [] "" None None None None) "REJECT" "" 0 "" "" ""]]> ∅).

Example bad_range_passes :
  Validate (with_risk bad_range) = Some [] /\ is_ok (FromConfig bad_range) = false.
Proof. split; vm_compute; reflexivity. Qed.

(** A section without an [INPUT] chain is valid, and then no request can be
    evaluated. *)
Definition no_input : RiskControlConfig := MkRisk true (MkPending None 1 1) ∅
  (<["main"%string := MkChain (MkPolicy "REJECT" 0 "" "") []]> ∅).

Example no_input_passes :
  Validate (with_risk no_input) = Some [] /\
  match FromConfig no_input with
  | Ok e => (EvaluateWithEntry e (Sample.request "valid") "INPUT" tt).1 = Some (Err (ErrChainNotFound "INPUT"))
  | Err _ => False
  end.
Proof. split; vm_compute; reflexivity. Qed.

(** The configuration [LoadRaw] falls back to without a file is never valid. *)
Example no_file_fails : Validate (applyDefaults zero_config) = Some [NoModeEnabled].
Proof. vm_compute. reflexivity. Qed.

End ConfigSample.
