(* ===== verification/YamlStructure.v ===== *)
(** * YAML structure ([internal/config/structure.go])

    The check on the parsed document before decoding: no duplicate keys, only
    string keys, no alias that leads back to itself.  Nodes are pointers, shared
    through aliases, so a document is a heap; the parser is not modelled. *)

From S2P Require Import Prelude.

Inductive kind := ZeroNode | DocumentNode | SequenceNode | MappingNode | ScalarNode | AliasNode.
#[export] Instance kind_eq_dec : EqDecision kind.
Proof. solve_decision. Defined.

(** [yaml.Node]: the fields the check reads. *)
Notation ptr := positive.
Record ynode := MkYNode {
  yKind : kind; yTag : string; yValue : string; yContent : list ptr; yAlias : option ptr;
}.
Notation heap := (gmap ptr ynode).

Inductive structure_error := AliasCycle | KeyNotString | DuplicateKey.

(** What a check answers; [None] when the fuel is spent. *)
Notation verdict := (option (result structure_error unit)).

Definition string_key (n : ynode) : bool :=
  bool_decide (yKind n = ScalarNode) && ((yTag n =? "") || (yTag n =? "!!str"))%string.

Section Check.
Variable h : heap.

(** The two loops of [validateYAMLNode]; [check] the recursive call. *)
Section Loops.
Variable check : ptr -> verdict.

Fixpoint check_pairs (keys : list string) (content : list ptr) : verdict :=
  match content with
  | k :: v :: content =>
      match h !! k with
      | None => Some (Err KeyNotString)
      | Some key =>
          if negb (string_key key) then Some (Err KeyNotString)
          else if bool_decide (yValue key ∈ keys) then Some (Err DuplicateKey)
          else match check v with
               | Some (Ok _) => check_pairs (yValue key :: keys) content
               | r => r
               end
      end
  | _ => Some (Ok tt)
  end.

Fixpoint check_children (content : list ptr) : verdict :=
  match content with
  | [] => Some (Ok tt)
  | c :: content => match check c with Some (Ok _) => check_children content | r => r end
  end.

End Loops.

(** [stack] holds the nodes whose check is under way; a pointer outside the heap
    is nil. *)
Fixpoint validateYAMLNode (fuel : nat) (stack : gset ptr) (p : ptr) : verdict :=
  match fuel with
  | O => None
  | S fuel =>
      match h !! p with
      | None => Some (Ok tt)
      | Some node =>
          if bool_decide (p ∈ stack) then Some (Err AliasCycle)
          else
            let check := validateYAMLNode fuel ({[p]} ∪ stack) in
            if bool_decide (yKind node = AliasNode) then
              match yAlias node with None => Some (Ok tt) | Some q => check q end
            else if bool_decide (yKind node = MappingNode) then check_pairs check [] (yContent node)
            else check_children check (yContent node)
      end
  end.

(** On a document with root [p]. *)
Definition validate_root (p : ptr) : verdict := validateYAMLNode (S (size h)) ∅ p.

(** ** It ends *)

Definition alive (v : verdict) : Prop := v <> None.

Lemma pairs_alive check keys content :
  (forall p, alive (check p)) -> alive (check_pairs check keys content).
Proof.
  intros Hc. revert keys. remember (length content) as n eqn:En.
  revert content En; induction n as [n IH] using lt_wf_ind; intros [|k [|v content]] -> keys; simpl; try done.
  destruct (h !! k) as [key|]; [|done]. destruct (negb _); [done|]. case_bool_decide; [done|].
  specialize (Hc v). destruct (check v) as [[u|e]|]; [|done|done]. eapply IH; [|done]. simpl. lia.
Qed.

Lemma children_alive check content : (forall p, alive (check p)) -> alive (check_children check content).
Proof.
  intros Hc. induction content as [|c content IH]; simpl; [done|].
  specialize (Hc c). by destruct (check c) as [[u|e]|].
Qed.

(** Every nesting takes one more node of the heap on the stack. *)
Lemma validate_alive fuel stack p :
  (size (dom h ∖ stack) < fuel)%nat -> alive (validateYAMLNode fuel stack p).
Proof.
  revert stack p; induction fuel as [|fuel IH]; intros stack p Hf; [lia|]. simpl.
  destruct (h !! p) as [node|] eqn:E; [|done]. case_bool_decide as Hp; [done|].
  assert (forall q, alive (validateYAMLNode fuel ({[p]} ∪ stack) q)) as Hrec.
  { intros q. apply IH. enough (dom h ∖ ({[p]} ∪ stack) ⊂ dom h ∖ stack) as Hs.
    { apply subset_size in Hs. lia. }
    apply elem_of_dom_2 in E. set_solver. }
  case_bool_decide; [by destruct (yAlias node)|].
  case_bool_decide; [by apply pairs_alive|by apply children_alive].
Qed.

Lemma validate_root_alive p : alive (validate_root p).
Proof.
  apply validate_alive. replace (dom h ∖ ∅) with (dom h) by set_solver. rewrite size_dom. lia.
Qed.

(** ** What it accepts *)

(** The keys and values of a mapping; an odd last entry is ignored. *)
Fixpoint pairs (content : list ptr) : list (ptr * ptr) :=
  match content with k :: v :: content => (k, v) :: pairs content | _ => [] end.

Definition key_text (k : ptr) : option string :=
  n ← h !! k; if string_key n then Some (yValue n) else None.

(** The nodes checked below a node. *)
Definition below (n : ynode) : list ptr :=
  if bool_decide (yKind n = AliasNode) then option_list (yAlias n)
  else if bool_decide (yKind n = MappingNode) then (pairs (yContent n)).*2
  else yContent n.

(** Its own keys are strings and distinct. *)
Definition keys_fine (n : ynode) : Prop :=
  yKind n = MappingNode -> exists ks, Forall2 (fun kv k => key_text kv.1 = Some k) (pairs (yContent n)) ks /\ NoDup ks.

(** A node all of whose finite unfolding is fine; in particular it has one. *)
Inductive unambiguous : ptr -> Prop :=
  | ua_nil p : h !! p = None -> unambiguous p
  | ua_node p n : h !! p = Some n -> keys_fine n -> (forall q, q ∈ below n -> unambiguous q) -> unambiguous p.

Lemma pairs_iff check keys content :
  check_pairs check keys content = Some (Ok tt) <->
  (forall q, q ∈ (pairs content).*2 -> check q = Some (Ok tt)) /\
  exists ks, Forall2 (fun kv k => key_text kv.1 = Some k) (pairs content) ks /\
    NoDup ks /\ (forall k, k ∈ ks -> k ∉ keys).
Proof.
  revert keys. remember (length content) as n eqn:En.
  revert content En; induction n as [n IH] using lt_wf_ind; intros [|k [|v content]] -> keys; simpl.
  1,2: split; [intros _; split; [by intros q ?%not_elem_of_nil|]|done]; exists []; split_and!;
    [constructor|constructor|by intros k' ?%not_elem_of_nil].
  setoid_rewrite elem_of_cons.
  assert (forall P : list string -> Prop,
    (exists ks, Forall2 (fun kv k0 => key_text kv.1 = Some k0) ((k, v) :: pairs content) ks /\ P ks) <->
    exists t ks, key_text k = Some t /\ Forall2 (fun kv k0 => key_text kv.1 = Some k0) (pairs content) ks /\
      P (t :: ks)) as Hf2.
  { intros P. split.
    - intros (ks & Hf & HP). inversion Hf; subst. simpl in *. eauto 6.
    - intros (t & ks & Ht & Hf & HP). exists (t :: ks). split; [by constructor|done]. }
  rewrite Hf2. unfold key_text at 1. destruct (h !! k) as [key|]; simpl.
  2:{ split; [done|]. by intros (_ & t & ks & [=] & _). }
  destruct (string_key key); simpl; [|split; [done|]; by intros (_ & t & ks & [=] & _)].
  case_bool_decide as Hin.
  { split; [done|]. intros (_ & t & ks & [= <-] & _ & _ & Hn). exfalso. by apply (Hn (yValue key)); [left|]. }
  destruct (check v) as [[[]|e]|] eqn:Ev.
  - rewrite (IH (length content) ltac:(simpl; lia) content eq_refl (yValue key :: keys)).
    setoid_rewrite NoDup_cons. setoid_rewrite elem_of_cons. split.
    + intros (Hc & ks & Hf & Hnd & Hn). split; [naive_solver|].
      exists (yValue key), ks. split_and!; [done|done| |done|naive_solver].
      intros Hk. apply (Hn _ Hk). by left.
    + intros (Hc & t & ks & [= <-] & Hf & [Hni Hnd] & Hn). split; [auto|]. exists ks.
      split_and!; [done|done|]. intros k' Hk' [->|Hk'']; [done|]. eapply Hn; eauto.
  - split; [done|]. intros (Hc & _). specialize (Hc v (or_introl eq_refl)). congruence.
  - split; [done|]. intros (Hc & _). specialize (Hc v (or_introl eq_refl)). congruence.
Qed.

Lemma children_iff check content :
  check_children check content = Some (Ok tt) <-> forall q, q ∈ content -> check q = Some (Ok tt).
Proof.
  induction content as [|c content IH]; simpl.
  - split; [by intros _ q ?%not_elem_of_nil|done].
  - setoid_rewrite elem_of_cons. destruct (check c) as [[[]|e]|] eqn:E; [rewrite IH; naive_solver|..];
      (split; [done|]; intros Hc; specialize (Hc c (or_introl eq_refl)); congruence).
Qed.

(** One level of the check, whatever the node. *)
Lemma structure_iff fuel stack p n :
  h !! p = Some n ->
  validateYAMLNode (S fuel) stack p = Some (Ok tt) <->
  p ∉ stack /\ keys_fine n /\ forall q, q ∈ below n -> validateYAMLNode fuel ({[p]} ∪ stack) q = Some (Ok tt).
Proof.
  intros E. simpl. rewrite E. case_bool_decide as Hp; [naive_solver|]. unfold keys_fine, below.
  case_bool_decide as Ha.
  - destruct (yAlias n) as [q|]; simpl; (split; [|intros (_ & _ & Hq)]).
    + intros Hq. split_and!; [done|congruence|]. by intros q' ->%list_elem_of_singleton.
    + apply Hq. by left.
    + intros _. split_and!; [done|congruence|]. by intros q' ?%not_elem_of_nil.
    + done.
  - case_bool_decide as Hm; [rewrite pairs_iff|rewrite children_iff].
    + split.
      * intros (Hc & ks & Hf & Hnd & _). split_and!; [done| |done]. intros _. eauto.
      * intros (_ & Hk & Hc). destruct (Hk Hm) as (ks & Hf & Hnd). split; [done|]. exists ks.
        split_and!; [done|done|]. intros k _ Hk'. by apply not_elem_of_nil in Hk'.
    + naive_solver.
Qed.

Lemma validate_unambiguous fuel stack p :
  validateYAMLNode fuel stack p = Some (Ok tt) -> unambiguous p.
Proof.
  revert stack p; induction fuel as [|fuel IH]; intros stack p Hv; [done|].
  destruct (h !! p) as [n|] eqn:E; [|by apply ua_nil].
  destruct (proj1 (structure_iff fuel stack p n E) Hv) as (_ & Hk & Hq). eapply ua_node; [done|done|]. intros q Hin.
  by eapply IH, Hq.
Qed.

Definition child (p q : ptr) : Prop := exists n, h !! p = Some n /\ q ∈ below n.

(** An unambiguous node is not below itself. *)
Lemma unambiguous_acyclic p : unambiguous p -> ~ tc child p p.
Proof.
  assert (forall p q, unambiguous p -> child p q -> unambiguous q) as Hdown.
  { intros a b [c Hc|c n Hc _ Hb] (m & Hm & Hin); [congruence|]. rewrite Hc in Hm. injection Hm as <-. auto. }
  intros Hp. induction Hp as [p Hp|p n Hp Hk Hq IH]; intros Hc.
  - inversion Hc as [? ? (m & Hm & _)|? ? ? (m & Hm & _)]; congruence.
  - assert (exists q, child p q /\ (q = p \/ tc child q p)) as (q & (m & Hm & Hin) & Hcyc).
    { inversion Hc; subst; eauto. }
    rewrite Hp in Hm. injection Hm as <-. destruct Hcyc as [->|Hcyc]; [by apply (IH p Hin)|].
    apply (IH q Hin). eapply tc_transitive; [exact Hcyc|]. apply tc_once. exists n. done.
Qed.

Lemma unambiguous_validates fuel stack p :
  (size (dom h ∖ stack) < fuel)%nat -> unambiguous p -> (forall s, s ∈ stack -> tc child s p) ->
  validateYAMLNode fuel stack p = Some (Ok tt).
Proof.
  intros Hf Hp. revert fuel stack Hf. induction Hp as [p Hp|p n Hp Hk Hq IH]; intros [|fuel] stack Hf Hs; try lia.
  - simpl. by rewrite Hp.
  - assert (p ∉ stack) as Hni.
    { intros Hin. eapply unambiguous_acyclic; [by eapply ua_node|]. by apply Hs. }
    rewrite (structure_iff _ _ _ _ Hp). split_and!; [done|done|]. intros q Hin. apply IH; [done| |].
    + enough (dom h ∖ ({[p]} ∪ stack) ⊂ dom h ∖ stack) as Hsub by (apply subset_size in Hsub; lia).
      apply elem_of_dom_2 in Hp. set_solver.
    + assert (child p q) as Hpq by (exists n; done). intros s [Hx%elem_of_singleton|Hx]%elem_of_union.
      * subst s. by apply tc_once.
      * eapply tc_transitive; [by apply Hs|]. by apply tc_once.
Qed.

End Check.

(** The structure check ends on every document, however its aliases refer to
    each other, and accepts exactly those whose expansion is finite and whose
    mappings have distinct string keys throughout. *)
Theorem validateYAMLNode_spec h p :
  validate_root h p <> None /\ (validate_root h p = Some (Ok tt) <-> unambiguous h p).
Proof.
  split; [apply validate_root_alive|]. split; [apply validate_unambiguous|]. intros Hu.
  apply unambiguous_validates; [|done|set_solver].
  replace (dom h ∖ ∅) with (dom h) by set_solver. rewrite size_dom. lia.
Qed.

(** ** At work *)

(** [a: &x [*x]]: the anchor contains its own alias. *)
Definition loop_doc : heap :=
  <[1%positive := MkYNode DocumentNode "" "" [2%positive] None]>
  (<[2%positive := MkYNode MappingNode "!!map" "" [3; 4]%positive None]>
  (<[3%positive := MkYNode ScalarNode "!!str" "a" [] None]>
  (<[4%positive := MkYNode SequenceNode "!!seq" "" [5%positive] None]>
  (<[5%positive := MkYNode AliasNode "" "x" [] (Some 4%positive)]> ∅)))).

Example loop_rejected : validate_root loop_doc 1 = Some (Err AliasCycle).
Proof. vm_compute. reflexivity. Qed.

(** [a: 1] twice, and once; a merge key is not a string key. *)
Definition pair_doc (tag k1 k2 : string) : heap :=
  <[1%positive := MkYNode MappingNode "!!map" "" [2; 3; 4; 3]%positive None]>
  (<[2%positive := MkYNode ScalarNode "!!str" k1 [] None]>
  (<[3%positive := MkYNode ScalarNode "!!int" "1" [] None]>
  (<[4%positive := MkYNode ScalarNode tag k2 [] None]> ∅))).

Example keys_checked :
  validate_root (pair_doc "!!str" "a" "a") 1 = Some (Err DuplicateKey) /\
  validate_root (pair_doc "!!str" "a" "b") 1 = Some (Ok tt) /\
  validate_root (pair_doc "!!merge" "a" "<<") 1 = Some (Err KeyNotString).
Proof. vm_compute. auto. Qed.
