(* ===== verification/ConfigLoad.v ===== *)
(** * Loading the configuration ([internal/config/loader.go])

    The file system, the YAML parser and viper are parameters: what they answer
    is given, what the loader makes of it is modelled. *)

From S2P Require Import Prelude GoStrings Config Matcher RiskEngine ConfigValidate ConfigTheory YamlStructure.

(** Where loading stops. *)
Inductive load_error :=
  | EmptyPath
  | ResolvePath
  | StatFailed
  | ReadFailed (msg : string)
  | UnmarshalFailed
  | BadStructure
  | Invalid (ps : list problem)
  | ReadSource.

(** What [os.Lstat] tells of a file. *)
Record file_info := MkInfo { fiRegular : bool; fiSymlink : bool }.

Record Loaded := MkLoaded {
  ldConfig : Config; ldPath : string; ldRaw : list Z; ldExplicit : bool; ldManaged : bool;
}.

(** [isConfigFileNotFoundError]: by the text of the error. *)
Definition isConfigFileNotFoundError (msg : string) : bool :=
  Contains msg "no such file" || Contains msg "While parsing config" || Contains msg "ConfigFileNotFound".

Section Load.
Context `{Unicode, Regexp, MapRange}.

(** The environment: [filepath.Abs], [os.Stat], [os.Lstat], [os.ReadFile]; viper
    reading the file set (or found), and decoding what it read. *)
Context {Settings : Type}.
Variable file_abs : string -> option string.
Variable os_stat : string -> bool.
Variable os_lstat : string -> option file_info.
Variable os_read : string -> option (list Z).
Variable read_in_config : option string -> result string Settings.
Variable unmarshal_exact : Settings -> option Config.
(** [yaml.Unmarshal] into a node, and viper reading bytes. *)
Variable yaml_parse : list Z -> option (heap * ptr).
Variable read_config : list Z -> result string Settings.

Definition LoadRaw (path : string) : result load_error Config :=
  let read (file : option string) : result load_error Config :=
    match read_in_config file with
    | Err msg =>
        if (path =? "")%string && isConfigFileNotFoundError msg then Ok zero_config else Err (ReadFailed msg)
    | Ok v => match unmarshal_exact v with Some cfg => Ok cfg | None => Err UnmarshalFailed end
    end in
  if negb (path =? "")%string then
    match file_abs path with
    | None => Err ResolvePath
    | Some abs => if negb (os_stat abs) then Err StatFailed else read (Some abs)
    end
  else read None.

(** The checks, after the defaults; a search out of fuel cannot happen. *)
Definition finish (cfg : Config) : result load_error Config :=
  let cfg := applyDefaults cfg in
  match Validate cfg with
  | Some [] => Ok cfg
  | Some ps => Err (Invalid ps)
  | None => Err (Invalid [])
  end.

Definition Load (path : string) : result load_error Config :=
  cfg <-! LoadRaw path ;; finish cfg.

Definition LoadWithSource (path : string) (explicit : bool) : result load_error Loaded :=
  let blank := (TrimSpace path =? "")%string in
  if explicit && blank then Err EmptyPath
  else
    cfg <-! Load path ;;
    if blank then Ok (MkLoaded cfg "" [] explicit false)
    else
      match file_abs path with
      | None => Err ResolvePath
      | Some abs =>
          match os_lstat abs with
          | None => Err StatFailed
          | Some info =>
              match os_read abs with
              | None => Err ReadSource
              | Some raw =>
                  Ok (MkLoaded cfg abs raw explicit (explicit && fiRegular info && negb (fiSymlink info)))
              end
          end
      end.

Definition ValidateYAMLStructure (raw : list Z) : result load_error unit :=
  match yaml_parse raw with
  | None => Err BadStructure
  | Some (h, root) => match validate_root h root with Some (Ok _) => Ok tt | _ => Err BadStructure end
  end.

Definition LoadRawFromBytes (b : list Z) : result load_error Config :=
  _ <-! ValidateYAMLStructure b ;;
  match read_config b with
  | Err msg => Err (ReadFailed msg)
  | Ok v => match unmarshal_exact v with Some cfg => Ok cfg | None => Err UnmarshalFailed end
  end.

(** ** What a load gives *)

Lemma finish_iff cfg c : finish cfg = Ok c <-> c = applyDefaults cfg /\ valid_config c.
Proof.
  unfold finish. rewrite <- (Validate_iff c). split.
  - destruct (Validate (applyDefaults cfg)) as [[|p ps]|] eqn:E; [|done|done]. by intros [= <-].
  - by intros [-> ->].
Qed.

(** Only an explicit, regular file that is not a link is managed, and the
    configuration that comes with it is valid and defaulted. *)
Lemma LoadWithSource_inv path explicit l :
  LoadWithSource path explicit = Ok l ->
  valid_config (ldConfig l) /\ (exists raw, LoadRaw path = Ok raw /\ ldConfig l = applyDefaults raw) /\
  (ldManaged l = true -> explicit = true /\ TrimSpace path <> ""%string /\
     exists abs info, file_abs path = Some abs /\ ldPath l = abs /\ os_lstat abs = Some info /\
       fiRegular info = true /\ fiSymlink info = false /\ os_read abs = Some (ldRaw l)).
Proof.
  unfold LoadWithSource, Load. destruct (explicit && _) eqn:Eb; [done|].
  destruct (LoadRaw path) as [raw|] eqn:Er; [|done]. destruct (finish raw) as [c|] eqn:Ef; [|done].
  apply finish_iff in Ef as [Hd Hv]. destruct (String.eqb_spec (TrimSpace path) "").
  - intros [= <-]. simpl. split_and!; [done|by eexists|done].
  - destruct (file_abs path) as [abs|] eqn:Ea; [|done]. destruct (os_lstat abs) as [info|] eqn:Ei; [|done].
    destruct (os_read abs) as [b|] eqn:Eo; [|done]. intros [= <-]. simpl. split_and!; [done|by eexists|].
    intros [[-> Hr]%andb_prop Hs%negb_true_iff]%andb_prop. split_and!; [done|done|]. exists abs, info. done.
Qed.

(** C39: Loading: a configuration that is handed out was read, completed with the
    defaults and validated; it is marked as managed only when the operator named
    a regular file, not a link, whose bytes come along; and with no file named
    and none found the fallback, an empty configuration, never loads, whatever
    the environment variables say. *)
Theorem LoadWithSource_spec path explicit :
  (forall l, LoadWithSource path explicit = Ok l ->
     valid_config (ldConfig l) /\ (exists raw, LoadRaw path = Ok raw /\ ldConfig l = applyDefaults raw) /\
     (ldManaged l = true -> explicit = true /\ TrimSpace path <> ""%string /\
        exists abs info, file_abs path = Some abs /\ ldPath l = abs /\ os_lstat abs = Some info /\
          fiRegular info = true /\ fiSymlink info = false /\ os_read abs = Some (ldRaw l))) /\
  (forall msg, read_in_config None = Err msg -> Load "" =
     Err (if isConfigFileNotFoundError msg then Invalid [NoModeEnabled] else ReadFailed msg)).
Proof.
  split; [apply LoadWithSource_inv|]. intros msg Hm. unfold Load, LoadRaw. simpl. rewrite Hm.
  destruct (isConfigFileNotFoundError msg); [|done]. unfold finish, Validate, check_head, check_tail.
  change (EqualFold (pAlgorithm (cPow (applyDefaults zero_config))) Pow.DefaultAlgorithm)
    with (EqualFold Pow.DefaultAlgorithm Pow.DefaultAlgorithm). by rewrite EqualFold_refl.
Qed.

End Load.

(** ** One file system *)

Module LoadSample.
#[local] Existing Instances ascii_unicode literal_regexp key_order.

Definition raw_config : Config := ConfigSample.with_risk (cRiskControl zero_config).

(** One file, which viper reads as [raw_config]; nothing is found otherwise. *)
Definition load := @LoadWithSource ascii_unicode literal_regexp key_order Config Some
  (fun p => p =? "/etc/waf.yaml")%string
  (fun p => if (p =? "/etc/waf.yaml")%string then Some (MkInfo true false) else None)
  (fun p => if (p =? "/etc/waf.yaml")%string then Some (bytes_of "pow: {}") else None)
  (fun f => match f with Some _ => Ok raw_config | None => Err "Config File Not Found"%string end) Some.

Lemma LoadWithSource_spec_witness :
  match load "/etc/waf.yaml" true with
  | Ok l => ldManaged l = true /\ valid_config (ldConfig l)
  | Err _ => False
  end.
Proof.
  assert (match load "/etc/waf.yaml" true with Ok l => ldManaged l | Err _ => false end = true) as Hm
    by (vm_compute; reflexivity).
  destruct (load "/etc/waf.yaml" true) as [l|] eqn:E; [|discriminate]. split; [exact Hm|].
  unfold load in E. apply (proj1 (LoadWithSource_spec _ _ _ _ _ _ "/etc/waf.yaml" true)) in E. exact (proj1 E).
Defined.

Example other_paths :
  load "" true = Err EmptyPath /\ load "" false = Err (ReadFailed "Config File Not Found") /\
  load "/etc/other.yaml" true = Err StatFailed.
Proof. split_and!; vm_compute; reflexivity. Qed.

End LoadSample.
