(* ===== verification/ConfigStore.v ===== *)
(** * The configuration store ([internal/configstore/{store,atomic}.go])

    One configuration file, the numbered revisions beside it, and at most one
    draft.  Operations read and write a [disk] and may fail at any system call:
    [works] tells which calls succeed, and [io] counts them.  Every change of the
    disk is recorded in [log], so that a crash is a prefix of it. *)

From stdpp Require Import sorting.
From S2P Require Import Prelude GoStrings GoTime Strconv.

Inductive store_error :=
  | ErrUnmanaged
  | ErrConflict
  | ErrDraftNotFound
  | ErrDraftExpired
  | ErrDraftConflict
  | ErrRevisionNotFound
  | ErrInvalidRevision
  | ErrTooLarge
  | ErrNotExist
  | ErrIO
  | ErrJSON.

Definition maxDraftBytes : Z := Z.shiftl 128 10.

(** ** Data *)

Record Draft := MkDraft {
  drID : string; drRevision : Z; drBaseRevision : Z; drRaw : list Z; drUpdatedAt : Z;
  drValidated : bool; drDiffRevision : Z;
}.

Record DraftSummary := MkSummary {
  dsID : string; dsRevision : Z; dsBaseRevision : Z; dsUpdatedAt : Z; dsValidated : bool; dsDiffRevision : Z;
}.

Record Status := MkStatus {
  suManaged : bool; suPath : string; suCurrentRevision : Z; suCurrentUpdatedAt : Z;
  suPendingRestart : bool; suDraft : option DraftSummary;
}.

Record RevisionMeta := MkMeta {
  rmRevision : Z; rmParentRevision : Z; rmAction : string; rmActor : string; rmReason : string;
  rmRollbackTarget : Z; rmChanged : Z; rmDanger : string; rmRestartRequired : bool; rmCreatedAt : Z;
}.

Record Revision := MkRevision { rvMeta : RevisionMeta; rvRaw : list Z }.

Record ApplyRequest := MkApply {
  aqRaw : list Z; aqExpectedRevision : Z; aqActor : string; aqReason : string; aqChanged : Z;
  aqDanger : string; aqRestartRequired : bool; aqAction : string; aqRollbackTarget : Z;
}.

Record ApplyResult := MkApplied {
  arRevision : Z; arPrevious : Z; arMeta : RevisionMeta; arRestartRequired : bool;
}.

Record Store := MkStore {
  path : string; managed : bool; raw : list Z; revision : Z; updated : Z;
  draft : option Draft; pendingRestart : bool;
}.

Definition draftSummary (d : Draft) : DraftSummary :=
  MkSummary (drID d) (drRevision d) (drBaseRevision d) (drUpdatedAt d) (drValidated d) (drDiffRevision d).

(** ** The disk *)

(** The active file and the files of the history directory, by name; [None] when
    absent.  The temporary files of [atomicReplace], which nothing reads, and
    the modes are left out. *)
Record disk := MkDisk { file : option (list Z); history : option (gmap string (list Z)) }.

Record io := MkIO { on_disk : disk; calls : nat; log : list disk }.

Definition IO (A : Type) : Type := io -> A * io.
#[export] Instance IO_ret : MRet IO := fun A a w => (a, w).
#[export] Instance IO_bind : MBind IO := fun A B k m w => let '(a, w) := m w in k a w.

(** Continue on success, hand the error on. *)
Definition ok_bind {A B} (m : IO (result store_error A)) (k : A -> IO (result store_error B))
  : IO (result store_error B) :=
  r ← m; match r with Ok a => k a | Err e => mret (Err e) end.
Notation "x <-? m ;; k" := (ok_bind m (fun x => k))
  (at level 200, m at level 99, k at level 200, right associativity) : waf_scope.

Definition fail_with {A} (e : store_error) : IO (result store_error A) := mret (Err e).

Definition revisionName (r : Z) : string :=
  let digits := bytes_of (format_int r) in
  "revision-" +:+ of_bytes (replicate (6 - length digits) 48 ++ digits).
Definition yaml_name (r : Z) : string := revisionName r +:+ ".yaml".
Definition json_name (r : Z) : string := revisionName r +:+ ".json".

(** [encoding/json] on revision metadata. *)
Class MetaCodec := {
  meta_marshal : RevisionMeta -> option (list Z);
  meta_unmarshal : list Z -> option RevisionMeta;
}.

Section Store.
Context `{MetaCodec}.
(** Whether the [n]-th system call succeeds, the clock, and [randomID]. *)
Variable works : nat -> bool.
Variable clk : nat -> Z.
Variable random_id : nat -> string.

Definition attempt : IO bool := fun w => (works (calls w), MkIO (on_disk w) (S (calls w)) (log w)).
Definition now : IO Z := fun w => (clk (calls w), MkIO (on_disk w) (S (calls w)) (log w)).
Definition randomID : IO string := fun w => (random_id (calls w), MkIO (on_disk w) (S (calls w)) (log w)).
Definition get_disk : IO disk := fun w => (on_disk w, w).
Definition set_disk (d : disk) : IO unit := fun w => (tt, MkIO d (calls w) (log w ++ [d])).

(** [os.ReadFile]. *)
Definition read (content : disk -> option (list Z)) : IO (result store_error (list Z)) :=
  d ← get_disk; okb ← attempt;
  mret (if okb : bool then match content d with Some b => Ok b | None => Err ErrNotExist end else Err ErrIO).

Definition in_history (name : string) (d : disk) : option (list Z) := h ← history d; h !! name.

(** [os.MkdirAll] of the history directory. *)
Definition mkdir_history : IO (result store_error unit) :=
  d ← get_disk; okb ← attempt;
  if okb : bool then
    match history d with
    | Some _ => mret (Ok tt)
    | None => _ ← set_disk (MkDisk (file d) (Some ∅)); mret (Ok tt)
    end
  else fail_with ErrIO.

(** [atomicReplace]: make the directory, create, chmod, write, sync and close a
    temporary file, and rename it over the target, which is the only step that
    shows. *)
Definition prepare : IO (result store_error unit) :=
  mk ← attempt; if negb mk then fail_with ErrIO else
  create ← attempt; if negb create then fail_with ErrIO else
  chmod ← attempt; if negb chmod then fail_with ErrIO else
  write ← attempt; if negb write then fail_with ErrIO else
  sync ← attempt; if negb sync then fail_with ErrIO else
  close ← attempt; if negb close then fail_with ErrIO else
  rename ← attempt; if negb rename then fail_with ErrIO else
  mret (Ok tt).

Definition put_history (name : string) (data : list Z) (d : disk) : disk :=
  MkDisk (file d) (Some (<[name := data]> (default ∅ (history d)))).
Definition put_file (data : list Z) (d : disk) : disk := MkDisk (Some data) (history d).
Definition drop_history (name : string) (d : disk) : disk := MkDisk (file d) (delete name <$> history d).

Definition atomicReplace (put : list Z -> disk -> disk) (data : list Z) : IO (result store_error unit) :=
  _ <-? prepare ;;
  d ← get_disk; _ ← set_disk (put data d); mret (Ok tt).

(** [_ = os.Remove(name)]. *)
Definition remove (name : string) : IO unit :=
  d ← get_disk; okb ← attempt;
  if okb : bool then set_disk (drop_history name d) else mret tt.

Definition removeRevisionLocked (r : Z) : IO unit :=
  _ ← remove (yaml_name r); remove (json_name r).

Definition writeRevisionLocked (meta : RevisionMeta) (data : list Z) : IO (result store_error unit) :=
  _ <-? mkdir_history ;;
  _ <-? atomicReplace (put_history (yaml_name (rmRevision meta))) data ;;
  match meta_marshal meta with
  | None => _ ← removeRevisionLocked (rmRevision meta); fail_with ErrJSON
  | Some js =>
      r ← atomicReplace (put_history (json_name (rmRevision meta))) js;
      match r with
      | Ok _ => mret (Ok tt)
      | Err e => _ ← removeRevisionLocked (rmRevision meta); fail_with e
      end
  end.

Definition readMeta (name : string) : IO (result store_error RevisionMeta) :=
  b <-? read (in_history name) ;;
  mret (match meta_unmarshal b with Some m => Ok m | None => Err ErrJSON end).

(** The loop of [readMetasLocked] over the names of the directory. *)
Fixpoint read_metas (names : list string) : IO (result store_error (list RevisionMeta)) :=
  match names with
  | [] => mret (Ok [])
  | n :: names =>
      if negb (HasSuffix n ".json") then read_metas names
      else
        m <-? readMeta n ;;
        ms <-? read_metas names ;;
        mret (Ok (m :: ms))
  end.

(** [os.ReadDir] lists by name. *)
Definition readMetasLocked : IO (result store_error (list RevisionMeta)) :=
  d ← get_disk; okb ← attempt;
  match history d with
  | Some h => if okb : bool then read_metas (merge_sort String.le (map_to_list h).*1) else fail_with ErrIO
  | None => fail_with ErrNotExist
  end.

(** ** Operations *)

(** [loadHistory]: the highest revision on disk, and its time. *)
Definition latest (items : list RevisionMeta) (r0 u0 : Z) : Z * Z :=
  fold_left (fun '(r, u) m => if r <? rmRevision m then (rmRevision m, rmCreatedAt m) else (r, u)) items (r0, u0).

Definition zero_meta (r parent : Z) (action : string) (t : Z) : RevisionMeta :=
  MkMeta r parent action "" "" 0 0 "" false t.

(** [New], [abs] what [filepath.Abs] gives. *)
Definition New (abs : option string) (p : string) (content : list Z) (isManaged : bool)
  : IO (result store_error Store) :=
  if negb isManaged then mret (Ok (MkStore p false content 0 zero_time None false))
  else if (TrimSpace p =? "")%string then fail_with ErrUnmanaged
  else
    match abs with
    | None => fail_with ErrIO
    | Some abs =>
        _ <-? read file ;;  (* os.OpenFile(abs, os.O_WRONLY, 0) *)
        close ← attempt;
        if negb close then fail_with ErrIO else
        _ <-? mkdir_history ;;
        items <-? readMetasLocked ;;
        let '(rev, upd) := latest items 0 zero_time in
        if rev =? 0 then
          t ← now;
          _ <-? writeRevisionLocked (zero_meta 1 0 "bootstrap" t) content ;;
          u ← now;
          mret (Ok (MkStore abs true content 1 u None false))
        else
          last <-? read (in_history (yaml_name rev)) ;;
          if bool_decide (last = content) then mret (Ok (MkStore abs true content rev upd None false))
          else
            let next := wrapu64 (rev + 1) in
            t ← now;
            _ <-? writeRevisionLocked (zero_meta next rev "external" t) content ;;
            mret (Ok (MkStore abs true content next t None false))
    end.

Definition status (s : Store) : Status :=
  MkStatus (managed s) (path s) (revision s) (updated s) (pendingRestart s) (draftSummary <$> draft s).

Definition Current (s : Store) : Z * list Z := (revision s, raw s).

Definition with_draft (d : option Draft) (s : Store) : Store :=
  MkStore (path s) (managed s) (raw s) (revision s) (updated s) d (pendingRestart s).

Definition SaveDraft (baseRevision : Z) (id : string) (expectedRevision : Z) (data : list Z) (s : Store)
  : IO (result store_error Draft * Store) :=
  let refuse (e : store_error) : IO (result store_error Draft * Store) := mret (Err e, s) in
  if negb (managed s) then refuse ErrUnmanaged
  else if maxDraftBytes <? Z.of_nat (length data) then refuse ErrTooLarge
  else
    let base := if baseRevision =? 0 then revision s else baseRevision in
    if negb (base =? revision s) then refuse ErrConflict
    else
      let bad :=
        match draft s with
        | Some d => if (id =? "")%string || negb (id =? drID d)%string || negb (expectedRevision =? drRevision d)
                    then Some ErrDraftConflict else None
        | None => if negb (id =? "")%string then Some ErrDraftNotFound else None
        end in
      match bad with
      | Some e => refuse e
      | None =>
          id ← (if (id =? "")%string then randomID else mret id);
          t ← now;
          let rev := match draft s with Some d => wrapu64 (drRevision d + 1) | None => 1 end in
          let d := MkDraft id rev base data t false 0 in
          mret (Ok d, with_draft (Some d) s)
      end.

Definition GetDraft (id : string) (s : Store) : IO (result store_error Draft * Store) :=
  match draft s with
  | None => mret (Err ErrDraftNotFound, s)
  | Some d =>
      if negb (id =? "")%string && negb (drID d =? id)%string then mret (Err ErrDraftNotFound, s)
      else
        t ← now;
        if 24 * hour <? time_sub t (drUpdatedAt d) then mret (Err ErrDraftExpired, with_draft None s)
        else mret (Ok d, s)
  end.

Definition MarkDraftValidated (id : string) (rev diffRevision : Z) (s : Store) : result store_error unit * Store :=
  match draft s with
  | None => (Err ErrDraftNotFound, s)
  | Some d =>
      if negb (drID d =? id)%string then (Err ErrDraftNotFound, s)
      else if negb (drRevision d =? rev) then (Err ErrDraftConflict, s)
      else (Ok tt, with_draft (Some (MkDraft (drID d) (drRevision d) (drBaseRevision d) (drRaw d)
                                        (drUpdatedAt d) true diffRevision)) s)
  end.

Definition DiscardDraft (id : string) (expectedRevision : Z) (s : Store) : result store_error unit * Store :=
  if negb (managed s) then (Err ErrUnmanaged, s)
  else
    match draft s with
    | None => (Err ErrDraftNotFound, s)
    | Some d =>
        if negb (drID d =? id)%string then (Err ErrDraftNotFound, s)
        else if negb (expectedRevision =? 0) && negb (drRevision d =? expectedRevision)
        then (Err ErrDraftConflict, s)
        else (Ok tt, with_draft None s)
    end.

Definition checkExternalLocked (s : Store) : IO (result store_error unit) :=
  if negb (managed s) then fail_with ErrUnmanaged
  else
    b <-? read file ;;
    if bool_decide (b = raw s) then mret (Ok tt) else fail_with ErrConflict.

Definition apply_meta (s : Store) (req : ApplyRequest) (next t : Z) : RevisionMeta :=
  MkMeta next (revision s) (if (aqAction req =? "")%string then "apply" else aqAction req) (aqActor req)
    (aqReason req) (aqRollbackTarget req) (aqChanged req) (aqDanger req) (aqRestartRequired req) t.

Definition Apply (req : ApplyRequest) (s : Store) : IO (result store_error ApplyResult * Store) :=
  let refuse (e : store_error) : IO (result store_error ApplyResult * Store) := mret (Err e, s) in
  if negb (managed s) then refuse ErrUnmanaged
  else
    ext ← checkExternalLocked s;
    match ext with
    | Err e => refuse e
    | Ok _ =>
        if negb (aqExpectedRevision req =? 0) && negb (aqExpectedRevision req =? revision s) then refuse ErrConflict
        else if maxDraftBytes <? Z.of_nat (length (aqRaw req)) then refuse ErrTooLarge
        else
          let next := wrapu64 (revision s + 1) in
          t ← now;
          let meta := apply_meta s req next t in
          w ← writeRevisionLocked meta (aqRaw req);
          match w with
          | Err e => refuse e
          | Ok _ =>
              r ← atomicReplace put_file (aqRaw req);
              match r with
              | Err e => _ ← removeRevisionLocked next; refuse e
              | Ok _ =>
                  mret (Ok (MkApplied next (revision s) meta (aqRestartRequired req)),
                        MkStore (path s) true (aqRaw req) next t None true)
              end
          end
    end.

(** Newest first. *)
Definition newer (a b : RevisionMeta) : Prop := rmRevision b <= rmRevision a.
#[export] Instance newer_dec : RelDecision newer.
Proof. intros a b. unfold newer. apply _. Defined.

Definition History (limit : Z) (s : Store) : IO (result store_error (list RevisionMeta)) :=
  if negb (managed s) then fail_with ErrUnmanaged
  else
    let limit := if (limit <=? 0) || (200 <? limit) then 50 else limit in
    items <-? readMetasLocked ;;
    mret (Ok (take (Z.to_nat limit) (merge_sort newer items))).

Definition HistoryGet (r : Z) (s : Store) : IO (result store_error Revision) :=
  if negb (managed s) || (r =? 0) then fail_with ErrRevisionNotFound
  else
    m ← readMeta (json_name r);
    match m with
    | Err ErrNotExist => fail_with ErrRevisionNotFound
    | Err e => fail_with e
    | Ok meta =>
        b <-? read (in_history (yaml_name r)) ;;
        mret (Ok (MkRevision meta b))
    end.

End Store.
