(* ===== verification/ConfigStoreTheory.v ===== *)
(** * The configuration store keeps what it promises

    Revisions have distinct names; an application either replaces the file and
    records the revision, or changes nothing the store relies on; it is refused
    when the file or the revision is not the one the caller saw; a crash at any
    point of an application that succeeds leaves a disk the store opens again, and
    one that fails keeps the file and its revision, but may leave a record of the
    next revision with which the disk does not open. *)

From stdpp Require Import sorting.
From S2P Require Import Prelude GoStrings GoTime Strconv ConfigStore.

(** ** Names *)

Lemma dec_value_zeros n l : dec_value 0 (replicate n 48 ++ l) = dec_value 0 l.
Proof. induction n; simpl; auto. Qed.

Definition rev_range (r : Z) : Prop := 0 <= r < two64.

Lemma format_value r : rev_range r -> dec_value 0 (bytes_of (format_int r)) = r.
Proof.
  unfold rev_range, two64. intros Hr. rewrite format_int_bytes. unfold dec_bytes.
  destruct (Z.eqb_spec r 0) as [->|Hz]; [done|]. rewrite (proj2 (Z.ltb_ge r 0)) by lia.
  rewrite app_nil_l, itoa_loop_value; [lia|].
  change (10 ^ Z.of_nat 20) with 100000000000000000000. lia.
Qed.

Lemma revisionName_bytes r :
  bytes_of (revisionName r) = bytes_of "revision-" ++ replicate (6 - length (bytes_of (format_int r))) 48
    ++ bytes_of (format_int r).
Proof.
  unfold revisionName. rewrite bytes_of_app, bytes_of_of; [done|].
  apply Forall_app. split; [|apply bytes_of_range]. apply Forall_replicate. unfold is_byte. lia.
Qed.

Lemma revisionName_inj r r' : rev_range r -> rev_range r' -> revisionName r = revisionName r' -> r = r'.
Proof.
  intros Hr Hr' E. apply (f_equal bytes_of) in E. rewrite !revisionName_bytes in E.
  apply app_inv_head in E. apply (f_equal (dec_value 0)) in E. by rewrite !dec_value_zeros, !format_value in E.
Qed.

Lemma suffix_inj (a b c : string) : (a +:+ c = b +:+ c)%string -> a = b.
Proof.
  intros E. apply (f_equal bytes_of) in E. rewrite !bytes_of_app in E. apply app_inv_tail in E.
  by apply bytes_of_inj.
Qed.

Lemma yaml_name_inj r r' : rev_range r -> rev_range r' -> yaml_name r = yaml_name r' -> r = r'.
Proof. intros ? ? E%suffix_inj. by apply revisionName_inj. Qed.
Lemma json_name_inj r r' : rev_range r -> rev_range r' -> json_name r = json_name r' -> r = r'.
Proof. intros ? ? E%suffix_inj. by apply revisionName_inj. Qed.

Lemma json_name_suffix r : HasSuffix (json_name r) ".json" = true.
Proof. apply HasSuffix_spec. by eexists. Qed.

Lemma yaml_name_not_json r r' : yaml_name r <> json_name r'.
Proof.
  intros E. apply (f_equal (fun s => HasSuffix s ".json")) in E. rewrite json_name_suffix in E.
  apply HasSuffix_spec in E as [p E]. apply (f_equal bytes_of) in E. unfold yaml_name in E.
  rewrite !bytes_of_app in E. apply (f_equal (@rev Z)) in E. rewrite !rev_app_distr in E. by simpl in E.
Qed.

Lemma yaml_name_suffix r : HasSuffix (yaml_name r) ".json" = false.
Proof.
  destruct (HasSuffix (yaml_name r) ".json") eqn:E; [|done]. apply HasSuffix_spec in E as [p E].
  apply (f_equal bytes_of) in E. unfold yaml_name in E.
  rewrite !bytes_of_app in E. apply (f_equal (@rev Z)) in E. rewrite !rev_app_distr in E. by simpl in E.
Qed.

Section Theory.
Context `{MetaCodec}.
Variable works : nat -> bool.
Variable clk : nat -> Z.
Variable random_id : nat -> string.

(** ** Calls *)

Definition wp {A} (m : IO A) (Q : A -> io -> Prop) (w : io) : Prop := Q (m w).1 (m w).2.

Lemma wp_io_ret {A} (a : A) Q w : Q a w -> wp (mret a) Q w.
Proof. done. Qed.

Lemma wp_io_bind {A B} (m : IO A) (k : A -> IO B) Q w :
  wp m (fun a => wp (k a) Q) w -> wp (m ≫= k) Q w.
Proof. unfold wp, mbind, IO_bind. by destruct (m w). Qed.

Lemma wp_io_mono {A} (m : IO A) (Q Q' : A -> io -> Prop) w :
  wp m Q w -> (forall a w', Q a w' -> Q' a w') -> wp m Q' w.
Proof. unfold wp. auto. Qed.

Lemma wp_ok_bind {A B} (m : IO (result store_error A)) (k : A -> IO (result store_error B)) Q w :
  wp m (fun r => match r with Ok a => wp (k a) Q | Err e => Q (Err e) end) w -> wp (ok_bind m k) Q w.
Proof.
  intros Hm. unfold ok_bind. apply wp_io_bind. eapply wp_io_mono; [exact Hm|]. by intros [a|e] w'.
Qed.

(** A call that leaves the disk alone. *)
Definition quiet {A} (m : IO A) : Prop := forall w, on_disk (m w).2 = on_disk w /\ log (m w).2 = log w.

Lemma quiet_ret {A} (a : A) : quiet (mret a).
Proof. done. Qed.

Lemma quiet_bind {A B} (m : IO A) (k : A -> IO B) : quiet m -> (forall a, quiet (k a)) -> quiet (m ≫= k).
Proof.
  intros Hm Hk w. unfold mbind, IO_bind. specialize (Hm w). destruct (m w) as [a w1]. destruct Hm as [<- <-].
  apply Hk.
Qed.

Lemma quiet_ok_bind {A B} (m : IO (result store_error A)) (k : A -> IO (result store_error B)) :
  quiet m -> (forall a, quiet (k a)) -> quiet (ok_bind m k).
Proof. intros Hm Hk. apply quiet_bind; [done|]. intros [a|e]; [apply Hk|apply quiet_ret]. Qed.

Lemma quiet_attempt : quiet (attempt works).
Proof. done. Qed.
Lemma quiet_now : quiet (now clk).
Proof. done. Qed.
Lemma quiet_fail {A} e : quiet (fail_with (A := A) e).
Proof. done. Qed.

Lemma quiet_read f : quiet (read works f).
Proof. done. Qed.

Lemma quiet_HistoryGet r s : quiet (HistoryGet works r s).
Proof.
  unfold HistoryGet. destruct (_ || _); [apply quiet_fail|]. apply quiet_bind; [apply quiet_ok_bind; [apply quiet_read|]|].
  - intros b. apply quiet_ret.
  - intros [m|e]; [|by destruct e; apply quiet_fail]. apply quiet_ok_bind; [apply quiet_read|]. intros b. apply quiet_ret.
Qed.

Lemma quiet_prepare : quiet (prepare works).
Proof.
  unfold prepare. repeat (apply quiet_bind; [apply quiet_attempt|]; intros []; simpl; [|apply quiet_fail]).
  apply quiet_ret.
Qed.

Lemma wp_quiet {A} (m : IO A) (Q : A -> io -> Prop) w :
  quiet m -> (forall a w', on_disk w' = on_disk w -> log w' = log w -> Q a w') -> wp m Q w.
Proof. intros Hm Hq. destruct (Hm w). by apply Hq. Qed.

(** What a replacement does. *)
Lemma wp_atomicReplace put data Q w :
  (forall w', on_disk w' = put data (on_disk w) -> log w' = log w ++ [put data (on_disk w)] -> Q (Ok tt) w') ->
  (forall e w', on_disk w' = on_disk w -> log w' = log w -> Q (Err e) w') ->
  wp (atomicReplace works put data) Q w.
Proof.
  intros Ho He. unfold atomicReplace. apply wp_ok_bind, wp_quiet; [apply quiet_prepare|].
  intros [[]|e] w1 D1 L1; [|by apply He]. apply wp_io_bind. unfold wp at 1, get_disk. simpl. apply Ho; simpl; congruence.
Qed.

Lemma wp_remove name Q w :
  (forall w', on_disk w' = drop_history name (on_disk w) -> log w' = log w ++ [drop_history name (on_disk w)] -> Q tt w') ->
  (forall w', on_disk w' = on_disk w -> log w' = log w -> Q tt w') ->
  wp (remove works name) Q w.
Proof.
  intros Hd Hn. unfold remove, wp, get_disk, attempt, set_disk, mbind, IO_bind. simpl.
  destruct (works (calls w)); [by apply Hd|by apply Hn].
Qed.

Lemma wp_read f Q w :
  (forall b w', f (on_disk w) = Some b -> on_disk w' = on_disk w -> log w' = log w -> Q (Ok b) w') ->
  (forall e w', on_disk w' = on_disk w -> log w' = log w -> (e = ErrNotExist -> f (on_disk w) = None) -> Q (Err e) w') ->
  wp (read works f) Q w.
Proof.
  intros Ho He. unfold read, wp, get_disk, attempt, mbind, IO_bind. simpl.
  destruct (works (calls w)); [destruct (f (on_disk w)) eqn:E; [by apply Ho|by apply He]|by apply He].
Qed.

(** ** What the history holds *)

(** Every file of metadata can be read, is named after its revision, and has the
    bytes of the revision beside it. *)
Definition whole (d : disk) : Prop :=
  forall n b, in_history n d = Some b -> HasSuffix n ".json" = true ->
    exists m, meta_unmarshal b = Some m /\ n = json_name (rmRevision m) /\ 0 < rmRevision m < two64 /\
      is_Some (in_history (yaml_name (rmRevision m)) d).

(** Revision [rmRevision meta] is on record with these bytes. *)
Definition recorded (meta : RevisionMeta) (data : list Z) (d : disk) : Prop :=
  in_history (yaml_name (rmRevision meta)) d = Some data /\
  exists js, in_history (json_name (rmRevision meta)) d = Some js /\ meta_unmarshal js = Some meta.

(** Only the files of revision [r] differ; with [fits], the active file neither. *)
Definition others (r : Z) (d d' : disk) : Prop :=
  forall n, n <> yaml_name r -> n <> json_name r -> in_history n d' = in_history n d.
Definition fits (r : Z) (d d' : disk) : Prop := file d' = file d /\ others r d d'.

(** What was written since satisfies [P]. *)
Definition wrote (P : disk -> Prop) (w w' : io) : Prop := exists l, log w' = log w ++ l /\ Forall P l.

Lemma wrote_refl P w w' : log w' = log w -> wrote P w w'.
Proof. intros E. exists []. by rewrite app_nil_r. Qed.

Lemma wrote_one (P : disk -> Prop) w w' d : log w' = log w ++ [d] -> P d -> wrote P w w'.
Proof. intros E Hd. exists [d]. auto. Qed.

Lemma wrote_trans P w1 w2 w3 : wrote P w1 w2 -> wrote P w2 w3 -> wrote P w1 w3.
Proof.
  intros (l & E & Hl) (l' & E' & Hl'). exists (l ++ l'). rewrite E', E, app_assoc. split; [done|].
  by apply Forall_app.
Qed.

Lemma wrote_and (P Q : disk -> Prop) w w' : wrote P w w' -> wrote Q w w' -> wrote (fun d => P d /\ Q d) w w'.
Proof.
  intros (l & E & Hp) (l' & E' & Hq). rewrite E in E'. apply app_inv_head in E' as <-.
  exists l. split; [done|]. by apply Forall_and.
Qed.

Lemma wrote_mono (P Q : disk -> Prop) w w' : (forall d, P d -> Q d) -> wrote P w w' -> wrote Q w w'.
Proof. intros Hpq (l & E & Hl). exists l. split; [done|]. by eapply Forall_impl. Qed.

Lemma fits_refl r d : fits r d d.
Proof. done. Qed.

Lemma fits_trans r d1 d2 d3 : fits r d1 d2 -> fits r d2 d3 -> fits r d1 d3.
Proof. intros [F1 H1] [F2 H2]. split; [congruence|]. intros n Hy Hj. rewrite H2, H1; done. Qed.

Lemma in_put n name b d :
  in_history n (put_history name b d) = if bool_decide (name = n) then Some b else in_history n d.
Proof.
  unfold in_history, put_history. simpl. case_bool_decide as E; [subst; by rewrite lookup_insert_eq|].
  rewrite lookup_insert_ne by done. by destruct (history d).
Qed.

Lemma in_drop n name d :
  in_history n (drop_history name d) = if bool_decide (name = n) then None else in_history n d.
Proof.
  unfold in_history, drop_history. simpl. destruct (history d) as [h|]; simpl; [|by case_bool_decide].
  case_bool_decide as E; [subst; by rewrite lookup_delete_eq|by rewrite lookup_delete_ne].
Qed.

Lemma in_mkdir n d : in_history n (MkDisk (file d) (Some ∅)) = None.
Proof. unfold in_history. simpl. apply lookup_empty. Qed.

Lemma fits_put r name b d : name = yaml_name r \/ name = json_name r -> fits r d (put_history name b d).
Proof. intros Hn. split; [done|]. intros n Hy Hj. rewrite in_put, bool_decide_eq_false_2; naive_solver. Qed.

Lemma fits_drop r name d : name = yaml_name r \/ name = json_name r -> fits r d (drop_history name d).
Proof. intros Hn. split; [done|]. intros n Hy Hj. rewrite in_drop, bool_decide_eq_false_2; naive_solver. Qed.

Lemma whole_yaml r b d : whole d -> whole (put_history (yaml_name r) b d).
Proof.
  intros Hw n c. rewrite in_put. case_bool_decide as E; [subst; intros _ Hs; by rewrite yaml_name_suffix in Hs|].
  intros Hn Hs. destruct (Hw n c Hn Hs) as (m & Hu & -> & Hr & Hy). exists m. split_and!; [done|done|lia|lia|].
  rewrite in_put. case_bool_decide; [eauto|done].
Qed.

Lemma whole_json m js d :
  meta_unmarshal js = Some m -> 0 < rmRevision m < two64 -> is_Some (in_history (yaml_name (rmRevision m)) d) ->
  whole d -> whole (put_history (json_name (rmRevision m)) js d).
Proof.
  intros Hu Hr Hy Hw n c. assert (forall r, in_history (yaml_name r) (put_history (json_name (rmRevision m)) js d) =
    in_history (yaml_name r) d) as Hk.
  { intros r. rewrite in_put, bool_decide_eq_false_2; [done|]. intros E. by apply (yaml_name_not_json r (rmRevision m)). }
  rewrite in_put. case_bool_decide as E.
  - subst. intros [= <-] _. exists m. by rewrite Hk.
  - intros Hn Hs. destruct (Hw n c Hn Hs) as (m' & Hu' & -> & Hr' & Hy'). exists m'. by rewrite Hk.
Qed.

(** ** Writing a revision *)

Hypothesis codec_ok : forall m js, meta_marshal m = Some js -> meta_unmarshal js = Some m.

Lemma wp_mkdir (Q : result store_error unit -> io -> Prop) w :
  (forall r w', file (on_disk w') = file (on_disk w) -> (forall n, in_history n (on_disk w') = in_history n (on_disk w)) ->
     wrote (fun d => file d = file (on_disk w) /\ forall n, in_history n d = in_history n (on_disk w)) w w' -> Q r w') ->
  wp (mkdir_history works) Q w.
Proof.
  intros Hq. unfold mkdir_history, wp, get_disk, attempt, set_disk, mbind, IO_bind. simpl.
  destruct (works (calls w)); [|apply Hq; [done|done|by apply wrote_refl]].
  destruct (history (on_disk w)) as [h|] eqn:E; simpl; apply Hq; simpl; [done|done|by apply wrote_refl|done|..].
  - intros n. rewrite in_mkdir. unfold in_history. by rewrite E.
  - eapply wrote_one; [done|]. split; [done|]. intros n. rewrite in_mkdir. unfold in_history. by rewrite E.
Qed.

Lemma wp_removeRevision r w :
  wp (removeRevisionLocked works r) (fun _ w' => fits r (on_disk w) (on_disk w') /\ wrote (fits r (on_disk w)) w w') w.
Proof.
  unfold removeRevisionLocked. apply wp_io_bind.
  assert (forall name w1, name = yaml_name r \/ name = json_name r -> fits r (on_disk w) (on_disk w1) ->
    wp (remove works name) (fun _ w' => fits r (on_disk w) (on_disk w') /\ wrote (fits r (on_disk w)) w1 w') w1) as Hstep.
  { intros name w1 Hn Hf. apply wp_remove; intros w2 -> L.
    - pose proof (fits_trans _ _ _ _ Hf (fits_drop r name (on_disk w1) Hn)). split; [done|]. by eapply wrote_one.
    - split; [done|by apply wrote_refl]. }
  eapply wp_io_mono; [apply Hstep; [by left|apply fits_refl]|]. intros _ w1 [F1 L1].
  eapply wp_io_mono; [apply Hstep; [by right|done]|]. intros _ w2 [F2 L2]. split; [done|by eapply wrote_trans].
Qed.

(** The files of other revisions are never touched; on success the revision is
    on record, and a history that was whole stayed so all along. *)
Definition written (meta : RevisionMeta) (data : list Z) (w : io) (r : result store_error unit) (w' : io) : Prop :=
  fits (rmRevision meta) (on_disk w) (on_disk w') /\ wrote (fits (rmRevision meta) (on_disk w)) w w' /\
  match r with
  | Ok _ => recorded meta data (on_disk w') /\
      (whole (on_disk w) -> whole (on_disk w') /\ wrote whole w w')
  | Err _ => True
  end.

(** Taking a revision back ends a write that failed. *)
Lemma wp_undo meta data e w w1 :
  fits (rmRevision meta) (on_disk w) (on_disk w1) -> wrote (fits (rmRevision meta) (on_disk w)) w w1 ->
  wp (_ ← removeRevisionLocked works (rmRevision meta); fail_with e) (written meta data w) w1.
Proof.
  intros Hf Hl. apply wp_io_bind. eapply wp_io_mono; [apply wp_removeRevision|]. intros _ w2 [F2 L2].
  split_and!; [by eapply fits_trans| |done]. eapply wrote_trans; [exact Hl|]. eapply wrote_mono; [|exact L2].
  intros d Hd. by eapply fits_trans.
Qed.

Lemma whole_same d d' : (forall n, in_history n d' = in_history n d) -> whole d -> whole d'.
Proof.
  intros Hd Hw n b. rewrite !Hd. intros Hn Hs. destruct (Hw n b Hn Hs) as (m & ? & ? & ? & ?).
  exists m. by rewrite Hd.
Qed.

Lemma wp_writeRevision meta data w :
  0 < rmRevision meta < two64 -> wp (writeRevisionLocked works meta data) (written meta data w) w.
Proof.
  intros Hr. set (rv := rmRevision meta). unfold writeRevisionLocked. apply wp_ok_bind, wp_mkdir.
  intros r1 w1 F1 H1 L1.
  assert (fits rv (on_disk w) (on_disk w1)) as Hf1 by (split; [done|intros n _ _; auto]).
  assert (wrote (fits rv (on_disk w)) w w1) as Hl1.
  { eapply wrote_mono; [|exact L1]. intros d [Hfd Hnd]. split; [auto|intros n _ _; auto]. }
  assert (whole (on_disk w) -> wrote whole w w1) as Hh1.
  { intros Hw. eapply wrote_mono; [|exact L1]. intros d [_ Hd]. by eapply whole_same. }
  destruct r1 as [[]|e]; [|done]. apply wp_ok_bind, wp_atomicReplace.
  2:{ intros e w2 D2 L2. split_and!; [by rewrite D2| |done]. eapply wrote_trans; [exact Hl1|by apply wrote_refl]. }
  intros w2 D2 L2. assert (fits rv (on_disk w) (on_disk w2)) as Hf2.
  { rewrite D2. eapply fits_trans; [exact Hf1|]. apply fits_put. by left. }
  assert (whole (on_disk w) -> whole (on_disk w2)) as Hw2.
  { intros Hw. rewrite D2. by eapply whole_yaml, whole_same. }
  assert (wrote (fits rv (on_disk w)) w w2) as Hl2 by (eapply wrote_trans; [exact Hl1|eapply wrote_one; [exact L2|by rewrite <- D2]]).
  destruct (meta_marshal meta) as [js|] eqn:Ej; [|by apply wp_undo].
  apply wp_io_bind, wp_atomicReplace.
  2:{ intros e w3 D3 L3. apply wp_undo; [by rewrite D3|]. eapply wrote_trans; [exact Hl2|by apply wrote_refl]. }
  intros w3 D3 L3. apply wp_io_ret.
  assert (in_history (yaml_name rv) (on_disk w2) = Some data) as Hy by (by rewrite D2, in_put, bool_decide_eq_true_2).
  assert (whole (on_disk w) -> whole (on_disk w3)) as Hw3.
  { intros Hw. rewrite D3. apply whole_json; [by apply codec_ok|done|by exists data|auto]. }
  assert (fits rv (on_disk w) (on_disk w3)) as Hf3.
  { rewrite D3. eapply fits_trans; [exact Hf2|]. apply fits_put. by right. }
  split_and!; [done|eapply wrote_trans; [exact Hl2|by eapply wrote_one; [exact L3|rewrite <- D3]]| |].
  - split; [|exists js; split; [|by apply codec_ok]].
    + rewrite D3, in_put, bool_decide_eq_false_2; [done|]. intros E. symmetry in E. by apply yaml_name_not_json in E.
    + by rewrite D3, in_put, bool_decide_eq_true_2.
  - intros Hw. split; [auto|]. eapply wrote_trans; [by apply Hh1|].
    eapply wrote_trans; [eapply wrote_one; [exact L2|rewrite <- D2; auto]|].
    eapply wrote_one; [exact L3|rewrite <- D3; auto].
Qed.

(** ** Applying *)

(** The store and the disk agree on the current revision. *)
Record holds (s : Store) (d : disk) : Prop := {
  ho_managed : managed s = true;
  ho_range : 0 < revision s < two64;
  ho_recorded : exists meta, rmRevision meta = revision s /\ recorded meta (raw s) d;
}.

Lemma recorded_fits r meta data d d' :
  rev_range r -> rev_range (rmRevision meta) -> r <> rmRevision meta -> others r d d' ->
  recorded meta data d -> recorded meta data d'.
Proof.
  intros Hr Hm Hne Hf [Hy (js & Hj & Hu)].
  assert (forall a b, yaml_name a <> json_name b) as Hn by apply yaml_name_not_json.
  split; [|exists js; split; [|done]]; rewrite Hf; try done; intros E;
    first [apply yaml_name_inj in E; congruence|apply json_name_inj in E; congruence
          |symmetry in E; by apply Hn in E].
Qed.

Lemma holds_fits r s d d' : rev_range r -> r <> revision s -> fits r d d' -> holds s d -> holds s d'.
Proof.
  intros Hr Hne [_ Hf] [Hm Hg (meta & E & Hrec)]. split; [done|done|]. exists meta. split; [done|].
  unfold rev_range in *. eapply recorded_fits; [| |by rewrite E|done|done]; unfold rev_range; lia.
Qed.

(** What a successful application has done. *)
Record applied (req : ApplyRequest) (s : Store) (d : disk) (a : ApplyResult) (s' : Store) (d' : disk) : Prop := {
  ap_number : arRevision a = revision s + 1 /\ arPrevious a = revision s /\ revision s' = revision s + 1;
  ap_raw : raw s' = aqRaw req /\ file d' = Some (aqRaw req) /\ Z.of_nat (length (aqRaw req)) <= maxDraftBytes;
  ap_fresh : file d = Some (raw s) /\ (aqExpectedRevision req = 0 \/ aqExpectedRevision req = revision s);
  ap_recorded : recorded (arMeta a) (aqRaw req) d' /\ rmRevision (arMeta a) = revision s' /\
    rmParentRevision (arMeta a) = revision s;
  ap_meta : exists t, arMeta a = apply_meta s req (revision s') t;
  ap_holds : holds s' d' /\ (whole d -> whole d');
  ap_others : others (revision s') d d';
}.

(** A point of a successful application: the file is the old or the new one, and
    what the history has for it is complete. *)
Definition between (s s' : Store) (d : disk) : Prop :=
  whole d /\ (file d = Some (raw s) /\ holds s d \/ file d = Some (raw s') /\ holds s' d).

Lemma wrapu64_succ r : 0 <= r -> r + 1 < two64 -> wrapu64 (r + 1) = r + 1.
Proof. intros ? ?. unfold wrapu64. apply Z.mod_small. lia. Qed.

(** The replacement of the file completes the application. *)
Lemma applied_file req s t w w3 w4 :
  let meta := apply_meta s req (revision s + 1) t in
  let s' := MkStore (path s) true (aqRaw req) (revision s + 1) t None true in
  holds s (on_disk w) -> revision s + 1 < two64 -> file (on_disk w) = Some (raw s) ->
  (aqExpectedRevision req = 0 \/ aqExpectedRevision req = revision s) ->
  Z.of_nat (length (aqRaw req)) <= maxDraftBytes ->
  written meta (aqRaw req) w (Ok tt) w3 ->
  on_disk w4 = put_file (aqRaw req) (on_disk w3) -> log w4 = log w3 ++ [put_file (aqRaw req) (on_disk w3)] ->
  applied req s (on_disk w) (MkApplied (revision s + 1) (revision s) meta (aqRestartRequired req)) s' (on_disk w4) /\
  (whole (on_disk w) -> wrote (between s s') w w4).
Proof.
  intros meta s' Hh Hlt Hfile Hexp Hlen (F3 & L3 & Hrec & Hw3) D4 L4. pose proof (ho_range _ _ Hh) as Hr.
  assert (forall n, in_history n (on_disk w4) = in_history n (on_disk w3)) as Hin by (intros n; by rewrite D4).
  assert (recorded meta (aqRaw req) (on_disk w4)) as Hrec4.
  { destruct Hrec as [Hy (js & Hj & Hu)]. split; [|exists js]; by rewrite Hin. }
  assert (holds s' (on_disk w4)) as Hh4 by (split; simpl; [done|lia|by exists meta]).
  assert (whole (on_disk w) -> whole (on_disk w4)) as Hw4.
  { intros Hw. by eapply whole_same, Hw3. }
  split.
  - split; simpl; try done; [split_and!; [done|by rewrite D4|done]|by exists t|].
    intros n Hy Hj. rewrite Hin. by apply F3.
  - intros Hw. eapply wrote_trans; [|eapply wrote_one; [exact L4|rewrite <- D4; split; [auto|right; split; [by rewrite D4|done]]]].
    eapply wrote_mono; [|apply (wrote_and _ _ _ _ L3 (proj2 (Hw3 Hw)))]. intros d [Hfd Hwd]. split; [done|].
    left. split; [rewrite (proj1 Hfd); congruence|]. eapply holds_fits; [| |exact Hfd|done];
      unfold meta, rev_range; simpl; lia.
Qed.

Lemma wp_Apply req s w :
  holds s (on_disk w) -> revision s + 1 < two64 ->
  wp (Apply works clk req s) (fun '(r, s') w' =>
    match r with
    | Ok a => applied req s (on_disk w) a s' (on_disk w') /\
        (whole (on_disk w) -> wrote (between s s') w w')
    | Err e => s' = s /\ fits (revision s + 1) (on_disk w) (on_disk w') /\ holds s (on_disk w') /\
        wrote (fits (revision s + 1) (on_disk w)) w w'
    end) w.
Proof.
  intros Hh Hlt. pose proof (ho_range _ _ Hh) as Hr0. unfold Apply. rewrite (ho_managed _ _ Hh). cbn [negb].
  apply wp_io_bind. unfold checkExternalLocked. rewrite (ho_managed _ _ Hh). cbn [negb]. apply wp_ok_bind, wp_read.
  2:{ intros e w1 D1 L1 _. repeat (apply wp_io_ret; simpl). rewrite D1. split_and!; [done|done|done|by apply wrote_refl]. }
  intros b w1 Hf D1 L1.
  assert (s = s /\ fits (revision s + 1) (on_disk w) (on_disk w1) /\ holds s (on_disk w1) /\
    wrote (fits (revision s + 1) (on_disk w)) w w1) as Hstay.
  { rewrite D1. split_and!; [done|done|done|by apply wrote_refl]. }
  case_bool_decide as Eb; [subst b|by repeat (apply wp_io_ret; simpl); apply Hstay].
  apply wp_io_ret. case_if; [by repeat (apply wp_io_ret; simpl); apply Hstay|].
  case_if; [by repeat (apply wp_io_ret; simpl); apply Hstay|]. bprop.
  rewrite wrapu64_succ by lia. apply wp_io_bind, wp_quiet; [apply quiet_now|]. intros t w2 D2 L2.
  apply wp_io_bind. eapply wp_io_mono; [apply wp_writeRevision; simpl; lia|]. intros r w3 H3.
  assert (written (apply_meta s req (revision s + 1) t) (aqRaw req) w r w3) as H3'.
  { unfold written, wrote in *. by rewrite D2, D1, L2, L1 in H3. }
  assert (rev_range (revision s + 1) /\ revision s + 1 <> revision s) as [Hrr Hne] by (unfold rev_range; lia).
  pose proof (proj1 H3') as F3. simpl in F3.
  assert (holds s (on_disk w3)) as Hh3 by (by eapply holds_fits).
  destruct r as [[]|e]; [|apply wp_io_ret; split_and!; [done|done|done|apply H3']]. apply wp_io_bind, wp_atomicReplace.
  - intros w4 D4 L4. apply wp_io_ret. eapply applied_file; try done. bcases; tauto.
  - intros e w4 D4 L4. apply wp_io_bind. eapply wp_io_mono; [apply wp_removeRevision|]. intros _ w5 [F5 L5].
    apply wp_io_ret. rewrite D4 in F5, L5. split_and!; [done|by eapply fits_trans|by eapply holds_fits|].
    eapply wrote_trans; [apply H3'|]. eapply wrote_trans; [by apply wrote_refl|]. eapply wrote_mono; [|exact L5].
    intros d Hd. by eapply fits_trans.
Qed.

(** ** Opening *)

Lemma latest_spec items r0 u0 :
  let '(r, u) := latest items r0 u0 in
  r0 <= r /\ (forall m, m ∈ items -> rmRevision m <= r) /\
  ((r = r0 /\ u = u0) \/ exists m, m ∈ items /\ r = rmRevision m /\ u = rmCreatedAt m).
Proof.
  unfold latest. revert r0 u0; induction items as [|m items IH]; intros r0 u0; simpl.
  { split_and!; [lia|by intros m ?%not_elem_of_nil|by left]. }
  case_if; bprop.
  - specialize (IH (rmRevision m) (rmCreatedAt m)). destruct (fold_left _ items _) as [r u].
    destruct IH as (Hr & Hi & He). split_and!; [lia| |right].
    + intros m' [->|Hm]%elem_of_cons; [lia|auto].
    + destruct He as [[-> ->]|(m' & Hm & -> & ->)]; [exists m|exists m']; split_and!; set_solver.
  - specialize (IH r0 u0). destruct (fold_left _ items _) as [r u]. destruct IH as (Hr & Hi & He).
    split_and!; [lia| |]; [intros m' [->|Hm]%elem_of_cons; [lia|auto]|].
    destruct He as [?|(m' & Hm & ?)]; [by left|right; exists m'; set_solver].
Qed.

Section Working.
(** No system call fails. *)
Hypothesis all_work : forall n, works n = true.

Lemma wp_attempt_works (Q : bool -> io -> Prop) w :
  (forall w', on_disk w' = on_disk w -> log w' = log w -> Q true w') -> wp (attempt works) Q w.
Proof. intros Hq. unfold wp, attempt. simpl. rewrite all_work. by apply Hq. Qed.

Lemma wp_read_works f b (Q : result store_error (list Z) -> io -> Prop) w :
  f (on_disk w) = Some b -> (forall w', on_disk w' = on_disk w -> Q (Ok b) w') -> wp (read works f) Q w.
Proof.
  intros Hb Hq. unfold read, wp, get_disk, attempt, mbind, IO_bind. simpl. rewrite all_work, Hb. by apply Hq.
Qed.

Lemma wp_prepare_works (Q : result store_error unit -> io -> Prop) w :
  (forall w', on_disk w' = on_disk w -> Q (Ok tt) w') -> wp (prepare works) Q w.
Proof.
  intros Hq. unfold prepare. do 7 (apply wp_io_bind, wp_attempt_works; intros ? ? _; cbn [negb]).
  apply wp_io_ret, Hq. congruence.
Qed.

Lemma wp_replace_works put data (Q : result store_error unit -> io -> Prop) w :
  (forall w', on_disk w' = put data (on_disk w) -> Q (Ok tt) w') -> wp (atomicReplace works put data) Q w.
Proof.
  intros Hq. unfold atomicReplace. apply wp_ok_bind, wp_prepare_works. intros w1 D1. apply wp_io_bind.
  unfold wp at 1, get_disk. simpl. apply Hq. simpl. by rewrite D1.
Qed.

Lemma wp_mkdir_works (Q : result store_error unit -> io -> Prop) w :
  (forall w', file (on_disk w') = file (on_disk w) -> history (on_disk w') = Some (default ∅ (history (on_disk w))) ->
     Q (Ok tt) w') -> wp (mkdir_history works) Q w.
Proof.
  intros Hq. unfold mkdir_history, wp, get_disk, attempt, set_disk, mbind, IO_bind. simpl. rewrite all_work.
  destruct (history (on_disk w)) eqn:E; apply Hq; simpl; by rewrite ?E.
Qed.

(** A revision is written when its metadata can be encoded. *)
Lemma wp_write_works meta data (Q : result store_error unit -> io -> Prop) w :
  is_Some (meta_marshal meta) -> 0 < rmRevision meta < two64 -> whole (on_disk w) ->
  (forall w', fits (rmRevision meta) (on_disk w) (on_disk w') -> recorded meta data (on_disk w') ->
     whole (on_disk w') -> Q (Ok tt) w') ->
  wp (writeRevisionLocked works meta data) Q w.
Proof.
  intros [js Hjs] Hr Hw Hq. pose proof (wp_writeRevision meta data w Hr) as Hp.
  assert (wp (writeRevisionLocked works meta data) (fun r _ => r = Ok tt) w) as Hok.
  { unfold writeRevisionLocked. apply wp_ok_bind, wp_mkdir_works. intros w1 _ _.
    apply wp_ok_bind, wp_replace_works. intros w2 _. rewrite Hjs. apply wp_io_bind, wp_replace_works.
    intros w3 _. by apply wp_io_ret. }
  unfold wp in *. destruct (writeRevisionLocked works meta data w) as [r w']. simpl in *. subst r.
  destruct Hp as (? & _ & ? & Hw'). by apply Hq; [..|apply Hw'].
Qed.

Lemma wp_read_metas names w :
  whole (on_disk w) -> (forall n, n ∈ names -> is_Some (in_history n (on_disk w))) ->
  wp (read_metas works names) (fun r w' => on_disk w' = on_disk w /\ exists ms, r = Ok ms /\
    forall m, m ∈ ms <-> exists n b, n ∈ names /\ HasSuffix n ".json" = true /\
      in_history n (on_disk w) = Some b /\ meta_unmarshal b = Some m) w.
Proof.
  revert w; induction names as [|n names IH]; intros w Hw Hn; simpl.
  { apply wp_io_ret. split; [done|]. exists []. split; [done|]. intros m.
    split; [by intros ?%not_elem_of_nil|]. by intros (n & b & ?%not_elem_of_nil & _). }
  destruct (HasSuffix n ".json") eqn:Es; cbn [negb].
  - destruct (Hn n ltac:(by left)) as [b Hb]. apply wp_ok_bind. unfold readMeta. apply wp_ok_bind.
    eapply wp_read_works; [exact Hb|]. intros w1 D1. destruct (Hw n b Hb Es) as (m & Hm & _). rewrite Hm.
    apply wp_io_ret, wp_ok_bind. eapply wp_io_mono; [apply IH; [by rewrite D1|]|].
    + intros n' Hn'. rewrite D1. apply Hn. by right.
    + intros r w2 (D2 & ms & -> & Hms). apply wp_io_ret. split; [congruence|]. exists (m :: ms). split; [done|].
      intros m'. rewrite elem_of_cons, Hms, D1. split.
      * intros [->|(n' & b' & ? & ?)]; [exists n, b|exists n', b']; set_solver.
      * intros (n' & b' & [->|Hin]%elem_of_cons & ? & ? & ?); [left; congruence|right; eauto 6].
  - eapply wp_io_mono; [apply IH; [done|intros n' Hn'; apply Hn; by right]|]. intros r w2 (D2 & ms & -> & Hms).
    split; [done|]. exists ms. split; [done|]. intros m'. rewrite Hms. split.
    + intros (n' & b' & ? & ?). exists n', b'. set_solver.
    + intros (n' & b' & [->|Hin]%elem_of_cons & ? & ?); [congruence|eauto 6].
Qed.

(** Every readable revision, newest or not. *)
Definition on_record (d : disk) (m : RevisionMeta) : Prop :=
  exists b, in_history (json_name (rmRevision m)) d = Some b /\ meta_unmarshal b = Some m.

Lemma wp_readMetas w h :
  whole (on_disk w) -> history (on_disk w) = Some h ->
  wp (readMetasLocked works) (fun r w' => on_disk w' = on_disk w /\ exists ms, r = Ok ms /\
    forall m, m ∈ ms <-> on_record (on_disk w) m) w.
Proof.
  intros Hw Hh. unfold readMetasLocked. apply wp_io_bind. unfold wp at 1, get_disk. simpl.
  apply wp_io_bind, wp_attempt_works. intros w1 D1 _. rewrite Hh.
  eapply wp_io_mono; [apply wp_read_metas; [by rewrite D1|]|].
  - intros n Hn. rewrite merge_sort_Permutation in Hn. apply list_elem_of_fmap in Hn as ([k b] & -> & Hkb).
    apply elem_of_map_to_list in Hkb. rewrite D1. unfold in_history. rewrite Hh. by exists b.
  - intros r w2 (D2 & ms & -> & Hms). rewrite D1 in *. split; [done|]. exists ms. split; [done|]. intros m.
    rewrite Hms. split.
    + intros (n & b & Hn & Hs & Hb & Hu). destruct (Hw n b Hb Hs) as (m' & Hm' & -> & _).
      assert (m' = m) as -> by congruence. by exists b.
    + intros (b & Hb & Hu). exists (json_name (rmRevision m)), b. split_and!; [|apply json_name_suffix|done|done].
      rewrite merge_sort_Permutation. apply list_elem_of_fmap. exists (json_name (rmRevision m), b).
      split; [done|]. apply elem_of_map_to_list. unfold in_history in Hb. by rewrite Hh in Hb.
Qed.

(** A disk with a whole history opens: the store has the bytes of the file, on
    record under the current revision, the highest; older ones are kept. *)
Definition opened (content : list Z) (d : disk) (s : Store) (d' : disk) : Prop :=
  raw s = content /\ holds s d' /\ whole d' /\ file d' = file d /\ draft s = None /\
  (forall m, on_record d m -> rmRevision m <= revision s) /\
  (forall m data, recorded m data d -> recorded m data d').

Hypothesis marshals : forall m, is_Some (meta_marshal m).

Lemma wp_New abs p content w :
  whole (on_disk w) -> file (on_disk w) = Some content -> TrimSpace p <> ""%string ->
  (forall m, on_record (on_disk w) m -> rmRevision m + 1 < two64) ->
  wp (New works clk (Some abs) p content true) (fun r w' => exists s, r = Ok s /\
    opened content (on_disk w) s (on_disk w')) w.
Proof.
  intros Hw Hf Hp Hb. unfold New. cbn [negb]. rewrite (proj2 (String.eqb_neq _ _)) by done.
  apply wp_ok_bind. eapply wp_read_works; [exact Hf|]. intros w1 D1. apply wp_io_bind, wp_attempt_works.
  intros w2 D2 _. cbn [negb]. apply wp_ok_bind, wp_mkdir_works. intros w3 F3 H3. rewrite D2, D1 in F3, H3.
  assert (forall n, in_history n (on_disk w3) = in_history n (on_disk w)) as Hin.
  { intros n. unfold in_history. rewrite H3. by destruct (history (on_disk w)); simpl; rewrite ?lookup_empty. }
  assert (whole (on_disk w3)) as Hw3.
  { intros n c. rewrite !Hin. intros Hn Hs. destruct (Hw n c Hn Hs) as (m & ? & ? & ? & ?). exists m. by rewrite Hin. }
  apply wp_ok_bind. eapply wp_io_mono; [by eapply wp_readMetas|]. intros r w4 (D4 & ms & -> & Hms).
  assert (forall m, m ∈ ms <-> on_record (on_disk w) m) as Hrec.
  { intros m. rewrite Hms. unfold on_record. by setoid_rewrite Hin. }
  pose proof (latest_spec ms 0 zero_time) as Hl. destruct (latest ms 0 zero_time) as [rev upd].
  destruct Hl as (Hr0 & Hmax & Hcase).
  assert (forall w5 meta s', on_disk w5 = on_disk w3 -> rev < rmRevision meta < two64 -> managed s' = true ->
    raw s' = content -> revision s' = rmRevision meta -> draft s' = None ->
    forall w6, fits (rmRevision meta) (on_disk w5) (on_disk w6) -> recorded meta content (on_disk w6) ->
    whole (on_disk w6) -> opened content (on_disk w) s' (on_disk w6)) as Hfresh.
  { intros w5 meta s' D5 Hrm Hm Hraw Hrv Hd w6 [Fw6 Hfit] Hrc Hw6. split_and!; [done| |done| |done| |].
    - split; [done|lia|]. exists meta. by rewrite Hraw.
    - congruence.
    - intros m Hm'. rewrite Hrv. apply Hrec, Hmax in Hm'. lia.
    - intros m data Hmd. assert (m ∈ ms) as Hm' by (apply Hrec; destruct Hmd as [_ Hj]; exact Hj).
      pose proof (Hmax m Hm'). assert (0 < rmRevision m < two64) as Hrg.
      { apply Hrec in Hm' as (b & Hb' & Hu). destruct (Hw _ _ Hb' (json_name_suffix _)) as (m' & Hm' & _ & ? & _).
        assert (m' = m) as -> by congruence. done. }
      apply (recorded_fits (rmRevision meta) m data (on_disk w5)); unfold rev_range; [lia|lia|lia|done|].
      destruct Hmd as [Hy (js & Hj & Hu)]. rewrite D5. split; [|exists js]; by rewrite Hin. }
  destruct Hcase as [[-> ->]|(m & Hm & -> & ->)].
  - cbn [Z.eqb]. apply wp_io_bind, wp_quiet; [apply quiet_now|]. intros t w5 D5 _. rewrite D4 in D5.
    apply wp_ok_bind, wp_write_works; [apply marshals|done|by rewrite D5|]. intros w6 F6 R6 W6.
    apply wp_io_bind, wp_quiet; [apply quiet_now|]. intros u w7 D7 _. apply wp_io_ret. eexists. split; [done|].
    rewrite D7. eapply Hfresh; [exact D5|..|exact F6|exact R6|exact W6]; done.
  - assert (on_record (on_disk w) m) as Hm' by (by apply Hrec). pose proof (Hb m Hm') as Hlt.
    destruct Hm' as (b & Hbm & Hum). destruct (Hw _ _ Hbm (json_name_suffix _)) as (m' & Hm' & _ & Hrg & [y Hy]).
    assert (m' = m) as -> by congruence. rewrite (proj2 (Z.eqb_neq (rmRevision m) 0)) by lia.
    apply wp_ok_bind. eapply wp_read_works; [by rewrite D4, Hin|]. intros w5 D5. rewrite D4 in D5.
    case_bool_decide as Ec.
    + subst y. apply wp_io_ret. eexists. split; [done|]. split_and!; [done| |by rewrite D5|congruence|done|..].
      * split; simpl; [done|lia|]. exists m. split; [done|].
        split; [by rewrite D5, Hin|exists b; by rewrite D5, Hin].
      * intros m2 Hm2. by apply Hmax, Hrec.
      * intros m2 data [Hy2 (js & Hj & Hu)]. rewrite D5. split; [|exists js]; by rewrite Hin.
    + rewrite wrapu64_succ by lia. apply wp_io_bind, wp_quiet; [apply quiet_now|]. intros t w6 D6 _.
      rewrite D5 in D6. apply wp_ok_bind, wp_write_works; [apply marshals|simpl; lia|by rewrite D6|].
      intros w7 F7 R7 W7. apply wp_io_ret. eexists. split; [done|].
      eapply Hfresh; [exact D6|..|exact F7|exact R7|exact W7]; simpl; try done; lia.
Qed.

(** A revision on record can be read back. *)
Lemma wp_HistoryGet meta data s w :
  managed s = true -> rmRevision meta <> 0 -> recorded meta data (on_disk w) ->
  wp (HistoryGet works (rmRevision meta) s) (fun r _ => r = Ok (MkRevision meta data)) w.
Proof.
  intros Hm Hr [Hy (js & Hj & Hu)]. unfold HistoryGet. rewrite Hm, (proj2 (Z.eqb_neq _ _)) by done. cbn [negb orb].
  apply wp_io_bind. unfold readMeta. apply wp_ok_bind. eapply wp_read_works; [exact Hj|]. intros w1 D1. rewrite Hu.
  apply wp_io_ret. apply wp_ok_bind. eapply wp_read_works; [by rewrite D1|]. intros w2 _. by apply wp_io_ret.
Qed.

(** [History]: the newest revisions on record, newest first, 50 of them unless a
    number up to 200 is asked for. *)
Lemma wp_History limit s w :
  managed s = true -> whole (on_disk w) -> is_Some (history (on_disk w)) ->
  wp (History works limit s) (fun r _ => exists ms, r = Ok ms /\
    StronglySorted newer ms /\ Z.of_nat (length ms) <= (if (limit <=? 0) || (200 <? limit) then 50 else limit) /\
    (forall m, m ∈ ms -> on_record (on_disk w) m)) w.
Proof.
  intros Hm Hw [h Hh]. unfold History. rewrite Hm. cbn [negb]. apply wp_ok_bind.
  eapply wp_io_mono; [by eapply wp_readMetas|]. intros r w1 (_ & ms & -> & Hms). apply wp_io_ret.
  set (n := if (limit <=? 0) || (200 <? limit) then 50 else limit). eexists. split; [done|].
  assert (Transitive newer) by (intros a b c; unfold newer; lia).
  assert (Total newer) by (intros a b; unfold newer; lia).
  pose proof (StronglySorted_merge_sort newer ms) as Hs.
  assert (0 <= n) by (unfold n; case_if; bcases; lia).
  split_and!.
  - rewrite <- (take_drop (Z.to_nat n) (merge_sort newer ms)) in Hs. clear -Hs.
    induction (take _ _) as [|a l IH]; [constructor|]. rewrite <- app_comm_cons in Hs.
    apply StronglySorted_inv in Hs as [Hs Ha]. constructor; [auto|]. by apply Forall_app in Ha as [Ha _].
  - rewrite length_take. lia.
  - intros m Hin. apply Hms. rewrite <- (merge_sort_Permutation newer ms).
    apply elem_of_take in Hin as (i & Hi & _). by eapply list_elem_of_lookup_2.
Qed.

End Working.

(** ** Drafts *)

(** A draft that was saved can be read for a day, and only the caller that saw
    its last revision can replace it. *)
Lemma draft_roundtrip base id expected data s w d s' w' s2 r w2 :
  SaveDraft clk random_id base id expected data s w = ((Ok d, s'), w') ->
  GetDraft clk (drID d) s' w' = ((r, s2), w2) ->
  drRaw d = data /\ drBaseRevision d = revision s /\ draft s' = Some d /\
  (24 * hour < time_sub (clk (calls w')) (drUpdatedAt d) -> r = Err ErrDraftExpired /\ draft s2 = None) /\
  (time_sub (clk (calls w')) (drUpdatedAt d) <= 24 * hour -> r = Ok d /\ s2 = s') /\
  (forall e, draft s = Some e -> id = drID e /\ expected = drRevision e).
Proof.
  unfold SaveDraft. cbv zeta. intros Hs Hg.
  case_if_in Hs; [by inv Hs|]. case_if_in Hs; [by inv Hs|].
  destruct (negb ((if base =? 0 then revision s else base) =? revision s)) eqn:Eb; [by inv Hs|].
  destruct (match draft s with Some d => _ | None => _ end) as [e|] eqn:Ed; [by inv Hs|].
  assert (exists id' t rev w1, d = MkDraft id' rev (if base =? 0 then revision s else base) data t false 0 /\
    s' = with_draft (Some d) s /\ w' = w1) as (id' & t & rev & w1 & Hd & -> & _).
  { unfold mbind, IO_bind, now in Hs. destruct ((if (id =? "")%string then randomID random_id else mret id) w) as [i w0].
    injection Hs as <- <- <-. eauto 10. }
  bprop. unfold GetDraft in Hg. cbn [draft with_draft] in Hg. rewrite String.eqb_refl in Hg. rewrite andb_false_r in Hg.
  unfold mbind, IO_bind, now in Hg. split_and!; [by subst d|subst d; simpl; congruence|done| | |].
  - intros Hx. rewrite (proj2 (Z.ltb_lt _ _)) in Hg by done. by inv Hg.
  - intros Hx. rewrite (proj2 (Z.ltb_ge _ _)) in Hg by done. by inv Hg.
  - intros e He. rewrite He in Ed. case_if_in Ed; [done|]. by bprop.
Qed.

End Theory.

Section Runs.
Context `{MetaCodec}.
Hypothesis codec_ok : forall m js, meta_marshal m = Some js -> meta_unmarshal js = Some m.
Hypothesis marshals : forall m, is_Some (meta_marshal m).

(** C10: An application that succeeds found the file as the store knew it and the
    revision the caller named; afterwards the file and the store have the new
    bytes, on record under the next revision with its parent, and no other
    revision changed; and at every point of it, as a crash would leave the disk,
    the file is the old or the new one, and opening the disk again gives a store
    with these bytes.  One that fails leaves the store as it was; at every point
    of it the file is the old one, which is on record under the current revision,
    and no revision but the next one changed.  (What a failing application leaves
    of the next revision may keep the disk from being opened again:
    [stranded_revision].) *)
Theorem Apply_spec works clk req s w :
  holds s (on_disk w) -> revision s + 1 < two64 ->
  let '((r, s'), w') := Apply works clk req s w in
  match r with
  | Ok a =>
      applied req s (on_disk w) a s' (on_disk w') /\
      (whole (on_disk w) -> wrote (fun d => (file d = Some (raw s) \/ file d = Some (aqRaw req)) /\
         forall clk' abs p, TrimSpace p <> ""%string ->
           (forall m, on_record d m -> rmRevision m + 1 < two64) ->
           forall c w1, file d = Some c -> on_disk w1 = d ->
           exists s2 w2, New (fun _ => true) clk' (Some abs) p c true w1 = (Ok s2, w2) /\
             opened c d s2 (on_disk w2)) w w')
  | Err e => s' = s /\ holds s (on_disk w') /\
      let untouched d := file d = file (on_disk w) /\ holds s d /\ others (revision s + 1) (on_disk w) d in
      untouched (on_disk w') /\ wrote untouched w w'
  end.
Proof.
  intros Hh Hlt. pose proof (wp_Apply works clk codec_ok req s w Hh Hlt) as Hp. unfold wp in Hp.
  destruct (Apply works clk req s w) as [[[a|e] s'] w']; simpl in Hp.
  - destruct Hp as [Ha Hb]. split; [done|]. intros Hw. eapply wrote_mono; [|by apply Hb].
    intros d [Hwd Hf]. split; [destruct Hf as [[Hf _]|[Hf _]]; [by left|right]|].
    { rewrite Hf. f_equal. apply (ap_raw _ _ _ _ _ _ Ha). }
    intros clk' abs p Hne Hmax c w1 Hc D1. subst d.
    pose proof (wp_New (fun _ => true) clk' codec_ok (fun _ => eq_refl) marshals abs p c w1 Hwd Hc Hne Hmax) as Hn.
    unfold wp in Hn. destruct (New _ _ _ _ _ _ w1) as [r w2]. simpl in Hn. destruct Hn as (s2 & -> & Hs2). eauto.
  - destruct Hp as (-> & Hf & Hd & Hl). pose proof (ho_range _ _ Hh).
    assert (forall d, fits (revision s + 1) (on_disk w) d ->
      file d = file (on_disk w) /\ holds s d /\ others (revision s + 1) (on_disk w) d) as Hu.
    { intros d Hd'. split_and!; [apply Hd'| |apply Hd']. eapply holds_fits; [..|exact Hd'|exact Hh]; unfold rev_range; lia. }
    split; [done|]. split; [done|]. cbv zeta. split; [by apply Hu|by eapply wrote_mono].
Qed.

(** Applications in a row, whatever each of them asks and whatever fails. *)
Inductive applies : Store -> disk -> Store -> disk -> nat -> Prop :=
  | as_nil s d : applies s d s d 0
  | as_step works clk req s w r s1 w1 s2 d2 n :
      Apply works clk req s w = ((r, s1), w1) -> applies s1 (on_disk w1) s2 d2 n ->
      applies s (on_disk w) s2 d2 (S n).

Lemma applies_keeps s d s' d' n :
  applies s d s' d' n -> holds s d -> revision s + Z.of_nat n < two64 ->
  holds s' d' /\ revision s <= revision s' <= revision s + Z.of_nat n /\
  forall meta data, 0 < rmRevision meta <= revision s -> recorded meta data d -> recorded meta data d'.
Proof.
  induction 1 as [s d|works clk req s w r s1 w1 s2 d2 n Ha _ IH]; intros Hh Hlt; [split_and!; [done|lia|lia|done]|].
  pose proof (wp_Apply works clk codec_ok req s w Hh ltac:(lia)) as Hp. unfold wp in Hp. rewrite Ha in Hp.
  pose proof (ho_range _ _ Hh) as Hr. simpl in Hp.
  assert (holds s1 (on_disk w1) /\ revision s <= revision s1 <= revision s + 1 /\
    others (revision s + 1) (on_disk w) (on_disk w1)) as (Hh1 & Hle & Ho).
  { destruct r as [a|e]; [|destruct Hp as (-> & [_ Ho] & Hh1 & _); split_and!; [done|lia|lia|done]].
    destruct Hp as [[(_ & _ & Hn) _ _ _ _ [Hh1 _] Ho] _]. rewrite Hn in Ho. split_and!; [done|lia|lia|done]. }
  destruct (IH Hh1 ltac:(lia)) as (Hh2 & Hle2 & Hkeep). split_and!; [done|lia|lia|].
  intros meta data Hm Hrec. apply Hkeep; [lia|].
  eapply (recorded_fits (revision s + 1)); unfold rev_range; [lia|lia|lia|exact Ho|done].
Qed.

(** As long as the number is the same, nothing was applied. *)
Lemma applies_unchanged s d s' d' n :
  applies s d s' d' n -> holds s d -> revision s + Z.of_nat n < two64 -> revision s' = revision s -> s' = s.
Proof.
  induction 1 as [s d|works clk req s w r s1 w1 s2 d2 n Ha Hs IH]; intros Hh Hlt He; [done|].
  pose proof (wp_Apply works clk codec_ok req s w Hh ltac:(lia)) as Hp. unfold wp in Hp. rewrite Ha in Hp.
  destruct r as [a|e]; simpl in Hp.
  - destruct Hp as [[(_ & _ & Hn) _ _ _ _ [Hh1 _] _] _].
    destruct (applies_keeps _ _ _ _ _ Hs Hh1) as (_ & Hle & _); lia.
  - destruct Hp as (-> & _ & Hh1 & _). apply IH; [done|lia|done].
Qed.

(** C29: The history is immutable: however many applications follow, failing or
    not, a revision on record stays on record with its bytes, so that asking
    for it (to roll back) gives exactly what was in force then; and the number
    of the current revision never goes down. *)
Theorem history_immutable s d s' d' n meta data works w :
  holds s d -> applies s d s' d' n -> revision s + Z.of_nat n < two64 ->
  0 < rmRevision meta <= revision s -> recorded meta data d ->
  (forall k, works k = true) -> on_disk w = d' ->
  revision s <= revision s' /\ (HistoryGet works (rmRevision meta) s' w).1 = Ok (MkRevision meta data).
Proof.
  intros Hh Ha Hlt Hm Hrec Hw Hd. destruct (applies_keeps _ _ _ _ _ Ha Hh Hlt) as (Hh' & Hle & Hkeep).
  split; [lia|]. pose proof (wp_HistoryGet works Hw meta data s' w (ho_managed _ _ Hh') ltac:(lia)) as Hg.
  unfold wp in Hg. apply Hg. rewrite Hd. auto.
Qed.

(** Optimistic concurrency: of two callers that name the revision they saw,
    the second is refused: whatever happens after a successful application, no
    later one that expects the revision before it succeeds. *)
Theorem stale_application_refused works clk req s w a s1 w1 s2 d2 n works' clk' req' w2 :
  holds s (on_disk w) -> revision s + 1 + Z.of_nat n + 1 < two64 ->
  Apply works clk req s w = ((Ok a, s1), w1) -> applies s1 (on_disk w1) s2 d2 n -> on_disk w2 = d2 ->
  aqExpectedRevision req' = revision s ->
  is_ok (Apply works' clk' req' s2 w2).1.1 = false.
Proof.
  intros Hh Hlt Ha Hs Hd Hexp. pose proof (ho_range _ _ Hh) as Hr.
  pose proof (wp_Apply works clk codec_ok req s w Hh ltac:(lia)) as Hp. unfold wp in Hp. rewrite Ha in Hp.
  destruct Hp as [[(_ & _ & Hn) _ _ _ _ [Hh1 _] _] _].
  destruct (applies_keeps _ _ _ _ _ Hs Hh1 ltac:(lia)) as (Hh2 & Hle & _).
  assert (revision s2 + 1 < two64) as Hlt2 by lia.
  pose proof (wp_Apply works' clk' codec_ok req' s2 w2 ltac:(by rewrite Hd) Hlt2) as Hp2. unfold wp in Hp2.
  destruct (Apply works' clk' req' s2 w2) as [[[a2|e2] s3] w3]; simpl in *; [|done].
  destruct Hp2 as [[_ _ [_ [?|?]] _ _ _ _] _]; lia.
Qed.

End Runs.

(** ** One configuration file *)

Module StoreSample.

(** Metadata as one number. *)
Definition fields (m : RevisionMeta) :=
  (rmRevision m, rmParentRevision m, rmAction m, rmActor m, rmReason m, rmRollbackTarget m, rmChanged m,
   rmDanger m, rmRestartRequired m, rmCreatedAt m).
Definition of_fields '(r, p, a, ac, re, t, c, d, b, at_) : RevisionMeta := MkMeta r p a ac re t c d b at_.

Definition codec : MetaCodec := {|
  meta_marshal m := Some [Zpos (encode (fields m))];
  meta_unmarshal b := match b with [Zpos p] => of_fields <$> decode p | _ => None end;
|}.
#[local] Existing Instance codec.

Lemma codec_ok m js : meta_marshal m = Some js -> meta_unmarshal js = Some m.
Proof. intros [= <-]. simpl. rewrite decode_encode. by destruct m. Qed.

Lemma marshals m : is_Some (meta_marshal m).
Proof. by eexists. Qed.

Definition clk (n : nat) : Z := Z.of_nat n * second.
Definition text (s : string) : list Z := bytes_of s.

(** The file before the program has ever seen it. *)
Definition fresh : io := MkIO (MkDisk (Some (text "a")) None) 0 [].

Definition open (w : io) := New (fun _ => true) clk (Some "/etc/waf.yaml"%string) "/etc/waf.yaml"
  (default [] (file (on_disk w))) true w.

Definition zero_store : Store := MkStore "" false [] 0 0 None false.
Definition store1 : Store := match (open fresh).1 with Ok s => s | Err _ => zero_store end.
Definition w1 : io := (open fresh).2.

Lemma fresh_whole : whole (on_disk fresh).
Proof. by intros n b. Qed.

Lemma store1_opened : (open fresh).1 = Ok store1 /\ opened (text "a") (on_disk fresh) store1 (on_disk w1).
Proof.
  pose proof (wp_New (fun _ => true) clk codec_ok (fun _ => eq_refl) marshals "/etc/waf.yaml" "/etc/waf.yaml"
    (text "a") fresh fresh_whole eq_refl ltac:(vm_compute; discriminate)) as Hn.
  destruct Hn as (s & Hs & Ho); [by intros m (b & Hb & _)|]. change (New _ _ _ _ _ _ fresh) with (open fresh) in *.
  unfold store1, w1. by rewrite Hs.
Qed.

Definition edit (expected : Z) (content : string) : ApplyRequest :=
  MkApply (text content) expected "root" "test" 1 "normal" true "" 0.

Lemma Apply_spec_witness :
  match Apply (fun _ => true) clk (edit 1 "b") store1 w1 with
  | ((Ok a, s'), w') => arRevision a = 2 /\ applied (edit 1 "b") store1 (on_disk w1) a s' (on_disk w')
  | _ => False
  end.
Proof.
  destruct store1_opened as (_ & _ & Hh & _).
  assert (match Apply (fun _ => true) clk (edit 1 "b") store1 w1 with ((Ok a, _), _) => arRevision a | _ => 0 end = 2)
    as Hr by (vm_compute; reflexivity).
  pose proof (Apply_spec codec_ok marshals (fun _ => true) clk (edit 1 "b") store1 w1 Hh) as Ha.
  destruct (Apply (fun _ => true) clk (edit 1 "b") store1 w1) as [[[a|e] s'] w']; [|discriminate].
  split; [exact Hr|]. apply Ha. vm_compute. reflexivity.
Defined.

(** Two edits of what revision 1 holds, then back. *)
Definition step (req : ApplyRequest) (sw : Store * io) : Store * io :=
  let '((_, s), w) := Apply (fun _ => true) clk req sw.1 sw.2 in (s, w).

Definition after : Store * io := step (edit 2 "c") (step (edit 1 "b") (store1, w1)).

Lemma after_applies : applies store1 (on_disk w1) after.1 (on_disk after.2) 2.
Proof.
  unfold after, step. cbn [fst snd].
  destruct (Apply (fun _ => true) clk (edit 1 "b") store1 w1) as [[r s1] w1'] eqn:E1.
  eapply as_step; [exact E1|]. cbn [fst snd].
  destruct (Apply (fun _ => true) clk (edit 2 "c") s1 w1') as [[r2 s2] w2] eqn:E2.
  eapply as_step; [exact E2|]. apply as_nil.
Qed.

Lemma history_immutable_witness :
  revision after.1 = 3 /\ exists meta, (HistoryGet (fun _ => true) (rmRevision meta) after.1 after.2).1 =
    Ok (MkRevision meta (text "a")).
Proof.
  split; [vm_compute; reflexivity|]. destruct store1_opened as (_ & Hraw & Hh & _).
  destruct (ho_recorded _ _ Hh) as (meta & Hm & Hrec). exists meta. rewrite Hraw in Hrec.
  assert (revision store1 = 1) as Hr by (vm_compute; reflexivity).
  apply (history_immutable codec_ok store1 (on_disk w1) after.1 (on_disk after.2) 2 meta (text "a")
    (fun _ => true) after.2 Hh after_applies); [vm_compute; reflexivity|lia|exact Hrec|reflexivity|reflexivity].
Defined.

Lemma stale_application_refused_witness :
  is_ok (Apply (fun _ => true) clk (edit 1 "d") (step (edit 1 "b") (store1, w1)).1 (step (edit 1 "b") (store1, w1)).2).1.1
  = false.
Proof.
  destruct store1_opened as (_ & _ & Hh & _). unfold step. cbn [fst snd].
  assert (is_ok (Apply (fun _ => true) clk (edit 1 "b") store1 w1).1.1 = true) as Hok by (vm_compute; reflexivity).
  destruct (Apply (fun _ => true) clk (edit 1 "b") store1 w1) as [[[a|e] s1] w1'] eqn:E1; [|discriminate].
  apply (stale_application_refused codec_ok (fun _ => true) clk (edit 1 "b") store1 w1 a s1 w1' s1 (on_disk w1') 0
    (fun _ => true) clk (edit 1 "d") w1' Hh); [vm_compute; reflexivity|exact E1|apply as_nil|reflexivity|].
  vm_compute. reflexivity.
Defined.

Definition works_but (bad : list nat) (n : nat) : bool := negb (bool_decide (n ∈ bad)).

(** The rename over the active file, and the removal of the metadata. *)
Definition bad_calls : list nat := [44; 46]%nat.

(** Taking a revision back removes its bytes before its metadata: when the
    replacement of the file fails and the metadata cannot be removed (or the
    machine stops in between), the history names a revision without bytes, and
    from then on the store cannot be opened at all, although the file is
    intact and every later call works. *)
Theorem stranded_revision :
  let '((r, s), w) := Apply (works_but bad_calls) clk (edit 1 "b") store1 w1 in
  r = Err ErrIO /\ file (on_disk w) = Some (text "a") /\
  in_history (yaml_name 2) (on_disk w) = None /\ is_Some (in_history (json_name 2) (on_disk w)) /\
  (open w).1 = Err ErrNotExist.
Proof. vm_compute. eauto 10. Qed.

End StoreSample.
