(* ===== verification/ConfigSecret.v ===== *)
(** * Secrets in configuration documents ([internal/configctl/secret.go])

    A parsed document is a tree of nodes; redaction and merging rewrite values in
    place, keeping keys, order and comments.  An alias holds the node it stood
    for when parsed; no code here follows it but the decoder, which like the
    parser and the encoder is a parameter. *)

From S2P Require Import Prelude GoStrings Strconv YamlStructure.

(** [yaml.Node], its three comments as one string. *)
Inductive node :=
  MkNode (k : kind) (tag value : string) (style : Z) (anchor comments : string)
    (alias : option node) (content : list node).

Definition nKind (n : node) : kind := let 'MkNode k _ _ _ _ _ _ _ := n in k.
Definition nTag (n : node) : string := let 'MkNode _ t _ _ _ _ _ _ := n in t.
Definition nValue (n : node) : string := let 'MkNode _ _ v _ _ _ _ _ := n in v.
Definition nContent (n : node) : list node := let 'MkNode _ _ _ _ _ _ _ c := n in c.

Definition KEEP : string := "${SECRET:KEEP}".
Definition CLEAR : string := "${SECRET:CLEAR}".

(** ** Paths and values *)

Definition sensitiveConfigPaths : list string :=
  ["pow.public_salt"; "pow.allowed_previous_salts"; "storage.postgres.dsn"; "storage.redis.password";
   "logging.log_salt"].

Definition joinPath (prefix key : string) : string :=
  if (prefix =? "")%string then key else prefix +:+ "." +:+ key.

Definition docRoot (n : node) : node :=
  match n with MkNode DocumentNode _ _ _ _ _ _ [c] => c | _ => n end.

(** [docRoot] put back. *)
Definition with_root (n root : node) : node :=
  match n with
  | MkNode DocumentNode t v s a c al [_] => MkNode DocumentNode t v s a c al [root]
  | _ => root
  end.

Definition scalarText (n : node) : option string :=
  match docRoot n with
  | MkNode ScalarNode t v _ _ _ _ _ => if ((t =? "!!str") || (t =? ""))%string then Some v else None
  | _ => None
  end.

(** [setPlaceholder]: the anchor and the comments stay. *)
Definition setPlaceholder (n : node) (text : string) : node :=
  let 'MkNode _ _ _ _ a c _ _ := n in MkNode ScalarNode "!!str" text 0 a c None [].

Fixpoint deepCopyNode (n : node) : node :=
  let 'MkNode k t v s a c _ content := n in MkNode k t v s a c None (map deepCopyNode content).

Definition DoubleQuotedStyle : Z := Z.shiftl 1 1.

Definition emptyNode (baseVal : node) : node :=
  match nKind (docRoot baseVal) with
  | SequenceNode => MkNode SequenceNode "!!seq" "" 0 "" "" None []
  | _ => MkNode ScalarNode "!!str" "" DoubleQuotedStyle "" "" None []
  end.

(** The entries of a mapping, in order; an odd last child is ignored. *)
Fixpoint entries (content : list node) : list (node * node) :=
  match content with k :: v :: content => (k, v) :: entries content | _ => [] end.

(** [mappingEntries]: the last of equal keys wins. *)
Fixpoint find_last (key : string) (es : list (node * node)) : option node :=
  match es with
  | [] => None
  | (k, v) :: es => match find_last key es with
                    | Some w => Some w
                    | None => if (nValue k =? key)%string then Some v else None
                    end
  end.

Definition mappingEntries (n : node) : list (node * node) :=
  match nKind n with MappingNode => entries (nContent n) | _ => [] end.

(** Replace the value of the last entry under [key]. *)
Fixpoint set_last (key : string) (v : node) (content : list node) : list node :=
  match content with
  | k :: w :: content =>
      match find_last key (entries content) with
      | Some _ => k :: w :: set_last key v content
      | None => if (nValue k =? key)%string then k :: v :: content else k :: w :: content
      end
  | _ => content
  end.

Definition with_content (n : node) (content : list node) : node :=
  let 'MkNode k t v s a c al _ := n in MkNode k t v s a c al content.

(** Why a candidate is refused. *)
Inductive merge_error :=
  | NoBase
  | BadCandidate
  | BadBase
  | Removed (path : string)
  | NoBaseValue (path : string)
  | MustUsePlaceholder (path : string)
  | StrayPlaceholder (path : string)
  | Introduced (path : string)
  | CannotEncode.

Section Secrets.
Context `{Unicode}.

Definition isSensitivePath (path : string) : bool :=
  existsb (fun p => p =? ToLower path)%string sensitiveConfigPaths.

(** ** Redaction *)

Fixpoint redactNode (prefix : string) (n : node) : node :=
  let 'MkNode k t v s a c al content := n in
  match k with
  | DocumentNode | SequenceNode => MkNode k t v s a c al (map (redactNode prefix) content)
  | MappingNode =>
      MkNode k t v s a c al
        ((fix redact_entries (l : list node) : list node :=
            match l with
            | key :: val :: l =>
                let path := joinPath prefix (nValue key) in
                key :: (if isSensitivePath path then setPlaceholder val KEEP else redactNode path val)
                    :: redact_entries l
            | l => l
            end) content)
  | _ => n
  end.

(** ** Merging *)

Section Merge.
(** [equalValue(decodeNode(a), decodeNode(b))]. *)
Variable same_value : node -> node -> bool.

Fixpoint rejectSecretPlaceholderMap (fuel : nat) (prefix : string) (n : node) : option (result merge_error unit) :=
  match fuel with
  | O => None
  | S fuel =>
      let reject_entry := fun '((k, v) : node * node) (next : option (result merge_error unit)) =>
        let path := joinPath prefix (nValue k) in
        if isSensitivePath path then Some (Err (Introduced path))
        else if match scalarText v with Some text => HasPrefix text "${SECRET:" | None => false end
        then Some (Err (StrayPlaceholder path))
        else match rejectSecretPlaceholderMap fuel path v with
             | Some (Ok _) => next
             | r => r
             end in
      fold_right reject_entry (Some (Ok tt)) (mappingEntries (docRoot n))
  end.

(** The loop over the entries of the base: sensitive ones must still be there,
    mappings on both sides are merged in place. *)
Fixpoint merge_base (merge : string -> node -> node -> option (result merge_error node)) (prefix : string)
    (base_entries : list (node * node)) (content : list node) : option (result merge_error (list node)) :=
  match base_entries with
  | [] => Some (Ok content)
  | (k, baseVal) :: es =>
      let key := nValue k in
      let path := joinPath prefix key in
      let candVal := find_last key (entries content) in
      if isSensitivePath path then
        match candVal with
        | None => Some (Err (Removed path))
        | Some _ => merge_base merge prefix es content
        end
      else
        match nKind (docRoot baseVal), candVal with
        | MappingNode, Some v =>
            match merge path v baseVal with
            | Some (Ok v') => merge_base merge prefix es (set_last key v' content)
            | Some (Err e) => Some (Err e)
            | None => None
            end
        | _, _ => merge_base merge prefix es content
        end
  end.

(** One entry of the candidate: its new value. *)
Definition merge_entry (reject : string -> node -> option (result merge_error unit)) (prefix : string)
    (base_map : list (node * node)) (k v : node) : option (result merge_error node) :=
  let key := nValue k in
  let path := joinPath prefix key in
  let baseVal := find_last key base_map in
  if isSensitivePath path then
    match baseVal with
    | None => Some (Err (NoBaseValue path))
    | Some b =>
        match scalarText v with
        | Some text =>
            if (text =? KEEP)%string then Some (Ok (deepCopyNode b))
            else if (text =? CLEAR)%string then Some (Ok (deepCopyNode (emptyNode b)))
            else if same_value v b then Some (Ok v) else Some (Err (MustUsePlaceholder path))
        | None => if same_value v b then Some (Ok v) else Some (Err (MustUsePlaceholder path))
        end
    end
  else if match scalarText v with Some text => HasPrefix text "${SECRET:" | None => false end
  then Some (Err (StrayPlaceholder path))
  else
    match baseVal, nKind (docRoot v) with
    | None, MappingNode =>
        match reject path v with
        | Some (Ok _) => Some (Ok v)
        | Some (Err e) => Some (Err e)
        | None => None
        end
    | _, _ => Some (Ok v)
    end.

Fixpoint merge_cand (reject : string -> node -> option (result merge_error unit)) (prefix : string)
    (base_map : list (node * node)) (content : list node) : option (result merge_error (list node)) :=
  match content with
  | k :: v :: content =>
      match merge_entry reject prefix base_map k v with
      | Some (Ok v') =>
          match merge_cand reject prefix base_map content with
          | Some (Ok c') => Some (Ok (k :: v' :: c'))
          | r => r
          end
      | Some (Err e) => Some (Err e)
      | None => None
      end
  | content => Some (Ok content)
  end.

(** The depth of a tree, the fuel of the recursions. *)
Fixpoint depth (n : node) : nat :=
  let 'MkNode _ _ _ _ _ _ _ content := n in S (fold_right (fun c d => Nat.max (depth c) d) 0%nat content).

(** The candidate with its placeholders resolved. *)
Fixpoint mergeSecretNode (fuel : nat) (prefix : string) (cand base : node) : option (result merge_error node) :=
  match fuel with
  | O => None
  | S fuel =>
      let base := docRoot base in
      let root := docRoot cand in
      match nKind base with
      | MappingNode =>
          let base_map := entries (nContent base) in
          let cand_content := match nKind root with MappingNode => nContent root | _ => [] end in
          match merge_base (mergeSecretNode fuel) prefix base_map cand_content with
          | Some (Ok content) =>
              match nKind root with
              | MappingNode =>
                  match merge_cand (fun p v => rejectSecretPlaceholderMap (depth v) p v) prefix base_map content with
                  | Some (Ok content) => Some (Ok (with_root cand (with_content root content)))
                  | Some (Err e) => Some (Err e)
                  | None => None
                  end
              | _ => Some (Ok cand)
              end
          | Some (Err e) => Some (Err e)
          | None => None
          end
      | _ => Some (Ok cand)
      end
  end.

End Merge.
End Secrets.

(** ** Documents as bytes *)

(** [bytes.ReplaceAll(raw, "\r\n", "\n")]. *)
Fixpoint normalizeCRLF (raw : list Z) : list Z :=
  match raw with
  | 13 :: ((10 :: _) as rest) => normalizeCRLF rest
  | b :: rest => b :: normalizeCRLF rest
  | [] => []
  end.

(** [strings.Split(s, "\n")]. *)
Fixpoint split_lines (l : list Z) : list (list Z) :=
  match l with
  | [] => [[]]
  | 10 :: l => [] :: split_lines l
  | b :: l => match split_lines l with line :: lines => (b :: line) :: lines | [] => [[b]] end
  end.

(** The smallest positive indentation; 2 when there is none or it is above 8. *)
Definition line_indent (line : list Z) : option nat :=
  let trimmed := drop_while (fun b => b =? 32) line in
  match trimmed with
  | [] => None
  | _ => if (length trimmed =? length line)%nat then None else Some (length line - length trimmed)%nat
  end.

Definition detectIndent (raw : list Z) : nat :=
  let width := fold_left (fun w line =>
    match line_indent line with
    | None => w
    | Some n => if (w =? 0)%nat || (n <? w)%nat then n else w
    end) (split_lines raw) 0%nat in
  if (width <? 1)%nat || (8 <? width)%nat then 2%nat else width.

Section Documents.
Context `{Unicode}.
(** [yaml.Unmarshal] into a node, the encoder at an indentation, and the
    comparison of decoded values. *)
Variable parse : list Z -> option node.
Variable encodeYAML : node -> nat -> option (list Z).
Variable same_value : node -> node -> bool.

Definition unavailable : list Z := bytes_of "# redacted configuration unavailable".

Definition RedactYAML (raw : list Z) : list Z :=
  match raw with
  | [] => []
  | _ =>
      let raw := normalizeCRLF raw in
      match parse raw with
      | None => unavailable
      | Some doc =>
          match encodeYAML (redactNode "" doc) (detectIndent raw) with
          | Some out => out
          | None => unavailable
          end
      end
  end.

Definition mergeSecretPlaceholders (raw current : list Z) : result merge_error (list Z) :=
  match current with
  | [] => Err NoBase
  | _ =>
      let rawBytes := normalizeCRLF raw in
      match parse rawBytes with
      | None => Err BadCandidate
      | Some candidate =>
          match parse (normalizeCRLF current) with
          | None => Err BadBase
          | Some base =>
              match mergeSecretNode same_value (S (depth base)) "" candidate base with
              | Some (Ok merged) =>
                  match encodeYAML merged (detectIndent rawBytes) with
                  | Some out => Ok out
                  | None => Err CannotEncode
                  end
              | Some (Err e) => Err e
              | None => Err CannotEncode
              end
          end
      end
  end.

End Documents.
