(* ===== verification/ConfigSecretTheory.v ===== *)
(** * Secrets stay secret and come back

    Redaction shows nothing of a sensitive value and changes nothing else;
    merging a redacted document into its original gives the original back; and a
    merged document has, in the sections that are mappings in the base, under its
    sensitive keys only what the base had, or nothing. *)

From S2P Require Import Prelude GoStrings YamlStructure ConfigSecret.

(** Induction on the children of a node. *)
Lemma node_tree_ind (P : node -> Prop) :
  (forall k t v s a c al content, Forall P content -> P (MkNode k t v s a c al content)) -> forall n, P n.
Proof.
  intros Hn. fix IH 1. intros [k t v s a c al content]. apply Hn. induction content; constructor; auto.
Qed.

(** A mapping as a list of entries. *)
Fixpoint flatten (es : list (node * node)) : list node :=
  match es with [] => [] | (k, v) :: es => k :: v :: flatten es end.

Lemma entries_flatten es : entries (flatten es) = es.
Proof. induction es as [|[k v] es IH]; simpl; [done|by rewrite IH]. Qed.

(** Two children at a time. *)
Lemma pairwise_ind (P : list node -> Prop) :
  P [] -> (forall k, P [k]) -> (forall k v l, P l -> P (k :: v :: l)) -> forall l, P l.
Proof.
  intros H0 H1 H2. assert (forall l, P l /\ forall k, P (k :: l)) as Hl; [|by intros l; apply Hl].
  induction l as [|a l [IH1 IH2]]; split; auto.
Qed.

Section Theory.
Context `{Unicode}.

(** ** Redaction *)

Fixpoint redact_entries (prefix : string) (l : list node) : list node :=
  match l with
  | key :: val :: l =>
      let path := joinPath prefix (nValue key) in
      key :: (if isSensitivePath path then setPlaceholder val KEEP else redactNode path val)
          :: redact_entries prefix l
  | l => l
  end.

Lemma redact_mapping prefix t v s a c al content :
  redactNode prefix (MkNode MappingNode t v s a c al content) =
  MkNode MappingNode t v s a c al (redact_entries prefix content).
Proof.
  simpl. f_equal. induction content as [|k|k w l IH] using pairwise_ind; [done|done|]. simpl. by rewrite IH.
Qed.

(** Documents that differ only in the values under sensitive keys (whose anchors
    and comments are not values). *)
Definition same_dressing (v w : node) : Prop := setPlaceholder v KEEP = setPlaceholder w KEEP.

Inductive agree : string -> node -> node -> Prop :=
  | ag_leaf prefix n : agree prefix n n
  | ag_list prefix k t v s a c al l l' :
      k = DocumentNode \/ k = SequenceNode -> Forall2 (agree prefix) l l' ->
      agree prefix (MkNode k t v s a c al l) (MkNode k t v s a c al l')
  | ag_mapping prefix t v s a c al l l' :
      agree_entries prefix l l' ->
      agree prefix (MkNode MappingNode t v s a c al l) (MkNode MappingNode t v s a c al l')
with agree_entries : string -> list node -> list node -> Prop :=
  | ae_end prefix l : (length l <= 1)%nat -> agree_entries prefix l l
  | ae_secret prefix key v w l l' :
      isSensitivePath (joinPath prefix (nValue key)) = true -> same_dressing v w ->
      agree_entries prefix l l' -> agree_entries prefix (key :: v :: l) (key :: w :: l')
  | ae_plain prefix key v w l l' :
      isSensitivePath (joinPath prefix (nValue key)) = false -> agree (joinPath prefix (nValue key)) v w ->
      agree_entries prefix l l' -> agree_entries prefix (key :: v :: l) (key :: w :: l').

(** What is printed does not depend on the secrets. *)
Lemma redact_agree n : forall prefix m, agree prefix n m -> redactNode prefix n = redactNode prefix m.
Proof.
  induction n as [k t v s a c al content IH] using node_tree_ind. intros prefix m Ha.
  inversion Ha as [|? ? ? ? ? ? ? ? ? l' Hk Hf|? ? ? ? ? ? ? ? l' Hf]; subst.
  - done.
  - assert (map (redactNode prefix) content = map (redactNode prefix) l') as E.
    { clear -IH Hf. revert l' Hf.
      induction IH as [|x content Hx _ IH']; intros l' Hf; inversion Hf; subst; [done|].
      simpl. f_equal; auto. }
    destruct Hk as [->| ->]; simpl; by rewrite E.
  - rewrite !redact_mapping. f_equal. clear -IH Hf. revert l' Hf. induction content as [|k|k w l IHl] using pairwise_ind; intros l' Hf.
    1,2: inversion Hf; subst; done.
    apply Forall_cons in IH as [_ IH]. apply Forall_cons in IH as [Hw IH].
    inversion Hf; subst; [simpl in *; lia| |]; simpl.
    + match goal with Hs : isSensitivePath _ = true |- _ => rewrite Hs end. f_equal. f_equal; auto.
    + match goal with Hs : isSensitivePath _ = false |- _ => rewrite Hs end. f_equal. f_equal; auto.
Qed.

Lemma placeholder_dressing v : same_dressing v (setPlaceholder v KEEP).
Proof. by destruct v. Qed.

(** Redaction changes secrets only. *)
Lemma agree_redact n : forall prefix, agree prefix n (redactNode prefix n).
Proof.
  induction n as [k t v s a c al content IH] using node_tree_ind. intros prefix.
  assert (Forall2 (agree prefix) content (map (redactNode prefix) content)) as Hl.
  { clear -IH. induction IH; simpl; constructor; auto. }
  destruct k; try (by apply ag_leaf); try (simpl; by apply ag_list; [auto|]).
  rewrite redact_mapping. apply ag_mapping. clear Hl.
  induction content as [|k|k w l IHl] using pairwise_ind; [by apply ae_end; simpl; lia..|].
  apply Forall_cons in IH as [_ IH]. apply Forall_cons in IH as [Hw IH]. simpl.
  destruct (isSensitivePath (joinPath prefix (nValue k))) eqn:Es.
  - apply ae_secret; [done|apply placeholder_dressing|auto].
  - apply ae_plain; auto.
Qed.

(** C19: Redaction is non-interference: two documents that differ only in the
    values under sensitive keys are redacted alike, so the text shown to an
    operator says nothing about them; a document and its redaction differ only
    there; and redacting twice is redacting once. *)
Theorem redactNode_hides prefix n :
  (forall m, agree prefix n m -> redactNode prefix m = redactNode prefix n) /\
  agree prefix n (redactNode prefix n) /\
  redactNode prefix (redactNode prefix n) = redactNode prefix n.
Proof.
  split_and!; [intros m Ha; symmetry; by apply redact_agree|apply agree_redact|].
  symmetry. apply redact_agree, agree_redact.
Qed.

(** ** Entries *)

Definition keys (es : list (node * node)) : list string := map (fun kv => nValue kv.1) es.

Lemma find_last_none key es : key ∉ keys es -> find_last key es = None.
Proof.
  induction es as [|[k v] es IH]; simpl; [done|]. intros Hn. apply not_elem_of_cons in Hn as [Hk Hn].
  rewrite IH by done. by rewrite (proj2 (String.eqb_neq _ _)) by congruence.
Qed.

Lemma find_last_mid es1 k v es2 :
  nValue k ∉ keys es2 -> find_last (nValue k) (es1 ++ (k, v) :: es2) = Some v.
Proof.
  intros Hn. induction es1 as [|[k' v'] es1 IH]; simpl; [|by rewrite IH].
  by rewrite find_last_none, String.eqb_refl.
Qed.

Lemma set_last_mid es1 k v w es2 :
  nValue k ∉ keys es2 ->
  set_last (nValue k) w (flatten (es1 ++ (k, v) :: es2)) = flatten (es1 ++ (k, w) :: es2).
Proof.
  intros Hn. induction es1 as [|[k' v'] es1 IH]; simpl.
  - rewrite entries_flatten, find_last_none by done. by rewrite String.eqb_refl.
  - rewrite entries_flatten, find_last_mid by done. by rewrite IH.
Qed.

(** ** The round trip *)

(** A document the round trip is for: distinct keys, no alias under a sensitive
    key, no text that looks like a placeholder, nothing sensitive below a list,
    and documents only at the top. *)
Inductive tame : string -> node -> Prop :=
  | tm_mapping prefix t v s a c al es :
      NoDup (keys es) -> tame_entries prefix es ->
      tame prefix (MkNode MappingNode t v s a c al (flatten es))
  | tm_other prefix n :
      nKind n <> MappingNode -> nKind n <> DocumentNode -> redactNode prefix n = n -> tame prefix n
with tame_entries : string -> list (node * node) -> Prop :=
  | te_nil prefix : tame_entries prefix []
  | te_secret prefix k v es :
      isSensitivePath (joinPath prefix (nValue k)) = true -> deepCopyNode v = v ->
      tame_entries prefix es -> tame_entries prefix ((k, v) :: es)
  | te_plain prefix k v es :
      isSensitivePath (joinPath prefix (nValue k)) = false -> tame (joinPath prefix (nValue k)) v ->
      (forall text, scalarText v = Some text -> HasPrefix text "${SECRET:" = false) ->
      tame_entries prefix es -> tame_entries prefix ((k, v) :: es).

Variable same_value : node -> node -> bool.

(** An entry of the redacted document, and after the loop over the base. *)
Definition redacted_entry (prefix : string) (kv : node * node) : node * node :=
  let path := joinPath prefix (nValue kv.1) in
  (kv.1, if isSensitivePath path then setPlaceholder kv.2 KEEP else redactNode path kv.2).
Definition restored_entry (prefix : string) (kv : node * node) : node * node :=
  (kv.1, if isSensitivePath (joinPath prefix (nValue kv.1)) then setPlaceholder kv.2 KEEP else kv.2).

Lemma redact_flatten prefix es : redact_entries prefix (flatten es) = flatten (map (redacted_entry prefix) es).
Proof. induction es as [|[k v] es IH]; simpl; [done|]. by rewrite IH. Qed.

Lemma keys_redacted prefix es : keys (map (redacted_entry prefix) es) = keys es.
Proof. unfold keys. by rewrite map_map. Qed.

Lemma tame_root prefix n : tame prefix n -> docRoot n = n.
Proof. intros Ht. inversion Ht as [|? [[] ? ? ? ? ? ? ?]]; subst; simpl in *; congruence. Qed.

(** The loop over the base puts the mappings back. *)
Lemma merge_base_restores merge prefix done_ es :
  (forall k v, (k, v) ∈ es -> nKind v = MappingNode -> isSensitivePath (joinPath prefix (nValue k)) = false ->
     merge (joinPath prefix (nValue k)) (redactNode (joinPath prefix (nValue k)) v) v = Some (Ok v)) ->
  NoDup (keys (done_ ++ es)) -> tame_entries prefix es ->
  merge_base merge prefix es (flatten (map (restored_entry prefix) done_ ++ map (redacted_entry prefix) es)) =
  Some (Ok (flatten (map (restored_entry prefix) (done_ ++ es)))).
Proof.
  revert done_; induction es as [|[k v] es IH]; intros l Hm Hnd Ht; simpl.
  { by rewrite !app_nil_r. }
  assert (nValue k ∉ keys (map (redacted_entry prefix) es)) as Hk.
  { rewrite keys_redacted. unfold keys in *. rewrite map_app in Hnd. apply NoDup_app in Hnd as (_ & _ & Hnd).
    by apply NoDup_cons in Hnd as [? _]. }
  assert (l ++ (k, v) :: es = (l ++ [(k, v)]) ++ es) as El by (by rewrite <- app_assoc).
  change (redacted_entry prefix (k, v)) with (k, (redacted_entry prefix (k, v)).2).
  rewrite entries_flatten, find_last_mid by done.
  assert (forall w, restored_entry prefix (k, v) = (k, w) ->
    merge_base merge prefix es (flatten (map (restored_entry prefix) l ++ (k, w) :: map (redacted_entry prefix) es)) =
    Some (Ok (flatten (map (restored_entry prefix) (l ++ (k, v) :: es))))) as Hrest.
  { intros w Hw. rewrite El. rewrite <- (IH (l ++ [(k, v)])).
    - rewrite map_app, <- app_assoc. simpl. by rewrite Hw.
    - intros k' v' Hin. apply Hm. by right.
    - by rewrite <- El.
    - by inversion Ht. }
  change ((redacted_entry prefix (k, v)).2) with (if isSensitivePath (joinPath prefix (nValue k))
    then setPlaceholder v KEEP else redactNode (joinPath prefix (nValue k)) v).
  unfold restored_entry in Hrest at 1. cbn [fst snd] in Hrest.
  destruct (isSensitivePath (joinPath prefix (nValue k))) eqn:Es; [by apply Hrest|].
  inversion Ht as [|? ? ? ? Hs|? ? ? ? _ Hv _ _]; subst; [congruence|]. rewrite (tame_root _ _ Hv).
  inversion Hv as [? ? ? ? ? ? ? es' _ _|? ? Hnm _ Hr]; subst.
  - simpl nKind. cbv iota. rewrite (Hm k _ ltac:(by left) eq_refl Es).
    change (fun kv => _) with (redacted_entry prefix). rewrite set_last_mid by done. by apply Hrest.
  - rewrite Hr. destruct (nKind v); try (by apply Hrest). done.
Qed.

(** The loop over the candidate puts the secrets back. *)
Lemma merge_cand_restores reject prefix base_map es :
  tame_entries prefix es -> (forall k v, (k, v) ∈ es -> find_last (nValue k) base_map = Some v) ->
  merge_cand same_value reject prefix base_map (flatten (map (restored_entry prefix) es)) = Some (Ok (flatten es)).
Proof.
  induction es as [|[k v] es IH]; intros Ht Hb; simpl; [done|].
  assert (merge_cand same_value reject prefix base_map (flatten (map (restored_entry prefix) es)) = Some (Ok (flatten es))) as Hrest.
  { apply IH; [by inversion Ht|]. intros k' v' Hin. apply Hb. by right. }
  unfold merge_entry. rewrite (Hb k v ltac:(by left)).
  inversion Ht as [|? ? ? ? Hs Hc|? ? ? ? Hs Hv Htext]; subst; rewrite Hs.
  - assert (scalarText (setPlaceholder v KEEP) = Some KEEP) as -> by (by destruct v).
    rewrite String.eqb_refl, Hc. by rewrite Hrest.
  - destruct (scalarText v) as [text|]; [rewrite (Htext text eq_refl)|]; by rewrite Hrest.
Qed.

Lemma tame_entries_in prefix es k v :
  tame_entries prefix es -> (k, v) ∈ es -> isSensitivePath (joinPath prefix (nValue k)) = false ->
  tame (joinPath prefix (nValue k)) v.
Proof.
  induction es as [|[k' v'] es IH]; intros Ht Hin Hs; [by apply not_elem_of_nil in Hin|].
  apply elem_of_cons in Hin as [[= -> ->]|Hin]; inversion Ht; subst; auto; congruence.
Qed.

Lemma depth_entry k t v s a c al es key w :
  (key, w) ∈ es -> (depth w < depth (MkNode k t v s a c al (flatten es)))%nat.
Proof.
  simpl. intros Hin. apply Nat.lt_succ_r. induction es as [|[k' v'] es IH]; [by apply not_elem_of_nil in Hin|].
  simpl. apply elem_of_cons in Hin as [[= -> ->]|Hin]; [lia|]. specialize (IH Hin). lia.
Qed.

Lemma in_keys_split (es : list (node * node)) k v :
  (k, v) ∈ es -> NoDup (keys es) -> exists es1 es2, es = es1 ++ (k, v) :: es2 /\ nValue k ∉ keys es2.
Proof.
  intros (es1 & es2 & ->)%list_elem_of_split Hnd. exists es1, es2. split; [done|].
  unfold keys in *. rewrite map_app in Hnd. apply NoDup_app in Hnd as (_ & _ & Hnd).
  by apply NoDup_cons in Hnd as [? _].
Qed.

Lemma merge_mapping_restores fuel prefix t v s a c al es :
  (depth (MkNode MappingNode t v s a c al (flatten es)) < fuel)%nat ->
  NoDup (keys es) -> tame_entries prefix es ->
  mergeSecretNode same_value fuel prefix
    (redactNode prefix (MkNode MappingNode t v s a c al (flatten es)))
    (MkNode MappingNode t v s a c al (flatten es)) =
  Some (Ok (MkNode MappingNode t v s a c al (flatten es))).
Proof.
  revert prefix t v s a c al es; induction fuel as [|fuel IH]; intros prefix t v s a c al es Hd Hnd Ht; [lia|].
  rewrite redact_mapping, redact_flatten. cbn [mergeSecretNode docRoot nKind nContent]. rewrite entries_flatten.
  rewrite (merge_base_restores _ prefix [] es); [|clear Hnd|done|done].
  - cbn [app]. rewrite merge_cand_restores; [done|done|]. intros k w Hin.
    destruct (in_keys_split es k w Hin Hnd) as (es1 & es2 & -> & Hk). by apply find_last_mid.
  - intros k w Hin Hk Hs. pose proof (depth_entry MappingNode t v s a c al es k w Hin) as Hlt.
    pose proof (tame_entries_in _ _ _ _ Ht Hin Hs) as Hw. inversion Hw as [? ? ? ? ? ? ? es' Hnd' Ht'|]; subst; [|done].
    apply IH; [lia|done|done].
Qed.

(** C20: Editing nothing changes nothing: a document that is shown redacted and
    handed back as it is merges with the active configuration into exactly that
    configuration, secrets included. *)
Theorem merge_redacted_roundtrip t v s a c al root :
  nKind root = MappingNode -> tame "" root ->
  let doc := MkNode DocumentNode t v s a c al [root] in
  mergeSecretNode same_value (S (depth doc)) "" (redactNode "" doc) doc = Some (Ok doc).
Proof.
  intros Hk Ht doc. inversion Ht as [? t' v' s' a' c' al' es Hnd He|]; subst; [|done].
  pose proof (merge_mapping_restores (S (depth doc)) "" t' v' s' a' c' al' es) as Hm.
  assert (depth (MkNode MappingNode t' v' s' a' c' al' (flatten es)) < S (depth doc))%nat as Hd
    by (unfold doc; cbn [depth fold_right]; lia).
  specialize (Hm Hd Hnd He). unfold doc in *.
  change (redactNode "" (MkNode DocumentNode t v s a c al [?x])) with
    (MkNode DocumentNode t v s a c al [redactNode "" x]).
  rewrite redact_mapping in *. cbn [mergeSecretNode docRoot nKind nContent] in *.
  destruct (merge_base _ _ _ _) as [[content|]|]; [|done|done].
  destruct (merge_cand _ _ _ _ _) as [[content'|]|]; [|done|done].
  cbn [with_root with_content] in *. congruence.
Qed.

(** ** The recursions end *)

Lemma depth_child n c : c ∈ nContent n -> (depth c < depth n)%nat.
Proof.
  destruct n as [k t v s a co al content]. simpl. intros Hin. apply Nat.lt_succ_r.
  induction Hin; simpl; lia.
Qed.

Lemma depth_docRoot n : (depth (docRoot n) <= depth n)%nat.
Proof. destruct n as [[] ? ? ? ? ? ? [|c [|]]]; simpl; lia. Qed.

Lemma entries_child k v content : (k, v) ∈ entries content -> v ∈ content.
Proof.
  induction content as [|x|x y l IH] using pairwise_ind; simpl; [by intros ?%not_elem_of_nil..|].
  intros [[= -> ->]|Hin]%elem_of_cons; set_solver.
Qed.

Lemma mapping_entry_depth n k v : (k, v) ∈ mappingEntries n -> (depth v < depth n)%nat.
Proof.
  unfold mappingEntries. destruct (nKind n); try by intros ?%not_elem_of_nil.
  intros Hin%entries_child. by apply depth_child.
Qed.

Lemma reject_alive fuel prefix n : (depth n <= fuel)%nat -> rejectSecretPlaceholderMap fuel prefix n <> None.
Proof.
  revert prefix n; induction fuel as [|fuel IH]; intros prefix n Hd; [destruct n; simpl in Hd; lia|]. simpl.
  assert (forall k v, (k, v) ∈ mappingEntries (docRoot n) -> (depth v <= fuel)%nat) as Hes.
  { intros k v Hin%mapping_entry_depth. pose proof (depth_docRoot n). lia. }
  induction (mappingEntries (docRoot n)) as [|[k v] es IHes]; simpl; [done|].
  case_if; [done|]. case_if; [done|].
  pose proof (IH (joinPath prefix (nValue k)) v ltac:(eapply Hes; by left)) as Hr.
  destruct (rejectSecretPlaceholderMap fuel _ v) as [[[]|e]|]; [|done|done].
  apply IHes. intros k' v' Hin. eapply Hes. by right.
Qed.

Lemma merge_entry_alive prefix base_map k v :
  merge_entry same_value (fun p v => rejectSecretPlaceholderMap (depth v) p v) prefix base_map k v <> None.
Proof.
  unfold merge_entry. pose proof (reject_alive (depth v) (joinPath prefix (nValue k)) v ltac:(lia)) as Hr.
  repeat case_if; repeat case_match; try done; by repeat case_if.
Qed.

Lemma merge_cand_alive prefix base_map content :
  merge_cand same_value (fun p v => rejectSecretPlaceholderMap (depth v) p v) prefix base_map content <> None.
Proof.
  induction content as [|k|k v l IH] using pairwise_ind; simpl; [done..|].
  pose proof (merge_entry_alive prefix base_map k v). destruct (merge_entry _ _ _ _ _ _) as [[v'|e]|]; [|done|done].
  by destruct (merge_cand _ _ _ _ _) as [[]|].
Qed.

Lemma merge_base_alive merge prefix es content :
  (forall p v k b, (k, b) ∈ es -> merge p v b <> None) -> merge_base merge prefix es content <> None.
Proof.
  revert content; induction es as [|[k b] es IH]; intros content Hm; simpl; [done|].
  assert (forall c, merge_base merge prefix es c <> None) as Hrest.
  { intros c. apply IH. intros p v k' b' Hin. eapply Hm. by right. }
  case_if; [destruct (find_last _ _); [apply Hrest|done]|].
  destruct (nKind (docRoot b)); try apply Hrest. destruct (find_last _ _) as [v|]; [|apply Hrest].
  pose proof (Hm (joinPath prefix (nValue k)) v k b ltac:(by left)).
  destruct (merge _ v b) as [[]|]; [apply Hrest|done|done].
Qed.

Lemma merge_alive fuel prefix cand base :
  (depth base < fuel)%nat -> mergeSecretNode same_value fuel prefix cand base <> None.
Proof.
  revert prefix cand base; induction fuel as [|fuel IH]; intros prefix cand base Hd; [lia|]. simpl.
  destruct (nKind (docRoot base)) eqn:Ek; try done.
  set (content := match nKind (docRoot cand) with MappingNode => _ | _ => _ end).
  assert (merge_base (mergeSecretNode same_value fuel) prefix (entries (nContent (docRoot base))) content <> None) as Hb.
  { apply merge_base_alive. intros p v k b Hin. apply IH.
    assert ((k, b) ∈ mappingEntries (docRoot base)) as Hin' by (unfold mappingEntries; by rewrite Ek).
    apply mapping_entry_depth in Hin'. pose proof (depth_docRoot base). lia. }
  destruct (merge_base _ _ _ _) as [[c|e]|]; [|done|done]. destruct (nKind (docRoot cand)); try done.
  pose proof (merge_cand_alive prefix (entries (nContent (docRoot base))) c).
  by destruct (merge_cand _ _ _ _ _) as [[]|].
Qed.

(** ** What a merged document holds *)

Lemma find_last_keys key es : key ∈ keys es <-> is_Some (find_last key es).
Proof.
  induction es as [|[k v] es IH]; simpl.
  { split; [by intros ?%not_elem_of_nil|by intros [? [=]]]. }
  rewrite elem_of_cons, IH. destruct (find_last key es) as [w|]; [split; eauto|].
  destruct (String.eqb_spec (nValue k) key) as [<-|Hne]; split; eauto; intros [?|[? ?]]; congruence.
Qed.

Lemma set_last_entries key v content :
  keys (entries (set_last key v content)) = keys (entries content) /\
  (key ∈ keys (entries content) -> find_last key (entries (set_last key v content)) = Some v) /\
  (forall key', key' <> key -> find_last key' (entries (set_last key v content)) = find_last key' (entries content)).
Proof.
  induction content as [|k|k w l (IH1 & IH2 & IH3)] using pairwise_ind; simpl.
  1,2: split_and!; [done|by intros ?%not_elem_of_nil|done].
  destruct (find_last key (entries l)) as [x|] eqn:Ef; simpl.
  - split_and!; [by rewrite IH1| |].
    + intros _. rewrite IH2; [done|]. apply find_last_keys. by rewrite Ef.
    + intros key' Hne. by rewrite IH3.
  - destruct (String.eqb_spec (nValue k) key) as [<-|Hne]; simpl.
    + split_and!; [done|intros _; by rewrite Ef, String.eqb_refl|]. intros key' Hne.
      by rewrite (proj2 (String.eqb_neq (nValue k) key')) by congruence.
    + split_and!; [done| |done]. intros [?|Hin]%elem_of_cons; [congruence|].
      apply find_last_keys in Hin as [? Hin]. congruence.
Qed.

(** After the loop over the base: nothing lost, the sensitive keys there, the
    shared mappings merged. *)
Lemma merge_base_done merge prefix es content content' :
  merge_base merge prefix es content = Some (Ok content') ->
  keys (entries content') = keys (entries content) /\
  (forall k b, (k, b) ∈ es -> isSensitivePath (joinPath prefix (nValue k)) = true ->
     nValue k ∈ keys (entries content)) /\
  (forall key, key ∈ keys (entries content) -> isSensitivePath (joinPath prefix key) = false ->
     match find_last key es with
     | Some b => nKind (docRoot b) = MappingNode ->
         exists v v', find_last key (entries content') = Some v' /\ merge (joinPath prefix key) v b = Some (Ok v')
     | None => find_last key (entries content') = find_last key (entries content)
     end).
Proof.
  revert content; induction es as [|[k b] es IH]; intros content Hm; simpl in Hm.
  { injection Hm as <-. split_and!; [done|by intros k b ?%not_elem_of_nil|done]. }
  assert (forall c, keys (entries c) = keys (entries content) ->
    (forall key, key <> nValue k -> find_last key (entries c) = find_last key (entries content)) ->
    (isSensitivePath (joinPath prefix (nValue k)) = true -> nValue k ∈ keys (entries content)) ->
    (nValue k ∈ keys (entries content) -> isSensitivePath (joinPath prefix (nValue k)) = false ->
       nKind (docRoot b) = MappingNode -> exists v v', find_last (nValue k) (entries c) = Some v' /\
         merge (joinPath prefix (nValue k)) v b = Some (Ok v')) ->
    merge_base merge prefix es c = Some (Ok content') ->
    keys (entries content') = keys (entries content) /\
    (forall k' b', (k', b') ∈ (k, b) :: es -> isSensitivePath (joinPath prefix (nValue k')) = true ->
       nValue k' ∈ keys (entries content)) /\
    (forall key, key ∈ keys (entries content) -> isSensitivePath (joinPath prefix key) = false ->
       match find_last key ((k, b) :: es) with
       | Some b' => nKind (docRoot b') = MappingNode ->
           exists v v', find_last key (entries content') = Some v' /\ merge (joinPath prefix key) v b' = Some (Ok v')
       | None => find_last key (entries content') = find_last key (entries content)
       end)) as Hstep.
  { intros c Hk Hf Hs Hv Hc. destruct (IH c Hc) as (K1 & K2 & K3). rewrite Hk in *. split_and!; [done| |].
    - intros k' b' [[= -> ->]|Hin]%elem_of_cons; [done|eauto].
    - intros key Hin Hns. specialize (K3 key Hin Hns). simpl. destruct (find_last key es) as [b'|]; [done|].
      destruct (String.eqb_spec (nValue k) key) as [<-|Hne]; [|by rewrite K3, Hf by congruence].
      intros Hmap. rewrite K3. auto. }
  destruct (isSensitivePath (joinPath prefix (nValue k))) eqn:Es.
  - destruct (find_last (nValue k) (entries content)) as [v|] eqn:Ef; [|done].
    apply (Hstep content); try done. intros _. apply find_last_keys. by rewrite Ef.
  - destruct (nKind (docRoot b)) eqn:Eb; try (apply (Hstep content); done).
    destruct (find_last (nValue k) (entries content)) as [v|] eqn:Ef.
    + destruct (merge _ v b) as [[v'|e]|] eqn:Em; [|done|done].
      destruct (set_last_entries (nValue k) v' content) as (S1 & S2 & S3).
      apply (Hstep (set_last (nValue k) v' content)); try done. intros Hin _ _. exists v, v'. auto.
    + apply (Hstep content); try done. intros Hin. apply find_last_keys in Hin as [? Hin]. congruence.
Qed.

(** After the loop over the candidate: entry by entry. *)
Lemma merge_cand_done reject prefix base_map content content' :
  merge_cand same_value reject prefix base_map content = Some (Ok content') ->
  Forall2 (fun kv kv' => kv'.1 = kv.1 /\ merge_entry same_value reject prefix base_map kv.1 kv.2 = Some (Ok kv'.2))
    (entries content) (entries content').
Proof.
  revert content'; induction content as [|k|k v l IH] using pairwise_ind; intros content' Hm; simpl in Hm.
  1,2: injection Hm as <-; constructor.
  destruct (merge_entry _ _ _ _ k v) as [[v'|e]|] eqn:Ee; [|done|done].
  destruct (merge_cand _ _ _ _ l) as [[c'|e]|]; [|done|done]. injection Hm as <-. simpl.
  constructor; [done|auto].
Qed.

(** What the base held under a sensitive key, or nothing, or what equals it. *)
Definition from_base (v b : node) : Prop :=
  v = deepCopyNode b \/ v = deepCopyNode (emptyNode b) \/ same_value v b = true.

(** A mapping of the merged document against the mapping of the base. *)
Record vetted (prefix : string) (m b : node) : Prop := {
  vt_kept : forall k w, (k, w) ∈ entries (nContent b) -> isSensitivePath (joinPath prefix (nValue k)) = true ->
    nValue k ∈ keys (mappingEntries m);
  vt_secret : forall k v, (k, v) ∈ mappingEntries m -> isSensitivePath (joinPath prefix (nValue k)) = true ->
    exists w, find_last (nValue k) (entries (nContent b)) = Some w /\ from_base v w;
  vt_stray : forall k v text, (k, v) ∈ mappingEntries m -> isSensitivePath (joinPath prefix (nValue k)) = false ->
    scalarText v = Some text -> HasPrefix text "${SECRET:" = false;
}.

(** The pairs of mappings reached through keys that are mappings on both sides. *)
Inductive level : string -> node -> node -> string -> node -> node -> Prop :=
  | lv_here p m b : level p m b p m b
  | lv_down p m b key v w p' m' b' :
      find_last key (mappingEntries m) = Some v -> find_last key (entries (nContent b)) = Some w ->
      isSensitivePath (joinPath p key) = false -> nKind (docRoot w) = MappingNode ->
      level (joinPath p key) (docRoot v) (docRoot w) p' m' b' -> level p m b p' m' b'.

Lemma merge_entry_inv reject prefix base_map k v v' :
  merge_entry same_value reject prefix base_map k v = Some (Ok v') ->
  if isSensitivePath (joinPath prefix (nValue k)) then
    exists w, find_last (nValue k) base_map = Some w /\ from_base v' w
  else v' = v /\ forall text, scalarText v = Some text -> HasPrefix text "${SECRET:" = false.
Proof.
  unfold merge_entry. destruct (isSensitivePath _).
  - destruct (find_last _ _) as [w|]; [|done]. intros Hm. exists w. split; [done|]. unfold from_base.
    destruct (scalarText v) as [text|].
    + case_if_in Hm; [injection Hm as <-; by left|]. case_if_in Hm; [injection Hm as <-; auto|].
      case_if_in Hm; [injection Hm as <-; auto|done].
    + case_if_in Hm; [injection Hm as <-; auto|done].
  - destruct (scalarText v) as [text|]; [destruct (HasPrefix text _) eqn:Ep; [done|]|];
      (intros Hm; assert (v' = v) as -> by (destruct (find_last _ _), (nKind (docRoot v)); try congruence;
         destruct (reject _ v) as [[]|]; congruence)); split; try done.
    by intros text' [= <-].
Qed.

Lemma root_of_with_root cand c :
  nKind (docRoot cand) = MappingNode -> docRoot (with_root cand (with_content (docRoot cand) c)) = with_content (docRoot cand) c.
Proof.
  destruct cand as [[] ? ? ? ? ? ? [|x [|]]]; simpl; try done.
Qed.

Lemma Forall2_find_last (P : node -> node -> node -> Prop) es es' key v' :
  Forall2 (fun kv kv' => kv'.1 = kv.1 /\ P kv.1 kv.2 kv'.2) es es' -> find_last key es' = Some v' ->
  exists k v, nValue k = key /\ find_last key es = Some v /\ P k v v'.
Proof.
  intros Hf. assert (keys es' = keys es) as Hkeys.
  { unfold keys. induction Hf as [|[k v] [k2 v2] es es' [E _] _ IH]; simpl in *; [done|]. by rewrite E, IH. }
  induction Hf as [|[k v] [k2 v2] es es' [E Hp] Hf IH]; simpl; [done|]. simpl in E, Hp. subst k2.
  simpl in Hkeys. injection Hkeys as Hkeys.
  destruct (find_last key es') as [w'|] eqn:Ef.
  - intros [= <-]. destruct (IH Hkeys eq_refl) as (k3 & v3 & <- & Hv & ?). rewrite Hv. eauto.
  - assert (find_last key es = None) as ->.
    { destruct (find_last key es) eqn:E2; [|done]. assert (key ∈ keys es) as Hin by (apply find_last_keys; by rewrite E2).
      rewrite <- Hkeys in Hin. apply find_last_keys in Hin as [? Hin]. congruence. }
    destruct (String.eqb_spec (nValue k) key) as [<-|]; [|done]. intros [= <-]. eauto.
Qed.

Lemma merge_vets fuel prefix cand base m p' m' b' :
  mergeSecretNode same_value fuel prefix cand base = Some (Ok m) -> nKind (docRoot base) = MappingNode ->
  level prefix (docRoot m) (docRoot base) p' m' b' -> vetted p' m' b'.
Proof.
  revert prefix cand base m p' m' b'; induction fuel as [|fuel IH]; intros prefix cand base m p' m' b' Hm Hb Hl; [done|].
  simpl in Hm. rewrite Hb in Hm.
  destruct (merge_base _ _ _ _) as [[content|e]|] eqn:Emb; [|done|done].
  apply merge_base_done in Emb as (K1 & K2 & K3).
  (* the entries of the result, and where they come from *)
  assert (exists es, mappingEntries (docRoot m) = es /\ keys es = keys (entries content) /\
    Forall2 (fun kv kv' => kv'.1 = kv.1 /\ merge_entry same_value (fun p v => rejectSecretPlaceholderMap (depth v) p v)
      prefix (entries (nContent (docRoot base))) kv.1 kv.2 = Some (Ok kv'.2)) (entries content) es) as (es & Hes & Hke & Hf).
  { destruct (nKind (docRoot cand)) eqn:Ec; try (injection Hm as <-; exists []; unfold mappingEntries; rewrite Ec;
      destruct content as [|? [|? ?]]; simpl in *; try (split_and!; [done|done|constructor]); done).
    destruct (merge_cand _ _ _ _ _) as [[c'|e]|] eqn:Emc; [|done|done]. injection Hm as <-.
    rewrite root_of_with_root by done. exists (entries c'). apply merge_cand_done in Emc.
    split_and!; [|clear -Emc|done].
    - destruct (docRoot cand) as [k ? ? ? ? ? ? ?]. simpl in Ec. by subst k.
    - unfold keys. induction Emc as [|[k v] [k2 v2] ? ? [E _] _ IH]; simpl in *; [done|]. by rewrite E, IH. }
  inversion Hl as [|? ? ? key v w ? ? ? Hfv Hfw Hns Hmw Hl']; subst.
  - split.
    + intros k w Hin Hs. rewrite Hke, K1. eauto.
    + intros k v' Hin Hs. apply list_elem_of_lookup in Hin as [i Hi].
      destruct (Forall2_lookup_r _ _ _ _ _ Hf Hi) as ([k0 v0] & _ & E & Hme). simpl in *. subst k0.
      apply merge_entry_inv in Hme. by rewrite Hs in Hme.
    + intros k v' text Hin Hs. apply list_elem_of_lookup in Hin as [i Hi].
      destruct (Forall2_lookup_r _ _ _ _ _ Hf Hi) as ([k0 v0] & _ & E & Hme). simpl in *. subst k0.
      apply merge_entry_inv in Hme. rewrite Hs in Hme. destruct Hme as [-> Ht]. auto.
  - destruct (Forall2_find_last (fun k v v' => merge_entry same_value _ prefix _ k v = Some (Ok v')) _ _ key v Hf Hfv)
      as (k & v0 & Hk & Hv0 & Hme). apply merge_entry_inv in Hme. rewrite Hk, Hns in Hme. destruct Hme as [-> _].
    assert (key ∈ keys (entries content)) as Hin by (apply find_last_keys; by rewrite Hv0). rewrite K1 in Hin.
    specialize (K3 key Hin Hns). rewrite Hfw in K3. destruct (K3 Hmw) as (v1 & v2 & Hv2 & Hmerge).
    assert (v2 = v0) as -> by congruence. by eapply IH.
Qed.

(** C38: Merging ends on every pair of documents, and vets each section of what it
    returns that is a mapping in the base: the root, and what is reached from it
    through keys that are not sensitive, are still there and are mappings in the
    base ([level]).  There every sensitive key of the base is present, a sensitive
    value is a copy of the base's, an emptied one, or equal to it, and the text of
    no other key is a placeholder.  A section that is left out altogether, or that
    is a null or a scalar in the base, is not vetted ([merge_guard_bypassed]). *)
Theorem mergeSecretNode_spec prefix cand base :
  mergeSecretNode same_value (S (depth base)) prefix cand base <> None /\
  (forall m p' m' b', mergeSecretNode same_value (S (depth base)) prefix cand base = Some (Ok m) ->
     nKind (docRoot base) = MappingNode -> level prefix (docRoot m) (docRoot base) p' m' b' -> vetted p' m' b').
Proof. split; [apply merge_alive; lia|]. intros m p' m' b'. apply merge_vets. Qed.

End Theory.

(** ** A configuration with two secrets *)

Module SecretSample.
#[local] Existing Instance ascii_unicode.

Definition scalar (text : string) : node := MkNode ScalarNode "!!str" text 0 "" "" None [].
Definition null : node := MkNode ScalarNode "!!null" "" 0 "" "" None [].
Definition mapping (es : list (node * node)) : node := MkNode MappingNode "!!map" "" 0 "" "" None (flatten es).
Definition document (root : node) : node := MkNode DocumentNode "" "" 0 "" "" None [root].

(** Scalars compared by their text. *)
Definition same_text (a b : node) : bool :=
  match scalarText a, scalarText b with Some x, Some y => (x =? y)%string | _, _ => false end.

Definition pow (salt : string) : node :=
  mapping [(scalar "enabled", scalar "true"); (scalar "public_salt", scalar salt)].
Definition base_root : node := mapping [(scalar "pow", pow "s3cret"); (scalar "server", mapping [(scalar "listen", scalar ":80")])].
Definition base_doc : node := document base_root.

Lemma tame_scalar p text : tame p (scalar text).
Proof. by apply tm_other. Qed.

Lemma tame_base : tame "" base_root.
Proof.
  assert (forall text, HasPrefix text "${SECRET:" = false -> forall t, scalarText (scalar text) = Some t -> HasPrefix t "${SECRET:" = false)
    as Htext by (intros text Ht t [= <-]; exact Ht).
  apply (tm_mapping "" "!!map" "" 0 "" "" None [(scalar "pow", pow "s3cret"); (scalar "server", mapping [(scalar "listen", scalar ":80")])]).
  { apply (bool_decide_eq_true_1 (NoDup _)). vm_compute. reflexivity. }
  apply te_plain; [vm_compute; reflexivity| |intros text Ht; vm_compute in Ht; discriminate|
    apply te_plain; [vm_compute; reflexivity| |intros text Ht; vm_compute in Ht; discriminate|apply te_nil]].
  - apply (tm_mapping _ "!!map" "" 0 "" "" None [(scalar "enabled", scalar "true"); (scalar "public_salt", scalar "s3cret")]).
    { apply (bool_decide_eq_true_1 (NoDup _)). vm_compute. reflexivity. }
    apply te_plain; [vm_compute; reflexivity|apply tame_scalar|by apply Htext|].
    apply te_secret; [vm_compute; reflexivity|reflexivity|apply te_nil].
  - apply (tm_mapping _ "!!map" "" 0 "" "" None [(scalar "listen", scalar ":80")]).
    { apply (bool_decide_eq_true_1 (NoDup _)). vm_compute. reflexivity. }
    apply te_plain; [vm_compute; reflexivity|apply tame_scalar|by apply Htext|apply te_nil].
Qed.

Example redacted : redactNode "" base_doc =
  document (mapping [(scalar "pow", pow KEEP); (scalar "server", mapping [(scalar "listen", scalar ":80")])]).
Proof. vm_compute. reflexivity. Qed.

Lemma merge_redacted_roundtrip_witness :
  mergeSecretNode same_text (S (depth base_doc)) "" (redactNode "" base_doc) base_doc = Some (Ok base_doc).
Proof. exact (merge_redacted_roundtrip same_text "" "" 0 "" "" None base_root eq_refl tame_base). Defined.

Lemma redactNode_hides_witness :
  redactNode "pow" (pow "other") <> pow "other" /\
  redactNode "pow" (pow "other") = redactNode "pow" (pow "s3cret").
Proof.
  split; [vm_compute; discriminate|]. 
  apply (proj1 (redactNode_hides "pow" (pow "s3cret")) (pow "other")).
  apply ag_mapping. apply ae_plain; [vm_compute; reflexivity|apply ag_leaf|].
  apply ae_secret; [vm_compute; reflexivity|reflexivity|]. apply ae_end. simpl. lia.
Defined.

(** A literal under a sensitive key is refused, a cleared one emptied. *)
Definition edit (v : string) : node := document (mapping [(scalar "pow", pow v)]).

Example edits :
  mergeSecretNode same_text (S (depth base_doc)) "" (edit "hunter2") base_doc = Some (Err (MustUsePlaceholder "pow.public_salt")) /\
  mergeSecretNode same_text (S (depth base_doc)) "" (edit CLEAR) base_doc =
    Some (Ok (document (mapping [(scalar "pow", mapping [(scalar "enabled", scalar "true");
      (scalar "public_salt", MkNode ScalarNode "!!str" "" 2 "" "" None [])])]))).
Proof. vm_compute. auto. Qed.

Lemma mergeSecretNode_spec_witness :
  exists m, mergeSecretNode same_text (S (depth base_doc)) "" (edit KEEP) base_doc = Some (Ok m) /\
    vetted same_text "" (docRoot m) base_root.
Proof.
  assert (is_Some (mergeSecretNode same_text (S (depth base_doc)) "" (edit KEEP) base_doc)) as [[m|e] Hm]
    by (vm_compute; eauto).
  - exists m. split; [exact Hm|]. destruct (mergeSecretNode_spec same_text "" (edit KEEP) base_doc) as [_ Hv].
    exact (Hv m "" (docRoot m) base_root Hm eq_refl (lv_here "" (docRoot m) base_root)).
  - exfalso. vm_compute in Hm. discriminate.
Defined.

(** Where the base has the section as a null (or a scalar), the guard is not
    run: a literal secret is accepted there, and a placeholder is saved as if it
    were one. *)
Theorem merge_guard_bypassed :
  let base := document (mapping [(scalar "pow", null)]) in
  mergeSecretNode same_text (S (depth base)) "" (edit "hunter2") base = Some (Ok (edit "hunter2")) /\
  mergeSecretNode same_text (S (depth base)) "" (edit KEEP) base = Some (Ok (edit KEEP)).
Proof. vm_compute. auto. Qed.

Example documents :
  normalizeCRLF [97; 13; 10; 13; 98] = [97; 10; 13; 98] /\
  detectIndent (bytes_of "a:") = 2%nat /\
  detectIndent [97; 58; 10; 32; 32; 32; 32; 98; 58; 10; 32; 32; 32; 32; 32; 32; 99] = 4%nat.
Proof. vm_compute. auto. Qed.

End SecretSample.
