(* ===== verification/ConfigCtl.v ===== *)
(** * The configuration workflow ([internal/configctl/manager.go])

    Decoded configurations are compared leaf by leaf, the changes classified, and
    a plan made against the active revision is what an application is checked
    against.  The YAML decoder, the random source and the terminal are
    parameters. *)

From stdpp Require Import sorting.
From Stdlib Require Import SpecFloat.
From S2P Require Import Prelude GoStrings GoTime Strconv Config Matcher RiskEngine ConfigValidate YamlStructure.
From S2P Require Import ConfigLoad ConfigStore ConfigSecret.

(** ** Decoded values *)

(** What [yaml.Unmarshal] puts into an [interface{}]: floats in binary64, and
    maps listed by ascending key. *)
Inductive scalar :=
  | SBool (b : bool)
  | SInt (z : Z)
  | SInt64 (z : Z)
  | SUint64 (z : Z)
  | SFloat (f : spec_float)
  | SString (s : string)
  | STime (t : Z).

Inductive value :=
  | VNil
  | VScalar (s : scalar)
  | VList (l : list value)
  | VMap (l : list (string * value))
  | VAnyMap (l : list (scalar * value)).

Definition binary64 (z : Z) : spec_float := binary_normalize 53 1024 z 0 false.

(** [reflect.DeepEqual]: types matter, and a NaN differs from itself. *)
Definition scalar_equal (a b : scalar) : bool :=
  match a, b with
  | SBool x, SBool y => Bool.eqb x y
  | SInt x, SInt y | SInt64 x, SInt64 y | SUint64 x, SUint64 y | STime x, STime y => x =? y
  | SFloat x, SFloat y => SFeqb x y
  | SString x, SString y => (x =? y)%string
  | _, _ => false
  end.

Fixpoint equalValue (a b : value) {struct a} : bool :=
  match a, b with
  | VNil, VNil => true
  | VScalar x, VScalar y => scalar_equal x y
  | VList l, VList m =>
      (fix eq_list l m := match l, m with
         | [], [] => true
         | x :: l, y :: m => equalValue x y && eq_list l m
         | _, _ => false
         end) l m
  | VMap l, VMap m =>
      (fix eq_map l m := match l, m with
         | [], [] => true
         | (k, x) :: l, (k', y) :: m => (k =? k')%string && equalValue x y && eq_map l m
         | _, _ => false
         end) l m
  | VAnyMap l, VAnyMap m =>
      (fix eq_any l m := match l, m with
         | [], [] => true
         | (k, x) :: l, (k', y) :: m => scalar_equal k k' && equalValue x y && eq_any l m
         | _, _ => false
         end) l m
  | _, _ => false
  end.

(** Writing a key of a map listed by ascending key. *)
Fixpoint map_set (k : string) (v : value) (l : list (string * value)) : list (string * value) :=
  match l with
  | [] => [(k, v)]
  | (k', v') :: l' =>
      if (k =? k')%string then (k, v) :: l'
      else if String.ltb k k' then (k, v) :: l else (k', v') :: map_set k v l'
  end.

Definition map_get (k : string) (l : list (string * value)) : value :=
  match List.find (fun kv : string * value => kv.1 =? k)%string l with Some kv => kv.2 | None => VNil end.

Section Normalize.
(** [fmt.Sprint] of a key. *)
Variable sprint : scalar -> string.

(** Go ranges over the keys in an order of its own, here that of the listing: of
    two keys that print alike the later wins. *)
Fixpoint normalizeYAML (v : value) : value :=
  match v with
  | VMap l => VMap (map (fun kv => (kv.1, normalizeYAML kv.2)) l)
  | VAnyMap l => VMap (fold_left (fun m kv => map_set (sprint kv.1) kv.2 m)
                         (map (fun kv => (kv.1, normalizeYAML kv.2)) l) [])
  | VList l => VList (map normalizeYAML l)
  | _ => v
  end.
End Normalize.

(** ** Differences *)

Record DiffChange := MkChange {
  dcPath : string; dcKind : string; dcBefore : value; dcAfter : value;
  dcSensitive : bool; dcDanger : string; dcRestartRequired : bool;
}.

Definition is_nil (v : value) : bool := match v with VNil => true | _ => false end.

Definition leaf_change (path : string) (before after : value) : DiffChange :=
  let kind := "changed"%string in
  let kind := if is_nil before then "added"%string else kind in
  let kind := if is_nil after then "removed"%string else kind in
  MkChange path kind before after false "" false.

(** The keys of both maps, once each, sorted. *)
Definition ordered_keys (b a : list (string * value)) : list string :=
  merge_sort String.le (remove_dups (b.*1 ++ a.*1)).

Fixpoint value_depth (v : value) : nat :=
  match v with
  | VMap l => S (fold_right (fun kv d => Nat.max (value_depth kv.2) d) 0%nat l)
  | _ => 0
  end.

(** [fuel] bounds the nesting of maps; [value_depth] is enough (see
    [diffValue_unfold]). *)
Fixpoint diff_fuel (fuel : nat) (path : string) (before after : value) : list DiffChange :=
  if equalValue before after then []
  else
    match before, after, fuel with
    | VMap bm, VMap am, S fuel =>
        flat_map (fun key => diff_fuel fuel (joinPath path key) (map_get key bm) (map_get key am))
          (ordered_keys bm am)
    | _, _, _ => [leaf_change path before after]
    end.

Definition diffValue (path : string) (before after : value) : list DiffChange :=
  diff_fuel (value_depth before) path before after.

Section Diff.
Context `{Unicode}.

Definition numericValue (v : value) : option spec_float :=
  match v with
  | VScalar (SInt z) | VScalar (SInt64 z) | VScalar (SUint64 z) => Some (binary64 z)
  | VScalar (SFloat f) => Some f
  | _ => None
  end.

Definition difficultyReduced (path : string) (before after : value) : bool :=
  if negb (Contains path "difficulty") then false
  else
    match numericValue before, numericValue after with
    | Some old, Some new => SFltb new old
    | _, _ => false
    end.

(** The danger of a change, and the restart flag, which [Diff] ignores. *)
Definition classifyChange (path : string) (before after : value) : string * bool :=
  let lower := ToLower path in
  let restart := HasPrefix lower "server." || HasPrefix lower "storage." || HasPrefix lower "cleanup."
    || (lower =? "logging.level")%string || (lower =? "logging.format")%string
    || HasPrefix lower "risk_control.pending.max_per_ip" || HasPrefix lower "risk_control.pending.block_ttl" in
  let danger := "normal"%string in
  let danger := if Contains lower "bypass_all" || Contains lower "enabled" || Contains lower "excluded"
                   || HasPrefix lower "protection." || isSensitivePath path then "dangerous"%string else danger in
  let danger := if Contains lower "bypass_all" || HasSuffix lower "pow.enabled" || HasSuffix lower "risk_control.enabled"
                   || Contains lower "allow_empty_salt" || difficultyReduced lower before after
                then "critical"%string else danger in
  (danger, restart).

Definition dangerRank (d : string) : Z :=
  if (d =? "critical")%string then 3 else if (d =? "dangerous")%string then 2 else 1.

(** The loop of [Diff] on one change: blank it, then classify it. *)
Definition finish_change (c : DiffChange) : DiffChange :=
  let sensitive := isSensitivePath (dcPath c) in
  let before := if sensitive then VNil else dcBefore c in
  let after := if sensitive then VNil else dcAfter c in
  MkChange (dcPath c) (dcKind c) before after sensitive (classifyChange (dcPath c) before after).1 true.

Definition by_path (a b : DiffChange) : Prop := String.le (dcPath a) (dcPath b).
#[export] Instance by_path_dec : RelDecision by_path.
Proof. intros a b. unfold by_path. apply _. Defined.

Definition worst (l : list DiffChange) : string :=
  fold_left (fun d c => if dangerRank d <? dangerRank (dcDanger c) then dcDanger c else d) l "normal"%string.

Section Values.
(** [yaml.Unmarshal] into an [interface{}], its error ignored, and
    [fmt.Sprint]. *)
Variable unmarshal : list Z -> value.
Variable sprint : scalar -> string.

Definition decoded (raw : list Z) : value :=
  normalizeYAML sprint (match raw with [] => VNil | _ => unmarshal raw end).

Definition Diff (before after : list Z) : list DiffChange * string * bool :=
  let changes := map finish_change
    (merge_sort by_path (diffValue "" (decoded before) (decoded after))) in
  (changes, worst changes, match changes with [] => false | _ => true end).

(** ** Plans *)

Record Plan := MkPlan { pnBaseRevision : Z; pnChanges : list DiffChange; pnDanger : string; pnPhrase : string }.

Definition ConfirmationRequired (p : Plan) : bool := negb (pnPhrase p =? "")%string.

Definition hexDigits : list Z := bytes_of "0123456789abcdef".

(** [confirmToken]: [random] the bytes read, if any, [t] the time. *)
Definition confirmToken (random : option (list Z)) (t : Z) : string :=
  match random with
  | None => format_int (unix_nano t)
  | Some b => of_bytes (map (fun v => nth (Z.to_nat (Z.land v 15)) hexDigits 0) b)
  end.

Definition plan (s : Store) (raw : list Z) (action : string) (random : option (list Z)) (t : Z) : Plan :=
  let '(baseRevision, baseRaw) := Current s in
  let '(changes, danger, _) := Diff baseRaw raw in
  match changes with
  | [] => MkPlan baseRevision changes "normal" ""
  | _ =>
      let phrase :=
        if negb (danger =? "normal")%string || (action =? "rollback")%string
        then ToUpper action +:+ " " +:+ confirmToken random t else "" in
      MkPlan baseRevision changes danger phrase
  end.

Inductive ctl_error :=
  | ReasonRequired
  | ReasonTooLong
  | ReasonControl
  | CandidateSize
  | LoadFailed (e : load_error)
  | NoLongerValidates (r : Z)
  | StoreFailed (e : store_error).

Definition validateReason (reason : string) (required : bool) : result ctl_error string :=
  let reason := TrimSpace reason in
  if required && (reason =? "")%string then Err ReasonRequired
  else if 256 <? len reason then Err ReasonTooLong
  else if existsb (fun r => (r <? 32) || (r =? 127)) (runes reason) then Err ReasonControl
  else Ok reason.

Definition maxCandidateBytes : Z := Z.shiftl 128 10.

(** [LoadRawFromBytes]. *)
Variable load_bytes : list Z -> result load_error Config.

(** The problems of a candidate, or why it could not be read. *)
Definition ValidateYAML `{Regexp, MapRange} (raw : list Z) : result ctl_error (list problem) :=
  match raw with
  | [] => Err CandidateSize
  | _ =>
      if maxCandidateBytes <? Z.of_nat (length raw) then Err CandidateSize
      else
        match load_bytes raw with
        | Err e => Err (LoadFailed e)
        | Ok cfg => Ok (default [] (Validate (applyDefaults cfg)))
        end
  end.

Section Manager.
Context `{MetaCodec, Regexp, MapRange}.
Variable works : nat -> bool.
Variable clk : nat -> Z.

(** [Open]: the manager is its store; [abs] what [filepath.Abs] gives. *)
Definition Open (abs : option string) (p : string) : IO (result store_error Store) :=
  raw <-? read works file ;;
  New works clk abs p raw true.

(** [Manager.Apply]. *)
Definition apply (raw : list Z) (p : Plan) (reason actor action : string) (rollbackTarget : Z) (s : Store)
  : IO (result ctl_error ApplyResult * Store) :=
  match validateReason reason (negb (pnDanger p =? "normal")%string || (action =? "rollback")%string) with
  | Err e => mret (Err e, s)
  | Ok reason =>
      rs ← Apply works clk (MkApply raw (pnBaseRevision p) actor reason (Z.of_nat (length (pnChanges p)))
                              (pnDanger p) true action rollbackTarget) s;
      let '(r, s') := (rs : result store_error ApplyResult * Store) in
      mret (match r with Ok a => Ok a | Err e => Err (StoreFailed e) end, s')
  end.

Definition PlanRollback (r : Z) (random : option (list Z)) (t : Z) (s : Store)
  : IO (result ctl_error (Plan * Revision)) :=
  target ← HistoryGet works r s;
  match (target : result store_error Revision) with
  | Err e => mret (Err (StoreFailed e))
  | Ok target =>
      match ValidateYAML (rvRaw target) with
      | Ok [] => mret (Ok (plan s (rvRaw target) "rollback" random t, target))
      | _ => mret (Err (NoLongerValidates r))
      end
  end.

End Manager.
End Values.

Section Text.
(** The parser, the encoder and the comparison of [ConfigSecret]. *)
Variable parse : list Z -> option node.
Variable encodeYAML : node -> nat -> option (list Z).
Variable same_value : node -> node -> bool.

Definition Redacted (s : Store) : Z * list Z :=
  let '(rev, raw) := Current s in (rev, RedactYAML parse encodeYAML raw).

Definition MergeSecrets (edited : list Z) (s : Store) : result merge_error (list Z) :=
  let '(_, current) := Current s in mergeSecretPlaceholders parse encodeYAML same_value edited current.

End Text.
End Diff.
