(* ===== verification/ConfigCtlTheory.v ===== *)
(** * Plans show what an application does

    The changes of a plan are exactly the settings that differ, the danger their
    worst, and an application that succeeds with a plan replaces the very
    configuration the plan was made against. *)

From stdpp Require Import sorting.
From Stdlib Require Import SpecFloat.
From S2P Require Import Prelude GoStrings GoTime Strconv Config Matcher RiskEngine ConfigValidate YamlStructure.
From S2P Require Import ConfigLoad ConfigStore ConfigStoreTheory ConfigSecret ConfigSecretTheory ConfigCtl.

(** ** Settings *)

(** What the keys lead to; nothing, as a missing key does, below anything that
    is not a map. *)
Definition child (k : string) (v : value) : value :=
  match v with VMap l => map_get k l | _ => VNil end.
Definition setting (ks : list string) (v : value) : value := fold_left (fun v k => child k v) ks v.
Definition dotted (prefix : string) (ks : list string) : string := fold_left joinPath ks prefix.

Definition is_map (v : value) : bool := match v with VMap _ => true | _ => false end.

(** At these keys the two have different values, not both maps, and above them
    both have maps. *)
Record differs (before after : value) (ks : list string) : Prop := {
  df_values : equalValue (setting ks before) (setting ks after) = false;
  df_leaf : is_map (setting ks before) && is_map (setting ks after) = false;
  df_above : forall i, (i < length ks)%nat ->
    is_map (setting (take i ks) before) = true /\ is_map (setting (take i ks) after) = true;
}.

Lemma differs_leaf before after :
  equalValue before after = false -> is_map before && is_map after = false -> differs before after [].
Proof. intros He Hl. split; [done|done|]. simpl. lia. Qed.

Lemma differs_under k ks bm am :
  differs (VMap bm) (VMap am) (k :: ks) <-> differs (map_get k bm) (map_get k am) ks.
Proof.
  split; intros [He Hl Ha]; split; try done.
  - intros i Hi. apply (Ha (S i)). simpl. lia.
  - intros [|i] Hi; [done|]. apply (Ha i). simpl in Hi. lia.
Qed.

(** ** The recursion *)

Lemma map_get_depth k l v : VMap l = v -> (value_depth (map_get k l) < value_depth v)%nat.
Proof.
  intros <-. unfold map_get. simpl. induction l as [|[k' w] l IH]; simpl; [lia|].
  destruct (k' =? k)%string; simpl; [lia|]. destruct (List.find _ l); lia.
Qed.

Lemma diff_fuel_enough n m path before after :
  (value_depth before <= n)%nat -> (value_depth before <= m)%nat ->
  diff_fuel n path before after = diff_fuel m path before after.
Proof.
  revert m path before after; induction n as [|n IH]; intros m path before after Hn Hm.
  - destruct before; try (destruct m; reflexivity). simpl in Hn. lia.
  - destruct before as [| | |bm|]; try (destruct m; reflexivity). destruct m; [simpl in Hm; lia|].
    cbn [diff_fuel]. case_if; [done|]. destruct after; try done. apply flat_map_ext. intros k.
    pose proof (map_get_depth k bm _ eq_refl). apply IH; lia.
Qed.

(** The fuel is always enough: the recursion of the code. *)
Lemma diffValue_unfold path before after :
  diffValue path before after =
    if equalValue before after then []
    else match before, after with
         | VMap bm, VMap am => flat_map (fun k => diffValue (joinPath path k) (map_get k bm) (map_get k am))
                                 (ordered_keys bm am)
         | _, _ => [leaf_change path before after]
         end.
Proof.
  unfold diffValue at 1. destruct before as [| | |bm|]; try done. cbn [diff_fuel value_depth].
  case_if; [done|]. destruct after; try done. apply flat_map_ext. intros k.
  pose proof (map_get_depth k bm _ eq_refl) as Hd. simpl in Hd. apply diff_fuel_enough; lia.
Qed.

Lemma elem_of_ordered_keys k b a : k ∈ ordered_keys b a <-> k ∈ b.*1 \/ k ∈ a.*1.
Proof. unfold ordered_keys. by rewrite merge_sort_Permutation, elem_of_remove_dups, elem_of_app. Qed.

Lemma map_get_missing k l : k ∉ l.*1 -> map_get k l = VNil.
Proof.
  intros Hk. unfold map_get. induction l as [|[k' w] l IH]; simpl in *; [done|].
  destruct (String.eqb_spec k' k) as [->|]; [by destruct Hk; left|]. apply IH. intros ?. apply Hk. by right.
Qed.

Lemma equal_children k b a : equalValue (VMap b) (VMap a) = true -> equalValue (map_get k b) (map_get k a) = true.
Proof.
  unfold map_get. revert a; induction b as [|[k1 x] b IH]; intros [|[k2 y] a] He; try done.
  apply andb_true_iff in He as [[->%String.eqb_eq Hxy]%andb_true_iff He]. simpl.
  destruct (k2 =? k)%string; [done|]. by apply IH.
Qed.

Lemma equal_settings ks v w : equalValue v w = true -> equalValue (setting ks v) (setting ks w) = true.
Proof.
  revert v w; induction ks as [|k ks IH]; intros v w He; [done|]. simpl. apply IH.
  destruct v, w; try done. by apply equal_children.
Qed.

(** [diffValue] lists the settings that differ, and nothing else. *)
Lemma elem_of_diffValue c path before after :
  c ∈ diffValue path before after <->
  exists ks, differs before after ks /\ c = leaf_change (dotted path ks) (setting ks before) (setting ks after).
Proof.
  split.
  - remember (value_depth before) as n eqn:En. revert path before after En.
    induction (lt_wf n) as [n _ IH]; intros path before after ->. rewrite diffValue_unfold.
    destruct (equalValue before after) eqn:He; [by intros ?%not_elem_of_nil|].
    destruct (is_map before && is_map after) eqn:Hm.
    + destruct before as [| | |bm|], after as [| | |am|]; try done.
      intros (k & _ & Hk)%list_elem_of_In%in_flat_map. apply list_elem_of_In in Hk.
      eapply IH in Hk as (ks & Hd & ->); [|by apply (map_get_depth k bm)|done].
      exists (k :: ks). split; [by apply differs_under|done].
    + intros Hc. assert (c = leaf_change path before after) as ->.
      { destruct before, after; try done; by apply list_elem_of_singleton in Hc. }
      exists []. split; [by apply differs_leaf|done].
  - intros (ks & Hd & ->). revert path before after Hd.
    induction ks as [|k ks IH]; intros path before after Hd; rewrite diffValue_unfold.
    + destruct Hd as [He Hl _]. simpl in He, Hl. rewrite He.
      destruct before, after; try done; by apply list_elem_of_singleton.
    + destruct (df_above _ _ _ Hd 0) as [Hb Ha]; [simpl; lia|]. simpl in Hb, Ha.
      destruct before as [| | |bm|], after as [| | |am|]; try done.
      destruct (equalValue (VMap bm) (VMap am)) eqn:He.
      { apply (equal_settings (k :: ks)) in He. by rewrite (df_values _ _ _ Hd) in He. }
      apply differs_under in Hd. apply list_elem_of_In, in_flat_map. exists k.
      split; [|by apply list_elem_of_In, IH]. apply list_elem_of_In, elem_of_ordered_keys.
      destruct (decide (k ∈ bm.*1)) as [|Hnb]; [by left|]. destruct (decide (k ∈ am.*1)) as [|Hna]; [by right|].
      rewrite (map_get_missing _ _ Hnb), (map_get_missing _ _ Hna) in Hd.
      apply df_values in Hd. by rewrite equal_settings in Hd.
Qed.

(** Nothing is listed when every setting is the same or a map on both sides. *)
Lemma diffValue_nil path before after :
  diffValue path before after = [] <->
  forall ks, equalValue (setting ks before) (setting ks after) = true \/
    is_map (setting ks before) && is_map (setting ks after) = true.
Proof.
  split.
  - intros Hn ks. apply dec_stable. intros Hx.
    assert (exists ks, differs before after ks) as [ks' Hd].
    { clear Hn path. assert (equalValue (setting ks before) (setting ks after) = false /\
        is_map (setting ks before) && is_map (setting ks after) = false) as [He Hl].
      { destruct (equalValue _ _), (is_map _ && _); tauto. }
      clear Hx. revert before after He Hl; induction ks as [|k ks IH]; intros before after He Hl.
      - exists []. by apply differs_leaf.
      - destruct (is_map before && is_map after) eqn:Hm.
        + destruct before as [| | |bm|], after as [| | |am|]; try done.
          destruct (IH _ _ He Hl) as [ks' Hd]. exists (k :: ks'). by apply differs_under.
        + exists []. apply differs_leaf; [|done]. destruct (equalValue before after) eqn:Hb; [|done].
          apply (equal_settings (k :: ks)) in Hb. congruence. }
    assert (leaf_change (dotted path ks') (setting ks' before) (setting ks' after) ∈ diffValue path before after) as Hc
      by (apply elem_of_diffValue; eauto).
    rewrite Hn in Hc. by apply not_elem_of_nil in Hc.
  - intros Hall. destruct (diffValue path before after) as [|c l] eqn:E; [done|exfalso].
    assert (c ∈ diffValue path before after) as Hc by (rewrite E; by left).
    apply elem_of_diffValue in Hc as (ks & [He Hl _] & _). destruct (Hall ks); congruence.
Qed.

(** ** Danger *)

Section Theory.
Context `{Unicode}.

Definition dangers : list string := ["normal"; "dangerous"; "critical"]%string.

Lemma classify_known path b a : (classifyChange path b a).1 ∈ dangers.
Proof. unfold classifyChange, dangers. simpl. repeat case_match; set_solver. Qed.

Lemma normal_rank d : d ∈ dangers -> dangerRank d <= 1 -> d = "normal"%string.
Proof. unfold dangers. by intros [->|[->|[->|?%not_elem_of_nil]%elem_of_cons]%elem_of_cons]%elem_of_cons. Qed.

(** The result is one of the dangers, and none is worse. *)
Lemma worst_spec l d0 :
  let w := fold_left (fun d c => if dangerRank d <? dangerRank (dcDanger c) then dcDanger c else d) l d0 in
  (w = d0 \/ exists c, c ∈ l /\ dcDanger c = w) /\ dangerRank d0 <= dangerRank w /\
  (forall c, c ∈ l -> dangerRank (dcDanger c) <= dangerRank w).
Proof.
  revert d0; induction l as [|c l IH]; intros d0; simpl.
  { split_and!; [by left|lia|by intros c ?%not_elem_of_nil]. }
  set (d1 := if dangerRank d0 <? dangerRank (dcDanger c) then dcDanger c else d0).
  assert (dangerRank d0 <= dangerRank d1 /\ dangerRank (dcDanger c) <= dangerRank d1 /\
    (d1 = d0 \/ dcDanger c = d1)) as (H0 & Hc & Hd) by (unfold d1; case_if; bprop; split_and!; (lia || auto)).
  destruct (IH d1) as (Hw & Hr & Hl). split_and!; [|lia|].
  - destruct Hw as [->|(c' & Hc' & <-)]; [|right; exists c'; split; [by right|done]].
    destruct Hd as [->|<-]; [by left|right; exists c; split; [by left|done]].
  - intros c' [->|Hc']%elem_of_cons; [lia|auto].
Qed.

Section Values.
Variable unmarshal : list Z -> value.
Variable sprint : scalar -> string.

#[local] Notation decoded := (decoded unmarshal sprint).
#[local] Notation Diff := (Diff unmarshal sprint).
#[local] Notation plan := (plan unmarshal sprint).

(** A change of a plan: the values at some keys, blanked where they are secret. *)
Definition shown (b a : value) (c : DiffChange) : Prop :=
  exists ks, differs b a ks /\ c = finish_change (leaf_change (dotted "" ks) (setting ks b) (setting ks a)).

#[local] Instance by_path_trans : Transitive by_path.
Proof. intros x y z. unfold by_path. apply transitivity. Qed.
#[local] Instance by_path_total : Total by_path.
Proof. intros x y. apply (total String.le). Qed.

Lemma elem_of_Diff before after c :
  c ∈ (Diff before after).1.1 <-> shown (decoded before) (decoded after) c.
Proof.
  unfold ConfigCtl.Diff, shown. simpl. rewrite list_elem_of_fmap. setoid_rewrite merge_sort_Permutation.
  setoid_rewrite elem_of_diffValue. naive_solver.
Qed.

Lemma Diff_sorted before after : StronglySorted by_path (Diff before after).1.1.
Proof.
  unfold ConfigCtl.Diff. simpl. set (l := diffValue _ _ _). pose proof (StronglySorted_merge_sort by_path l) as Hs.
  induction Hs as [|c l' _ IH Hc]; simpl; constructor; [done|]. by apply Forall_map.
Qed.

Lemma shown_danger b a c : shown b a c -> dcDanger c ∈ dangers.
Proof. intros (ks & _ & ->). apply classify_known. Qed.

(** The danger of a difference: that of its worst change. *)
Lemma Diff_danger before after (l := (Diff before after).1.1) (d := (Diff before after).1.2) :
  (forall c, c ∈ l -> dangerRank (dcDanger c) <= dangerRank d) /\
  (d <> "normal"%string <-> exists c, c ∈ l /\ dcDanger c <> "normal"%string).
Proof.
  destruct (worst_spec l "normal") as (Hw & _ & Hl). split; [done|]. split.
  - intros Hd. destruct Hw as [Hw|(c & Hc & Hw)]; [by destruct Hd|]. exists c. split; [done|]. rewrite Hw. exact Hd.
  - intros (c & Hc & Hn) Hd. apply Hn, normal_rank; [eapply shown_danger, elem_of_Diff; exact Hc|].
    assert (dangerRank (dcDanger c) <= dangerRank d) as Hr by exact (Hl c Hc). by rewrite Hd in Hr.
Qed.

Lemma Diff_nil before after :
  (Diff before after).1.1 = [] <-> diffValue "" (decoded before) (decoded after) = [].
Proof.
  unfold ConfigCtl.Diff. simpl. split; [|by intros ->]. intros E%map_eq_nil.
  apply Permutation_nil. by rewrite <- E, merge_sort_Permutation.
Qed.

Lemma phrase_typed (x y : string) : x +:+ " " +:+ y <> ""%string.
Proof. by destruct x. Qed.

Lemma plan_base s raw action random t : pnBaseRevision (plan s raw action random t) = revision s.
Proof. unfold ConfigCtl.plan, Current. by destruct (Diff _ raw) as [[[|c l] d] r]. Qed.

(** What the plan says is what [Diff] finds between the current bytes and the new. *)
Lemma plan_diff s raw action random t (p := plan s raw action random t) :
  pnChanges p = (Diff (ConfigStore.raw s) raw).1.1 /\ pnDanger p = (Diff (ConfigStore.raw s) raw).1.2.
Proof.
  unfold p, ConfigCtl.plan, Current. unfold Diff at 1 3.
  destruct (map finish_change _) as [|c l] eqn:E; unfold Diff; rewrite E; done.
Qed.

(** C31: A plan is made against the active revision and lists, by path, exactly
    the settings in which the candidate differs from the active configuration,
    each with its two values, or blanked when the path of the change is that of a
    secret; none when no setting differs (a null is like a missing key).  (A
    section that is added or dropped as a whole is one change, and its values show
    what is below it: [section_removal_unguarded].)  Its danger is that of
    the worst change, and a phrase must be typed for it exactly when something
    changes and it is a rollback or some change is not normal, as every change
    of a secret is. *)
Theorem plan_spec s raw action random t (p := plan s raw action random t)
    (b := decoded (ConfigStore.raw s)) (a := decoded raw) :
  pnBaseRevision p = revision s /\
  StronglySorted by_path (pnChanges p) /\
  (forall c, c ∈ pnChanges p <-> shown b a c) /\
  (pnChanges p = [] <-> forall ks, equalValue (setting ks b) (setting ks a) = true \/
     is_map (setting ks b) && is_map (setting ks a) = true) /\
  (forall c, c ∈ pnChanges p -> dangerRank (dcDanger c) <= dangerRank (pnDanger p) /\
     (isSensitivePath (dcPath c) = true ->
        dcBefore c = VNil /\ dcAfter c = VNil /\ dcDanger c <> "normal"%string)) /\
  (ConfirmationRequired p = true <-> pnChanges p <> [] /\
     (action = "rollback"%string \/ exists c, c ∈ pnChanges p /\ dcDanger c <> "normal"%string)).
Proof.
  assert (pnBaseRevision p = revision s) as Hr by apply plan_base.
  destruct (plan_diff s raw action random t) as [Hc Hd]. fold p in Hc, Hd.
  destruct (Diff_danger (ConfigStore.raw s) raw) as [Hmax Hnormal].
  rewrite Hc in *. split_and!; [done|apply Diff_sorted|apply elem_of_Diff|by rewrite Diff_nil, diffValue_nil|..].
  - intros c Hin. rewrite Hd. split; [by apply Hmax|]. apply elem_of_Diff in Hin as (ks & _ & ->). simpl. intros Hs. rewrite Hs.
    split_and!; [done|done|]. rewrite !orb_true_r. by case_if.
  - unfold p, ConfigCtl.plan, Current, ConfirmationRequired. destruct (Diff (ConfigStore.raw s) raw) as [[l d] r].
    cbn [fst snd] in *. destruct l as [|c l]; [cbn; naive_solver|]. cbn [pnPhrase].
    assert (negb (d =? "normal")%string = true <-> exists c', c' ∈ c :: l /\ dcDanger c' <> "normal"%string) as Hne.
    { by rewrite negb_true_iff, String.eqb_neq. }
    rewrite <- Hne, negb_true_iff, String.eqb_neq. destruct (String.eqb_spec action "rollback") as [->|Ha].
    + rewrite orb_true_r. split; [auto|]. intros _. apply phrase_typed.
    + rewrite orb_false_r. destruct (negb (d =? "normal")%string).
      * split; [auto|]. intros _. apply phrase_typed.
      * split; [done|]. by intros [_ [?|?]].
Qed.

(** ** From a plan to the application *)

Section Workflow.
Context `{MetaCodec, Regexp, MapRange}.
Hypothesis codec_ok : forall m js, meta_marshal m = Some js -> meta_unmarshal js = Some m.
Variable load_bytes : list Z -> result load_error Config.

Lemma validateReason_ok reason required r :
  validateReason reason required = Ok r ->
  r = TrimSpace reason /\ len r <= 256 /\ Forall (fun c => 32 <= c /\ c <> 127) (runes r) /\
  (required = true -> r <> ""%string).
Proof.
  unfold validateReason. case_if; [done|]. case_if; [done|]. case_if; [done|]. intros [= <-]. split_and!; [done| | |].
  - by bprop.
  - apply Forall_existsb_false in Heqb1. eapply Forall_impl; [exact Heqb1|]. simpl. intros c Hc. bprop. lia.
  - intros -> E. by rewrite E in Heqb.
Qed.

(** What a successful application of [p], made at [s], has done at [s2]. *)
Record carried_out (p : Plan) (s : Store) (d : disk) (new : list Z) (reason actor action : string) (target : Z)
    (s2 : Store) (d2 : disk) (a : ApplyResult) (s3 : Store) (d3 : disk) : Prop := {
  co_same : s2 = s /\ file d2 = Some (ConfigStore.raw s);
  co_new : file d3 = Some new /\ ConfigStore.raw s3 = new /\ revision s3 = revision s + 1;
  co_meta : exists t, arMeta a = MkMeta (revision s + 1) (revision s) (if (action =? "")%string then "apply" else action)
    actor (TrimSpace reason) target (Z.of_nat (length (pnChanges p))) (pnDanger p) true t;
  co_recorded : recorded (arMeta a) new d3;
  co_reason : pnDanger p <> "normal"%string \/ action = "rollback"%string -> TrimSpace reason <> ""%string;
  co_kept : forall meta data, 0 < rmRevision meta <= revision s -> recorded meta data d2 -> recorded meta data d3;
}.

Lemma planned_carried_out works clk s d raw plan_action random t s2 n new reason actor action target w a s3 w3
    (p := plan s raw plan_action random t) :
  holds s d -> applies s d s2 (on_disk w) n -> revision s + Z.of_nat n + 1 < two64 ->
  apply works clk new p reason actor action target s2 w = ((Ok a, s3), w3) ->
  carried_out p s d new reason actor action target s2 (on_disk w) a s3 (on_disk w3).
Proof.
  intros Hh Hs Hlt. pose proof (ho_range _ _ Hh) as Hr.
  destruct (applies_keeps codec_ok _ _ _ _ _ Hs Hh ltac:(lia)) as (Hh2 & Hle & _).
  unfold apply. destruct (validateReason reason _) as [r|e] eqn:Ev; [|done].
  apply validateReason_ok in Ev as (-> & _ & _ & Hne). unfold mbind, IO_bind.
  set (req := MkApply _ _ _ _ _ _ _ _ _).
  pose proof (wp_Apply works clk codec_ok req s2 w Hh2 ltac:(lia)) as Hp. unfold wp in Hp.
  destruct (Apply works clk req s2 w) as [[[a'|e] s'] w'] eqn:Ea; [|done]. intros [= -> -> ->].
  destruct Hp as [[(_ & _ & Hn) (Hraw & Hfile & _) [Hf Hexp] (Hrec & _) [tm Hm] _ Ho] _].
  assert (s2 = s) as ->.
  { eapply (applies_unchanged codec_ok); [exact Hs|done|lia|]. unfold req in Hexp. simpl in Hexp.
    assert (pnBaseRevision p = revision s) as Hb by apply plan_base. rewrite Hb in Hexp. lia. }
  split; [done|done| |exact Hrec| |].
  - exists tm. rewrite Hm, Hn. done.
  - intros Hx. apply Hne. destruct Hx as [Hx| ->]; [|by rewrite orb_true_r].
    by rewrite (proj2 (String.eqb_neq _ _) Hx).
  - intros meta data Hrg Hm'. eapply (recorded_fits (revision s + 1)); unfold rev_range; [lia|lia|lia| |exact Hm'].
    by rewrite <- Hn.
Qed.

(** C11: When a candidate is applied with the plan that was made of it and that
    succeeds, it was for what was planned: no other application came in between,
    the file still had the bytes the plan was made against, and it and the store
    now have the candidate, on record as the next revision with the danger, the
    number of changes and the trimmed reason, which a plan that is not normal must
    have; and that danger and number are those of the differences between what
    the file had and what it has now. *)
Theorem planned_application works clk s d raw plan_action random t s2 n reason actor action target w a s3 w3
    (p := plan s raw plan_action random t) :
  holds s d -> applies s d s2 (on_disk w) n -> revision s + Z.of_nat n + 1 < two64 ->
  apply works clk raw p reason actor action target s2 w = ((Ok a, s3), w3) ->
  carried_out p s d raw reason actor action target s2 (on_disk w) a s3 (on_disk w3) /\
  exists old new, file (on_disk w) = Some old /\ file (on_disk w3) = Some new /\
    rmChanged (arMeta a) = Z.of_nat (length (Diff old new).1.1) /\ rmDanger (arMeta a) = (Diff old new).1.2.
Proof.
  intros Hh Hs Hlt Ha.
  pose proof (planned_carried_out works clk s d raw plan_action random t s2 n raw reason actor action target w a s3 w3
    Hh Hs Hlt Ha) as Hc. split; [done|]. destruct (plan_diff s raw plan_action random t) as [Hn Hd].
  exists (ConfigStore.raw s), raw. destruct (co_meta _ _ _ _ _ _ _ _ _ _ _ _ _ Hc) as [tm ->]. cbn [rmChanged rmDanger].
  split_and!; [apply (co_same _ _ _ _ _ _ _ _ _ _ _ _ _ Hc)|apply (co_new _ _ _ _ _ _ _ _ _ _ _ _ _ Hc)|by rewrite Hn|exact Hd].
Qed.

(** C30: Rolling back restores: when a revision on record still validates, the
    plan to roll back carries exactly its bytes, and an application that
    succeeds with it makes them the active configuration, under a new number and
    with a reason, naming the revision; every earlier revision stays on
    record.  One that no longer validates cannot be planned. *)
Theorem rollback_restores works clk s d meta data random t w0 s2 n reason actor w a s3 w3 :
  holds s d -> 0 < rmRevision meta <= revision s -> recorded meta data d -> on_disk w0 = d ->
  let planned := (PlanRollback unmarshal sprint load_bytes (fun _ => true) (rmRevision meta) random t s w0).1 in
  match ValidateYAML load_bytes data with
  | Ok [] => exists p, planned = Ok (p, MkRevision meta data) /\ pnBaseRevision p = revision s /\
      (applies s d s2 (on_disk w) n -> revision s + Z.of_nat n + 1 < two64 ->
       apply works clk data p reason actor "rollback" (rmRevision meta) s2 w = ((Ok a, s3), w3) ->
       carried_out p s d data reason actor "rollback" (rmRevision meta) s2 (on_disk w) a s3 (on_disk w3) /\
       TrimSpace reason <> ""%string /\ recorded meta data (on_disk w3))
  | _ => planned = Err (NoLongerValidates (rmRevision meta))
  end.
Proof.
  intros Hh Hr Hrec Hw planned.
  assert (planned = match ValidateYAML load_bytes data with
                    | Ok [] => Ok (plan s data "rollback" random t, MkRevision meta data)
                    | _ => Err (NoLongerValidates (rmRevision meta))
                    end) as ->.
  { unfold planned, PlanRollback, mbind, IO_bind.
    pose proof (wp_HistoryGet (fun _ => true) (fun _ => eq_refl) meta data s w0 (ho_managed _ _ Hh) ltac:(lia)
      ltac:(by rewrite Hw)) as Hg. unfold wp in Hg.
    destruct (HistoryGet (fun _ => true) (rmRevision meta) s w0) as [r w1]. simpl in Hg. subst r. cbn [rvRaw].
    by destruct (ValidateYAML load_bytes data) as [[|]|]. }
  destruct (ValidateYAML load_bytes data) as [[|]|]; [|done|done].
  eexists. split; [done|]. split; [apply plan_base|]. intros Hs Hlt Ha.
  pose proof (planned_carried_out works clk s d data "rollback" random t s2 n data reason actor "rollback" _ w a s3 w3
    Hh Hs Hlt Ha) as Hc. split; [done|]. split; [apply (co_reason _ _ _ _ _ _ _ _ _ _ _ _ _ Hc); by right|].
  apply (co_kept _ _ _ _ _ _ _ _ _ _ _ _ _ Hc); [done|].
  destruct (applies_keeps codec_ok _ _ _ _ _ Hs Hh ltac:(lia)) as (_ & _ & Hkeep). by apply Hkeep.
Qed.

End Workflow.

End Values.
End Theory.

(** ** One edit and one roll back *)

Module CtlSample.
Import StoreSample.
#[local] Existing Instances ascii_unicode literal_regexp key_order codec.

(** The value of each file, as decoded; the active file is ["a"]. *)
Definition str (s : string) : value := VScalar (SString s).
Definition site (salt : string) : value :=
  VMap [("pow", VMap [("enabled", VScalar (SBool true)); ("public_salt", str salt)]); ("server", VMap [("listen", str ":80")])].
Definition unmarshal (raw : list Z) : value :=
  if bool_decide (raw = text "a") then site "s3cret"
  else if bool_decide (raw = text "b") then site "other"
  else VMap [("server", VMap [("listen", str ":80")])].
Definition sprint (_ : scalar) : string := "".
Definition load_bytes (_ : list Z) : result load_error Config := Ok LoadSample.raw_config.

Notation scalar := SecretSample.scalar.
Notation mapping := SecretSample.mapping.
Notation document := SecretSample.document.
Notation same_text := SecretSample.same_text.
Notation base_doc := SecretSample.base_doc.

Definition planned (raw : string) : Plan := plan unmarshal sprint store1 (text raw) "apply" (Some [1; 255]) 0.

(** A new salt, and a listen address that is not there any more. *)
Example changes :
  planned "b" = MkPlan 1 [MkChange "pow.public_salt" "changed" VNil VNil true "dangerous" true] "dangerous" "APPLY 1f" /\
  map dcPath (diffValue "" (site "x") (VMap [("pow", VMap [("enabled", VScalar (SInt 1))])])) =
    ["pow.enabled"; "pow.public_salt"; "server"]%string.
Proof. split; vm_compute; reflexivity. Qed.

Definition reason : string := " new salt ".

Lemma planned_application_witness :
  exists a s' w', apply (fun _ => true) clk (text "b") (planned "b") reason "root" "apply" 0 store1 w1 = ((Ok a, s'), w') /\
    carried_out (planned "b") store1 (on_disk w1) (text "b") reason "root" "apply" 0 store1 (on_disk w1) a s' (on_disk w') /\
    exists old new, file (on_disk w1) = Some old /\ file (on_disk w') = Some new /\
      rmChanged (arMeta a) = Z.of_nat (length (Diff unmarshal sprint old new).1.1) /\
      rmDanger (arMeta a) = (Diff unmarshal sprint old new).1.2.
Proof.
  destruct store1_opened as (_ & _ & Hh & _).
  assert (is_ok (apply (fun _ => true) clk (text "b") (planned "b") reason "root" "apply" 0 store1 w1).1.1 = true)
    as Hok by (vm_compute; reflexivity).
  destruct (apply (fun _ => true) clk (text "b") (planned "b") reason "root" "apply" 0 store1 w1)
    as [[[a|e] s'] w'] eqn:E; [|discriminate].
  exists a, s', w'. split; [reflexivity|].
  apply (planned_application unmarshal sprint codec_ok (fun _ => true) clk store1 (on_disk w1) (text "b") "apply"
    (Some [1; 255]) 0 store1 0 reason "root" "apply" 0 w1 a s' w' Hh); [apply as_nil| |exact E].
  vm_compute. reflexivity.
Defined.

(** Two applications later, back to revision 1. *)
Definition rollback_plan : Plan :=
  match (PlanRollback unmarshal sprint load_bytes (fun _ => true) 1 (Some [1; 255]) 0 after.1 after.2).1 with
  | Ok (p, _) => p
  | Err _ => MkPlan 0 [] "" ""
  end.

Lemma rollback_restores_witness :
  exists a s' w' meta,
    apply (fun _ => true) clk (text "a") rollback_plan reason "root" "rollback" 1 after.1 after.2 = ((Ok a, s'), w') /\
    carried_out rollback_plan after.1 (on_disk after.2) (text "a") reason "root" "rollback" 1 after.1 (on_disk after.2)
      a s' (on_disk w') /\ rmRevision meta = 1 /\ recorded meta (text "a") (on_disk w').
Proof.
  destruct store1_opened as (_ & Hraw & Hh & _). destruct (ho_recorded _ _ Hh) as (meta & Hm & Hrec). rewrite Hraw in Hrec.
  assert (revision store1 = 1 /\ revision after.1 = 3) as [Hr1 Hr3] by (vm_compute; auto).
  destruct (applies_keeps codec_ok _ _ _ _ _ after_applies Hh) as (Hh3 & _ & Hkeep); [vm_compute; reflexivity|].
  specialize (Hkeep meta (text "a") ltac:(lia) Hrec).
  assert (is_ok (apply (fun _ => true) clk (text "a") rollback_plan reason "root" "rollback" 1 after.1 after.2).1.1 = true)
    as Hok by (vm_compute; reflexivity).
  destruct (apply (fun _ => true) clk (text "a") rollback_plan reason "root" "rollback" 1 after.1 after.2)
    as [[[a|e] s'] w'] eqn:E; [|discriminate].
  pose proof (rollback_restores unmarshal sprint codec_ok load_bytes (fun _ => true) clk after.1 (on_disk after.2)
    meta (text "a") (Some [1; 255]) 0 after.2 after.1 0 reason "root" after.2 a s' w' Hh3 ltac:(lia) Hkeep eq_refl) as Hroll.
  assert (ValidateYAML load_bytes (text "a") = Ok []) as Hv by (vm_compute; reflexivity).
  rewrite Hv, Hm, Hr1 in Hroll. destruct Hroll as (p & Hp & _ & Hroll).
  assert (p = rollback_plan) as -> by (unfold rollback_plan; by rewrite Hp).
  destruct (Hroll (as_nil _ _)) as (Hc & _ & Hrec'); [by rewrite Hr3|exact E|].
  exists a, s', w', meta. split; [reflexivity|]. split; [exact Hc|]. split; [congruence|exact Hrec'].
Defined.

(** A section that is dropped as a whole passes every guard: the secrets
    below it may be removed without a placeholder, although removing one of them
    alone is refused; the change is a normal one that needs no confirmation,
    although switching the proof of work off alone is critical; and the plan,
    which is printed, shows the secret. *)
Theorem section_removal_unguarded :
  let server := (scalar "server", mapping [(scalar "listen", scalar ":80")]) in
  let pow_only := mapping [(scalar "enabled", scalar "true")] in
  let merge cand := mergeSecretNode same_text (S (depth base_doc)) "" (document (mapping cand)) base_doc in
  merge [(scalar "pow", pow_only); server] = Some (Err (Removed "pow.public_salt")) /\
  merge [server] = Some (Ok (document (mapping [server]))) /\
  (classifyChange "pow.enabled" (VScalar (SBool true)) VNil).1 = "critical"%string /\
  planned "c" = MkPlan 1
    [MkChange "pow" "removed" (VMap [("enabled", VScalar (SBool true)); ("public_salt", str "s3cret")]) VNil false
       "normal" true] "normal" "" /\
  ConfirmationRequired (planned "c") = false.
Proof. split_and!; vm_compute; reflexivity. Qed.

End CtlSample.
