(* ===== verification/Pending.v ===== *)
(** * The pending limiter ([internal/risk/pending.go])

    Per address, how many protected requests are in progress, and a timed block
    once the limit overflows.  The slot [Enter] hands out is a handle whose
    release runs once. *)

From S2P Require Import Prelude GoStrings GoTime Netip.

Definition CanonicalIP (ip : string) : option string :=
  let ip := TrimSpace ip in
  if (ip =? "")%string || Contains ip "/" then None
  else match ParseAddr ip with
       | None => None
       | Some a => Some (addr_string (Unmap a))
       end.

Record pendingEntry := MkEntry { pending : Z; autoBlockedUntil : Z }.
Definition zero_entry : pendingEntry := MkEntry 0 zero_time.

(** The fields that change; [autoBlocks] counts the calls of [onAutoBlock]. *)
Record IPPendingBlocker := MkBlocker {
  entries : option (gmap string pendingEntry);
  closed : bool;
  lastSweep : Z;
  autoBlocks : Z;
}.

(** The settings. *)
Record limits := MkLimits { maxPerIP : Z; blockTTL : Z }.

Definition NewIPPendingBlocker (max ttl : Z) : limits * IPPendingBlocker :=
  (MkLimits (if max <? 1 then 1 else max) (if ttl <=? 0 then hour else ttl),
   MkBlocker (Some ∅) false zero_time 0).

Definition pendingSweepInterval : Z := 30 * second.

Definition blockedAt (now : Z) (e : pendingEntry) : bool := now <? autoBlockedUntil e.

Definition expireEntryLocked (now : Z) (e : pendingEntry) : pendingEntry :=
  if negb (is_zero_time (autoBlockedUntil e)) && negb (now <? autoBlockedUntil e)
  then MkEntry (pending e) zero_time else e.

(** What a sweep keeps of one entry. *)
Definition sweep_entry (now : Z) (e : pendingEntry) : option pendingEntry :=
  let e := expireEntryLocked now e in
  if (pending e =? 0) && negb (blockedAt now e) then None else Some e.

Definition sweepLocked (now : Z) (m : gmap string pendingEntry) (last : Z)
  : gmap string pendingEntry * Z :=
  if negb (is_zero_time last) && (time_sub now last <? pendingSweepInterval) then (m, last)
  else (omap (sweep_entry now) m, now).

(** The release closure: the address of its slot, and whether it ran. *)
Record handle := MkHandle { slot : option string; released : bool }.
Definition noop : handle := MkHandle None true.

(** [Enter] at the clock reading [now]: the handle, whether the request is
    blocked, the new state. *)
Definition Enter (l : limits) (now : Z) (ip : string) (b : IPPendingBlocker)
  : handle * bool * IPPendingBlocker :=
  match CanonicalIP ip with
  | None => (noop, false, b)
  | Some canonical =>
      match closed b, entries b with
      | true, _ | _, None => (noop, true, b)
      | false, Some m =>
          let '(m, last) := sweepLocked now m (lastSweep b) in
          let entry := expireEntryLocked now (default zero_entry (m !! canonical)) in
          if blockedAt now entry then
            (noop, true, MkBlocker (Some (<[canonical := entry]> m)) false last (autoBlocks b))
          else if maxPerIP l <=? pending entry then
            let entry := MkEntry (pending entry) (now + blockTTL l) in
            (noop, true, MkBlocker (Some (<[canonical := entry]> m)) false last (autoBlocks b + 1))
          else
            let entry := MkEntry (pending entry + 1) (autoBlockedUntil entry) in
            (MkHandle (Some canonical) false, false,
             MkBlocker (Some (<[canonical := entry]> m)) false last (autoBlocks b))
      end
  end.

Definition release (now : Z) (ip : string) (b : IPPendingBlocker) : IPPendingBlocker :=
  match closed b, entries b with
  | true, _ | _, None => b
  | false, Some m =>
      match m !! ip with
      | None => b
      | Some entry =>
          let entry := MkEntry (if 0 <? pending entry then pending entry - 1 else pending entry)
                         (autoBlockedUntil entry) in
          let entry := expireEntryLocked now entry in
          if (pending entry =? 0) && negb (blockedAt now entry)
          then MkBlocker (Some (delete ip m)) false (lastSweep b) (autoBlocks b)
          else MkBlocker (Some (<[ip := entry]> m)) false (lastSweep b) (autoBlocks b)
      end
  end.

(** The closure: [once.Do] of the release. *)
Definition call_release (now : Z) (h : handle) (b : IPPendingBlocker) : handle * IPPendingBlocker :=
  match slot h with
  | None => (h, b)
  | Some ip => if released h then (h, b) else (MkHandle (slot h) true, release now ip b)
  end.

Definition Close (b : IPPendingBlocker) : IPPendingBlocker :=
  if closed b then b else MkBlocker None true (lastSweep b) (autoBlocks b).

(** ** Steps of the service

    Requests enter and release their handles, in any order and any number of
    times; time only moves forward. *)

Section Steps.
Variable l : limits.

Record world := MkWorld { blocker : IPPendingBlocker; handles : list handle; now : Z }.

Inductive step : world -> world -> Prop :=
  | st_enter b hs t t' ip h blocked b' :
      t <= t' -> Enter l t' ip b = (h, blocked, b') ->
      step (MkWorld b hs t) (MkWorld b' (h :: hs) t')
  | st_release b hs1 h hs2 t t' h' b' :
      t <= t' -> call_release t' h b = (h', b') ->
      step (MkWorld b (hs1 ++ h :: hs2) t) (MkWorld b' (hs1 ++ h' :: hs2) t')
  | st_close b hs t t' : t <= t' -> step (MkWorld b hs t) (MkWorld (Close b) hs t').

(** The slots an address holds: handles given out and not yet released. *)
Definition holds (ip : string) (h : handle) : bool :=
  bool_decide (slot h = Some ip) && negb (released h).
Fixpoint held (ip : string) (hs : list handle) : Z :=
  match hs with [] => 0 | h :: hs => (if holds ip h then 1 else 0) + held ip hs end.

Definition pending_of (ip : string) (m : gmap string pendingEntry) : Z :=
  pending (default zero_entry (m !! ip)).

(** While open, each entry counts the slots its address holds, within the
    limit. *)
Record inv (w : world) : Prop := {
  inv_open : closed (blocker w) = false <-> is_Some (entries (blocker w));
  inv_count : forall m ip, entries (blocker w) = Some m -> pending_of ip m = held ip (handles w);
  inv_max : forall m ip, entries (blocker w) = Some m -> pending_of ip m <= maxPerIP l;
  inv_handles : Forall (fun h => slot h = None -> released h = true) (handles w);
}.

Lemma held_nonneg ip hs : 0 <= held ip hs.
Proof. induction hs as [|h hs IH]; simpl; [lia|]. destruct (holds ip h); lia. Qed.

Lemma held_app ip a b : held ip (a ++ b) = held ip a + held ip b.
Proof. induction a as [|h a IH]; simpl; [done|]. rewrite IH. lia. Qed.

Lemma expire_pending t e : pending (expireEntryLocked t e) = pending e.
Proof. unfold expireEntryLocked. by case_if. Qed.

Lemma sweep_pending t m last m' last' ip :
  sweepLocked t m last = (m', last') -> pending_of ip m' = pending_of ip m.
Proof.
  unfold sweepLocked, pending_of. case_if; intros [= <- <-]; [done|].
  rewrite lookup_omap. destruct (m !! ip) as [e|]; simpl; [|done]. unfold sweep_entry.
  rewrite expire_pending. destruct (Z.eqb_spec (pending e) 0) as [E|]; simpl.
  - destruct (blockedAt _ _); simpl; [by rewrite expire_pending|done].
  - by rewrite expire_pending.
Qed.

Lemma pending_insert ip e m ip' :
  pending_of ip' (<[ip := e]> m) = if bool_decide (ip = ip') then pending e else pending_of ip' m.
Proof.
  unfold pending_of. case_bool_decide as E; [subst; by rewrite lookup_insert_eq|].
  by rewrite lookup_insert_ne.
Qed.

Lemma pending_delete ip m ip' :
  pending_of ip' (delete ip m) = if bool_decide (ip = ip') then 0 else pending_of ip' m.
Proof.
  unfold pending_of. case_bool_decide as E; [subst; by rewrite lookup_delete_eq|].
  by rewrite lookup_delete_ne.
Qed.

Lemma holds_noop ip : holds ip noop = false.
Proof. unfold holds, noop. cbn [slot released negb]. apply andb_false_r. Qed.

Lemma holds_new ip ip' : holds ip' (MkHandle (Some ip) false) = bool_decide (ip = ip').
Proof.
  unfold holds. cbn [slot released negb]. rewrite andb_true_r. apply bool_decide_ext. split; congruence.
Qed.

Lemma handles_mid hs1 h hs2 h' :
  Forall (fun h => slot h = None -> released h = true) (hs1 ++ h :: hs2) ->
  (slot h' = None -> released h' = true) ->
  Forall (fun h => slot h = None -> released h = true) (hs1 ++ h' :: hs2).
Proof.
  intros Hf Hh. apply Forall_app in Hf as [Ha Hb]. apply Forall_cons in Hb as [_ Hb].
  apply Forall_app. split; [done|]. by constructor.
Qed.

Lemma inv_closed w : inv w -> closed (blocker w) = true -> entries (blocker w) = None.
Proof.
  intros Hi Hc. destruct (entries (blocker w)) eqn:E; [|done].
  assert (closed (blocker w) = false) by (apply (inv_open _ Hi); eauto). congruence.
Qed.

Lemma inv_entries w : inv w -> entries (blocker w) = None -> closed (blocker w) = true.
Proof.
  intros Hi He. destruct (closed (blocker w)) eqn:E; [done|].
  apply (inv_open _ Hi) in E as [m Hm]. congruence.
Qed.

Lemma Enter_inv b hs t t' ip h blocked b' :
  1 <= maxPerIP l -> inv (MkWorld b hs t) -> Enter l t' ip b = (h, blocked, b') ->
  inv (MkWorld b' (h :: hs) t').
Proof.
  intros Hmax Hi He. unfold Enter in He.
  assert (Hnoop : forall m last ab, entries b' = m -> b' = MkBlocker m (closed b) last ab ->
    (closed b = false <-> is_Some m) ->
    (forall m' ip, m = Some m' -> pending_of ip m' = held ip hs) -> h = noop ->
    inv (MkWorld b' (h :: hs) t')).
  { intros m last ab Hm -> Ho Hc ->. constructor; cbn [blocker handles entries closed held]; [done| | |].
    - intros m' i Hm'. rewrite holds_noop, (Hc m') by done. lia.
    - intros m' i Hm'. rewrite (Hc m') by done. destruct (entries b) as [m0|] eqn:Eb.
      + rewrite <- (inv_count _ Hi m0) by done. by apply (inv_max _ Hi).
      + pose proof (inv_entries _ Hi Eb) as Hcl. cbn [blocker] in Hcl.
        exfalso. assert (closed b = false) by (apply Ho; eauto). congruence.
    - constructor; [done|apply Hi]. }
  destruct (CanonicalIP ip) as [c|].
  2:{ injection He as <- <- <-. eapply (Hnoop _ (lastSweep b) (autoBlocks b)); [done|by destruct b|apply Hi| |done].
      intros m' i. apply (inv_count _ Hi). }
  destruct (closed b) eqn:Ec.
  { pose proof (inv_closed _ Hi Ec) as En. cbn [blocker] in En.
    injection He as <- <- <-. apply (Hnoop None (lastSweep b) (autoBlocks b)); [done| | |done|done].
    - destruct b; simpl in *; congruence.
    - split; [done|intros [? ?]; done]. }
  destruct (entries b) as [m|] eqn:Em.
  2:{ pose proof (inv_entries _ Hi Em) as Hx. cbn [blocker] in Hx. congruence. }
  destruct (sweepLocked t' m (lastSweep b)) as [m1 last] eqn:Esw.
  assert (Hc1 : forall i, pending_of i m1 = held i hs).
  { intros i. rewrite (sweep_pending _ _ _ _ _ _ Esw). by apply (inv_count _ Hi). }
  assert (Hm1 : forall i, pending_of i m1 <= maxPerIP l).
  { intros i. rewrite (sweep_pending _ _ _ _ _ _ Esw). by apply (inv_max _ Hi). }
  set (e := expireEntryLocked t' (default zero_entry (m1 !! c))) in He.
  assert (Hpe : pending e = held c hs) by (unfold e; rewrite expire_pending; apply Hc1).
  assert (Hset : forall e' last ab, pending e' = pending e ->
    b' = MkBlocker (Some (<[c := e']> m1)) false last ab -> h = noop ->
    inv (MkWorld b' (h :: hs) t')).
  { intros e' last' ab He' -> ->. eapply (Hnoop _ last' ab); [done|by rewrite ?Ec|split; eauto| |done].
    intros m' i [= <-]. rewrite pending_insert. case_bool_decide; [subst; congruence|apply Hc1]. }
  destruct (blockedAt t' e).
  { injection He as <- <- <-. by eapply Hset. }
  destruct (Z.leb_spec (maxPerIP l) (pending e)).
  { injection He as <- <- <-. by eapply (Hset (MkEntry (pending e) (t' + blockTTL l))). }
  injection He as <- <- <-. constructor; cbn [blocker handles entries closed held].
  - split; eauto.
  - intros m' i [= <-]. rewrite pending_insert, holds_new. simpl.
    case_bool_decide; [subst; lia|rewrite Hc1; lia].
  - intros m' i [= <-]. rewrite pending_insert. simpl. case_bool_decide; [lia|apply Hm1].
  - constructor; [done|apply Hi].
Qed.

Lemma release_inv b hs1 h hs2 t t' h' b' :
  inv (MkWorld b (hs1 ++ h :: hs2) t) -> call_release t' h b = (h', b') ->
  inv (MkWorld b' (hs1 ++ h' :: hs2) t').
Proof.
  intros Hi Hc. unfold call_release in Hc.
  destruct (slot h) as [ip|] eqn:Es.
  2:{ injection Hc as <- <-. constructor; apply Hi. }
  destruct (released h) eqn:Er.
  { injection Hc as <- <-. constructor; apply Hi. }
  injection Hc as <- <-.
  assert (Hheld : forall i, held i (hs1 ++ h :: hs2) =
            held i (hs1 ++ MkHandle (Some ip) true :: hs2) + if bool_decide (ip = i) then 1 else 0).
  { intros i. rewrite !held_app. simpl. unfold holds. rewrite Es, Er. simpl. rewrite andb_true_r, andb_false_r.
    rewrite (bool_decide_ext (Some ip = Some i) (ip = i)) by (split; congruence).
    destruct (bool_decide (ip = i)); lia. }
  assert (Hh : Forall (fun h => slot h = None -> released h = true) (hs1 ++ MkHandle (Some ip) true :: hs2)).
  { eapply handles_mid; [apply Hi|done]. }
  unfold release. destruct (closed b) eqn:Ec.
  { pose proof (inv_closed _ Hi Ec) as En. cbn [blocker] in En.
    constructor; simpl; [rewrite Ec, En; split; [done|intros [? ?]; done]|rewrite En; done..|done]. }
  destruct (entries b) as [m|] eqn:Em.
  2:{ pose proof (inv_entries _ Hi Em) as Hx. cbn [blocker] in Hx. congruence. }
  pose proof (inv_count _ Hi m) as Hcnt. simpl in Hcnt.
  assert (Hp : pending_of ip m = held ip (hs1 ++ MkHandle (Some ip) true :: hs2) + 1).
  { rewrite Hcnt, Hheld, bool_decide_eq_true_2 by done. lia. }
  pose proof (held_nonneg ip (hs1 ++ MkHandle (Some ip) true :: hs2)) as Hnn.
  destruct (m !! ip) as [e|] eqn:Ee.
  2:{ exfalso. unfold pending_of in Hp. rewrite Ee in Hp. simpl in Hp. lia. }
  assert (Hpe : pending_of ip m = pending e) by (unfold pending_of; by rewrite Ee).
  destruct (Z.ltb_spec 0 (pending e)); [|lia].
  set (e' := expireEntryLocked t' (MkEntry (pending e - 1) (autoBlockedUntil e))).
  assert (He' : pending e' = pending e - 1) by (unfold e'; by rewrite expire_pending).
  assert (Hm : forall m', (forall i, pending_of i m' = if bool_decide (ip = i) then pending e - 1 else pending_of i m) ->
    forall last ab, inv (MkWorld (MkBlocker (Some m') false last ab) (hs1 ++ MkHandle (Some ip) true :: hs2) t')).
  { intros m' Hm' last ab. constructor; simpl; [split; eauto| | |done].
    - intros m2 i [= <-]. rewrite Hm'. specialize (Hheld i). pose proof (Hcnt i Em).
      case_bool_decide; subst; lia.
    - intros m2 i [= <-]. rewrite Hm'. pose proof (inv_max _ Hi m i Em). simpl in *.
      case_bool_decide; subst; lia. }
  destruct (Z.eqb_spec (pending e') 0) as [E0|]; simpl; [destruct (negb (blockedAt t' e')); simpl|].
  - apply Hm. intros i. rewrite pending_delete. case_bool_decide; [lia|done].
  - apply Hm. intros i. rewrite pending_insert. case_bool_decide; [lia|done].
  - apply Hm. intros i. rewrite pending_insert. case_bool_decide; [lia|done].
Qed.

Lemma step_inv w w' : 1 <= maxPerIP l -> inv w -> step w w' -> inv w'.
Proof.
  intros Hmax Hi Hs. destruct Hs as [b hs t t' ip h blocked b' _ He|b hs1 h hs2 t t' h' b' _ Hr|b hs t t' _].
  - by eapply Enter_inv.
  - by eapply release_inv.
  - unfold Close. destruct (closed b) eqn:Ec; [constructor; apply Hi|].
    constructor; simpl; [split; [done|intros [? ?]; done]|done..|apply Hi].
Qed.

Lemma reachable_inv w0 w :
  1 <= maxPerIP l -> blocker w0 = MkBlocker (Some ∅) false zero_time 0 -> handles w0 = [] ->
  rtc step w0 w -> inv w.
Proof.
  intros Hmax Hb Hh Hr. assert (inv w0) as H0.
  { destruct w0 as [b hs t]; simpl in *; subst. constructor; simpl.
    - split; eauto.
    - intros m ip [= <-]. unfold pending_of. by rewrite lookup_empty.
    - intros m ip [= <-]. unfold pending_of. rewrite lookup_empty. simpl. lia.
    - constructor. }
  clear Hb Hh. induction Hr as [|x y z Hxy _ IH]; [done|]. apply IH. by eapply step_inv.
Qed.

(** C25: the pending limit holds: in every state the limiter can reach, by any
    interleaving of entries and releases (repeated ones, and a close, included),
    no address holds more slots than the limit, and while the limiter is open
    its count for each address is the number of slots that address holds. *)
Theorem pending_limit w0 w :
  1 <= maxPerIP l -> blocker w0 = MkBlocker (Some ∅) false zero_time 0 -> handles w0 = [] ->
  rtc step w0 w ->
  forall m ip, entries (blocker w) = Some m ->
    pending_of ip m = held ip (handles w) /\ held ip (handles w) <= maxPerIP l.
Proof.
  intros Hmax Hb Hh Hr.
  pose proof (reachable_inv _ _ Hmax Hb Hh Hr) as Hi.
  intros m ip Hm. pose proof (inv_count _ Hi m ip Hm). pose proof (inv_max _ Hi m ip Hm). lia.
Qed.

(** ** Blocks *)

(** The address is blocked until [u] (a time after the year 1). *)
Definition blocked_until (ip : string) (u : Z) (b : IPPendingBlocker) : Prop :=
  exists m e, entries b = Some m /\ closed b = false /\ m !! ip = Some e /\
    autoBlockedUntil e = u.

Lemma expire_blocked t e : t < autoBlockedUntil e -> expireEntryLocked t e = e.
Proof.
  intros Ht. unfold expireEntryLocked. destruct (Z.ltb_spec t (autoBlockedUntil e)); [|lia].
  by rewrite andb_false_r.
Qed.

Lemma sweep_blocked t m last m' last' ip e :
  sweepLocked t m last = (m', last') -> m !! ip = Some e -> t < autoBlockedUntil e -> m' !! ip = Some e.
Proof.
  unfold sweepLocked. intros Hs Hm Ht. case_if_in Hs; injection Hs as <- <-; [done|].
  rewrite lookup_omap, Hm. simpl. unfold sweep_entry. rewrite expire_blocked by done.
  unfold blockedAt. destruct (Z.ltb_spec t (autoBlockedUntil e)); [|lia]. by rewrite andb_false_r.
Qed.

Lemma Enter_blocked ip u b t ip' h blocked b' :
  blocked_until ip u b -> t < u -> Enter l t ip' b = (h, blocked, b') ->
  blocked_until ip u b' /\ (CanonicalIP ip' = Some ip -> blocked = true).
Proof.
  intros (m & e & Hm & Hc & He & Hu) Ht Hen. unfold Enter in Hen.
  destruct (CanonicalIP ip') as [c|]; [|injection Hen as <- <- <-; split; [by exists m, e|done]].
  rewrite Hc, Hm in Hen. destruct (sweepLocked t m (lastSweep b)) as [m1 last] eqn:Esw.
  pose proof (sweep_blocked _ _ _ _ _ _ _ Esw He ltac:(lia)) as He1.
  destruct (decide (c = ip)) as [->|Hne].
  - rewrite He1 in Hen. simpl in Hen. rewrite expire_blocked in Hen by lia.
    unfold blockedAt in Hen. destruct (Z.ltb_spec t (autoBlockedUntil e)); [|lia].
    injection Hen as <- <- <-. split; [|done]. eexists _, e. split_and!; [done..| |done].
    by rewrite lookup_insert_eq.
  - split; [|congruence].
    destruct (blockedAt _ _); [|destruct (_ <=? _)]; injection Hen as <- <- <-;
      (eexists _, e; split_and!; [done|done| |done]; by rewrite lookup_insert_ne).
Qed.

Lemma release_blocked ip u b t h h' b' :
  blocked_until ip u b -> t < u -> call_release t h b = (h', b') -> blocked_until ip u b'.
Proof.
  intros (m & e & Hm & Hc & He & Hu) Ht Hr. unfold call_release in Hr.
  destruct (slot h) as [c|]; [|injection Hr as <- <-; by exists m, e].
  destruct (released h); [injection Hr as <- <-; by exists m, e|]. injection Hr as <- <-.
  unfold release. rewrite Hc, Hm. destruct (decide (c = ip)) as [->|Hne].
  - rewrite He. set (e1 := MkEntry _ _). rewrite (expire_blocked t e1) by (simpl; lia).
    unfold blockedAt. destruct (Z.ltb_spec t (autoBlockedUntil e1)) as [_|Hx]; [|simpl in Hx; lia].
    rewrite andb_false_r. eexists _, e1. split_and!; [done|done|by rewrite lookup_insert_eq|done].
  - destruct (m !! c) as [e0|]; [|by exists m, e].
    destruct (_ && _); eexists _, e; (split_and!; [done|done| |done]);
      [by rewrite lookup_delete_ne|by rewrite lookup_insert_ne].
Qed.

(** Steps up to a time, without a close. *)
Inductive step_before (u : Z) : world -> world -> Prop :=
  | sb_step w w' : step w w' -> now w' < u -> closed (blocker w') = false -> step_before u w w'.

(** A block is fixed: once an address is blocked until [u], every request
    of it is refused before [u], under any spelling of the address, and nothing
    that happens before [u], refused requests included, moves the end. *)
Theorem block_is_fixed ip u w w' t ip' :
  blocked_until ip u (blocker w) -> rtc (step_before u) w w' -> t < u ->
  CanonicalIP ip' = Some ip ->
  blocked_until ip u (blocker w') /\ (Enter l t ip' (blocker w')).1.2 = true.
Proof.
  intros Hb Hr Ht Hc.
  assert (blocked_until ip u (blocker w')) as Hb'.
  { induction Hr as [|x y z [x' y' Hs Hn Hcl] _ IH]; [done|]. apply IH.
    destruct Hs as [b hs t0 t' i h bl b' _ He|b hs1 h hs2 t0 t' h' b' _ He|b hs t0 t' _]; simpl in *.
    - exact (proj1 (Enter_blocked _ _ _ _ _ _ _ _ Hb Hn He)).
    - exact (release_blocked _ _ _ _ _ _ _ Hb Hn He).
    - unfold Close in *. destruct (closed b) eqn:E; [done|]. simpl in Hcl. done. }
  split; [done|]. destruct (Enter l t ip' (blocker w')) as [[h bl] b'] eqn:E.
  destruct (Enter_blocked _ _ _ _ _ _ _ _ Hb' Ht E) as [_ Hx]. by apply Hx.
Qed.

(** ** Blocks end *)

(** The current blocks end within a [blockTTL]. *)
Definition ends_in_time (w : world) : Prop :=
  zero_time <= now w /\
  forall m ip e, entries (blocker w) = Some m -> m !! ip = Some e -> autoBlockedUntil e <= now w + blockTTL l.

Lemma expire_until t e u : zero_time <= u -> autoBlockedUntil e <= u -> autoBlockedUntil (expireEntryLocked t e) <= u.
Proof. intros Hz He. unfold expireEntryLocked. by case_if. Qed.

Lemma sweep_until t m last m' last' u :
  zero_time <= u -> sweepLocked t m last = (m', last') ->
  (forall ip e, m !! ip = Some e -> autoBlockedUntil e <= u) ->
  forall ip e, m' !! ip = Some e -> autoBlockedUntil e <= u.
Proof.
  intros Hz Hs Hm ip e. unfold sweepLocked in Hs. case_if_in Hs; injection Hs as <- <-; [apply Hm|].
  rewrite lookup_omap. destruct (m !! ip) as [e0|] eqn:E; simpl; [|done]. unfold sweep_entry.
  case_if; [done|]. intros [= <-]. apply expire_until; eauto.
Qed.

Lemma insert_until (m : gmap string pendingEntry) c e0 u :
  autoBlockedUntil e0 <= u -> (forall ip e, m !! ip = Some e -> autoBlockedUntil e <= u) ->
  forall ip e, <[c := e0]> m !! ip = Some e -> autoBlockedUntil e <= u.
Proof. intros H0 Hm ip e [[_ <-]|[_ Hi]]%lookup_insert_Some; eauto. Qed.

Lemma step_ends w w' : 0 <= blockTTL l -> ends_in_time w -> step w w' -> ends_in_time w'.
Proof.
  intros Hl [Hz He] Hs. assert (now w <= now w') as Ht by (by destruct Hs).
  split; [lia|]. assert (forall m ip e, entries (blocker w) = Some m -> m !! ip = Some e ->
    autoBlockedUntil e <= now w' + blockTTL l) as He' by (intros; etrans; [eauto|lia]). clear He.
  assert (zero_time <= now w' + blockTTL l) as Hz' by lia.
  destruct Hs as [b hs t t' ip h bl b' _ Hen|b hs1 h hs2 t t' h' b' _ Hr|b hs t t' _];
    cbn [blocker now] in *; intros m i e Hm Hi.
  - unfold Enter in Hen. destruct (CanonicalIP ip) as [c|]; [|injection Hen as <- <- <-; eauto].
    destruct (closed b); [injection Hen as <- <- <-; eauto|].
    destruct (entries b) as [m0|] eqn:Em; [|injection Hen as <- <- <-; congruence].
    destruct (sweepLocked t' m0 (lastSweep b)) as [m1 last] eqn:Esw.
    pose proof (sweep_until _ _ _ _ _ _ Hz' Esw (fun i e => He' m0 i e eq_refl)) as H1.
    assert (autoBlockedUntil (expireEntryLocked t' (default zero_entry (m1 !! c))) <= t' + blockTTL l) as H2.
    { apply expire_until; [done|]. destruct (m1 !! c) eqn:E1; [by eapply H1|done]. }
    (destruct (blockedAt _ _); [|destruct (_ <=? _)]); injection Hen as <- <- <-; injection Hm as <-;
      (eapply insert_until; [|exact H1|exact Hi]); [exact H2|simpl; lia|exact H2].
  - unfold call_release in Hr. destruct (slot h) as [c|]; [|injection Hr as <- <-; eauto].
    destruct (released h); injection Hr as <- <-; [eauto|]. unfold release in Hm.
    destruct (closed b); [eauto|]. destruct (entries b) as [m0|] eqn:Em; [|congruence].
    destruct (m0 !! c) as [e0|] eqn:Ec; [|rewrite Em in Hm; injection Hm as <-; eauto].
    destruct (_ && _); injection Hm as <-.
    + apply lookup_delete_Some in Hi as [_ Hi]. eauto.
    + eapply insert_until; [|intros ? ? H1; exact (He' m0 _ _ eq_refl H1)|exact Hi]. apply expire_until; [done|]. simpl. eauto.
  - unfold Close in Hm. destruct (closed b); [eauto|done].
Qed.

Lemma reachable_ends w0 w :
  0 <= blockTTL l -> blocker w0 = MkBlocker (Some ∅) false zero_time 0 -> zero_time <= now w0 ->
  rtc step w0 w -> ends_in_time w.
Proof.
  intros Hl Hb Hz Hr. assert (ends_in_time w0) as H0.
  { split; [done|]. rewrite Hb. by intros m ip e [= <-] ?%lookup_empty_Some. }
  clear Hb Hz. induction Hr as [|x y z Hxy _ IH]; [done|]. apply IH. by eapply step_ends.
Qed.

(** A [blockTTL] after its last step, the limiter decides by the slots held. *)
Lemma admits w t ip c :
  0 <= blockTTL l -> inv w -> ends_in_time w -> closed (blocker w) = false -> now w + blockTTL l <= t ->
  CanonicalIP ip = Some c ->
  ((Enter l t ip (blocker w)).1.2 = false <-> held c (handles w) < maxPerIP l) /\
  (held c (handles w) < maxPerIP l -> (Enter l t ip (blocker w)).1.1 = MkHandle (Some c) false).
Proof.
  intros Hl Hi [Hz He] Hc Ht Hip. pose proof Hc as (m & Hm)%(inv_open _ Hi). unfold Enter. rewrite Hip, Hc, Hm.
  destruct (sweepLocked t m (lastSweep (blocker w))) as [m1 last] eqn:Esw.
  assert (zero_time <= now w + blockTTL l) as Hz' by lia.
  pose proof (sweep_until _ _ _ _ _ _ Hz' Esw (fun i e => He m i e Hm)) as H1.
  assert (blockedAt t (expireEntryLocked t (default zero_entry (m1 !! c))) = false) as ->.
  { unfold blockedAt. apply Z.ltb_ge. trans (now w + blockTTL l); [|done]. apply expire_until; [done|].
    destruct (m1 !! c) eqn:E1; [by eapply H1|done]. }
  assert (pending (expireEntryLocked t (default zero_entry (m1 !! c))) = held c (handles w)) as ->.
  { rewrite expire_pending. change (pending_of c m1 = held c (handles w)).
    rewrite (sweep_pending _ _ _ _ _ _ Esw). by apply (inv_count _ Hi). }
  destruct (Z.leb_spec (maxPerIP l) (held c (handles w))); simpl; split; [split; [done|lia]|lia|done|done].
Qed.

(** Every holder can let go. *)
Lemma drain hs1 hs2 b t :
  closed b = false -> (forall ip, held ip hs1 = 0) ->
  exists b' hs', rtc step (MkWorld b (hs1 ++ hs2) t) (MkWorld b' hs' t) /\ closed b' = false /\
    forall ip, held ip hs' = 0.
Proof.
  revert hs1 b; induction hs2 as [|h hs2 IH]; intros hs1 b Hc Hh.
  - exists b, hs1. rewrite app_nil_r. split_and!; [apply rtc_refl|done..].
  - destruct (call_release t h b) as [h' b1] eqn:E.
    assert (closed b1 = false /\ forall ip, holds ip h' = false) as [Hc1 Hh1].
    { unfold call_release in E. destruct (slot h) as [c|] eqn:Es; [destruct (released h) eqn:Er|];
        injection E as <- <-; (split; [|intros ip; unfold holds; rewrite ?Es, ?Er; by rewrite ?andb_false_r]); [done| |done].
      unfold release. destruct (closed b) eqn:Hcb; [done|].
      destruct (entries b); [|done]. destruct (_ !! c); [|done]. by destruct (_ && _). }
    destruct (IH (hs1 ++ [h']) b1 Hc1) as (b' & hs' & Hr & ? & ?).
    { intros ip. rewrite held_app, Hh. simpl. by rewrite Hh1. }
    exists b', hs'. split_and!; [|done..]. eapply rtc_l; [by eapply (st_release b hs1 h hs2 t t)|].
    by rewrite <- app_assoc in Hr.
Qed.

(** C26: Every block ends.  Whatever requests came and in whatever order they
    released, a [blockTTL] later an address is admitted exactly when it holds
    fewer slots than the limit, and gets one; and the requests in progress
    can finish so that it is. *)
Theorem blocks_end w0 w t ip c :
  1 <= maxPerIP l -> 0 <= blockTTL l -> blocker w0 = MkBlocker (Some ∅) false zero_time 0 -> handles w0 = [] ->
  zero_time <= now w0 -> rtc step w0 w -> closed (blocker w) = false ->
  now w + blockTTL l <= t -> CanonicalIP ip = Some c ->
  ((Enter l t ip (blocker w)).1.2 = false <-> held c (handles w) < maxPerIP l) /\
  exists w', rtc step w w' /\ (Enter l t ip (blocker w')).1 = (MkHandle (Some c) false, false).
Proof.
  intros Hmax Hl Hb Hh Hz Hr Hc Ht Hip. split.
  - apply (admits w t ip c); eauto using reachable_inv, reachable_ends.
  - destruct w as [b hs t0]. simpl in *. destruct (drain [] hs b t0 Hc) as (b' & hs' & Hd & Hc' & Hn); [done|].
    exists (MkWorld b' hs' t0). split; [done|].
    assert (rtc step w0 (MkWorld b' hs' t0)) as Hr' by (by etrans).
    destruct (admits (MkWorld b' hs' t0) t ip c) as [Ha Hs]; eauto using reachable_inv, reachable_ends.
    simpl in *. rewrite Hn in Ha, Hs. apply injective_projections; [apply Hs|apply Ha]; lia.
Qed.

End Steps.

(** ** The theorems at a concrete limiter *)

Definition sample_limits : limits := MkLimits 2 hour.

Definition fresh : IPPendingBlocker := MkBlocker (Some ∅) false zero_time 0.

(** Three requests of one address, mapped spelling included. *)
Definition after (n : nat) : IPPendingBlocker :=
  Nat.iter n (fun b => (Enter sample_limits 10 " ::ffff:1.2.3.4" b).2) fresh.

Lemma pending_limit_witness :
  held "1.2.3.4" [MkHandle (Some "1.2.3.4"%string) false] <= 2.
Proof.
  destruct (Enter sample_limits 10 "1.2.3.4" fresh) as [[h bl] b] eqn:E.
  assert (h = MkHandle (Some "1.2.3.4"%string) false) as Hh by (vm_compute in E; congruence).
  rewrite <- Hh.
  assert (exists m, entries b = Some m) as [m Hm] by (vm_compute in E; injection E as _ _ <-; eauto).
  apply (pending_limit sample_limits (MkWorld fresh [] 0) (MkWorld b [h] 10) ltac:(simpl; lia) eq_refl eq_refl)
    with (m := m) (ip := "1.2.3.4"%string); [|exact Hm].
  apply rtc_once. eapply st_enter; [lia|exact E].
Defined.

Lemma block_is_fixed_witness :
  (Enter sample_limits 20 "1.2.3.4" (after 3)).1.2 = true /\ autoBlocks (after 3) = 1.
Proof.
  split; [|vm_compute; reflexivity].
  apply (block_is_fixed sample_limits "1.2.3.4" (10 + hour) (MkWorld (after 3) [] 10) (MkWorld (after 3) [] 10)).
  - destruct (after 3) as [en cl ls ab] eqn:E. vm_compute in E. injection E as <- <- <- <-.
    eexists _, _. split_and!; [reflexivity|reflexivity|vm_compute; reflexivity|vm_compute; reflexivity].
  - apply rtc_refl.
  - vm_compute. reflexivity.
  - vm_compute. reflexivity.
Defined.

Lemma blocks_end_witness :
  exists w', (Enter sample_limits (10 + hour) "1.2.3.4" (blocker w')).1 = (MkHandle (Some "1.2.3.4"%string) false, false).
Proof.
  destruct (Enter sample_limits 10 "1.2.3.4" fresh) as [[h bl] b] eqn:E.
  destruct (blocks_end sample_limits (MkWorld fresh [] 0) (MkWorld b [h] 10) (10 + hour) "1.2.3.4" "1.2.3.4")
    as [_ (w' & _ & Hw)]; [simpl; lia|vm_compute; discriminate|reflexivity|reflexivity|vm_compute; discriminate| | | | |].
  - apply rtc_once. eapply st_enter; [lia|exact E].
  - vm_compute in E. injection E as _ _ <-. reflexivity.
  - vm_compute. discriminate.
  - vm_compute. reflexivity.
  - exists w'. exact Hw.
Defined.
