(* ===== verification/RiskCounter.v ===== *)
(** * Counters of the rule engine ([internal/risk/counter.go])

    The registry binds counter definitions to a store; rules read counters
    through a resolver that caches what it read, and a request bumps the
    counters whose condition it meets. *)

From S2P Require Import Prelude Config Storage RiskMatcher.

Definition counterWhenMatches {R} (w : CounterWhenConfig) (req : RequestContext R) : bool :=
  if match whIsProtected w with Some b => negb (Bool.eqb b (rqIsProtected req)) | None => false end then false
  else if match whIsRangeRequest w with Some b => negb (Bool.eqb b (rqIsRangeRequest req)) | None => false end
  then false
  else if negb (whPowStatus w =? "")%string && negb (whPowStatus w =? rqPowStatus req)%string then false
  else if negb (whPowMode w =? "")%string && negb (whPowMode w =? rqPowMode req)%string then false
  else true.

Definition counterKey {R} (keyField : string) (req : RequestContext R) : string :=
  if (keyField =? "ip")%string then rqIP req
  else if (keyField =? "path")%string then rqPath req
  else if (keyField =? "ip_path")%string then (rqIP req +:+ "|" +:+ rqPath req)%string
  else "".

Section Registry.
Context {C : Type} `{CounterStore C, MapRange}.

(** The world's part of the [n]-th call to the store. *)
Variable env : nat -> cs_env.

(** The store, the calls made to it, and the resolver's cache and warnings. *)
Record counters := MkCounters {
  ctStore : C;
  ctCalls : nat;
  ctCache : gmap string Z;
  ctWarned : list string;
}.

(** A registry: the definitions; the store is absent when [hasStore] is false. *)
Record CounterRegistry := MkRegistry { defs : gmap string CounterConfig; hasStore : bool }.

(** [cachingResolver.Get] on the request [req]. *)
Definition resolver_Get {R} (ds : gmap string CounterConfig) (req : RequestContext R)
  (name : string) (st : counters) : Z * counters :=
  match ctCache st !! name with
  | Some v => (v, st)
  | None =>
      match ds !! name with
      | None => (0, st)
      | Some def =>
          let key := counterKey (ccKey def) req in
          if (key =? "")%string then (0, st)
          else
            let '(r, s) := cs_get (env (ctCalls st)) name key (ccWindow def) (ctStore st) in
            match r with
            | Err _ => (0, MkCounters s (S (ctCalls st)) (ctCache st) (ctWarned st ++ [name]))
            | Ok v => (v, MkCounters s (S (ctCalls st)) (<[name := v]> (ctCache st)) (ctWarned st))
            end
      end
  end.

(** [LookupResolver] on a registry that may be nil, with a fresh cache. *)
Definition LookupResolver {R} (r : option CounterRegistry) (req : RequestContext R)
  : CounterResolver counters :=
  match r with
  | Some r => if hasStore r then resolver_Get (defs r) req else NoopCounterResolver
  | None => NoopCounterResolver
  end.

Definition fresh_cache (st : counters) : counters := MkCounters (ctStore st) (ctCalls st) ∅ (ctWarned st).

(** The counters a request bumps, in the order of the loop. *)
Definition incr_targets {R} (l : list (string * CounterConfig)) (req : RequestContext R)
  : list (string * string * Z) :=
  omap (fun nd : string * CounterConfig =>
          if negb (counterWhenMatches (ccWhen nd.2) req) then None
          else let key := counterKey (ccKey nd.2) req in
               if (key =? "")%string then None else Some (nd.1, key, ccWindow nd.2)) l.

Fixpoint incr_all (l : list (string * string * Z)) (st : counters) : list storage_error * counters :=
  match l with
  | [] => ([], st)
  | (name, key, window) :: l =>
      let '(r, s) := cs_incr (env (ctCalls st)) name key window (ctStore st) in
      let '(errs, st) := incr_all l (MkCounters s (S (ctCalls st)) (ctCache st) (ctWarned st)) in
      (match r with Err e => e :: errs | Ok _ => errs end, st)
  end.

(** The registry and the request may be nil, the store absent. *)
Definition IncrementForRequest {R} (loop : nat) (r : option CounterRegistry)
  (req : option (RequestContext R)) (st : counters) : list storage_error * counters :=
  match r, req with
  | Some r, Some req =>
      if hasStore r then incr_all (incr_targets (map_range loop (defs r)) req) st else ([], st)
  | _, _ => ([], st)
  end.

(** ** Properties *)

(** The condition of a counter: every field that is set agrees. *)
Definition when_holds {R} (w : CounterWhenConfig) (req : RequestContext R) : Prop :=
  (forall b, whIsProtected w = Some b -> rqIsProtected req = b) /\
  (forall b, whIsRangeRequest w = Some b -> rqIsRangeRequest req = b) /\
  (whPowStatus w <> ""%string -> rqPowStatus req = whPowStatus w) /\
  (whPowMode w <> ""%string -> rqPowMode req = whPowMode w).

Lemma when_bool (o : option bool) b' :
  match o with Some b => negb (Bool.eqb b b') | None => false end = false <->
  (forall b, o = Some b -> b' = b).
Proof. destruct o as [[|]|], b'; simpl; naive_solver. Qed.

Lemma when_string s t : negb (s =? "")%string && negb (s =? t)%string = false <-> (s <> ""%string -> t = s).
Proof. destruct (String.eqb_spec s ""), (String.eqb_spec s t); simpl; naive_solver. Qed.

Lemma counterWhenMatches_spec {R} w (req : RequestContext R) :
  counterWhenMatches w req = true <-> when_holds w req.
Proof.
  unfold counterWhenMatches, when_holds. rewrite <- !when_bool, <- !when_string.
  repeat case_match; naive_solver.
Qed.

(** A request bumps exactly the counters that are configured for it: the
    calls made are, up to the order of the loop, one increment per definition
    whose condition the request meets and whose key it has, under the
    definition's own key and window. *)
Theorem incr_targets_spec {R} loop (ds : gmap string CounterConfig) (req : RequestContext R) :
  NoDup (incr_targets (map_range loop ds) req) /\
  forall name key window, (name, key, window) ∈ incr_targets (map_range loop ds) req <->
    exists def, ds !! name = Some def /\ when_holds (ccWhen def) req /\
      key = counterKey (ccKey def) req /\ key <> ""%string /\ window = ccWindow def.
Proof.
  split.
  - unfold incr_targets. assert (Hnd : NoDup (map_range loop ds).*1).
    { rewrite map_range_perm. apply NoDup_fst_map_to_list. }
    induction (map_range loop ds) as [|[n d] l IH]; [apply NoDup_nil_2|].
    rewrite fmap_cons in Hnd. apply NoDup_cons in Hnd as [Hni Hnd]. simpl.
    destruct (negb _); simpl; [by apply IH|]. destruct (_ =? "")%string; simpl; [by apply IH|].
    apply NoDup_cons. split; [|by apply IH]. intros ([n' d'] & Hin & Hx)%list_elem_of_omap.
    apply Hni, list_elem_of_fmap. exists (n', d'). split; [|done]. simpl in *.
    by repeat case_match; simplify_eq.
  - intros name key window. unfold incr_targets. rewrite list_elem_of_omap. split.
    + intros ([n d] & Hin & Hx). simpl in Hx. apply elem_of_map_range in Hin.
      destruct (counterWhenMatches (ccWhen d) req) eqn:Ew; [|done]. simpl in Hx.
      destruct (String.eqb_spec (counterKey (ccKey d) req) "") as [|Hk]; [done|]. injection Hx as <- <- <-.
      exists d. split_and!; [done|by apply counterWhenMatches_spec|done..].
    + intros (d & Hd & Hw & -> & Hk & ->). exists (name, d). split; [by apply elem_of_map_range|].
      simpl. apply counterWhenMatches_spec in Hw. rewrite Hw. simpl.
      by apply String.eqb_neq in Hk as ->.
Qed.

(** Reads are cached: once a read of a counter succeeded, every later read
    of it in the same evaluation gives that value and calls the store no more;
    a failed read counts as zero, is reported, and is not cached. *)
Theorem resolver_caches {R} ds (req : RequestContext R) name v st st' :
  resolver_Get ds req name st = (v, st') ->
  (exists w, ctCache st' !! name = Some w /\ v = w /\
     forall req' : RequestContext R, resolver_Get ds req' name st' = (v, st')) \/
  (v = 0 /\ ctCache st' = ctCache st /\
    (st' = st \/ (ctCalls st' = S (ctCalls st) /\ ctWarned st' = ctWarned st ++ [name]))).
Proof.
  unfold resolver_Get. destruct (ctCache st !! name) as [w|] eqn:Ec.
  { intros [= <- <-]. left. exists w. split_and!; [done..|]. intros req'. by rewrite Ec. }
  destruct (ds !! name) as [def|]; [|intros [= <- <-]; right; auto].
  destruct (_ =? "")%string; [intros [= <- <-]; right; auto|].
  destruct (cs_get _ _ _ _ _) as [[w|x] s]; intros [= <- <-]; simpl.
  - left. exists w. rewrite lookup_insert_eq. auto.
  - right. auto.
Qed.

End Registry.
Arguments counters C : clear implicits.
