(* ===== verification/Auth.v ===== *)
(** * Verification of one request ([internal/auth])

    Requests and results, the checks of a token, the quota and the first-use
    binding, the risk engine's verdicts, and [Verify] itself.  A method runs on
    the state [world]: the stores, the limiter, the clock reads made so far, the
    token the request carries (one cell: every pointer to the payload is to it)
    and the log and metric events emitted. *)

From S2P Require Import Prelude GoStrings GoTime Strconv Sha256 Netip GoURL Pow Matcher Storage.
From S2P Require Import Config RiskMatcher RiskEngine RiskCounter Pending.

(** ** Requests, results, reasons ([request.go], [result.go], [reasons.go]) *)

Record AuthRequest := MkAuthRequest {
  OriginalURI : string;
  OriginalMethod : string;
  OriginalArgs : string;
  RealIP : string;
  UserAgent : string;
  OriginalRange : string;
}.

Record AuthResult := MkAuthResult {
  Allowed : bool;
  HTTPStatus : Z;
  Reason : string;
  Mode : string;
  SignID : string;
  Uses : Z;
  MaxUses : Z;
  ErrorHeader : string;
  LimitRate : string;
  rDecision : string;
  DryRunOriginalError : string;
  RiskChain : string;
  RiskRule : string;
  RiskTrace : list TraceStep;
  RiskMarks : list string;
}.

Definition DecisionVerified : string := "verified".
Definition DecisionUnverifiedSlow : string := "unverified_slow".
Definition DecisionUnverifiedVerySlow : string := "unverified_very_slow".
Definition DecisionNotProtected : string := "not_protected".
Definition DecisionDenied : string := "denied".
Definition DecisionBypass : string := "bypass".
Definition DecisionDryRun : string := "dry_run".
Definition DecisionPowDisabled : string := "pow_disabled".

(** The reasons of [reasons.go], under their names without the [Reason] prefix
    where that is a name already. *)
Definition ReasonNotProtected : string := "not_protected".
Definition ReasonIPBoundValid : string := "ip_bound_valid".
Definition ReasonGenericValid : string := "generic_valid".
Definition ReasonDryRunAllow : string := "dry_run_allow".
Definition ReasonBypassAll : string := "bypass_all".
Definition ReasonPowDisabled : string := "pow_disabled".
Definition ReasonRiskAccept : string := "risk_accept".
Definition ReasonRiskRateLimit : string := "risk_rate_limit".
Definition ReasonRequirePowPass : string := "require_pow_pass".
Definition ReasonValidPowFullSpeed : string := "valid_pow_full_speed".
Definition ReasonMissingHeaders : string := "missing_headers".
Definition ReasonMissingTokenOrSign : string := "missing_token_or_sign".
Definition ReasonTokenTooLong : string := "token_too_long".
Definition ReasonSignTooLong : string := "sign_too_long".
Definition ReasonMalformedToken : string := "malformed_token".
Definition ReasonUnsupportedVersion : string := "unsupported_version".
Definition ReasonUnsupportedMode : string := "unsupported_mode".
Definition ReasonModeDisabled : string := "mode_disabled".
Definition ReasonUnsupportedAlgorithm : string := "unsupported_algorithm".
Definition ReasonPathMismatch : string := "path_mismatch".
Definition ReasonExpired : string := "expired".
Definition ReasonTTLTooLong : string := "ttl_too_long".
Definition ReasonTimestampFromFuture : string := "timestamp_from_future".
Definition ReasonDifficultyTooLow : string := "difficulty_too_low".
Definition ReasonInvalidCounter : string := "invalid_counter".
Definition ReasonInvalidSalt : string := "invalid_salt".
Definition ReasonInvalidIP : string := "invalid_ip".
Definition ReasonIPForbidden : string := "ip_forbidden".
Definition ReasonIPMissing : string := "ip_missing".
Definition ReasonMissingRealIP : string := "missing_real_ip".
Definition ReasonInvalidSignFormat : string := "invalid_sign_format".
Definition ReasonSignMismatch : string := "sign_mismatch".
Definition ReasonDifficultyNotMet : string := "difficulty_not_met".
Definition ReasonIPMismatch : string := "ip_mismatch".
Definition ReasonUsedUp : string := "used_up".
Definition ReasonRateLimited : string := "rate_limited".
Definition ReasonIPPendingBlocked : string := "ip_pending_blocked".
Definition ReasonRiskReject : string := "risk_reject".
Definition ReasonRiskTooMany : string := "risk_too_many".
Definition ReasonStorageError : string := "storage_error".
Definition ReasonInternalError : string := "internal_error".

Definition allow_reasons : list string :=
  [ReasonNotProtected; ReasonIPBoundValid; ReasonGenericValid; ReasonDryRunAllow; ReasonBypassAll;
   ReasonPowDisabled; ReasonRiskAccept; ReasonRiskRateLimit; ReasonRequirePowPass].

Definition statusForReason (reason : string) : Z :=
  if one_of reason allow_reasons then 200
  else if one_of reason [ReasonRateLimited; ReasonRiskTooMany; ReasonIPPendingBlocked] then 429
  else if one_of reason [ReasonStorageError; ReasonInternalError; ReasonMissingHeaders; ReasonMissingRealIP]
  then 500
  else 403.

Definition allowDecision (reason mode decision : string) : AuthResult :=
  MkAuthResult true 200 reason mode "" 0 0 "" "" decision "" "" "" [] [].
Definition allow (reason mode : string) : AuthResult := allowDecision reason mode DecisionVerified.
Definition deny (reason : string) : AuthResult :=
  MkAuthResult false (statusForReason reason) reason "" "" 0 0 reason "" DecisionDenied "" "" "" [] [].

(** Assignments to a field of a result. *)
Definition set_mode (m : string) (r : AuthResult) : AuthResult :=
  MkAuthResult (Allowed r) (HTTPStatus r) (Reason r) m (SignID r) (Uses r) (MaxUses r) (ErrorHeader r)
    (LimitRate r) (rDecision r) (DryRunOriginalError r) (RiskChain r) (RiskRule r) (RiskTrace r) (RiskMarks r).
Definition set_status (s : Z) (r : AuthResult) : AuthResult :=
  MkAuthResult (Allowed r) s (Reason r) (Mode r) (SignID r) (Uses r) (MaxUses r) (ErrorHeader r)
    (LimitRate r) (rDecision r) (DryRunOriginalError r) (RiskChain r) (RiskRule r) (RiskTrace r) (RiskMarks r).
Definition set_uses (u m : Z) (r : AuthResult) : AuthResult :=
  MkAuthResult (Allowed r) (HTTPStatus r) (Reason r) (Mode r) (SignID r) u m (ErrorHeader r)
    (LimitRate r) (rDecision r) (DryRunOriginalError r) (RiskChain r) (RiskRule r) (RiskTrace r) (RiskMarks r).
Definition set_rate (l : string) (r : AuthResult) : AuthResult :=
  MkAuthResult (Allowed r) (HTTPStatus r) (Reason r) (Mode r) (SignID r) (Uses r) (MaxUses r) (ErrorHeader r)
    l (rDecision r) (DryRunOriginalError r) (RiskChain r) (RiskRule r) (RiskTrace r) (RiskMarks r).
Definition set_decision (d : string) (r : AuthResult) : AuthResult :=
  MkAuthResult (Allowed r) (HTTPStatus r) (Reason r) (Mode r) (SignID r) (Uses r) (MaxUses r) (ErrorHeader r)
    (LimitRate r) d (DryRunOriginalError r) (RiskChain r) (RiskRule r) (RiskTrace r) (RiskMarks r).
Definition set_risk (chain rule : string) (tr : list TraceStep) (ms : list string) (r : AuthResult) : AuthResult :=
  MkAuthResult (Allowed r) (HTTPStatus r) (Reason r) (Mode r) (SignID r) (Uses r) (MaxUses r) (ErrorHeader r)
    (LimitRate r) (rDecision r) (DryRunOriginalError r) chain rule tr ms.
Definition withSignID (r : AuthResult) (id : string) : AuthResult :=
  MkAuthResult (Allowed r) (HTTPStatus r) (Reason r) (Mode r) id (Uses r) (MaxUses r) (ErrorHeader r)
    (LimitRate r) (rDecision r) (DryRunOriginalError r) (RiskChain r) (RiskRule r) (RiskTrace r) (RiskMarks r).

Definition denyMode (reason mode : string) : AuthResult := set_mode mode (deny reason).
Definition denyStatus (status : Z) (reason mode : string) : AuthResult :=
  set_status status (denyMode reason mode).

(** ** Rates ([decision.go]) *)

Definition isVerifiedReason (reason : string) : bool :=
  one_of reason [ReasonGenericValid; ReasonIPBoundValid; ReasonRequirePowPass; ReasonValidPowFullSpeed].

(** The digits in front, then the unit byte, 0 when there is none. *)
Fixpoint rate_digits (l : list Z) (n : Z) : Z * list Z :=
  match l with
  | c :: l' => if is_digit c then rate_digits l' (wrap64 (n * 10 + (c - 48))) else (n, l)
  | [] => (n, [])
  end.

Definition parseRate (s : string) : option (Z * Z) :=
  match bytes_of s with
  | (c :: _) as l =>
      if is_digit c then
        let '(n, rest) := rate_digits l 0 in Some (n, match rest with u :: _ => u | [] => 0 end)
      else None
  | [] => None
  end.

Definition isVerySlowRate (rate : string) : bool :=
  match parseRate rate with
  | None => false
  | Some (n, unit) =>
      let bytesPerSec :=
        if (unit =? 107) || (unit =? 75) then wrap64 (n * 1024)
        else if (unit =? 109) || (unit =? 77) then wrap64 (wrap64 (n * 1024) * 1024)
        else if (unit =? 103) || (unit =? 71) then wrap64 (wrap64 (wrap64 (n * 1024) * 1024) * 1024)
        else n in
      bytesPerSec <=? 128 * 1024
  end.

Definition decideForAllow (res : AuthResult) : string :=
  if negb (Mode res =? "")%string && isVerifiedReason (Reason res) then DecisionVerified
  else if negb (LimitRate res =? "")%string && negb (LimitRate res =? "0")%string then
    (if isVerySlowRate (LimitRate res) then DecisionUnverifiedVerySlow else DecisionUnverifiedSlow)
  else DecisionVerified.

Definition powStatusToReason (status : string) : string :=
  if (status =? "invalid")%string then ReasonSignMismatch
  else if (status =? "expired")%string then ReasonExpired
  else if (status =? "used_up")%string then ReasonUsedUp
  else if (status =? "unverifiable")%string then ReasonMissingRealIP
  else if (status =? "mode_disabled")%string then ReasonModeDisabled
  else ReasonSignMismatch.

Definition reasonForAccept (r : string) : string := if (r =? "")%string then ReasonRiskAccept else r.
Definition statusBucket (allowed : bool) : string := if allowed then "allow" else "deny".

(** ** Helpers of [pow_verify.go] *)

Definition reasonFromValidationError (e : pow_error) : string :=
  match e with
  | ErrUnsupportedVersion => ReasonUnsupportedVersion
  | ErrUnsupportedMode => ReasonUnsupportedMode
  | ErrUnsupportedAlgorithm => ReasonUnsupportedAlgorithm
  | ErrPathInvalid | ErrPathTooLong => ReasonMalformedToken
  | ErrIPMissing => ReasonIPMissing
  | ErrIPInvalid => ReasonInvalidIP
  | ErrIPForbidden => ReasonIPForbidden
  | ErrCounterInvalid => ReasonInvalidCounter
  | ErrDifficultyInvalid => ReasonDifficultyTooLow
  | ErrSaltInvalid => ReasonInvalidSalt
  | ErrTimestampInvalid | ErrExpiryInvalid => ReasonMalformedToken
  | ErrEmpty | ErrMalformed => ReasonMalformedToken
  end.

Definition statusForValidationReason (reason : string) : string :=
  if (reason =? ReasonExpired)%string then "expired"
  else if (reason =? ReasonModeDisabled)%string then "mode_disabled"
  else "invalid".

Definition sign_rune (c : Z) : bool := in_range 48 57 c || in_range 97 102 c || in_range 65 70 c.
Definition isValidSignHex (s : string) : bool :=
  if negb (len s =? 64) then false else forallb sign_rune (runes s).

Section Verification.
Context `{Unicode, JsonCodec, Regexp, MapRange}.

Definition sameIP (a b : string) : bool :=
  if (a =? "")%string || (b =? "")%string then false
  else if EqualFold a b then true
  else match ParseAddr a, ParseAddr b with
       | Some na, Some nb => bool_decide (Unmap na = Unmap nb)
       | _, _ => false
       end.

Definition isRangeRequest (args method rangeHeader : string) : bool :=
  if EqualFold method "HEAD" then true
  else if negb (rangeHeader =? "")%string then true
  else if Contains (ToLower args) "range=" then true
  else false.

(** Returns [None] on success, the failure reason otherwise. *)
Definition checkSignAndDifficulty (p : TokenPayload) (sign : string) : option string :=
  if negb (isValidSignHex sign) then Some ReasonInvalidSignFormat
  else if negb (CompareSign (ComputeSign (Some p)) sign) then Some ReasonSignMismatch
  else
    let hash := HashCanonical (BuildCanonicalInput (Some p)) in
    if negb (HasLeadingZeroBits32 hash (tpDifficulty p)) then Some ReasonDifficultyNotMet
    else None.

Definition checkTime (p : TokenPayload) (maxTTL now : Z) : option string :=
  if tpExpiresAt p <=? now then Some ReasonExpired
  else if (0 <? maxTTL) && (maxTTL <? wrap64 (tpExpiresAt p - tpTimestamp p)) then Some ReasonTTLTooLong
  else if wrap64 (now + 60) <? tpTimestamp p then Some ReasonTimestampFromFuture
  else None.

(** ** The service ([service.go]) *)

Context {U C : Type} `{UsageStore U, CounterStore C}.

(** The dependencies; [None] and [false] are nil. *)
Record Service := MkService {
  cfg : Config;
  svMatcher : Matcher;
  hasUsageStore : bool;
  hasMetrics : bool;
  riskEngine : option Engine;
  counterReg : option CounterRegistry;
  pendingBlocker : option limits;
  ipBoundOpts : ValidatorOptions;
  genericOpts : ValidatorOptions;
  allowedSalts : list string;
}.

Record Options := MkOptions {
  oConfig : option Config;
  oMatcher : option Matcher;
  oUsageStore : bool;
  oMetrics : bool;
  oRiskEngine : option Engine;
  oCounterReg : option CounterRegistry;
  oPendingBlocker : option limits;
}.

Definition enabled_by_default (o : option bool) : bool := match o with None => true | Some b => b end.

Definition New (opts : Options) : result string Service :=
  match oConfig opts with
  | None => Err "auth: Config is required"%string
  | Some c =>
      match oMatcher opts with
      | None => Err "auth: Matcher is required"%string
      | Some m =>
          let p := cPow c in
          let rc := cRiskControl c in
          if mEnabled (mGeneric (pModes p)) && negb (oUsageStore opts)
          then Err "auth: UsageStore is required when generic mode is enabled"%string
          else if rcEnabled rc && negb (bool_decide (is_Some (oRiskEngine opts)))
          then Err "auth: RiskEngine is required when risk_control is enabled"%string
          else if rcEnabled rc && (0 <? size (rcCounters rc))%nat
                  && negb (bool_decide (is_Some (oCounterReg opts)))
          then Err "auth: CounterReg is required when risk_control counters are configured"%string
          else if rcEnabled rc && enabled_by_default (pdEnabled (rcPending rc))
                  && negb (bool_decide (is_Some (oPendingBlocker opts)))
          then Err "auth: PendingBlocker is required when risk_control.pending is enabled"%string
          else
            let salts := pAllowedPreviousSalts p
                         ++ (if (pPublicSalt p =? "")%string then [] else [pPublicSalt p]) in
            Ok {| cfg := c; svMatcher := m; hasUsageStore := oUsageStore opts; hasMetrics := oMetrics opts;
                  riskEngine := oRiskEngine opts; counterReg := oCounterReg opts;
                  pendingBlocker := oPendingBlocker opts;
                  ipBoundOpts := MkValidatorOptions salts (pAllowEmptySalt p) ["ip_bound"%string]
                    (mRequireIP (mIPBound (pModes p))) (mMinDifficulty (mIPBound (pModes p)))
                    (mMaxDifficulty (mIPBound (pModes p))) (pAlgorithm p);
                  genericOpts := MkValidatorOptions salts (pAllowEmptySalt p) ["generic"%string]
                    false (mMinDifficulty (mGeneric (pModes p))) (mMaxDifficulty (mGeneric (pModes p)))
                    (pAlgorithm p);
                  allowedSalts := salts |}
      end
  end.

(** ** State and events *)

(** [time.Since(start)] at the [n]-th instant: the wall clock's, not the
    configured clock's, so that its value is left open. *)
Record duration_since := Since { sinceStart : Z; sinceTick : nat }.

(** [FMillis]: the milliseconds of such a duration. *)
Inductive field_value := FString (s : string) | FInt (z : Z) | FBool (b : bool) | FMillis (d : duration_since).
Definition field : Type := string * field_value.

(** What the service emits: metrics updates and log lines. *)
Inductive event :=
  | MVerifyTotal (result reason mode protected : string)
  | MVerifyLatency (mode : string) (elapsed : duration_since)
  | MRiskDecision (target reason : string)
  | MPendingAutoBlock
  | MActiveSignatures (n : Z)
  | Log (level msg : string) (fields : list field).

Record world := MkWorldState {
  wTick : nat;
  wStore : U;
  wCounters : counters C;
  wPending : IPPendingBlocker;
  wLoops : nat;
  wToken : option TokenPayload;
  wEvents : list event;
}.

(** The outside.  [wTick] numbers the instants at which the service looks at it,
    by reading the clock or by calling the usage store: [clk n] is the time at
    the [n]-th instant, [uenv n] what a store called then meets; [cenv] gives
    the same for the calls of the counter store. *)
Variable clk : nat -> Z.
Variable uenv : nat -> us_env.
Variable cenv : nat -> cs_env.

Definition M (A : Type) : Type := world -> A * world.
#[local] Instance M_ret : MRet M := fun A a w => (a, w).
#[local] Instance M_bind : MBind M := fun A B f m w => let '(a, w) := m w in f a w.

(** Reads of the clock, calls of the stores, the token cell, events. *)
Definition clock_now : M Z := fun w =>
  (clk (wTick w), MkWorldState (S (wTick w)) (wStore w) (wCounters w) (wPending w)
                    (wLoops w) (wToken w) (wEvents w)).

Definition time_since (start : Z) : M duration_since := fun w =>
  (Since start (wTick w), MkWorldState (S (wTick w)) (wStore w) (wCounters w) (wPending w)
                            (wLoops w) (wToken w) (wEvents w)).

Definition set_token (t : option TokenPayload) : M unit := fun w =>
  (tt, MkWorldState (wTick w) (wStore w) (wCounters w) (wPending w)
         (wLoops w) t (wEvents w)).
Definition get_token : M (option TokenPayload) := fun w => (wToken w, w).

Definition emit (e : event) : M unit := fun w =>
  (tt, MkWorldState (wTick w) (wStore w) (wCounters w) (wPending w)
         (wLoops w) (wToken w) (wEvents w ++ [e])).

Definition store_call {A} (f : us_env -> U -> result storage_error A * U)
  : M (result storage_error A) := fun w =>
  let '(r, st) := f (uenv (wTick w)) (wStore w) in
  (r, MkWorldState (S (wTick w)) st (wCounters w) (wPending w) (wLoops w) (wToken w) (wEvents w)).
Definition store_Get (id : string) : M (result storage_error UsageRecord) :=
  store_call (fun e s => us_get e id s).
Definition store_Consume (inp : ConsumeInput) : M (result storage_error ConsumeResult) :=
  store_call (fun e s => us_consume e inp s).

Definition with_counters {A} (f : counters C -> A * counters C) : M A := fun w =>
  let '(a, c) := f (wCounters w) in
  (a, MkWorldState (wTick w) (wStore w) c (wPending w)
        (wLoops w) (wToken w) (wEvents w)).

Definition next_map_loop : M nat := fun w =>
  (wLoops w, MkWorldState (wTick w) (wStore w) (wCounters w) (wPending w)
               (S (wLoops w)) (wToken w) (wEvents w)).

(** The limiter reads the clock itself; its automatic blocks are counted in the
    metrics. *)
Definition with_pending {A} (f : Z -> IPPendingBlocker -> A * IPPendingBlocker) : M A := fun w =>
  let '(a, b) := f (clk (wTick w)) (wPending w) in
  (a, MkWorldState (S (wTick w)) (wStore w) (wCounters w) b
        (wLoops w) (wToken w)
        (wEvents w ++ (if autoBlocks (wPending w) <? autoBlocks b then [MPendingAutoBlock] else []))).

(** ** Recording ([result_recorder.go]) *)

Definition maxLoggedFieldLen : Z := 512.

Definition truncateForLog (s : string) (max : Z) : string :=
  if len s <=? max then s
  else (of_bytes (take (Z.to_nat max) (bytes_of s)) +:+ of_bytes [226; 128; 166] +:+ "(truncated)")%string.

(** [logging.HashIP]. *)
Definition HashIP (ip salt : string) : string :=
  let ip := TrimSpace ip in
  if (ip =? "")%string then ""
  else match ParseAddr ip with
       | None => ip
       | Some _ => hex_encode (take 12 (sha256 (bytes_of (salt +:+ ip))))
       end.

(** The per-request state; its [payload] field is the token cell. *)
Record verifyCtx := MkVerifyCtx {
  vcReq : AuthRequest;
  vcTokenRaw : string;
  vcSign : string;
  vcStart : Z;
  vcLogFields : list field;
  vcSignID : string;
  vcUses : Z;
  vcMaxUses : Z;
  vcProtected : option bool;
  vcPayload : bool;
}.

Definition protectedLabel (p : option bool) : string :=
  match p with None => "unknown" | Some true => "true" | Some false => "false" end.

Section Methods.
Variable s : Service.

Definition bypassAllEffective : bool := pBypassAll (cPow (cfg s)).
Definition dryRunEffective : bool := pDryRun (cPow (cfg s)).
Definition powEnabled : bool := enabled_by_default (pEnabled (cPow (cfg s))).

Definition shouldLogResult (res : AuthResult) : bool :=
  if 500 <=? HTTPStatus res then true
  else if Allowed res then enabled_by_default (lgLogAccess (cLogging (cfg s)))
  else enabled_by_default (lgLogDenied (cLogging (cfg s))).

Definition maybeHashIP (ip : string) : string :=
  if (ip =? "")%string then ""
  else if negb (lgHashIP (cLogging (cfg s))) then ip
  else HashIP ip (lgLogSalt (cLogging (cfg s))).

Definition result_fields (vctx : verifyCtx) (token : option TokenPayload) (elapsed : duration_since) (res : AuthResult)
  : list field :=
  vcLogFields vctx
  ++ [("event", FString "pow_verify"); ("allowed", FBool (Allowed res)); ("status", FInt (HTTPStatus res));
      ("reason", FString (Reason res)); ("mode", FString (Mode res)); ("decision", FString (rDecision res));
      ("elapsed_ms", FMillis elapsed)]
  ++ match token with
     | Some p =>
         if vcPayload vctx then
           ("difficulty", FInt (tpDifficulty p))
           :: (if (tpMode p =? "ip_bound")%string && negb (tpIP p =? "")%string
               then [("token_ip", FString (maybeHashIP (tpIP p)))] else [])
         else []
     | None => []
     end
  ++ (if (SignID res =? "")%string then [] else [("sign_id", FString (SignID res))])
  ++ (if (0 <? Uses res) || (0 <? MaxUses res)
      then [("uses", FInt (Uses res)); ("max_uses", FInt (MaxUses res))] else [])
  ++ (if (LimitRate res =? "")%string then [] else [("limit_rate", FString (LimitRate res))])
  ++ (if (DryRunOriginalError res =? "")%string then []
      else [("dry_run_original_error", FString (DryRunOriginalError res))]).

Definition log_level (res : AuthResult) : string :=
  if Allowed res then "info" else if 500 <=? HTTPStatus res then "error" else "warn".

Definition recordResult (vctx : verifyCtx) (res : AuthResult) : M unit :=
  elapsed ← time_since (vcStart vctx);
  _ ← (if hasMetrics s then
         _ ← emit (MVerifyTotal (statusBucket (Allowed res)) (Reason res) (Mode res)
                     (protectedLabel (vcProtected vctx)));
         emit (MVerifyLatency (Mode res) elapsed)
       else mret tt);
  if negb (shouldLogResult res) then mret tt
  else
    token ← get_token;
    emit (Log (log_level res) "pow_verify" (result_fields vctx token elapsed res)).

(** ** Deciding on a token ([pow_verify.go]) *)

Definition maybeDryRun (res : AuthResult) : AuthResult :=
  if negb dryRunEffective || Allowed res then res
  else MkAuthResult true 200 ReasonDryRunAllow (Mode res) (SignID res) (Uses res) (MaxUses res) ""
         (LimitRate res) DecisionDryRun (Reason res) (RiskChain res) (RiskRule res) (RiskTrace res)
         (RiskMarks res).

Record modeConfig := MkModeConfig { mcEnabled : bool; mcMaxTTL : Z; mcOpts : ValidatorOptions }.

Definition mode_config (mode : string) : option modeConfig :=
  if (mode =? "ip_bound")%string then
    let m := mIPBound (pModes (cPow (cfg s))) in
    Some (MkModeConfig (mEnabled m) (mMaxTTLSeconds m) (ipBoundOpts s))
  else if (mode =? "generic")%string then
    let m := mGeneric (pModes (cPow (cfg s))) in
    Some (MkModeConfig (mEnabled m) (mMaxTTLSeconds m) (genericOpts s))
  else None.

(** [None] on success, the failure reason otherwise. *)
Definition validateTokenForMode (p : TokenPayload) (mode path signValue : string) (now : Z) : option string :=
  match mode_config mode with
  | None => Some ReasonUnsupportedMode
  | Some mc =>
      if negb (mcEnabled mc) then Some ReasonModeDisabled
      else
        match ValidatePayload (Some p) (Some (mcOpts mc)) with
        | Err e => Some (reasonFromValidationError e)
        | Ok _ =>
            if negb (tpPath p =? path)%string then Some ReasonPathMismatch
            else match checkTime p (mcMaxTTL mc) now with
                 | Some reason => Some reason
                 | None => checkSignAndDifficulty p signValue
                 end
        end
  end.

Definition grace_seconds : Z :=
  let g := clExpiredGracePeriod (cCleanup (cfg s)) in if 0 <? g then int_seconds g else 0.

(** [Ok tt]: go on; [Err res]: answer [res].  [p] is the token as it was on
    entry; the method then fills the IP of the cell. *)
Definition bindEmptyIPFirstUse (p : TokenPayload) (req : AuthRequest) (tokenRaw sign mode : string)
  : M (result AuthResult unit) :=
  let signID := ComputeSignID (Some p) sign mode in
  _ ← set_token (Some (MkTokenPayload (tpVersion p) (tpMode p) (tpAlgorithm p) (RealIP req) (tpPath p)
                         (tpTimestamp p) (tpExpiresAt p) (tpDifficulty p) (tpCounter p) (tpSalt p)));
  if negb (hasUsageStore s) then
    _ ← emit (Log "warn" "usage store not configured; empty-IP ip_bound token binds per request instead of first use"
                [("sign_id", FString signID)]);
    mret (Ok tt)
  else
    rec ← store_Get signID;
    match rec with
    | Ok rec =>
        if negb (urFirstIP rec =? "")%string && negb (sameIP (urFirstIP rec) (RealIP req))
        then mret (Err (maybeDryRun (denyMode ReasonIPMismatch mode)))
        else mret (Ok tt)
    | Err ErrNotFound =>
        now ← clock_now;
        r ← store_Consume (MkConsumeInput signID mode (tpPath p) sign (HashToken tokenRaw) (tpExpiresAt p) 1
                             (RealIP req) (UserAgent req) (unix_sec now) grace_seconds true);
        match r with
        | Err _ => mret (Err (maybeDryRun (withSignID (denyStatus 500 ReasonStorageError mode) signID)))
        | Ok _ => mret (Ok tt)
        end
    | Err _ => mret (Err (maybeDryRun (withSignID (denyStatus 500 ReasonStorageError mode) signID)))
    end.

(** The charge of one use: the sign id, and the store's answer; [Err None] is
    [errNoUsageStore]. *)
Definition consumeGenericQuota (p : TokenPayload) (req : AuthRequest) (tokenRaw sign mode : string) (now : Z)
  : M (string * result (option storage_error) ConsumeResult) :=
  let signID := ComputeSignID (Some p) sign mode in
  if negb (hasUsageStore s) then mret (signID, Err None)
  else
    let g := mGeneric (pModes (cPow (cfg s))) in
    let skipConsume := (OriginalMethod req =? "HEAD")%string && negb (mCountHeadRequest g) in
    r ← store_Consume (MkConsumeInput signID mode (tpPath p) sign (HashToken tokenRaw) (tpExpiresAt p)
                         (mMaxUses g) (RealIP req) (UserAgent req) now grace_seconds skipConsume);
    mret (signID, match r with Ok cr => Ok cr | Err e => Err (Some e) end).

Definition finalizeIPBound (p : TokenPayload) (req : AuthRequest) (tokenRaw sign mode : string) : M AuthResult :=
  if (RealIP req =? "")%string then
    _ ← emit (Log "error" "X-Real-IP is empty; ip_bound tokens cannot be verified. Check that Nginx sets proxy_set_header X-Real-IP on the auth_request location"
                [("path", FString (OriginalURI req))]);
    mret (denyStatus 500 ReasonMissingRealIP mode)
  else
    r ← (if (tpIP p =? "")%string then bindEmptyIPFirstUse p req tokenRaw sign mode
         else if negb (sameIP (tpIP p) (RealIP req)) then mret (Err (maybeDryRun (denyMode ReasonIPMismatch mode)))
         else mret (Ok tt));
    match r with
    | Err res => mret res
    | Ok _ =>
        p' ← get_token;
        mret (withSignID (allow ReasonIPBoundValid mode) (ComputeSignID p' sign mode))
    end.

Definition finalizeGeneric (p : TokenPayload) (req : AuthRequest) (tokenRaw sign mode : string) (now : Z)
  : M AuthResult :=
  '(signID, r) ← consumeGenericQuota p req tokenRaw sign mode now;
  match r with
  | Err _ => mret (maybeDryRun (withSignID (denyStatus 500 ReasonStorageError mode) signID))
  | Ok cr =>
      if negb (crAllowed cr) then
        mret (maybeDryRun (set_uses (crUses cr) (crMaxUses cr) (withSignID (denyMode ReasonUsedUp mode) signID)))
      else
        mret (set_uses (crUses cr) (crMaxUses cr) (withSignID (allow ReasonGenericValid mode) signID))
  end.

Definition finalizeByMode (p : TokenPayload) (req : AuthRequest) (tokenRaw sign mode : string) (now : Z)
  : M AuthResult :=
  if (mode =? "ip_bound")%string then finalizeIPBound p req tokenRaw sign mode
  else if (mode =? "generic")%string then finalizeGeneric p req tokenRaw sign mode now
  else mret (maybeDryRun (denyMode ReasonUnsupportedMode mode)).

(** [payload] is the cell. *)
Definition verifyPoWOnly (req : AuthRequest) (tokenRaw signValue : string) : M AuthResult :=
  if (tokenRaw =? "")%string || (signValue =? "")%string then mret (maybeDryRun (deny ReasonMissingTokenOrSign))
  else if pMaxTokenLength (cPow (cfg s)) <? len tokenRaw then mret (maybeDryRun (deny ReasonTokenTooLong))
  else if pMaxSignLength (cPow (cfg s)) <? len signValue then mret (maybeDryRun (deny ReasonSignTooLong))
  else
    payload ← get_token;
    match payload with
    | None => mret (maybeDryRun (deny ReasonMalformedToken))
    | Some p =>
        t ← clock_now;
        let mode := tpMode p in
        let now := unix_sec t in
        match validateTokenForMode p mode (OriginalURI req) signValue now with
        | Some reason => mret (maybeDryRun (denyMode reason mode))
        | None => finalizeByMode p req tokenRaw signValue mode now
        end
    end.

(** The status and mode; the token is left in the cell. *)
Definition classifyPoW (tokenRaw signValue path realIP : string) : M (string * string) :=
  if (pMaxTokenLength (cPow (cfg s)) <? len tokenRaw) || (pMaxSignLength (cPow (cfg s)) <? len signValue)
  then mret ("invalid", "")%string
  else
    match DecodeToken tokenRaw with
    | Err _ => mret ("invalid", "")%string
    | Ok p =>
        _ ← set_token (Some p);
        let mode := tpMode p in
        t ← clock_now;
        match validateTokenForMode p mode path signValue (unix_sec t) with
        | Some reason => mret (statusForValidationReason reason, mode)
        | None =>
            if (mode =? "ip_bound")%string then
              if (realIP =? "")%string then mret ("unverifiable"%string, mode)
              else if negb (tpIP p =? "")%string && negb (sameIP (tpIP p) realIP)
              then mret ("invalid"%string, mode)
              else mret ("valid"%string, mode)
            else mret ("valid"%string, mode)
        end
    end.

Definition extractTokenAndSign (args : string) : string * string :=
  if (args =? "")%string then ("", "")%string
  else match ParseQuery args with
       | None => ("", "")%string
       | Some vs => (values_get vs (pTokenParam (cPow (cfg s))), values_get vs (pSignParam (cPow (cfg s))))
       end.

(** ** The risk engine's part ([service.go]) *)

Definition set_charge (signID : string) (u m : Z) (v : verifyCtx) : verifyCtx :=
  MkVerifyCtx (vcReq v) (vcTokenRaw v) (vcSign v) (vcStart v) (vcLogFields v) signID u m (vcProtected v)
    (vcPayload v).

(** The context with the charge noted, and the denial to answer if any. *)
Definition chargeQuotaForRiskAllow (vctx : verifyCtx) (riskReq : RequestContext (counters C))
  : M (verifyCtx * option AuthResult) :=
  token ← get_token;
  match (if (rqPowStatus riskReq =? "valid")%string && vcPayload vctx then token else None) with
  | None => mret (vctx, None)
  | Some p =>
      if (rqPowMode riskReq =? "generic")%string then
        now ← clock_now;
        '(signID, r) ← consumeGenericQuota p (vcReq vctx) (vcTokenRaw vctx) (vcSign vctx) "generic" (unix_sec now);
        match r with
        | Err _ =>
            let res := withSignID (denyStatus 500 ReasonStorageError "generic") signID in
            _ ← recordResult vctx res;
            mret (vctx, Some res)
        | Ok cr =>
            if negb (crAllowed cr) then
              let res := maybeDryRun (set_uses (crUses cr) (crMaxUses cr)
                                        (withSignID (denyMode ReasonUsedUp "generic") signID)) in
              _ ← recordResult vctx res;
              mret (vctx, Some res)
            else mret (set_charge signID (crUses cr) (crMaxUses cr) vctx, None)
        end
      else if (rqPowMode riskReq =? "ip_bound")%string && (tpIP p =? "")%string then
        r ← bindEmptyIPFirstUse p (vcReq vctx) (vcTokenRaw vctx) (vcSign vctx) "ip_bound";
        match r with
        | Err res =>
            _ ← recordResult vctx res;
            mret (vctx, Some res)
        | Ok _ => mret (vctx, None)
        end
      else mret (vctx, None)
  end.

Definition with_resolver (r : CounterResolver (counters C)) (q : RequestContext (counters C))
  : RequestContext (counters C) :=
  MkRequest (rqPath q) (rqMethod q) (rqArgs q) (rqIP q) (rqUserAgent q) (rqHasToken q) (rqHasSign q)
    (rqPowStatus q) (rqPowMode q) (rqIsProtected q) (rqIsRangeRequest q) (Some r).

Definition lookupCounterResolver (q : RequestContext (counters C)) : CounterResolver (counters C) :=
  LookupResolver cenv (counterReg s) q.

Definition log_incr_errors (errs : list storage_error) : M unit := fun w =>
  (tt, MkWorldState (wTick w) (wStore w) (wCounters w) (wPending w) (wLoops w) (wToken w)
         (wEvents w ++ map (fun _ => Log "warn" "counter incr failed" []) errs)).

(** The verdict of the engine on a request, and its effect on the counters. *)
Definition evaluate (eng : Engine) (q : RequestContext (counters C)) : M (option (result engine_error Result)) :=
  with_counters (fun c =>
    match Evaluate eng (with_resolver (lookupCounterResolver q) q) (fresh_cache c) with
    | Some (r, c) => (Some r, c)
    | None => (None, c)
    end).

Definition bump_counters (q : RequestContext (counters C)) : M unit :=
  match counterReg s with
  | None => mret tt
  | Some _ =>
      loop ← next_map_loop;
      errs ← with_counters (IncrementForRequest cenv loop (counterReg s) (Some q));
      log_incr_errors errs
  end.

Definition risk_fields (d : Decision) (tr : list TraceStep) (res : AuthResult) : AuthResult :=
  set_risk (dChain d) (dRuleName d) tr (dMarks d) res.

(** Recorded and answered. *)
Definition answer (vctx : verifyCtx) (res : AuthResult) : M (option AuthResult) :=
  _ ← recordResult vctx res; mret (Some res).

(** What the service does with a decision; [None]: fall through. *)
Definition apply_decision (vctx : verifyCtx) (q : RequestContext (counters C)) (powStatus : string)
  (d : Decision) (tr : list TraceStep) : M (option AuthResult) :=
  if one_of (dTarget d) [TargetACCEPT; TargetRATELIMIT] then
    '(vctx, denied) ← chargeQuotaForRiskAllow vctx q;
    match denied with
    | Some res => mret (Some res)
    | None =>
        let res := withSignID (set_uses (vcUses vctx) (vcMaxUses vctx)
          (risk_fields d tr (set_rate (dLimitRate d) (allow (reasonForAccept (dReason d)) (rqPowMode q)))))
          (vcSignID vctx) in
        answer vctx (set_decision (decideForAllow res) res)
    end
  else if (dTarget d =? TargetREJECT)%string then
    let reason := if (dReason d =? "")%string then ReasonRiskReject else dReason d in
    answer vctx (risk_fields d tr (denyMode reason (rqPowMode q)))
  else if (dTarget d =? TargetTOOMANY)%string then
    let reason := if (dReason d =? "")%string then ReasonRateLimited else dReason d in
    answer vctx (risk_fields d tr (denyStatus 429 reason (rqPowMode q)))
  else if (dTarget d =? TargetREQUIREPOW)%string then
    if (powStatus =? "valid")%string then
      '(vctx, denied) ← chargeQuotaForRiskAllow vctx q;
      match denied with
      | Some res => mret (Some res)
      | None =>
          answer vctx (set_uses (vcUses vctx) (vcMaxUses vctx)
                         (withSignID (allow ReasonRequirePowPass (rqPowMode q)) (vcSignID vctx)))
      end
    else if (powStatus =? "missing")%string then answer vctx (deny ReasonMissingTokenOrSign)
    else if (powStatus =? "unverifiable")%string then
      _ ← emit (Log "error" "X-Real-IP is empty; ip_bound token cannot be verified. Check that Nginx sets proxy_set_header X-Real-IP on the auth_request location"
                  [("path", FString (rqPath q))]);
      answer vctx (denyStatus 500 ReasonMissingRealIP (rqPowMode q))
    else answer vctx (denyMode (powStatusToReason powStatus) (rqPowMode q))
  else mret None.

Definition runRiskEngine (vctx : verifyCtx) (q : RequestContext (counters C)) (powStatus : string)
  : M (option AuthResult) :=
  match riskEngine s with
  | None => mret None
  | Some eng =>
      ev ← evaluate eng q;
      match ev with
      | Some (Ok r) =>
          _ ← bump_counters q;
          _ ← (if hasMetrics s
               then emit (MRiskDecision (dTarget (resDecision r)) (dReason (resDecision r))) else mret tt);
          apply_decision vctx q powStatus (resDecision r) (resTrace r)
      | _ =>
          _ ← emit (Log "warn" "risk engine evaluate failed" []);
          mret None
      end
  end.

Definition pow_disabled_result : AuthResult := allowDecision ReasonPowDisabled "" DecisionPowDisabled.

(** The request as the rules see it. *)
Definition risk_request (req : AuthRequest) (hasToken hasSign : bool) (powStatus powMode : string)
  (protected : bool) : RequestContext (counters C) :=
  MkRequest (OriginalURI req) (OriginalMethod req) (OriginalArgs req) (RealIP req) (UserAgent req)
    hasToken hasSign powStatus powMode protected
    (isRangeRequest (OriginalArgs req) (OriginalMethod req) (OriginalRange req)) None.

Definition record_and_return (vctx : verifyCtx) (res : AuthResult) : M AuthResult :=
  _ ← recordResult vctx res; mret res.

Definition verifyWithoutPow (vctx : verifyCtx) (req : AuthRequest) (protected : bool) : M AuthResult :=
  match riskEngine s with
  | Some _ =>
      handled ← runRiskEngine vctx (risk_request req false false "missing" "" protected) "missing";
      match handled with
      | Some res => mret res
      | None => record_and_return vctx pow_disabled_result
      end
  | None => record_and_return vctx pow_disabled_result
  end.

(** [Verify] from the token on, inside the pending slot if one was taken. *)
Definition verify_token (vctx : verifyCtx) (req : AuthRequest) (protected : bool) : M AuthResult :=
  let '(tokenRaw, sign) := extractTokenAndSign (OriginalArgs req) in
  let vctx := MkVerifyCtx (vcReq vctx) tokenRaw sign (vcStart vctx) (vcLogFields vctx) (vcSignID vctx)
                (vcUses vctx) (vcMaxUses vctx) (vcProtected vctx) (vcPayload vctx) in
  if negb powEnabled then verifyWithoutPow vctx req protected
  else
    let hasToken := negb (tokenRaw =? "")%string in
    let hasSign := negb (sign =? "")%string in
    '(powStatus, powMode) ← (if hasToken && hasSign
                             then classifyPoW tokenRaw sign (OriginalURI req) (RealIP req)
                             else mret ("missing", "")%string);
    payload ← get_token;
    let vctx := MkVerifyCtx (vcReq vctx) tokenRaw sign (vcStart vctx) (vcLogFields vctx) (vcSignID vctx)
                  (vcUses vctx) (vcMaxUses vctx) (vcProtected vctx) (bool_decide (is_Some payload)) in
    handled ← runRiskEngine vctx (risk_request req hasToken hasSign powStatus powMode protected) powStatus;
    match handled with
    | Some res => mret res
    | None =>
        if negb (bool_decide (is_Some (riskEngine s))) && negb protected then
          record_and_return vctx (allowDecision ReasonNotProtected "" DecisionNotProtected)
        else
          res ← verifyPoWOnly req tokenRaw sign;
          record_and_return vctx res
    end.

Definition request_fields (req : AuthRequest) : list field :=
  [("path", FString (truncateForLog (OriginalURI req) maxLoggedFieldLen));
   ("ip", FString (maybeHashIP (RealIP req)));
   ("method", FString (truncateForLog (OriginalMethod req) 16));
   ("user_agent", FString (truncateForLog (UserAgent req) maxLoggedFieldLen))].

Definition Verify (req : AuthRequest) : M AuthResult :=
  _ ← set_token None;
  start ← clock_now;
  let protected := svMatcher s (OriginalURI req) in
  let vctx := MkVerifyCtx req "" "" start (request_fields req) "" 0 0 (Some protected) false in
  if bypassAllEffective then record_and_return vctx (allowDecision ReasonBypassAll "" DecisionBypass)
  else if (OriginalURI req =? "")%string then
    record_and_return vctx (denyStatus 500 ReasonMissingHeaders "")
  else
    let rc := cRiskControl (cfg s) in
    match (if protected && rcEnabled rc && enabled_by_default (pdEnabled (rcPending rc)) then pendingBlocker s
           else None) with
    | None => verify_token vctx req protected
    | Some l =>
        hb ← with_pending (A := handle * bool) (fun now b =>
          let '(h, blocked, b) := Enter l now (RealIP req) b in ((h, blocked), b));
        let '(h, blocked) := (hb : handle * bool) in
        if blocked then record_and_return vctx (denyStatus 429 ReasonIPPendingBlocked "")
        else
          res ← verify_token vctx req protected;
          _ ← with_pending (A := unit) (fun now b => let '(_, b) := call_release now h b in (tt, b));
          mret res
    end.

End Methods.

End Verification.
