(* ===== verification/App.v ===== *)
(** * Assembly and housekeeping ([internal/app])

    The matchers built from the protection settings, and one turn of the
    cleanup loop.  The turn runs on the service's [world], whose usage store is
    the one the loop shares with the request handlers. *)

From S2P Require Import Prelude GoStrings GoTime Matcher Storage Config RiskMatcher RiskCounter.
From S2P Require Import Pending Auth.

Section Matchers.
Context `{Unicode, Regexp}.

(** The patterns that do not compile, and the setting they are in. *)
Inductive matcher_error :=
  | BadProtectedPaths (ps : list string)
  | BadExcludedPaths (ps : list string).

Definition buildProtectedMatcher (cfg : Config) : result matcher_error Matcher :=
  let ext := ExtensionMatcher_ShouldProtect (NewExtensionMatcher (ProtectedExtensions (cProtection cfg))) in
  match ProtectedPaths (cProtection cfg) with
  | [] => Ok ext
  | paths =>
      match NewRegexMatcher paths with
      | Err ps => Err (BadProtectedPaths ps)
      | Ok regex => Ok (Union_ShouldProtect ext (RegexMatcher_ShouldProtect regex))
      end
  end.

(** [None] is the nil matcher. *)
Definition buildExcludedMatcher (cfg : Config) : result matcher_error (option Matcher) :=
  match ExcludedPaths (cProtection cfg) with
  | [] => Ok None
  | paths =>
      match NewRegexMatcher paths with
      | Err ps => Err (BadExcludedPaths ps)
      | Ok regex => Ok (Some (RegexMatcher_ShouldProtect regex))
      end
  end.

(** The part of [build] that makes the service's matcher. *)
Definition build_matcher (cfg : Config) : result matcher_error Matcher :=
  match buildProtectedMatcher cfg with
  | Err e => Err e
  | Ok p =>
      match buildExcludedMatcher cfg with
      | Err e => Err e
      | Ok e => Ok (Composite_ShouldProtect (Some (NewComposite (Some p) e)))
      end
  end.

(** A pattern of the list matches the path. *)
Definition some_pattern (ps : list string) (path : string) : Prop :=
  exists p re, p ∈ ps /\ p <> ""%string /\ re_compile p = Some re /\ re_match re path = true.

Definition some_extension (es : list string) (path : string) : Prop :=
  exists e d stem, e ∈ es /\ normal_ext e = Some d /\ ToLower path = (stem +:+ d)%string.

Lemma some_pattern_nil path : some_pattern [] path <-> False.
Proof. split; [|done]. intros (p & re & Hp & _). by apply elem_of_nil in Hp. Qed.

Lemma buildProtected_spec cfg :
  match buildProtectedMatcher cfg with
  | Err _ => Exists bad_pattern (ProtectedPaths (cProtection cfg))
  | Ok m => Forall (fun p => ~ bad_pattern p) (ProtectedPaths (cProtection cfg)) /\
      forall path, m path = true <-> path <> ""%string /\
      (some_extension (ProtectedExtensions (cProtection cfg)) path \/
       some_pattern (ProtectedPaths (cProtection cfg)) path)
  end.
Proof.
  unfold buildProtectedMatcher.
  destruct (ProtectedPaths (cProtection cfg)) as [|p0 ps] eqn:Ep.
  - split; [apply Forall_nil_2|]. intros path. rewrite ExtensionMatcher_iff, some_pattern_nil. unfold some_extension. tauto.
  - pose proof (NewRegexMatcher_iff (p0 :: ps)) as Hr. destruct (NewRegexMatcher (p0 :: ps)) as [m|errs].
    + destruct Hr as [Hg Hr]. split; [exact Hg|]. intros path. unfold Union_ShouldProtect.
      rewrite orb_true_iff, ExtensionMatcher_iff, Hr. unfold some_extension, some_pattern. tauto.
    + destruct Hr as [Hne Hr]. destruct errs as [|e errs]; [done|].
      apply Exists_exists. exists e. apply Hr, elem_of_cons. by left.
Qed.

Lemma buildExcluded_spec cfg :
  match buildExcludedMatcher cfg with
  | Err _ => Exists bad_pattern (ExcludedPaths (cProtection cfg))
  | Ok o => Forall (fun p => ~ bad_pattern p) (ExcludedPaths (cProtection cfg)) /\
      forall path, match o with None => false | Some e => e path end = true <->
      path <> ""%string /\ some_pattern (ExcludedPaths (cProtection cfg)) path
  end.
Proof.
  unfold buildExcludedMatcher.
  destruct (ExcludedPaths (cProtection cfg)) as [|p0 ps] eqn:Ep.
  - split; [apply Forall_nil_2|]. intros path. rewrite some_pattern_nil. split; [done|tauto].
  - pose proof (NewRegexMatcher_iff (p0 :: ps)) as Hr. destruct (NewRegexMatcher (p0 :: ps)) as [m|errs].
    + exact Hr.
    + destruct Hr as [Hne Hr]. destruct errs as [|e errs]; [done|].
      apply Exists_exists. exists e. apply Hr, elem_of_cons. by left.
Qed.

(** C37: the assembled matcher: it is built exactly when every configured
    pattern compiles, and then a request path is protected exactly when its
    normal form is not empty, ends in a protected extension or matches a
    protected pattern, and matches no excluded pattern. *)
Theorem build_matcher_spec cfg :
  match build_matcher cfg with
  | Err _ => Exists bad_pattern (ProtectedPaths (cProtection cfg) ++ ExcludedPaths (cProtection cfg))
  | Ok m =>
      Forall (fun p => ~ bad_pattern p) (ProtectedPaths (cProtection cfg) ++ ExcludedPaths (cProtection cfg)) /\
      forall s, m s = true <->
      let path := NormalizePath s in
      path <> ""%string /\
      (some_extension (ProtectedExtensions (cProtection cfg)) path \/
       some_pattern (ProtectedPaths (cProtection cfg)) path) /\
      ~ some_pattern (ExcludedPaths (cProtection cfg)) path
  end.
Proof.
  unfold build_matcher.
  pose proof (buildProtected_spec cfg) as Hp.
  destruct (buildProtectedMatcher cfg) as [p|e]; [|apply Exists_app; by left].
  pose proof (buildExcluded_spec cfg) as He.
  destruct (buildExcludedMatcher cfg) as [o|e]; [|apply Exists_app; by right].
  destruct Hp as [Hgp Hp], He as [Hge He]. split; [by apply Forall_app|].
  intros s. cbv zeta. specialize (Hp (NormalizePath s)). specialize (He (NormalizePath s)).
  unfold Composite_ShouldProtect. simpl. destruct (p (NormalizePath s)); simpl.
  - destruct o as [e|]; simpl in *; [destruct (e (NormalizePath s))|]; naive_solver.
  - naive_solver.
Qed.

End Matchers.

Section Cleanup.
Context {U C : Type} `{UsageStore U, CounterStore C}.
Variable clk : nat -> Z.
Variable uenv : nat -> us_env.

Notation MA := (M (U := U) (C := C)).
#[local] Existing Instances M_ret M_bind.

(** [storage.ActiveCounter] when the store has it. *)
Variable active : option (us_env -> U -> result storage_error Z).

Definition refreshActiveGauge (has_metrics : bool) : MA unit :=
  if negb has_metrics then mret tt
  else match active with
       | None => mret tt
       | Some count =>
           n ← store_call uenv (fun e s => (count e s, s));
           match n with
           | Err _ => emit (Log "warn" "count active signatures failed" [])
           | Ok n => emit (MActiveSignatures n)
           end
       end.

(** [now.Add(-grace).Unix()]. *)
Definition cleanup_threshold (grace now : Z) : Z := unix_sec (now - grace).

(** The body of the loop, run at each tick of its timer. *)
Definition cleanup_tick (has_metrics : bool) (grace : Z) : MA unit :=
  now ← clock_now clk;
  let threshold := cleanup_threshold grace now in
  r ← store_call uenv (fun e s => us_cleanup e threshold s);
  match r with
  | Err _ => emit (Log "warn" "cleanup expired failed" [])
  | Ok removed =>
      _ ← (if 0 <? removed
           then emit (Log "info" "cleanup expired records"
                        [("removed", FInt removed); ("threshold", FInt threshold)]%string)
           else mret tt);
      refreshActiveGauge has_metrics
  end.

End Cleanup.
