(* ===== verification/Garmr.v ===== *)
(** * The management command ([cmd/garmr/main.go])

    The configuration subcommands, over the standard input, an editor that may
    write anything and the store of the configuration file, and the two rule
    subcommands.  What is printed is a value; flags and layout are left out. *)

From stdpp Require Import sorting.
From S2P Require Import Prelude GoStrings GoTime Strconv Config Matcher RiskMatcher RiskEngine RiskEngineTheory.
From S2P Require Import Storage RiskCounter Pending Auth App.
From S2P Require Import ConfigValidate ConfigTheory YamlStructure ConfigLoad ConfigStore ConfigStoreTheory.
From S2P Require Import ConfigSecret ConfigSecretTheory ConfigCtl ConfigCtlTheory.

(** ** Commands ([main], [runConfig], [runRule]) *)

Inductive command :=
  | Show (rev : option Z)
  | Edit
  | Validate_file (file : string)
  | Diff_file (file : string)
  | History_list
  | Rollback (rev : Z)
  | Rule_list
  | Rule_preview (flags : list string).

(** [strconv.ParseUint(s, 10, 64)]. *)
Definition parse_uint (s : string) : option Z :=
  let l := bytes_of s in
  match l with
  | [] => None
  | _ => if forallb is_digit l && (dec_value 0 l <? two64) then Some (dec_value 0 l) else None
  end.

Definition runConfig (args : list string) : option command :=
  let '(cmd, args) := match args with [] => ("show"%string, []) | c :: args => (c, args) end in
  if (cmd =? "show")%string then
    match args with
    | [] => Some (Show None)
    | rev :: _ => rev ← parse_uint rev; Some (Show (Some rev))
    end
  else if (cmd =? "edit")%string then Some Edit
  else if (cmd =? "validate")%string then match args with [f] => Some (Validate_file f) | _ => None end
  else if (cmd =? "diff")%string then match args with [f] => Some (Diff_file f) | _ => None end
  else if (cmd =? "history")%string then Some History_list
  else if (cmd =? "rollback")%string then match args with [rev] => Rollback <$> parse_uint rev | _ => None end
  else None.

Definition runRule (args : list string) : option command :=
  let '(cmd, args) := match args with [] => ("list"%string, []) | c :: args => (c, args) end in
  if (cmd =? "list")%string then Some Rule_list
  else if (cmd =? "preview")%string then Some (Rule_preview args)
  else None.

(** The arguments after the flags; [None] ends the program with an error. *)
Definition main (args : list string) : option command :=
  match args with
  | [] => None
  | cmd :: args =>
      if (cmd =? "config")%string then runConfig args
      else if (cmd =? "rule")%string then runRule args
      else None
  end.

(** ** The terminal *)

Definition dash (v : Z) : string := if v =? 0 then "-" else format_int v.
Definition dashEmpty (v : string) : string := if (v =? "")%string then "-" else v.

Definition formatValue (sprint : value -> string) (v : value) (sensitive : bool) : string :=
  if sensitive then "(redacted)"
  else match v with
       | VNil => "-"
       | VScalar (SString text) => text
       | _ => sprint v
       end.

(** [ReadString('\n')]: up to and with the line feed, or all there is. *)
Fixpoint ReadString (l : list Z) : list Z * list Z :=
  match l with
  | [] => ([], [])
  | b :: l => if b =? 10 then ([b], l) else let '(line, rest) := ReadString l in (b :: line, rest)
  end.

Definition readLine (stdin : list Z) : option string * list Z :=
  match ReadString stdin with
  | ([], rest) => (None, rest)
  | (line, rest) => (Some (TrimSpace (of_bytes line)), rest)
  end.

(** [promptRequired]: [Some (None, _)] ends the program.  Every line is at least
    a byte long, so that [S (length stdin)] is fuel enough. *)
Fixpoint prompt (fuel : nat) (stdin : list Z) : option (option string * list Z) :=
  match fuel with
  | O => None
  | S fuel =>
      match readLine stdin with
      | (None, rest) => Some (None, rest)
      | (Some line, rest) => if (line =? "")%string then prompt fuel rest else Some (Some line, rest)
      end
  end.
Definition promptRequired (stdin : list Z) : option (option string * list Z) := prompt (S (length stdin)) stdin.

Definition currentUser (getenv : string -> string) : string :=
  let user := getenv "USER"%string in
  let user := if (user =? "")%string then getenv "USERNAME"%string else user in
  if (user =? "")%string then getenv "LOGNAME"%string else user.

Section Terminal.
Context `{Unicode}.

Definition confirm (defaultYes : bool) (stdin : list Z) : bool * list Z :=
  match readLine stdin with
  | (None, rest) => (defaultYes, rest)
  | (Some answer, rest) =>
      let answer := ToLower answer in
      if (answer =? "")%string then (defaultYes, rest)
      else ((answer =? "y")%string || (answer =? "yes")%string, rest)
  end.

Definition applyPrompt (p : Plan) (stdin : list Z) : bool * list Z :=
  if ConfirmationRequired p then
    match readLine stdin with
    | (None, rest) => (false, rest)
    | (Some phrase, rest) => if (phrase =? pnPhrase p)%string then confirm false rest else (false, rest)
    end
  else confirm false stdin.

(** ** Configuration *)

(** How a subcommand ends; with [Died] the exit status is 1. *)
Inductive death :=
  | EditorFailed
  | NoReason
  | ApplyFailed (e : ctl_error)
  | PlanFailed (e : ctl_error).
Inductive ending :=
  | Unmodified
  | GaveUp
  | NoDifference
  | Abandoned
  | Applied (rev : Z)
  | Died (why : death).

Section Manager.
Context `{MetaCodec, Regexp, MapRange}.
Variable parse : list Z -> option node.
Variable encodeYAML : node -> nat -> option (list Z).
Variable same_value : node -> node -> bool.
Variable unmarshal : list Z -> value.
Variable sprint : scalar -> string.
Variable load_bytes : list Z -> result load_error Config.
Variable works : nat -> bool.
Variable clk : nat -> Z.
(** The [n]-th run of the editor on the file, [None] when it or the reading
    fails; what [confirmToken] reads then, and the user. *)
Variable editor : nat -> list Z -> option (list Z).
Variable random : nat -> option (list Z).
Variable time : nat -> Z.
Variable user : string.

(** After the prompts: the reason, and the application. *)
Definition finish_plan (candidate : list Z) (p : Plan) (action : string) (target : Z) (stdin : list Z) (s : Store) (w : io)
  : option (ending * list Z * Store * io) :=
  let '(go, stdin) := applyPrompt p stdin in
  if negb go then Some (Abandoned, stdin, s, w)
  else
    match promptRequired stdin with
    | None => None
    | Some (None, stdin) => Some (Died NoReason, stdin, s, w)
    | Some (Some reason, stdin) =>
        let '((r, s), w) := apply works clk candidate p reason user action target s w in
        Some (match r with Ok a => Applied (arRevision a) | Err e => Died (ApplyFailed e) end, stdin, s, w)
    end.

(** The loop of [configEdit], [n] the runs of the editor so far, [content] the
    temporary file. *)
Fixpoint edit_loop (fuel : nat) (redacted : list Z) (n : nat) (content stdin : list Z) (s : Store) (w : io)
  : option (ending * list Z * Store * io) :=
  match fuel with
  | O => None
  | S fuel =>
      match editor n content with
      | None => Some (Died EditorFailed, stdin, s, w)
      | Some edited =>
          if bool_decide (edited = redacted) then Some (Unmodified, stdin, s, w)
          else
            let again (stdin : list Z) : option (ending * list Z * Store * io) :=
              let '(yes, stdin) := confirm true stdin in
              if yes : bool then edit_loop fuel redacted (S n) edited stdin s w else Some (GaveUp, stdin, s, w) in
            match ValidateYAML load_bytes edited with
            | Err _ => again stdin
            | Ok (_ :: _) => again stdin
            | Ok [] =>
                match MergeSecrets parse encodeYAML same_value edited s with
                | Err _ => again stdin
                | Ok candidate =>
                    let p := plan unmarshal sprint s candidate "apply" (random n) (time n) in
                    match pnChanges p with
                    | [] => Some (NoDifference, stdin, s, w)
                    | _ => finish_plan candidate p "apply" 0 stdin s w
                    end
                end
            end
      end
  end.

Definition configEdit (fuel : nat) (stdin : list Z) (s : Store) (w : io) : option (ending * list Z * Store * io) :=
  let redacted := (Redacted parse encodeYAML s).2 in
  edit_loop fuel redacted 0 redacted stdin s w.

Definition configRollback (rev : Z) (stdin : list Z) (s : Store) (w : io) : option (ending * list Z * Store * io) :=
  let '(r, w) := PlanRollback unmarshal sprint load_bytes works rev (random 0%nat) (time 0%nat) s w in
  match r with
  | Err e => Some (Died (PlanFailed e), stdin, s, w)
  | Ok (p, target) =>
      match pnChanges p with
      | [] => Some (NoDifference, stdin, s, w)
      | _ => finish_plan (rvRaw target) p "rollback" rev stdin s w
      end
  end.

(** [configDiff]: the plan it prints. *)
Definition configDiff (raw : list Z) (s : Store) : result merge_error Plan :=
  candidate <-! MergeSecrets parse encodeYAML same_value raw s ;;
  Ok (plan unmarshal sprint s candidate "apply" (random 0%nat) (time 0%nat)).

(** [configValidate]: whether the exit status is 0. *)
Definition configValidate (raw : list Z) : bool :=
  match ValidateYAML load_bytes raw with Ok [] => true | _ => false end.

(** [configShow]: the active configuration, or a revision, without secrets. *)
Definition configShow (rev : option Z) (s : Store) : IO (result store_error (list Z)) :=
  match rev with
  | None => mret (Ok (Redacted parse encodeYAML s).2)
  | Some rev =>
      item <-? HistoryGet works rev s ;;
      mret (Ok (RedactYAML parse encodeYAML (rvRaw item)))
  end.

(** A row of [configHistory], without the time. *)
Definition history_row (m : RevisionMeta) : list string :=
  let reason := if 0 <? rmRollbackTarget m
                then "rollback -> #" +:+ format_int (rmRollbackTarget m) +:+ " " +:+ rmReason m else rmReason m in
  ["#" +:+ format_int (rmRevision m); "#" +:+ dash (rmParentRevision m); rmAction m; format_int (rmChanged m);
   rmDanger m; dashEmpty (rmActor m); reason].

Definition configHistory (s : Store) : IO (result store_error (list (list string))) :=
  items <-? History works 50 s ;;
  mret (Ok (map history_row items)).

End Manager.

(** A row of [printPlan]. *)
Definition plan_row (sprint : value -> string) (c : DiffChange) : list string :=
  [dcPath c; dcKind c; formatValue sprint (dcBefore c) (dcSensitive c) +:+ " -> "
     +:+ formatValue sprint (dcAfter c) (dcSensitive c)].

Definition printPlan (sprint : value -> string) (p : Plan) : Z * nat * string * list (list string) :=
  (pnBaseRevision p, length (pnChanges p), pnDanger p, map (plan_row sprint) (pnChanges p)).

(** ** Rules *)

Section Rules.
Context `{Regexp, MapRange}.

Definition buildMatcher (cfg : Config) : result matcher_error Matcher :=
  let ext := ExtensionMatcher_ShouldProtect (NewExtensionMatcher (ProtectedExtensions (cProtection cfg))) in
  protected <-! match ProtectedPaths (cProtection cfg) with
                | [] => Ok ext
                | paths =>
                    match NewRegexMatcher paths with
                    | Err ps => Err (BadProtectedPaths ps)
                    | Ok regex => Ok (Union_ShouldProtect ext (RegexMatcher_ShouldProtect regex))
                    end
                end ;;
  excluded <-! match ExcludedPaths (cProtection cfg) with
               | [] => Ok None
               | paths =>
                   match NewRegexMatcher paths with
                   | Err ps => Err (BadExcludedPaths ps)
                   | Ok regex => Ok (Some (RegexMatcher_ShouldProtect regex))
                   end
               end ;;
  Ok (Composite_ShouldProtect (Some (NewComposite (Some protected) excluded))).

(** The rows of [ruleList], by chain name. *)
Definition rule_row (i : nat) (rule : RuleConfig) : list string :=
  let target := rlTarget rule in
  let target := if negb (rlChain rule =? "")%string then target +:+ " -> " +:+ rlChain rule else target in
  [format_int (Z.of_nat i + 1); rlName rule; target; dashEmpty (rlReason rule)].

Definition ruleList (cfg : Config) : list (string * string * list (list string)) :=
  let chains := rcChains (cRiskControl cfg) in
  map (fun name =>
         let chain := default (MkChain (MkPolicy "" 0 "" "") []) (chains !! name) in
         (name, plTarget (chPolicy chain), imap rule_row (chRules chain)))
    (merge_sort String.le (map_range 0 chains).*1).

Record preview := MkPreview {
  pvTarget : string; pvStatus : Z; pvChain : string; pvRule : string; pvReason : string;
  pvLimit : option string; pvTrace : list (bool * string * string);
}.

Inductive preview_error :=
  | BuildEngine (e : engine_error)
  | BuildMatcher (e : matcher_error)
  | EvaluateFailed (e : engine_error).

Definition preview_of (r : Result) : preview :=
  let d := resDecision r in
  MkPreview (dTarget d) (if dStatusCode d =? 0 then 200 else dStatusCode d) (dChain d) (dashEmpty (dRuleName d))
    (dReason d)
    (if negb (dLimitRate d =? "")%string && negb (dLimitRate d =? "0")%string then Some (dLimitRate d) else None)
    (map (fun st => (tsMatched st, tsChain st, tsRule st)) (resTrace r)).

Definition preview_request (m : Matcher) (path method ip powStatus powMode : string) : RequestContext unit :=
  MkRequest path method "" ip "" false false powStatus powMode (m path) false None.

(** [rulePreview] on a configuration that loaded; [None] never happens. *)
Definition rulePreview (cfg : Config) (path method ip powStatus powMode : string)
  : option (result preview_error preview) :=
  match FromConfig (cRiskControl cfg) with
  | Err e => Some (Err (BuildEngine e))
  | Ok engine =>
      match buildMatcher cfg with
      | Err e => Some (Err (BuildMatcher e))
      | Ok m =>
          match Evaluate engine (preview_request m path method ip powStatus powMode) tt with
          | None => None
          | Some (Err e, _) => Some (Err (EvaluateFailed e))
          | Some (Ok r, _) => Some (Ok (preview_of r))
          end
      end
  end.

End Rules.
End Terminal.
