(* ===== verification/GarmrTheory.v ===== *)
(** * The management command changes nothing unasked

    A subcommand that ends without saying so leaves the file as it was; an edit
    or a roll back that is applied was validated, shown and confirmed. *)

From S2P Require Import Prelude GoStrings GoTime Strconv Config Matcher RiskMatcher RiskEngine RiskEngineTheory.
From S2P Require Import Storage RiskCounter Pending Auth App.
From S2P Require Import ConfigValidate ConfigTheory YamlStructure ConfigLoad ConfigStore ConfigStoreTheory.
From S2P Require Import ConfigSecret ConfigSecretTheory ConfigCtl ConfigCtlTheory Garmr.

(** ** Lines *)

Lemma ReadString_app l : let '(line, rest) := ReadString l in l = line ++ rest /\ (line = [] -> l = []).
Proof.
  induction l as [|b l IH]; simpl; [done|]. destruct (b =? 10); [done|].
  destruct (ReadString l) as [line rest]. destruct IH as [-> _]. by split.
Qed.

(** A line is a byte at least. *)
Lemma readLine_some stdin line rest :
  readLine stdin = (Some line, rest) -> (length rest < length stdin)%nat /\ exists l, stdin = l ++ rest.
Proof.
  unfold readLine. pose proof (ReadString_app stdin) as Hr. destruct (ReadString stdin) as [[|b l] r]; [done|].
  intros [= _ <-]. destruct Hr as [-> _]. rewrite length_app. simpl. split; [lia|by exists (b :: l)].
Qed.

Lemma readLine_none stdin rest : readLine stdin = (None, rest) -> stdin = [] /\ rest = [].
Proof.
  unfold readLine. pose proof (ReadString_app stdin) as Hr. destruct (ReadString stdin) as [[|b l] r]; [|done].
  destruct Hr as [E Hn]. rewrite (Hn eq_refl) in E. intros [= <-]. by rewrite (Hn eq_refl).
Qed.

Lemma readLine_rest stdin r rest : readLine stdin = (r, rest) -> exists l, stdin = l ++ rest.
Proof.
  destruct r; [intros [_ Hl]%readLine_some; done|]. intros [-> ->]%readLine_none. by exists [].
Qed.

(** The line was read from the input, blanks trimmed. *)
Definition typed (line : string) (stdin : list Z) : Prop :=
  exists before after rest, stdin = before ++ after /\ readLine after = (Some line, rest).

Lemma typed_here line stdin rest : readLine stdin = (Some line, rest) -> typed line stdin.
Proof. intros Hr. by exists [], stdin, rest. Qed.

Lemma typed_later line l stdin : typed line stdin -> typed line (l ++ stdin).
Proof. intros (b & a & r & -> & Hr). exists (l ++ b), a, r. by rewrite app_assoc. Qed.

(** The prompt ends: with a line that is not empty, or at the end of the input. *)
Lemma promptRequired_spec stdin :
  match promptRequired stdin with
  | None => False
  | Some (None, rest) => rest = []
  | Some (Some line, rest) => typed line stdin /\ line <> ""%string
  end.
Proof.
  unfold promptRequired. assert (length stdin < S (length stdin))%nat as Hf by lia. revert Hf.
  generalize (S (length stdin)) as fuel. intros fuel; revert stdin.
  induction fuel as [|fuel IH]; intros stdin Hf; [lia|]. simpl. destruct (readLine stdin) as [[line|] rest] eqn:E.
  - destruct (String.eqb_spec line "") as [->|Hne]; [|split; [by eapply typed_here|done]].
    apply readLine_some in E as (Hlt & l & ->). specialize (IH rest ltac:(lia)).
    destruct (prompt fuel rest) as [[[line|] r]|]; [|done|done]. destruct IH. split; [by apply typed_later|done].
  - by apply readLine_none in E as [_ ->].
Qed.

Section Theory.
Context `{Unicode}.

Lemma confirm_rest b stdin yes rest : confirm b stdin = (yes, rest) -> exists l, stdin = l ++ rest.
Proof.
  unfold confirm. destruct (readLine stdin) as [r rest'] eqn:E. apply readLine_rest in E as [l ->].
  destruct r as [a|]; [|intros [= _ <-]; by exists l]. destruct (ToLower a =? "")%string; intros [= _ <-]; by exists l.
Qed.

(** The next line says yes; none, an empty one or any other is a no. *)
Definition says_yes (stdin rest : list Z) : Prop := exists answer,
  readLine stdin = (Some answer, rest) /\ (ToLower answer = "y"%string \/ ToLower answer = "yes"%string).

Lemma confirm_yes stdin rest : confirm false stdin = (true, rest) -> says_yes stdin rest.
Proof.
  unfold confirm, says_yes. destruct (readLine stdin) as [[answer|] r]; [|done]. case_if; [done|]. intros [= Ha <-].
  exists answer. split; [done|]. apply orb_true_iff in Ha as [->%String.eqb_eq| ->%String.eqb_eq]; auto.
Qed.

(** What the operator types for [p] to go ahead: its phrase, when it has one, then
    yes, then the reason, in this order and without lines in between but empty
    ones before the reason. *)
Definition approves (p : Plan) (reason : string) (stdin : list Z) : Prop := exists before asked yes mid rest,
  stdin = before ++ asked /\
  (if ConfirmationRequired p then readLine asked = (Some (pnPhrase p), yes) else yes = asked) /\
  says_yes yes mid /\ promptRequired mid = Some (Some reason, rest).

Lemma approves_later p reason l stdin : approves p reason stdin -> approves p reason (l ++ stdin).
Proof. intros (b & a & y & m & r & -> & H1). exists (l ++ b), a, y, m, r. by rewrite app_assoc. Qed.

(** A plan goes ahead only so. *)
Lemma applyPrompt_spec p stdin mid reason rest :
  applyPrompt p stdin = (true, mid) -> promptRequired mid = Some (Some reason, rest) -> approves p reason stdin.
Proof.
  unfold applyPrompt, approves. intros Ha Hr. destruct (ConfirmationRequired p).
  - destruct (readLine stdin) as [[phrase|] yes] eqn:E; [|done].
    destruct (String.eqb_spec phrase (pnPhrase p)) as [->|]; [|done]. exists [], stdin, yes, mid, rest.
    auto using confirm_yes.
  - exists [], stdin, stdin, mid, rest. auto using confirm_yes.
Qed.

Section Manager.
Context `{MetaCodec, Regexp, MapRange}.
Hypothesis codec_ok : forall m js, meta_marshal m = Some js -> meta_unmarshal js = Some m.
Variable parse : list Z -> option node.
Variable encodeYAML : node -> nat -> option (list Z).
Variable same_value : node -> node -> bool.
Variable unmarshal : list Z -> value.
Variable sprint : scalar -> string.
Variable load_bytes : list Z -> result load_error Config.
Variable works : nat -> bool.
Variable clk : nat -> Z.
Variable editor : nat -> list Z -> option (list Z).
Variable random : nat -> option (list Z).
Variable time : nat -> Z.
Variable user : string.

#[local] Notation edit_loop := (edit_loop parse encodeYAML same_value unmarshal sprint load_bytes works clk editor random time user).
#[local] Notation finish_plan := (finish_plan works clk user).
#[local] Notation ValidateYAML := (ValidateYAML load_bytes).
#[local] Notation MergeSecrets := (MergeSecrets parse encodeYAML same_value).
#[local] Notation plan := (plan unmarshal sprint).

(** The store and the file are as they were. *)
Definition untouched (s : Store) (w : io) (s' : Store) (w' : io) : Prop :=
  s' = s /\ file (on_disk w') = file (on_disk w) /\ holds s (on_disk w').

(** What an end reached from the input [stdin] means for the plan that was shown. *)
Definition ended (s : Store) (w : io) (stdin : list Z) (shown : list Z -> Plan -> string -> Z -> Prop)
    (e : ending) (s' : Store) (w' : io) : Prop :=
  match e with
  | Applied r => exists candidate p reason action target a,
      shown candidate p action target /\ pnChanges p <> [] /\
      approves p reason stdin /\ reason <> ""%string /\
      carried_out p s (on_disk w) candidate reason user action target s (on_disk w) a s' (on_disk w') /\ arRevision a = r
  | _ => untouched s w s' w'
  end.

Lemma apply_fails new p reason actor action target s w e s' w' :
  holds s (on_disk w) -> revision s + 1 < two64 ->
  apply works clk new p reason actor action target s w = ((Err e, s'), w') -> untouched s w s' w'.
Proof.
  intros Hh Hlt. unfold apply. destruct (validateReason reason _) as [r|x]; [|by intros [= _ <- <-]].
  unfold mbind, IO_bind. set (req := MkApply _ _ _ _ _ _ _ _ _).
  pose proof (wp_Apply works clk codec_ok req s w Hh Hlt) as Hp. unfold wp in Hp.
  destruct (Apply works clk req s w) as [[[a|x] s1] w1]; [done|]. intros [= _ <- <-].
  destruct Hp as (-> & [Hf _] & Hd & _). done.
Qed.

Lemma finish_plan_ended candidate raw paction rnd t action target stdin s w e rest s' w'
    (p := plan s raw paction rnd t) :
  holds s (on_disk w) -> revision s + 1 < two64 -> pnChanges p <> [] ->
  finish_plan candidate p action target stdin s w = Some (e, rest, s', w') ->
  ended s w stdin (fun c q a tg => c = candidate /\ q = p /\ a = action /\ tg = target) e s' w'.
Proof.
  intros Hh Hlt Hc. unfold Garmr.finish_plan. destruct (applyPrompt p stdin) as [go stdin1] eqn:Ep.
  destruct go; cbn [negb]; [|by intros [= <- _ <- <-]].
  pose proof (applyPrompt_spec p stdin stdin1) as Happ.
  pose proof (promptRequired_spec stdin1) as Hr. destruct (promptRequired stdin1) as [[[reason|] stdin2]|]; [| |done].
  2:{ by intros [= <- _ <- <-]. }
  destruct (apply works clk candidate p reason user action target s w) as [[[a|x] s1] w1] eqn:Ea; intros [= <- _ <- <-].
  - destruct Hr as [_ Hne]. exists candidate, p, reason, action, target, a. split; [done|].
    split_and!; [done|by eapply Happ|done| |done].
    eapply (planned_carried_out unmarshal sprint codec_ok works clk s (on_disk w) raw paction rnd t s 0);
        [done|apply as_nil|lia|exact Ea].
  - by eapply apply_fails.
Qed.

Lemma ended_later s w l stdin shown e s' w' : ended s w stdin shown e s' w' -> ended s w (l ++ stdin) shown e s' w'.
Proof.
  destruct e; simpl; try done. intros (c & p & r & ac & tg & a & Hs & Hc & Hp & Hrest).
  exists c, p, r, ac, tg, a. split_and!; try done; try tauto. by apply approves_later.
Qed.

Lemma ended_mono s w stdin (P Q : list Z -> Plan -> string -> Z -> Prop) e s' w' :
  (forall c p a t, P c p a t -> Q c p a t) -> ended s w stdin P e s' w' -> ended s w stdin Q e s' w'.
Proof.
  intros Hpq. destruct e; simpl; try done. intros (c & p & r & ac & tg & a & Hs & Hrest).
  exists c, p, r, ac, tg, a. split; [by apply Hpq|done].
Qed.

(** The candidate is the merge of an edit that validates, and the plan is
    against the active configuration. *)
Definition from_edit (s : Store) (candidate : list Z) (p : Plan) (action : string) (target : Z) : Prop :=
  action = "apply"%string /\ target = 0 /\
  exists edited n, ValidateYAML edited = Ok [] /\ MergeSecrets edited s = Ok candidate /\
    p = plan s candidate "apply" (random n) (time n).

Lemma edit_loop_ended fuel redacted n content stdin s w e rest s' w' :
  holds s (on_disk w) -> revision s + 1 < two64 ->
  edit_loop fuel redacted n content stdin s w = Some (e, rest, s', w') -> ended s w stdin (from_edit s) e s' w'.
Proof.
  intros Hh Hlt. revert n content stdin; induction fuel as [|fuel IH]; intros n content stdin; [done|]. cbn [Garmr.edit_loop].
  destruct (editor n content) as [edited|]; [|by intros [= <- _ <- <-]].
  case_bool_decide; [by intros [= <- _ <- <-]|]. cbv zeta.
  assert (forall st, (let '(yes, st) := confirm true st in
      if yes : bool then edit_loop fuel redacted (S n) edited st s w else Some (GaveUp, st, s, w)) = Some (e, rest, s', w') ->
      ended s w st (from_edit s) e s' w') as Hagain.
  { intros st. destruct (confirm true st) as [yes st'] eqn:Ec. apply confirm_rest in Ec as [l ->].
    destruct yes; [intros Hl; by eapply ended_later, IH|by intros [= <- _ <- <-]]. }
  destruct (ValidateYAML edited) as [[|q ps]|x] eqn:Ev; [|apply Hagain|apply Hagain].
  destruct (MergeSecrets edited s) as [candidate|x] eqn:Em; [|apply Hagain].
  destruct (pnChanges _) eqn:Ec; [by intros [= <- _ <- <-]|]. intros Hf.
  eapply ended_mono; [|eapply finish_plan_ended; [done|done|by rewrite Ec|exact Hf]].
  intros c p' a t (-> & -> & -> & ->). split_and!; [done|done|]. by exists edited, n.
Qed.

(** The bytes of the revision, which still validate. *)
Definition from_history (s : Store) (rev : Z) (data candidate : list Z) (p : Plan) (action : string) (target : Z) : Prop :=
  action = "rollback"%string /\ target = rev /\ candidate = data /\ ValidateYAML data = Ok [] /\
  p = plan s data "rollback" (random 0%nat) (time 0%nat) /\ (pnChanges p <> [] -> ConfirmationRequired p = true).

Lemma rollback_confirmed s raw rnd t (p := plan s raw "rollback" rnd t) :
  pnChanges p <> [] -> ConfirmationRequired p = true.
Proof.
  unfold p, ConfigCtl.plan. destruct (Current s) as [b r]. destruct (Diff unmarshal sprint r raw) as [[[|c l] d] x]; [done|].
  intros _. unfold ConfirmationRequired. cbn [pnPhrase]. rewrite orb_true_r. apply negb_true_iff, String.eqb_neq, phrase_typed.
Qed.

Lemma rollback_ended meta data stdin s w e rest s' w' :
  (forall k, works k = true) -> holds s (on_disk w) -> revision s + 1 < two64 ->
  0 < rmRevision meta -> recorded meta data (on_disk w) ->
  configRollback unmarshal sprint load_bytes works clk random time user (rmRevision meta) stdin s w = Some (e, rest, s', w') ->
  ended s w stdin (from_history s (rmRevision meta) data) e s' w'.
Proof.
  intros Hw Hh Hlt Hr Hrec. unfold configRollback, PlanRollback, mbind, IO_bind.
  pose proof (wp_HistoryGet works Hw meta data s w (ho_managed _ _ Hh) ltac:(lia) Hrec) as Hg.
  pose proof (quiet_HistoryGet works (rmRevision meta) s w) as [Hd Hl]. unfold wp in Hg.
  destruct (HistoryGet works (rmRevision meta) s w) as [r w1]. simpl in Hg, Hd, Hl. subst r. cbn [rvRaw].
  assert (untouched s w s w1) as Hsame by (split_and!; [done|by rewrite Hd|by rewrite Hd]).
  destruct (ValidateYAML data) as [[|q ps]|x] eqn:Ev; [|by intros [= <- _ <- <-]; apply Hsame..].
  unfold mret, IO_ret. destruct (pnChanges _) eqn:Ec; [by intros [= <- _ <- <-]; apply Hsame|]. intros Hf.
  eapply finish_plan_ended in Hf; [|by rewrite Hd|done|by rewrite Ec].
  apply (ended_mono s w1 stdin _ (from_history s (rmRevision meta) data)) in Hf.
  2:{ intros c p a t (-> & -> & -> & ->). split_and!; try done. apply rollback_confirmed. }
  unfold ended, untouched in *. by rewrite Hd in Hf.
Qed.

(** C21: Whatever the editor writes and the operator types, an edit that does not
    end with [Applied] leaves the store and the file alone; one that does has
    replaced the file by the merge of a text that validates, after a plan with
    changes against the active configuration, and after the operator typed the
    phrase of the plan when it has one, then yes, then a reason ([approves]).  So
    has a roll back, to the bytes of a revision that still validates, and never
    without a phrase. *)
Theorem nothing_unasked fuel meta data stdin s w e rest s' w' :
  holds s (on_disk w) -> revision s + 1 < two64 ->
  (configEdit parse encodeYAML same_value unmarshal sprint load_bytes works clk editor random time user fuel stdin s w =
     Some (e, rest, s', w') -> ended s w stdin (from_edit s) e s' w') /\
  ((forall k, works k = true) -> 0 < rmRevision meta -> recorded meta data (on_disk w) ->
   configRollback unmarshal sprint load_bytes works clk random time user (rmRevision meta) stdin s w =
     Some (e, rest, s', w') -> ended s w stdin (from_history s (rmRevision meta) data) e s' w').
Proof.
  intros Hh Hlt. split; [by apply edit_loop_ended|]. intros Hw Hr Hrec. by apply rollback_ended.
Qed.

(** At the end of the input every question is answered yes: an editor that is not
    a terminal and leaves a text that does not validate runs for ever. *)
Lemma edit_spins fuel redacted n content s w :
  (forall n c, exists c', editor n c = Some c' /\ c' <> redacted /\ ValidateYAML c' <> Ok []) ->
  edit_loop fuel redacted n content [] s w = None.
Proof.
  intros He. revert n content; induction fuel as [|fuel IH]; intros n content; [done|]. cbn [Garmr.edit_loop].
  destruct (He n content) as (c' & -> & Hne & Hv). rewrite bool_decide_eq_false_2 by done. cbv zeta.
  change (confirm true []) with (true, @nil Z). cbv iota beta.
  destruct (ValidateYAML c') as [[|q ps]|x]; [done|apply IH|apply IH].
Qed.

End Manager.

(** ** Rules *)

Section Rules.
Context `{Regexp, MapRange}.

(** The preview classifies paths with the matcher of the service. *)
Lemma buildMatcher_eq cfg : buildMatcher cfg = build_matcher cfg.
Proof.
  unfold buildMatcher, build_matcher, buildProtectedMatcher, buildExcludedMatcher.
  destruct (ProtectedPaths (cProtection cfg)) as [|p ps]; [|destruct (NewRegexMatcher (p :: ps)); [|done]];
    (destruct (ExcludedPaths (cProtection cfg)) as [|q qs]; [done|by destruct (NewRegexMatcher (q :: qs))]).
Qed.

(** The preview ends on every configuration. *)
Lemma rulePreview_total cfg path method ip powStatus powMode :
  rulePreview cfg path method ip powStatus powMode <> None.
Proof.
  unfold rulePreview. destruct (FromConfig _) as [e|]; [|done]. destruct (buildMatcher cfg) as [m|]; [|done].
  unfold Evaluate. pose proof (Evaluate_runs e (preview_request m path method ip powStatus powMode) "INPUT" tt) as Ht.
  by destruct (EvaluateWithEntry _ _ _ _) as [[[d|x]|] st].
Qed.

End Rules.
End Theory.

(** ** Sessions *)

Module GarmrSample.
Import StoreSample.
#[local] Existing Instances ascii_unicode literal_regexp key_order codec.

Notation scalar := SecretSample.scalar.
Notation mapping := SecretSample.mapping.

(** A configuration kept in postgres: a document is written as the list of its
    scalars, a line each, and loaded by the line after [dsn]. *)
Definition doc (listen dsn : string) : node :=
  SecretSample.document (mapping
    [(scalar "server", mapping [(scalar "listen", scalar listen)]);
     (scalar "storage", mapping [(scalar "postgres", mapping [(scalar "dsn", scalar dsn)])])]).

Fixpoint lines_of (n : node) : list Z :=
  let 'MkNode k _ v _ _ _ _ content := n in
  (match k with ScalarNode => bytes_of v ++ [10] | _ => [] end) ++ flat_map lines_of content.
Definition encodeYAML (n : node) (_ : nat) : option (list Z) := Some (lines_of n).

Definition field (n : nat) (raw : list Z) : string := of_bytes (nth n (split_lines raw) []).
Definition parse (raw : list Z) : option node := Some (doc (field 2 raw) (field 6 raw)).
Definition unmarshal (raw : list Z) : value :=
  VMap [("server", VMap [("listen", CtlSample.str (field 2 raw))]);
        ("storage", VMap [("postgres", VMap [("dsn", CtlSample.str (field 6 raw))])])].
Definition load_bytes (raw : list Z) : result load_error Config :=
  let c := LoadSample.raw_config in
  let st := cStorage c in
  Ok (MkConfig (cServer c) (cPow c) (cProtection c)
    (MkStorage "postgres" (stCounterDriver st) (MkPostgres (field 6 raw) 4 2) (stRedis st))
    (cRiskControl c) (cLogging c) (cCleanup c)).

Definition base : list Z := lines_of (doc ":80" "postgres://u:p@db/waf").
Definition cleared : list Z := lines_of (doc ":80" CLEAR).

Definition w0 : io := MkIO (MkDisk (Some base) None) 0 [].
Definition opened0 := New (fun _ => true) clk (Some "/etc/waf.yaml"%string) "/etc/waf.yaml" base true w0.
Definition s1 : Store := match opened0.1 with Ok s => s | Err _ => zero_store end.
Definition w1 : io := opened0.2.

Lemma s1_holds : holds s1 (on_disk w1).
Proof.
  pose proof (wp_New (fun _ => true) clk codec_ok (fun _ => eq_refl) marshals "/etc/waf.yaml" "/etc/waf.yaml"
    base w0) as Hn.
  destruct Hn as (s & Hs & _ & Hh & _); [by intros n b|reflexivity|vm_compute; discriminate|by intros m (b & Hb & _)|].
  change (New _ _ _ _ _ _ w0) with opened0 in *. unfold s1, w1. by rewrite Hs.
Qed.

Definition session (editor : nat -> list Z -> option (list Z)) (stdin : string) :=
  configEdit parse encodeYAML SecretSample.same_text unmarshal CtlSample.sprint load_bytes (fun _ => true) clk editor
    (fun _ => Some [1; 2]) (fun _ => 0) "root" 9 (bytes_of stdin) s1 w1.

Definition nl : string := of_bytes [10].

(** Clearing the data source: the phrase, yes, an empty line, a reason. *)
Definition clear_stdin : string := "APPLY 12" +:+ nl +:+ "y" +:+ nl +:+ nl +:+ "no database" +:+ nl.
Definition clear_it (n : nat) (c : list Z) : option (list Z) := Some cleared.

Definition ends (r : option (ending * list Z * Store * io)) : option ending :=
  match r with Some (e, _, _, _) => Some e | None => None end.

Example sessions :
  ends (session clear_it clear_stdin) = Some (Applied 2) /\
  ends (session clear_it ("APPLY 21" +:+ nl)) = Some Abandoned /\
  ends (session clear_it ("APPLY 12" +:+ nl +:+ nl)) = Some Abandoned /\
  ends (session clear_it ("APPLY 12" +:+ nl +:+ "y" +:+ nl)) = Some (Died NoReason) /\
  ends (session (fun _ c => Some c) "") = Some Unmodified.
Proof. split_and!; vm_compute; reflexivity. Qed.

Lemma nothing_unasked_witness :
  exists rest s' w', session clear_it clear_stdin = Some (Applied 2, rest, s', w') /\
    ended "root" s1 w1 (bytes_of clear_stdin)
      (from_edit parse encodeYAML SecretSample.same_text unmarshal CtlSample.sprint load_bytes (fun _ => Some [1; 2])
         (fun _ => 0) s1) (Applied 2) s' w'.
Proof.
  assert (ends (session clear_it clear_stdin) = Some (Applied 2)) as He by (vm_compute; reflexivity).
  destruct (session clear_it clear_stdin) as [[[[e rest] s'] w']|] eqn:E; [|discriminate].
  injection He as ->. exists rest, s', w'. split; [reflexivity|].
  destruct (ho_recorded _ _ s1_holds) as (meta & _ & _).
  apply (proj1 (nothing_unasked codec_ok parse encodeYAML SecretSample.same_text unmarshal CtlSample.sprint load_bytes
    (fun _ => true) clk clear_it (fun _ => Some [1; 2]) (fun _ => 0) "root" 9 meta [] (bytes_of clear_stdin)
    s1 w1 (Applied 2) rest s' w' s1_holds ltac:(vm_compute; reflexivity)) E).
Defined.

(** The text that was validated is the one with the placeholders, not the one
    that is written: clearing the data source of a configuration kept in
    postgres validates, is applied, and leaves a file that does not validate,
    with which the service does not start. *)
Theorem placeholders_validated :
  ValidateYAML load_bytes cleared = Ok [] /\
  match session clear_it clear_stdin with
  | Some (Applied _, _, s', w') =>
      file (on_disk w') = Some (ConfigStore.raw s') /\ ValidateYAML load_bytes (ConfigStore.raw s') = Ok [MissingDSN]
  | _ => False
  end.
Proof. vm_compute. auto. Qed.

(** An invalid text and no terminal: the editor is run again and again. *)
Example session_spins fuel :
  edit_loop parse encodeYAML SecretSample.same_text unmarshal CtlSample.sprint load_bytes (fun _ => true) clk
    (fun _ _ => Some []) (fun _ => None) (fun _ => 0) "root" fuel base 0 base [] s1 w1 = None.
Proof. apply edit_spins. intros n c. exists []. split; [done|]. vm_compute. split; discriminate. Qed.

End GarmrSample.
