(* ===== verification/Transport.v ===== *)
(** * The HTTP front ([internal/transport/echo/{handlers,middleware}.go])

    A request's headers are turned into an [AuthRequest], and the answer of the
    service into a status and headers.  Header maps are keyed by canonical names;
    an index out of range is an error of the handler, which the framework's
    recovery turns into a 500. *)

From S2P Require Import Prelude GoStrings GoTime Strconv Storage Config Matcher RiskMatcher RiskEngine.
From S2P Require Import RiskCounter Pending Pow Auth.

(** ** Headers ([net/http]) *)

Notation header := (gmap string (list string)).

Definition token_byte (b : Z) : bool :=
  is_digit b || is_lower b || is_upper b ||
  existsb (fun c => c =? b) (bytes_of "!#$%&'*+-.^_`|~").

(** [textproto.CanonicalMIMEHeaderKey]: the first letter and those after a hyphen
    are capitals, the others small; an invalid name is left alone. *)
Fixpoint canonical_bytes (upper : bool) (l : list Z) : list Z :=
  match l with
  | [] => []
  | b :: l =>
      let b := if upper then (if is_lower b then b - 32 else b) else (if is_upper b then b + 32 else b) in
      b :: canonical_bytes (b =? 45) l
  end.
Definition canonical_key (k : string) : string :=
  if forallb token_byte (bytes_of k) then of_bytes (canonical_bytes true (bytes_of k)) else k.

(** [Header.Get] and [Header.Set]. *)
Definition header_get (h : header) (k : string) : string :=
  match h !! canonical_key k with Some (v :: _) => v | _ => "" end.
Definition header_set (k v : string) (h : header) : header := <[canonical_key k := [v]]> h.

(** [if cond { h.Set(k, v) }]. *)
Definition set_if (cond : bool) (k v : string) (h : header) : header :=
  if cond then header_set k v h else h.

(** ** The answer ([handlers.go]) *)

Inductive panic := IndexOutOfRange.

(** The status given to [NoContent], and the headers. *)
Record response := MkResponse { rsStatus : Z; rsHeader : header }.

Definition maxTraceHeaderLen : Z := 512.

Definition trace_entry (s : TraceStep) : string :=
  tsChain s +:+ ":" +:+ tsRule s +:+ (if (tsJumpTo s =? "")%string then "" else ">" +:+ tsJumpTo s).

Definition take_bytes (n : nat) (s : string) : string := of_bytes (take n (bytes_of s)).

(** The loop of [formatRiskTrace], [b] what the builder holds. *)
Fixpoint trace_loop (b : string) (steps : list TraceStep) : string :=
  match steps with
  | [] => b
  | s :: steps =>
      if negb (tsMatched s) then trace_loop b steps
      else
        let entry := trace_entry s in
        if 0 <? len b then
          if maxTraceHeaderLen <? len b + 1 + len entry then b +:+ ",..."
          else trace_loop (b +:+ "," +:+ entry) steps
        else if maxTraceHeaderLen <? len entry then take_bytes (Z.to_nat maxTraceHeaderLen) entry +:+ ",..."
        else trace_loop (b +:+ entry) steps
  end.

Definition formatRiskTrace (steps : list TraceStep) : string :=
  match steps with [] => "" | _ => trace_loop "" steps end.

Section Front.
Context `{Unicode}.

(** The unit of a rate: its factor, and whether its letter is cut off. *)
Definition rate_unit (b : Z) : option Z :=
  if b =? 107 then Some 1024
  else if b =? 109 then Some (1024 * 1024)
  else if b =? 103 then Some (1024 * 1024 * 1024)
  else None.

Definition limitRateBytes (rate : string) : result panic string :=
  if (rate =? "")%string then Ok "0"%string
  else
    let l := bytes_of (ToLower (TrimSpace rate)) in
    match last l with
    | None => Err IndexOutOfRange
    | Some b =>
        let '(multiplier, numeric) :=
          match rate_unit b with
          | Some m => (m, take (length l - 1) l)
          | None => (1, l)
          end in
        match parse_int (of_bytes numeric) with
        | None => Ok "0"%string
        | Some value =>
            if value <? 0 then Ok "0"%string else Ok (format_int (wrap64 (value * multiplier)))
        end
    end.

Definition writeAuthResult (h : header) (res : AuthResult) : result panic response :=
  let h := set_if (negb (Mode res =? "")%string) "X-Pow-Mode" (Mode res) h in
  let h := set_if (negb (SignID res =? "")%string) "X-Pow-Sign-Id"
             (if 12 <? len (SignID res) then take_bytes 12 (SignID res) else SignID res) h in
  let h := if (0 <? Uses res) || (0 <? MaxUses res) then
             header_set "X-Pow-Max-Uses" (itoa (MaxUses res)) (header_set "X-Pow-Uses" (itoa (Uses res)) h)
           else h in
  h <-! (if (LimitRate res =? "")%string then Ok h
         else
           let h := header_set "X-Pow-Limit-Rate" (LimitRate res) h in
           bytes <-! limitRateBytes (LimitRate res) ;;
           Ok (header_set "X-Pow-Limit-Rate-Bytes" bytes h)) ;;
  let h := set_if (negb (rDecision res =? "")%string) "X-Pow-Decision" (rDecision res) h in
  let h := set_if (negb (RiskChain res =? "")%string) "X-Pow-Chain" (RiskChain res) h in
  let h := set_if (negb (RiskRule res =? "")%string) "X-Pow-Rule" (RiskRule res) h in
  let h := set_if (match RiskMarks res with [] => false | _ => true end) "X-Pow-Marks"
             (Join (RiskMarks res) ",") h in
  if Allowed res then
    let h := header_set "X-Pow-Reason" (Reason res) (header_set "X-Pow-Result" "allow" h) in
    let h := set_if (negb (DryRunOriginalError res =? "")%string) "X-Pow-Dry-Run-Original-Error"
               (DryRunOriginalError res) h in
    Ok (MkResponse 200 h)
  else
    let h := header_set "X-Pow-Result" "deny" h in
    let h := header_set "X-Pow-Error" (ErrorHeader res) h in
    let h := header_set "X-Pow-Reason" (Reason res) h in
    let t := formatRiskTrace (RiskTrace res) in
    let h := set_if (negb (t =? "")%string) "X-Pow-Trace" t h in
    Ok (MkResponse (HTTPStatus res) h).

Definition request_of (h : header) : AuthRequest := {|
  OriginalURI := header_get h "X-Original-URI";
  OriginalMethod := header_get h "X-Original-Method";
  OriginalArgs := header_get h "X-Original-Args";
  RealIP := header_get h "X-Real-IP";
  UserAgent := header_get h "User-Agent";
  OriginalRange := header_get h "X-Original-Range";
|}.

(** [verifyPow]: [Verify] the service's method, [w] what it runs in; [h0] the
    headers the middleware has set on the response. *)
Definition verifyPow {W} (Verify : AuthRequest -> W -> AuthResult * W) (hreq h0 : header) (w : W)
  : result panic response * W :=
  let '(res, w) := Verify (request_of hreq) w in (writeAuthResult h0 res, w).

End Front.

(** ** Middleware ([middleware.go]) *)

Definition alphabet : list Z := bytes_of "0123456789abcdefghijklmnopqrstuvwxyz".

(** [for n > 0 { i--; buf[i] = alphabet[n%36]; n /= 36 }]; the buffer has 16
    bytes. *)
Fixpoint itoa64_loop (fuel : nat) (n : Z) (acc : list Z) : list Z :=
  match fuel with
  | O => acc
  | S fuel => if n <=? 0 then acc
              else itoa64_loop fuel (n / 36) (nth (Z.to_nat (n mod 36)) alphabet 0 :: acc)
  end.

Definition itoa64 (n : Z) : string :=
  if n =? 0 then "0" else of_bytes (itoa64_loop 16 n []).

Definition generateRequestID (now : Z) : string := itoa64 (unix_nano now).

(** [requestIDMiddleware]: the id it puts in the context once the handler has
    answered: the response's, else the request's; [None] when both are empty or
    there is no logger. *)
Definition request_id_after (logger : bool) (hreq hresp : header) : option string :=
  let rid := header_get hresp "X-Request-Id" in
  let rid := if (rid =? "")%string then header_get hreq "X-Request-Id" else rid in
  if negb (rid =? "")%string && logger then Some rid else None.

(** [timeoutMiddleware]: the deadline it puts on a request, if any. *)
Definition timeoutMiddleware (read write : Z) : option Z :=
  if (read <=? 0) && (write <=? 0) then None
  else
    let d := write in
    let d := if d <=? 0 then read else d in
    let d := if d <=? 0 then 2 * second else d in
    Some d.
