(* ===== verification/AppBuild.v ===== *)
(** * Assembling the service ([internal/app/app.go], [internal/logging/logger.go])

    [build] turns a configuration into stores, an engine and a service, or fails,
    and then must have closed what it opened.  Connecting is a parameter: what a
    ping of redis and the opening of a pool answer, and the levels zap knows. *)

From S2P Require Import Prelude GoStrings GoTime Matcher Storage MemoryUsage MemoryCounter Config RiskMatcher RiskEngine.
From S2P Require Import Postgres Redis RedisCounter Instrumented RiskEngineTheory ConfigValidate ConfigTheory.
From S2P Require Import RiskCounter Pending Pow Auth App.

(** ** Stores *)

Inductive usage_store (R : Type) :=
  | MemoryStore (s : MemUsage.UsageStore)
  | PostgresStore (s : PgUsage.UsageStore)
  | RedisStore (s : RedisUsage.UsageStore R).
Arguments MemoryStore {R} _.
Arguments PostgresStore {R} _.
Arguments RedisStore {R} _.

Inductive counter_store (R : Type) :=
  | MemoryCounters (s : MemCounter.CounterStore)
  | RedisCounters (s : RedisCounter.CounterStore R).
Arguments MemoryCounters {R} _.
Arguments RedisCounters {R} _.

(** What has to be closed. *)
Inductive resource := TheUsageStore | TheCounterStore | ThePool | TheRedisClient | ThePendingBlocker.

Inductive build_error :=
  | NilConfig
  | InitLogging
  | BadMatcher (e : matcher_error)
  | ConnectRedis
  | OpenPostgres
  | BuildEngine (e : engine_error)
  | BuildService (e : string).

(** [logging.New]. *)
Definition logging_New (known_level : string -> bool) (level format : string) : bool :=
  known_level level && existsb (fun f => f =? format)%string ["console"; "json"; ""]%string.

Section Build.
Context `{Unicode, Regexp, MapRange}.
Context {R : Type} `{Redis R}.
(** The levels of zap; a client whose ping is answered; the pool of a data
    source, when it can be opened. *)
Variable known_level : string -> bool.
Variable redis_ping : RedisConfig -> option R.
Variable open_pool : PoolConfig -> option (gmap string PgUsage.row).

Record storage := MkStorageParts {
  spUsage : option (wrapped (usage_store R));
  spCounters : option (wrapped (counter_store R));
  spRedis : option R;
  spPool : bool;
}.

Definition pool_config (c : PostgresConfig) : PoolConfig := MkPoolConfig (pgDSN c) (pgMaxOpenConns c) (pgMaxIdleConns c) 0 0.

Definition buildStorage (c : StorageConfig) : result build_error storage * list resource :=
  let needRedis := (stDriver c =? "redis")%string || (stCounterDriver c =? "redis")%string in
  let redisClient := if needRedis then redis_ping (stRedis c) else None in
  if needRedis && negb (bool_decide (is_Some redisClient)) && (stDriver c =? "redis")%string then (Err ConnectRedis, [])
  else
    let clients := match redisClient with Some _ => [TheRedisClient] | None => [] end in
    let prefix := rdKeyPrefix (stRedis c) in
    let usage : option (option (wrapped (usage_store R)) * bool) :=
      if (stDriver c =? "memory")%string then
        Some (Some (InstrumentUsage "memory" true (MemoryStore MemUsage.NewUsageStore)), false)
      else if (stDriver c =? "postgres")%string then
        match open_pool (pool_config (stPostgres c)) with
        | None => None
        | Some t => Some (Some (InstrumentUsage "postgres" true (PostgresStore (PgUsage.NewUsageStoreFromPool t))), true)
        end
      else if (stDriver c =? "redis")%string then
        Some (match redisClient with
              | Some r => Some (InstrumentUsage "redis" true (RedisStore (RedisUsage.NewUsageStore r prefix)))
              | None => None
              end, false)
      else Some (None, false) in
    match usage with
    | None => (Err OpenPostgres, [])  (* the client was closed *)
    | Some (usageStore, pool) =>
        let memory := InstrumentCounter "memory" true (MemoryCounters MemCounter.NewCounterStore) in
        let counterStore :=
          if (stCounterDriver c =? "memory")%string then Some memory
          else if (stCounterDriver c =? "redis")%string then
            match redisClient with
            | Some r => Some (InstrumentCounter "redis" true (RedisCounters (RedisCounter.NewCounterStore r prefix)))
            | None => Some memory
            end
          else None in
        (Ok (MkStorageParts usageStore counterStore redisClient pool),
         match usageStore with Some _ => [TheUsageStore] | None => [] end
         ++ match counterStore with Some _ => [TheCounterStore] | None => [] end
         ++ (if pool then [ThePool] else []) ++ clients)
    end.

(** What [storageCloser] closes. *)
Definition storageCloser (open : list resource) : list resource :=
  List.filter (fun r => match r with TheUsageStore | TheCounterStore | ThePool => false | _ => true end) open.

Record App := MkApp {
  apService : Service;
  apStorage : storage;
  apPending : option (limits * IPPendingBlocker);
  apCleanup : bool;
}.

(** [*p] with [nil] read as true. *)
Definition on_unless_set (p : option bool) : bool := match p with None => true | Some b => b end.

(** [build]: the application, or why it cannot start, and what is left open. *)
Definition build (cfg : Config) : result build_error App * list resource :=
  if negb (logging_New known_level (lgLevel (cLogging cfg)) (lgFormat (cLogging cfg))) then (Err InitLogging, [])
  else
    match build_matcher cfg with
    | Err e => (Err (BadMatcher e), [])
    | Ok m =>
        match buildStorage (cStorage cfg) with
        | (Err e, open) => (Err e, open)
        | (Ok st, open) =>
            let rc := cRiskControl cfg in
            let needsPending := rcEnabled rc && on_unless_set (pdEnabled (rcPending rc)) in
            let pending := if needsPending
                           then Some (NewIPPendingBlocker (pdMaxPerIP (rcPending rc)) (pdBlockTTL (rcPending rc)))
                           else None in
            let engine := if rcEnabled rc then
                            match FromConfig rc with Ok e => Ok (Some e) | Err e => Err e end
                          else Ok None in
            match engine with
            | Err e => (Err (BuildEngine e), storageCloser open)
            | Ok riskEngine =>
                let counterReg := if rcEnabled rc
                                  then Some (MkRegistry (rcCounters rc) (bool_decide (is_Some (spCounters st)))) else None in
                match New (MkOptions (Some cfg) (Some m) (bool_decide (is_Some (spUsage st))) true riskEngine counterReg
                             (fst <$> pending)) with
                | Err e => (Err (BuildService e), storageCloser open)
                | Ok svc =>
                    let cleanupOn := on_unless_set (clEnabled (cCleanup cfg)) in
                    (Ok (MkApp svc st pending (cleanupOn && bool_decide (is_Some (spUsage st)))),
                     open ++ match pending with Some _ => [ThePendingBlocker] | None => [] end)
                end
            end
        end
    end.

Definition Build (cfg : option Config) : result build_error App * list resource :=
  match cfg with None => (Err NilConfig, []) | Some cfg => build cfg end.

(** [time.NewTicker] in the goroutine of the cleanup loop panics on an interval
    that is not positive. *)
Definition cleanup_starts (cfg : Config) (a : App) : bool := negb (apCleanup a) || (0 <? clInterval (cCleanup cfg)).

(** [Shutdown]: what it closes, in order, and what is still open. *)
Definition shutdown_order (a : App) : list resource :=
  (match apPending a with Some _ => [ThePendingBlocker] | None => [] end)
  ++ match spUsage (apStorage a) with Some _ => [TheUsageStore] | None => [] end
  ++ match spCounters (apStorage a) with Some _ => [TheCounterStore] | None => [] end
  ++ (if spPool (apStorage a) then [ThePool] else [])
  ++ match spRedis (apStorage a) with Some _ => [TheRedisClient] | None => [] end.

End Build.

(** ** What a build gives *)

Definition usage_driver {R} (s : usage_store R) : string :=
  match s with MemoryStore _ => "memory" | PostgresStore _ => "postgres" | RedisStore _ => "redis" end.
Definition counter_driver {R} (s : counter_store R) : string :=
  match s with MemoryCounters _ => "memory" | RedisCounters _ => "redis" end.

Section Theory.
Context `{Unicode, Regexp, MapRange}.
Context {R : Type} `{Redis R}.
Variable known_level : string -> bool.
Variable redis_ping : RedisConfig -> option R.
Variable open_pool : PoolConfig -> option (gmap string PgUsage.row).

Definition reachable (c : StorageConfig) : bool := bool_decide (is_Some (redis_ping (stRedis c))).

Definition uses_redis (c : StorageConfig) : bool :=
  (stDriver c =? "redis")%string || (stCounterDriver c =? "redis")%string.

(** The storage of a valid configuration: the usage store of the driver or
    nothing, and counters, in memory when redis does not answer. *)
Lemma buildStorage_spec c :
  valid_storage c ->
  match buildStorage redis_ping open_pool c with
  | (Ok st, open) =>
      (exists u, spUsage st = Some u /\ usage_driver (unwrap u) = stDriver c) /\
      (exists k, spCounters st = Some k /\
         counter_driver (unwrap k) = if (stCounterDriver c =? "redis")%string && reachable c then "redis" else "memory") /\
      spRedis st = (if uses_redis c then redis_ping (stRedis c) else None) /\
      open = [TheUsageStore; TheCounterStore] ++ (if spPool st then [ThePool] else [])
             ++ match spRedis st with Some _ => [TheRedisClient] | None => [] end
  | (Err e, open) => open = [] /\
      ((e = ConnectRedis /\ stDriver c = "redis"%string /\ reachable c = false) \/
       (e = OpenPostgres /\ stDriver c = "postgres"%string /\ open_pool (pool_config (stPostgres c)) = None))
  end.
Proof.
  intros Hv. destruct Hv as [Hd Hc _ _]. unfold buildStorage, uses_redis, reachable.
  repeat match goal with Hx : _ ∈ _ :: _ |- _ => apply elem_of_cons in Hx as [Hx|Hx]
                       | Hx : _ ∈ [] |- _ => by apply not_elem_of_nil in Hx end;
    rewrite Hd, Hc; simpl; (destruct (redis_ping (stRedis c)) as [r|]; simpl);
    try (destruct (open_pool _) as [t|]; simpl); split_and?; eauto 10.
Qed.

Lemma build_matcher_ok cfg : valid_head cfg -> exists m, build_matcher cfg = Ok m.
Proof.
  intros [_ _ Hp _]. setoid_rewrite elem_of_app in Hp. unfold compiles in Hp.
  assert (forall ps, (forall p, p ∈ ps -> match re_compile p with Some _ => true | None => false end = true) ->
            Exists bad_pattern ps -> False) as Hx.
  { intros ps Hps (p & Hin & _ & Hb)%Exists_exists. specialize (Hps p Hin). by rewrite Hb in Hps. }
  unfold build_matcher. pose proof (buildProtected_spec cfg). pose proof (buildExcluded_spec cfg).
  destruct (buildProtectedMatcher cfg); [|exfalso; eauto]. destruct (buildExcludedMatcher cfg); [eauto|exfalso; eauto].
Qed.

Lemma New_total cfg m mt e k b :
  (rcEnabled (cRiskControl cfg) = true -> is_Some e /\ is_Some k /\
   (on_unless_set (pdEnabled (rcPending (cRiskControl cfg))) = true -> is_Some b)) ->
  exists svc, New (MkOptions (Some cfg) (Some m) true mt e k b) = Ok svc /\
    Auth.cfg svc = cfg /\ riskEngine svc = e /\ pendingBlocker svc = b.
Proof.
  intros Hr. unfold New. simpl. rewrite andb_false_r.
  destruct (rcEnabled (cRiskControl cfg)); simpl; [|eauto 10].
  destruct Hr as ([? ->] & [? ->] & Hb); [done|]. simpl. rewrite andb_false_r. unfold enabled_by_default.
  unfold on_unless_set in Hb. destruct (match pdEnabled _ with None => true | Some b' => b' end); simpl; [|eauto 10].
  destruct Hb as [? ->]; [done|]. simpl. eauto 10.
Qed.

(** The usage store that was chosen, as it was opened. *)
Lemma buildStorage_store c st open u :
  buildStorage redis_ping open_pool c = (Ok st, open) -> spUsage st = Some u ->
  unwrap u = MemoryStore MemUsage.NewUsageStore \/
  (exists t, open_pool (pool_config (stPostgres c)) = Some t /\ unwrap u = PostgresStore (PgUsage.NewUsageStoreFromPool t)) \/
  (exists r, redis_ping (stRedis c) = Some r /\
     unwrap u = RedisStore (RedisUsage.NewUsageStore r (rdKeyPrefix (stRedis c)))).
Proof.
  unfold buildStorage. cbv zeta. set (client := if _ || _ then redis_ping _ else None).
  assert (forall r, client = Some r -> redis_ping (stRedis c) = Some r) as Hc by (intros r; unfold client; by case_if).
  destruct (_ && _ && _); [done|].
  destruct (String.eqb_spec (stDriver c) "memory"); [|destruct (String.eqb_spec (stDriver c) "postgres");
    [destruct (open_pool _) as [t|] eqn:Ep; [|done]|destruct (String.eqb_spec (stDriver c) "redis")]];
    intros [= <- _]; simpl; intros Hu.
  - injection Hu as <-. by left.
  - injection Hu as <-. right; left. eauto.
  - destruct client as [r|]; [|done]. injection Hu as <-. right; right. eauto.
  - done.
Qed.

Lemma New_cfg o svc : New o = Ok svc -> oConfig o = Some (Auth.cfg svc).
Proof.
  unfold New. destruct (oConfig o); [|done]. destruct (oMatcher o); [|done]. do 4 (case_if; [done|]). by intros [= <-].
Qed.

Lemma build_inv cfg a open :
  build known_level redis_ping open_pool cfg = (Ok a, open) ->
  Auth.cfg (apService a) = cfg /\ exists open', buildStorage redis_ping open_pool (cStorage cfg) = (Ok (apStorage a), open').
Proof.
  unfold build. case_if; [done|]. destruct (build_matcher cfg) as [m|]; [|done].
  destruct (buildStorage _ _ _) as [[st|e] open']; [|done].
  destruct (if rcEnabled (cRiskControl cfg) then _ else _) as [eng|]; [|done].
  destruct (New _) as [svc|] eqn:En; [|done]. intros [= <- <-]. simpl. apply New_cfg in En. split; [by injection En|eauto].
Qed.

(** What a build leaves open is what shutting down closes. *)
Lemma build_open cfg a open :
  build known_level redis_ping open_pool cfg = (Ok a, open) -> open ≡ₚ shutdown_order a.
Proof.
  assert (forall c st op, buildStorage redis_ping open_pool c = (Ok st, op) -> forall svc p b,
    op ++ match p with Some _ => [ThePendingBlocker] | None => [] end ≡ₚ shutdown_order (MkApp svc st p b)) as Hs.
  { intros c st op Hb svc p b. unfold shutdown_order. cbn [apPending apStorage]. rewrite Permutation_app_comm.
    apply Permutation_app_head. revert Hb. unfold buildStorage. cbv zeta. destruct (_ && _ && _); [done|].
    destruct (if (stDriver c =? "memory")%string then _ else _) as [[us pool]|]; [|done]. by intros [= <- <-]. }
  unfold build. case_if; [done|]. destruct (build_matcher cfg) as [m|]; [|done].
  destruct (buildStorage _ _ _) as [[st|e] open'] eqn:Eb; [|done].
  destruct (if rcEnabled (cRiskControl cfg) then _ else _) as [eng|]; [|done].
  destruct (New _) as [svc|]; [|done]. intros [= <- <-]. exact (Hs _ _ _ Eb _ _ _).
Qed.

#[local] Arguments New : simpl never.

#[local] Ltac finish_build :=
  match goal with Hu : exists u, spUsage _ = Some u /\ _, Hk : exists k, spCounters _ = Some k /\ _ |- _ =>
    let u := fresh "u" in let k := fresh "k" in
    destruct Hu as (u & Hu & ?); destruct Hk as (k & Hk & ?); rewrite Hu, ?Hk; simpl
  end;
  match goal with |- context [New (MkOptions (Some ?c) (Some ?m) true ?mt ?e ?k ?b)] =>
    let svc := fresh "svc" in let Hn := fresh in
    destruct (New_total c m mt e k b) as (svc & Hn & ? & ? & ?); [|rewrite Hn; simpl]
  end.

(** C33: Starting the service with a configuration that validates.  If it starts,
    the service runs on that configuration, its engine is the compiled risk
    section, signatures are counted in the configured store, counters where
    configured unless redis does not answer, and shutting down closes exactly
    what was opened.  It fails only for the log level or format, redis or
    postgres out of reach of a usage store that needs it, or an address range
    that does not parse, and leaves nothing open, except that in the last case
    the redis client stays open. *)
Theorem build_spec cfg :
  valid_config cfg ->
  let st := cStorage cfg in
  match build known_level redis_ping open_pool cfg with
  | (Ok a, open) =>
      Auth.cfg (apService a) = cfg /\
      (rcEnabled (cRiskControl cfg) = true ->
         exists e, riskEngine (apService a) = Some e /\ FromConfig (cRiskControl cfg) = Ok e /\ engine_ok e) /\
      (exists u, spUsage (apStorage a) = Some u /\ usage_driver (unwrap u) = stDriver st) /\
      (exists k, spCounters (apStorage a) = Some k /\
         counter_driver (unwrap k) = if (stCounterDriver st =? "redis")%string && reachable st then "redis" else "memory") /\
      open ≡ₚ shutdown_order a
  | (Err e, open) =>
      match e with
      | InitLogging => logging_New known_level (lgLevel (cLogging cfg)) (lgFormat (cLogging cfg)) = false /\ open = []
      | ConnectRedis => stDriver st = "redis"%string /\ reachable st = false /\ open = []
      | OpenPostgres => stDriver st = "postgres"%string /\ open_pool (pool_config (stPostgres st)) = None /\ open = []
      | BuildEngine _ =>
          rcEnabled (cRiskControl cfg) = true /\ ~ ranges_parse (cRiskControl cfg) /\
          open = if uses_redis st && reachable st then [TheRedisClient] else []
      | NilConfig | BadMatcher _ | BuildService _ => False
      end
  end.
Proof.
  intros [Hh Hr _]. cbv zeta. unfold build.
  destruct (logging_New known_level _ _) eqn:Hl; simpl; [|done].
  destruct (build_matcher_ok _ Hh) as [m ->].
  pose proof (buildStorage_spec _ (vh_storage _ Hh)) as Hs.
  destruct (buildStorage redis_ping open_pool (cStorage cfg)) as [[st|e] open].
  2: { destruct Hs as [-> [(-> & ? & ?)|(-> & ? & ?)]]; auto. }
  destruct Hs as (Hu & Hk & Hc & Ho). destruct (rcEnabled (cRiskControl cfg)) eqn:Hen; simpl.
  - destruct (FromConfig (cRiskControl cfg)) as [e|e] eqn:He.
    + finish_build.
      * intros _. split_and!; [eauto..|]. intros ->. eauto.
      * split_and!; [done| |eauto..|]; [intros _; exists e; by eauto using valid_engine_ok|].
        unfold shutdown_order. simpl. rewrite Hu, Hk, Ho.
        rewrite Permutation_app_comm. apply Permutation_app; [by case_match|done].
    + split_and!; [done| |].
      * intros Hp. destruct (FromConfig_ok _ Hen (Hr eq_refl) Hp). congruence.
      * rewrite Ho, Hc. unfold reachable. destruct (uses_redis _), (redis_ping _), (spPool st); done.
  - finish_build; [congruence|].
    split_and!; [done|done|eauto..|]. unfold shutdown_order. simpl. by rewrite Hu, Hk, Ho, app_nil_r.
Qed.
End Theory.

(** ** The theorem at concrete configurations *)

Module BuildSample.
#[local] Existing Instances ascii_unicode literal_regexp key_order.
#[local] Existing Instance MapRedis.MapRedis_ops.

Definition levels (l : string) : bool := existsb (String.eqb l) ["debug"; "info"; "warn"; "error"; ""]%string.
Definition no_redis (_ : RedisConfig) : option (gmap string (rvalue * option Z)) := None.
Definition no_pool (_ : PoolConfig) : option (gmap string PgUsage.row) := None.

(** The default storage: signatures and counters in memory. *)
Lemma build_spec_witness :
  match build levels no_redis no_pool (ConfigSample.with_risk RiskEngineTheory.Sample.config) with
  | (Ok a, open) => open ≡ₚ shutdown_order a /\ exists e, riskEngine (apService a) = Some e /\ engine_ok e
  | (Err _, _) => False
  end.
Proof.
  pose proof (build_spec levels no_redis no_pool (ConfigSample.with_risk RiskEngineTheory.Sample.config)) as Hb.
  assert (is_ok (build levels no_redis no_pool (ConfigSample.with_risk RiskEngineTheory.Sample.config)).1 = true)
    as Hok by (vm_compute; reflexivity).
  destruct (build _ _ _ _) as [[a|e] open]; [|discriminate].
  destruct Hb as (_ & He & _ & _ & Hp); [apply Validate_iff; vm_compute; reflexivity|].
  split; [exact Hp|]. destruct He as (e & He & _ & Hok'); [reflexivity|]. exists e. split; assumption.
Defined.

Definition with_storage (s : StorageConfig) (c : Config) : Config :=
  MkConfig (cServer c) (cPow c) (cProtection c) s (cRiskControl c) (cLogging c) (cCleanup c).

(** Counters in redis, and a range that does not parse: the configuration is
    valid, the service does not start and the client stays open. *)
Example client_left_open :
  let s := cStorage (ConfigSample.with_risk ConfigSample.bad_range) in
  let cfg := with_storage (MkStorage (stDriver s) "redis" (stPostgres s) (stRedis s))
               (ConfigSample.with_risk ConfigSample.bad_range) in
  Validate cfg = Some [] /\
  (build levels (fun _ => Some (∅ : gmap string (rvalue * option Z))) no_pool cfg).2 = [TheRedisClient].
Proof. split; vm_compute; reflexivity. Qed.

(** Defaulting replaces an interval of zero only. *)
Definition with_cleanup (d : Z) (c : Config) : Config :=
  applyDefaults (MkConfig (cServer c) (cPow c) (cProtection c) (cStorage c) (cRiskControl c) (cLogging c)
    (MkCleanup (clEnabled (cCleanup c)) d (clExpiredGracePeriod (cCleanup c)))).

Example cleanup_panics :
  let cfg := with_cleanup (- minute) (ConfigSample.with_risk RiskEngineTheory.Sample.config) in
  Validate cfg = Some [] /\
  match build levels no_redis no_pool cfg with
  | (Ok a, _) => cleanup_starts cfg a = false
  | (Err _, _) => False
  end.
Proof. split; vm_compute; reflexivity. Qed.
End BuildSample.
