(* ===== verification/AuthLogic.v ===== *)
(** * Reasoning about the service's methods

    Weakest preconditions for the methods of the authentication service, which
    are functions on [world]: the rules for returning, sequencing and the
    primitive steps, and [moved], the frame most methods keep. *)

From S2P Require Import Prelude Storage Config RiskMatcher RiskEngine RiskCounter Pending Pow.
From S2P Require Import GoStrings Matcher Auth.

Section Logic.
Context {U C : Type} `{UsageStore U, CounterStore C}.
Variable clk : nat -> Z.
Variable uenv : nat -> us_env.

Notation W := (world (U := U) (C := C)).
Notation MA := (M (U := U) (C := C)).
#[local] Existing Instances M_ret M_bind.

(** [m] started in [w] ends with an answer and a state that satisfy [Q]. *)
Definition wp {A} (m : MA A) (Q : A -> W -> Prop) (w : W) : Prop := Q (m w).1 (m w).2.

Lemma wp_run {A} (m : MA A) Q w a w' : wp m Q w -> m w = (a, w') -> Q a w'.
Proof. unfold wp. intros Hq E. by rewrite E in Hq. Qed.

Lemma wp_ret {A} (a : A) Q w : Q a w -> wp (mret a) Q w.
Proof. done. Qed.

Lemma wp_bind {A B} (m : MA A) (k : A -> MA B) Q w :
  wp m (fun a => wp (k a) Q) w -> wp (m ≫= k) Q w.
Proof. unfold wp, mbind, M_bind. by destruct (m w). Qed.

Lemma wp_mono {A} (m : MA A) (Q Q' : A -> W -> Prop) w :
  wp m Q w -> (forall a w', Q a w' -> Q' a w') -> wp m Q' w.
Proof. unfold wp. auto. Qed.

Lemma wp_conj {A} (m : MA A) (Q Q' : A -> W -> Prop) w :
  wp m Q w -> wp m Q' w -> wp m (fun a w' => Q a w' /\ Q' a w') w.
Proof. done. Qed.

(** ** Frames *)

Definition is_total (e : event) : bool :=
  match e with MVerifyTotal _ _ _ _ => true | _ => false end.

(** The verdicts counted so far. *)
Definition totals (l : list event) : list event := filter (fun e => is_total e = true) l.

Lemma totals_app l l' : totals (l ++ l') = totals l ++ totals l'.
Proof. apply filter_app. Qed.

(** [k] instants pass, the verdicts [l] are counted, and neither the usage store
    nor the token cell is touched. *)
Record moved (k : nat) (l : list event) (w w' : W) : Prop := {
  mv_tick : wTick w' = (k + wTick w)%nat;
  mv_store : wStore w' = wStore w;
  mv_token : wToken w' = wToken w;
  mv_totals : totals (wEvents w') = totals (wEvents w) ++ l;
}.

Lemma moved_refl w : moved 0 [] w w.
Proof. split; [done..|]. by rewrite app_nil_r. Qed.

Lemma moved_trans k k' l l' w1 w2 w3 :
  moved k l w1 w2 -> moved k' l' w2 w3 -> moved (k' + k) (l ++ l') w1 w3.
Proof.
  intros [T1 S1 K1 E1] [T2 S2 K2 E2]. split; [lia|congruence|congruence|].
  by rewrite E2, E1, app_assoc.
Qed.

Definition steady {A} (k : nat) (l : list event) (m : MA A) : Prop := forall w, moved k l w (m w).2.

Lemma wp_steady {A} k l (m : MA A) Q w :
  steady k l m -> (forall a w', moved k l w w' -> Q a w') -> wp m Q w.
Proof. intros Hm Hq. apply Hq, Hm. Qed.

Lemma steady_wp {A} k l (m : MA A) : (forall w, wp m (fun _ w' => moved k l w w') w) -> steady k l m.
Proof. intros Hm w. apply (Hm w). Qed.

Lemma steady_ret {A} (a : A) : steady 0 [] (mret a).
Proof. intros w. apply moved_refl. Qed.

Lemma steady_bind {A B} k k' l l' (m : MA A) (f : A -> MA B) :
  steady k l m -> (forall a, steady k' l' (f a)) -> steady (k' + k) (l ++ l') (m ≫= f).
Proof.
  intros Hm Hf w. specialize (Hm w). unfold mbind, M_bind. destruct (m w) as [a w1]. simpl in Hm.
  eapply moved_trans; [exact Hm|apply Hf].
Qed.

(** [moved 0 []] composes without arithmetic. *)
Lemma steady_bind0 {A B} (m : MA A) (f : A -> MA B) :
  steady 0 [] m -> (forall a, steady 0 [] (f a)) -> steady 0 [] (m ≫= f).
Proof. apply (steady_bind 0 0 [] []). Qed.

(** ** The primitive steps *)

Lemma steady_clock : steady 1 [] (clock_now clk).
Proof. intros w. split; simpl; [done..|by rewrite app_nil_r]. Qed.

Lemma steady_since start : steady 1 [] (time_since start).
Proof. intros w. split; simpl; [done..|by rewrite app_nil_r]. Qed.

Lemma steady_get_token : steady 0 [] get_token.
Proof. intros w. apply moved_refl. Qed.

Lemma steady_emit e : is_total e = false -> steady 0 [] (emit e).
Proof.
  intros He w. split; simpl; [done..|]. rewrite totals_app. f_equal.
  unfold totals. by rewrite filter_cons_False by (by rewrite He).
Qed.

Lemma steady_emit_total a b c d : steady 0 [MVerifyTotal a b c d] (emit (MVerifyTotal a b c d)).
Proof. intros w. split; simpl; [done..|]. by rewrite totals_app. Qed.

Lemma steady_counters {A} (f : counters C -> A * counters C) : steady 0 [] (with_counters f).
Proof.
  intros w. unfold with_counters. destruct (f (wCounters w)). split; simpl; [done..|].
  by rewrite app_nil_r.
Qed.

Lemma steady_loop : steady 0 [] next_map_loop.
Proof. intros w. split; simpl; [done..|by rewrite app_nil_r]. Qed.

Lemma steady_pending {A} (f : Z -> IPPendingBlocker -> A * IPPendingBlocker) :
  steady 1 [] (with_pending clk f).
Proof.
  intros w. unfold with_pending. destruct (f _ (wPending w)) as [a b]. split; simpl; [done..|].
  rewrite totals_app. f_equal. by case_if.
Qed.

Lemma steady_log_errors errs : steady 0 [] (log_incr_errors errs).
Proof.
  intros w. split; simpl; [done..|]. rewrite totals_app. f_equal.
  induction errs as [|e errs IH]; [done|]. by unfold totals; simpl; rewrite filter_cons_False.
Qed.

Lemma wp_clock Q w :
  (forall w', moved 1 [] w w' -> Q (clk (wTick w)) w') -> wp (clock_now clk) Q w.
Proof. intros Hq. apply Hq, (steady_clock w). Qed.

Lemma wp_get_token Q w : Q (wToken w) w -> wp get_token Q w.
Proof. done. Qed.

(** The state with the token cell set. *)
Lemma wp_set_token t Q w :
  (forall w', wTick w' = wTick w -> wStore w' = wStore w -> wToken w' = t ->
     totals (wEvents w') = totals (wEvents w) -> Q tt w') -> wp (set_token t) Q w.
Proof. intros Hq. by apply Hq. Qed.

(** A call of the store at the current instant. *)
Lemma wp_store {A} (f : us_env -> U -> result storage_error A * U) Q w :
  (forall r st w', f (uenv (wTick w)) (wStore w) = (r, st) -> wStore w' = st ->
     wTick w' = S (wTick w) -> wToken w' = wToken w ->
     totals (wEvents w') = totals (wEvents w) -> Q r w') ->
  wp (store_call uenv f) Q w.
Proof.
  intros Hq. unfold wp, store_call. destruct (f (uenv (wTick w)) (wStore w)) as [r st] eqn:E. simpl.
  by apply (Hq r st).
Qed.

End Logic.

#[export] Hint Resolve steady_ret steady_bind0 steady_get_token steady_counters steady_loop
  steady_log_errors : waf.
