(* ===== verification/AuthTheory.v ===== *)
(** * What verification guarantees

    The checks of a token as one statement, the recording of every outcome
    exactly once, and the switches that bypass or rewrite verdicts. *)

From S2P Require Import Prelude GoStrings GoTime Strconv Sha256 Netip GoURL Pow PowTheory Matcher.
From S2P Require Import Storage Config RiskMatcher RiskEngine RiskCounter Pending Auth.

Section Theory.
Context `{Unicode, JsonCodec, Regexp, MapRange}.
Context {U C : Type} `{UsageStore U, CounterStore C}.
Variable clk : nat -> Z.
Variable uenv : nat -> us_env.
Variable cenv : nat -> cs_env.
Variable s : Service.

Notation W := (world (U := U) (C := C)).
Notation MA := (M (U := U) (C := C)).
#[local] Existing Instances M_ret M_bind.

(** ** A good token *)

(** The proof of work: the sign is the hash of the canonical input, in hex of
    either case, and the hash has the claimed difficulty. *)
Definition work_done (p : TokenPayload) (sign : string) : Prop :=
  len sign = 64 /\ Forall (fun c => sign_rune c = true) (bytes_of sign) /\
  map upper_ascii (bytes_of sign) = map upper_ascii (bytes_of (ComputeSign (Some p))) /\
  HasLeadingZeroBits (sha256 (bytes_of (BuildCanonicalInput (Some p)))) (tpDifficulty p) = true.

Lemma sign_rune_ascii c : sign_rune c = true -> c < 128.
Proof. unfold sign_rune, in_range. intros Hs. bprop. repeat (destruct Hs as [Hs|Hs]; bprop); lia. Qed.

Lemma isValidSignHex_spec sign :
  isValidSignHex sign = true <->
  len sign = 64 /\ Forall (fun c => sign_rune c = true) (bytes_of sign).
Proof.
  unfold isValidSignHex. destruct (Z.eqb_spec (len sign) 64) as [E|E]; simpl; [|naive_solver].
  rewrite forallb_Forall. split.
  - intros Hr. split; [done|].
    by apply (runes_all_ascii (fun c => sign_rune c = true) sign sign_rune_ascii) in Hr as [_ ?].
  - intros [_ Hb]. rewrite runes_ascii; [done|]. apply Forall_forall. intros c Hc.
    pose proof (bytes_of_range sign) as Hby.
    apply (proj1 (Forall_forall _ _) Hby) in Hc as Hc'. unfold is_byte in Hc'.
    apply (proj1 (Forall_forall _ _) Hb), sign_rune_ascii in Hc. lia.
Qed.

Lemma ComputeSign_ascii p : is_ascii (bytes_of (ComputeSign p)).
Proof. eapply Forall_impl; [apply ComputeSign_chars|]. unfold hex_lower. simpl. lia. Qed.

Lemma EqualFold_upper_ascii a b :
  is_ascii (bytes_of a) -> is_ascii (bytes_of b) ->
  EqualFold a b = true <-> map upper_ascii (bytes_of a) = map upper_ascii (bytes_of b).
Proof.
  intros Ha Hb. rewrite EqualFold_ToUpper by done. unfold ToUpper, map_runes.
  rewrite !runes_ascii, !concat_encode_ascii by done. split; [|congruence]. intros E.
  apply (f_equal bytes_of) in E. rewrite !bytes_of_of in E by
    (apply ascii_is_byte, upper_ascii_ascii; done). done.
Qed.

Lemma len_zero_empty a : len a = 64 -> (a =? "")%string = false.
Proof. intros Hl. apply String.eqb_neq. intros ->. done. Qed.

Lemma checkSign_spec p sign : checkSignAndDifficulty p sign = None <-> work_done p sign.
Proof.
  unfold checkSignAndDifficulty, work_done, CompareSign, HasLeadingZeroBits32, HashCanonical.
  destruct (isValidSignHex sign) eqn:Ev; simpl.
  - apply isValidSignHex_spec in Ev as [El Er].
    assert (is_ascii (bytes_of sign)) as Ha.
    { apply Forall_forall. intros c Hc. pose proof (bytes_of_range sign) as Hby.
      apply (proj1 (Forall_forall _ _) Hby) in Hc as Hc'. unfold is_byte in Hc'.
      apply (proj1 (Forall_forall _ _) Er), sign_rune_ascii in Hc. lia. }
    rewrite (len_zero_empty sign), (len_zero_empty (ComputeSign (Some p))) by (done || apply ComputeSign_len).
    simpl. pose proof (EqualFold_upper_ascii (ComputeSign (Some p)) sign (ComputeSign_ascii _) Ha) as Hf.
    destruct (EqualFold _ sign); simpl.
    + destruct (HasLeadingZeroBits _ _); simpl; [|naive_solver].
      split; [|done]. intros _. split_and!; try done. symmetry. by apply Hf.
    + split; [done|]. intros (_ & _ & Hm & _). symmetry in Hm. by apply Hf in Hm.
  - split; [done|]. intros (El & Er & _). exfalso.
    assert (isValidSignHex sign = true) by (by apply isValidSignHex_spec). congruence.
Qed.

(** The instant the token is judged at, in seconds. *)
Definition in_time (p : TokenPayload) (maxTTL now : Z) : Prop :=
  now < tpExpiresAt p /\
  (0 < maxTTL -> wrap64 (tpExpiresAt p - tpTimestamp p) <= maxTTL) /\
  tpTimestamp p <= wrap64 (now + 60).

Lemma checkTime_spec p maxTTL now : checkTime p maxTTL now = None <-> in_time p maxTTL now.
Proof.
  unfold checkTime, in_time.
  destruct (Z.leb_spec (tpExpiresAt p) now); [split; [done|lia]|].
  destruct (Z.ltb_spec 0 maxTTL), (Z.ltb_spec maxTTL (wrap64 (tpExpiresAt p - tpTimestamp p))); simpl;
    destruct (Z.ltb_spec (wrap64 (now + 60)) (tpTimestamp p)); split; try done; try lia; intros; repeat split; intros; lia.
Qed.

(** Everything a token must satisfy in its mode. *)
Definition good_token (p : TokenPayload) (mode path sign : string) (now : Z) : Prop :=
  exists mc, mode_config s mode = Some mc /\ mcEnabled mc = true /\
    well_formed p (Some (mcOpts mc)) /\ tpPath p = path /\ in_time p (mcMaxTTL mc) now /\
    work_done p sign.

(** Used to refute either side of the equivalence below. *)
Ltac refute_both := split; [done|intros; repeat match goal with
  | Hx : exists _, _ |- _ => destruct Hx
  | Hx : _ /\ _ |- _ => destruct Hx end; simplify_eq; congruence].

Lemma validateTokenForMode_iff p mode path sign now :
  validateTokenForMode s p mode path sign now = None <-> good_token p mode path sign now.
Proof.
  unfold validateTokenForMode, good_token.
  destruct (mode_config s mode) as [mc|]; [|refute_both].
  destruct (mcEnabled mc) eqn:Ee; cbn [negb]; [|refute_both].
  pose proof (validate_iff p (Some (mcOpts mc))) as Hv.
  destruct (ValidatePayload (Some p) (Some (mcOpts mc))) as [[]|e].
  - destruct (String.eqb_spec (tpPath p) path); cbn [negb]; [|refute_both].
    pose proof (checkTime_spec p (mcMaxTTL mc) now) as Ht. pose proof (checkSign_spec p sign) as Hs.
    destruct (checkTime p (mcMaxTTL mc) now).
    + split; [done|]. intros (? & [= <-] & _ & _ & _ & Ht' & _). by apply Ht in Ht'.
    + rewrite Hs. split.
      * intros Hw. exists mc. split_and!; [done|done|by apply Hv|done|by apply Ht|done].
      * by intros (? & [= <-] & _ & _ & _ & _ & Hw).
  - split; [done|]. intros (? & [= <-] & _ & Hwf & _). by apply Hv in Hwf.
Qed.

(** C12: [validateTokenForMode], the one definition of a good token that both
    the PoW-only path and the classification use, passes exactly the tokens
    whose mode is enabled and whose payload is well formed for it, made for this
    path, in time, and backed by the work they claim. *)
Theorem validateTokenForMode_spec p mode path sign now :
  validateTokenForMode s p mode path sign now = None <-> good_token p mode path sign now.
Proof. apply validateTokenForMode_iff. Qed.

End Theory.
