(* ===== verification/AuthRecord.v ===== *)
(** * Every verdict is recorded exactly once

    The verdict counter of the metrics ([VerifyTotal]) over the service's
    methods: those that decide on a token never count, those that answer count
    their answer, and [Verify] counts the result it returns, once. *)

From S2P Require Import Prelude GoStrings GoTime Pow Matcher Storage Config RiskMatcher RiskEngine.
From S2P Require Import RiskCounter Pending Auth AuthLogic.

Section Record.
Context `{Unicode, JsonCodec, Regexp, MapRange}.
Context {U C : Type} `{UsageStore U, CounterStore C}.
Variable clk : nat -> Z.
Variable uenv : nat -> us_env.
Variable cenv : nat -> cs_env.
Variable s : Service.

Notation W := (world (U := U) (C := C)).
Notation MA := (M (U := U) (C := C)).
#[local] Existing Instances M_ret M_bind.

(** ** Methods that count nothing *)

Definition mute {A} (m : MA A) : Prop := forall w, totals (wEvents (m w).2) = totals (wEvents w).

Lemma mute_steady {A} k (m : MA A) : steady k [] m -> mute m.
Proof. intros Hm w. rewrite (mv_totals _ _ _ _ (Hm w)). apply app_nil_r. Qed.

Lemma mute_ret {A} (a : A) : mute (mret a).
Proof. done. Qed.

Lemma mute_bind {A B} (m : MA A) (k : A -> MA B) : mute m -> (forall a, mute (k a)) -> mute (m ≫= k).
Proof.
  intros Hm Hk w. unfold mbind, M_bind. specialize (Hm w). destruct (m w) as [a w1]. simpl in Hm.
  by rewrite Hk.
Qed.

Lemma mute_store {A} (f : us_env -> U -> result storage_error A * U) : mute (store_call uenv f).
Proof. intros w. unfold store_call. by destruct (f _ (wStore w)). Qed.

Lemma mute_set_token t : mute (set_token t).
Proof. done. Qed.

Lemma mute_emit e : is_total e = false -> mute (emit e).
Proof. intros He. by eapply mute_steady, steady_emit. Qed.

Lemma mute_clock : mute (clock_now clk).
Proof. eapply mute_steady, steady_clock. Qed.

Lemma mute_get_token : mute get_token.
Proof. done. Qed.

Create HintDb mute.
#[local] Hint Resolve mute_ret mute_store mute_set_token mute_emit mute_clock mute_get_token : mute.

(** Sequences and case distinctions of muted methods. *)
Ltac mute := repeat first
  [ progress intros
  | solve [auto with mute]
  | apply mute_bind
  | match goal with
    | |- mute (match ?x with _ => _ end) => destruct x
    | |- mute (if ?x then _ else _) => destruct x
    | |- mute (let '(_, _) := ?x in _) => destruct x
    end ].

Lemma mute_bindEmptyIP p req t sg m : mute (bindEmptyIPFirstUse clk uenv s p req t sg m).
Proof. unfold bindEmptyIPFirstUse, store_Get, store_Consume. mute. Qed.

Lemma mute_consumeQuota p req t sg m now : mute (consumeGenericQuota uenv s p req t sg m now).
Proof. unfold consumeGenericQuota, store_Consume. mute. Qed.

#[local] Hint Resolve mute_bindEmptyIP mute_consumeQuota : mute.

Lemma mute_verifyPoWOnly req t sg : mute (verifyPoWOnly clk uenv s req t sg).
Proof. unfold verifyPoWOnly, finalizeByMode, finalizeIPBound, finalizeGeneric. cbv zeta. mute. Qed.

Lemma mute_classifyPoW t sg path ip : mute (classifyPoW clk s t sg path ip).
Proof. unfold classifyPoW. cbv zeta. mute. Qed.

(** ** Methods that count their answer *)

(** What the metrics of the service count for a verdict. *)
Definition counted (prot : option bool) (res : AuthResult) : list event :=
  if hasMetrics s
  then [MVerifyTotal (statusBucket (Allowed res)) (Reason res) (Mode res) (protectedLabel prot)]
  else [].

(** [m] counts a list of verdicts related by [R] to its answer. *)
Definition counts {A} (m : MA A) (R : A -> list event -> Prop) : Prop :=
  forall w, exists l, totals (wEvents (m w).2) = totals (wEvents w) ++ l /\ R (m w).1 l.

Lemma counts_bind {A B} (m : MA A) (k : A -> MA B) R1 R :
  counts m R1 -> (forall a l, R1 a l -> counts (k a) (fun b l' => R b (l ++ l'))) -> counts (m ≫= k) R.
Proof.
  intros Hm Hk w. unfold mbind, M_bind. destruct (Hm w) as (l & E & Hr). destruct (m w) as [a w1].
  destruct (Hk a l Hr w1) as (l' & E' & Hr'). exists (l ++ l'). split; [|done].
  simpl in E. by rewrite E', E, app_assoc.
Qed.

Lemma counts_ret {A} (a : A) (R : A -> list event -> Prop) : R a [] -> counts (mret a) R.
Proof. intros Hr w. exists []. split; [by rewrite app_nil_r|done]. Qed.

(** After a muted method. *)
Lemma counts_after {A B} (m : MA A) (k : A -> MA B) (R : B -> list event -> Prop) :
  mute m -> (forall a, counts (k a) R) -> counts (m ≫= k) R.
Proof.
  intros Hm Hk. apply (counts_bind _ _ (fun _ l => l = [])).
  - intros w. exists []. split; [by rewrite Hm, app_nil_r|done].
  - by intros a l ->.
Qed.

Lemma steady_recordResult v res : steady (U := U) (C := C) 1 (counted (vcProtected v) res) (recordResult s v res).
Proof.
  unfold recordResult. apply (steady_bind 1 0 [] (counted (vcProtected v) res)); [apply steady_since|]. intros t.
  rewrite <- (app_nil_r (counted _ _)). apply (steady_bind 0 0).
  - unfold counted. case_if; [|apply steady_ret].
    apply (steady_bind 0 0 [_] []); [apply steady_emit_total|]. intros _. by apply steady_emit.
  - intros _. case_if; [apply steady_ret|]. apply steady_bind0; [apply steady_get_token|].
    intros tok. by apply steady_emit.
Qed.

(** Recording [res], then going on to [k] which counts nothing. *)
Lemma counts_record v res {A} (a : A) (R : A -> list event -> Prop) :
  R a (counted (vcProtected v) res) -> counts (_ ← recordResult s v res; mret a) R.
Proof.
  intros Hr. eapply (counts_bind _ _ (fun _ l => l = counted (vcProtected v) res)).
  - intros w. eexists. split; [apply (mv_totals _ _ _ _ (steady_recordResult v res w))|done].
  - intros [] l ->. apply counts_ret. by rewrite app_nil_r.
Qed.

(** The answer, if there is one, is what was counted. *)
Definition answered (prot : option bool) (o : option AuthResult) (l : list event) : Prop :=
  l = match o with Some res => counted prot res | None => [] end.

Lemma counts_chargeQuota v q :
  counts (chargeQuotaForRiskAllow clk uenv s v q)
    (fun a l => answered (vcProtected v) a.2 l /\ vcProtected a.1 = vcProtected v).
Proof.
  unfold chargeQuotaForRiskAllow. apply counts_after; [apply mute_get_token|]. intros tok.
  destruct (if _ && _ then tok else None) as [p|]; [|by apply counts_ret].
  case_if; [|case_if; [|by apply counts_ret]].
  - apply counts_after; [apply mute_clock|]. intros now.
    apply counts_after; [apply mute_consumeQuota|]. intros [id [cr|e]]; cbv zeta.
    + case_if; [by apply counts_record|by apply counts_ret].
    + by apply counts_record.
  - apply counts_after; [apply mute_bindEmptyIP|]. intros [[]|res]; [by apply counts_ret|].
    by apply counts_record.
Qed.

Lemma counts_answer v res : counts (answer s v res) (answered (vcProtected v)).
Proof. unfold answer. by apply counts_record. Qed.

Lemma counts_charge_then v q (k : verifyCtx -> MA (option AuthResult)) :
  (forall v', vcProtected v' = vcProtected v -> counts (k v') (answered (vcProtected v))) ->
  counts ('(v', denied) ← chargeQuotaForRiskAllow clk uenv s v q;
          match denied with Some res => mret (Some res) | None => k v' end) (answered (vcProtected v)).
Proof.
  intros Hk. eapply counts_bind; [apply counts_chargeQuota|]. intros [v' [res|]] l [Hl Hv].
  - apply counts_ret. by rewrite app_nil_r.
  - unfold answered in Hl. simpl in Hl. subst l. by apply Hk.
Qed.

Lemma counts_apply v q st d tr : counts (apply_decision clk uenv s v q st d tr) (answered (vcProtected v)).
Proof.
  unfold apply_decision. cbv zeta.
  case_if; [|case_if; [apply counts_answer|case_if; [apply counts_answer|case_if; [|by apply counts_ret]]]].
  - apply counts_charge_then. intros v' E. rewrite <- E. apply counts_answer.
  - case_if; [|case_if; [apply counts_answer|case_if; [|apply counts_answer]]].
    + apply counts_charge_then. intros v' E. rewrite <- E. apply counts_answer.
    + apply counts_after; [by apply mute_emit|]. intros _. apply counts_answer.
Qed.

Lemma mute_counters {A} (f : counters C -> A * counters C) : mute (with_counters f).
Proof. eapply mute_steady, steady_counters. Qed.

Lemma mute_bump q : mute (bump_counters cenv s q).
Proof.
  unfold bump_counters. destruct (counterReg s); [|done].
  apply mute_bind; [done|]. intros loop. apply mute_bind; [apply mute_counters|].
  intros errs. eapply mute_steady, steady_log_errors.
Qed.

Lemma counts_runRisk v q st : counts (runRiskEngine clk uenv cenv s v q st) (answered (vcProtected v)).
Proof.
  unfold runRiskEngine. destruct (riskEngine s) as [eng|]; [|by apply counts_ret].
  apply counts_after; [apply mute_counters|].
  intros [[r|e]|]; try (apply counts_after; [by apply mute_emit|]; intros _; by apply counts_ret).
  apply counts_after; [apply mute_bump|]. intros _.
  apply counts_after; [case_if; [by apply mute_emit|done]|]. intros _. apply counts_apply.
Qed.

Lemma counts_return v pr res :
  vcProtected v = pr -> counts (record_and_return s v res) (fun r l => l = counted pr r).
Proof. intros <-. unfold record_and_return. by apply counts_record. Qed.

(** The engine's answer, or else what follows. *)
Lemma counts_handled v pr q st (k : MA AuthResult) :
  vcProtected v = pr -> counts k (fun r l => l = counted pr r) ->
  counts (handled ← runRiskEngine clk uenv cenv s v q st;
          match handled with Some res => mret res | None => k end) (fun r l => l = counted pr r).
Proof.
  intros <- Hk. eapply counts_bind; [apply counts_runRisk|]. intros [res|] l ->.
  - apply counts_ret. by rewrite app_nil_r.
  - exact Hk.
Qed.

Lemma counts_verify_token v req prot :
  counts (verify_token clk uenv cenv s v req prot) (fun r l => l = counted (vcProtected v) r).
Proof.
  unfold verify_token. destruct (extractTokenAndSign s (OriginalArgs req)) as [tok sg]. cbv zeta. case_if.
  - unfold verifyWithoutPow. destruct (riskEngine s) as [eng|]; [|by apply counts_return].
    by apply counts_handled, counts_return.
  - apply counts_after; [case_if; [apply mute_classifyPoW|done]|]. intros [st md].
    apply counts_after; [done|]. intros payload.
    apply counts_handled; [done|]. case_if; [by apply counts_return|].
    apply counts_after; [apply mute_verifyPoWOnly|]. intros res. by apply counts_return.
Qed.

Lemma mute_pending {A} (f : Z -> IPPendingBlocker -> A * IPPendingBlocker) : mute (with_pending clk f).
Proof. eapply mute_steady, steady_pending. Qed.

Lemma Verify_counts req w :
  let '(res, w') := Verify clk uenv cenv s req w in
  totals (wEvents w') = totals (wEvents w) ++ counted (Some (svMatcher s (OriginalURI req))) res.
Proof.
  assert (counts (Verify clk uenv cenv s req)
            (fun r l => l = counted (Some (svMatcher s (OriginalURI req))) r)) as Hc.
  { unfold Verify. apply counts_after; [done|]. intros _. apply counts_after; [apply mute_clock|].
    intros start. cbv zeta. set (v := MkVerifyCtx _ _ _ _ _ _ _ _ _ _).
    change (Some (svMatcher s (OriginalURI req))) with (vcProtected v).
    case_if; [by apply counts_return|]. case_if; [by apply counts_return|].
    case_match; [|apply counts_verify_token].
    apply counts_after; [apply mute_pending|]. intros [h blocked].
    case_if; [by apply counts_return|].
    eapply counts_bind; [apply counts_verify_token|]. intros r l1 ->.
    apply counts_after; [apply mute_pending|]. intros _. apply counts_ret. by rewrite app_nil_r. }
  destruct (Hc w) as (l & El & Hl). destruct (Verify clk uenv cenv s req w). simpl in *. congruence.
Qed.

(** C34: whatever path a request takes, [Verify] counts exactly one verdict, and
    it is the result it returns: same outcome, reason and mode, under the
    label of the request's protection (nothing is counted when the service has
    no metrics). *)
Theorem Verify_counts_once req w :
  let '(res, w') := Verify clk uenv cenv s req w in
  totals (wEvents w') = totals (wEvents w) ++ counted (Some (svMatcher s (OriginalURI req))) res.
Proof. apply Verify_counts. Qed.

End Record.
