(* ===== verification/AuthSound.v ===== *)
(** * No admission without work

    When the risk engine is absent, or never accepts by itself, a protected
    request is admitted only on a good token: decoded from the request, made
    for this path, in time, backed by its proof of work, and either bound to
    the client's address or charged to its quota. *)

From S2P Require Import Prelude GoStrings GoTime Strconv Sha256 Netip Pow PowTheory Matcher Storage.
From S2P Require Import Config RiskMatcher RiskEngine RiskCounter Pending Auth AuthLogic AuthTheory.

Section Sound.
Context `{Unicode, JsonCodec, Regexp, MapRange}.
Context {U C : Type} `{UsageStore U, CounterStore C}.
Variable clk : nat -> Z.
Variable uenv : nat -> us_env.
Variable cenv : nat -> cs_env.
Variable s : Service.

Notation W := (world (U := U) (C := C)).
Notation MA := (M (U := U) (C := C)).
#[local] Existing Instances M_ret M_bind.

(** ** What an admission rests on *)

(** The call that charges one use of a generic token. *)
Definition charge_input (p : TokenPayload) (req : AuthRequest) (tok sg mode : string) (now : Z) : ConsumeInput :=
  MkConsumeInput (ComputeSignID (Some p) sg mode) mode (tpPath p) sg (HashToken tok) (tpExpiresAt p)
    (mMaxUses (mGeneric (pModes (cPow (cfg s))))) (RealIP req) (UserAgent req) now (grace_seconds s)
    ((OriginalMethod req =? "HEAD")%string && negb (mCountHeadRequest (mGeneric (pModes (cPow (cfg s)))))).

(** The call that records the first user of a token without an address. *)
Definition bind_input (p : TokenPayload) (req : AuthRequest) (tok sg mode : string) (now : Z) : ConsumeInput :=
  MkConsumeInput (ComputeSignID (Some p) sg mode) mode (tpPath p) sg (HashToken tok) (tpExpiresAt p) 1
    (RealIP req) (UserAgent req) now (grace_seconds s) true.

(** The store granted a use. *)
Definition charged (p : TokenPayload) (req : AuthRequest) (tok sg mode : string) (cr : ConsumeResult)
  (st st' : U) : Prop :=
  hasUsageStore s = true /\ crAllowed cr = true /\
  exists n now, us_consume (uenv n) (charge_input p req tok sg mode now) st = (Ok cr, st').

(** The client is the first user of the token, or uses its address; with no
    store there is nothing to compare with. *)
Definition first_use (p : TokenPayload) (req : AuthRequest) (tok sg mode : string) (st st' : U) : Prop :=
  let id := ComputeSignID (Some p) sg mode in
  hasUsageStore s = false /\ st' = st \/
  hasUsageStore s = true /\
  ((exists n rec, us_get (uenv n) id st = (Ok rec, st') /\
     (urFirstIP rec = ""%string \/ sameIP (urFirstIP rec) (RealIP req) = true)) \/
   (exists n m now cr st1, us_get (uenv n) id st = (Err ErrNotFound, st1) /\
     us_consume (uenv m) (bind_input p req tok sg mode now) st1 = (Ok cr, st'))).

(** The token was decoded from the request and is good at instant [n]. *)
Definition proven (p : TokenPayload) (req : AuthRequest) (tok sg : string) (n : nat) : Prop :=
  DecodeToken tok = Ok p /\
  len tok <= pMaxTokenLength (cPow (cfg s)) /\ len sg <= pMaxSignLength (cPow (cfg s)) /\
  good_token s p (tpMode p) (OriginalURI req) sg (unix_sec (clk n)).

(** The token entitles this client. *)
Definition entitled (p : TokenPayload) (req : AuthRequest) (tok sg : string) (st st' : U) : Prop :=
  (tpMode p = "ip_bound"%string /\ RealIP req <> ""%string /\
   (tpIP p <> ""%string /\ sameIP (tpIP p) (RealIP req) = true /\ st' = st \/
    tpIP p = ""%string /\ first_use p req tok sg "ip_bound" st st')) \/
  (tpMode p = "generic"%string /\ exists cr, charged p req tok sg "generic" cr st st').

Definition admitted (req : AuthRequest) (w w' : W) : Prop :=
  let '(tok, sg) := extractTokenAndSign s (OriginalArgs req) in
  exists p n, (wTick w <= n < wTick w')%nat /\ proven p req tok sg n /\
    entitled p req tok sg (wStore w) (wStore w').

(** ** The methods that decide *)

Hypothesis dry : dryRunEffective s = false.

Lemma no_dry_run res : maybeDryRun s res = res.
Proof. unfold maybeDryRun. by rewrite dry. Qed.

Lemma wp_bindEmptyIP p req tok sg mode (w : W) :
  wp (bindEmptyIPFirstUse clk uenv s p req tok sg mode) (fun r w' => (wTick w <= wTick w')%nat /\
    match r with
    | Ok _ => first_use p req tok sg mode (wStore w) (wStore w')
    | Err res => Allowed res = false
    end) w.
Proof.
  unfold bindEmptyIPFirstUse, first_use. cbv zeta.
  apply wp_bind, wp_set_token. intros w1 T1 S1 K1 _. rewrite <- T1, <- S1.
  case_if; bprop.
  - apply wp_bind. eapply wp_steady; [by apply steady_emit|]. intros _ w2 [T2 S2 _ _].
    apply wp_ret. split; [lia|]. left. split; [done|by rewrite S2].
  - apply wp_bind, wp_store. intros rec st w2 Hg <- T2 K2 _. rewrite no_dry_run.
    destruct rec as [rec|[]]; try (apply wp_ret; rewrite no_dry_run; by split; [lia|]).
    + case_if; apply wp_ret; (split; [lia|]); [done|]. right. split; [done|]. left.
      exists (wTick w1), rec. split; [done|]. bcases; auto.
    + apply wp_bind, wp_clock. intros w3 [T3 S3 _ _]. apply wp_bind, wp_store.
      intros r st w4 Hc <- T4 _ _. rewrite no_dry_run. destruct r as [cr|e]; apply wp_ret; (split; [lia|]); [|done].
      right. split; [done|]. right. rewrite S3 in Hc. unfold bind_input. eauto 10.
Qed.

Lemma wp_consumeQuota p req tok sg mode now (w : W) :
  wp (consumeGenericQuota uenv s p req tok sg mode now) (fun a w' => (wTick w <= wTick w')%nat /\
    a.1 = ComputeSignID (Some p) sg mode /\
    match a.2 with
    | Ok cr => hasUsageStore s = true /\
        us_consume (uenv (wTick w)) (charge_input p req tok sg mode now) (wStore w) = (Ok cr, wStore w')
    | Err _ => True
    end) w.
Proof.
  unfold consumeGenericQuota. cbv zeta. case_if; bprop; [apply wp_ret; by split; [lia|]|].
  apply wp_bind, wp_store. intros r st w1 Hc <- T1 _ _. apply wp_ret. split; [lia|]. split; [done|].
  by destruct r.
Qed.

Lemma wp_finalize p req tok sg now (w : W) :
  wp (finalizeByMode clk uenv s p req tok sg (tpMode p) now) (fun res w' => (wTick w <= wTick w')%nat /\
    (Allowed res = true -> entitled p req tok sg (wStore w) (wStore w'))) w.
Proof.
  unfold finalizeByMode, entitled. rewrite no_dry_run.
  destruct (String.eqb_spec (tpMode p) "ip_bound") as [E|_]; [rewrite E|
    destruct (String.eqb_spec (tpMode p) "generic") as [E|_]; [rewrite E|by apply wp_ret; split; [lia|]]].
  - unfold finalizeIPBound. destruct (String.eqb_spec (RealIP req) "") as [Er|Er].
    { apply wp_bind. eapply wp_steady; [by apply steady_emit|]. intros _ w1 [T1 _ _ _].
      apply wp_ret. by split; [lia|]. }
    destruct (String.eqb_spec (tpIP p) "") as [Ei|Ei].
    + apply wp_bind. eapply wp_mono; [apply wp_bindEmptyIP|]. intros [[]|res] w1 [T1 Hf].
      * apply wp_bind, wp_get_token, wp_ret. split; [done|]. intros _. left. auto.
      * apply wp_ret. split; [done|]. congruence.
    + rewrite no_dry_run. apply wp_bind.
      destruct (sameIP (tpIP p) (RealIP req)) eqn:Es; apply wp_ret; [|by apply wp_ret; split; [lia|]].
      apply wp_bind, wp_get_token, wp_ret. split; [lia|]. intros _. left. auto 10.
  - unfold finalizeGeneric. apply wp_bind. eapply wp_mono; [apply wp_consumeQuota|].
    intros [id [cr|e]] w1 (T1 & _ & Hc); rewrite ?no_dry_run; [|by apply wp_ret; split; [lia|]].
    destruct (crAllowed cr) eqn:Ea; apply wp_ret; (split; [lia|]); [|done].
    intros _. right. split; [done|]. exists cr. unfold charged. naive_solver.
Qed.

(** The token cell holds nothing but the request's token. *)
Definition cell_ok (tok : string) (w : W) : Prop := forall p, wToken w = Some p -> DecodeToken tok = Ok p.

Lemma wp_verifyPoWOnly req tok sg (w : W) :
  cell_ok tok w ->
  wp (verifyPoWOnly clk uenv s req tok sg) (fun res w' => Allowed res = true ->
    exists p n, (wTick w <= n < wTick w')%nat /\ proven p req tok sg n /\
      entitled p req tok sg (wStore w) (wStore w')) w.
Proof.
  intros Hcell. unfold verifyPoWOnly. rewrite !no_dry_run.
  case_if; [by apply wp_ret|]. case_if; [by apply wp_ret|]. case_if; [by apply wp_ret|]. bprop.
  apply wp_bind, wp_get_token. destruct (wToken w) as [p|] eqn:Ek; [|by apply wp_ret].
  apply wp_bind, wp_clock. intros w1 [T1 S1 _ _]. cbv zeta.
  destruct (validateTokenForMode _ _ _ _ _ _) eqn:Ev; [by apply wp_ret; rewrite no_dry_run|].
  apply validateTokenForMode_iff in Ev.
  eapply wp_mono; [apply wp_finalize|]. intros res w2 [T2 He] Ha. exists p, (wTick w).
  split; [lia|]. split; [|rewrite <- S1; auto]. unfold proven. auto.
Qed.

Lemma wp_classify req tok sg (w : W) :
  wToken w = None ->
  wp (classifyPoW clk s tok sg (OriginalURI req) (RealIP req)) (fun a w' =>
    cell_ok tok w' /\ wStore w' = wStore w /\ (wTick w <= wTick w')%nat /\
    (a.1 = "valid"%string -> exists p n, wToken w' = Some p /\ a.2 = tpMode p /\
       (wTick w <= n < wTick w')%nat /\ proven p req tok sg n /\
       (tpMode p = "ip_bound"%string -> RealIP req <> ""%string /\
          (tpIP p = ""%string \/ sameIP (tpIP p) (RealIP req) = true)))) w.
Proof.
  intros Hn. unfold classifyPoW.
  assert (cell_ok tok w) as Hc0 by (intros p Hp; congruence).
  case_if; [by apply wp_ret|]. bprop.
  destruct (DecodeToken tok) as [p|e] eqn:Ed; [|by apply wp_ret].
  apply wp_bind, wp_set_token. intros w1 T1 S1 K1 _. apply wp_bind, wp_clock. intros w2 [T2 S2 K2 _].
  assert (cell_ok tok w2) as Hc by (intros q Hq; congruence).
  assert (forall (st : string) (P : Prop), st <> "valid"%string ->
    cell_ok tok w2 /\ wStore w2 = wStore w /\ (wTick w <= wTick w2)%nat /\ (st = "valid"%string -> P))
    as Hno by (intros; split_and!; [done|congruence|lia|done]).
  destruct (validateTokenForMode _ _ _ _ _ _) as [reason|] eqn:Ev.
  { apply wp_ret. apply Hno. unfold statusForValidationReason. simpl.
    by repeat case_if. }
  apply validateTokenForMode_iff in Ev.
  assert (Hyes : (tpMode p = "ip_bound"%string -> RealIP req <> ""%string /\
          (tpIP p = ""%string \/ sameIP (tpIP p) (RealIP req) = true)) ->
    cell_ok tok w2 /\ wStore w2 = wStore w /\ (wTick w <= wTick w2)%nat /\
    exists p' n, wToken w2 = Some p' /\ tpMode p = tpMode p' /\
       (wTick w <= n < wTick w2)%nat /\ proven p' req tok sg n /\
       (tpMode p' = "ip_bound"%string -> RealIP req <> ""%string /\
          (tpIP p' = ""%string \/ sameIP (tpIP p') (RealIP req) = true))).
  { intros Hip. split_and!; [done|congruence|lia|]. exists p, (wTick w1).
    split_and!; [congruence|done|lia|lia| |done]. unfold proven. auto. }
  destruct (String.eqb_spec (tpMode p) "ip_bound") as [E|E]; [|apply wp_ret; naive_solver].
  destruct (String.eqb_spec (RealIP req) ""); [by apply wp_ret, Hno|].
  destruct (String.eqb_spec (tpIP p) ""); simpl; [apply wp_ret; naive_solver|].
  destruct (sameIP (tpIP p) (RealIP req)); simpl; apply wp_ret; [naive_solver|].
  by apply Hno.
Qed.

Lemma good_mode p path sg now :
  good_token s p (tpMode p) path sg now -> tpMode p = "ip_bound"%string \/ tpMode p = "generic"%string.
Proof.
  intros (mc & Hm & _). unfold mode_config in Hm.
  destruct (String.eqb_spec (tpMode p) "ip_bound"); [by left|].
  destruct (String.eqb_spec (tpMode p) "generic"); [by right|done].
Qed.

(** ** The engine's verdicts *)

(** The context and the rules' view of a request with a valid token. *)
Record valid_ctx (req : AuthRequest) (tok sg : string) (p : TokenPayload) (v : verifyCtx)
  (q : RequestContext (counters C)) : Prop := {
  vx_req : vcReq v = req;
  vx_tok : vcTokenRaw v = tok;
  vx_sign : vcSign v = sg;
  vx_payload : vcPayload v = true;
  vx_status : rqPowStatus q = "valid"%string;
  vx_mode : rqPowMode q = tpMode p;
  vx_modes : tpMode p = "ip_bound"%string \/ tpMode p = "generic"%string;
  vx_ip : tpMode p = "ip_bound"%string -> RealIP req <> ""%string /\
          (tpIP p = ""%string \/ sameIP (tpIP p) (RealIP req) = true);
}.

Lemma steady_record (v : verifyCtx) res :
  exists l, steady (U := U) (C := C) 1 l (recordResult s v res).
Proof.
  eexists. unfold recordResult. eapply (steady_bind 1 0); [apply steady_since|]. intros t.
  eapply (steady_bind 0 0 (if hasMetrics s then _ else []) []).
  - destruct (hasMetrics s); [|apply steady_ret].
    eapply (steady_bind 0 0 [_] []); [apply steady_emit_total|]. intros _. by apply steady_emit.
  - intros _. case_if; [apply steady_ret|]. apply steady_bind0; [apply steady_get_token|].
    intros tk. by apply steady_emit.
Qed.

(** Recording, then answering [a]. *)
Lemma wp_record {A} (v : verifyCtx) res (a : A) (Q : A -> W -> Prop) (w : W) :
  (forall w', wTick w' = S (wTick w) -> wStore w' = wStore w -> Q a w') ->
  wp (_ ← recordResult s v res; mret a) Q w.
Proof.
  intros Hq. apply wp_bind. destruct (steady_record v res) as [l Hl].
  eapply wp_steady; [exact Hl|]. intros _ w' [T S _ _]. apply wp_ret. by apply Hq.
Qed.

Lemma wp_chargeQuota req tok sg p v q (w : W) :
  valid_ctx req tok sg p v q -> wToken w = Some p ->
  wp (chargeQuotaForRiskAllow clk uenv s v q) (fun a w' => (wTick w <= wTick w')%nat /\
    match a.2 with
    | Some res => Allowed res = false
    | None => entitled p req tok sg (wStore w) (wStore w')
    end) w.
Proof.
  intros [Er Et Es Ey Est Em Hm Hip] Hw. unfold chargeQuotaForRiskAllow, entitled.
  apply wp_bind, wp_get_token. rewrite Hw, Est, Ey, Em, Er, Et, Es. simpl.
  destruct Hm as [Hm|Hm]; rewrite Hm; simpl.
  - specialize (Hip Hm) as [Hr Hip]. destruct (String.eqb_spec (tpIP p) "") as [Ei|Ei].
    + apply wp_bind. eapply wp_mono; [apply wp_bindEmptyIP|]. intros [[]|res] w1 [T1 Hf].
      * apply wp_ret. split; [done|]. left. auto.
      * apply wp_record. intros w2 T2 _. split; [lia|done].
    + apply wp_ret. split; [lia|]. left. destruct Hip; [done|]. auto 10.
  - apply wp_bind, wp_clock. intros w1 [T1 S1 _ _]. apply wp_bind.
    eapply wp_mono; [apply wp_consumeQuota|].
    intros [id [cr|e]] w2 (T2 & _ & Hc); cbv zeta; rewrite ?no_dry_run.
    + destruct (crAllowed cr) eqn:Ea; simpl.
      * apply wp_ret. split; [lia|]. right. split; [done|]. exists cr. unfold charged.
        simpl in Hc. rewrite S1 in Hc. naive_solver.
      * apply wp_record. intros w3 T3 _. split; [lia|done].
    + apply wp_record. intros w3 T3 _. split; [lia|done].
Qed.

(** A verdict that does not accept on its own admits only a valid token. *)
Lemma wp_apply req tok sg v q st d tr (w : W) :
  one_of (dTarget d) [TargetACCEPT; TargetRATELIMIT] = false -> st = rqPowStatus q ->
  (st = "valid"%string -> exists p, valid_ctx req tok sg p v q /\ wToken w = Some p) ->
  wp (apply_decision clk uenv s v q st d tr) (fun a w' => (wTick w <= wTick w')%nat /\
    match a with
    | Some res => Allowed res = true -> exists p, wToken w = Some p /\ st = "valid"%string /\
                    entitled p req tok sg (wStore w) (wStore w')
    | None => w' = w
    end) w.
Proof.
  intros Ht -> Hv. unfold apply_decision, answer. rewrite Ht. cbv zeta.
  case_if; [by apply wp_record; intros; split; [lia|]|].
  case_if; [by apply wp_record; intros; split; [lia|]|].
  case_if; [|by apply wp_ret].
  destruct (String.eqb_spec (rqPowStatus q) "valid") as [E|E].
  - destruct (Hv E) as (p & Hc & Hw). apply wp_bind.
    eapply wp_mono; [by apply wp_chargeQuota|]. intros [v' [res|]] w1 [T1 Hd].
    + apply wp_ret. split; [done|]. simpl in Hd. congruence.
    + apply wp_record. intros w2 T2 S2. split; [lia|]. intros _. exists p. rewrite S2. auto.
  - case_if; [by apply wp_record; intros; split; [lia|]|].
    case_if; [|by apply wp_record; intros; split; [lia|]].
    apply wp_bind. eapply wp_steady; [by apply steady_emit|]. intros _ w1 [T1 _ _ _].
    apply wp_record. intros w2 T2 _. by split; [lia|].
Qed.

(** ** The whole request *)

(** Either there is no engine, or none of its verdicts accepts. *)
Definition never_accepts : Prop :=
  forall eng q (c : counters C) r c', riskEngine s = Some eng -> Evaluate eng q c = Some (Ok r, c') ->
    one_of (dTarget (resDecision r)) [TargetACCEPT; TargetRATELIMIT] = false.

Hypothesis demands : never_accepts.

Lemma steady_evaluate eng q : steady (U := U) (C := C) 0 [] (evaluate cenv s eng q).
Proof. apply steady_counters. Qed.

Lemma steady_bump q : steady (U := U) (C := C) 0 [] (bump_counters cenv s q).
Proof. unfold bump_counters. destruct (counterReg s); auto 6 with waf. Qed.

(** The frame every step before the decision keeps. *)
Lemma moved_rest k l (w w' : W) :
  moved k l w w' -> wTick w' = (k + wTick w)%nat /\ wStore w' = wStore w /\ wToken w' = wToken w.
Proof. by intros [? ? ? _]. Qed.

Lemma wp_runRisk req tok sg v q st (w : W) :
  st = rqPowStatus q ->
  (st = "valid"%string -> exists p, valid_ctx req tok sg p v q /\ wToken w = Some p) ->
  wp (runRiskEngine clk uenv cenv s v q st) (fun a w' => (wTick w <= wTick w')%nat /\
    match a with
    | Some res => Allowed res = true -> exists p, wToken w = Some p /\ st = "valid"%string /\
                    entitled p req tok sg (wStore w) (wStore w')
    | None => wStore w' = wStore w /\ wToken w' = wToken w
    end) w.
Proof.
  intros Est Hv. unfold runRiskEngine. destruct (riskEngine s) as [eng|] eqn:Ee; [|by apply wp_ret].
  apply wp_bind. unfold evaluate, with_counters, wp at 1.
  destruct (Evaluate _ _ _) as [[[r|e] c]|] eqn:Ev; simpl;
    try (apply wp_bind; eapply wp_steady; [by apply steady_emit|]; intros _ w1 Hm;
         apply moved_rest in Hm as (T1 & S1 & K1); apply wp_ret; simpl in *; split; [lia|done]).
  pose proof (demands _ _ _ _ _ Ee Ev) as Ht. set (w0 := MkWorldState _ _ _ _ _ _ _).
  apply wp_bind. eapply wp_steady; [apply steady_bump|]. intros _ w1 Hm1.
  apply moved_rest in Hm1 as (T1 & S1 & K1). apply wp_bind.
  eapply wp_steady; [case_if; [by apply steady_emit|apply steady_ret]|]. intros _ w2 Hm2.
  apply moved_rest in Hm2 as (T2 & S2 & K2).
  unfold w0 in *; simpl in *. rewrite <- K1, <- K2 in *.
  eapply wp_mono; [apply (wp_apply req tok sg); [done|done|exact Hv]|].
  intros [res|] w3 [T3 Ha]; (split; [lia|]).
  - rewrite <- S1, <- S2. done.
  - by subst w3; rewrite S2.
Qed.

Lemma wp_verify_token v req (w : W) :
  powEnabled s = true -> vcReq v = req -> wToken w = None ->
  wp (verify_token clk uenv cenv s v req true) (fun res w' => Allowed res = true -> admitted req w w') w.
Proof.
  intros Hp Hr Hw. unfold verify_token, admitted.
  destruct (extractTokenAndSign s (OriginalArgs req)) as [tok sg]. rewrite Hp. cbv zeta. cbn [negb].
  apply wp_bind.
  eapply wp_mono.
  { instantiate (1 := fun a w' =>
      cell_ok tok w' /\ wStore w' = wStore w /\ (wTick w <= wTick w')%nat /\
      (a.1 = "valid"%string -> exists p n, wToken w' = Some p /\ a.2 = tpMode p /\
       (wTick w <= n < wTick w')%nat /\ proven p req tok sg n /\
       (tpMode p = "ip_bound"%string -> RealIP req <> ""%string /\
          (tpIP p = ""%string \/ sameIP (tpIP p) (RealIP req) = true)))).
    case_if; [by apply wp_classify|]. apply wp_ret. split_and!; [intros p Hp'; congruence|done|lia|done]. }
  intros [st md] w1 (Hcell & S1 & T1 & Hval). simpl in Hval. apply wp_bind, wp_get_token. apply wp_bind.
  eapply wp_mono.
  { apply (wp_runRisk req tok sg); [done|]. intros Ev.
    destruct (Hval Ev) as (p & n & Hk & Hmd & _ & Hpr & Hip). exists p. split; [|done].
    split; simpl; [done|done|done|by rewrite Hk|done|done|by eapply good_mode, Hpr|done]. }
  intros [res|] w2 [T2 Ha].
  - apply wp_ret. intros Hal. destruct (Ha Hal) as (p & Hk & Ev & He).
    destruct (Hval Ev) as (p' & n & Hk' & _ & Hn & Hpr & _).
    assert (p' = p) as -> by congruence. exists p, n. split; [lia|]. rewrite <- S1. done.
  - destruct Ha as [S2 K2]. rewrite andb_false_r. apply wp_bind.
    eapply wp_mono; [apply (wp_verifyPoWOnly req tok sg)|].
    { intros p Hk. apply Hcell. congruence. }
    intros res w3 Ha. apply wp_record. intros w4 T4 S4 Hal.
    destruct (Ha Hal) as (p & n & Hn & Hpr & He). exists p, n. split; [lia|]. split; [done|].
    rewrite S4, <- S1, <- S2. done.
Qed.

Lemma Verify_admitted req w res w' :
  powEnabled s = true -> bypassAllEffective s = false -> svMatcher s (OriginalURI req) = true ->
  Verify clk uenv cenv s req w = (res, w') -> Allowed res = true -> admitted req w w'.
Proof.
  intros Hp Hb Hm Hv.
  assert (forall w1 v, wStore w1 = wStore w -> (wTick w <= wTick w1)%nat -> wToken w1 = None ->
    vcReq v = req ->
    wp (verify_token clk uenv cenv s v req true) (fun res w' => Allowed res = true -> admitted req w w') w1)
    as Hbody.
  { intros w1 v S1 T1 K1 Hreq. eapply wp_mono; [by apply wp_verify_token|].
    intros r w2 Ha Hal. specialize (Ha Hal). unfold admitted in *. rewrite S1 in Ha.
    destruct (extractTokenAndSign _ _). destruct Ha as (p & n & Hn & ?). exists p, n. split; [lia|done]. }
  eapply (wp_run _ (fun res w' => Allowed res = true -> admitted req w w')); [|exact Hv].
  clear Hv. unfold Verify. rewrite Hb, Hm. cbv zeta.
  apply wp_bind, wp_set_token. intros w1 T1 S1 K1 _. apply wp_bind, wp_clock. intros w2 [T2 S2 K2 _].
  unfold record_and_return. case_if; [by apply wp_record|].
  case_match; [|apply Hbody; simpl; congruence || lia].
  apply wp_bind. eapply wp_steady; [apply steady_pending|]. intros [h blocked] w3 [T3 S3 K3 _].
  case_if; [by apply wp_record|]. apply wp_bind.
  eapply wp_mono; [apply Hbody; simpl; congruence || lia|]. intros r w4 Ha.
  apply wp_bind. eapply wp_steady; [apply steady_pending|]. intros _ w5 [T5 S5 K5 _].
  apply wp_ret. intros Hal. specialize (Ha Hal). unfold admitted in *. rewrite S5.
  destruct (extractTokenAndSign _ _). destruct Ha as (p & n & Hn & ?). exists p, n. split; [lia|done].
Qed.

(** C5: with PoW on, no bypass, no dry run and an engine that is absent or
    never accepts by itself, a protected request is admitted only if it
    presented a token that decodes, that is good at an instant of the call
    (well formed for its mode, made for this path, in time, with the claimed
    work), and that entitles the client: bound to its address, first used by
    it, or charged one use in the store. *)
Theorem Verify_sound req w res w' :
  powEnabled s = true -> bypassAllEffective s = false -> svMatcher s (OriginalURI req) = true ->
  Verify clk uenv cenv s req w = (res, w') -> Allowed res = true -> admitted req w w'.
Proof. apply Verify_admitted. Qed.

End Sound.
