(* ===== verification/AuthCarry.v ===== *)
(** * What a request does to a count

    A count of the uses granted on one sign id, carried as an invariant through
    every method of the service.  The invariant is a parameter: [carried] says
    what it must keep over the calls of the store, and what the service's calls
    are known to be; [AuthQuota] and [Interleaving] are two uses of it. *)

From S2P Require Import Prelude GoStrings GoTime Pow Matcher Storage Config RiskMatcher RiskEngine.
From S2P Require Import RiskCounter Pending Auth App AuthLogic AuthTheory AuthSound.

Section Carry.
Context `{Unicode, JsonCodec, Regexp, MapRange}.
Context {U C : Type} `{UsageStore U, CounterStore C}.
Variable clk : nat -> Z.
Variable uenv : nat -> us_env.
Variable cenv : nat -> cs_env.
Variable s : Service.
Variables (id : string) (E : Z).

Notation W := (world (U := U) (C := C)).
Notation MA := (M (U := U) (C := C)).
#[local] Existing Instances M_ret M_bind.

(** [p] was decoded from a request and found good at the instant [n]. *)
Definition judged (p : TokenPayload) (n : nat) : Prop :=
  exists tok path sg, DecodeToken tok = Ok p /\ good_token s p (tpMode p) path sg (unix_sec (clk n)).

(** A token with this id expires at [E]. *)
Definition owns (p : TokenPayload) (sg mode : string) : Prop :=
  ComputeSignID (Some p) sg mode = id -> tpExpiresAt p = E.

(** At least [n] uses were granted to [id], in a state like [w]; [call_fine] says
    what is known of a call at an instant. *)
Variable carry : Z -> W -> Prop.
Variable call_fine : nat -> ConsumeInput -> Prop.

(** Dry run is off; the count may be lowered, survives steps that leave the store
    alone and reads of it, and grows by one with a charge; the service's calls,
    for good tokens judged at most four instants ago, are fine. *)
Record carried : Prop := {
  ca_dry : dryRunEffective s = false;
  ca_le : forall m n w, m <= n -> carry n w -> carry m w;
  ca_frame : forall n (w w' : W), wStore w' = wStore w -> (wTick w <= wTick w')%nat -> carry n w -> carry n w';
  ca_get : forall n i (w w' : W), carry n w -> wStore w' = (us_get (uenv (wTick w)) i (wStore w)).2 ->
    wTick w' = S (wTick w) -> carry n w';
  ca_consume : forall n inp (w w' : W) r, carry n w -> call_fine (wTick w) inp ->
    us_consume (uenv (wTick w)) inp (wStore w) = (r, wStore w') -> wTick w' = S (wTick w) ->
    carry (n + if is_charge inp r && bool_decide (ciID inp = id) then 1 else 0) w';
  ca_charge : forall p n0 m n req tok sg mode, judged p n0 -> (n0 <= m <= n)%nat -> (n <= n0 + 4)%nat ->
    owns p sg mode -> call_fine n (charge_input s p req tok sg mode (unix_sec (clk m)));
  ca_bind : forall p n0 m n req tok sg mode, judged p n0 -> (n0 <= m <= n)%nat -> (n <= n0 + 4)%nat ->
    owns p sg mode -> call_fine n (bind_input s p req tok sg mode (unix_sec (clk m)));
}.

Hypothesis ca : carried.

Lemma carry_moved n k l (w w' : W) : moved k l w w' -> carry n w -> carry n w'.
Proof. intros [T S _ _]. apply (ca_frame ca); [done|lia]. Qed.

(** [p] was good at an instant at most [k] before this one, and the clock read
    [now] since. *)
Definition fresh_at (k : nat) (p : TokenPayload) (now : Z) (w : W) : Prop :=
  exists n0 m, (n0 <= m <= wTick w)%nat /\ (wTick w <= n0 + k)%nat /\ judged p n0 /\ now = unix_sec (clk m).

Definition fresh (k : nat) (p : TokenPayload) (w : W) : Prop :=
  exists n0, (n0 <= wTick w <= n0 + k)%nat /\ judged p n0.

Lemma fresh_moved k j l p (w w' : W) : moved j l w w' -> fresh k p w -> fresh (j + k) p w'.
Proof. intros [T _ _ _] (n0 & Hn & He). exists n0. split; [lia|done]. Qed.

Lemma fresh_at_fresh k p now (w : W) : fresh_at k p now w -> fresh k p w.
Proof. intros (n0 & m & Hm & Hk & He & _). exists n0. split; [lia|done]. Qed.

Lemma fresh_read k p (w w' : W) :
  moved 1 [] w w' -> fresh k p w -> fresh_at (S k) p (unix_sec (clk (wTick w))) w'.
Proof. intros [T _ _ _] (n0 & Hn & He). exists n0, (wTick w). split_and!; (done || lia). Qed.

Lemma fresh_at_le k k' p now (w : W) : (k <= k')%nat -> fresh_at k p now w -> fresh_at k' p now w.
Proof. intros Hk (n0 & m & Hn & Ht & He). exists n0, m. split; [done|]. split; [lia|done]. Qed.

Lemma fresh_le k k' p (w : W) : (k <= k')%nat -> fresh k p w -> fresh k' p w.
Proof. intros Hk (n0 & Hn & He). exists n0. split; [lia|done]. Qed.

Lemma wp_carry_get n i (w : W) (Q : result storage_error UsageRecord -> W -> Prop) :
  carry n w -> (forall r w', wTick w' = S (wTick w) -> carry n w' -> Q r w') -> wp (store_Get uenv i) Q w.
Proof.
  intros Hq HQ. apply wp_store. intros r st w' Hg Hst Ht _ _. apply HQ; [done|].
  apply (ca_get ca n i w); [done|by rewrite Hg|done].
Qed.

Lemma wp_carry_consume n inp (w : W) (Q : result storage_error ConsumeResult -> W -> Prop) :
  carry n w -> call_fine (wTick w) inp ->
  (forall r w', wTick w' = S (wTick w) ->
     carry (n + if is_charge inp r && bool_decide (ciID inp = id) then 1 else 0) w' -> Q r w') ->
  wp (store_Consume uenv inp) Q w.
Proof.
  intros Hq Hc HQ. apply wp_store. intros r st w' Hg Hst Ht _ _. apply HQ; [done|].
  apply (ca_consume ca n inp w); [done|done|by rewrite Hst|done].
Qed.

(** First-use binding grants nothing. *)
Lemma wp_carry_bind n p req tok sg mode (w : W) :
  carry n w -> fresh 2 p w -> owns p sg mode ->
  wp (bindEmptyIPFirstUse clk uenv s p req tok sg mode) (fun _ w' => carry n w') w.
Proof.
  intros Hq Hf Ho. unfold bindEmptyIPFirstUse. cbv zeta.
  apply wp_bind, wp_set_token. intros w1 T1 S1 _ _.
  assert (carry n w1) as Hq1 by (apply (ca_frame ca n w); [done|lia|done]).
  case_if.
  - apply wp_bind. eapply wp_steady; [by apply steady_emit|]. intros _ w2 Hm. apply wp_ret.
    by eapply carry_moved.
  - apply wp_bind, (wp_carry_get n); [done|]. intros rec w2 T2 Hq2.
    destruct rec as [rec|[]]; try (by apply wp_ret); [case_if; by apply wp_ret|].
    apply wp_bind, wp_clock. intros w3 Hm. assert (carry n w3) as Hq3 by by eapply carry_moved.
    destruct Hm as [T3 _ _ _], Hf as (n0 & Hn0 & He).
    apply wp_bind. eapply (wp_carry_consume n); [done|apply (ca_bind ca p n0); [done|lia|lia|done]|].
    intros r w4 _ Hq4. destruct r as [cr|e]; simpl in Hq4; rewrite ?andb_false_r in Hq4; simpl in Hq4;
        rewrite Z.add_0_r in Hq4; by apply wp_ret.
Qed.

(** ** What counts as a use *)

(** A [HEAD] request is not charged when the configuration says so. *)
Definition skipped (req : AuthRequest) : bool :=
  (OriginalMethod req =? "HEAD")%string && negb (mCountHeadRequest (mGeneric (pModes (cPow (cfg s))))).

(** The answer admits the request on [id], and the request counts: HEAD does not
    unless the configuration says so. *)
Definition uses_id (req : AuthRequest) (res : AuthResult) : bool :=
  Allowed res && (Mode res =? "generic")%string && (SignID res =? id)%string && negb (skipped req).

Definition used (req : AuthRequest) (res : AuthResult) : Z := if uses_id req res then 1 else 0.

(** A charge on the id [i]. *)
Definition charge_of (req : AuthRequest) (i : string) : Z :=
  if (i =? id)%string && negb (skipped req) then 1 else 0.

Lemma used_le_charge req res : used req res <= charge_of req (SignID res).
Proof.
  unfold used, uses_id, charge_of. destruct (Allowed res), (Mode res =? "generic")%string,
    (SignID res =? id)%string, (skipped req); simpl; lia.
Qed.

Lemma used_denied req res : Allowed res = false -> used req res = 0.
Proof. unfold used, uses_id. by intros ->. Qed.

Lemma used_other req res : Mode res <> "generic"%string -> used req res = 0.
Proof. unfold used, uses_id. intros Hm%String.eqb_neq. rewrite Hm, andb_false_r. done. Qed.

Lemma wp_carry_charge n p req tok sg mode now (w : W) :
  carry n w -> fresh_at 2 p now w -> owns p sg mode ->
  wp (consumeGenericQuota uenv s p req tok sg mode now) (fun a w' =>
    a.1 = ComputeSignID (Some p) sg mode /\
    match a.2 with
    | Ok cr => if crAllowed cr then carry (n + charge_of req a.1) w' else carry n w'
    | Err _ => carry n w'
    end) w.
Proof.
  intros Hq (n0 & m & Hm & Hk & He & ->) Ho. unfold consumeGenericQuota. cbv zeta. case_if; [by apply wp_ret|].
  apply wp_bind. eapply (wp_carry_consume n); [done|apply (ca_charge ca p n0); [done|lia|lia|done]|].
  intros r w1 _ Hq1. apply wp_ret. split; [done|]. destruct r as [cr|e]; simpl in Hq1 |- *.
    + destruct (crAllowed cr); simpl in Hq1; [|by rewrite Z.add_0_r in Hq1].
      replace (charge_of req _) with (if negb (skipped req) && bool_decide (ComputeSignID (Some p) sg mode = id)
        then 1 else 0); [exact Hq1|].
      unfold charge_of. simpl. rewrite andb_comm. f_equal. f_equal.
      destruct (String.eqb_spec (ComputeSignID (Some p) sg mode) id);
        [by rewrite bool_decide_eq_true_2|by rewrite bool_decide_eq_false_2].
    + by rewrite Z.add_0_r in Hq1.
Qed.

(** ** The methods that decide *)

Lemma no_dry res : maybeDryRun s res = res.
Proof. apply no_dry_run, ca. Qed.

(** First-use binding grants nothing, and its refusals admit nothing. *)
Lemma wp_carry_bind' n p req tok sg mode (w : W) :
  carry n w -> fresh 2 p w -> owns p sg mode ->
  wp (bindEmptyIPFirstUse clk uenv s p req tok sg mode)
    (fun r w' => carry n w' /\ match r with Ok _ => True | Err res => Allowed res = false end) w.
Proof.
  intros Hq Hf Ho. eapply wp_mono.
  - apply wp_conj; [by apply (wp_carry_bind n)|by apply wp_bindEmptyIP, ca].
  - intros r w1 [Hq1 [_ Hr]]. split; [done|]. by destruct r.
Qed.

Lemma carry_unused n req res (w : W) :
  Allowed res = false \/ Mode res <> "generic"%string -> carry n w -> carry (n + used req res) w.
Proof.
  intros [Hr|Hr] Hq; [rewrite used_denied|rewrite used_other]; rewrite ?Z.add_0_r; done.
Qed.

(** The same after a step of the frame. *)
Lemma carry_unused_moved n req res k l (w w' : W) :
  Allowed res = false \/ Mode res <> "generic"%string -> moved k l w w' -> carry n w ->
  carry (n + used req res) w'.
Proof. intros Hr Hm Hq. apply carry_unused; [done|]. by eapply carry_moved. Qed.

Lemma wp_carry_finalize n p req tok sg now (w : W) :
  carry n w -> fresh_at 2 p now w -> owns p sg (tpMode p) ->
  wp (finalizeByMode clk uenv s p req tok sg (tpMode p) now) (fun res w' => carry (n + used req res) w') w.
Proof.
  intros Hq Hf Ho. unfold finalizeByMode. rewrite no_dry.
  destruct (String.eqb_spec (tpMode p) "ip_bound") as [Em|_]; [rewrite Em in *|
    destruct (String.eqb_spec (tpMode p) "generic") as [Em|_]; [rewrite Em in *|
      by apply wp_ret, carry_unused; [left|]]].
  - unfold finalizeIPBound. case_if.
    { apply wp_bind. eapply wp_steady; [by apply steady_emit|]. intros _ w1 Hm. apply wp_ret.
      by eapply carry_unused_moved; [left| |]. }
    apply wp_bind. case_if; [|case_if].
    + eapply wp_mono; [apply (wp_carry_bind' n); [done|by eapply fresh_at_fresh|done]|]. intros [[]|res] w1 [Hq1 Hr].
      * apply wp_bind, wp_get_token, wp_ret, carry_unused; [by right|done].
      * apply wp_ret, carry_unused; [by left|done].
    + apply wp_ret, wp_ret. rewrite no_dry. by apply carry_unused; [left|].
    + apply wp_ret, wp_bind, wp_get_token, wp_ret, carry_unused; [by right|done].
  - unfold finalizeGeneric. apply wp_bind. eapply wp_mono; [by apply (wp_carry_charge n)|].
    intros [i [cr|e]] w1 [Hi Hc]; simpl in *; subst i; rewrite ?no_dry.
    + destruct (crAllowed cr); simpl; apply wp_ret; [|by apply carry_unused; [left|]].
      eapply (ca_le ca); [|exact Hc]. pose proof (used_le_charge req
        (set_uses (crUses cr) (crMaxUses cr) (withSignID (allow ReasonGenericValid "generic")
           (ComputeSignID (Some p) sg "generic")))) as Hu. simpl in Hu. lia.
    + by apply wp_ret, carry_unused; [left|].
Qed.

(** Every token the request can present is [id]'s only if it expires at [E]. *)
Definition request_owns (req : AuthRequest) : Prop :=
  let '(tok, sg) := extractTokenAndSign s (OriginalArgs req) in
  forall p, DecodeToken tok = Ok p -> owns p sg (tpMode p).

Lemma good_fresh tok p path sg (w w' : W) :
  DecodeToken tok = Ok p -> good_token s p (tpMode p) path sg (unix_sec (clk (wTick w))) ->
  wTick w' = (1 + wTick w)%nat -> fresh_at 1 p (unix_sec (clk (wTick w))) w'.
Proof.
  intros Hd Hg T. exists (wTick w), (wTick w). split_and!; [lia|lia|lia| |done]. by exists tok, path, sg.
Qed.

Lemma wp_carry_powOnly n req tok sg (w : W) :
  carry n w -> cell_ok tok w -> (forall p, DecodeToken tok = Ok p -> owns p sg (tpMode p)) ->
  wp (verifyPoWOnly clk uenv s req tok sg) (fun res w' => carry (n + used req res) w') w.
Proof.
  intros Hq Hcell Ho. unfold verifyPoWOnly. rewrite !no_dry.
  do 3 (case_if; [by apply wp_ret, carry_unused; [left|]|]).
  apply wp_bind, wp_get_token. destruct (wToken w) as [p|] eqn:Ek; [|by apply wp_ret, carry_unused; [left|]].
  apply wp_bind, wp_clock. intros w1 Hm. cbv zeta.
  destruct (validateTokenForMode _ _ _ _ _ _) eqn:Ev.
  { apply wp_ret. rewrite no_dry. by eapply carry_unused_moved; [left| |]. }
  apply validateTokenForMode_iff in Ev. apply wp_carry_finalize; [by eapply carry_moved| |by apply Ho, Hcell].
  eapply fresh_at_le; [|eapply good_fresh; [by apply Hcell|exact Ev|apply Hm]]. lia.
Qed.

(** The classification leaves the count, and a valid token is fresh after it. *)
Lemma wp_carry_classify n req tok sg (w : W) :
  carry n w -> wToken w = None ->
  wp (classifyPoW clk s tok sg (OriginalURI req) (RealIP req)) (fun a w' =>
    carry n w' /\ cell_ok tok w' /\
    (a.1 = "valid"%string -> exists p, wToken w' = Some p /\ a.2 = tpMode p /\ fresh 1 p w')) w.
Proof.
  intros Hq Hn. unfold classifyPoW.
  assert (cell_ok tok w) as Hc0 by (intros p Hp; congruence).
  case_if; [by apply wp_ret|]. destruct (DecodeToken tok) as [p|e] eqn:Ed; [|by apply wp_ret].
  apply wp_bind, wp_set_token. intros w1 T1 S1 K1 _. apply wp_bind, wp_clock. intros w2 Hm.
  assert (carry n w2 /\ cell_ok tok w2) as [Hq2 Hc].
  { split; [eapply carry_moved; [exact Hm|]; by apply (ca_frame ca n w); [|lia|]|].
    intros q Hk. destruct Hm as [_ _ K _]. congruence. }
  destruct (validateTokenForMode _ _ _ _ _ _) as [reason|] eqn:Ev.
  { apply wp_ret. split; [done|]. split; [done|]. unfold statusForValidationReason. simpl. by repeat case_if. }
  apply validateTokenForMode_iff in Ev.
  assert (exists p', wToken w2 = Some p' /\ tpMode p = tpMode p' /\ fresh 1 p' w2) as Hf.
  { exists p. destruct Hm as [T2 _ K2 _]. split; [congruence|]. split; [done|].
    eapply fresh_at_fresh, good_fresh; [exact Ed|exact Ev|done]. }
  repeat case_if; apply wp_ret; auto.
Qed.

(** ** The engine's verdicts *)

(** What the engine's part knows of a valid token. *)
Record charge_ctx (req : AuthRequest) (v : verifyCtx) (q : RequestContext (counters C)) (p : TokenPayload)
  (w : W) : Prop := {
  cx_token : wToken w = Some p;
  cx_fresh : fresh 1 p w;
  cx_mode : rqPowMode q = tpMode p;
  cx_owns : owns p (vcSign v) (tpMode p);
}.

Definition may_charge (req : AuthRequest) (v : verifyCtx) (q : RequestContext (counters C)) (w : W) : Prop :=
  vcReq v = req /\ vcSignID v = ""%string /\
  (rqPowStatus q = "valid"%string -> exists p, charge_ctx req v q p w).

(** Recording, then answering [a]. *)
Lemma wp_carry_record {A} n (v : verifyCtx) res (a : A) (Q : A -> W -> Prop) (w : W) :
  carry n w -> (forall w', carry n w' -> Q a w') -> wp (_ ← recordResult s v res; mret a) Q w.
Proof.
  intros Hq HQ. apply wp_record. intros w' T S. apply HQ. by apply (ca_frame ca n w); [|lia|].
Qed.

Hypothesis id_ne : id <> ""%string.

Lemma charge_of_empty req : charge_of req "" = 0.
Proof. unfold charge_of. destruct (String.eqb_spec "" id); [congruence|done]. Qed.

(** The context that comes back names the id that was charged; one that is
    [id] was charged under the generic mode. *)
Lemma wp_carry_chargeQuota n req v q (w : W) :
  carry n w -> may_charge req v q w ->
  wp (chargeQuotaForRiskAllow clk uenv s v q) (fun a w' =>
    match a.2 with
    | Some res => Allowed res = false /\ carry n w'
    | None => carry (n + charge_of req (vcSignID a.1)) w'
    end) w.
Proof.
  intros Hq (Hr & Hid & Hv). unfold chargeQuotaForRiskAllow. apply wp_bind, wp_get_token.
  assert (carry (n + charge_of req (vcSignID v)) w) as Hq0 by
    (rewrite Hid, charge_of_empty, Z.add_0_r; done).
  destruct (if _ && _ then wToken w else None) as [p|] eqn:Ep; [|by apply wp_ret].
  case_if_in Ep; [|done]. bprop. destruct (Hv ltac:(done)) as (p' & [Hk Hf Hm Ho]).
  assert (p' = p) as -> by congruence. subst req. case_if; bprop; [|case_if; bprop; [|by apply wp_ret]].
  - assert (tpMode p = "generic"%string) as Eg by congruence. rewrite Eg in Ho.
    apply wp_bind, wp_clock. intros w1 Hmv. apply wp_bind.
    eapply wp_mono; [apply (wp_carry_charge n p (vcReq v));
      [by eapply carry_moved|exact (fresh_read 1 _ _ _ Hmv Hf)|exact Ho]|].
    intros [i [cr|e]] w2 [Hi Hc]; cbv zeta; simpl in Hc.
    + destruct (crAllowed cr); simpl; [by apply wp_ret|].
      eapply wp_carry_record; [exact Hc|]. intros w3 Hq3. simpl. by rewrite no_dry.
    + eapply wp_carry_record; [exact Hc|]. intros w3 Hq3. by simpl.
  - assert (tpMode p = "ip_bound"%string) as Eg by congruence. rewrite Eg in Ho.
    apply wp_bind. eapply wp_mono; [apply (wp_carry_bind' n); [done|by eapply fresh_le; [|exact Hf]; lia|done]|].
    intros [[]|res] w1 [Hq1 Hres].
    + apply wp_ret. simpl. by rewrite Hid, charge_of_empty, Z.add_0_r.
    + eapply wp_carry_record; [exact Hq1|]. by intros w2 Hq2.
Qed.

(** What an answer of the engine's part leaves. *)
Definition carry_after (n : Z) (req : AuthRequest) (o : option AuthResult) (w : W) : Prop :=
  match o with Some res => carry (n + used req res) w | None => carry n w end.

Lemma wp_carry_answer n (v : verifyCtx) req res (w : W) :
  carry n w -> Allowed res = false \/ Mode res <> "generic"%string ->
  wp (answer s v res) (carry_after n req) w.
Proof.
  intros Hq Hr. unfold answer. apply (wp_carry_record n); [done|]. intros w' Hq'. simpl.
  by apply carry_unused.
Qed.

(** Charge, then answer with the id that was charged. *)
Lemma wp_carry_charge_answer n req v q (k : verifyCtx -> AuthResult) (w : W) :
  carry n w -> may_charge req v q w -> (forall v', SignID (k v') = vcSignID v') ->
  wp ('(v', denied) ← chargeQuotaForRiskAllow clk uenv s v q;
      match denied with Some res => mret (Some res) | None => answer s v' (k v') end)
    (carry_after n req) w.
Proof.
  intros Hq Hm Hk. apply wp_bind. eapply wp_mono; [by apply wp_carry_chargeQuota|].
  intros [v' [res|]] w1 Hd; simpl in Hd.
  - apply wp_ret. destruct Hd as [Ha Hq1]. by apply carry_unused; [left|].
  - unfold answer. eapply wp_carry_record; [exact Hd|]. intros w2 Hq2. simpl.
    eapply (ca_le ca); [|exact Hq2]. pose proof (used_le_charge req (k v')). rewrite Hk in *. lia.
Qed.

Lemma wp_carry_apply n req v q st d tr (w : W) :
  carry n w -> may_charge req v q w ->
  wp (apply_decision clk uenv s v q st d tr) (carry_after n req) w.
Proof.
  intros Hq Hm. unfold apply_decision. cbv zeta.
  case_if; [|case_if; [by apply wp_carry_answer; [|left]|
    case_if; [by apply wp_carry_answer; [|left]|case_if; [|by apply wp_ret]]]].
  - by apply (wp_carry_charge_answer n req v q (fun v' => set_decision _ _)).
  - case_if; [by apply (wp_carry_charge_answer n req v q (fun v' => set_uses _ _ _))|].
    case_if; [by apply wp_carry_answer; [|left]|]. case_if; [|by apply wp_carry_answer; [|left]].
    apply wp_bind. eapply wp_steady; [by apply steady_emit|]. intros _ w1 Hmv.
    apply wp_carry_answer; [by eapply carry_moved|by left].
Qed.

Lemma may_charge_moved req v q l (w w' : W) : moved 0 l w w' -> may_charge req v q w -> may_charge req v q w'.
Proof.
  intros Hm (Hr & Hi & Hv). split; [done|]. split; [done|]. intros Hs. destruct (Hv Hs) as (p & [Hk Hf Hmd Ho]).
  exists p. pose proof (fresh_moved 1 0 _ _ _ _ Hm Hf) as Hf'. destruct Hm as [_ _ K _]. split; [congruence|done..].
Qed.

Lemma answer_some (v : verifyCtx) res (w : W) : (answer (C := C) s v res w).1 <> None.
Proof. unfold answer, mbind, M_bind. by destruct (recordResult _ _ _ w). Qed.

Lemma charge_answer_some v q (k : verifyCtx -> AuthResult) (w : W) :
  (('(v', denied) ← chargeQuotaForRiskAllow clk uenv s v q;
    match denied with Some res => mret (Some res) | None => answer s v' (k v') end : MA _) w).1 <> None.
Proof.
  unfold mbind, M_bind. destruct (chargeQuotaForRiskAllow _ _ _ _ _ w) as [[v1 [res|]] w1]; [done|].
  apply answer_some.
Qed.

(** A decision that falls through has done nothing. *)
Lemma apply_falls_through v q st d tr (w : W) :
  wp (apply_decision clk uenv s v q st d tr) (fun a w' => a = None -> wToken w' = wToken w) w.
Proof.
  assert (forall (m : MA (option AuthResult)), (m w).1 <> None ->
    wp m (fun a w' => a = None -> wToken w' = wToken w) w) as Hno by (intros m Hn Ha; by apply Hn in Ha).
  unfold apply_decision. cbv zeta.
  case_if; [apply Hno, (charge_answer_some _ _ (fun v' => set_decision _ _))|].
  case_if; [apply Hno, answer_some|]. case_if; [apply Hno, answer_some|]. case_if; [|by apply wp_ret].
  case_if; [apply Hno, (charge_answer_some _ _ (fun v' => set_uses _ _ _))|].
  case_if; [apply Hno, answer_some|]. case_if; [|apply Hno, answer_some].
  apply Hno. unfold mbind, M_bind at 1. simpl. apply answer_some.
Qed.

Lemma wp_carry_runRisk n req v q st (w : W) :
  carry n w -> may_charge req v q w ->
  wp (runRiskEngine clk uenv cenv s v q st) (fun a w' => carry_after n req a w' /\
    (a = None -> wToken w' = wToken w)) w.
Proof.
  intros Hq Hm. unfold runRiskEngine. destruct (riskEngine s) as [eng|]; [|by apply wp_ret].
  apply wp_bind. eapply wp_steady; [apply steady_evaluate|]. intros ev w1 M1.
  pose proof (carry_moved _ _ _ _ _ M1 Hq) as Hq1. pose proof (may_charge_moved _ _ _ _ _ _ M1 Hm) as Hm1.
  destruct ev as [[r|e]|]; [|apply wp_bind; eapply wp_steady; [by apply steady_emit|]; intros _ w2 M2;
    apply wp_ret; (split; [by eapply carry_moved|]); destruct M1, M2; congruence..].
  apply wp_bind. eapply wp_steady; [apply steady_bump|]. intros _ w2 M2.
  pose proof (carry_moved _ _ _ _ _ M2 Hq1) as Hq2. pose proof (may_charge_moved _ _ _ _ _ _ M2 Hm1) as Hm2.
  apply wp_bind. eapply wp_steady; [case_if; [by apply steady_emit|apply steady_ret]|]. intros _ w3 M3.
  pose proof (carry_moved _ _ _ _ _ M3 Hq2) as Hq3. pose proof (may_charge_moved _ _ _ _ _ _ M3 Hm2) as Hm3.
  assert (wToken w3 = wToken w) as <- by (destruct M1, M2, M3; congruence).
  apply wp_conj; [by apply wp_carry_apply|].
  apply apply_falls_through.
Qed.

(** ** The whole request *)

Lemma wp_carry_return n req (v : verifyCtx) res (w : W) :
  carry n w -> used req res = 0 ->
  wp (record_and_return s v res) (fun r w' => carry (n + used req r) w') w.
Proof.
  intros Hq Hu. unfold record_and_return. apply (wp_carry_record n); [done|]. intros w' Hq'.
  by rewrite Hu, Z.add_0_r.
Qed.

Lemma wp_carry_handled n req v q st (k : MA AuthResult) (w : W) :
  carry n w -> may_charge req v q w ->
  (forall w', carry n w' -> wToken w' = wToken w -> wp k (fun res w' => carry (n + used req res) w') w') ->
  wp (handled ← runRiskEngine clk uenv cenv s v q st;
      match handled with Some res => mret res | None => k end)
    (fun res w' => carry (n + used req res) w') w.
Proof.
  intros Hq Hm Hk. apply wp_bind. eapply wp_mono; [by apply (wp_carry_runRisk n req)|].
  intros [res|] w1 [Hq1 Ht]; simpl in Hq1; [by apply wp_ret|apply Hk; auto].
Qed.

Lemma wp_carry_token n v req prot (w : W) :
  carry n w -> wToken w = None -> vcReq v = req -> vcSignID v = ""%string -> request_owns req ->
  wp (verify_token clk uenv cenv s v req prot) (fun res w' => carry (n + used req res) w') w.
Proof.
  unfold request_owns, verify_token. intros Hq Hw Hr Hi Ho.
  destruct (extractTokenAndSign s (OriginalArgs req)) as [tok sg]. cbv zeta. case_if.
  - unfold verifyWithoutPow. destruct (riskEngine s) as [eng|]; [|by apply wp_carry_return].
    apply wp_carry_handled; [done| |intros; by apply wp_carry_return]. split; [done|]. by split.
  - apply wp_bind.
    eapply (wp_mono _ (fun a w' => carry n w' /\ cell_ok tok w' /\
      (a.1 = "valid"%string -> exists p, wToken w' = Some p /\ a.2 = tpMode p /\ fresh 1 p w'))).
    { case_if; [by apply wp_carry_classify|]. apply wp_ret. split; [done|]. split; [intros p Hp; congruence|done]. }
    intros [st md] w1 (Hq1 & Hcell & Hval). apply wp_bind, wp_get_token.
    apply wp_carry_handled; [done| |].
    { split; [done|]. split; [done|]. intros Hs. destruct (Hval Hs) as (p & Hk & Hm & Hf).
      exists p. split; simpl; [done|done|done|by apply Ho, Hcell]. }
    intros w2 Hq2 Hk2. case_if; [by apply wp_carry_return|].
    apply wp_bind. eapply wp_mono; [apply (wp_carry_powOnly n req); [done| |exact Ho]|].
    { intros p Hp. apply Hcell. congruence. }
    intros res w3 Hq3. unfold record_and_return. eapply wp_carry_record; [exact Hq3|]. done.
Qed.

Lemma wp_carry_Verify n req (w : W) :
  carry n w -> request_owns req ->
  wp (Verify clk uenv cenv s req) (fun res w' => carry (n + used req res) w') w.
Proof.
  intros Hq Ho. unfold Verify. cbv zeta.
  apply wp_bind, wp_set_token. intros w1 T1 S1 K1 _.
  assert (carry n w1) as Hq1 by (apply (ca_frame ca n w); [done|lia|done]).
  apply wp_bind, wp_clock. intros w2 M2. pose proof (carry_moved _ _ _ _ _ M2 Hq1) as Hq2.
  assert (wToken w2 = None) as K2 by (destruct M2; congruence).
  case_if; [by apply wp_carry_return|]. case_if; [by apply wp_carry_return|].
  case_match; [|by apply wp_carry_token].
  apply wp_bind. eapply wp_steady; [apply steady_pending|]. intros [h blocked] w3 M3.
  pose proof (carry_moved _ _ _ _ _ M3 Hq2) as Hq3. case_if; [by apply wp_carry_return|].
  apply wp_bind. eapply wp_mono; [apply wp_carry_token; [exact Hq3| |done|done|exact Ho]|].
  { destruct M3; congruence. }
  intros res w4 Hq4. apply wp_bind. eapply wp_steady; [apply steady_pending|]. intros _ w5 M5.
  apply wp_ret. by eapply carry_moved.
Qed.

End Carry.
