(* ===== verification/AuthQuota.v ===== *)
(** * The quota of a token, end to end

    Over any store that keeps the contract of [Storage], in any sequence of
    requests and cleanup turns, the service admits at most [max_uses] requests
    on one sign id in generic mode, dry run off, HEAD requests left out when the
    configuration does not count them ([used]).  [quota] is the count [AuthCarry] takes through every method. *)

From S2P Require Import Prelude GoStrings GoTime Pow Matcher Storage Config RiskMatcher RiskEngine.
From S2P Require Import RiskCounter Pending Auth App AuthLogic AuthTheory AuthSound AuthCarry.

Section Quota.
Context `{Unicode, JsonCodec, Regexp, MapRange}.
Context {U C : Type} `{UsageStoreLaws U, CounterStore C}.
Variable clk : nat -> Z.
Variable uenv : nat -> us_env.
Variable cenv : nat -> cs_env.
Variable s : Service.
Variables (id : string) (E Mx : Z).

Notation W := (world (U := U) (C := C)).
Notation MA := (M (U := U) (C := C)).
#[local] Existing Instances M_ret M_bind.

(** What is assumed of the deployment: dry run is off, time does not run
    backwards, the store reads the same clock, a store call follows the reading
    the token was judged at within the grace period, the configured cap is at
    most [Mx], cleanup keeps the grace period, and the service's calls, which are
    for good tokens and carry a reading of the clock, are within what the store
    accepts. *)
Record deployed : Prop := {
  dp_dry : dryRunEffective s = false;
  dp_mono : forall n m, (n <= m)%nat -> clk n <= clk m;
  dp_store : forall n, us_time (uenv n) = unix_sec (clk n);
  dp_prompt : forall n m, (n <= m <= n + 4)%nat -> unix_sec (clk m) <= unix_sec (clk n) + us_grace;
  dp_cap : 1 <= mMaxUses (mGeneric (pModes (cPow (cfg s)))) <= Mx;
  dp_grace : us_grace <= clExpiredGracePeriod (cCleanup (cfg s)) / second;
  dp_charge : forall p n0 m n req tok sg mode, judged clk s p n0 -> (n0 <= m <= n)%nat -> (n <= n0 + 4)%nat ->
    us_call_ok (uenv n) (charge_input s p req tok sg mode (unix_sec (clk m)));
  dp_bind : forall p n0 m n req tok sg mode, judged clk s p n0 -> (n0 <= m <= n)%nat -> (n <= n0 + 4)%nat ->
    us_call_ok (uenv n) (bind_input s p req tok sg mode (unix_sec (clk m)));
}.

Hypothesis dp : deployed.

Lemma sec_mono n m : (n <= m)%nat -> unix_sec (clk n) <= unix_sec (clk m).
Proof. intros Hn. apply Z.div_le_mono; [done|]. by apply (dp_mono dp). Qed.

(** ** The invariant *)

(** [n] uses were granted to [id] so far: they are on its record, unless the
    token has expired beyond the grace period. *)
Definition quota (n : Z) (w : W) : Prop :=
  us_inv (wStore w) /\ n <= Mx /\
  (record_ok E Mx (us_view (wStore w) id) /\ n <= view_uses (us_view (wStore w) id) \/
   E + us_grace < unix_sec (clk (wTick w))).

Lemma quota_le n m w : m <= n -> quota n w -> quota m w.
Proof. intros Hm (Hi & Hn & Hv). split; [done|]. split; [lia|]. destruct Hv as [[??]|]; [left|right]; split || auto; lia || auto. Qed.

Lemma quota_frame n (w w' : W) :
  wStore w' = wStore w -> (wTick w <= wTick w')%nat -> quota n w -> quota n w'.
Proof.
  unfold quota. intros -> Ht (Hi & Hn & Hv). split_and!; [done..|].
  destruct Hv as [?|Hd]; [by left|right]. pose proof (sec_mono _ _ Ht). lia.
Qed.

Lemma quota_moved n k l (w w' : W) : moved k l w w' -> quota n w -> quota n w'.
Proof. intros [T S _ _]. apply quota_frame; [done|lia]. Qed.

(** One event of the store at the current instant. *)
Lemma quota_event n ev c st (w w' : W) :
  ev_time ev = unix_sec (clk (wTick w)) -> ev_ok id E Mx ev ->
  us_step id ev (wStore w) = (c, st) -> wStore w' = st -> wTick w' = S (wTick w) ->
  quota n w -> quota (n + if c then 1 else 0) w'.
Proof.
  intros Ht Hok Hs Hst Htk (Hi & Hn & Hv). unfold quota. rewrite Hst.
  pose proof (sec_mono (wTick w) (wTick w') ltac:(lia)) as Hm.
  destruct (decide (E + us_grace < ev_time ev)) as [Hd|Ha].
  - destruct (us_step_dead id E Mx ev _ _ _ Hi Hok Hd Hs) as [Hi' ->]. split; [done|].
    split; [lia|right; lia].
  - destruct Hv as [[Hr Hu]|]; [|lia].
    destruct (us_step_alive id E Mx ev _ _ _ Hi Hr Hok ltac:(lia) Hs) as (Hi' & Hr' & Hc & Hu').
    split; [done|]. split; [destruct c; [specialize (Hc eq_refl)|]; lia|]. left. split; [done|].
    destruct c; lia.
Qed.

(** ** The calls of the service *)

Lemma judged_alive p n : judged clk s p n -> unix_sec (clk n) < tpExpiresAt p.
Proof. intros (? & ? & ? & _ & mc & _ & _ & _ & _ & [Ht _] & _). exact Ht. Qed.

Definition call_fine (n : nat) (inp : ConsumeInput) : Prop :=
  us_call_ok (uenv n) inp /\
  (ciID inp = id -> ciExpiresAt inp = E /\ 1 <= ciMaxUses inp <= Mx /\ us_time (uenv n) <= E + us_grace).

(** A call for a token of [id] that was good at [n0] comes before the token has
    expired beyond the grace period. *)
Lemma fine_call p n0 n inp sg mode :
  judged clk s p n0 -> (n0 <= n <= n0 + 4)%nat -> owns id E p sg mode -> us_call_ok (uenv n) inp ->
  ciID inp = ComputeSignID (Some p) sg mode -> ciExpiresAt inp = tpExpiresAt p -> 1 <= ciMaxUses inp <= Mx ->
  call_fine n inp.
Proof.
  intros Hj Hn Ho Hok Ei Ee Hm. split; [done|]. intros Hid. rewrite Ei in Hid. specialize (Ho Hid).
  pose proof (judged_alive _ _ Hj). pose proof (dp_prompt dp n0 n ltac:(lia)). rewrite (dp_store dp).
  split; [congruence|]. split; [lia|]. lia.
Qed.

Lemma quota_carried : carried clk uenv s id E quota call_fine.
Proof.
  split.
  - apply dp.
  - intros m n w. apply quota_le.
  - apply quota_frame.
  - intros n i w w' Hq Hst Ht. rewrite <- (Z.add_0_r n).
    apply (quota_event n (EvGet (uenv (wTick w)) i) false (wStore w') w w'); try done.
    + simpl. by rewrite (dp_store dp).
    + simpl. by rewrite Hst.
  - intros n inp w w' r Hq Hok Hc Ht.
    apply (quota_event n (EvConsume (uenv (wTick w)) inp) _ (wStore w') w w'); try done.
    + simpl. by rewrite (dp_store dp).
    + simpl. by rewrite Hc.
  - intros p n0 m n req tok sg mode Hj Hm Hn Ho. apply (fine_call p n0 n _ sg mode); [done|lia|done| |done..|apply dp].
    by apply (dp_charge dp p n0).
  - intros p n0 m n req tok sg mode Hj Hm Hn Ho. pose proof (dp_cap dp).
    apply (fine_call p n0 n _ sg mode); [done|lia|done| |done..|simpl; lia]. by apply (dp_bind dp p n0).
Qed.

Hypothesis id_ne : id <> ""%string.

(** ** Runs *)

Variable active : option (us_env -> U -> result storage_error Z).

Lemma wp_quota_cleanup n (w : W) :
  quota n w ->
  wp (cleanup_tick clk uenv active (hasMetrics s) (clExpiredGracePeriod (cCleanup (cfg s))))
    (fun _ w' => quota n w') w.
Proof.
  intros Hq. unfold cleanup_tick. apply wp_bind, wp_clock. intros w1 M1.
  pose proof (quota_moved _ _ _ _ _ M1 Hq) as Hq1. cbv zeta.
  apply wp_bind, wp_store. intros r st w2 Hc S2 T2 _ _.
  set (th := cleanup_threshold _ _) in *.
  assert (quota n w2) as Hq2.
  { rewrite <- (Z.add_0_r n). apply (quota_event n (EvCleanup (uenv (wTick w1)) th) false st w1 w2); try done.
    - simpl. by rewrite (dp_store dp).
    - simpl. rewrite (dp_store dp). unfold th, cleanup_threshold, unix_sec.
      pose proof (dp_grace dp) as Hg. pose proof (dp_mono dp (wTick w) (wTick w1) ltac:(destruct M1; lia)) as Hm.
      pose proof (Z.div_le_mono _ _ second ltac:(done) Hm) as Hd. unfold second in *.
      pose proof (Z.div_mod (clk (wTick w)) 1000000000 ltac:(lia)).
      pose proof (Z.mod_pos_bound (clk (wTick w)) 1000000000 ltac:(lia)).
      set (g := clExpiredGracePeriod (cCleanup (cfg s))) in *.
      pose proof (Z.div_mod g 1000000000 ltac:(lia)). pose proof (Z.mod_pos_bound g 1000000000 ltac:(lia)).
      assert ((clk (wTick w) - g) / 1000000000 <= clk (wTick w) / 1000000000 - g / 1000000000); [|lia].
      apply Z.lt_succ_r, Z.div_lt_upper_bound; lia.
    - simpl. by rewrite Hc. }
  destruct r as [removed|e]; [|eapply wp_steady; [by apply steady_emit|]; intros _ w3 M3; by eapply quota_moved].
  apply wp_bind. eapply wp_steady; [case_if; [by apply steady_emit|apply steady_ret]|]. intros _ w3 M3.
  pose proof (quota_moved _ _ _ _ _ M3 Hq2) as Hq3. unfold refreshActiveGauge.
  case_if; [by apply wp_ret|]. destruct active as [count|]; [|by apply wp_ret].
  apply wp_bind, wp_store. intros c st' w4 [= _ <-] S4 T4 _ _.
  assert (quota n w4) as Hq4 by (apply (quota_frame n w3); [done|lia|done]).
  destruct c; (eapply wp_steady; [by apply steady_emit|]; intros _ w5 M5; by eapply quota_moved).
Qed.

(** What happens to the service: requests, and turns of the cleanup loop. *)
Inductive happening := Serve (req : AuthRequest) | Clean.

(** The requests admitted on [id] in a run, those left out that are not to be
    counted ([used]). *)
Fixpoint admissions (l : list happening) (w : W) : Z :=
  match l with
  | [] => 0
  | Serve req :: l =>
      let '(res, w') := Verify clk uenv cenv s req w in used s id req res + admissions l w'
  | Clean :: l =>
      admissions l
        (cleanup_tick clk uenv active (hasMetrics s) (clExpiredGracePeriod (cCleanup (cfg s))) w).2
  end.

Definition happening_owns (h : happening) : Prop :=
  match h with Serve req => request_owns s id E req | Clean => True end.

Lemma admissions_quota l n w : quota n w -> Forall happening_owns l -> n + admissions l w <= Mx.
Proof.
  intros Hq Ho. revert n w Hq; induction Ho as [|[req|] l Hh Ho IH]; intros n w Hq; simpl.
  - destruct Hq as (_ & Hn & _). lia.
  - pose proof (wp_carry_Verify clk uenv cenv s id E quota call_fine quota_carried id_ne n req w Hq Hh) as Hv. unfold wp in Hv.
    destruct (Verify clk uenv cenv s req w) as [res w']. simpl in Hv. specialize (IH _ _ Hv). lia.
  - apply IH. apply (wp_quota_cleanup n w Hq).
Qed.

Lemma admissions_from_empty l w :
  us_inv (wStore w) -> us_view (wStore w) id = None -> Forall happening_owns l ->
  admissions l w <= Mx.
Proof.
  intros Hi Hn Ho. pose proof (admissions_quota l 0 w) as Ha. simpl in Ha. apply Ha; [|done].
  pose proof (dp_cap dp). split; [done|]. split; [lia|]. left. rewrite Hn. split; [by intros x|done].
Qed.


End Quota.
