(* ===== verification/AuthBehaviour.v ===== *)
(** * Verdicts: status codes, dry run, and when the store is left alone

    [yields P m]: every answer of [m] satisfies [P].  The status of a verdict
    agrees with its outcome unless a rule rejects under a reason of the allow
    list; dry run admits what the proof of work would refuse; nothing is
    charged when the proof of work is not asked for. *)

From S2P Require Import Prelude GoStrings GoTime Strconv Pow PowTheory Matcher Storage Config.
From S2P Require Import RiskMatcher RiskEngine RiskCounter Pending Auth AuthLogic AuthTheory.
From S2P Require Import AuthSound.

Section Behaviour.
Context `{Unicode, JsonCodec, Regexp, MapRange}.
Context {U C : Type} `{UsageStore U, CounterStore C}.
Variable clk : nat -> Z.
Variable uenv : nat -> us_env.
Variable cenv : nat -> cs_env.
Variable s : Service.

Notation W := (world (U := U) (C := C)).
Notation MA := (M (U := U) (C := C)).
#[local] Existing Instances M_ret M_bind.

(** ** Answers *)

Definition yields {A} (P : A -> Prop) (m : MA A) : Prop := forall w, P (m w).1.

Lemma yields_ret {A} (P : A -> Prop) a : P a -> yields P (mret a).
Proof. by intros ? w. Qed.

Lemma yields_bind {A B} (Q : A -> Prop) (P : B -> Prop) (m : MA A) (k : A -> MA B) :
  yields Q m -> (forall a, Q a -> yields P (k a)) -> yields P (m ≫= k).
Proof.
  intros Hm Hk w. unfold mbind, M_bind. specialize (Hm w). destruct (m w) as [a w1]. by apply Hk.
Qed.

Lemma yields_any {A} (m : MA A) : yields (fun _ => True) m.
Proof. done. Qed.

Lemma yields_after {A B} (P : B -> Prop) (m : MA A) (k : A -> MA B) :
  (forall a, yields P (k a)) -> yields P (m ≫= k).
Proof. intros Hk. by apply (yields_bind (fun _ => True)). Qed.

(** Recording, then answering. *)
Lemma yields_record {A} (P : A -> Prop) (v : verifyCtx) res a :
  P a -> yields P (_ ← recordResult (U := U) (C := C) s v res; mret a).
Proof. intros Ha. apply yields_after. intros _. by apply yields_ret. Qed.

(** ** The status of a verdict *)

(** 200 for an admission, a refusal's code otherwise. *)
Definition consistent (res : AuthResult) : Prop :=
  if Allowed res then HTTPStatus res = 200
  else HTTPStatus res = 403 \/ HTTPStatus res = 429 \/ HTTPStatus res = 500.

Lemma consistent_fields res res' :
  Allowed res' = Allowed res -> HTTPStatus res' = HTTPStatus res -> consistent res -> consistent res'.
Proof. unfold consistent. by intros -> ->. Qed.

Lemma consistent_deny reason : one_of reason allow_reasons = false -> consistent (deny reason).
Proof.
  intros Hr. unfold consistent, deny. cbn [Allowed HTTPStatus]. unfold statusForReason. rewrite Hr.
  repeat case_if; auto.
Qed.

Lemma consistent_denyMode reason mode : one_of reason allow_reasons = false -> consistent (denyMode reason mode).
Proof. intros Hr. by apply (consistent_fields (deny reason)); [..|apply consistent_deny]. Qed.

Lemma consistent_dry res : consistent res -> consistent (maybeDryRun s res).
Proof. unfold maybeDryRun. by case_if. Qed.

Lemma consistent_status st reason mode : st = 429 \/ st = 500 -> consistent (denyStatus st reason mode).
Proof. intros [->| ->]; unfold consistent; simpl; auto. Qed.

(** The reasons the checks give. *)
Lemma reasons_of_checks p mode path sg now r :
  validateTokenForMode s p mode path sg now = Some r -> one_of r allow_reasons = false.
Proof.
  unfold validateTokenForMode. destruct (mode_config s mode); [|by intros [= <-]].
  case_if; [by intros [= <-]|]. destruct (ValidatePayload _ _) as [|e]; [|intros [= <-]; by destruct e].
  case_if; [by intros [= <-]|]. unfold checkTime, checkSignAndDifficulty.
  repeat (case_if; [by intros [= <-]|]). done.
Qed.

#[local] Hint Resolve consistent_dry consistent_denyMode consistent_deny consistent_status : waf.

Lemma status_bind p req tok sg mode :
  yields (fun r => match r with Ok _ => True | Err res => consistent res end)
    (bindEmptyIPFirstUse (C := C) clk uenv s p req tok sg mode).
Proof.
  assert (forall id, consistent (maybeDryRun s (withSignID (denyStatus 500 ReasonStorageError mode) id))) as H5.
  { intros id. apply consistent_dry. unfold consistent. simpl. auto. }
  unfold bindEmptyIPFirstUse. cbv zeta. apply yields_after. intros _.
  case_if; [apply yields_after; intros _; by apply yields_ret|]. apply yields_after.
  intros [rec|[]]; try (by apply yields_ret); [case_if; apply yields_ret; auto with waf|].
  apply yields_after. intros t. apply yields_after. by intros [cr|e]; apply yields_ret.
Qed.

Lemma status_finalize p req tok sg mode now :
  yields consistent (finalizeByMode (C := C) clk uenv s p req tok sg mode now).
Proof.
  unfold finalizeByMode. case_if; [|case_if; [|by apply yields_ret; auto with waf]].
  - unfold finalizeIPBound. case_if; [apply yields_after; intros _; apply yields_ret; auto with waf|].
    apply (yields_bind (fun r => match r with Ok _ => True | Err res => consistent res end)).
    + case_if; [|case_if; apply yields_ret; auto with waf].
      apply status_bind.
    + intros [[]|res] Hr; [|by apply yields_ret]. apply yields_after. intros p'. by apply yields_ret.
  - unfold finalizeGeneric. apply yields_after. intros [id [cr|e]]; [|apply yields_ret, consistent_dry;
      unfold consistent; simpl; auto].
    case_if; apply yields_ret; [|done]. apply consistent_dry. unfold consistent. simpl. auto.
Qed.

Lemma status_powOnly req tok sg : yields consistent (verifyPoWOnly (C := C) clk uenv s req tok sg).
Proof.
  unfold verifyPoWOnly. do 3 (case_if; [by apply yields_ret; auto with waf|]).
  apply yields_after. intros [p|]; [|apply yields_ret; auto with waf]. apply yields_after. intros t. cbv zeta.
  destruct (validateTokenForMode _ _ _ _ _ _) eqn:Ev; [|apply status_finalize].
  apply yields_ret, consistent_dry, consistent_denyMode. by eapply reasons_of_checks.
Qed.

Lemma status_charge v q :
  yields (fun a => match a.2 with Some res => consistent res | None => True end)
    (chargeQuotaForRiskAllow (C := C) clk uenv s v q).
Proof.
  unfold chargeQuotaForRiskAllow. apply yields_after. intros tok.
  destruct (if _ && _ then tok else None) as [p|]; [|by apply yields_ret].
  case_if; [|case_if; [|by apply yields_ret]].
  - apply yields_after. intros t. apply yields_after. intros [id [cr|e]]; cbv zeta.
    + case_if; [|by apply yields_ret]. apply yields_record. simpl. apply consistent_dry.
      unfold consistent. simpl. auto.
    + apply yields_record. simpl. unfold consistent. simpl. auto.
  - apply (yields_bind (fun r => match r with Ok _ => True | Err res => consistent res end)).
    + apply status_bind.
    + intros [[]|res] Hr; [by apply yields_ret|by apply yields_record].
Qed.

(** No rule rejects under a reason of the allow list. *)
Definition rejects_cleanly : Prop :=
  forall eng q (c : counters C) r c', riskEngine s = Some eng -> Evaluate eng q c = Some (Ok r, c') ->
    dTarget (resDecision r) = TargetREJECT -> one_of (dReason (resDecision r)) allow_reasons = false.

Definition consistent_opt (o : option AuthResult) : Prop :=
  match o with Some res => consistent res | None => True end.

Lemma status_answer (v : verifyCtx) res :
  consistent res -> yields consistent_opt (answer (U := U) (C := C) s v res).
Proof. intros Hr. unfold answer. by apply yields_record. Qed.

Lemma status_apply v q st d tr :
  (dTarget d = TargetREJECT -> one_of (dReason d) allow_reasons = false) ->
  yields consistent_opt (apply_decision (C := C) clk uenv s v q st d tr).
Proof.
  intros Hd. unfold apply_decision. cbv zeta.
  case_if; [|case_if; [|case_if; [by apply status_answer; unfold consistent; simpl; auto|case_if;
    [|by apply yields_ret]]]].
  - eapply yields_bind; [apply status_charge|]. intros [v' [res|]] Hr; [by apply yields_ret|].
    by apply status_answer.
  - bprop. apply status_answer. apply (consistent_fields (denyMode (if (dReason d =? "")%string then
      ReasonRiskReject else dReason d) (rqPowMode q))); [done..|]. apply consistent_denyMode.
    case_if; auto.
  - case_if.
    + eapply yields_bind; [apply status_charge|]. intros [v' [res|]] Hr; [by apply yields_ret|].
      by apply status_answer.
    + case_if; [apply status_answer; auto with waf|]. case_if.
      * apply yields_after. intros _. apply status_answer. auto with waf.
      * apply status_answer, consistent_denyMode. unfold powStatusToReason. by repeat case_if.
Qed.

Lemma status_runRisk v q st :
  rejects_cleanly -> yields consistent_opt (runRiskEngine clk uenv cenv s v q st).
Proof.
  intros Hr w. unfold runRiskEngine. destruct (riskEngine s) as [eng|] eqn:Ee; [|done].
  unfold mbind at 1, M_bind at 1. unfold evaluate, with_counters.
  destruct (Evaluate _ _ _) as [[[r|e] c]|] eqn:Ev; try done.
  match goal with |- context [(_ ≫= _) ?x] => generalize x end. intros w1.
  apply (yields_after consistent_opt (bump_counters cenv s q)). intros _. apply yields_after. intros _.
  apply status_apply. intros Ht. by apply (Hr _ _ _ _ _ Ee Ev).
Qed.

Lemma status_return (v : verifyCtx) res :
  consistent res -> yields consistent (record_and_return (U := U) (C := C) s v res).
Proof. intros Hr. unfold record_and_return. by apply yields_record. Qed.

Lemma status_token v req prot :
  rejects_cleanly -> yields consistent (verify_token clk uenv cenv s v req prot).
Proof.
  intros Hr. unfold verify_token. destruct (extractTokenAndSign s (OriginalArgs req)) as [tok sg]. cbv zeta.
  case_if.
  - unfold verifyWithoutPow. destruct (riskEngine s) as [eng|]; [|by apply status_return].
    eapply yields_bind; [by apply status_runRisk|]. intros [res|] Hres; [by apply yields_ret|by apply status_return].
  - apply yields_after. intros [st md]. apply yields_after. intros payload.
    eapply yields_bind; [by apply status_runRisk|]. intros [res|] Hres; [by apply yields_ret|].
    case_if; [by apply status_return|]. eapply yields_bind; [apply status_powOnly|]. intros res Hc.
    by apply status_return.
Qed.

Lemma Verify_consistent req w :
  rejects_cleanly -> consistent (Verify clk uenv cenv s req w).1.
Proof.
  intros Hr. revert w. change (yields consistent (Verify clk uenv cenv s req)). unfold Verify. cbv zeta.
  apply yields_after. intros _. apply yields_after. intros t.
  case_if; [by apply status_return|]. case_if; [apply status_return; auto with waf|].
  case_match; [|by apply status_token]. apply yields_after. intros [h blocked].
  case_if; [apply status_return; auto with waf|].
  eapply yields_bind; [by apply status_token|]. intros res Hc. apply yields_after. intros _.
  by apply yields_ret.
Qed.

(** C35: the status agrees with the verdict: unless a rule rejects under a
    reason of the allow list, an admitted request is answered 200, and a refused
    one 403, 429 or 500, never 200. *)
Theorem Verify_status req w :
  rejects_cleanly -> consistent (Verify clk uenv cenv s req w).1.
Proof. apply Verify_consistent. Qed.

(** ** Dry run *)

(** Only what keeps the service from judging is refused. *)
Definition operational (res : AuthResult) : Prop :=
  Allowed res = false ->
  Reason res = ReasonMissingRealIP \/ Reason res = ReasonMissingHeaders \/ Reason res = ReasonIPPendingBlocked.

Hypothesis dry : dryRunEffective s = true.

Lemma dry_allowed res : Allowed (maybeDryRun s res) = true.
Proof. unfold maybeDryRun. rewrite dry. simpl. by destruct (Allowed res) eqn:E. Qed.

Lemma dry_ok res : operational (maybeDryRun s res).
Proof. unfold operational. by rewrite dry_allowed. Qed.

#[local] Hint Resolve dry_ok : waf.

Lemma dry_bind p req tok sg mode :
  yields (fun r => match r with Ok _ => True | Err res => operational res end)
    (bindEmptyIPFirstUse (C := C) clk uenv s p req tok sg mode).
Proof.
  unfold bindEmptyIPFirstUse. cbv zeta. apply yields_after. intros _.
  case_if; [apply yields_after; intros _; by apply yields_ret|]. apply yields_after.
  intros [rec|[]]; try (apply yields_ret; auto with waf); [case_if; apply yields_ret; auto with waf|].
  apply yields_after. intros t. apply yields_after. intros [cr|e]; apply yields_ret; auto with waf.
Qed.

Lemma dry_powOnly req tok sg : yields operational (verifyPoWOnly (C := C) clk uenv s req tok sg).
Proof.
  assert (forall mode, operational (denyStatus 500 ReasonMissingRealIP mode)) as Hip by (unfold operational; auto).
  unfold verifyPoWOnly. do 3 (case_if; [by apply yields_ret; auto with waf|]).
  apply yields_after. intros [p|]; [|apply yields_ret; auto with waf]. apply yields_after. intros t. cbv zeta.
  destruct (validateTokenForMode _ _ _ _ _ _); [apply yields_ret; auto with waf|].
  unfold finalizeByMode. case_if; [|case_if; [|by apply yields_ret; auto with waf]].
  - unfold finalizeIPBound. case_if; [apply yields_after; intros _; by apply yields_ret|].
    apply (yields_bind (fun r => match r with Ok _ => True | Err res => operational res end)).
    + case_if; [apply dry_bind|case_if; apply yields_ret; auto with waf].
    + intros [[]|res] Hr; [|by apply yields_ret]. apply yields_after. intros p'. by apply yields_ret.
  - unfold finalizeGeneric. apply yields_after. intros [id [cr|e]]; [|apply yields_ret; auto with waf].
    case_if; apply yields_ret; auto with waf. done.
Qed.

(** In dry run, with no risk engine, every request is admitted but those
    the service cannot judge: no request line, no client address for a token
    bound to one, or an address blocked for its pending requests. *)
Theorem Verify_dry_run req w :
  riskEngine s = None -> operational (Verify clk uenv cenv s req w).1.
Proof.
  intros Hr. revert w. change (yields operational (Verify clk uenv cenv s req)). unfold Verify. cbv zeta.
  assert (forall (v : verifyCtx) res, operational res ->
    yields operational (record_and_return (U := U) (C := C) s v res)) as Hret.
  { intros v res Ho. unfold record_and_return. by apply yields_record. }
  assert (forall v prot, yields operational (verify_token clk uenv cenv s v req prot)) as Htok.
  { intros v prot. unfold verify_token, verifyWithoutPow, runRiskEngine. rewrite Hr.
    destruct (extractTokenAndSign s (OriginalArgs req)) as [tok sg]. cbv zeta. case_if; [by apply Hret|].
    apply yields_after. intros [st md]. apply yields_after. intros payload.
    apply (yields_bind (fun o => o = None)); [by apply yields_ret|]. intros o ->.
    case_if; [by apply Hret|]. eapply yields_bind; [apply dry_powOnly|]. intros res Ho. by apply Hret. }
  apply yields_after. intros _. apply yields_after. intros t.
  case_if; [by apply Hret|]. case_if; [apply Hret; unfold operational; auto|].
  case_match; [|by apply Htok]. apply yields_after. intros [h blocked].
  case_if; [apply Hret; unfold operational; auto|].
  eapply yields_bind; [by apply Htok|]. intros res Hc. apply yields_after. intros _.
  by apply yields_ret.
Qed.

End Behaviour.
