(* ===== verification/AuthLabels.v ===== *)
(** * What the metrics are labelled with

    [prometheus] wants label values in UTF-8, and the mode label of a verdict is
    the client's word.  Every label value of every event of [Verify] is valid
    UTF-8, because tokens are decoded by [encoding/json], which puts U+FFFD for
    what is not, as long as the targets and reasons of the rules are.

    [neatly P m]: from a state with valid labels, [m] goes to one, and its answer
    satisfies [P]. *)

From S2P Require Import Prelude GoStrings GoTime Pow Matcher Storage Config RiskMatcher RiskEngine RiskEngineTheory.
From S2P Require Import RiskCounter Pending Auth.

(** [utf8.ValidString]: no byte is decoded as an error. *)
Definition ValidString (s : string) : bool :=
  forallb (fun rb : Z * list Z => negb ((rb.1 =? rune_error) && (length rb.2 =? 1)%nat)) (decode_utf8 (bytes_of s)).

Notation valid x := (ValidString x = true).

Example valid_strings :
  ValidString "generic" = true /\ ValidString (of_bytes [239; 191; 189]) = true /\ ValidString (of_bytes [103; 255]) = false.
Proof. vm_compute. auto. Qed.

(** ** Decisions *)

Section Decisions.
Context `{Unicode, Regexp, MapRange}.
Context {R : Type}.

Definition policy_utf8 (p : Policy) : Prop := valid (poTarget p) /\ valid (poReason p).
Definition rule_utf8 (r : Rule) : Prop := valid (rTarget r) /\ valid (rReason r).
Definition engine_utf8 (e : Engine) : Prop := forall k c, chains e !! k = Some c ->
  policy_utf8 (cPolicy c) /\ Forall rule_utf8 (cRules c).

Definition decision_utf8 (d : Decision) : Prop := valid (dTarget d) /\ valid (dReason d).
Definition outcome_utf8 (o : outcome) : Prop := forall d, o = Some (Ok d) -> decision_utf8 d.

Lemma walk_utf8 jump ctx name chain rules (st : evalState (R := R)) :
  (forall n s, outcome_utf8 (jump n s).1) -> policy_utf8 (cPolicy chain) -> Forall rule_utf8 rules ->
  outcome_utf8 (walk_rules jump ctx name chain rules st).1.
Proof.
  intros Hj Hp Hr. revert st; induction Hr as [|r rules Hr _ IH]; intros st; simpl; [by intros d [= <-]|].
  destruct (Match ctx (rMatch r) (res st)) as [[|] r1]; [|apply IH].
  destruct (isTerminal (rTarget r)); [intros d [= <-]; exact Hr|].
  destruct (rTarget r =? TargetJUMP)%string.
  { specialize (Hj (rChain r) (record_step (MkStep name (rName r) true (rTarget r) (rChain r)) r1 st)).
    destruct (jump _ _) as [[[d|x]|] s2]; [|done|done]. simpl in Hj. specialize (Hj d eq_refl).
    destruct (isTerminal (dTarget d)); [|apply IH]. intros d' [= <-]. destruct (dReason d =? "")%string; [|done].
    split; [apply Hj|apply Hr]. }
  repeat (case_if; [try apply IH; by intros d [= <-]|]). apply IH.
Qed.

Lemma evalChain_utf8 fuel e ctx name (st : evalState (R := R)) :
  engine_utf8 e -> outcome_utf8 (evalChain fuel e ctx name st).1.
Proof.
  intros He. revert name st; induction fuel as [|fuel IH]; intros name st; simpl; [done|].
  destruct (lookupChain e name (loops st)) as [c|] eqn:El; [|done].
  case_if; [intros d [= <-]; split; by vm_compute|]. apply lookupChain_in in El as [k Hk].
  apply walk_utf8; [intros n s; apply IH|apply (He _ _ Hk)..].
Qed.

Lemma Evaluate_utf8 e ctx (r0 r1 : R) r :
  engine_utf8 e -> Evaluate e ctx r0 = Some (Ok r, r1) -> decision_utf8 (resDecision r).
Proof.
  intros He. unfold Evaluate, EvaluateWithEntry.
  set (name := if String.eqb "INPUT" "" then _ else _). set (ctx' := match rqCounters ctx with Some _ => _ | None => _ end).
  pose proof (evalChain_utf8 (walk_fuel e) e ctx' name (MkState [] [] ∅ 0 r0) He) as Hd.
  destruct (evalChain _ _ _ _ _) as [[[d|x]|] st]; [|done|done]. intros [= <- _]. apply (Hd d eq_refl).
Qed.
End Decisions.

(** ** The service *)

Section Labels.
Context `{Unicode, JsonCodec, Regexp, MapRange}.
Context {U C : Type} `{UsageStore U, CounterStore C}.
Variable clk : nat -> Z.
Variable uenv : nat -> us_env.
Variable cenv : nat -> cs_env.
Variable s : Service.

(** [encoding/json] decodes to valid UTF-8. *)
Hypothesis json_utf8 : forall b p, json_unmarshal b = Some p -> valid (tpMode p).
Hypothesis rules_utf8 : forall e, riskEngine s = Some e -> engine_utf8 e.

Notation W := (world (U := U) (C := C)).
Notation MA := (M (U := U) (C := C)).
#[local] Existing Instances M_ret M_bind.

Definition labelled (ev : event) : Prop :=
  match ev with
  | MVerifyTotal a b c d => valid a /\ valid b /\ valid c /\ valid d
  | MVerifyLatency md _ => valid md
  | MRiskDecision t r => valid t /\ valid r
  | MPendingAutoBlock | MActiveSignatures _ | Log _ _ _ => True
  end.

Definition mode_utf8 (p : TokenPayload) : Prop := valid (tpMode p).
Definition from_option_P {A} (P : A -> Prop) (o : option A) : Prop := match o with Some a => P a | None => True end.

Record neat (w : W) : Prop := {
  ne_events : Forall labelled (wEvents w);
  ne_token : from_option_P mode_utf8 (wToken w);
}.

Definition neatly {A} (P : A -> Prop) (m : MA A) : Prop := forall w, neat w -> neat (m w).2 /\ P (m w).1.

Definition res_utf8 (r : AuthResult) : Prop := valid (Reason r) /\ valid (Mode r).

Lemma neatly_ret {A} (P : A -> Prop) a : P a -> neatly P (mret a).
Proof. by intros ? w. Qed.

Lemma neatly_bind {A B} (Q : A -> Prop) (P : B -> Prop) (m : MA A) (k : A -> MA B) :
  neatly Q m -> (forall a, Q a -> neatly P (k a)) -> neatly P (m ≫= k).
Proof.
  intros Hm Hk w Hw. unfold mbind, M_bind. destruct (Hm w Hw) as [Hw1 Ha]. destruct (m w) as [a w1]. by apply Hk.
Qed.

Lemma neatly_mono {A} (Q P : A -> Prop) (m : MA A) : (forall a, Q a -> P a) -> neatly Q m -> neatly P m.
Proof. intros Hqp Hm w Hw. destruct (Hm w Hw). auto. Qed.

(** Steps that touch neither the events nor the token. *)
Definition aside {A} (m : MA A) : Prop := forall w, wEvents (m w).2 = wEvents w /\ wToken (m w).2 = wToken w.

Lemma neatly_aside {A} (m : MA A) : aside m -> neatly (fun _ => True) m.
Proof. intros Hm w [He Ht]. destruct (Hm w) as [E1 E2]. split; [|done]. split; [by rewrite E1|by rewrite E2]. Qed.

Lemma aside_store {A} (f : us_env -> U -> result storage_error A * U) : aside (store_call uenv f).
Proof. intros w. unfold store_call. by destruct (f _ _). Qed.

Lemma aside_counters {A} (f : counters C -> A * counters C) : aside (with_counters f).
Proof. intros w. unfold with_counters. by destruct (f _). Qed.

Lemma neatly_clock : neatly (fun _ => True) (clock_now clk).
Proof. by apply neatly_aside. Qed.

Lemma neatly_loop : neatly (fun _ => True) next_map_loop.
Proof. by apply neatly_aside. Qed.

Lemma neatly_store {A} (f : us_env -> U -> result storage_error A * U) : neatly (fun _ => True) (store_call uenv f).
Proof. apply neatly_aside, aside_store. Qed.

Lemma neatly_counters {A} (f : counters C -> A * counters C) : neatly (fun _ => True) (with_counters f).
Proof. apply neatly_aside, aside_counters. Qed.

Lemma neatly_get_token : neatly (from_option_P mode_utf8) get_token.
Proof. intros w Hw. split; [done|apply Hw]. Qed.

Lemma neatly_set_token t : from_option_P mode_utf8 t -> neatly (fun _ => True) (set_token t).
Proof. intros Ht w [He _]. by split. Qed.

Lemma neatly_emit ev : labelled ev -> neatly (fun _ => True) (emit ev).
Proof. intros Hl w [He Ht]. split; [|done]. split; [|done]. by apply Forall_app_2; [|apply Forall_singleton]. Qed.

Lemma neatly_log_errors errs : neatly (fun _ => True) (log_incr_errors errs).
Proof. intros w [He Ht]. split; [|done]. split; [|done]. apply Forall_app_2; [done|]. apply Forall_map, Forall_forall. done. Qed.

Lemma neatly_pending {A} (f : Z -> IPPendingBlocker -> A * IPPendingBlocker) : neatly (fun _ => True) (with_pending clk f).
Proof.
  intros w [He Ht]. unfold with_pending. destruct (f _ _). split; [|done]. split; [|done].
  apply Forall_app_2; [done|]. case_if; [by apply Forall_singleton|constructor].
Qed.

(** ** Recording, and the methods on a token *)

Lemma res_utf8_const reason md : valid reason -> valid md -> res_utf8 (denyMode reason md).
Proof. by split. Qed.

Lemma neatly_record v res : res_utf8 res -> neatly (fun _ => True) (recordResult s v res).
Proof.
  intros [Hr Hm]. unfold recordResult. eapply neatly_bind; [by apply neatly_aside|]. intros el _.
  eapply neatly_bind with (Q := fun _ => True).
  - case_if; [|by apply neatly_ret]. eapply neatly_bind; [|intros _ _; by apply neatly_emit].
    apply neatly_emit. split_and!; [by destruct (Allowed res); vm_compute|done|done|].
    by destruct (vcProtected v) as [[]|]; vm_compute.
  - intros _ _. case_if; [by apply neatly_ret|]. eapply neatly_bind; [apply neatly_get_token|]. intros t _.
    by apply neatly_emit.
Qed.

Lemma neatly_recorded {A} (P : A -> Prop) v res a : res_utf8 res -> P a -> neatly P (_ ← recordResult s v res; mret a).
Proof. intros Hr Ha. eapply neatly_bind; [by apply neatly_record|]. intros _ _. by apply neatly_ret. Qed.

Lemma maybeDryRun_utf8 res : res_utf8 res -> res_utf8 (maybeDryRun s res).
Proof. intros [Hr Hm]. unfold maybeDryRun. case_if; [done|]. split; [by vm_compute|done]. Qed.

(** The reasons of the code are constants. *)
Lemma validation_reason_utf8 p md path sg now reason :
  validateTokenForMode s p md path sg now = Some reason -> valid reason.
Proof.
  unfold validateTokenForMode, checkTime, checkSignAndDifficulty, reasonFromValidationError.
  intros Hv. repeat (case_match; try discriminate); try (injection Hv as <-; by vm_compute);
    repeat case_match; simplify_eq; by vm_compute.
Qed.

Lemma decoded_utf8 tok p : DecodeToken tok = Ok p -> mode_utf8 p.
Proof.
  unfold DecodeToken, mode_utf8. case_if; [done|]. case_match; [|done].
  destruct (json_unmarshal _) as [q|] eqn:E; [|done]. intros [= <-]. by eapply json_utf8.
Qed.

Lemma neatly_classify tok sg path ip : neatly (fun r => valid r.2) (classifyPoW clk s tok sg path ip).
Proof.
  unfold classifyPoW. case_if; [by apply neatly_ret|]. destruct (DecodeToken tok) as [p|] eqn:Ed; [|by apply neatly_ret].
  apply decoded_utf8 in Ed. eapply neatly_bind; [by apply neatly_set_token|]. intros _ _. cbv zeta.
  eapply neatly_bind; [apply neatly_clock|]. intros t _. repeat case_match; by apply neatly_ret.
Qed.

(** A refusal, if any. *)
Definition refusal_utf8 (r : result AuthResult unit) : Prop := match r with Err res => res_utf8 res | Ok _ => True end.

Ltac verdict := repeat apply maybeDryRun_utf8; split; [vm_compute; reflexivity|simpl; done].

Lemma neatly_bindEmptyIP p req tok sg md :
  mode_utf8 p -> valid md -> neatly refusal_utf8 (bindEmptyIPFirstUse clk uenv s p req tok sg md).
Proof.
  intros Hp Hm. unfold bindEmptyIPFirstUse. cbv zeta. eapply neatly_bind; [by apply neatly_set_token|]. intros _ _.
  case_if; [eapply neatly_bind; [by apply neatly_emit|intros _ _; by apply neatly_ret]|].
  eapply neatly_bind; [apply neatly_store|]. intros [rec|[]] _.
  1: case_if; apply neatly_ret; [|done]; verdict.
  all: try (apply neatly_ret; verdict).
  eapply neatly_bind; [apply neatly_clock|]. intros now _. eapply neatly_bind; [apply neatly_store|].
  intros [cr|e] _; apply neatly_ret; [done|verdict].
Qed.

Lemma neatly_consume p req tok sg md now : neatly (fun _ => True) (consumeGenericQuota uenv s p req tok sg md now).
Proof.
  unfold consumeGenericQuota. case_if; [by apply neatly_ret|]. cbv zeta.
  eapply neatly_bind; [apply neatly_store|]. intros r _. by apply neatly_ret.
Qed.

Lemma neatly_finalize p req tok sg md now :
  mode_utf8 p -> valid md -> neatly res_utf8 (finalizeByMode clk uenv s p req tok sg md now).
Proof.
  intros Hp Hm. unfold finalizeByMode. case_if; [|case_if].
  - unfold finalizeIPBound. case_if; [eapply neatly_bind; [by apply neatly_emit|]; intros _ _; apply neatly_ret; verdict|].
    apply (neatly_bind refusal_utf8).
    { case_if; [by apply neatly_bindEmptyIP|]. case_if; apply neatly_ret; [verdict|done]. }
    intros [[]|res] Hr; [|by apply neatly_ret]. eapply neatly_bind; [apply neatly_get_token|]. intros p' _.
    apply neatly_ret. verdict.
  - unfold finalizeGeneric. eapply neatly_bind; [apply neatly_consume|]. intros [id [cr|e]] _; [case_if|]; apply neatly_ret; verdict.
  - apply neatly_ret. verdict.
Qed.

Lemma neatly_powOnly req tok sg : neatly res_utf8 (verifyPoWOnly clk uenv s req tok sg).
Proof.
  unfold verifyPoWOnly. repeat (case_if; [apply neatly_ret; verdict|]). eapply neatly_bind; [apply neatly_get_token|].
  intros [p|] Hp; [|apply neatly_ret; verdict]. eapply neatly_bind; [apply neatly_clock|]. intros t _. cbv zeta.
  destruct (validateTokenForMode _ _ _ _ _ _) as [reason|] eqn:Ev; [|by apply neatly_finalize].
  apply validation_reason_utf8 in Ev. apply neatly_ret, maybeDryRun_utf8. by split.
Qed.

(** ** The engine's part *)

Lemma neatly_charge v (q : RequestContext (counters C)) : neatly (fun _ => True) (chargeQuotaForRiskAllow clk uenv s v q).
Proof.
  unfold chargeQuotaForRiskAllow. eapply neatly_bind; [apply neatly_get_token|]. intros t Ht.
  destruct (if _ && _ then t else None) as [p|] eqn:Ep; [|by apply neatly_ret].
  assert (mode_utf8 p) as Hp by (case_if_in Ep; [by subst t|done]).
  case_if; [|case_if; [|by apply neatly_ret]].
  - eapply neatly_bind; [apply neatly_clock|]. intros now _. eapply neatly_bind; [apply neatly_consume|].
    intros [id [cr|e]] _; cbv zeta; [case_if; [|by apply neatly_ret]|]; (apply neatly_recorded; [|done]); verdict.
  - apply (neatly_bind refusal_utf8); [by apply neatly_bindEmptyIP|].
    intros [[]|res] Hr; [by apply neatly_ret|by apply neatly_recorded].
Qed.

Lemma neatly_answer v res : res_utf8 res -> neatly (fun _ => True) (answer s v res).
Proof. intros Hr. unfold answer. by apply neatly_recorded. Qed.

Lemma powStatusToReason_utf8 st : valid (powStatusToReason st).
Proof. unfold powStatusToReason. repeat case_if; by vm_compute. Qed.

Lemma or_default_utf8 (x d : string) : valid x -> valid d -> valid (if (x =? "")%string then d else x).
Proof. by case_if. Qed.

Lemma neatly_apply v (q : RequestContext (counters C)) st d tr :
  decision_utf8 d -> valid (rqPowMode q) -> neatly (fun _ => True) (apply_decision clk uenv s v q st d tr).
Proof.
  intros [_ Hd] Hm. assert (forall c, valid c -> valid (if (dReason d =? "")%string then c else dReason d)) as Hr
    by (intros c Hc; by apply or_default_utf8).
  unfold apply_decision. case_if; [|case_if; [|case_if; [|case_if; [case_if; [|case_if; [|case_if]]|]]]].
  - eapply neatly_bind; [apply neatly_charge|]. intros [v' [res|]] _; [by apply neatly_ret|]. apply neatly_answer.
    split; [|done]. apply (Hr ReasonRiskAccept). by vm_compute.
  - apply neatly_answer. split; [|done]. apply (Hr ReasonRiskReject). by vm_compute.
  - apply neatly_answer. split; [|done]. apply (Hr ReasonRateLimited). by vm_compute.
  - eapply neatly_bind; [apply neatly_charge|]. intros [v' [res|]] _; [by apply neatly_ret|]. apply neatly_answer. verdict.
  - apply neatly_answer. verdict.
  - eapply neatly_bind; [by apply neatly_emit|]. intros _ _. apply neatly_answer. verdict.
  - apply neatly_answer. split; [apply powStatusToReason_utf8|done].
  - by apply neatly_ret.
Qed.

Lemma neatly_evaluate eng q :
  engine_utf8 eng ->
  neatly (fun ev => forall r, ev = Some (Ok r) -> decision_utf8 (resDecision r)) (evaluate (U := U) cenv s eng q).
Proof.
  intros He w Hw. split; [by apply (neatly_aside _ (aside_counters _))|]. unfold evaluate, with_counters.
  destruct (Evaluate eng _ _) as [[o c]|] eqn:Ee; [|done]. simpl. intros r [= ->]. by eapply Evaluate_utf8.
Qed.

Lemma neatly_engine v q st : valid (rqPowMode q) -> neatly (fun _ => True) (runRiskEngine clk uenv cenv s v q st).
Proof.
  intros Hm. unfold runRiskEngine. destruct (riskEngine s) as [eng|] eqn:Ee; [|by apply neatly_ret].
  eapply neatly_bind; [by apply neatly_evaluate, rules_utf8|]. intros ev Hev.
  assert (neatly (fun _ => True) (_ ← emit (Log "warn" "risk engine evaluate failed" []); mret (@None AuthResult))) as Hf.
  { eapply neatly_bind; [by apply neatly_emit|]. intros _ _. by apply neatly_ret. }
  destruct ev as [[r|x]|]; [|exact Hf..]. specialize (Hev r eq_refl).
  eapply neatly_bind with (Q := fun _ => True).
  { unfold bump_counters. destruct (counterReg s); [|by apply neatly_ret]. eapply neatly_bind; [apply neatly_loop|].
    intros l _. eapply neatly_bind; [apply neatly_counters|]. intros errs _. apply neatly_log_errors. }
  intros _ _. eapply neatly_bind with (Q := fun _ => True); [case_if; [by apply neatly_emit|by apply neatly_ret]|].
  intros _ _. by apply neatly_apply.
Qed.

(** ** [Verify] *)

Lemma neatly_return v res : res_utf8 res -> neatly (fun _ => True) (record_and_return s v res).
Proof. intros Hr. unfold record_and_return. by apply neatly_recorded. Qed.

Lemma neatly_token v req prot : neatly (fun _ => True) (verify_token clk uenv cenv s v req prot).
Proof.
  unfold verify_token. destruct (extractTokenAndSign s (OriginalArgs req)) as [tok sg]. cbv zeta. case_if.
  - pose proof neatly_engine as Hen. unfold verifyWithoutPow. destruct (riskEngine s); [|apply neatly_return; verdict].
    eapply neatly_bind; [by apply Hen|]. intros [res|] _; [by apply neatly_ret|apply neatly_return; verdict].
  - apply (neatly_bind (fun r => valid r.2)); [case_if; [apply neatly_classify|by apply neatly_ret]|].
    intros [st md] Hmd. simpl in Hmd. eapply neatly_bind; [apply neatly_get_token|]. intros t _.
    eapply neatly_bind; [by apply neatly_engine|]. intros [res|] _; [by apply neatly_ret|].
    case_if; [apply neatly_return; verdict|]. eapply neatly_bind; [apply neatly_powOnly|]. intros res Hr. by apply neatly_return.
Qed.

Lemma neatly_Verify req : neatly (fun _ => True) (Verify clk uenv cenv s req).
Proof.
  unfold Verify. eapply neatly_bind; [by apply neatly_set_token|]. intros _ _.
  eapply neatly_bind; [apply neatly_clock|]. intros t _. cbv zeta. case_if; [apply neatly_return; verdict|].
  case_if; [apply neatly_return; verdict|].
  destruct (if _ && _ then pendingBlocker s else None) as [l|]; [|apply neatly_token].
  eapply neatly_bind; [apply neatly_pending|]. intros [h [|]] _; [apply neatly_return; verdict|].
  eapply neatly_bind; [apply neatly_token|]. intros res _. eapply neatly_bind; [apply neatly_pending|].
  intros _ _. by apply neatly_ret.
Qed.

(** Every label value of a run is valid UTF-8, whatever the token cell held. *)
Lemma Verify_labels req (w : W) :
  Forall labelled (wEvents w) -> Forall labelled (wEvents (Verify clk uenv cenv s req w).2).
Proof.
  intros Hw. change (Verify clk uenv cenv s req w) with (Verify clk uenv cenv s req (set_token None w).2).
  by apply (neatly_Verify req).
Qed.
End Labels.
