(* ===== verification/AuthComplete.v ===== *)
(** * Good tokens are admitted, and what is left alone

    The converse of [AuthSound] for the PoW-only service, the requests that
    leave the store untouched, and the window between the two store calls of
    the first-use binding. *)

From S2P Require Import Prelude GoStrings GoTime Strconv Netip Pow PowTheory Matcher Storage.
From S2P Require Import MemoryUsage Config RiskMatcher RiskEngine RiskCounter Pending Auth AuthLogic.
From S2P Require Import AuthTheory AuthSound.

Section Complete.
Context `{Unicode, JsonCodec, Regexp, MapRange}.
Context {U C : Type} `{UsageStore U, CounterStore C}.
Variable clk : nat -> Z.
Variable uenv : nat -> us_env.
Variable cenv : nat -> cs_env.
Variable s : Service.

Notation W := (world (U := U) (C := C)).
Notation MA := (M (U := U) (C := C)).
#[local] Existing Instances M_ret M_bind.

(** ** Admission of good tokens *)

(** The token's claim on this client holds when judged: the address it names is
    the client's, or the store grants a use at instant [n]. *)
Definition granted (p : TokenPayload) (req : AuthRequest) (tok sg : string) (n : nat) (now : Z) (st : U) : Prop :=
  (tpMode p = "ip_bound"%string /\ RealIP req <> ""%string /\ tpIP p <> ""%string /\
   sameIP (tpIP p) (RealIP req) = true) \/
  (tpMode p = "generic"%string /\ hasUsageStore s = true /\
   exists cr st', us_consume (uenv n) (charge_input s p req tok sg "generic" now) st = (Ok cr, st') /\
     crAllowed cr = true).

Lemma wp_good_powOnly req tok sg p (w : W) :
  tok <> ""%string -> sg <> ""%string -> len tok <= pMaxTokenLength (cPow (cfg s)) ->
  len sg <= pMaxSignLength (cPow (cfg s)) -> wToken w = Some p ->
  let now := unix_sec (clk (wTick w)) in
  good_token s p (tpMode p) (OriginalURI req) sg now ->
  granted p req tok sg (S (wTick w)) now (wStore w) ->
  wp (verifyPoWOnly clk uenv s req tok sg)
    (fun res _ => Allowed res = true /\ Mode res = tpMode p /\ isVerifiedReason (Reason res) = true) w.
Proof.
  intros Ht Hs Hlt Hls Hk now Hg Hgr. unfold verifyPoWOnly.
  apply String.eqb_neq in Ht as ->, Hs as ->. apply Z.ltb_ge in Hlt as ->, Hls as ->. simpl.
  apply wp_bind, wp_get_token. rewrite Hk. apply wp_bind, wp_clock. intros w1 [T1 S1 K1 _]. cbv zeta.
  apply validateTokenForMode_iff in Hg. fold now. rewrite Hg.
  unfold finalizeByMode. destruct Hgr as [(Em & Hr & Hi & Hsame)|(Em & Hst & cr & st' & Hc & Ha)]; rewrite Em; simpl.
  - unfold finalizeIPBound. apply String.eqb_neq in Hr as ->, Hi as ->. rewrite Hsame. simpl.
    apply wp_bind, wp_ret, wp_bind, wp_get_token, wp_ret. done.
  - unfold finalizeGeneric, consumeGenericQuota. rewrite Hst. simpl. apply wp_bind, wp_bind, wp_store.
    intros r st w2 Hcon _ _ _ _. rewrite T1, S1 in Hcon. unfold charge_input in Hc. simpl in Hcon.
    rewrite Hc in Hcon. injection Hcon as <- <-. apply wp_ret. rewrite Ha. simpl. by apply wp_ret.
Qed.

(** The classification reads the clock once and puts the token in the cell. *)
Lemma wp_classify_frame tok sg path ip p (w : W) :
  len tok <= pMaxTokenLength (cPow (cfg s)) -> len sg <= pMaxSignLength (cPow (cfg s)) ->
  DecodeToken tok = Ok p ->
  wp (classifyPoW clk s tok sg path ip)
    (fun _ w' => wTick w' = S (wTick w) /\ wStore w' = wStore w /\ wToken w' = Some p) w.
Proof.
  intros Hlt Hls Hd. unfold classifyPoW. apply Z.ltb_ge in Hlt as ->, Hls as ->. simpl. rewrite Hd.
  apply wp_bind, wp_set_token. intros w1 T1 S1 K1 _. apply wp_bind, wp_clock. intros w2 [T2 S2 K2 _].
  assert (wTick w2 = S (wTick w) /\ wStore w2 = wStore w /\ wToken w2 = Some p) as Hw
    by (split_and!; [lia|congruence|congruence]).
  repeat case_match; by apply wp_ret.
Qed.

(** C6: a good token is admitted.  Without a risk engine and a pending limit, a
    protected request whose token decodes within the limits, is good at the
    third instant of the call, and is either bound to the client's address or
    granted a use by the store at the next instant, is admitted, in the token's
    mode and for a reason that counts as verified. *)
Theorem Verify_complete req tok sg p w :
  powEnabled s = true -> bypassAllEffective s = false -> riskEngine s = None -> pendingBlocker s = None ->
  svMatcher s (OriginalURI req) = true -> OriginalURI req <> ""%string ->
  extractTokenAndSign s (OriginalArgs req) = (tok, sg) -> tok <> ""%string -> sg <> ""%string ->
  len tok <= pMaxTokenLength (cPow (cfg s)) -> len sg <= pMaxSignLength (cPow (cfg s)) ->
  DecodeToken tok = Ok p ->
  let n := (wTick w + 2)%nat in
  let now := unix_sec (clk n) in
  good_token s p (tpMode p) (OriginalURI req) sg now -> granted p req tok sg (S n) now (wStore w) ->
  let res := (Verify clk uenv cenv s req w).1 in
  Allowed res = true /\ Mode res = tpMode p /\ isVerifiedReason (Reason res) = true.
Proof.
  intros Hp Hb Hr Hpd Hm Hu Hx Ht Hs Hlt Hls Hd n now Hg Hgr.
  change (wp (Verify clk uenv cenv s req) (fun res _ => Allowed res = true /\ Mode res = tpMode p /\
    isVerifiedReason (Reason res) = true) w).
  unfold Verify. rewrite Hb, Hm, Hpd. cbv zeta.
  apply wp_bind, wp_set_token. intros w1 T1 S1 K1 _. apply wp_bind, wp_clock. intros w2 [T2 S2 K2 _].
  apply String.eqb_neq in Hu as ->. assert (forall b : bool, (if b then @None limits else None) = None) as Hif
    by by intros []. rewrite Hif.
  unfold verify_token, runRiskEngine. rewrite Hx, Hp, Hr. cbv zeta. cbn [negb].
  rewrite (proj2 (String.eqb_neq _ _) Ht), (proj2 (String.eqb_neq _ _) Hs). cbn [negb andb].
  apply wp_bind. eapply wp_mono; [by apply (wp_classify_frame _ _ _ _ p)|].
  intros [st md] w3 (T3 & S3 & K3). apply wp_bind, wp_get_token, wp_bind, wp_ret. simpl.
  assert (wTick w3 = n) as En by lia. apply wp_bind.
  eapply wp_mono; [apply (wp_good_powOnly req tok sg p); try done|].
  - by rewrite En.
  - rewrite En, S3, S2, S1. exact Hgr.
  - intros res w4 Hres. unfold record_and_return. by apply wp_record.
Qed.

(** ** The store left alone *)

(** The proof of work is not asked for. *)
Definition not_asked (req : AuthRequest) : Prop :=
  bypassAllEffective s = true \/ OriginalURI req = ""%string \/ powEnabled s = false \/
  (riskEngine s = None /\ svMatcher s (OriginalURI req) = false).

Definition same_store (w w' : W) : Prop := wStore w' = wStore w.

Lemma wp_same_return (v : verifyCtx) res (w : W) :
  wp (record_and_return s v res) (fun _ w' => same_store w w') w.
Proof. unfold record_and_return. by apply wp_record. Qed.

(** Without a token the engine's part never calls the store. *)
Lemma wp_same_charge v q (w : W) :
  rqPowStatus q <> "valid"%string ->
  wp (chargeQuotaForRiskAllow clk uenv s v q) (fun a w' => same_store w w' /\ a.2 = None) w.
Proof.
  intros Hq. unfold chargeQuotaForRiskAllow. apply wp_bind, wp_get_token.
  apply String.eqb_neq in Hq as ->. by apply wp_ret.
Qed.

Lemma wp_same_apply v q d tr (w : W) :
  rqPowStatus q <> "valid"%string ->
  wp (apply_decision clk uenv s v q "missing" d tr) (fun _ w' => same_store w w') w.
Proof.
  intros Hq. unfold apply_decision, answer. cbv zeta.
  case_if; [|case_if; [by apply wp_record|case_if; [by apply wp_record|case_if; [|by apply wp_ret]]]].
  - apply wp_bind. eapply wp_mono; [by apply wp_same_charge|]. intros [v' o] w1 [Hs Ho]. simpl in Ho. subst o.
    apply wp_record. intros w2 _ S2. unfold same_store in *. congruence.
  - by apply wp_record.
Qed.

Lemma wp_same_runRisk v q (w : W) :
  rqPowStatus q <> "valid"%string ->
  wp (runRiskEngine clk uenv cenv s v q "missing") (fun _ w' => same_store w w') w.
Proof.
  intros Hq. unfold runRiskEngine. destruct (riskEngine s) as [eng|]; [|by apply wp_ret].
  apply wp_bind. eapply wp_steady; [apply steady_evaluate|]. intros ev w1 [_ S1 _ _].
  destruct ev as [[r|e]|]; [|apply wp_bind; eapply wp_steady; [by apply steady_emit|];
    intros _ w2 [_ S2 _ _]; apply wp_ret; unfold same_store; congruence..].
  apply wp_bind. eapply wp_steady; [apply steady_bump|]. intros _ w2 [_ S2 _ _].
  apply wp_bind. eapply wp_steady; [case_if; [by apply steady_emit|apply steady_ret]|]. intros _ w3 [_ S3 _ _].
  eapply wp_mono; [by apply wp_same_apply|]. unfold same_store. intros _ w4 S4. congruence.
Qed.

(** No token is charged or bound when none is asked for: with bypass on, no
    request line, the proof of work off, or an unprotected path and no engine,
    a request leaves the usage store exactly as it was. *)
Theorem Verify_store_untouched req w :
  not_asked req -> wStore (Verify clk uenv cenv s req w).2 = wStore w.
Proof.
  intros Hn. change (wp (Verify clk uenv cenv s req) (fun _ w' => wStore w' = wStore w) w).
  assert (forall v (w1 : W), powEnabled s = false ->
    wp (verify_token clk uenv cenv s v req (svMatcher s (OriginalURI req))) (fun _ w' => same_store w1 w') w1) as Hoff.
  { intros v w1 Hp. unfold verify_token. destruct (extractTokenAndSign s (OriginalArgs req)) as [tok sg].
    rewrite Hp. cbv zeta. cbn [negb]. unfold verifyWithoutPow.
    destruct (riskEngine s) as [eng|]; [|apply wp_same_return]. apply wp_bind.
    eapply wp_mono; [by apply wp_same_runRisk|]. intros [res|] w2 S2; [by apply wp_ret|].
    eapply wp_mono; [apply wp_same_return|]. unfold same_store in *. intros _ w3 S3. congruence. }
  assert (forall v (w1 : W), powEnabled s = true -> riskEngine s = None ->
    wp (verify_token clk uenv cenv s v req false) (fun _ w' => same_store w1 w') w1) as Hun.
  { intros v w1 Hp Hr. unfold verify_token, runRiskEngine.
    destruct (extractTokenAndSign s (OriginalArgs req)) as [tok sg]. rewrite Hp, Hr. cbv zeta. cbn [negb].
    apply wp_bind. eapply (wp_mono _ (fun _ w' => same_store w1 w')).
    { case_if; [|by apply wp_ret]. unfold classifyPoW. case_if; [by apply wp_ret|].
      destruct (DecodeToken tok); [|by apply wp_ret]. apply wp_bind, wp_set_token. intros w2 _ S2 _ _.
      apply wp_bind, wp_clock. intros w3 [_ S3 _ _]. unfold same_store.
      repeat case_match; apply wp_ret; congruence. }
    intros [st md] w2 S2. apply wp_bind, wp_get_token, wp_bind, wp_ret. simpl.
    eapply wp_mono; [apply wp_same_return|]. unfold same_store in *. intros _ w3 S3. congruence. }
  unfold Verify. cbv zeta.
  apply wp_bind, wp_set_token. intros w1 T1 S1 K1 _. apply wp_bind, wp_clock. intros w2 [T2 S2 K2 _].
  assert (wStore w2 = wStore w) as <- by congruence.
  case_if; [apply wp_same_return|]. destruct (String.eqb_spec (OriginalURI req) "") as [|Hu]; [apply wp_same_return|].
  assert (forall v (w0 : W), wp (verify_token clk uenv cenv s v req (svMatcher s (OriginalURI req)))
    (fun _ w' => same_store w0 w') w0) as Htok.
  { intros v w0. destruct (powEnabled s) eqn:Ep; [|by apply Hoff].
    destruct Hn as [?|[?|[?|[Hr Hm]]]]; [congruence..|]. rewrite Hm. by apply Hun. }
  case_match; [|apply Htok]. apply wp_bind. eapply wp_steady; [apply steady_pending|].
  intros [h blocked] w3 [_ S3 _ _]. rewrite <- S3. case_if; [apply wp_same_return|].
  apply wp_bind. eapply wp_mono; [apply Htok|]. intros res w4 S4. apply wp_bind.
  eapply wp_steady; [apply steady_pending|]. intros _ w5 [_ S5 _ _]. apply wp_ret.
  unfold same_store in S4. congruence.
Qed.

End Complete.

(** ** The window of the first-use binding

    [bindEmptyIPFirstUse] reads the record and, when there is none, writes it in
    a second call.  Two requests may both read before either writes. *)

Section Race.
Context `{Unicode, JsonCodec, Regexp, MapRange}.
Context {C : Type} `{CounterStore C}.
Variable clk : nat -> Z.
Variable wall : nat -> Z.
Variable s : Service.

#[local] Existing Instance MemUsage.UsageStore_ops.
#[local] Existing Instances M_ret M_bind.
Notation W := (world (U := MemUsage.UsageStore) (C := C)).
Notation MA := (M (U := MemUsage.UsageStore) (C := C)).

(** Up to the read: [None] when there is no record. *)
Definition bind_read (p : TokenPayload) (req : AuthRequest) (sg mode : string)
  : MA (option (result AuthResult unit)) :=
  let id := ComputeSignID (Some p) sg mode in
  rec ← store_Get wall id;
  match rec with
  | Ok rec =>
      if negb (urFirstIP rec =? "")%string && negb (sameIP (urFirstIP rec) (RealIP req))
      then mret (Some (Err (maybeDryRun s (denyMode ReasonIPMismatch mode))))
      else mret (Some (Ok tt))
  | Err ErrNotFound => mret None
  | Err _ => mret (Some (Err (maybeDryRun s (withSignID (denyStatus 500 ReasonStorageError mode) id))))
  end.

(** From there on. *)
Definition bind_write (p : TokenPayload) (req : AuthRequest) (tok sg mode : string)
  : MA (result AuthResult unit) :=
  now ← clock_now clk;
  r ← store_Consume wall (bind_input s p req tok sg mode (unix_sec now));
  match r with
  | Err _ => mret (Err (maybeDryRun s (withSignID (denyStatus 500 ReasonStorageError mode)
                                         (ComputeSignID (Some p) sg mode))))
  | Ok _ => mret (Ok tt)
  end.

Lemma bind_in_two p req tok sg mode (w : W) :
  hasUsageStore s = true ->
  bindEmptyIPFirstUse clk wall s p req tok sg mode w =
  (_ ← set_token (Some (MkTokenPayload (tpVersion p) (tpMode p) (tpAlgorithm p) (RealIP req) (tpPath p)
                          (tpTimestamp p) (tpExpiresAt p) (tpDifficulty p) (tpCounter p) (tpSalt p)));
   o ← bind_read p req sg mode;
   match o with Some r => mret r | None => bind_write p req tok sg mode end) w.
Proof.
  intros Hs. unfold bindEmptyIPFirstUse, bind_read, bind_write. rewrite Hs. cbv zeta. cbn [negb].
  unfold mbind, M_bind. destruct (set_token _ w) as [[] w1].
  destruct (store_Get _ _ w1) as [[rec|[]] w2]; try done. by case_if.
Qed.

(** The binding is not atomic.  Take two requests from different addresses
    with one token that names none, over an open memory store without a record
    of it.  If both read before either writes, both are let through; one after
    the other, the second is refused. *)
Theorem first_use_race p tok sg r1 r2 (w : W) :
  dryRunEffective s = false -> MemUsage.inv (wStore w) -> MemUsage.closed (wStore w) = false ->
  MemUsage.contents (wStore w) !! ComputeSignID (Some p) sg "ip_bound" = None ->
  RealIP r1 <> ""%string -> sameIP (RealIP r1) (RealIP r2) = false ->
  let '(o1, wa) := bind_read p r1 sg "ip_bound" w in
  let '(o2, wb) := bind_read p r2 sg "ip_bound" wa in
  let '(a1, wc) := bind_write p r1 tok sg "ip_bound" wb in
  let '(a2, wd) := bind_write p r2 tok sg "ip_bound" wc in
  o1 = None /\ o2 = None /\ a1 = Ok tt /\ a2 = Ok tt /\
  let '(a1', wb') := bind_write p r1 tok sg "ip_bound" wa in
  a1' = Ok tt /\ (bind_read p r2 sg "ip_bound" wb').1 = Some (Err (denyMode ReasonIPMismatch "ip_bound")).
Proof.
  intros Hdry Hi Hc Hn Hr Hip. destruct w as [t st ct pd lp tk ev]. simpl in *.
  destruct (MemUsage.inv_cases _ Hi) as [->|[m ->]]; [done|].
  unfold MemUsage.contents in Hn. simpl in Hn.
  unfold bind_read, bind_write, store_Get, store_Consume, store_call, clock_now, mbind, M_bind, mret, M_ret. simpl.
  unfold MemUsage.Get at 1, MemUsage.get_locked. simpl. rewrite Hn. simpl.
  unfold MemUsage.Get at 1, MemUsage.get_locked. simpl. rewrite Hn. simpl.
  unfold MemUsage.Consume. simpl. rewrite !MemUsage.consume_eq. cbv zeta.
  unfold MemUsage.current. simpl. rewrite Hn. simpl.
  rewrite MemUsage.consume_eq. cbv zeta. unfold MemUsage.current. simpl. rewrite lookup_insert_eq. simpl.
  split_and!; try done.
  unfold MemUsage.Get, MemUsage.get_locked. simpl. rewrite lookup_insert_eq. simpl.
  apply String.eqb_neq in Hr as ->. rewrite Hip. simpl. unfold maybeDryRun. by rewrite Hdry.
Qed.

End Race.
