(* ===== verification/AuthSample.v ===== *)
(** * The service at work on a small deployment

    A configuration, two tokens with their proofs of work, and the theorems
    about [Verify] applied to requests that present them, over the in-memory
    stores. *)

From S2P Require Import Prelude GoStrings GoTime Strconv Sha256 Netip Pow PowTheory Matcher Storage.
From S2P Require Import MemoryUsage MemoryCounter Config RiskMatcher RiskEngine RiskEngineTheory.
From S2P Require Import RiskCounter Pending Auth App AuthLogic AuthTheory AuthSound AuthCarry AuthQuota.
From S2P Require Import AuthBehaviour AuthComplete.

#[local] Existing Instances ascii_unicode literal_regexp key_order MemUsage.UsageStore_ops MemCounter.CounterStore_ops.

(** ** Tokens *)

Definition path : string := "/ubuntu/x.iso".

(** Both met difficulty 4 at the fourth counter. *)
Definition generic_token : TokenPayload :=
  MkTokenPayload 1 "generic" "sha256" "" path 1700000000 1700000600 4 "4" "".
Definition bound_token : TokenPayload :=
  MkTokenPayload 1 "ip_bound" "sha256" "" path 1700000000 1700000600 4 "4" "".

Definition codec : JsonCodec := {|
  json_marshal p :=
    if bool_decide (p = generic_token) then Some (bytes_of "{generic}")
    else if bool_decide (p = bound_token) then Some (bytes_of "{bound}") else None;
  json_unmarshal b :=
    if bool_decide (b = bytes_of "{generic}") then Some generic_token
    else if bool_decide (b = bytes_of "{bound}") then Some bound_token else None;
|}.
#[local] Existing Instance codec.

Definition wire (p : TokenPayload) : string := default ""%string (EncodeToken p).

Definition args (p : TokenPayload) : string :=
  ("token=" +:+ wire p +:+ "&sign=" +:+ ComputeSign (Some p))%string.

Definition get (p : TokenPayload) (ip : string) : AuthRequest :=
  MkAuthRequest path "GET" (args p) ip "curl/8" "".

(** ** The deployment *)

Definition mode (uses : Z) : ModeConfig := MkMode true 4 8 1800 false false uses false.

Definition config : Config := applyDefaults
  (MkConfig (MkServer "" 0 0 0 0)
    (MkPow None false false "" "" 0 0 "" "" true [] (MkModes (mode 0) (mode 2)))
    (MkProtection ["iso"%string] [] [])
    (MkStorage "" "" (MkPostgres "" 0 0) (MkRedis "" "" 0 ""))
    (MkRisk true (MkPending None 2 0) ∅ ∅)
    (MkLogging "" "" None None false "")
    (MkCleanup None 0 0)).

Definition matcher : Matcher :=
  match build_matcher config with Ok m => m | Err _ => fun _ => false end.

(** With the engine [e] and the limiter [l]. *)
Definition service_with (c : Config) (e : option Engine) (l : option limits) : Service :=
  match New (MkOptions (Some c) (Some matcher) true true e None l) with
  | Ok s => s
  | Err _ => MkService c matcher false false None None None sample_options sample_options []
  end.

(** The engine of [RiskEngineTheory.Sample] accepts a request with a token, and
    demands one of a request without. *)
Definition service : Service := service_with config (Some Sample.engine) (Some sample_limits).

(** A reading every millisecond, and the store on the same clock. *)
Definition clk (n : nat) : Z := 1700000100 * second + Z.of_nat n * 1000000.
Definition uenv (n : nat) : us_env (S := MemUsage.UsageStore) := unix_sec (clk n).
Definition cenv (n : nat) : cs_env (S := MemCounter.CounterStore) := MemCounter.MkClock (clk n) (clk n).

Definition start : world (U := MemUsage.UsageStore) (C := MemCounter.CounterStore) :=
  MkWorldState 0 MemUsage.NewUsageStore (MkCounters MemCounter.NewCounterStore 0 ∅ []) Pending.fresh 0 None [].

Notation verify := (Verify clk uenv cenv).

(** What an observer of the service sees of an answer. *)
Definition seen (r : AuthResult) : bool * Z * string * Z := (Allowed r, HTTPStatus r, Reason r, Uses r).

(** The results of requests in a row. *)
Fixpoint answers (s : Service) (l : list AuthRequest) (w : world (U := MemUsage.UsageStore) (C := MemCounter.CounterStore)) : list (bool * Z * string * Z) :=
  match l with
  | [] => []
  | r :: l => let '(res, w) := verify s r w in seen res :: answers s l w
  end.

(** A generic token is good for two requests, from anywhere. *)
Example generic_uses :
  answers service [get generic_token "192.0.2.1"; get generic_token "192.0.2.2"; get generic_token "192.0.2.1"] start =
  [(true, 200, "risk_accept", 1); (true, 200, "risk_accept", 2); (false, 403, "used_up", 2)]%string.
Proof. vm_compute. reflexivity. Qed.

(** ** The theorems at these requests *)

(** Without risk control. *)
Definition plain_config : Config :=
  MkConfig (cServer config) (cPow config) (cProtection config) (cStorage config)
    (MkRisk false (rcPending (cRiskControl config)) ∅ ∅) (cLogging config) (cCleanup config).
Definition plain : Service := service_with plain_config None None.

Lemma Verify_sound_witness :
  exists res w', verify plain (get bound_token "192.0.2.1") start = (res, w') /\
    Allowed res = true /\ admitted clk uenv plain (get bound_token "192.0.2.1") start w'.
Proof.
  destruct (verify plain (get bound_token "192.0.2.1") start) as [res w'] eqn:E.
  assert (Allowed (verify plain (get bound_token "192.0.2.1") start).1 = true) as Ha by (vm_compute; reflexivity).
  rewrite E in Ha. exists res, w'. split; [reflexivity|]. split; [exact Ha|].
  apply (Verify_sound clk uenv cenv plain) with (res := res); try exact E; try exact Ha.
  - vm_compute. reflexivity.
  - intros eng q c r c' He. exfalso.
    assert (riskEngine plain = None) as En by (vm_compute; reflexivity). congruence.
  - vm_compute. reflexivity.
  - vm_compute. reflexivity.
  - vm_compute. reflexivity.
Defined.

Definition day : Z := 86400.

Definition generic_id : string := ComputeSignID (Some generic_token) (ComputeSign (Some generic_token)) "generic".

Lemma sample_deployed : deployed (H4 := MemUsage.Laws day) clk uenv service 2.
Proof.
  assert (forall n, unix_sec (clk n) = 1700000100 + Z.of_nat n / 1000) as Hs.
  { intros n. unfold unix_sec, clk, second. rewrite Z.add_comm, Z.div_add by lia.
    replace 1000000000 with (1000000 * 1000) by lia. rewrite <- Z.div_div by lia.
    rewrite Z.div_mul by lia. lia. }
  split.
  - vm_compute. reflexivity.
  - intros n m Hn. unfold clk. lia.
  - reflexivity.
  - intros n m Hn. rewrite !Hs. unfold us_grace, MemUsage.Laws, day.
    pose proof (Z.div_le_mono (Z.of_nat m) (Z.of_nat n + 1 * 1000) 1000 ltac:(lia) ltac:(lia)) as Hd.
    rewrite Z.div_add in Hd by lia. lia.
  - vm_compute. intuition discriminate.
  - vm_compute. discriminate.
  - intros. vm_compute. discriminate.
  - intros. vm_compute. discriminate.
Defined.

(** The store counts its records. *)
Definition counting : option (us_env (S := MemUsage.UsageStore) -> MemUsage.UsageStore -> result storage_error Z) :=
  Some (fun _ => MemUsage.CountActive).

Definition run : list happening :=
  [Serve (get generic_token "192.0.2.1"); Clean; Serve (get generic_token "192.0.2.2");
   Serve (get bound_token "192.0.2.2"); Serve (get generic_token "192.0.2.3")].

(** What a request presents. *)
Lemma owns_by s p ip E :
  extractTokenAndSign s (args p) = (wire p, ComputeSign (Some p)) ->
  DecodeToken (wire p) = Ok p -> tpExpiresAt p = E ->
  happening_owns s generic_id E (Serve (get p ip)).
Proof.
  intros Ex Ed He. unfold happening_owns, request_owns, get, OriginalArgs. rewrite Ex.
  intros q Hq. assert (q = p) as -> by congruence. by intros _.
Qed.

Lemma generic_owns ip : happening_owns service generic_id 1700000600 (Serve (get generic_token ip)).
Proof. apply owns_by; [vm_compute; reflexivity..|reflexivity]. Qed.

Lemma bound_owns ip : happening_owns service generic_id 1700000600 (Serve (get bound_token ip)).
Proof. apply owns_by; [vm_compute; reflexivity..|reflexivity]. Qed.


Lemma Verify_complete_witness :
  Allowed (verify plain (get generic_token "192.0.2.1") start).1 = true /\
  Mode (verify plain (get generic_token "192.0.2.1") start).1 = "generic"%string /\
  isVerifiedReason (Reason (verify plain (get generic_token "192.0.2.1") start).1) = true.
Proof.
  apply (Verify_complete clk uenv cenv plain (get generic_token "192.0.2.1") (wire generic_token)
           (ComputeSign (Some generic_token)) generic_token start).
  1-5, 7, 12: vm_compute; reflexivity.
  1-3: vm_compute; discriminate.
  1-2: vm_compute; discriminate.
  - apply validateTokenForMode_iff. vm_compute. reflexivity.
  - right. split; [reflexivity|]. split; [vm_compute; reflexivity|].
    eexists _, _. split; [vm_compute; reflexivity|reflexivity].
Defined.

Lemma Verify_store_untouched_witness :
  wStore (verify plain (MkAuthRequest "/index.html" "GET" (args generic_token) "192.0.2.1" "" "") start).2 =
  MemUsage.NewUsageStore.
Proof.
  apply (Verify_store_untouched clk uenv cenv plain (MkAuthRequest "/index.html" "GET" (args generic_token) "192.0.2.1" "" "") start).
  do 3 right. split; vm_compute; reflexivity.
Defined.

(** Dry run on. *)
Definition dry_config : Config :=
  let p := cPow plain_config in
  MkConfig (cServer plain_config)
    (MkPow (pEnabled p) true (pBypassAll p) (pTokenParam p) (pSignParam p) (pMaxTokenLength p) (pMaxSignLength p)
       (pAlgorithm p) (pPublicSalt p) (pAllowEmptySalt p) (pAllowedPreviousSalts p) (pModes p))
    (cProtection plain_config) (cStorage plain_config) (cRiskControl plain_config) (cLogging plain_config)
    (cCleanup plain_config).
Definition dry_service : Service := service_with dry_config None None.
Definition no_token : AuthRequest := MkAuthRequest path "GET" "" "192.0.2.1" "" "".

Lemma Verify_dry_run_witness :
  operational (verify dry_service no_token start).1 /\
  seen (verify dry_service no_token start).1 = (true, 200, "dry_run_allow"%string, 0).
Proof.
  split; [|vm_compute; reflexivity].
  apply (Verify_dry_run clk uenv cenv dry_service); vm_compute; reflexivity.
Defined.

Lemma Verify_status_witness : consistent (verify plain no_token start).1.
Proof.
  apply (Verify_status clk uenv cenv plain no_token start).
  intros eng q c r c' He. exfalso.
  assert (riskEngine plain = None) as En by (vm_compute; reflexivity). congruence.
Defined.

(** An engine whose default is to reject, under a reason of the allow list: the
    request is refused with status 200. *)
Definition reject_config : RiskControlConfig := MkRisk true (MkPending None 1 1) ∅
  (<["INPUT"%string := MkChain (MkPolicy "REJECT" 403 "" "risk_accept") []]> ∅).

Definition reject_engine : Engine :=
  match FromConfig reject_config with Ok e => e | Err _ => MkEngine ∅ end.

(** A verdict's status may contradict it: a rule that rejects under a reason
    of the allow list makes the service refuse the request and answer 200, which
    the web server's [auth_request] takes for an admission. *)
Theorem reject_with_allow_reason :
  seen (verify (service_with config (Some reject_engine) (Some sample_limits)) no_token start).1 =
  (false, 200, "risk_accept"%string, 0).
Proof. vm_compute. reflexivity. Qed.

Lemma first_use_race_witness :
  let w := start in
  (bind_read uenv plain bound_token (get bound_token "192.0.2.1") "s" "ip_bound" w).1 = None.
Proof.
  intros w.
  pose proof (first_use_race clk uenv plain bound_token "t" "s" (get bound_token "192.0.2.1")
    (get bound_token "192.0.2.2") w) as Hr.
  destruct (bind_read uenv plain bound_token (get bound_token "192.0.2.1") "s" "ip_bound" w) as [o1 wa].
  destruct (bind_read uenv plain bound_token (get bound_token "192.0.2.2") "s" "ip_bound" wa) as [o2 wb].
  destruct (bind_write _ _ _ _ _ _ _ _ wb) as [a1 wc]. destruct (bind_write _ _ _ _ _ _ _ _ wc) as [a2 wd].
  apply Hr.
  - vm_compute. reflexivity.
  - exact MemUsage.inv_new.
  - reflexivity.
  - vm_compute. reflexivity.
  - vm_compute. discriminate.
  - vm_compute. reflexivity.
Defined.

(** ** A counter read twice *)

Definition sample_counters : gmap string CounterConfig :=
  {["c"%string := MkCounter "ip" minute (MkWhen None None "" "") ""]}.

Lemma resolver_caches_witness :
  let q : RequestContext unit := MkRequest "/x" "GET" "" "192.0.2.1" "" false false "" "" false false None in
  let st := MkCounters MemCounter.NewCounterStore 0 ∅ [] in
  let '(v, st') := resolver_Get cenv sample_counters q "c" st in
  v = 0 /\ forall q' : RequestContext unit, resolver_Get cenv sample_counters q' "c" st' = (v, st').
Proof.
  intros q st. destruct (resolver_Get cenv sample_counters q "c" st) as [v st'] eqn:E.
  assert (v = 0 /\ ctCache st' !! "c"%string = Some 0) as [Hv Hc]
    by (vm_compute in E; injection E as <- <-; split; vm_compute; reflexivity).
  destruct (resolver_caches cenv sample_counters q "c" v st st' E) as [(w & Hw & -> & Hq)|(_ & Hn & _)].
  - split; [exact Hv|exact Hq].
  - rewrite Hn in Hc. vm_compute in Hc. discriminate.
Defined.
