(* ===== verification/TransportTheory.v ===== *)
(** * What the web server reads

    The trace header is short; the rate header is the number of bytes the
    configured rate means, as the decision label understands it; the status and
    the result header tell the verdict; and a request answered 200 has shown a
    good token. *)

From S2P Require Import Prelude GoStrings GoTime Strconv Storage Config Matcher Netip Pow PowTheory.
From S2P Require Import RiskMatcher RiskEngine RiskCounter Pending Auth AuthLogic AuthTheory.
From S2P Require Import MemoryUsage MemoryCounter AuthSample AuthSound AuthBehaviour RiskEngineTheory ConfigValidate ConfigTheory Transport.

(** ** The trace header *)

Lemma Join_snoc l x sep :
  l <> [] -> Join (l ++ [x]) sep = (Join l sep +:+ sep +:+ x)%string.
Proof. destruct l as [|s l]; [done|]. intros _. simpl. by rewrite fold_left_app. Qed.

Definition entries (steps : list TraceStep) : list string :=
  map trace_entry (filter (fun s => tsMatched s = true) steps).

Lemma entry_nonempty s : 0 < len (trace_entry s).
Proof.
  unfold trace_entry. rewrite !len_app. pose proof (len_nonneg (tsChain s)).
  pose proof (len_nonneg (tsRule s)). match goal with |- context [len (if ?b then ?x else ?y)] =>
    pose proof (len_nonneg (if b then x else y)) end. change (len ":") with 1. lia.
Qed.

Lemma len_Join_nonempty l x sep : 0 < len x -> x ∈ l -> 0 < len (Join l sep).
Proof.
  intros Hx. induction l as [|y l IH] using rev_ind; [by intros ?%not_elem_of_nil|]. intros Hin.
  destruct l as [|z l]; [simpl; apply elem_of_cons in Hin as [<-|?%not_elem_of_nil]; done|].
  rewrite Join_snoc, !len_app by done. pose proof (len_nonneg sep).
  pose proof (len_nonneg (Join (z :: l) sep)). pose proof (len_nonneg y).
  apply elem_of_app in Hin as [Hin|Hin%list_elem_of_singleton]; [specialize (IH Hin); lia|subst; lia].
Qed.

(** What a header of at most [maxTraceHeaderLen] bytes, or a cut one, holds. *)
Inductive rendered (es : list string) : string -> Prop :=
  | rn_all : len (Join es ",") <= maxTraceHeaderLen -> rendered es (Join es ",")
  | rn_cut l e l' : es = l ++ e :: l' -> l <> [] -> len (Join l ",") <= maxTraceHeaderLen ->
      maxTraceHeaderLen < len (Join (l ++ [e]) ",") -> rendered es (Join l "," +:+ ",...")
  | rn_first e l' : es = e :: l' -> maxTraceHeaderLen < len e ->
      rendered es (take_bytes (Z.to_nat maxTraceHeaderLen) e +:+ ",...").

Lemma trace_loop_renders done_ steps :
  Forall (fun e => 0 < len e) done_ -> len (Join done_ ",") <= maxTraceHeaderLen ->
  rendered (done_ ++ entries steps) (trace_loop (Join done_ ",") steps).
Proof.
  revert done_; induction steps as [|s steps IH]; intros l Hl Hlen; simpl.
  { rewrite app_nil_r. by constructor. }
  unfold entries. rewrite filter_cons. destruct (tsMatched s) eqn:Em; cbn [negb];
    [rewrite decide_True by done|rewrite decide_False by done; by apply IH].
  cbn [map]. fold (entries steps). pose proof (entry_nonempty s) as He.
  destruct l as [|x l].
  - change (len (Join [] ",")) with 0. cbn [Z.ltb Z.compare]. simpl app.
    destruct (Z.ltb_spec maxTraceHeaderLen (len (trace_entry s))) as [Hx|Hx]; [by eapply rn_first|].
    apply (IH [trace_entry s]); [by constructor|simpl; lia].
  - assert (0 < len (Join (x :: l) ",")) as Hpos by (inv Hl; eapply len_Join_nonempty; [done|by left]).
    rewrite (proj2 (Z.ltb_lt 0 _)) by done.
    assert (len (Join ((x :: l) ++ [trace_entry s]) ",") = len (Join (x :: l) ",") + 1 + len (trace_entry s))
      as Hj by (rewrite Join_snoc, !len_app by done; change (len ",") with 1; lia).
    destruct (Z.ltb_spec maxTraceHeaderLen (len (Join (x :: l) ",") + 1 + len (trace_entry s))) as [Hx|Hx].
    + eapply rn_cut; [done|done|done|lia].
    + rewrite <- Join_snoc by done.
      replace ((x :: l) ++ trace_entry s :: entries steps) with (((x :: l) ++ [trace_entry s]) ++ entries steps)
        by (by rewrite <- app_assoc).
      apply IH; [|lia]. apply Forall_app. split; [done|by constructor].
Qed.

Lemma len_take_bytes n s : len (take_bytes n s) <= Z.of_nat n.
Proof. unfold len, take_bytes. rewrite length_of_bytes, length_take. lia. Qed.

Lemma rendered_bound es t : rendered es t -> len t <= maxTraceHeaderLen + 4.
Proof.
  intros [?|l e l' _ _ ? _|e l' _ _]; rewrite ?len_app; change (len ",...") with 4; unfold maxTraceHeaderLen in *;
    [lia..|]. pose proof (len_take_bytes (Z.to_nat 512) e). lia.
Qed.

(** The trace header shows the matched steps in order, entirely when they
    fit in 512 bytes; otherwise it stops after the last entry that fits (or
    inside the first) and says so; it never exceeds 516 bytes, however long the
    walk and the names. *)
Theorem formatRiskTrace_bounded steps :
  rendered (entries steps) (formatRiskTrace steps) /\ len (formatRiskTrace steps) <= maxTraceHeaderLen + 4.
Proof.
  assert (rendered (entries steps) (formatRiskTrace steps)) as Hr.
  { destruct steps as [|s steps]; [by constructor|]. apply (trace_loop_renders []); [constructor|done]. }
  split; [done|by eapply rendered_bound].
Qed.

(** ** Rates *)

Section Rates.
Context `{Unicode}.

Lemma drop_while_none {A} (f : A -> bool) l : Forall (fun a => f a = false) l -> drop_while f l = l.
Proof. intros Hl. destruct Hl as [|a l Ha _]; simpl; [done|by rewrite Ha]. Qed.

(** Without white space there is nothing to trim. *)
Lemma TrimSpace_id s :
  is_ascii (bytes_of s) -> Forall (fun b => is_space b = false) (bytes_of s) -> TrimSpace s = s.
Proof.
  intros Ha Hs. unfold TrimSpace, drop_while_end. rewrite decode_utf8_ascii by done.
  assert (Forall (fun x : Z * list Z => is_space x.1 = false) (map (fun b => (b, [b])) (bytes_of s))) as Hn
    by (apply Forall_map; exact Hs).
  rewrite (drop_while_none _ _ Hn), drop_while_none, rev_involutive by (apply Forall_rev, Hn).
  rewrite <- (of_bytes_of s) at 2. f_equal. clear. induction (bytes_of s) as [|b l IH]; [done|]. cbn. f_equal. exact IH.
Qed.

Definition lower_ascii (b : Z) : Z := if is_upper b then b + 32 else b.

Lemma ToLower_ascii s : is_ascii (bytes_of s) -> bytes_of (ToLower s) = map lower_ascii (bytes_of s).
Proof.
  intros Hs. unfold ToLower, map_runes. rewrite runes_ascii by done.
  assert (concat (map (fun r => encode_rune (lower_rune r)) (bytes_of s)) = map lower_ascii (bytes_of s)) as ->.
  { induction Hs as [|b l Hb _ IH]; [done|]. simpl. rewrite IH. unfold lower_rune, lower_ascii.
    rewrite (proj2 (Z.ltb_lt b 128)) by lia. unfold encode_rune, is_upper.
    assert (0 <= (if in_range 65 90 b then b + 32 else b) < 128) by
      (unfold in_range; case_if; bcases; lia).
    set (x := if in_range 65 90 b then b + 32 else b) in *.
    assert (in_range 0 127 x = true) as -> by (unfold in_range; apply andb_true_iff; rewrite !Z.leb_le; lia).
    done. }
  apply bytes_of_of, Forall_map. eapply Forall_impl; [exact Hs|]. intros b Hb.
  change (is_byte (lower_ascii b)). simpl in Hb.
  unfold lower_ascii, is_upper, in_range, is_byte. case_if; bcases; lia.
Qed.

(** A rate is digits and at most one unit; [factor u] is what the unit is worth. *)
Definition factor (u : list Z) : Z :=
  match u with
  | [b] => default 1 (rate_unit (lower_ascii b))
  | _ => 1
  end.

(** The rate a valid string spells: [n] times [m]. *)
Definition spells_rate (s : string) (n m : Z) : Prop :=
  exists l u, bytes_of s = l ++ u /\ l <> [] /\ Forall (fun b => is_digit b = true) l /\
    (u = [] \/ exists b, u = [b] /\ is_unit b = true) /\ n = dec_value 0 l /\ m = factor u.

Lemma rate_tail_split l :
  rate_tail l = true -> exists d u, l = d ++ u /\ Forall (fun b => is_digit b = true) d /\
    (u = [] \/ exists b, u = [b] /\ is_unit b = true).
Proof.
  induction l as [|b l IH]; simpl; [intros _; exists [], []; auto|].
  destruct (is_digit b) eqn:Eb.
  - intros (d & u & -> & Hd & Hu)%IH. exists (b :: d), u. split_and!; auto.
  - intros [Hu Hl]%andb_prop. destruct l; [|done]. exists [], [b]. split_and!; [done|done|]. eauto.
Qed.

Lemma valid_rate_spells s : isValidLimitRate s = true -> exists n m, spells_rate s n m.
Proof.
  unfold isValidLimitRate, limitRateRe. intros [->%String.eqb_eq|Hs]%orb_prop.
  - exists 0, 1. exists [48], []. split_and!; auto.
  - destruct (bytes_of s) as [|b l] eqn:E; [done|]. apply andb_prop in Hs as [Hb Ht].
    apply rate_tail_split in Ht as (d & u & -> & Hd & Hu).
    exists (dec_value 0 (b :: d)), (factor u), (b :: d), u. split_and!; auto.
Qed.

Lemma dec_value_ge acc l :
  0 <= acc -> Forall (fun b => is_digit b = true) l -> acc <= dec_value acc l.
Proof.
  intros Ha Hl. revert acc Ha; induction Hl as [|b l Hb _ IH]; intros acc Ha; simpl; [lia|].
  apply is_digit_range in Hb. etrans; [|apply IH; lia]. lia.
Qed.

(** No partial sum wraps when the whole does not. *)
Lemma rate_digits_value l u acc :
  0 <= acc -> Forall (fun b => is_digit b = true) l -> dec_value acc l <= max_int64 ->
  (forall b k, u = b :: k -> is_digit b = false) -> rate_digits (l ++ u) acc = (dec_value acc l, u).
Proof.
  intros Ha Hl Hm Hu. revert acc Ha Hm; induction Hl as [|b l Hb Hl IH]; intros acc Ha Hm; simpl in *.
  - destruct u as [|b k]; simpl; [done|]. by rewrite (Hu b k eq_refl).
  - rewrite Hb. pose proof (is_digit_range _ Hb).
    pose proof (dec_value_ge (acc * 10 + (b - 48)) l ltac:(lia) Hl).
    rewrite wrap64_id by (unfold int64_range, min_int64; lia). apply IH; lia.
Qed.

Lemma is_unit_cases b : is_unit b = true ->
  b = 107 \/ b = 75 \/ b = 109 \/ b = 77 \/ b = 103 \/ b = 71.
Proof.
  unfold is_unit. intros (u & Hu & E%Z.eqb_eq)%existsb_exists. simpl in Hu. subst. intuition.
Qed.

Lemma unit_not_digit b : is_unit b = true -> is_digit b = false.
Proof. intros [->|[->|[->|[->|[->| ->]]]]]%is_unit_cases; reflexivity. Qed.

Lemma factor_range u : (u = [] \/ exists b, u = [b] /\ is_unit b = true) -> 1 <= factor u <= 1024 * 1024 * 1024.
Proof.
  intros [->|(b & -> & Hb)]; [simpl; lia|]. apply is_unit_cases in Hb.
  destruct Hb as [->|[->|[->|[->|[->| ->]]]]]; vm_compute; split; discriminate.
Qed.

Lemma rate_bytes s n m :
  spells_rate s n m -> is_ascii (bytes_of s) /\ Forall (fun b => is_space b = false) (bytes_of s) /\
  s <> ""%string /\ 0 <= n /\ 1 <= m <= 1024 * 1024 * 1024.
Proof.
  intros (l & u & E & Hne & Hd & Hu & -> & ->). rewrite E.
  assert (Forall (fun b => 48 <= b <= 57) l) as Hl by (eapply Forall_impl; [exact Hd|apply is_digit_range]).
  assert (Forall (fun b => 48 <= b < 128) u) as Hu'.
  { destruct Hu as [->|(b & -> & Hb)]; [constructor|]. apply is_unit_cases in Hb. repeat constructor; lia. }
  split_and!.
  - apply Forall_app. split; eapply Forall_impl; eauto; simpl; intros; lia.
  - apply Forall_app. split; eapply Forall_impl; eauto; simpl; intros b Hb;
      unfold is_space, in_range; repeat (apply orb_false_intro); try (apply Z.eqb_neq; lia);
      try (apply andb_false_iff; (left; apply Z.leb_gt; lia) || (right; apply Z.leb_gt; lia)).
  - intros ->. destruct l; done.
  - by apply dec_value_ge.
  - apply (factor_range u Hu).
  - apply (factor_range u Hu).
Qed.

Lemma parse_int_digits l :
  l <> [] -> Forall (fun b => is_digit b = true) l ->
  parse_int (of_bytes l) = if dec_value 0 l <? two63 then Some (dec_value 0 l) else None.
Proof.
  intros Hne Hl. unfold parse_int. rewrite bytes_of_of by (by apply digits_bytes).
  destruct l as [|c l]; [done|]. pose proof Hl as Hd. inv Hd. pose proof (is_digit_range c ltac:(done)).
  rewrite (proj2 (Z.eqb_neq c 43)), (proj2 (Z.eqb_neq c 45)) by lia. cbv iota beta.
  by rewrite (proj2 (forallb_Forall is_digit (c :: l))).
Qed.

Lemma lower_digits l : Forall (fun b => is_digit b = true) l -> map lower_ascii l = l.
Proof.
  induction 1 as [|b l Hb _ IH]; simpl; [done|]. rewrite IH. unfold lower_ascii, is_upper, in_range.
  apply is_digit_range in Hb. case_if; [bprop; lia|done].
Qed.

Lemma rate_unit_digit b : is_digit b = true -> rate_unit b = None.
Proof.
  intros Hb%is_digit_range. unfold rate_unit.
  rewrite !(proj2 (Z.eqb_neq b _)) by lia. done.
Qed.

Lemma rate_unit_factor b : is_unit b = true -> rate_unit (lower_ascii b) = Some (factor [b]).
Proof. intros [->|[->|[->|[->|[->| ->]]]]]%is_unit_cases; reflexivity. Qed.

Lemma last_digit l d : last l = Some d -> Forall (fun b => is_digit b = true) l -> is_digit d = true.
Proof. intros [k ->]%last_Some Hl. apply Forall_app in Hl as [_ Hl]. by inv Hl. Qed.

Lemma limitRateBytes_value s n m :
  spells_rate s n m ->
  limitRateBytes s = Ok (if n <? two63 then format_int (wrap64 (n * m)) else "0"%string).
Proof.
  intros Hs. destruct (rate_bytes _ _ _ Hs) as (Ha & Hsp & Hne & Hn & _).
  destruct Hs as (l & u & E & Hl & Hd & Hu & -> & ->). unfold limitRateBytes.
  rewrite (proj2 (String.eqb_neq s "")), TrimSpace_id, ToLower_ascii, E, map_app, lower_digits by done.
  assert (forall k : Z, (match (if dec_value 0 l <? two63 then Some (dec_value 0 l) else None) with
      | None => Ok "0"%string
      | Some v => if v <? 0 then Ok "0"%string else Ok (format_int (wrap64 (v * k))) end : result panic string) =
      Ok (if dec_value 0 l <? two63 then format_int (wrap64 (dec_value 0 l * k)) else "0"%string)) as Hfin.
  { intros k. destruct (dec_value 0 l <? two63); [|done]. by rewrite (proj2 (Z.ltb_ge _ 0)) by done. }
  destruct Hu as [->|(b & -> & Hb)]; cbn [map].
  - rewrite app_nil_r. destruct (last l) as [d|] eqn:El; [|by apply last_None in El].
    rewrite (rate_unit_digit d), parse_int_digits by (done || by eapply last_digit). apply Hfin.
  - rewrite last_snoc, rate_unit_factor by done. rewrite length_app, Nat.add_sub, take_app_length by done.
    rewrite parse_int_digits by done. apply Hfin.
Qed.

Lemma isVerySlowRate_value s n m :
  spells_rate s n m -> n * m <= max_int64 -> isVerySlowRate s = (n * m <=? 128 * 1024).
Proof.
  intros Hs Hm. destruct (rate_bytes _ _ _ Hs) as (_ & _ & _ & Hn & H1 & _).
  destruct Hs as (l & u & E & Hl & Hd & Hu & -> & ->). unfold isVerySlowRate, parseRate. rewrite E.
  set (n := dec_value 0 l) in *. assert (n <= max_int64) as Hn' by nia.
  assert (rate_digits (l ++ u) 0 = (n, u)) as Er.
  { apply rate_digits_value; [done..|]. intros b k ->. destruct Hu as [|(c & [= -> ->] & Hc)]; [done|].
    by apply unit_not_digit. }
  destruct l as [|c l]; [done|]. rewrite <- app_comm_cons in *. cbv beta iota. rewrite Er. inv Hd.
  match goal with Hc : is_digit c = true |- _ => rewrite Hc end.
  assert (forall z, 0 <= z <= max_int64 -> wrap64 z = z) as Hw
    by (intros z Hz; apply wrap64_id; unfold int64_range, min_int64; lia).
  destruct Hu as [->|(b & -> & Hb)]; [simpl; f_equal; unfold factor; lia|].
  apply is_unit_cases in Hb. destruct Hb as [->|[->|[->|[->|[->| ->]]]]];
    match goal with |- context [factor ?u] =>
      let f := eval vm_compute in (factor u) in change (factor u) with f in * end;
    cbn [Z.eqb Pos.eqb orb]; rewrite (Hw (n * 1024)) by lia;
    try rewrite (Hw (n * 1024 * 1024)) by lia; try rewrite (Hw (n * 1024 * 1024 * 1024)) by lia; f_equal; lia.
Qed.

(** C40: For a rate validation accepts, up to the overflow of 64 bits, the header
    the proxy reads is the decimal number of bytes the rate spells, and the
    decision label calls it very slow exactly when that number is at most
    128 KiB: header and label read the rate alike. *)
Theorem limitRateBytes_agrees s :
  isValidLimitRate s = true ->
  exists n m, spells_rate s n m /\
    (n * m <= max_int64 ->
     limitRateBytes s = Ok (format_int (n * m)) /\ isVerySlowRate s = (n * m <=? 128 * 1024) /\
     parse_int (format_int (n * m)) = Some (n * m)).
Proof.
  intros (n & m & Hs)%valid_rate_spells. exists n, m. split; [done|]. intros Hm.
  destruct (rate_bytes _ _ _ Hs) as (_ & _ & _ & Hn & H1 & _).
  assert (int64_range (n * m)) as Hr by (unfold int64_range, min_int64; nia).
  split_and!; [|by apply isVerySlowRate_value|by apply parse_format_int].
  rewrite (limitRateBytes_value _ _ _ Hs), wrap64_id by done.
  rewrite (proj2 (Z.ltb_lt n two63)); [done|]. unfold max_int64, two63 in *. nia.
Qed.

End Rates.

#[local] Existing Instances ascii_unicode.

Lemma limitRateBytes_agrees_witness :
  limitRateBytes "512k" = Ok "524288"%string /\
  exists n m, spells_rate "512k" n m /\
    (n * m <= max_int64 -> limitRateBytes "512k" = Ok (format_int (n * m))).
Proof.
  split; [vm_compute; reflexivity|].
  destruct (limitRateBytes_agrees "512k") as (n & m & Hs & Hm); [vm_compute; reflexivity|].
  exists n, m. split; [exact Hs|]. intros Hb. exact (proj1 (Hm Hb)).
Defined.

(** Beyond 64 bits the two readings part: validation accepts these rates, the
    first is printed as a negative number, the second as no limit. *)
Example rate_overflows :
  isValidLimitRate "8589934592g" = true /\ limitRateBytes "8589934592g" = Ok "-9223372036854775808"%string /\
  isValidLimitRate "9223372036854775808" = true /\ limitRateBytes "9223372036854775808" = Ok "0"%string.
Proof. vm_compute. auto. Qed.

(** A blank rate, which validation refuses, would panic. *)
Example blank_rate_panics :
  limitRateBytes " " = Err IndexOutOfRange /\ isValidLimitRate " " = false.
Proof. vm_compute. auto. Qed.

(** ** The verdict on the wire *)

Lemma header_get_set h k v : header_get (header_set k v h) k = v.
Proof. unfold header_get, header_set. by rewrite lookup_insert_eq. Qed.

Lemma header_get_set_ne h k k' v :
  canonical_key k <> canonical_key k' -> header_get (header_set k v h) k' = header_get h k'.
Proof. intros Hne. unfold header_get, header_set. by rewrite lookup_insert_ne. Qed.

Lemma header_get_if_ne h c k k' v :
  canonical_key k <> canonical_key k' -> header_get (set_if c k v h) k' = header_get h k'.
Proof. intros Hne. destruct c; [by apply header_get_set_ne|done]. Qed.

Ltac hget := repeat first
  [ rewrite header_get_set
  | rewrite header_get_set_ne by (vm_compute; discriminate)
  | rewrite header_get_if_ne by (vm_compute; discriminate) ].

Section Verdict.
Context `{Unicode}.

(** The headers up to the rate, and those after: neither touches the verdict. *)
Lemma writeAuthResult_inv h res r :
  writeAuthResult h res = Ok r ->
  rsStatus r = (if Allowed res then 200 else HTTPStatus res) /\
  header_get (rsHeader r) "X-Pow-Result" = (if Allowed res then "allow" else "deny")%string /\
  header_get (rsHeader r) "X-Pow-Reason" = Reason res /\
  header_get (rsHeader r) "X-Pow-Error" = (if Allowed res then header_get h "X-Pow-Error" else ErrorHeader res).
Proof.
  unfold writeAuthResult. cbv zeta. intros Hw.
  match type of Hw with match ?rate with _ => _ end = _ => destruct rate as [h1|] eqn:E; [|done] end.
  assert (header_get h1 "X-Pow-Error" = header_get h "X-Pow-Error") as H1.
  { destruct (LimitRate res =? "")%string.
    - injection E as <-. destruct (_ || _); by hget.
    - destruct (limitRateBytes _); [|done]. injection E as <-. hget. destruct (_ || _); by hget. }
  destruct (Allowed res); injection Hw as <-; cbn [rsStatus rsHeader]; split_and!; hget; done.
Qed.

Lemma writeAuthResult_panics h res :
  writeAuthResult h res = Err IndexOutOfRange <->
  LimitRate res <> ""%string /\ ToLower (TrimSpace (LimitRate res)) = ""%string.
Proof.
  assert (forall s, limitRateBytes s = Err IndexOutOfRange <-> s <> ""%string /\ ToLower (TrimSpace s) = ""%string)
    as Hl.
  { intros s. unfold limitRateBytes. destruct (String.eqb_spec s "") as [|Hne]; [by split; [|intros []]|].
    destruct (last (bytes_of (ToLower (TrimSpace s)))) as [b|] eqn:E.
    - split; [|intros [_ Es]; by rewrite Es in E].
      destruct (rate_unit b); (destruct (parse_int _); [|done]); by destruct (_ <? 0).
    - split; [|done]. intros _. split; [done|]. apply last_None in E. by apply bytes_of_inj. }
  rewrite <- Hl. unfold writeAuthResult. cbv zeta.
  destruct (String.eqb_spec (LimitRate res) "") as [->|]; [by destruct (Allowed res)|].
  destruct (limitRateBytes (LimitRate res)) as [|[]]; by destruct (Allowed res).
Qed.

(** What the front tells the web server: the status is 200 for an admission
    and the verdict's own for a refusal, the result, reason and error headers
    say the same, whatever was set before; and the handler fails only on a rate
    that is blank but not empty. *)
Theorem writeAuthResult_spec h res :
  (forall r, writeAuthResult h res = Ok r ->
     rsStatus r = (if Allowed res then 200 else HTTPStatus res) /\
     header_get (rsHeader r) "X-Pow-Result" = (if Allowed res then "allow" else "deny")%string /\
     header_get (rsHeader r) "X-Pow-Reason" = Reason res /\
     header_get (rsHeader r) "X-Pow-Error" =
       (if Allowed res then header_get h "X-Pow-Error" else ErrorHeader res)) /\
  (writeAuthResult h res = Err IndexOutOfRange <->
   LimitRate res <> ""%string /\ ToLower (TrimSpace (LimitRate res)) = ""%string).
Proof. split; [apply writeAuthResult_inv|apply writeAuthResult_panics]. Qed.

End Verdict.

Section EndToEnd.
Context `{Unicode, JsonCodec, Regexp, MapRange}.
Context {U C : Type} `{UsageStore U, CounterStore C}.
Variable clk : nat -> Z.
Variable uenv : nat -> us_env.
Variable cenv : nat -> cs_env.
Variable s : Service.

Notation W := (world (U := U) (C := C)).

(** C22: End to end, from request headers to status.  When no rule rejects in the
    allow list's name, the web server reads 200 exactly when the result header
    says allow.  When moreover PoW is on, nothing is bypassed, dry run is off, and
    the engine is absent or never accepts by itself (as the rules that are
    shipped do, with a rate), it reads 200 for a protected path only when the
    request's headers carried a token good for that path and client. *)
Theorem verifyPow_sound hreq h0 (w : W) r w' :
  rejects_cleanly (C := C) s -> verifyPow (Verify clk uenv cenv s) hreq h0 w = (Ok r, w') ->
  (rsStatus r = 200 <-> header_get (rsHeader r) "X-Pow-Result" = "allow"%string) /\
  (powEnabled s = true -> bypassAllEffective s = false -> dryRunEffective s = false -> never_accepts (C := C) s ->
   rsStatus r = 200 -> svMatcher s (header_get hreq "X-Original-URI") = true ->
   admitted clk uenv s (request_of hreq) w w').
Proof.
  intros Hr. unfold verifyPow.
  destruct (Verify clk uenv cenv s (request_of hreq) w) as [res w1] eqn:Ev. intros [= Hw <-].
  destruct (writeAuthResult_inv _ _ _ Hw) as (Hs & Hres & _).
  pose proof (Verify_consistent clk uenv cenv s (request_of hreq) w Hr) as Hc. rewrite Ev in Hc.
  unfold consistent in Hc. simpl in Hc. rewrite Hs, Hres. destruct (Allowed res) eqn:Ha.
  - split; [done|]. intros Hp Hb Hd He _ Hm. by eapply Verify_admitted.
  - split; [split; intros Hx; [exfalso; lia|done]|]. intros _ _ _ _ Hx. lia.
Qed.

End EndToEnd.

(** ** The deployment of [AuthSample] behind its front *)

Section Deployed.
#[local] Existing Instances ascii_unicode literal_regexp key_order AuthSample.codec
  MemUsage.UsageStore_ops MemCounter.CounterStore_ops.
Import AuthSample.

Definition headers_of (q : AuthRequest) : header :=
  header_set "X-Original-URI" (OriginalURI q) (header_set "X-Original-Method" (OriginalMethod q)
    (header_set "X-Original-Args" (OriginalArgs q) (header_set "X-Real-IP" (RealIP q)
      (header_set "User-Agent" (UserAgent q) (header_set "X-Original-Range" (OriginalRange q) ∅))))).

Definition answer := verifyPow (Verify clk uenv cenv plain) (headers_of (AuthSample.get bound_token "192.0.2.1")) ∅ start.

Lemma verifyPow_sound_witness :
  exists r w', answer = (Ok r, w') /\ rsStatus r = 200 /\
    header_get (rsHeader r) "X-Pow-Result" = "allow"%string /\
    admitted clk uenv plain (request_of (headers_of (AuthSample.get bound_token "192.0.2.1"))) start w'.
Proof.
  assert (match answer.1 with Ok r => rsStatus r | Err _ => 0 end = 200) as Hs by (vm_compute; reflexivity).
  destruct answer as [[r|x] w'] eqn:E; cbn [fst] in Hs; [|discriminate].
  assert (forall P : Prop, (riskEngine plain <> None -> P)) as Hno.
  { intros P Hx. exfalso. apply Hx. vm_compute. reflexivity. }
  destruct (verifyPow_sound clk uenv cenv plain (headers_of (AuthSample.get bound_token "192.0.2.1")) ∅ start r w')
    as [Hr Ha].
  - intros eng q c r' c' He. apply Hno. congruence.
  - exact E.
  - exists r, w'. split; [reflexivity|]. split; [exact Hs|]. split; [exact (proj1 Hr Hs)|].
    apply Ha; [vm_compute; reflexivity..| |exact Hs|vm_compute; reflexivity].
    intros eng q c r' c' He. apply Hno. congruence.
Defined.

Lemma writeAuthResult_spec_witness :
  match writeAuthResult ∅ (deny ReasonUsedUp) with
  | Ok r => rsStatus r = 403 /\ header_get (rsHeader r) "X-Pow-Result" = "deny"%string
  | Err _ => False
  end.
Proof.
  destruct (writeAuthResult ∅ (deny ReasonUsedUp)) as [r|e] eqn:Hr; [|vm_compute in Hr; discriminate].
  destruct (proj1 (writeAuthResult_spec ∅ (deny ReasonUsedUp)) r Hr) as (Hs & Hv & _).
  split; [exact Hs|exact Hv].
Defined.

(** The id the request's log lines should carry is in the context only after
    the handler has answered. *)
Example request_id_late :
  request_id_after true (header_set "X-Request-Id" "r1" ∅) ∅ = Some "r1"%string /\
  generateRequestID 35 = "z"%string /\ timeoutMiddleware 0 0 = None /\
  timeoutMiddleware second 0 = Some second.
Proof. vm_compute. auto. Qed.

End Deployed.
