(* ===== verification/Histories.v ===== *)
(** * Stores that several requests call

    Each call of a store is atomic.  A request sees the store through [seen]:
    before each of its calls any calls of others take place.  A history orders
    the calls of all; [tagged] is the history as one caller knows it. *)

From S2P Require Import Prelude.

(** ** The store as one caller sees it *)

(** The store, and the calls so far, the caller's own marked. *)
Record seen (S Ev : Type) := MkSeen { snStore : S; snTrace : list (bool * Ev) }.
Arguments MkSeen {S Ev} _ _.
Arguments snStore {S Ev} _.
Arguments snTrace {S Ev} _.

(** The calls of others since the caller's last, and what its own meets. *)
Record call_env (Ev E : Type) := MkCallEnv { ceBefore : list Ev; ceEnv : E }.
Arguments MkCallEnv {Ev E} _ _.
Arguments ceBefore {Ev E} _.
Arguments ceEnv {Ev E} _.

Section Seen.
Context {S Ev : Type}.
(** What a call does to the store. *)
Variable effect : Ev -> S -> S.

Definition after (evs : list Ev) (st : S) : S := foldl (fun st ev => effect ev st) st evs.

Definition meet (evs : list Ev) (st : seen S Ev) : seen S Ev :=
  MkSeen (after evs (snStore st)) (snTrace st ++ map (pair false) evs).

Definition own_call {A} (ev : Ev) (call : S -> A * S) (st : seen S Ev) : A * seen S Ev :=
  let '(r, u) := call (snStore st) in (r, MkSeen u (snTrace st ++ [(true, ev)])).

Lemma own_call_eq {A} ev (call : S -> A * S) st :
  own_call ev call st = ((call (snStore st)).1, MkSeen (call (snStore st)).2 (snTrace st ++ [(true, ev)])).
Proof. unfold own_call. by destruct (call (snStore st)). Qed.

Lemma after_app evs evs' st : after (evs ++ evs') st = after evs' (after evs st).
Proof. apply foldl_app. Qed.
End Seen.

Lemma others_marked {Ev} (evs : list Ev) : Forall (fun x : bool * Ev => x.1 = false) (map (pair false) evs).
Proof. apply Forall_map, Forall_forall. done. Qed.

Lemma map_snd_pair {A B} (b : A) (evs : list B) : map snd (map (pair b) evs) = evs.
Proof. rewrite map_map. apply map_id. Qed.

(** ** Histories: calls with their callers' numbers *)

Notation history Ev := (list (nat * Ev)).

Section Histories.
Context {Ev : Type}.

Definition tagged (i : nat) (G : history Ev) : list (bool * Ev) := map (fun x => (bool_decide (x.1 = i), x.2)) G.

(** A trace is what happened up to the caller's last call. *)
Definition trace_fits (i : nat) (tr : list (bool * Ev)) (G : history Ev) : Prop :=
  exists rest, tagged i G = tr ++ rest /\ Forall (fun x => x.1 = false) rest.

Lemma tagged_lookup i (G : history Ev) n b ev :
  tagged i G !! n = Some (b, ev) -> exists o, G !! n = Some (o, ev) /\ b = bool_decide (o = i).
Proof. unfold tagged. rewrite list_lookup_fmap. destruct (G !! n) as [[o x]|]; [|done]. intros [= <- <-]. eauto. Qed.

Lemma tagged_events i (G : history Ev) : map snd (tagged i G) = map snd G.
Proof. unfold tagged. by rewrite map_map. Qed.

Context `{!EqDecision Ev}.

Definition trace_fits_b (i : nat) (tr : list (bool * Ev)) (G : history Ev) : bool :=
  let rest := drop (length tr) (tagged i G) in
  bool_decide (tagged i G = tr ++ rest) && forallb (fun x => negb x.1) rest.

Lemma trace_fits_by i tr G : trace_fits_b i tr G = true -> trace_fits i tr G.
Proof.
  intros [Ht%bool_decide_eq_true_1 Hr%forallb_Forall]%andb_prop. eexists. split; [exact Ht|].
  eapply Forall_impl; [exact Hr|]. intros x. apply negb_true_iff.
Qed.
End Histories.
