(* ===== verification/CounterLaws.v ===== *)
(** * The contract of a counter store

    What a counter store promises to the rules: one count per name, key and
    window, raised by one with each increment and told by each read.  The stores
    in memory and on redis keep it, an instrumented store does when the store it
    wraps does; [window_counts] says what a read finds after any history. *)

From S2P Require Import Prelude GoStrings GoTime Storage MemoryCounter Redis RedisCounter Instrumented Histories.

(** ** The contract *)

(** [win] gives each name its window; [cl_related win t s sp]: at [t] the store
    holds the counts [sp].  [cl_call_ok] is what a call needs to be answered. *)
Class CounterLaws (C : Type) `{CounterStore C} := {
  cl_related : (string -> Z) -> Z -> C -> MemCounter.spec -> Prop;
  cl_time : cs_env -> Z;
  cl_call_ok : (string -> Z) -> cs_env -> string -> Prop;
  cl_incr_law : forall win t s sp e name key, cl_related win t s sp -> t <= cl_time e -> cl_call_ok win e name ->
    let start := MemCounter.bucketStart (win name) (cl_time e) in
    0 <= sp name key start < max_int64 ->
    exists rest s', cs_incr e name key (win name) s = (Ok (sp name key start + 1, rest), s') /\
      cl_related win (cl_time e) s' (MemCounter.spec_set sp name key start (sp name key start + 1));
  cl_get_law : forall win t s sp e name key, cl_related win t s sp -> t <= cl_time e -> cl_call_ok win e name ->
    exists s', cs_get e name key (win name) s = (Ok (sp name key (MemCounter.bucketStart (win name) (cl_time e))), s') /\
      cl_related win (cl_time e) s' sp;
}.

(** ** The stores that keep it *)

#[export] Instance memory_counter_laws : CounterLaws (H := MemCounter.CounterStore_ops) MemCounter.CounterStore.
Proof.
  refine {| cl_related win t s sp := exists m, MemCounter.related win t s sp m;
            cl_time := MemCounter.now1 : @cs_env _ MemCounter.CounterStore_ops -> Z;
            cl_call_ok win e name := MemCounter.time_ok (MemCounter.now1 e) /\ MemCounter.plain_name name /\ 0 < win name |}.
  - intros win t s sp e name key [m Hr] Ht (Hok & Hn & Hw) start Hv.
    destruct (MemCounter.store_step_related win t (MemCounter.OpIncr name key) e s sp m Hr Ht Hok Hn Hw) as [m' Hs].
    cbn [MemCounter.store_step MemCounter.spec_step cs_incr MemCounter.CounterStore_ops] in *. fold start in Hs.
    destruct (MemCounter.Incr e name key (win name) s) as [[[v rest]|x] s']; [|by destruct Hs].
    destruct Hs as [[= ->] Hs]. rewrite wrap64_id in * by (unfold int64_range, min_int64 in *; lia). eauto.
  - intros win t s sp e name key [m Hr] Ht (Hok & Hn & Hw).
    destruct (MemCounter.store_step_related win t (MemCounter.OpGet name key) e s sp m Hr Ht Hok Hn Hw) as [m' [Hs Hr']].
    exists s. split; [|by exists m']. cbn [cs_get MemCounter.CounterStore_ops]. by rewrite Hs.
Defined.

Section RedisLaws.
Context {R : Type} `{RedisLaws R}.
Variable seconds_of : Z -> Z.

#[local] Instance redis_counter : CounterStore (RedisCounter.CounterStore R) := {|
  cs_env := RedisCounter.env;
  cs_incr := RedisCounter.Incr seconds_of;
  cs_get e name key w s := (RedisCounter.Get e name key w s, s);
  cs_reset := RedisCounter.Reset;
  cs_close := RedisCounter.Close;
|}.

Definition redis_counter_laws : CounterLaws (RedisCounter.CounterStore R).
Proof.
  refine {| cl_related win t s sp := RedisCounter.related win t max_int64 s sp;
            cl_time := RedisCounter.now1 : @cs_env _ redis_counter -> Z;
            cl_call_ok win e name :=
              RedisCounter.call_ok seconds_of win (RedisCounter.now1 e) (MemCounter.OpGet name "") e |}.
  - intros win t s sp e name key Hr Ht (_ & Hok) start Hv.
    pose proof (RedisCounter.redis_step seconds_of win t max_int64 max_int64 (MemCounter.OpIncr name key) e s sp
                  Hr ltac:(lia) ltac:(lia) (conj Ht Hok)) as Hs.
    cbn [RedisCounter.store_step MemCounter.spec_step cs_incr redis_counter] in *.
    change (MemCounter.bucketStart (win name) (RedisCounter.now1 e)) with start in Hs.
    destruct (RedisCounter.Incr seconds_of e name key (win name) s) as [[[v rest]|x] s'].
    + destruct Hs as [[= ->] Hs]; [intros ? ? [= <- <-]; change (sp name key start < Z.min max_int64 max_int64); lia|].
      rewrite wrap64_id in * by (unfold int64_range, min_int64 in *; lia). eauto.
    + destruct Hs as [[=] _]. intros ? ? [= <- <-]. change (sp name key start < Z.min max_int64 max_int64). lia.
  - intros win t s sp e name key Hr Ht (_ & Hok).
    pose proof (RedisCounter.redis_step seconds_of win t max_int64 max_int64 (MemCounter.OpGet name key) e s sp
                  Hr ltac:(lia) ltac:(lia) (conj Ht Hok) ltac:(done)) as [Hs Hr'].
    exists s. split; [|done]. cbn [cs_get redis_counter]. f_equal. exact Hs.
Defined.
End RedisLaws.

Section WrappedLaws.
Context {C : Type} `{Hc : CounterLaws C}.

Lemma through_answers {A B} op (count : result storage_error A -> result storage_error B) call (s : wrapped C) r u :
  call (unwrap s) = (r, u) -> exists s', through op count call s = (r, s') /\ unwrap s' = u.
Proof.
  intros E. pose proof (through_spec op count call s) as Ht. rewrite E in Ht.
  destruct (through op count call s) as [r' s']. destruct Ht as [[= -> <-] _]. eauto.
Qed.

Definition wrapped_counter_laws : CounterLaws (wrapped C).
Proof.
  refine {| cl_related win t s sp := cl_related win t (unwrap s) sp;
            cl_time := cl_time (CounterLaws := Hc);
            cl_call_ok := cl_call_ok (CounterLaws := Hc) |}.
  - intros win t s sp e name key Hr Ht Hok start Hv.
    destruct (cl_incr_law (C := C) win t (unwrap s) sp e name key Hr Ht Hok Hv) as (rest & u & E & Hr').
    apply (through_answers "counter_incr" id) in E as (s' & E & <-). eauto.
  - intros win t s sp e name key Hr Ht Hok.
    destruct (cl_get_law (C := C) win t (unwrap s) sp e name key Hr Ht Hok) as (u & E & Hr').
    apply (through_answers "counter_get" id) in E as (s' & E & <-). eauto.
Defined.
End WrappedLaws.

(** ** The store as one request sees it *)

Section SeenCounters.
Context {C : Type} `{CounterStore C}.

Inductive cs_event :=
  | EvIncr (e : cs_env (S := C)) (name key : string) (window : Z)
  | EvRead (e : cs_env (S := C)) (name key : string) (window : Z)
  | EvReset (e : cs_env (S := C)) (name key : string) (window : Z).

Definition cs_effect (ev : cs_event) (s : C) : C :=
  match ev with
  | EvIncr e n k w => (cs_incr e n k w s).2
  | EvRead e n k w => (cs_get e n k w s).2
  | EvReset e n k w => (cs_reset e n k w s).2
  end.

#[export] Instance seen_counter : CounterStore (seen C cs_event) := {|
  cs_env := call_env cs_event (cs_env (S := C));
  cs_incr e n k w st := own_call (EvIncr (ceEnv e) n k w) (cs_incr (ceEnv e) n k w) (meet cs_effect (ceBefore e) st);
  cs_get e n k w st := own_call (EvRead (ceEnv e) n k w) (cs_get (ceEnv e) n k w) (meet cs_effect (ceBefore e) st);
  cs_reset e n k w st := own_call (EvReset (ceEnv e) n k w) (cs_reset (ceEnv e) n k w) (meet cs_effect (ceBefore e) st);
  cs_close st := MkSeen (cs_close (snStore st)) (snTrace st);
|}.
#[export] Instance cs_event_eq `{!EqDecision (cs_env (S := C))} : EqDecision cs_event.
Proof. solve_decision. Defined.
End SeenCounters.
Arguments cs_event C {_}.

(** ** What a read finds *)

Section Counts.
Context {C : Type} `{CounterLaws C}.
Variable win : string -> Z.

(** A call of a request, answered, on the window of its name; requests do not
    reset. *)
Definition call_fits (ev : cs_event C) : Prop :=
  match ev with
  | EvIncr e n _ w | EvRead e n _ w => cl_call_ok win e n /\ w = win n
  | EvReset _ _ _ _ => False
  end.

Definition ev_when (ev : cs_event C) : Z :=
  match ev with EvIncr e _ _ _ | EvRead e _ _ _ | EvReset e _ _ _ => cl_time e end.

(** In the order of time. *)
Fixpoint in_order (t : Z) (evs : list (cs_event C)) : Prop :=
  match evs with [] => True | ev :: evs => t <= ev_when ev /\ in_order (ev_when ev) evs end.

Variables (name key : string) (start : Z).

(** An increment of the counter [name] for [key] in the window from [start]. *)
Definition raises (ev : cs_event C) : bool :=
  match ev with
  | EvIncr e n k _ => bool_decide (n = name /\ k = key /\ MemCounter.bucketStart (win n) (cl_time e) = start)
  | _ => false
  end.

Definition raised (evs : list (cs_event C)) : Z := Z.of_nat (length (filter (fun ev => raises ev = true) evs)).

Lemma raised_cons ev evs : raised (ev :: evs) = (if raises ev then 1 else 0) + raised evs.
Proof. unfold raised. rewrite filter_cons. destruct (raises ev); simpl; lia. Qed.

(** After calls in the order of time, a read finds what the store held before them
    and one more for each increment. *)
Lemma window_counts evs t s sp B e :
  let read := EvRead e name key (win name) in
  cl_related win t s sp -> (forall n k st, 0 <= sp n k st <= B) -> B + Z.of_nat (length evs) <= max_int64 ->
  in_order t (evs ++ [read]) -> Forall call_fits (evs ++ [read]) ->
  MemCounter.bucketStart (win name) (cl_time e) = start ->
  (cs_get e name key (win name) (after cs_effect evs s)).1 = Ok (sp name key start + raised evs).
Proof.
  intros read. revert t s sp B; induction evs as [|ev evs IH]; intros t s sp B Hr Hb Hlen Ho Hf Hst; simpl in *.
  - apply Forall_cons in Hf as [[Hok _] _]. destruct Ho as [Ht _].
    destruct (cl_get_law win t s sp e name key Hr Ht Hok) as (s' & -> & _). simpl. rewrite Hst. f_equal. unfold raised. simpl. lia.
  - apply Forall_cons in Hf as [Hev Hf]. destruct Ho as [Ht Ho]. rewrite raised_cons.
    destruct ev as [e' n k w|e' n k w|e' n k w]; simpl in *; [| |done]; destruct Hev as [Hok ->].
    + pose proof (Hb n k (MemCounter.bucketStart (win n) (cl_time e'))) as Hv.
      destruct (cl_incr_law win t s sp e' n k Hr Ht Hok ltac:(lia)) as (rest & s' & -> & Hr'). simpl.
      rewrite (IH _ _ _ (B + 1) Hr' ltac:(intros; unfold MemCounter.spec_set; specialize (Hb n0 k0 st); case_bool_decide; lia)
                 ltac:(lia) Ho Hf Hst).
      f_equal. unfold MemCounter.spec_set.
      destruct (decide (n = name /\ k = key /\ MemCounter.bucketStart (win n) (cl_time e') = start)) as [(-> & -> & Hs)|Hne].
      * rewrite !bool_decide_eq_true_2 by (rewrite ?Hs; auto). rewrite Hs. lia.
      * rewrite !bool_decide_eq_false_2; [lia|naive_solver..].
    + destruct (cl_get_law win t s sp e' n k Hr Ht Hok) as (s' & -> & Hr'). simpl.
      by rewrite (IH _ _ _ B Hr' Hb ltac:(lia) Ho Hf Hst).
Qed.
End Counts.
