(* ===== verification/Interleaving.v ===== *)
(** * Requests at the same time

    The usage store decides on quotas; each of its calls is atomic.  A request
    sees the store as [Histories.seen]; a history fits a request when what that
    request met is the history up to its last call.  The quota then holds over
    every history. *)

From S2P Require Import Prelude GoStrings GoTime Pow Matcher Storage Config RiskMatcher RiskEngine.
From S2P Require Import RiskCounter Pending Auth App AuthLogic AuthTheory AuthSound AuthCarry AuthQuota.
From S2P Require Import MemoryUsage MemoryCounter AuthSample Histories.

(** ** The store as one request sees it *)

Section Seen.
Context {U : Type} `{UsageStore U}.

Definition effect (ev : us_event U) (st : U) : U := (us_step "" ev st).2.

Lemma us_step_effect id ev st : (us_step id ev st).2 = effect ev st.
Proof. destruct ev; unfold effect; simpl; [|done..]. by destruct (us_consume e inp st). Qed.

Notation after := (Histories.after effect).
Notation meet := (Histories.meet effect).

#[export] Instance seen_usage : UsageStore (seen U (us_event U)) := {|
  us_env := call_env (us_event U) us_env;
  us_consume e inp st := own_call (EvConsume (ceEnv e) inp) (us_consume (ceEnv e) inp) (meet (ceBefore e) st);
  us_get e i st := own_call (EvGet (ceEnv e) i) (us_get (ceEnv e) i) (meet (ceBefore e) st);
  us_cleanup e b st := own_call (EvCleanup (ceEnv e) b) (us_cleanup (ceEnv e) b) (meet (ceBefore e) st);
  us_close st := MkSeen (us_close (snStore st)) (snTrace st);
|}.

(** The uses of [id] charged by the request's own calls. *)
Fixpoint own_charges (id : string) (tr : list (bool * us_event U)) (st : U) : Z :=
  match tr with
  | [] => 0
  | (own, ev) :: tr => (if own && (us_step id ev st).1 then 1 else 0) + own_charges id tr (effect ev st)
  end.

Lemma own_charges_app id tr tr' st :
  own_charges id (tr ++ tr') st = own_charges id tr st + own_charges id tr' (after (map snd tr) st).
Proof.
  revert st; induction tr as [|[own ev] tr IH]; intros st; simpl; [done|]. rewrite IH.
  change (after (ev :: map snd tr) st) with (after (map snd tr) (effect ev st)). lia.
Qed.

Lemma own_charges_others id tr st : Forall (fun x => x.1 = false) tr -> own_charges id tr st = 0.
Proof.
  intros Hf. revert st; induction Hf as [|[own ev] tr Ho _ IH]; intros st; simpl in *; [done|]. subst own. simpl. apply IH.
Qed.

End Seen.
#[local] Notation after := (Histories.after effect).
#[local] Notation seen U := (seen U (us_event U)).
#[local] Notation call_env U := (call_env (us_event U) (us_env (S := U))).

(** ** One request among others *)

Section Among.
Context `{Unicode, JsonCodec, Regexp, MapRange}.
Context {U C : Type} `{UsageStoreLaws U, CounterStore C}.
Variable s : Service.
Variables (id : string) (E Mx : Z).
Variable s0 : U.

Notation W := (world (U := seen U) (C := C)).

(** [n] uses were charged by the request's own calls, which were calls the store
    accepts; the store is what the calls so far have made of [s0]. *)
Definition own_count (n : Z) (w : W) : Prop :=
  let tr := snTrace (wStore w) in
  snStore (wStore w) = after (map snd tr) s0 /\ n <= own_charges id tr s0 /\
  Forall (fun x => x.1 = true -> ev_ok id E Mx x.2) tr.

(** One call of the request. *)
Lemma own_count_call n (e : call_env U) ev (call : U -> U) (w w' : W) :
  own_count n w -> ev_ok id E Mx ev -> (forall st, (us_step id ev st).2 = call st) ->
  let st := after (ceBefore e) (snStore (wStore w)) in
  wStore w' = MkSeen (call st) (snTrace (wStore w) ++ map (pair false) (ceBefore e) ++ [(true, ev)]) ->
  own_count (n + if (us_step id ev st).1 then 1 else 0) w'.
Proof.
  intros (Hs & Hn & Hf) Hok Hc st Hw. unfold own_count. rewrite Hw. cbn [snStore snTrace].
  rewrite !map_app, map_snd_pair, !after_app, !own_charges_app, map_snd_pair, (own_charges_others _ (map _ _)) by apply others_marked.
  rewrite <- Hs. fold st. simpl. split; [by rewrite <- us_step_effect with (id := id), Hc|].
  split; [lia|]. apply Forall_app. split; [done|]. apply Forall_app. split; [|by constructor].
  eapply Forall_impl; [apply others_marked|]. intros x Hx Hx'. congruence.
Qed.

Variable clk : nat -> Z.
Variable uenv : nat -> call_env U.
Variable cenv : nat -> cs_env (S := C).
Hypothesis dp : deployed clk (fun n => ceEnv (uenv n)) s Mx.

Lemma own_count_carried : carried (U := seen U) clk uenv s id E own_count (call_fine (fun n => ceEnv (uenv n)) id E Mx).
Proof.
  pose proof (quota_carried (C := C) clk (fun n => ceEnv (uenv n)) s id E Mx dp) as Hq.
  split.
  - apply dp.
  - intros m n w Hm (Hs & Hn & Hf). split; [done|]. split; [lia|done].
  - intros n w w' Hst _. unfold own_count. by rewrite Hst.
  - intros n i w w' Hw Hst _. rewrite <- (Z.add_0_r n).
    apply (own_count_call n (uenv (wTick w)) (EvGet (ceEnv (uenv (wTick w))) i)
             (fun st => (us_get (ceEnv (uenv (wTick w))) i st).2) w w'); try done.
    rewrite Hst. cbn [us_get seen_usage]. rewrite own_call_eq. cbn. by rewrite <- app_assoc.
  - intros n inp w w' r Hw Hf Hc _.
    set (e := uenv (wTick w)) in *. set (st := after (ceBefore e) (snStore (wStore w))).
    pose proof (own_count_call n e (EvConsume (ceEnv e) inp) (fun st => (us_consume (ceEnv e) inp st).2) w w' Hw Hf) as Hx.
    cbn [us_consume seen_usage] in Hc. rewrite own_call_eq in Hc. cbn in Hc. fold st in Hc, Hx. injection Hc as Hr Hw'.
    assert ((us_step id (EvConsume (ceEnv e) inp) st).1 = is_charge inp r && bool_decide (ciID inp = id)) as Ex.
    { simpl. rewrite <- Hr. by destruct (us_consume (ceEnv e) inp st). }
    rewrite <- Ex. apply Hx; [intros st'; simpl; by destruct (us_consume _ _ st')|].
    rewrite <- Hw'. by rewrite <- app_assoc.
  - intros. by eapply (ca_charge _ _ _ _ _ _ _ Hq).
  - intros. by eapply (ca_bind _ _ _ _ _ _ _ Hq).
Qed.

(** What a request is admitted on [id] for, its own calls have charged. *)
Lemma Verify_own_count req (w : W) :
  id <> ""%string -> request_owns s id E req -> wStore w = MkSeen s0 [] ->
  let '(res, w') := Verify (U := seen U) clk uenv cenv s req w in own_count (used s id req res) w'.
Proof.
  intros Hid Ho Hw.
  pose proof (wp_carry_Verify (U := seen U) clk uenv cenv s id E own_count _ own_count_carried Hid 0 req w) as Hv.
  unfold wp in Hv. destruct (Verify _ _ _ _ _ _) as [res w']. apply Hv; [|done].
  unfold own_count. rewrite Hw. simpl. split; [done|]. split; [lia|done].
Qed.
End Among.

(** ** All of them *)

Section History.
Context `{Unicode, JsonCodec, Regexp, MapRange}.
Context {U C : Type} `{UsageStoreLaws U, CounterStore C}.
Variable s : Service.
Variables (id : string) (E Mx : Z).
Variable s0 : U.

(** A request with its clock, what its calls meet, and the rest of the world it
    starts in: counters and limiter are its own here, and arbitrary. *)
Record thread := MkThread {
  thReq : AuthRequest;
  thClk : nat -> Z;
  thUenv : nat -> call_env U;
  thCenv : nat -> cs_env (S := C);
  thStart : world (U := seen U) (C := C);
}.

Definition run_thread (th : thread) : AuthResult * world (U := seen U) (C := C) :=
  Verify (U := seen U) (thClk th) (thUenv th) (thCenv th) s (thReq th) (thStart th).

(** What the request met is the history up to its last call. *)
Definition fits (i : nat) (th : thread) (G : history (us_event U)) : Prop :=
  wStore (thStart th) = MkSeen s0 [] /\ trace_fits i (snTrace (wStore (run_thread th).2)) G.

Fixpoint ordered (t : Z) (evs : list (us_event U)) : Prop :=
  match evs with [] => True | ev :: evs => t <= ev_time ev /\ ordered (ev_time ev) evs end.

Lemma ordered_well_timed t evs : ordered t evs -> Forall (ev_ok id E Mx) evs -> well_timed id E Mx t evs.
Proof.
  intros Ho Hf. revert t Ho; induction Hf as [|ev evs Hok _ IH]; intros t; simpl; [done|]. intros [Ht Ho]. auto.
Qed.

Definition total (l : list Z) : Z := foldr Z.add 0 l.

(** An event has one caller at most. *)
Definition callers (o : nat) (b : bool) (l : list nat) : Z := total (map (fun i => if bool_decide (o = i) && b then 1 else 0) l).

Lemma callers_none o b l : o ∉ l -> callers o b l = 0.
Proof.
  unfold callers. induction l as [|i l IH]; [done|]. intros [Hi Hl]%not_elem_of_cons. cbn [map total foldr].
  rewrite bool_decide_eq_false_2 by done. by apply IH.
Qed.

Lemma callers_one o b l : NoDup l -> callers o b l <= if b then 1 else 0.
Proof.
  intros Hl. induction Hl as [|i l Hi _ IH]; [by destruct b|]. unfold callers in *. cbn [map total foldr].
  destruct (decide (o = i)) as [->|Hne].
  - pose proof (callers_none i b l Hi) as Hn. unfold callers, total in Hn. rewrite Hn.
    rewrite bool_decide_eq_true_2 by done. by destruct b.
  - rewrite bool_decide_eq_false_2 by done. exact IH.
Qed.

Lemma total_add {A} (f g : A -> Z) l : total (map (fun a => f a + g a) l) = total (map f l) + total (map g l).
Proof. induction l as [|a l IH]; simpl; lia. Qed.

(** The uses charged by the callers of a list are at most those of the history. *)
Lemma own_charges_total (G : history (us_event U)) (l : list nat) st :
  NoDup l -> total (map (fun i => own_charges id (tagged i G) st) l) <= charges id (map snd G) st.
Proof.
  intros Hl. revert st; induction G as [|[o ev] G IH]; intros st; simpl.
  { clear Hl. induction l as [|i l IH]; simpl; [done|exact IH]. }
  pose proof (us_step_effect id ev st) as He. destruct (us_step id ev st) as [c st'] eqn:Ec. simpl in He. subst st'.
  rewrite (total_add (fun i => if bool_decide (o = i) && c then 1 else 0)
             (fun i => own_charges id (tagged i G) (effect ev st)) l).
  pose proof (callers_one o c l Hl) as H1'. unfold callers in H1'. specialize (IH (effect ev st)). lia.
Qed.

Definition admitted_uses (ths : list thread) : Z := total (map (fun th => used s id (thReq th) (run_thread th).1) ths).

(** What one request has: a deployment on its clock, and tokens of [id] that
    expire at [E]. *)
Definition thread_ok (th : thread) : Prop :=
  deployed (thClk th) (fun n => ceEnv (thUenv th n)) s Mx /\ request_owns s id E (thReq th).

Lemma thread_count i th G :
  id <> ""%string -> thread_ok th -> fits i th G ->
  used s id (thReq th) (run_thread th).1 <= own_charges id (tagged i G) s0 /\
  Forall (fun x => x.1 = i -> ev_ok id E Mx x.2) G.
Proof.
  intros Hid [Hd Ho] (Hw & rest & Hg & Hr).
  pose proof (Verify_own_count s id E Mx s0 (thClk th) (thUenv th) (thCenv th) Hd (thReq th) (thStart th) Hid Ho Hw) as Hv.
  unfold run_thread in *. destruct (Verify _ _ _ _ _ _) as [res w']. destruct Hv as (_ & Hn & Hf). simpl in *. split.
  - rewrite Hg, own_charges_app, (own_charges_others _ rest) by done. lia.
  - assert (Forall (fun x => x.1 = true -> ev_ok id E Mx x.2) (tagged i G)) as Ht.
    { rewrite Hg. apply Forall_app. split; [done|]. eapply Forall_impl; [exact Hr|]. intros x Hx Hx'. congruence. }
    unfold tagged in Ht. rewrite Forall_map in Ht. eapply Forall_impl; [exact Ht|].
    intros [o ev] Hx Eo. apply Hx. simpl in *. by rewrite bool_decide_eq_true_2.
Qed.

Lemma uses_bounded ths G t :
  us_inv s0 -> us_view s0 id = None -> id <> ""%string -> 1 <= Mx ->
  (forall i th, ths !! i = Some th -> thread_ok th /\ fits i th G) ->
  Forall (fun x => (length ths <= x.1)%nat -> ev_ok id E Mx x.2) G -> ordered t (map snd G) ->
  admitted_uses ths <= Mx.
Proof.
  intros Hi Hv Hid Hmx Hth Hoth Ho.
  assert (Forall (ev_ok id E Mx) (map snd G)) as Hok.
  { apply Forall_map, Forall_forall. intros [o ev] Hin. rewrite Forall_forall in Hoth. specialize (Hoth _ Hin). simpl in *.
    destruct (decide (length ths <= o)%nat) as [|Hlt]; [auto|].
    destruct (lookup_lt_is_Some_2 ths o ltac:(lia)) as [th El]. destruct (Hth _ _ El) as [Ht Hf].
    destruct (thread_count _ _ _ Hid Ht Hf) as [_ Hall]. rewrite Forall_forall in Hall. by apply (Hall _ Hin). }
  pose proof (charges_bound id E Mx (map snd G) t s0 Hi) as Hc. rewrite Hv in Hc.
  specialize (Hc ltac:(by intros x) (ordered_well_timed _ _ Ho Hok)). change (view_uses None) with 0 in Hc.
  pose proof (own_charges_total G (seq 0 (length ths)) s0 (NoDup_seq _ _)) as Hs.
  assert (admitted_uses ths <= total (map (fun i => own_charges id (tagged i G) s0) (seq 0 (length ths)))) as Hle; [|lia].
  assert (forall k, (forall i th, ths !! i = Some th ->
      used s id (thReq th) (run_thread th).1 <= own_charges id (tagged (k + i) G) s0) ->
    admitted_uses ths <= total (map (fun i => own_charges id (tagged i G) s0) (seq k (length ths)))) as Hsum.
  { clear. unfold admitted_uses. induction ths as [|th ths IH]; intros k Hk; [done|]. cbn [length seq map total foldr].
    pose proof (Hk 0%nat th eq_refl) as H0'. rewrite Nat.add_0_r in H0'.
    specialize (IH (S k)). unfold total in IH. cut (total (map (fun th => used s id (thReq th) (run_thread th).1) ths) <=
      total (map (fun i => own_charges id (tagged i G) s0) (seq (S k) (length ths)))); [unfold total; lia|].
    apply IH. intros i th' Hi. replace (S k + i)%nat with (k + S i)%nat by lia. by apply Hk. }
  apply Hsum. intros i th El. destruct (Hth _ _ El) as [Ht Hf]. by apply thread_count.
Qed.

End History.

(** ** Deciding what fits *)

Section Decide.
Context `{Unicode, JsonCodec, Regexp, MapRange}.
Context {U C : Type} `{UsageStore U, !EqDecision (us_env (S := U)), CounterStore C}.

#[export] Instance input_eq : EqDecision ConsumeInput.
Proof. solve_decision. Defined.

#[export] Instance event_eq : EqDecision (us_event U).
Proof.
  intros x y. change ({x = y} + {x <> y}). decide equality;
    match goal with |- {?a = ?b} + {_} =>
      first [exact (decide (a = b :> us_env))|exact (decide (a = b :> Z))|exact (decide (a = b :> string))
            |exact (decide (a = b :> ConsumeInput))] end.
Defined.

Definition fits_b (svc : Service) (i : nat) (th : thread (U := U) (C := C)) (G : history (us_event U)) : bool :=
  trace_fits_b i (snTrace (wStore (run_thread svc th).2)) G.

Lemma fits_by svc s0 i th G :
  wStore (thStart th) = MkSeen s0 [] -> fits_b svc i th G = true -> fits (C := C) svc s0 i th G.
Proof. intros Hs Hf. split; [done|by apply trace_fits_by]. Qed.
End Decide.

Section DecideOrder.
Context {U : Type} `{UsageStoreLaws U}.

Fixpoint ordered_b (t : Z) (evs : list (us_event U)) : bool :=
  match evs with [] => true | ev :: evs => (t <=? ev_time ev) && ordered_b (ev_time ev) evs end.

Lemma ordered_by t evs : ordered_b t evs = true -> ordered t evs.
Proof.
  revert t; induction evs as [|ev evs IH]; intros t; simpl; [done|].
  intros [Ht%Z.leb_le Ho]%andb_prop. auto.
Qed.
End DecideOrder.

(** ** Three requests at once *)

Module InterleavingSample.
#[local] Existing Instances ascii_unicode literal_regexp key_order AuthSample.codec
  MemUsage.UsageStore_ops MemCounter.CounterStore_ops.

Notation Mem := MemUsage.UsageStore.

#[local] Instance mem_env_eq : EqDecision (us_env (S := Mem)) := Z.eq_dec.

Definition fresh_world : world (U := seen Mem) (C := MemCounter.CounterStore) :=
  MkWorldState 0 (MkSeen MemUsage.NewUsageStore []) (MkCounters MemCounter.NewCounterStore 0 ∅ []) Pending.fresh 0 None [].

(** A request on the sample's clock, [others n] taking place before what it does
    at its instant [n]. *)
Definition thread_of (req : AuthRequest) (others : nat -> list (us_event Mem)) : thread :=
  MkThread req AuthSample.clk (fun n => MkCallEnv (others n) (AuthSample.uenv n)) AuthSample.cenv fresh_world.

(** The calls the sample's requests make: a use of the generic token, the look-up
    and the record of the first user of the bound one. *)
Definition now : Z := 1700000100.
Definition charge (ip : string) : us_event Mem :=
  EvConsume (H := MemUsage.UsageStore_ops) now
    (MkConsumeInput "4e7f47c89718db3cecfa1236a9a25799a0de4224347689325735e2d0730e66df" "generic" "/ubuntu/x.iso"
       "068380b8fbc600b599e523da8b240cd79bd8da813afb694256ce5293afd56650"
       "7b65f27c98658c29186f14670f910611a0417ad9eb2c44cdda306c693377622b" 1700000600 2 ip "curl/8" now 86400 false).
Definition bound_id : string := "120e8faebe0392d96704dc0a68609b94aab7f9445d5dcdca5f328c2ccfb978e1".
Definition look_up : us_event Mem := EvGet (H := MemUsage.UsageStore_ops) now bound_id.
Definition bind_first (ip : string) : us_event Mem :=
  EvConsume (H := MemUsage.UsageStore_ops) now
    (MkConsumeInput bound_id "ip_bound" "/ubuntu/x.iso" "085fb9e55b6f933c8a71abe12f8a64319d91974e298e26b0dd937edee2ebff18"
       "2a0e16e074d8a6c6388665bba1c9e8202ef566efce885a96197772dd746a0ee3" 1700000600 1 ip "curl/8" now 86400 true).
Definition sweep : us_event Mem := EvCleanup (H := MemUsage.UsageStore_ops) now 0.

(** Three requests on one token with two uses; the second gets to the store
    first, then a turn of the cleanup, then the first and the third. *)
Definition first : thread := thread_of (AuthSample.get generic_token "192.0.2.1") (fun _ => [charge "192.0.2.2"; sweep]).
Definition second : thread := thread_of (AuthSample.get generic_token "192.0.2.2") (fun _ => []).
Definition third : thread :=
  thread_of (AuthSample.get generic_token "192.0.2.3") (fun _ => [charge "192.0.2.2"; sweep; charge "192.0.2.1"]).

Definition history : list (nat * us_event Mem) :=
  [(1%nat, charge "192.0.2.2"); (7%nat, sweep); (0%nat, charge "192.0.2.1"); (2%nat, charge "192.0.2.3")].

Lemma first_fits : fits (C := MemCounter.CounterStore) service MemUsage.NewUsageStore 0 first history.
Proof. apply fits_by; [reflexivity|vm_compute; reflexivity]. Qed.
Lemma second_fits : fits (C := MemCounter.CounterStore) service MemUsage.NewUsageStore 1 second history.
Proof. apply fits_by; [reflexivity|vm_compute; reflexivity]. Qed.
Lemma third_fits : fits (C := MemCounter.CounterStore) service MemUsage.NewUsageStore 2 third history.
Proof. apply fits_by; [reflexivity|vm_compute; reflexivity]. Qed.

Lemma sample_thread_ok ip others :
  thread_ok (H4 := MemUsage.Laws day) service generic_id 1700000600 2 (thread_of (AuthSample.get generic_token ip) others).
Proof.
  split; unfold thread_of; cbn [thClk thUenv thReq ceEnv]; [exact sample_deployed|].
  pose proof (generic_owns ip) as Ho. unfold happening_owns in Ho. exact Ho.
Qed.


(** The first use of a token without an address, by two clients at once: each
    looks for a record, finds none, and records itself. *)
Definition racer (ip : string) (before_get before_bind : list (us_event Mem)) : thread :=
  thread_of (AuthSample.get bound_token ip) (fun n => if (n =? 3)%nat then before_get else if (n =? 5)%nat then before_bind else []).

Definition racer1 : thread := racer "192.0.2.1" [] [look_up].
Definition racer2 : thread := racer "192.0.2.2" [look_up] [bind_first "192.0.2.1"].
Definition race : list (nat * us_event Mem) :=
  [(0%nat, look_up); (1%nat, look_up); (0%nat, bind_first "192.0.2.1"); (1%nat, bind_first "192.0.2.2")].

Lemma racers_both_admitted :
  fits (C := MemCounter.CounterStore) plain MemUsage.NewUsageStore 0 racer1 race /\
  fits (C := MemCounter.CounterStore) plain MemUsage.NewUsageStore 1 racer2 race /\
  Allowed (run_thread plain racer1).1 = true /\ Allowed (run_thread plain racer2).1 = true.
Proof.
  split; [|split; [|split; vm_compute; reflexivity]]; (apply fits_by; [reflexivity|vm_compute; reflexivity]).
Qed.

(** One after the other, the second is refused. *)
Example first_use_in_turn :
  let racer2 := racer "192.0.2.2" [look_up; bind_first "192.0.2.1"] [] in
  Reason (run_thread plain racer2).1 = ReasonIPMismatch.
Proof. vm_compute. reflexivity. Qed.

End InterleavingSample.
