(* ===== verification/RateLimit.v ===== *)
(** * Rate limits

    A rule such as "counter >= N: TOO_MANY" is evaluated before the request is
    counted.  What one request does to the counters is followed from the rule's
    read to the increment ([Verify_counted]); over a history of requests at the
    same time, the rule then admits at most [N] and the requests that are under
    way together less one ([rate_limit]). *)

From S2P Require Import Prelude GoStrings GoTime Pow Matcher Storage Config RiskMatcher RiskEngine RiskEngineTheory.
From S2P Require Import ConfigTheory RiskCounter Pending Auth AuthLogic AuthTheory MemoryUsage MemoryCounter AuthSample.
From S2P Require Import Histories CounterLaws.

(** ** What evaluation does to the resolver *)

Section Keeps.
Context `{Unicode, Regexp, MapRange}.
Context {R : Type} (P : R -> Prop) (get : CounterResolver R) (ctx : RequestContext R).
Hypothesis ctx_get : rqCounters ctx = Some get.
Hypothesis get_keeps : forall name st, P st -> P (get name st).2.

Lemma Match_keeps m st : P st -> P (Match ctx m st).2.
Proof.
  revert m st. fix IH 1. intros m st Hst. destruct m; try exact Hst.
  - simpl. rewrite ctx_get. pose proof (get_keeps (cmName c) st Hst) as Hg. by destruct (get (cmName c) st).
  - rewrite Match_and. revert st Hst. induction parts as [|p ps IHps]; intros st Hst; [exact Hst|].
    simpl. pose proof (IH p st Hst) as Hp. destruct (Match ctx p st) as [[|] st']; [by apply IHps|exact Hp].
Qed.

Lemma walk_keeps jump name chain rules (st : evalState (R := R)) :
  (forall n s, P (res s) -> P (res (jump n s).2)) ->
  P (res st) -> P (res (walk_rules jump ctx name chain rules st).2).
Proof.
  intros Hj. revert st; induction rules as [|r rules IH]; intros st Hst; simpl; [exact Hst|].
  pose proof (Match_keeps (rMatch r) (res st) Hst) as Hm. destruct (Match ctx (rMatch r) (res st)) as [[|] r']; [|by apply IH].
  destruct (isTerminal (rTarget r)); [exact Hm|]. destruct (rTarget r =? TargetJUMP)%string.
  - pose proof (fun s => Hj (rChain r) s) as Hj'. destruct (jump (rChain r) _) as [o s1] eqn:Ej.
    assert (P (res s1)) as Hs1 by (change s1 with (o, s1).2; rewrite <- Ej; by apply Hj').
    destruct o as [[d|x]|]; [destruct (isTerminal (dTarget d))|..]; auto.
  - repeat case_if; auto.
Qed.

Lemma evalChain_keeps fuel e name (st : evalState (R := R)) :
  P (res st) -> P (res (evalChain fuel e ctx name st).2).
Proof.
  revert name st; induction fuel as [|fuel IH]; intros name st Hst; simpl; [exact Hst|].
  destruct (lookupChain e name (loops st)) as [c|]; [|exact Hst]. case_if; [exact Hst|].
  apply walk_keeps; [intros n s; apply IH|exact Hst].
Qed.
End Keeps.

(** ** The rule that limits *)

Section Gate.
Context `{Unicode, Regexp}.
Context {R : Type} (ctx : RequestContext R) (st : R).

(** The conditions of a rule other than that on its counter. *)
Definition without_counter (m : MatchConfig) : MatchConfig :=
  MkMatch (mcPathRegex m) (mcPathPrefix m) (mcExtensionIn m) (mcMethodIn m) (mcIPCIDRIn m) (mcUserAgentRegex m)
    (mcPowStatus m) (mcPowStatusIn m) (mcPowMode m) (mcIsProtected m) (mcIsRangeRequest m) None (mcRiskScoreGte m).

Lemma CompileMatcher_without m mt : CompileMatcher m = Ok mt -> is_ok (CompileMatcher (without_counter m)) = true.
Proof.
  unfold CompileMatcher, without_counter. cbn [mcPathRegex mcPathPrefix mcExtensionIn mcMethodIn mcIPCIDRIn mcUserAgentRegex
    mcPowStatus mcPowStatusIn mcPowMode mcIsProtected mcIsRangeRequest mcCounter].
  destruct (regex_part (mcPathRegex m) _); [|done]. simpl. destruct (parse_cidrs _); [|done]. simpl.
  destruct (regex_part (mcUserAgentRegex m) _); [|done]. simpl. intros _.
  by destruct (_ ++ _) as [|? [|? ?]].
Qed.

(** When the others hold, the rule is decided by one read of its counter. *)
Lemma Match_counter m mt c get :
  CompileMatcher m = Ok mt -> mcCounter m = Some c -> rqCounters ctx = Some get ->
  config_matches ctx st (without_counter m) ->
  Match ctx mt st = let '(v, st) := get (cmName c) st in (compareCounter v (cmOp c) (cmValue c), st).
Proof.
  intros Hm Hc Hg Hx. destruct (CompileMatcher_parts ctx st m mt Hm) as (pr & ns & ur & E1 & E2 & E3 & -> & Hp).
  destruct (CompileMatcher (without_counter m)) as [mt'|] eqn:Em; [|by apply CompileMatcher_without in Hm; rewrite Em in Hm].
  apply (CompileMatcher_spec ctx st _ _ Em) in Hx.
  destruct (CompileMatcher_parts ctx st _ mt' Em) as (pr' & ns' & ur' & E1' & E2' & E3' & Hx' & _).
  rewrite Hx' in Hx. cbn [without_counter mcPathRegex mcIPCIDRIn mcUserAgentRegex] in E1', E2', E3'.
  rewrite E1 in E1'. rewrite E2 in E2'. rewrite E3 in E3'. injection E1' as <-. injection E2' as <-. injection E3' as <-.
  cbv zeta in *. cbn [without_counter mcPathPrefix mcExtensionIn mcMethodIn mcPowStatus mcPowStatusIn mcPowMode mcIsProtected
    mcIsRangeRequest mcCounter opt_part] in Hx. set (plain := pr ++ _) in *.
  rewrite match_all_plain in Hx |- * by done. destruct (forallb _ plain); [|done].
  rewrite Hc. cbn [opt_part match_all_of Match]. rewrite Hg. destruct (get (cmName c) st) as [v st'].
  by destruct (compareCounter _ _ _).
Qed.
End Gate.

Section Evaluation.
Context `{Unicode, Regexp, MapRange}.
Context {R : Type} (get : CounterResolver R) (ctx : RequestContext R).
Hypothesis ctx_get : rqCounters ctx = Some get.

(** An engine whose input chain begins with a rule on a counter: one read, which
    decides, or the evaluation goes on. *)
Lemma Evaluate_gate eng chain rule rules c m (r0 : R) :
  lookupChain eng "INPUT" 0 = Some chain -> cRules chain = rule :: rules -> isTerminal (rTarget rule) = true ->
  CompileMatcher m = Ok (rMatch rule) -> mcCounter m = Some c -> config_matches ctx r0 (without_counter m) ->
  let '(v, r1) := get (cmName c) r0 in
  if compareCounter v (cmOp c) (cmValue c) then
    exists d, Evaluate eng ctx r0 = Some (Ok d, r1) /\ dTarget (resDecision d) = rTarget rule
  else forall P : R -> Prop, (forall name st, P st -> P (get name st).2) -> P r1 ->
    exists o r2, Evaluate eng ctx r0 = Some (o, r2) /\ P r2.
Proof.
  intros Hl Hr Ht Hm Hc Hx. pose proof (Match_counter ctx r0 m _ c get Hm Hc ctx_get Hx) as Hmatch.
  destruct (get (cmName c) r0) as [v r1] eqn:Eg.
  assert (forall fuel, evalChain (S fuel) eng ctx "INPUT" (MkState [] [] ∅ 0 r0) =
    walk_rules (evalChain fuel eng ctx) ctx "INPUT" chain (rule :: rules)
      (visit (ToUpper "INPUT") (next_loop (MkState [] [] ∅ 0 r0)))) as He.
  { intros fuel. simpl evalChain. rewrite Hl, Hr. case_if; [|done]. exfalso. bprop.
    match goal with Hv : _ < visits _ _ |- _ => rewrite visits_visit, bool_decide_eq_true_2 in Hv by done;
      unfold max_visits, visits in Hv; simpl in Hv; rewrite lookup_empty in Hv; simpl in Hv; lia end. }
  pose proof (Evaluate_runs eng ctx "INPUT" r0) as Hrun.
  unfold Evaluate in *. unfold EvaluateWithEntry, walk_fuel in *. rewrite ctx_get, He in *. clear He.
  cbn [String.eqb Ascii.eqb Bool.eqb] in *. cbv iota in *.
  destruct (compareCounter v (cmOp c) (cmValue c)).
  - simpl. rewrite Hmatch. cbn [fst snd]. rewrite Ht. eexists. split; [reflexivity|]. done.
  - intros P HP Hr1.
    assert (P (res (walk_rules (evalChain (8 * S (length (jump_names eng))) eng ctx) ctx "INPUT" chain (rule :: rules)
      (visit (ToUpper "INPUT") (next_loop (MkState [] [] ∅ 0 r0)))).2)) as Hp.
    { cbn [walk_rules res visit next_loop]. rewrite Hmatch. apply (walk_keeps P get ctx ctx_get HP); [|done].
      intros n s. by apply (evalChain_keeps P get ctx ctx_get HP). }
    destruct (walk_rules _ _ _ _ _ _) as [[[d|x]|] st]; [eauto..|done].
Qed.
End Evaluation.

(** ** What a request does to the counters *)

Section Quiet.
Context `{Unicode, JsonCodec, Regexp, MapRange}.
Context {U C : Type} `{UsageStore U, CounterStore C}.
Variable clk : nat -> Z.
Variable uenv : nat -> us_env.
Variable s : Service.

Notation W := (world (U := U) (C := C)).
Notation MA := (M (U := U) (C := C)).
#[local] Existing Instances M_ret M_bind.

(** The counters are not touched. *)
Definition uncounting {A} (m : MA A) : Prop := forall w, wCounters (m w).2 = wCounters w.

Lemma uncounting_ret {A} (a : A) : uncounting (mret a).
Proof. done. Qed.

Lemma uncounting_bind {A B} (m : MA A) (k : A -> MA B) :
  uncounting m -> (forall a, uncounting (k a)) -> uncounting (m ≫= k).
Proof.
  intros Hm Hk w. unfold mbind, M_bind. specialize (Hm w). destruct (m w) as [a w1]. simpl in Hm.
  rewrite <- Hm. apply Hk.
Qed.

Lemma uncounting_store {A} (f : us_env -> U -> result storage_error A * U) : uncounting (store_call uenv f).
Proof. intros w. unfold store_call. by destruct (f _ _). Qed.

Lemma uncounting_pending {A} (f : Z -> IPPendingBlocker -> A * IPPendingBlocker) : uncounting (with_pending clk f).
Proof. intros w. unfold with_pending. by destruct (f _ _). Qed.

Create HintDb counting.
Ltac uncounting := repeat first
  [ progress intros | solve [eauto with counting] | apply uncounting_ret | apply uncounting_store | apply uncounting_pending
  | apply uncounting_bind | (intros ?; reflexivity) | progress cbv zeta | case_match ].

Lemma uncounting_record v res : uncounting (recordResult s v res).
Proof. unfold recordResult. uncounting. Qed.
#[local] Hint Resolve uncounting_record : counting.

Lemma uncounting_classify tok sign path ip : uncounting (classifyPoW clk s tok sign path ip).
Proof. unfold classifyPoW. uncounting. Qed.
#[local] Hint Resolve uncounting_classify : counting.

Lemma uncounting_consume p req tok sign mode now : uncounting (consumeGenericQuota uenv s p req tok sign mode now).
Proof. unfold consumeGenericQuota. uncounting. Qed.
#[local] Hint Resolve uncounting_consume : counting.

Lemma uncounting_bindIP p req tok sign mode : uncounting (bindEmptyIPFirstUse clk uenv s p req tok sign mode).
Proof. unfold bindEmptyIPFirstUse. uncounting. Qed.
#[local] Hint Resolve uncounting_bindIP : counting.

Lemma uncounting_charge v q : uncounting (chargeQuotaForRiskAllow clk uenv s v q).
Proof. unfold chargeQuotaForRiskAllow. uncounting. Qed.
#[local] Hint Resolve uncounting_charge : counting.

Lemma uncounting_apply v q st d tr : uncounting (apply_decision clk uenv s v q st d tr).
Proof. unfold apply_decision, answer. uncounting. Qed.
#[local] Hint Resolve uncounting_apply : counting.

Lemma uncounting_only req tok sign : uncounting (verifyPoWOnly clk uenv s req tok sign).
Proof. unfold verifyPoWOnly, finalizeByMode, finalizeIPBound, finalizeGeneric. uncounting. Qed.
#[local] Hint Resolve uncounting_only : counting.

Lemma uncounting_return v res : uncounting (record_and_return s v res).
Proof. unfold record_and_return. uncounting. Qed.
#[local] Hint Resolve uncounting_return : counting.
End Quiet.
#[export] Hint Resolve uncounting_record uncounting_classify uncounting_apply uncounting_only uncounting_return : counting.

Section Counted.
Context `{Unicode, JsonCodec, Regexp, MapRange}.
Context {U C : Type} `{UsageStore U, CounterStore C}.

Notation Cs := (seen C (cs_event C)).

Definition trace_of (c : counters Cs) : list (bool * cs_event C) := snTrace (ctStore c).

Variable cenv : nat -> call_env (cs_event C) (cs_env (S := C)).

(** Calls go to the end of the trace. *)
Lemma resolver_extends {R} ds (q : RequestContext R) name c :
  trace_of c `prefix_of` trace_of (resolver_Get (C := Cs) cenv ds q name c).2.
Proof.
  unfold resolver_Get. destruct (ctCache c !! name); [done|]. destruct (ds !! name) as [d|]; [|done]. case_if; [done|].
  cbn [cs_get seen_counter]. rewrite own_call_eq. destruct (cs_get _ _ _ _ _) as [[v|x] u]; unfold trace_of; simpl;
    rewrite <- app_assoc; by apply prefix_app_r.
Qed.

Lemma incr_extends l c : trace_of c `prefix_of` trace_of (incr_all (C := Cs) cenv l c).2.
Proof.
  revert c; induction l as [|[[n k] w] l IH]; intros c; [done|]. simpl. rewrite own_call_eq.
  destruct (incr_all _ _ _) as [errs c'] eqn:E. simpl. change c' with (errs, c').2. rewrite <- E. etrans; [|apply IH].
  unfold trace_of. simpl. rewrite <- app_assoc. by apply prefix_app_r.
Qed.

Lemma incr_all_counts l c n k w : (n, k, w) ∈ l ->
  exists mid e post, trace_of (incr_all (C := Cs) cenv l c).2 = trace_of c ++ mid ++ (true, EvIncr e n k w) :: post.
Proof.
  revert c; induction l as [|[[n' k'] w'] l IH]; intros c; [by intros ?%not_elem_of_nil|]. intros Hin. simpl. rewrite own_call_eq.
  set (c1 := MkCounters _ _ _ _).
  assert (exists mid e, trace_of c1 = trace_of c ++ mid ++ [(true, EvIncr e n' k' w')]) as (mid & e & E1).
  { unfold trace_of, c1. cbn [ctStore snTrace meet]. rewrite <- app_assoc. eauto. }
  destruct (incr_all (C := Cs) _ l c1) as [errs c'] eqn:E. cbn [snd].
  apply elem_of_cons in Hin as [[= -> -> ->]|Hin].
  - pose proof (incr_extends l c1) as [post Hp]. rewrite E in Hp. simpl in Hp. rewrite Hp, E1.
    exists mid, e, post. by rewrite <- !app_assoc.
  - destruct (IH c1 Hin) as (mid' & e' & post & Hp). rewrite E in Hp. simpl in Hp. rewrite Hp, E1.
    eexists (mid ++ [_] ++ mid'), e', post. by rewrite <- !app_assoc.
Qed.

Variables (s0 : C) (name key : string) (W N : Z).

(** The request's first call read the counter and found less than [N]. *)
Definition looked (c : counters Cs) : Prop := exists pre e mid,
  trace_of c = map (pair false) pre ++ (true, EvRead e name key W) :: mid /\
  match (cs_get e name key W (after cs_effect pre s0)).1 with Ok v => v < N | Err _ => True end.

(** And later the request was counted. *)
Definition counted (c : counters Cs) : Prop := exists pre e mid e' post,
  trace_of c = map (pair false) pre ++ (true, EvRead e name key W) :: mid ++ (true, EvIncr e' name key W) :: post /\
  match (cs_get e name key W (after cs_effect pre s0)).1 with Ok v => v < N | Err _ => True end.

Lemma looked_extends c c' : looked c -> trace_of c `prefix_of` trace_of c' -> looked c'.
Proof.
  intros (pre & e & mid & E & Hv) [more Hm]. exists pre, e, (mid ++ more). split; [|done].
  rewrite Hm, E. by rewrite <- app_assoc.
Qed.

Lemma looked_counted c c' mid e post :
  looked c -> trace_of c' = trace_of c ++ mid ++ (true, EvIncr e name key W) :: post -> counted c'.
Proof.
  intros (pre & er & mid' & E & Hv) Hm. exists pre, er, (mid' ++ mid), e, post. split; [|done].
  rewrite Hm, E. by rewrite <- !app_assoc.
Qed.

(** The first read, with an empty cache. *)
Lemma first_read {R} ds (q : RequestContext R) def c :
  ds !! name = Some def -> ccWindow def = W -> counterKey (ccKey def) q = key -> key <> ""%string ->
  ctStore c = MkSeen s0 [] -> ctCache c = ∅ ->
  let '(v, c') := resolver_Get (C := Cs) cenv ds q name c in v < N -> looked c'.
Proof.
  intros Hd Hw Hk Hne Hc Hcache. unfold resolver_Get. rewrite Hcache, lookup_empty, Hd, Hk, Hc, Hw.
  apply String.eqb_neq in Hne as ->. cbn [cs_get seen_counter]. rewrite own_call_eq.
  set (e := cenv (ctCalls c)). unfold meet at 1 2. cbn [snStore snTrace].
  destruct (cs_get (ceEnv e) name key W (after cs_effect (ceBefore e) s0)) as [[v|x] u] eqn:Eg; intros Hv;
    (exists (ceBefore e), (ceEnv e), []; split; [done|]; by rewrite Eg).
Qed.
End Counted.

(** ** One request *)

Section Limited.
Context `{Unicode, JsonCodec, Regexp, MapRange}.
Context {U C : Type} `{UsageStore U, CounterStore C}.

Notation Cs := (seen C (cs_event C)).
Notation W := (world (U := U) (C := Cs)).
Notation MA := (M (U := U) (C := Cs)).
#[local] Existing Instances M_ret M_bind.

Variable s : Service.
Variables (name : string) (N : Z).
Variables (def : CounterConfig) (rule : RuleConfig).
Notation risk := (cRiskControl (cfg s)).
Notation m := (rlMatch rule).

(** The chain of the requests, under a name equal to [INPUT] up to case (the
    loader of the configuration gives lower-case keys), as no other is. *)
Definition input_chain (cc : ChainConfig) : Prop := exists k,
  rcChains risk !! k = Some cc /\ EqualFold k "INPUT" = true /\
  forall k' cc', rcChains risk !! k' = Some cc' -> EqualFold k' "INPUT" = true -> k' = k.

(** The service, not bypassed, runs on a valid section of risk rules, the first
    rule of whose input chain refuses when the counter [name] is [N] or more. *)
Record limiting : Prop := {
  lm_bypass : bypassAllEffective s = false;
  lm_valid : valid_risk risk;
  lm_engine : exists eng, FromConfig risk = Ok eng /\ riskEngine s = Some eng;
  lm_first : exists policy rules, input_chain (MkChain policy (rule :: rules));
  lm_target : rlTarget rule = TargetREJECT \/ rlTarget rule = TargetTOOMANY;
  lm_rule : mcCounter m = Some (MkCounterMatch name ">=" N);
  lm_registry : counterReg s = Some (MkRegistry (rcCounters risk) true);
  lm_counter : rcCounters risk !! name = Some def;
}.

(** A request the rule is for, on [key]: the counter counts it there, and the
    rule's other conditions hold, whatever its token is worth. *)
Definition limited (req : AuthRequest) (key : string) : Prop :=
  key <> ""%string /\
  forall hasToken hasSign st md (c : counters Cs),
    let q := risk_request (C := Cs) req hasToken hasSign st md (svMatcher s (OriginalURI req)) in
    counterWhenMatches (ccWhen def) q = true /\ counterKey (ccKey def) q = key /\ config_matches q c (without_counter m).

Lemma config_matches_resolver {R} (q : RequestContext (counters R)) g c mc :
  config_matches q c (without_counter mc) -> config_matches (with_resolver g q) c (without_counter mc).
Proof. intros [A1 A2 A3 A4 A5 A6 A7 A8 A9 A10 A11 _]. by split. Qed.

Hypothesis hl : limiting.

Lemma limiting_engine : exists eng chain r rules, riskEngine s = Some eng /\
  lookupChain eng "INPUT" 0 = Some chain /\ cRules chain = r :: rules /\ CompileMatcher m = Ok (rMatch r) /\
  rTarget r = rlTarget rule /\ forall q (c c' : counters Cs) x, Evaluate eng q c <> Some (Err x, c').
Proof.
  destruct (lm_engine hl) as (eng & Hc & He). destruct (lm_first hl) as (policy & rules & k & Hi & Hfold & Huniq).
  pose proof (FromConfig_compiles _ _ Hc) as (_ & _ & Hk). pose proof (Hk k) as Hki.
  destruct (chains eng !! k) as [chain|] eqn:Ei; [|congruence].
  assert (lookupChain eng "INPUT" 0 = Some chain) as Hl.
  { destruct (lookupChain_exists eng "INPUT" 0) as [chain' Hl]; [exists k, chain; auto|]. rewrite Hl.
    assert (exists k', chains eng !! k' = Some chain' /\ EqualFold k' "INPUT" = true) as (k' & Hk' & Hf').
    { apply lookupChain_resolves in Hl as [Hl|(_ & Hl)]; [|done]. eexists. by split; [|apply EqualFold_refl]. }
    pose proof (Hk k') as Hcc. rewrite Hk' in Hcc. destruct Hcc as (cc & Hcc & _).
    rewrite (Huniq _ _ Hcc Hf'), Ei in Hk'. done. }
  destruct Hki as (cc & Hcc & (_ & Hf & _) & _). rewrite Hi in Hcc. injection Hcc as <-. cbn [chRules] in Hf.
  apply Forall2_cons_inv_l in Hf as (r & rules' & (Hm & _ & Ht & _) & _ & Hr).
  exists eng, chain, r, rules'. split_and!; [done..|].
  intros q c c' x Hx. destruct (Evaluate_terminal eng q "INPUT" c) as (d & Hd & _).
  - by eapply valid_engine_ok; [apply (lm_valid hl)|].
  - exists k, chain. auto.
  - unfold Evaluate in Hx. destruct (EvaluateWithEntry eng q "INPUT" c) as [o st]. simpl in Hd. by subst o.
Qed.

Variable key : string.
Variable s0 : C.
Variable clk : nat -> Z.
Variable uenv : nat -> us_env (S := U).
Variable cenv : nat -> call_env (cs_event C) (cs_env (S := C)).

Notation fresh w := (ctStore (wCounters w) = MkSeen s0 []).
Notation counted w := (counted (C := C) s0 name key (ccWindow def) N (wCounters w)).

Lemma wp_any {A} (mm : MA A) Q w : (forall a w', Q a w') -> wp mm Q w.
Proof. intros Hq. apply Hq. Qed.

(** What the engine does with such a request. *)
Lemma wp_runRisk_limited v req hasToken hasSign st md ps (w : W) :
  let q := risk_request (C := Cs) req hasToken hasSign st md (svMatcher s (OriginalURI req)) in
  limited req key -> fresh w ->
  wp (runRiskEngine (C := Cs) clk uenv cenv s v q ps) (fun o w' =>
    match o with Some res => Allowed res = true -> counted w' | None => counted w' end) w.
Proof.
  intros q [Hne Hq] Hw. destruct limiting_engine as (eng & chain & r & rules & He & Hc & Hr & Hm & Er & Hok).
  pose proof (lm_target hl) as Ht. rewrite <- Er in Ht. pose proof (lm_registry hl) as Hreg. set (reg := rcCounters risk) in *.
  destruct (Hq hasToken hasSign st md (fresh_cache (wCounters w))) as (Hwhen & Hkey & Hmatch). fold q in Hwhen, Hkey, Hmatch.
  unfold runRiskEngine. rewrite He. apply wp_bind. unfold evaluate, with_counters, wp at 1.
  assert (lookupCounterResolver (C := Cs) cenv s q = resolver_Get (C := Cs) cenv reg q) as Eres
    by (unfold lookupCounterResolver, LookupResolver; by rewrite Hreg).
  rewrite Eres. set (get := resolver_Get _ _ _).
  pose proof (Evaluate_gate get (with_resolver get q) eq_refl eng chain r rules
                (MkCounterMatch name ">=" N) m (fresh_cache (wCounters w)) Hc Hr) as Hg.
  assert (isTerminal (rTarget r) = true) as Hterm by (by destruct Ht as [-> | ->]).
  specialize (Hg Hterm Hm (lm_rule hl) (config_matches_resolver _ _ _ _ Hmatch)). cbn [cmName cmOp cmValue] in Hg.
  pose proof (first_read cenv s0 name key (ccWindow def) N reg q def (fresh_cache (wCounters w))
                (lm_counter hl) eq_refl Hkey Hne Hw eq_refl) as Hfirst.
  fold get in Hfirst. destruct (get name (fresh_cache (wCounters w))) as [n c1].
  change (compareCounter n ">=" N) with (N <=? n) in Hg. destruct (Z.leb_spec N n) as [Hn|Hn].
  - destruct Hg as (d & -> & Hd). cbn [fst snd]. apply wp_bind, wp_any. intros _ w1.
    apply wp_bind, wp_any. intros _ w2.
    unfold apply_decision, answer. rewrite Hd.
    destruct Ht as [-> | ->]; cbn [one_of existsb String.eqb Ascii.eqb Bool.eqb orb]; cbv zeta iota;
      (apply wp_bind, wp_any; intros _ w3; by apply wp_ret).
  - specialize (Hfirst Hn). destruct (Hg (looked s0 name key (ccWindow def) N)) as (o & c2 & Ev & Hc2); [|done|].
    { intros n' c' Hc'. eapply looked_extends; [exact Hc'|]. apply (resolver_extends cenv). }
    rewrite Ev. destruct o as [d|x]; [|by exfalso; eapply Hok]. cbn [fst snd]. apply wp_bind.
    assert (wp (bump_counters (C := Cs) cenv s q) (fun _ w' => counted w')
      (MkWorldState (wTick w) (wStore w) c2 (wPending w) (wLoops w) (wToken w) (wEvents w))) as Hb.
    { unfold bump_counters. rewrite Hreg. unfold wp, mbind, M_bind, next_map_loop, with_counters, log_incr_errors.
      cbn [wLoops wCounters]. unfold IncrementForRequest. cbn [hasStore defs].
      set (l := incr_targets (map_range (wLoops w) reg) q).
      assert ((name, key, ccWindow def) ∈ l) as Hin.
      { apply incr_targets_spec. exists def. split_and!; [apply (lm_counter hl)|by apply counterWhenMatches_spec|done..]. }
      destruct (incr_all_counts cenv l c2 _ _ _ Hin) as (mid & e & post & Htr).
      destruct (incr_all (C := Cs) _ l c2) as [errs c3]. cbn [fst snd wCounters] in *. by eapply looked_counted. }
    eapply wp_mono; [exact Hb|]. intros a1 w1 Hw1. apply wp_bind.
    eapply wp_mono with (Q := fun _ w2 => counted w2); [by destruct (hasMetrics s)|]. intros a2 w2 Hw2.
    pose proof (uncounting_apply (C := Cs) clk uenv s v q ps (resDecision d) (resTrace d) w2) as Hu.
    unfold wp. destruct (apply_decision _ _ _ _ _ _ _ _ _) as [[res|] w3]; simpl in *; by rewrite Hu.
Qed.

Lemma wp_uncounting {A} (mm : MA A) (Q : A -> W -> Prop) w :
  uncounting mm -> (forall a w', wCounters w' = wCounters w -> Q a w') -> wp mm Q w.
Proof. intros Hm Hq. apply Hq, Hm. Qed.

(** From the engine on, whatever it leaves to the rest. *)
Lemma wp_after_engine v req hasToken hasSign st md ps (rest : MA AuthResult) (w : W) :
  limited req key -> fresh w -> uncounting rest ->
  wp (handled ← runRiskEngine (C := Cs) clk uenv cenv s v
                  (risk_request req hasToken hasSign st md (svMatcher s (OriginalURI req))) ps;
      match handled with Some res => mret res | None => rest end)
    (fun res w' => Allowed res = true -> counted w') w.
Proof.
  intros Hr Hw Hrest. apply wp_bind. eapply wp_mono; [by apply wp_runRisk_limited|].
  intros [res|] w1 H1'; [by apply wp_ret|]. apply wp_uncounting; [done|]. intros a w2 -> _. exact H1'.
Qed.

Lemma wp_token_limited v req (w : W) :
  limited req key -> fresh w ->
  wp (verify_token (C := Cs) clk uenv cenv s v req (svMatcher s (OriginalURI req)))
    (fun res w' => Allowed res = true -> counted w') w.
Proof.
  intros Hr Hw. unfold verify_token. destruct (extractTokenAndSign s (OriginalArgs req)) as [tok sg]. cbv zeta.
  destruct (lm_engine hl) as (eng & _ & He). case_if.
  - unfold verifyWithoutPow. rewrite He. apply wp_after_engine; auto with counting.
  - apply wp_bind, wp_uncounting; [case_if; auto with counting; apply uncounting_ret|]. intros [ps pm] w1 E1.
    apply wp_bind, wp_uncounting; [by intros ?|]. intros payload w2 E2.
    apply wp_after_engine; [done|by rewrite E2, E1|]. case_if; [auto with counting|].
    apply uncounting_bind; auto with counting.
Qed.

(** A request the rule is for is admitted only if its first call read less than
    the limit, and then it is counted. *)
Lemma Verify_counted req (w : W) :
  limited req key -> fresh w ->
  wp (Verify (C := Cs) clk uenv cenv s req) (fun res w' => Allowed res = true -> counted w') w.
Proof.
  intros Hr Hw. unfold Verify. apply wp_bind, wp_uncounting; [by intros ?|]. intros _ w1 E1.
  apply wp_bind, wp_uncounting; [by intros ?|]. intros start w2 E2. rewrite (lm_bypass hl). case_if.
  { by apply wp_bind, wp_any. }
  assert (fresh w2) as Hw2 by (by rewrite E2, E1).
  destruct (if _ && _ then pendingBlocker s else None) as [l|]; [|by apply wp_token_limited].
  apply wp_bind, wp_uncounting; [intros w'; apply uncounting_pending|]. intros [h blocked] w3 E3. destruct blocked.
  { by apply wp_bind, wp_any. }
  apply wp_bind. eapply wp_mono; [apply wp_token_limited; [done|by rewrite E3]|]. intros res w4 H4'. cbv beta in H4'.
  apply wp_bind, wp_uncounting; [apply uncounting_pending|]. intros _ w5 E5. apply wp_ret. by rewrite E5.
Qed.
End Limited.

(** ** Requests at the same time *)

(** The positions of the elements that satisfy a predicate. *)
Lemma filter_positions {A} (P : A -> Prop) `{!forall x, base.Decision (P x)} (l : list A) :
  exists I : list nat, NoDup I /\ length I = length (filter P l) /\ forall i, i ∈ I -> exists x, l !! i = Some x /\ P x.
Proof.
  induction l as [|a l (I & Hn & Hl & Hi)].
  { exists []. split; [constructor|]. split; [done|]. by intros i ?%not_elem_of_nil. }
  assert (NoDup (S <$> I)) as Hn' by (by apply NoDup_fmap_2; [intros ? ? [=]|]).
  assert (forall i, i ∈ S <$> I -> exists x, (a :: l) !! i = Some x /\ P x) as Hi'.
  { intros i (i' & -> & Hx)%list_elem_of_fmap. by apply Hi. }
  rewrite filter_cons. destruct (decide (P a)) as [Ha|Ha].
  - exists (0%nat :: (S <$> I)). simpl. rewrite length_fmap. split; [|split; [lia|]].
    + apply NoDup_cons. split; [|done]. by intros (? & [=] & _)%list_elem_of_fmap.
    + intros i [->|Hx]%elem_of_cons; [by exists a|by apply Hi'].
  - exists (S <$> I). by rewrite length_fmap.
Qed.

(** Of positions for each member of a list, the last. *)
Lemma last_position (Q : nat -> nat -> Prop) i I :
  (forall i', i' ∈ i :: I -> exists g, Q i' g) ->
  exists i' g, i' ∈ i :: I /\ Q i' g /\ forall i2, i2 ∈ i :: I -> exists g2, Q i2 g2 /\ (g2 <= g)%nat.
Proof.
  revert i; induction I as [|a I IH]; intros i Hq.
  - destruct (Hq i ltac:(set_solver)) as [g Hg]. exists i, g. split; [set_solver|]. split; [done|].
    intros i2 Hi2. assert (i2 = i) as -> by set_solver. eauto.
  - destruct (IH a) as (i' & g & Hin & Hg & Hlast); [intros; apply Hq; set_solver|].
    destruct (Hq i ltac:(set_solver)) as [g0 Hg0]. destruct (Nat.le_ge_cases g0 g) as [Hle|Hle].
    + exists i', g. split; [set_solver|]. split; [done|]. intros i2 [->|Hi2]%elem_of_cons; eauto.
    + exists i, g0. split; [set_solver|]. split; [done|]. intros i2 [->|Hi2]%elem_of_cons; [eauto|].
      destruct (Hlast i2 Hi2) as (g2 & Hg2 & Hle2). exists g2. split; [done|lia].
Qed.

Lemma NoDup_included {A} (l k : list A) : NoDup l -> (forall x, x ∈ l -> x ∈ k) -> (length l <= length k)%nat.
Proof. intros Hn Hs. by apply submseteq_length, NoDup_submseteq. Qed.

Section Crowd.
Context {C : Type} `{CounterLaws C}.
Variable win : string -> Z.
Variables (name key : string) (start N : Z).
Variable s0 : C.
Variable G : history (cs_event C).

(** Caller [i] read the counter at position [g], found less than [N], and was
    counted later. *)
Definition counted_at (i g : nat) : Prop := exists e j e',
  G !! g = Some (i, EvRead e name key (win name)) /\
  (match (cs_get e name key (win name) (after cs_effect (take g (map snd G)) s0)).1 with Ok v => v < N | Err _ => True end) /\
  (g < j)%nat /\ G !! j = Some (i, EvIncr e' name key (win name)).

(** Caller [i] is under way after [p] calls of the history. *)
Definition under_way (p i : nat) : Prop := i ∈ map fst (take p G) /\ i ∈ map fst (drop p G).
#[export] Instance under_way_dec p i : base.Decision (under_way p i).
Proof. apply _. Defined.

(** The calls on the counter fall in the window from [start]. *)
Definition within (ev : cs_event C) : Prop :=
  match ev with
  | EvIncr e n _ _ | EvRead e n _ _ | EvReset e n _ _ =>
      n = name -> MemCounter.bucketStart (win n) (cl_time e) = start
  end.

Lemma counted_trace i tr pre e mid e' post :
  trace_fits i tr G ->
  tr = map (pair false) pre ++ (true, EvRead e name key (win name)) :: mid ++ (true, EvIncr e' name key (win name)) :: post ->
  (match (cs_get e name key (win name) (after cs_effect pre s0)).1 with Ok v => v < N | Err _ => True end) ->
  counted_at i (length pre).
Proof.
  intros (rest & Ht & _) -> Hv.
  assert (take (length pre) (map snd G) = pre) as Hpre.
  { rewrite <- (tagged_events i G), Ht, <- app_assoc, map_app, map_snd_pair. apply take_app_length. }
  assert (tagged i G !! length pre = Some (true, EvRead e name key (win name))) as Hg.
  { rewrite Ht, <- app_assoc. rewrite lookup_app_r by (by rewrite length_map). by rewrite length_map, Nat.sub_diag. }
  assert (tagged i G !! (S (length pre + length mid))%nat = Some (true, EvIncr e' name key (win name))) as Hj.
  { rewrite Ht, <- app_assoc. rewrite lookup_app_r by (rewrite length_map; lia). rewrite length_map.
    replace (S (length pre + length mid) - length pre)%nat with (S (length mid)) by lia. simpl.
    rewrite <- app_assoc. rewrite lookup_app_r by lia. by rewrite Nat.sub_diag. }
  apply tagged_lookup in Hg as (o & Hg & Eo). apply tagged_lookup in Hj as (o' & Hj & Eo').
  symmetry in Eo, Eo'. apply bool_decide_eq_true in Eo as ->. apply bool_decide_eq_true in Eo' as ->.
  exists e, (S (length pre + length mid)), e'. rewrite Hpre. split_and!; [done|done|lia|done].
Qed.

Lemma raised_pairs (l : history (cs_event C)) :
  raised win name key start (map snd l) =
  Z.of_nat (length (filter (fun x : nat * cs_event C => raises win name key start x.2 = true) l)).
Proof.
  induction l as [|x l IH]; [done|]. simpl map. rewrite raised_cons, IH, filter_cons.
  destruct (raises win name key start x.2); simpl; lia.
Qed.

Lemma in_order_app t evs evs' : in_order t (evs ++ evs') -> in_order t evs.
Proof. revert t; induction evs as [|ev evs IH]; intros t; simpl; [done|]. intros [Ht Ho]. eauto. Qed.

(** The callers that read below the limit: those counted before the last read,
    and those under way at it. *)
Lemma crowd_bound (I : list nat) t sp B (c : nat) :
  1 <= N -> NoDup I -> (forall i, i ∈ I -> exists g, counted_at i g) ->
  cl_related win t s0 sp -> (forall n k st, 0 <= sp n k st <= B) -> B + Z.of_nat (length G) <= max_int64 ->
  in_order t (map snd G) -> Forall (call_fits win) (map snd G) -> Forall within (map snd G) ->
  (forall p, (length (filter (under_way p) I) <= c)%nat) ->
  Z.of_nat (length I) <= N - 1 + Z.of_nat c.
Proof.
  intros HN Hnd Hat Hrel Hb Hlen Hord Hfits Hwin Hway. destruct I as [|i0 I0]; [simpl; lia|].
  destruct (last_position counted_at i0 I0 Hat) as (i & g & Hi & (e & j & e' & Hg & Hv & _) & Hlast).
  set (I := i0 :: I0) in *. set (evs := take g (map snd G)) in *.
  assert (map snd G !! g = Some (EvRead e name key (win name))) as Hgs by (by rewrite list_lookup_fmap, Hg).
  assert (evs ++ [EvRead e name key (win name)] = take (S g) (map snd G)) as Htake by (symmetry; by apply take_S_r).
  assert (MemCounter.bucketStart (win name) (cl_time e) = start) as Hst.
  { rewrite Forall_forall in Hwin. apply (Hwin (EvRead e name key (win name))); [|done]. by eapply list_elem_of_lookup_2. }
  assert (length evs <= length G)%nat as Hle by (unfold evs; rewrite length_take, length_map; lia).
  rewrite (window_counts win name key start evs t s0 sp B e Hrel Hb ltac:(lia)) in Hv; [|..|done].
  2: { rewrite Htake. apply (in_order_app _ _ (drop (S g) (map snd G))). by rewrite take_drop. }
  2: { rewrite Htake. by apply Forall_take. }
  assert (raised win name key start evs <= N - 1) as Hr by (pose proof (Hb name key start); lia).
  unfold evs in Hr. rewrite firstn_map, raised_pairs in Hr.
  set (R := filter _ (take g G)) in Hr.
  rewrite <- (filter_app_complement (fun i => i ∈ map fst R) I), length_app.
  assert (length (filter (fun i => i ∈ map fst R) I) <= length R)%nat as H1'.
  { rewrite <- (length_map fst R). apply NoDup_included; [by apply NoDup_filter|]. intros x [Hx _]%list_elem_of_filter. done. }
  assert (length (filter (fun i => i ∉ map fst R) I) <= c)%nat as H2'; [|lia].
  etrans; [|apply (Hway (S g))]. apply NoDup_included; [by apply NoDup_filter|].
  intros x [Hx HxI]%list_elem_of_filter. apply list_elem_of_filter. split; [|done].
  destruct (Hlast x HxI) as (g2 & (e2 & j2 & e2' & Hg2 & _ & Hj2 & Hin) & Hle2). split.
  - apply list_elem_of_fmap. eexists. split; [|eapply list_elem_of_lookup_2; rewrite lookup_take_lt; [exact Hg2|lia]]. done.
  - destruct (Nat.lt_trichotomy j2 g) as [Hlt|[->|Hgt]].
    + exfalso. apply Hx, list_elem_of_fmap. exists (x, EvIncr e2' name key (win name)). split; [done|].
      apply list_elem_of_filter. split.
      * simpl. apply bool_decide_eq_true_2. split_and!; [done..|]. rewrite Forall_forall in Hwin.
        apply (Hwin (EvIncr e2' name key (win name))); [|done]. apply list_elem_of_fmap. eexists. split; [|by eapply list_elem_of_lookup_2]. done.
      * eapply list_elem_of_lookup_2. by rewrite lookup_take_lt by done.
    + congruence.
    + apply list_elem_of_fmap. exists (x, EvIncr e2' name key (win name)). split; [done|].
      eapply (list_elem_of_lookup_2 _ (j2 - S g)). rewrite lookup_drop. by replace (S g + (j2 - S g))%nat with j2 by lia.
Qed.
End Crowd.

Section RateLimit.
Context `{Unicode, JsonCodec, Regexp, MapRange}.
Context {U C : Type} `{UsageStore U, CounterLaws C}.

Notation Cs := (seen C (cs_event C)).

Variable s : Service.
Variables (name : string) (N : Z).
Variables (def : CounterConfig) (rule : RuleConfig).
Variable s0 : C.

(** A request with its clock, what its calls of the stores meet, and the world
    it starts in; of that the counters are shared, and the rest is arbitrary. *)
Record client := MkClient {
  clReq : AuthRequest;
  clClk : nat -> Z;
  clUenv : nat -> us_env (S := U);
  clCenv : nat -> call_env (cs_event C) (cs_env (S := C));
  clStart : world (U := U) (C := Cs);
}.

Definition run_client (x : client) : AuthResult * world (U := U) (C := Cs) :=
  Verify (C := Cs) (clClk x) (clUenv x) (clCenv x) s (clReq x) (clStart x).

(** What the request met is the history up to its last call. *)
Definition client_fits (i : nat) (x : client) (G : history (cs_event C)) : Prop :=
  ctStore (wCounters (clStart x)) = MkSeen s0 [] /\ trace_fits i (trace_of (wCounters (run_client x).2)) G.

Definition admitted (l : list client) : Z := Z.of_nat (length (filter (fun x => Allowed (run_client x).1 = true) l)).

Variable win : string -> Z.

Lemma client_counted i x G key :
  limiting s name N def rule -> win name = ccWindow def ->
  limited (C := C) s def rule (clReq x) key -> client_fits i x G -> Allowed (run_client x).1 = true ->
  exists g, counted_at win name key N s0 G i g.
Proof.
  intros Hl Hw Hr [Hs Hf] Ha.
  pose proof (Verify_counted s name N def rule Hl key s0 (clClk x) (clUenv x) (clCenv x) (clReq x) (clStart x) Hr Hs) as Hv.
  unfold wp in Hv. destruct (Hv Ha) as (pre & e & mid & e' & post & E & Hb). rewrite <- Hw in *.
  eexists. eapply counted_trace; [exact Hf|exact E|exact Hb].
Qed.

(** C4: A rule that refuses when a counter is [N] or more limits the rate, when it
    is the first of the input chain of a valid configuration and nothing is
    bypassed ([limiting]): however the calls of the counter store are interleaved,
    of the requests the rule is for, on one key and in one window, at most
    [N - 1 + c] are admitted when never more than [c] of them are under way; with
    one at a time, [N].  Every call of the counter store is answered
    ([call_fits]): a read that fails counts as 0 and lets its request through. *)
Theorem rate_limit l G key start t sp B (c : nat) :
  limiting s name N def rule -> win name = ccWindow def -> 1 <= N ->
  (forall i x, l !! i = Some x -> limited (C := C) s def rule (clReq x) key /\ client_fits i x G) ->
  (forall p, (length (filter (under_way G p) (seq 0 (length l))) <= c)%nat) ->
  cl_related win t s0 sp -> (forall n k st, 0 <= sp n k st <= B) -> B + Z.of_nat (length G) <= max_int64 ->
  in_order t (map snd G) -> Forall (call_fits win) (map snd G) -> Forall (within win name start) (map snd G) ->
  admitted l <= N - 1 + Z.of_nat c.
Proof.
  intros Hl Hw HN Hx Hc Hrel Hb Hlen Ho Hf Hwin. unfold admitted.
  destruct (filter_positions (fun x => Allowed (run_client x).1 = true) l) as (I & Hnd & <- & HI).
  eapply crowd_bound; try done.
  - intros i Hi. destruct (HI i Hi) as (x & Hlx & Ha). destruct (Hx i x Hlx) as [Hr Hfit].
    by eapply client_counted.
  - intros p. etrans; [|apply (Hc p)]. apply NoDup_included; [by apply NoDup_filter|].
    intros i [Hu Hi]%list_elem_of_filter. apply list_elem_of_filter. split; [done|].
    destruct (HI i Hi) as (x & Hlx & _). apply elem_of_seq. apply lookup_lt_Some in Hlx. lia.
Qed.
End RateLimit.

(** ** Two requests at once *)

Module RateLimitSample.
#[local] Existing Instances ascii_unicode literal_regexp key_order AuthSample.codec
  MemUsage.UsageStore_ops MemCounter.CounterStore_ops.

Notation Mem := MemCounter.CounterStore.

(** One request per address and minute. *)
Definition hits : CounterConfig := MkCounter "ip" (60 * second) (MkWhen None None "" "") "".
Definition first_rule : RuleConfig :=
  MkRule "limit" (MkMatch "" "" [] [] [] "" "" [] "" None None (Some (MkCounterMatch "hits" ">=" 1)) None)
    TargetTOOMANY "" 0 "" "" "".
Definition policy : PolicyConfig := MkPolicy TargetACCEPT 0 "" "".
Definition risk : RiskControlConfig :=
  MkRisk true (MkPending None 2 0) (<["hits"%string := hits]> ∅) (<["input"%string := MkChain policy [first_rule]]> ∅).

Definition limited_config : Config :=
  MkConfig (cServer config) (cPow config) (cProtection config) (cStorage config) risk (cLogging config) (cCleanup config).

Definition engine : Engine := match FromConfig risk with Ok e => e | Err _ => MkEngine ∅ end.
Definition registry : CounterRegistry := MkRegistry (rcCounters risk) true.

Definition limited_service : Service :=
  match New (MkOptions (Some limited_config) (Some matcher) true true (Some engine) (Some registry) (Some sample_limits)) with
  | Ok s => s
  | Err _ => plain
  end.

Definition at_time : MemCounter.clock_readings := MemCounter.MkClock (1700000100 * second) (1700000100 * second).
Definition read (ip : string) : cs_event Mem := EvRead at_time "hits" ip (60 * second).
Definition count (ip : string) : cs_event Mem := EvIncr at_time "hits" ip (60 * second).

Definition ask : AuthRequest := MkAuthRequest path "GET" "" "192.0.2.1" "curl/8" "".

(** A request, with the calls of others before each of its own. *)
Definition client_of (others : nat -> list (cs_event Mem)) : client :=
  MkClient ask clk uenv (fun n => MkCallEnv (others n) at_time)
    (MkWorldState 0 MemUsage.NewUsageStore (MkCounters (MkSeen MemCounter.NewCounterStore []) 0 ∅ []) Pending.fresh 0 None []).

Definition ahead : client := client_of (fun n => if (n =? 0)%nat then [] else [read "192.0.2.1"]).
Definition behind : client :=
  client_of (fun n => if (n =? 0)%nat then [read "192.0.2.1"] else [count "192.0.2.1"]).

Definition both : history (cs_event Mem) :=
  [(0%nat, read "192.0.2.1"); (1%nat, read "192.0.2.1"); (0%nat, count "192.0.2.1"); (1%nat, count "192.0.2.1")].

(** After both, a third is refused. *)
Definition third : client := client_of (fun n => if (n =? 0)%nat then map snd both else []).
Example third_refused :
  let res := (run_client limited_service third).1 in Allowed res = false /\ HTTPStatus res = 429.
Proof. vm_compute. auto. Qed.

(** [FromConfig] on the sample. *)
Lemma engine_compiled : FromConfig risk = Ok engine.
Proof. vm_cast_no_check (eq_refl (Ok engine : result engine_error _)). Defined.

Lemma sample_limiting : limiting limited_service "hits" 1 hits first_rule.
Proof.
  split; try reflexivity.
  - apply checkRiskControl_iff. vm_compute. reflexivity.
  - exists engine. split; [exact engine_compiled|vm_compute; reflexivity].
  - exists policy, [], "input"%string. split; [reflexivity|]. split; [vm_compute; reflexivity|].
    intros k' cc'. change (rcChains _) with ({[ "input"%string := MkChain policy [first_rule] ]} : gmap string ChainConfig).
    by intros [<- _]%lookup_singleton_Some.
  - by right.
Qed.

Lemma sample_limited : limited (C := Mem) limited_service hits first_rule ask "192.0.2.1".
Proof.
  split; [done|]. intros hasToken hasSign st md c q. split; [reflexivity|]. split; [reflexivity|].
  split; first [reflexivity|intros Hn; by destruct Hn|by intros ? [=]].
Qed.

#[local] Instance clock_eq : EqDecision (cs_env (S := Mem)).
Proof. change (EqDecision MemCounter.clock_readings). solve_decision. Defined.

Lemma client_fits_by x i :
  ctStore (wCounters (clStart x)) = MkSeen MemCounter.NewCounterStore [] ->
  trace_fits_b i (trace_of (wCounters (run_client limited_service x).2)) both = true ->
  client_fits limited_service MemCounter.NewCounterStore i x both.
Proof. intros Hs Hf. split; [done|by apply trace_fits_by]. Qed.

Lemma plain_hits : MemCounter.plain_name "hits".
Proof. unfold MemCounter.plain_name. vm_compute. set_solver by lia. Qed.

(** Both are admitted where one at a time would not be: the bound is met. *)
Lemma rate_limit_witness :
  admitted limited_service [ahead; behind] = 2 /\ admitted limited_service [ahead; behind] <= 1 - 1 + Z.of_nat 2.
Proof.
  split; [vm_compute; reflexivity|].
  apply (rate_limit limited_service "hits" 1 hits first_rule MemCounter.NewCounterStore (fun _ => 60 * second)
           [ahead; behind] both "192.0.2.1" (MemCounter.bucketStart (60 * second) (1700000100 * second)) 0
           MemCounter.spec_init 0 2 sample_limiting eq_refl).
  - lia.
  - intros i x Hi. destruct i as [|[|i]]; [..|discriminate]; injection Hi as <-; split; try exact sample_limited;
      (apply client_fits_by; [reflexivity|vm_compute; reflexivity]).
  - intros p. apply (length_filter (under_way both p)).
  - exists ∅. apply MemCounter.related_new.
  - intros. unfold MemCounter.spec_init. lia.
  - vm_compute. discriminate.
  - vm_compute. intuition discriminate.
  - assert (MemCounter.time_ok (1700000100 * second)) as Ht by (split; vm_compute; discriminate).
    repeat (apply Forall_cons_2; [exact (conj (conj Ht (conj plain_hits eq_refl)) eq_refl)|]). apply Forall_nil_2.
  - repeat (apply Forall_cons_2; [intros _; reflexivity|]). apply Forall_nil_2.
Defined.
End RateLimitSample.
