(* ===== verification/Deployment.v ===== *)
(** * The service as it is built

    The stores [AppBuild] chooses from are one store with three cases, called
    through the interface; it keeps the contract of [Storage], the instrumented
    store around it too, and so the service that [build] makes of a valid
    configuration holds the quota, whatever the driver. *)

From S2P Require Import Prelude GoStrings GoTime Pow PowTheory Matcher Storage MemoryUsage MemoryCounter.
From S2P Require Import Postgres Redis RedisCounter Instrumented Config RiskMatcher RiskEngine RiskEngineTheory.
From S2P Require Import ConfigValidate ConfigTheory RiskCounter Pending Auth App AppBuild.
From S2P Require Import AuthLogic AuthTheory AuthSound AuthCarry AuthQuota AuthSample Histories Interleaving.

(** ** The interface calls *)

(** What the world contributes to a call: the time, one for all machines, the
    faults of its first statements, and the fault of its command. *)
Record store_env := MkStoreEnv { seNow : Z; seFaults : list PgUsage.fault; seFault : Redis.fault }.
#[export] Instance store_env_eq : EqDecision store_env.
Proof.
  assert (EqDecision PgUsage.fault) by solve_decision. assert (EqDecision Redis.fault) by solve_decision. solve_decision.
Defined.

Definition memory_env (e : store_env) : Z := unix_sec (seNow e).
Definition postgres_env (e : store_env) : PgUsage.env := 
  PgUsage.MkEnv (unix_sec (seNow e)) (fun n => default PgUsage.Works (seFaults e !! n)).
Definition redis_env (e : store_env) : RedisUsage.env := RedisUsage.MkEnv (unix_sec (seNow e)) (seNow e) (seFault e).

(** The result of a call, its store wrapped again. *)
Definition wrap {A B C} (f : B -> C) (r : A * B) : A * C := (r.1, f r.2).

Section Dispatch.
Context {R : Type} `{Redis R}.
Variable text_ok : string -> bool.

Definition usage_ops : UsageStore (usage_store R) := {|
  us_env := store_env;
  us_consume e inp s := match s with
    | MemoryStore s => wrap MemoryStore (MemUsage.Consume (memory_env e) inp s)
    | PostgresStore s => wrap PostgresStore (PgUsage.Consume text_ok (postgres_env e) inp s)
    | RedisStore s => wrap RedisStore (RedisUsage.Consume (redis_env e) inp s)
    end;
  us_get e id s := match s with
    | MemoryStore s => wrap MemoryStore (MemUsage.Get id s, s)
    | PostgresStore s => wrap PostgresStore (PgUsage.Get text_ok (postgres_env e) id s)
    | RedisStore s => wrap RedisStore (RedisUsage.Get (redis_env e) id s)
    end;
  us_cleanup e before s := match s with
    | MemoryStore s => wrap MemoryStore (MemUsage.CleanupExpired before s)
    | PostgresStore s => wrap PostgresStore (PgUsage.CleanupExpired (postgres_env e) before s)
    | RedisStore s => wrap RedisStore (RedisUsage.CleanupExpired (redis_env e) before s)
    end;
  us_close s := match s with
    | MemoryStore s => MemoryStore (MemUsage.Close s)
    | PostgresStore s => PostgresStore (PgUsage.Close s)
    | RedisStore s => RedisStore (RedisUsage.Close s)
    end;
|}.
End Dispatch.

(** ** The contract *)

Section Contract.
Context {R : Type} `{RedisLaws R}.
Variable text_ok : string -> bool.
Variable grace : Z.

#[local] Existing Instance usage_ops.

Definition usage_inv (s : usage_store R) : Prop :=
  match s with MemoryStore s => MemUsage.inv s | PostgresStore _ => True | RedisStore s => RedisUsage.inv grace s end.
Definition usage_views (s : usage_store R) : views :=
  match s with
  | MemoryStore s => MemUsage.view s
  | PostgresStore s => PgUsage.view s
  | RedisStore s => RedisUsage.view s
  end.

(** The laws of the three cases, one by one. *)
Definition usage_laws : UsageStoreLaws (H := usage_ops text_ok) (usage_store R).
Proof.
  refine {| us_inv := usage_inv; us_view := usage_views;
            us_time := (fun e => unix_sec (seNow e)) : @us_env _ (usage_ops text_ok) -> Z; us_grace := grace;
            us_call_ok e inp := MemUsage.call_ok inp /\ RedisUsage.call_ok grace (redis_env e) inp |}.
  - intros e inp [s|s|s] r s' Hi [Hm Hr] Hc; unfold us_consume, usage_ops, wrap in Hc; injection Hc as <- <-.
    + destruct (MemUsage.Consume (memory_env e) inp s) as [r1 s1] eqn:E. exact (MemUsage.consume_law _ _ _ _ _ _ Hi Hm E).
    + destruct (PgUsage.Consume text_ok (postgres_env e) inp s) as [r1 s1] eqn:E.
      split; [done|]. exact (PgUsage.table_consume_law text_ok _ _ _ _ _ _ E).
    + destruct (RedisUsage.Consume (redis_env e) inp s) as [r1 s1] eqn:E.
      exact (RedisUsage.script_consume_law grace _ _ _ _ _ Hi Hr E).
  - intros e id [s|s|s] r s' Hi Hg; unfold us_get, usage_ops, wrap in Hg; injection Hg as _ <-.
    + split; [done|apply drops_refl].
    + destruct (PgUsage.Get text_ok (postgres_env e) id s) as [r1 s1] eqn:E.
      split; [done|]. exact (PgUsage.get_law text_ok _ _ _ _ _ _ E).
    + destruct (RedisUsage.Get (redis_env e) id s) as [r1 s1] eqn:E.
      exact (us_get_law (UsageStoreLaws := RedisUsage.Laws grace) (redis_env e) id s r1 s1 Hi E).
  - intros e before [s|s|s] r s' Hi Hc; unfold us_cleanup, usage_ops, wrap in Hc; injection Hc as _ <-.
    + destruct (MemUsage.CleanupExpired before s) as [r1 s1] eqn:E. exact (MemUsage.cleanup_law _ _ _ _ _ Hi E).
    + destruct (PgUsage.CleanupExpired (postgres_env e) before s) as [r1 s1] eqn:E.
      split; [done|]. exact (PgUsage.table_cleanup_law _ _ _ _ _ _ E).
    + split; [exact Hi|apply drops_refl].
Defined.
End Contract.

(** ** The quota of the service that is built *)

Section Built.
Context `{Unicode, JsonCodec, Regexp, MapRange}.
Context {R : Type} `{RedisLaws R}.
Context {C : Type} `{CounterStore C}.
Variable known_level : string -> bool.
Variable redis_ping : RedisConfig -> option R.
Variable open_pool : PoolConfig -> option (gmap string PgUsage.row).
Variable text_ok : string -> bool.
Variable cfg : Config.
Variable grace : Z.

#[local] Instance stores : UsageStore (wrapped (usage_store R)) := wrapped_usage (H := usage_ops text_ok).
#[local] Instance stores_laws : UsageStoreLaws (wrapped (usage_store R)) := wrapped_laws (Hl := usage_laws text_ok grace).

Notation generic := (mGeneric (pModes (cPow cfg))).
Notation ip_bound := (mIPBound (pModes (cPow cfg))).

(** What is assumed of the deployment: the configuration is valid, with generic
    mode on, dry run off and no number out of proportion; expiry times come as
    64-bit integers; redis has no usage key yet, and postgres no row. *)
Record setting : Prop := {
  st_valid : valid_config cfg;
  st_modes : mEnabled generic = true /\ pDryRun (cPow cfg) = false;
  st_max : mMaxUses generic <= 2 ^ 53;
  st_ttl : mMaxTTLSeconds generic <= 10 ^ 9 /\ mMaxTTLSeconds ip_bound <= 10 ^ 9;
  st_grace : 0 <= grace < clExpiredGracePeriod (cCleanup cfg) / second;
  st_period : clExpiredGracePeriod (cCleanup cfg) / second <= 10 ^ 9;
  st_codec : forall b p, json_unmarshal b = Some p -> tpExpiresAt p <= max_int64;
  st_redis : forall c i, redis_ping (stRedis (cStorage cfg)) = Some c ->
    stored c (RedisUsage.usageKey (RedisUsage.NewUsageStore c (rdKeyPrefix (stRedis (cStorage cfg)))) i) = None;
  st_postgres : forall t, open_pool (pool_config (stPostgres (cStorage cfg))) = Some t -> t = ∅;
}.

(** What is assumed of the clocks a request meets: the store reads the same time
    as the service, which does not run backwards; a request takes less than
    [grace], itself less than the grace period of the cleanup. *)
Record timely (clk : nat -> Z) (uenv : nat -> store_env) : Prop := {
  tl_mono : forall n m, (n <= m)%nat -> clk n <= clk m;
  tl_clock : forall n, 0 < unix_sec (clk n) <= 2 ^ 53;
  tl_stores : forall n, unix_sec (seNow (uenv n)) = unix_sec (clk n);
  tl_prompt : forall n m, (n <= m <= n + 4)%nat -> unix_sec (clk m) <= unix_sec (clk n) + grace;
}.

Hypothesis hs : setting.

Lemma decoded_range tok p : DecodeToken tok = Ok p -> tpExpiresAt p <= max_int64.
Proof.
  unfold DecodeToken. case_if; [done|]. case_match; [|done]. destruct (json_unmarshal _) as [q|] eqn:E; [|done].
  intros [= <-]. by eapply st_codec.
Qed.

Section Clocks.
Variable clk : nat -> Z.
Variable uenv : nat -> store_env.
Hypothesis ht : timely clk uenv.

(** A good token expires within its mode's lifetime and a minute. *)
Lemma judged_expiry s p n :
  Auth.cfg s = cfg -> judged clk s p n ->
  unix_sec (clk n) < tpExpiresAt p <= unix_sec (clk n) + 60 + 10 ^ 9.
Proof.
  intros Hcfg (tok & path & sg & Hd & mc & Hm & Hen & Hw & _ & (Hlive & Httl & Hfut) & _).
  apply decoded_range in Hd. pose proof (tl_clock _ _ ht n) as Hc. pose proof (wf_times _ _ Hw) as Ht.
  rewrite wrap64_id in Hfut by (unfold int64_range, min_int64, max_int64; lia).
  rewrite wrap64_id in Httl by (unfold int64_range, min_int64 in *; lia).
  assert (0 < mcMaxTTL mc <= 10 ^ 9) as Hx; [|lia].
  unfold mode_config in Hm. rewrite Hcfg in Hm. pose proof (st_ttl hs).
  pose proof (vh_pow _ (vc_head _ (st_valid hs))) as Hv.
  repeat case_if_in Hm; [..|done]; injection Hm as <-; simpl in *.
  - pose proof (vp_ip_ttl _ Hv Hen). lia.
  - pose proof (vp_generic_ttl _ Hv Hen). lia.
Qed.

Lemma grace_seconds_bounds s :
  Auth.cfg s = cfg ->
  clExpiredGracePeriod (cCleanup cfg) / second <= grace_seconds s <= clExpiredGracePeriod (cCleanup cfg) / second + 1.
Proof.
  intros Hcfg. unfold grace_seconds. rewrite Hcfg. pose proof (st_grace hs) as Hg.
  assert (0 < clExpiredGracePeriod (cCleanup cfg)) as Hp.
  { destruct (Z.lt_ge_cases 0 (clExpiredGracePeriod (cCleanup cfg))) as [|Hn]; [done|].
    apply (Z.div_le_mono _ _ second) in Hn; [|done]. rewrite Z.div_0_l in Hn by done. lia. }
  rewrite (proj2 (Z.ltb_lt _ _) Hp). apply int_seconds_bounds. split; [lia|].
  pose proof (st_period hs) as Hm. pose proof (Z.mul_succ_div_gt (clExpiredGracePeriod (cCleanup cfg)) second ltac:(done)) as Hd.
  unfold second in *. unfold max_int64. lia.
Qed.

(** The numbers of such a call suit every store. *)
Lemma call_fits s p n0 m n inp :
  Auth.cfg s = cfg -> judged clk s p n0 -> (n0 <= m <= n)%nat -> (n <= n0 + 4)%nat ->
  min_int64 <= ciMaxUses inp <= 2 ^ 53 -> ciNowUnix inp = unix_sec (clk m) -> ciExpiresAt inp = tpExpiresAt p ->
  ciGraceSeconds inp = grace_seconds s -> us_call_ok (uenv n) inp.
Proof.
  intros Hcfg Hj Hm Hn Hmax Hnow Hexp Hg. pose proof (judged_expiry _ _ _ Hcfg Hj) as He.
  pose proof (tl_clock _ _ ht m) as Hc. pose proof (tl_clock _ _ ht n0) as Hc0. pose proof (st_grace hs). pose proof (st_period hs).
  assert (unix_sec (clk n0) <= unix_sec (clk m) <= unix_sec (clk n)) as Ho
    by (split; apply Z.div_le_mono; [done|apply (tl_mono _ _ ht); lia|done|apply (tl_mono _ _ ht); lia]).
  pose proof (grace_seconds_bounds _ Hcfg) as Hgs. rewrite <- Hg in Hgs.
  assert (RedisUsage.now_of (redis_env (uenv n)) inp = unix_sec (clk m)) as En.
  { unfold RedisUsage.now_of. rewrite Hnow. by rewrite (proj2 (Z.eqb_neq _ _)) by lia. }
  assert (RedisUsage.grace_of inp = ciGraceSeconds inp) as Eg.
  { unfold RedisUsage.grace_of. by rewrite (proj2 (Z.leb_gt _ _)) by lia. }
  assert (seNow (uenv n) / second = unix_sec (clk n)) as Es by apply (tl_stores _ _ ht).
  split; [unfold MemUsage.call_ok, max_int64; lia|].
  split; rewrite ?En, ?Eg, ?Hexp; cbn [redis_env RedisUsage.rtime]; rewrite ?Es; unfold max_int64; lia.
Qed.

Lemma built_deployed s :
  Auth.cfg s = cfg -> deployed clk uenv s (mMaxUses generic).
Proof.
  intros Hcfg. pose proof (vp_max_uses _ (vh_pow _ (vc_head _ (st_valid hs))) (proj1 (st_modes hs))) as Hpos.
  pose proof (st_max hs) as Hmax. split.
  - unfold dryRunEffective. rewrite Hcfg. apply (st_modes hs).
  - apply (tl_mono _ _ ht).
  - apply (tl_stores _ _ ht).
  - apply (tl_prompt _ _ ht).
  - rewrite Hcfg. lia.
  - rewrite Hcfg. pose proof (st_grace hs). simpl. lia.
  - intros p n0 m n req tok sg mode Hj Hm Hn. eapply (call_fits s p n0 m); try done.
    simpl. rewrite Hcfg. unfold min_int64. lia.
  - intros p n0 m n req tok sg mode Hj Hm Hn. eapply (call_fits s p n0 m); try done.
Qed.

End Clocks.

(** The stores of a build are empty. *)
Lemma built_empty a open u :
  build known_level redis_ping open_pool cfg = (Ok a, open) -> spUsage (apStorage a) = Some u ->
  us_inv u /\ forall id, us_view u id = None.
Proof.
  intros (_ & open' & Hs)%build_inv Hu. unfold us_inv, us_view, stores_laws, wrapped_laws, usage_laws.
  destruct (buildStorage_store _ _ _ _ _ _ Hs Hu) as [->|[(t & Ht & ->)|(c & Hc & ->)]]; cbn [usage_inv usage_views].
  - split; [apply MemUsage.inv_new|done].
  - split; [done|]. by rewrite (st_postgres hs _ Ht).
  - pose proof (fun i => st_redis hs c i Hc) as Hn. split; [by apply RedisUsage.inv_NewUsageStore|].
    intros id. exact (f_equal RedisUsage.view_entry (Hn id)).
Qed.

(** The quota of the program as it is started, request by request, counted as
    [used] counts.  Whatever
    driver a valid configuration names, the service that is built from it, on its
    instrumented store, admits at most the configured [max_uses] requests on one sign id, in
    any sequence of requests and cleanup turns, store calls failing before or
    after they took effect. *)
Theorem built_quota clk uenv cenv a open u id E active l w :
  timely clk uenv -> build known_level redis_ping open_pool cfg = (Ok a, open) -> spUsage (apStorage a) = Some u ->
  id <> ""%string -> wStore w = u -> Forall (happening_owns (apService a) id E) l ->
  admissions clk uenv cenv (apService a) id active l w <= mMaxUses generic.
Proof.
  intros Ht Hb Hu Hid Hw Ho. destruct (built_empty _ _ _ Hb Hu) as [Hi Hn].
  pose proof (built_deployed clk uenv Ht (apService a) (proj1 (build_inv _ _ _ _ _ _ Hb))) as Hd.
  apply (admissions_from_empty (U := wrapped (usage_store R)) (H4 := stores_laws)) with (E := E); try done; by rewrite Hw.
Qed.

End Built.

(** ** A deployment on redis *)

Module BuiltSample.
#[local] Existing Instances ascii_unicode literal_regexp key_order codec MemCounter.CounterStore_ops.
#[local] Existing Instances MapRedis.MapRedis_ops MapRedis.MapRedis_laws.
Notation server := (gmap string (rvalue * option Z)).

Definition redis_config : Config :=
  BuildSample.with_storage
    (MkStorage "redis" "memory" (stPostgres (cStorage plain_config)) (MkRedis "localhost:6379" "" 0 "")) plain_config.

Definition ping (_ : RedisConfig) : option server := Some MapRedis.empty_server.

Definition app : App (R := server) :=
  match (build BuildSample.levels ping BuildSample.no_pool redis_config).1 with
  | Ok a => a
  | Err _ => MkApp plain (MkStorageParts None None None false) None false
  end.
Definition store : wrapped (usage_store server) :=
  default (InstrumentUsage "" false (MemoryStore MemUsage.NewUsageStore)) (spUsage (apStorage app)).

Lemma app_built : exists open, build BuildSample.levels ping BuildSample.no_pool redis_config = (Ok app, open).
Proof.
  assert (is_ok (build BuildSample.levels ping BuildSample.no_pool redis_config).1 = true) as Hok by (vm_compute; reflexivity).
  unfold app. destruct (build _ _ _ _) as [[a|e] open]; [by exists open|done].
Qed.

Lemma app_store : spUsage (apStorage app) = Some store.
Proof. vm_compute. reflexivity. Qed.

(** A reading every millisecond, of a clock that stops after a second. *)
Definition clk (n : nat) : Z := AuthSample.clk (Nat.min n 1000).

(** The answer to one of the calls is lost. *)
Definition faulty (n : nat) : store_env :=
  MkStoreEnv (clk n) [] (if (n =? 7)%nat then Redis.AnswerLost else Redis.Works).

Definition fresh_world : world (U := wrapped (usage_store server)) (C := MemCounter.CounterStore) :=
  MkWorldState 0 store (MkCounters MemCounter.NewCounterStore 0 ∅ []) Pending.fresh 0 None [].

Definition three : list happening :=
  [Serve (get generic_token "192.0.2.1"); Serve (get generic_token "192.0.2.2"); Serve (get generic_token "192.0.2.1")].

Lemma clk_seconds n : 1700000100 <= unix_sec (clk n) <= 1700000101.
Proof.
  unfold unix_sec, clk, AuthSample.clk, second. split; [apply Z.div_le_lower_bound; lia|].
  apply Z.lt_succ_r, Z.div_lt_upper_bound; lia.
Qed.

Lemma sample_setting : setting (R := server) ping BuildSample.no_pool redis_config 1000.
Proof.
  split.
  - apply Validate_iff. vm_compute. reflexivity.
  - split; vm_compute; reflexivity.
  - vm_compute. discriminate.
  - split; vm_compute; discriminate.
  - vm_compute. split; [discriminate|reflexivity].
  - vm_compute. discriminate.
  - intros b p. unfold json_unmarshal, codec. repeat (case_if; [intros [= <-]; vm_compute; discriminate|]). done.
  - intros c i [= <-]. reflexivity.
  - discriminate.
Qed.

Lemma sample_timely uenv : (forall n, seNow (uenv n) = clk n) -> timely 1000 clk uenv.
Proof.
  intros Hu. split.
  - intros n m Hn. unfold clk, AuthSample.clk. lia.
  - intros n. pose proof (clk_seconds n). lia.
  - intros n. by rewrite Hu.
  - intros n m Hn. pose proof (clk_seconds n). pose proof (clk_seconds m). lia.
Qed.

Lemma three_owns : Forall (happening_owns (apService app) generic_id 1700000600) three.
Proof.
  assert (forall ip, happening_owns (apService app) generic_id 1700000600 (Serve (get generic_token ip))) as Ho
    by (intros ip; apply owns_by; [vm_compute; reflexivity..|reflexivity]).
  unfold three. auto using Forall_cons_2, Forall_nil_2.
Qed.

Notation admitted_on := (admissions (U := wrapped (usage_store server)) (H3 := stores (fun _ => true)) clk faulty cenv
  (apService app) generic_id None three fresh_world).

(** A token with two uses, presented three times. *)
Example quota_in_turn : admitted_on = 2 /\ admitted_on <= 2.
Proof.
  split; [vm_compute; reflexivity|]. destruct app_built as [open Hb].
  apply (built_quota BuildSample.levels ping BuildSample.no_pool (fun _ => true) redis_config 1000
           sample_setting clk faulty cenv app open store generic_id 1700000600 None three fresh_world
           (sample_timely faulty (fun _ => eq_refl)) Hb app_store).
  - vm_compute. discriminate.
  - reflexivity.
  - exact three_owns.
Qed.

(** The same at once: the second request gets to the store first, and its answer
    is lost; a fourth finds the uses gone. *)
#[local] Instance ops : UsageStore (wrapped (usage_store server)) := stores (fun _ => true).
#[local] Instance env_eq : EqDecision (us_env (S := wrapped (usage_store server))) := store_env_eq.

Notation request := (thread (U := wrapped (usage_store server)) (C := MemCounter.CounterStore)).
Notation event := (us_event (wrapped (usage_store server))).

Definition thread_of (ip : string) (f : Redis.fault) (others : list event) : request :=
  MkThread (get generic_token ip) clk (fun n => MkCallEnv others (MkStoreEnv (clk n) [] f)) cenv
    (MkWorldState 0 (MkSeen store []) (MkCounters MemCounter.NewCounterStore 0 ∅ []) Pending.fresh 0 None []).

(** What a request did itself. *)
Definition calls_of (th : request) : list event :=
  map snd (filter (fun x => x.1 = true) (snTrace (wStore (run_thread (apService app) th).2))).

Definition second : request := thread_of "192.0.2.2" Redis.AnswerLost [].
Definition first : request := thread_of "192.0.2.1" Redis.Works (calls_of second).
Definition third : request := thread_of "192.0.2.3" Redis.Works (calls_of second ++ calls_of first).

Definition history : list (nat * event) :=
  map (pair 1%nat) (calls_of second) ++ map (pair 0%nat) (calls_of first) ++ map (pair 2%nat) (calls_of third).

Lemma request_ok ip f others i :
  fits_b (apService app) i (thread_of ip f others) history = true ->
  timely 1000 clk (fun n => MkStoreEnv (clk n) [] f) /\
  request_owns (apService app) generic_id 1700000600 (get generic_token ip) /\
  fits (apService app) store i (thread_of ip f others) history.
Proof.
  intros Hf. split; [apply sample_timely; reflexivity|]. split; [|by apply fits_by].
  assert (happening_owns (apService app) generic_id 1700000600 (Serve (get generic_token ip))) as Ho; [|exact Ho].
  apply owns_by; [vm_compute; reflexivity..|reflexivity].
Qed.

Lemma from_tag (k : nat) (evs : list event) (P : event -> Prop) :
  (k < 3)%nat -> Forall (fun x => (3 <= x.1)%nat -> P x.2) (map (pair k) evs).
Proof. intros Hk. apply Forall_map, Forall_forall. intros ev _ Hn. simpl in Hn. lia. Qed.

End BuiltSample.
