(* ===== verification/Lifecycle.v ===== *)
(** * The running server ([internal/app/app.go], [transport/echo/server.go], [cmd/server/main.go])

    The goroutines of the process as one state: [run] waits for [Start], whose
    goroutine serves; another waits for a signal and runs [Shutdown]; a third
    cleans the usage store; requests come over connections.  An event is a step
    of one of them; a schedule is a list of events. *)

From S2P Require Import Prelude GoStrings GoTime Storage Config Matcher RiskMatcher Auth App AppBuild.

(** ** The HTTP server ([server.go]) *)

(** The fields of [http.Server] that [Start] sets; a zero is a limit not set. *)
Record http_server := MkHttpServer {
  hsAddr : string; hsReadHeaderTimeout : Z; hsMaxHeaderBytes : Z;
  hsReadTimeout : Z; hsWriteTimeout : Z; hsIdleTimeout : Z;
}.

Definition Start_server (c : ServerConfig) (listen : string) : http_server := {|
  hsAddr := listen;
  hsReadHeaderTimeout := 5 * second;
  hsMaxHeaderBytes := Z.shiftl 64 10;
  hsReadTimeout := if 0 <? sReadTimeout c then sReadTimeout c else 0;
  hsWriteTimeout := if 0 <? sWriteTimeout c then sWriteTimeout c else 0;
  hsIdleTimeout := if 0 <? sIdleTimeout c then sIdleTimeout c else 0;
|}.

(** What [ListenAndServe] may return. *)
Inductive server_error := ErrServerClosed | ListenFailed | AcceptFailed.

(** The goroutine of [App.Start]: before [s.httpServer] is set; before the
    listener is open; serving; returned. *)
Inductive serve_pc := SvStart | SvListen | SvServing | SvReturned (e : server_error).

(** The goroutine of [cleanupLoop]: none was started; before its ticker exists;
    counting; at its select; at a tick; returned. *)
Inductive cleanup_pc := ClOff | ClStart | ClGauge | ClSelect | ClTick | ClDone.

(** ** Shutdown *)

Inductive action :=
  | StopCleanup
  | WaitCleanup
  | ShutServer
  | AwaitServer
  | CloseRes (r : resource).

Inductive shutdown_error := MainServerShutdown | CloseFailed (r : resource).

Section Lifecycle.
Context `{Unicode, Regexp} {R : Type}.
Variable cfg : Config.
Variable a : App (R := R).

(** [Shutdown], as the calls it makes; [http.Server.Shutdown] is two of them,
    closing the listeners and waiting for the connections. *)
Definition Shutdown : list action :=
  (if apCleanup a then [StopCleanup; WaitCleanup] else [])
  ++ [ShutServer; AwaitServer]
  ++ map CloseRes (shutdown_order a).

(** The errors it collects: closing the client is not checked, and the pool has
    none. *)
Definition close_error (r : resource) : list shutdown_error :=
  match r with TheRedisClient | ThePool => [] | _ => [CloseFailed r] end.

Record world := MkWorld {
  serve : serve_pc;
  inShutdown : bool;
  conns : nat;              (* connections with no request at hand *)
  active : nat;             (* requests at hand *)
  cleaner : cleanup_pc;
  cancelled : bool;         (* the context of the cleanup loop *)
  todo : option (list action);  (* what is left of [Shutdown] once a signal came *)
  closed : list resource;
  errs : list shutdown_error;
  exited : option Z;        (* the exit status of the process *)
}.

(** After [BuildWithLoaded], with the signal goroutine and that of [Start] begun. *)
Definition started : world := {|
  serve := SvStart; inShutdown := false; conns := 0; active := 0;
  cleaner := if apCleanup a then ClStart else ClOff; cancelled := false;
  todo := None; closed := []; errs := []; exited := None;
|}.

Definition set_serve (s : serve_pc) (w : world) : world :=
  MkWorld s (inShutdown w) (conns w) (active w) (cleaner w) (cancelled w) (todo w) (closed w) (errs w) (exited w).
Definition set_requests (c r : nat) (w : world) : world :=
  MkWorld (serve w) (inShutdown w) c r (cleaner w) (cancelled w) (todo w) (closed w) (errs w) (exited w).
Definition set_cleaner (c : cleanup_pc) (w : world) : world :=
  MkWorld (serve w) (inShutdown w) (conns w) (active w) c (cancelled w) (todo w) (closed w) (errs w) (exited w).
Definition set_todo (k : list action) (w : world) : world :=
  MkWorld (serve w) (inShutdown w) (conns w) (active w) (cleaner w) (cancelled w) (Some k) (closed w) (errs w) (exited w).
Definition set_cancelled (w : world) : world :=
  MkWorld (serve w) (inShutdown w) (conns w) (active w) (cleaner w) true (todo w) (closed w) (errs w) (exited w).
Definition set_inShutdown (w : world) : world :=
  MkWorld (serve w) true (conns w) (active w) (cleaner w) (cancelled w) (todo w) (closed w) (errs w) (exited w).
Definition add_closed (r : resource) (w : world) : world :=
  MkWorld (serve w) (inShutdown w) (conns w) (active w) (cleaner w) (cancelled w) (todo w) (closed w ++ [r]) (errs w) (exited w).
Definition add_errs (es : list shutdown_error) (w : world) : world :=
  MkWorld (serve w) (inShutdown w) (conns w) (active w) (cleaner w) (cancelled w) (todo w) (closed w) (errs w ++ es) (exited w).
Definition exit_with (code : Z) (w : world) : world :=
  MkWorld (serve w) (inShutdown w) (conns w) (active w) (cleaner w) (cancelled w) (todo w) (closed w) (errs w) (Some code).

(** ** Events *)

Inductive event :=
  | HttpServerSet                (* [s.httpServer = &http.Server{...}] *)
  | Listen (ok : bool)           (* [ListenAndServe] opens its listener *)
  | AcceptError                  (* or gives up on it *)
  | ServeReturns                 (* or finds it closed *)
  | MainReturns                  (* [run] receives the error of [Start] *)
  | Connect | Disconnect
  | RequestBegins | RequestEnds (keep : bool)
  | CleanupStarts | CleanupCounted | CleanupTick | CleanupTicked (gauge : bool) | CleanupStops
  | SignalArrives                (* SIGINT or SIGTERM *)
  | ShutdownStep (ok : bool).    (* the next call of [Shutdown] *)

Definition is_serving (s : serve_pc) : bool := match s with SvServing => true | _ => false end.

(** No connection is left, and no [Serve] loop to make one. *)
Definition quiet (w : world) : bool :=
  negb (is_serving (serve w)) && (conns w =? 0)%nat && (active w =? 0)%nat.

(** [run]'s exit status. *)
Definition exit_code (e : server_error) : Z := match e with ErrServerClosed => 0 | _ => 1 end.

(** One call of [Shutdown], [k] the calls after it. *)
Definition perform (act : action) (k : list action) (ok : bool) (w : world) : option world :=
  match act with
  | StopCleanup => Some (set_todo k (set_cancelled w))
  | WaitCleanup => match cleaner w with ClDone => Some (set_todo k w) | _ => None end
  | ShutServer =>
      match serve w with
      | SvStart => Some (set_todo (match k with AwaitServer :: k => k | _ => k end) w)  (* no server: [Shutdown] returns nil *)
      | _ => Some (set_todo k (set_inShutdown w))
      end
  | AwaitServer =>
      if ok then if quiet w then Some (set_todo k w) else None
      else Some (set_todo k (add_errs [MainServerShutdown] w))  (* the context ends first *)
  | CloseRes r => Some (set_todo k (add_closed r (if ok then w else add_errs (close_error r) w)))
  end.

(** The body of a goroutine, at the point it has reached. *)
Definition step_serve (ev : event) (w : world) : option world :=
  match ev, serve w with
  | HttpServerSet, SvStart => Some (set_serve SvListen w)
  | Listen ok, SvListen =>
      Some (set_serve (if inShutdown w then SvReturned ErrServerClosed
                       else if ok then SvServing else SvReturned ListenFailed) w)
  | AcceptError, SvServing => if inShutdown w then None else Some (set_serve (SvReturned AcceptFailed) w)
  | ServeReturns, SvServing => if inShutdown w then Some (set_serve (SvReturned ErrServerClosed) w) else None
  | MainReturns, SvReturned e => Some (exit_with (exit_code e) w)
  | Connect, SvServing => Some (set_requests (S (conns w)) (active w) w)
  | _, _ => None
  end.

Definition step_request (ev : event) (w : world) : option world :=
  match ev, conns w, active w with
  | Disconnect, S c, r => Some (set_requests c r w)
  | RequestBegins, S c, r => Some (set_requests c (S r) w)
  | RequestEnds keep, c, S r => Some (set_requests (if keep then S c else c) r w)
  | _, _, _ => None
  end.

(** [cleanupLoop]; a ticker with an interval that is not positive is a panic,
    which ends the process.  A tick ends after the cleanup failed or, when it did
    not, with the gauge. *)
Definition step_cleanup (ev : event) (w : world) : option world :=
  match ev, cleaner w with
  | CleanupStarts, ClStart =>
      Some (if 0 <? clInterval (cCleanup cfg) then set_cleaner ClGauge w else exit_with 2 w)
  | CleanupCounted, ClGauge => Some (set_cleaner ClSelect w)
  | CleanupTick, ClSelect => Some (set_cleaner ClTick w)
  | CleanupTicked gauge, ClTick => Some (set_cleaner (if gauge then ClGauge else ClSelect) w)
  | CleanupStops, ClSelect => if cancelled w then Some (set_cleaner ClDone w) else None
  | _, _ => None
  end.

Definition step_signal (ev : event) (w : world) : option world :=
  match ev, todo w with
  | SignalArrives, None => Some (set_todo Shutdown w)
  | ShutdownStep ok, Some (act :: k) => perform act k ok w
  | _, _ => None
  end.

Definition step (ev : event) (w : world) : option world :=
  match exited w with
  | Some _ => None
  | None =>
      match ev with
      | HttpServerSet | Listen _ | AcceptError | ServeReturns | MainReturns | Connect => step_serve ev w
      | Disconnect | RequestBegins | RequestEnds _ => step_request ev w
      | CleanupStarts | CleanupCounted | CleanupTick | CleanupTicked _ | CleanupStops => step_cleanup ev w
      | SignalArrives | ShutdownStep _ => step_signal ev w
      end
  end.

Fixpoint run (evs : list event) (w : world) : option world :=
  match evs with
  | [] => Some w
  | ev :: evs => match step ev w with Some w => run evs w | None => None end
  end.

Inductive reachable : world -> Prop :=
  | reachable_started : reachable started
  | reachable_step w ev w' : reachable w -> step ev w = Some w' -> reachable w'.

End Lifecycle.

(** ** What every schedule keeps *)

Section Theory.
Context `{Unicode, Regexp} {R : Type}.
Variable cfg : Config.
Variable a : App (R := R).

Notation reachable := (reachable cfg a).
Notation closing := (map CloseRes).

(** The cleanup goroutine is over, if there was one. *)
Definition swept (w : world) : Prop := cleaner w = if apCleanup a then ClDone else ClOff.

(** The server, if it was there to be shut down, has no request left, unless the
    wait was given up. *)
Definition drained (w : world) : Prop := inShutdown w = true -> quiet w = true \/ MainServerShutdown ∈ errs w.

(** Where [Shutdown] is, by what is left of it. *)
Inductive phase (w : world) : list action -> Prop :=
  | ph_stop : apCleanup a = true -> closed w = [] -> inShutdown w = false ->
      phase w (StopCleanup :: WaitCleanup :: ShutServer :: AwaitServer :: closing (shutdown_order a))
  | ph_wait : apCleanup a = true -> closed w = [] -> inShutdown w = false -> cancelled w = true ->
      phase w (WaitCleanup :: ShutServer :: AwaitServer :: closing (shutdown_order a))
  | ph_shut : closed w = [] -> inShutdown w = false -> swept w -> phase w (ShutServer :: AwaitServer :: closing (shutdown_order a))
  | ph_await : closed w = [] -> swept w -> inShutdown w = true -> phase w (AwaitServer :: closing (shutdown_order a))
  | ph_close l : closed w ++ l = shutdown_order a -> swept w -> drained w -> phase w (closing l).

Definition live (w : world) : Prop :=
  (cleaner w = ClOff <-> apCleanup a = false) /\
  match todo w with
  | None => closed w = [] /\ inShutdown w = false /\ cancelled w = false
  | Some k => phase w k
  end.

Lemma phase_mono w w' k :
  closed w' = closed w -> cancelled w' = cancelled w -> inShutdown w' = inShutdown w ->
  (swept w -> swept w') -> (drained w -> drained w') -> phase w k -> phase w' k.
Proof. intros Hc Hl Hi Hs Hd Hp. destruct Hp; constructor; rewrite ?Hc, ?Hi, ?Hl; auto. Qed.

Lemma closing_inv act k l : act :: k = closing l -> exists r l', l = r :: l' /\ act = CloseRes r /\ k = closing l'.
Proof. destruct l as [|r l]; [done|]. intros [= -> ->]. eauto. Qed.

(** A step of a goroutine other than that of the signal. *)
Definition quiet_step (w w' : world) : Prop :=
  todo w' = todo w /\ closed w' = closed w /\ cancelled w' = cancelled w /\ inShutdown w' = inShutdown w /\
  errs w' = errs w /\ (inShutdown w = true -> quiet w = true -> quiet w' = true).

#[local] Ltac quiet_cases :=
  unfold quiet_step, quiet; repeat (case_match; simplify_eq/=); split_and?; try done;
  intros; repeat (case_match; simplify_eq/=); try done.

Lemma step_serve_quiet ev w w' : step_serve ev w = Some w' -> quiet_step w w' /\ cleaner w' = cleaner w.
Proof. destruct w as [s i c r cl ca t d e x], ev, s; intros E; simplify_eq/=; quiet_cases. Qed.

Lemma step_request_quiet ev w w' : step_request ev w = Some w' -> quiet_step w w' /\ cleaner w' = cleaner w.
Proof.
  destruct w as [s i c r cl ca t d e x], ev, c, r; intros E; simplify_eq/=; quiet_cases;
    rewrite ?andb_false_r in *; try done; by rewrite ?andb_false_r in *.
Qed.

Lemma step_cleanup_quiet ev w w' :
  step_cleanup cfg ev w = Some w' ->
  quiet_step w w' /\ (cleaner w = ClOff <-> cleaner w' = ClOff) /\ cleaner w <> ClOff /\ cleaner w <> ClDone.
Proof.
  destruct w as [s i c r cl ca t d e x], ev, cl; intros E; simplify_eq/=; quiet_cases.
Qed.

Lemma live_quiet w w' :
  live w -> quiet_step w w' -> (cleaner w = ClOff <-> cleaner w' = ClOff) -> (swept w -> swept w') -> live w'.
Proof.
  intros [Hc Hp] (Ht & Hd & Hl & Hi & He & Hq) Ho Hs. split; [by rewrite <- Ho|].
  rewrite Ht. destruct (todo w) as [k|]; [|by rewrite Hd, Hi, Hl].
  eapply phase_mono; [exact Hd|exact Hl|exact Hi|exact Hs| |exact Hp].
  unfold drained. rewrite Hi, He. intros Hdr Hin. destruct (Hdr Hin) as [?|?]; auto.
Qed.

Lemma live_started : live (started a).
Proof. split; simpl; [|done]. by destruct (apCleanup a). Qed.

Lemma phase_shutdown w :
  closed w = [] -> inShutdown w = false -> (cleaner w = ClOff <-> apCleanup a = false) -> phase w (Shutdown a).
Proof.
  intros Hc Hi Ho. unfold Shutdown. destruct (apCleanup a) eqn:Ea; cbn [app]; constructor; auto.
  unfold swept. rewrite Ea. by apply Ho.
Qed.

(** The phase after one call. *)
Lemma perform_phase act k ok w w' :
  phase w (act :: k) -> perform act k ok w = Some w' ->
  cleaner w' = cleaner w /\ exists k', todo w' = Some k' /\ phase w' k'.
Proof.
  intros Hp E. remember (act :: k) as k0 eqn:Ek.
  destruct Hp as [Ha Hc Hi|Ha Hc Hi Hx|Hc Hi Hs|Hc Hs Hi|l Hc Hs Hd];
    [injection Ek as <- <-; cbn in E..|].
  - injection E as <-. split; [done|]. eexists; split; [done|]. by apply ph_wait.
  - destruct (cleaner w) eqn:Ec; try done. injection E as <-. split; [done|]. eexists; split; [done|].
    apply ph_shut; [done|done|]. unfold swept. cbn. by rewrite Ha.
  - destruct (serve w) eqn:Es; injection E as <-; (split; [done|]); eexists; (split; [done|]).
    1: apply ph_close; [by cbn; rewrite Hc|done|]; intros Hi'; cbn in Hi'; congruence.
    all: by apply ph_await.
  - destruct ok; [destruct (quiet w) eqn:Eq; [|done]|]; injection E as <-; (split; [done|]); eexists; (split; [done|]);
      (apply ph_close; [by cbn; rewrite Hc|done|]); intros _; [by left|].
    right. cbn. apply elem_of_app. right. by left.
  - symmetry in Ek. apply closing_inv in Ek as (r & l' & -> & -> & ->). cbn in E. injection E as <-.
    split; [by destruct ok|]. eexists; split; [done|].
    apply ph_close; [destruct ok; cbn; by rewrite <- app_assoc|by destruct ok|].
    destruct ok; [done|]. intros Hi. destruct (Hd Hi) as [?|?]; [by left|right]. cbn. apply elem_of_app. by left.
Qed.

Lemma live_step ev w w' : live w -> step cfg a ev w = Some w' -> live w'.
Proof.
  intros Hl E. unfold step in E. destruct (exited w); [done|].
  assert (forall ev, step_serve ev w = Some w' -> live w') as Hs.
  { intros e Hs. apply step_serve_quiet in Hs as [Hq Hc]. apply (live_quiet _ _ Hl Hq); unfold swept; by rewrite Hc. }
  assert (forall ev, step_request ev w = Some w' -> live w') as Hr.
  { intros e Hs'. apply step_request_quiet in Hs' as [Hq Hc]. apply (live_quiet _ _ Hl Hq); unfold swept; by rewrite Hc. }
  assert (forall ev, step_cleanup cfg ev w = Some w' -> live w') as Hcl.
  { intros e Hs'. apply step_cleanup_quiet in Hs' as (Hq & Ho & Hn & Hd). apply (live_quiet _ _ Hl Hq Ho).
    unfold swept. intros Hx. destruct (apCleanup a); congruence. }
  destruct Hl as [Ho Hp].
  destruct ev; eauto; cbn in E; destruct (todo w) as [[|act k]|] eqn:Et; try done.
  - injection E as <-. destruct Hp as (Hc & Hi & _). split; [exact Ho|]. by apply phase_shutdown.
  - destruct (perform_phase _ _ _ _ _ Hp E) as (Hc & k' & Ht & Hp'). split; [by rewrite Hc|by rewrite Ht].
Qed.

Lemma reachable_live w : reachable w -> live w.
Proof. induction 1; [apply live_started|eauto using live_step]. Qed.

#[local] Instance resource_eq : EqDecision resource.
Proof. solve_decision. Defined.

Lemma shutdown_order_NoDup : NoDup (shutdown_order a).
Proof.
  unfold shutdown_order. destruct (apPending a), (spUsage _), (spCounters _), (spPool _), (spRedis _); cbn;
    apply (bool_decide_unpack _); vm_compute; done.
Qed.


(** What is closed, is closed in order, once, after the cleanup and the requests
    are over. *)
Lemma closed_after w :
  reachable w ->
  closed w `prefix_of` shutdown_order a /\ (todo w = Some [] -> closed w = shutdown_order a) /\
  (closed w <> [] -> swept w /\ drained w).
Proof.
  intros [_ Hl]%reachable_live. destruct (todo w) as [k|] eqn:Et.
  2: { destruct Hl as (-> & _ & _). split_and!; [apply prefix_nil|done|done]. }
  destruct Hl as [? Hc|? Hc|Hc|Hc|l Hc Hs Hd]; try (rewrite Hc; split_and!; [apply prefix_nil|done|done]).
  split_and!; [by exists l|intros [= El]|done]. destruct l; [|done]. by rewrite app_nil_r in Hc.
Qed.

(** ** Shutdown comes to its end *)

Lemma run_app evs evs' w : run cfg a (evs ++ evs') w = match run cfg a evs w with Some w => run cfg a evs' w | None => None end.
Proof. revert w; induction evs as [|ev evs IH]; intros w; simpl; [done|]. destruct (step cfg a ev w); [apply IH|done]. Qed.

Lemma run_reachable evs w w' : reachable w -> run cfg a evs w = Some w' -> reachable w'.
Proof.
  revert w; induction evs as [|ev evs IH]; intros w Hw; simpl; [by intros [= <-]|].
  destruct (step cfg a ev w) eqn:E; [|done]. apply IH. eapply reachable_step; done.
Qed.

(** Steps of the goroutines that [Shutdown] waits for, and its own. *)
Definition winding (ev : event) : Prop := ev <> MainReturns /\ ev <> SignalArrives /\ ev <> RequestBegins /\ ev <> Connect.

Lemma server_drain w : exited w = None ->
  run cfg a (replicate (active w) (RequestEnds false) ++ replicate (conns w) Disconnect) w = Some (set_requests 0 0 w).
Proof.
  intros Hx. rewrite run_app. destruct w as [s i c r cl ca t d e x]; simpl in Hx; subst x; simpl.
  assert (run cfg a (replicate r (RequestEnds false)) (MkWorld s i c r cl ca t d e None) = Some (MkWorld s i c 0 cl ca t d e None)) as ->.
  { induction r as [|r IH]; [done|]. cbn [replicate run step exited step_request conns active]. by destruct c. }
  induction c as [|c IH]; [done|]. exact IH.
Qed.

(** Up to the next call of [Shutdown], and over it. *)
Lemma next_call w act k :
  reachable w -> exited w = None -> todo w = Some (act :: k) -> 0 < clInterval (cCleanup cfg) ->
  exists evs w' k', run cfg a evs w = Some w' /\ Forall winding evs /\ exited w' = None /\
    todo w' = Some k' /\ (length k' <= length k)%nat /\ errs w' = errs w.
Proof.
  intros Hr Hx Ht Hi. pose proof (reachable_live _ Hr) as [Ho Hp]. rewrite Ht in Hp.
  assert (Forall winding [ShutdownStep true]) as Hw by (by repeat constructor).
  remember (act :: k) as k0 eqn:Ek in Hp.
  destruct Hp as [Ha Hc Hf|Ha Hc Hf Hca|Hc Hf Hs|Hc Hs Hf|l Hc Hs Hd]; [injection Ek as <- <-..|];
    destruct w as [s i c r cl ca t d e x]; simpl in Hx, Ht; subst x t.
  - exists [ShutdownStep true]. do 2 eexists. split_and!; [done|done|..]; done.
  - simpl in Hca. subst ca. destruct cl; [exfalso; rewrite Ha in Ho; by pose proof (proj1 Ho eq_refl)|..].
    + exists [CleanupStarts; CleanupCounted; CleanupStops; ShutdownStep true]. do 2 eexists.
      cbn. rewrite (proj2 (Z.ltb_lt _ _) Hi). cbn. split_and!; [done|by repeat constructor|..]; done.
    + exists [CleanupCounted; CleanupStops; ShutdownStep true]. do 2 eexists. split_and!; [done|by repeat constructor|..]; done.
    + exists [CleanupStops; ShutdownStep true]. do 2 eexists. split_and!; [done|by repeat constructor|..]; done.
    + exists [CleanupTicked false; CleanupStops; ShutdownStep true]. do 2 eexists. split_and!; [done|by repeat constructor|..]; done.
    + exists [ShutdownStep true]. do 2 eexists. split_and!; [done|done|..]; done.
  - exists [ShutdownStep true]. destruct s; do 2 eexists; (split_and!; [done|done|..]); try done; simpl; lia.
  - set (w := MkWorld s i c r cl ca _ d e None).
    simpl in Hf. subst i. pose proof (server_drain w eq_refl) as Hdr.
    exists ((replicate (active w) (RequestEnds false) ++ replicate (conns w) Disconnect)
            ++ (if is_serving s then [ServeReturns] else []) ++ [ShutdownStep true]).
    exists (MkWorld (if is_serving s then SvReturned ErrServerClosed else s) true 0 0 cl ca
              (Some (closing (shutdown_order a))) d e None), (closing (shutdown_order a)).
    rewrite run_app, Hdr. split_and!; [by destruct s| |done..].
    rewrite !Forall_app. split_and!; [by apply Forall_replicate|by apply Forall_replicate|destruct s; by repeat constructor|done].
  - symmetry in Ek. apply closing_inv in Ek as (q & l' & -> & -> & ->).
    exists [ShutdownStep true]. do 2 eexists. split_and!; [done|done|..]; done.
Qed.

Lemma shutdown_ends w k :
  reachable w -> exited w = None -> todo w = Some k -> 0 < clInterval (cCleanup cfg) ->
  exists evs w', run cfg a evs w = Some w' /\ Forall winding evs /\ todo w' = Some [] /\ errs w' = errs w.
Proof.
  intros Hr Hx Ht Hi. remember (length k) as n eqn:Hn. assert (length k <= n)%nat as Hk by lia. clear Hn.
  revert w k Hr Hx Ht Hk; induction n as [|n IH]; intros w k Hr Hx Ht Hk.
  - exists [], w. destruct k; [done|simpl in Hk; lia].
  - destruct k as [|act k]; [by exists [], w|].
    destruct (next_call w act k Hr Hx Ht Hi) as (evs & w1 & k1 & E1 & Hw1 & Hx1 & Ht1 & Hk1 & He1).
    destruct (IH w1 k1) as (evs' & w2 & E2 & Hw2 & Ht2 & He2); [by eapply run_reachable|done|done|simpl in Hk; lia|].
    exists (evs ++ evs'), w2. rewrite run_app, E1. split_and!; [done|by apply Forall_app|done|congruence].
Qed.

(** C24: No wait of [Shutdown] is a deadlock: whatever the goroutines are doing when
    it is under way, the cleanup loop, the requests and the connections can end
    by their own steps, and then it returns with everything closed that was
    opened and no error more. *)
Theorem shutdown_completes w k :
  reachable w -> exited w = None -> todo w = Some k -> 0 < clInterval (cCleanup cfg) ->
  exists evs w', run cfg a evs w = Some w' /\ Forall winding evs /\ todo w' = Some [] /\
    closed w' = shutdown_order a /\ errs w' = errs w.
Proof.
  intros Hr Hx Ht Hi. destruct (shutdown_ends w k Hr Hx Ht Hi) as (evs & w' & E & Hw & Ht' & He).
  exists evs, w'. split_and!; try done. apply closed_after; [by eapply run_reachable|done].
Qed.

(** ** The end of the process *)

Lemma server_states w :
  reachable w ->
  (inShutdown w = true -> serve w <> SvStart) /\ (serve w = SvReturned ErrServerClosed -> inShutdown w = true).
Proof.
  induction 1 as [|w ev w' Hr IH E]; [done|]. revert E. unfold step.
  destruct w as [s i c r cl ca t d e x]; simpl in IH |- *. destruct x; [done|]. destruct IH as [IH1 IH2].
  destruct ev; simpl; try (repeat case_match; intros; simplify_eq/=; solve [done|auto]).
  destruct t as [[|act k]|]; [done| |done]. destruct act; simpl; repeat case_match; intros; simplify_eq/=; auto.
Qed.

(** The process does not wait for its own [Shutdown]: as soon as that has begun to
    close the server, and however much it still has to do, [Start] returns and the
    process is gone two steps later, with requests at hand and stores open as they
    were. *)
Theorem exit_does_not_wait w :
  reachable w -> exited w = None -> inShutdown w = true ->
  exists evs w', run cfg a evs w = Some w' /\ (length evs <= 2)%nat /\
    exited w' = Some (match serve w with SvReturned e => exit_code e | _ => 0 end) /\
    todo w' = todo w /\ closed w' = closed w /\ active w' = active w.
Proof.
  intros Hr Hx Hi. destruct (server_states w Hr) as [Hs _]. specialize (Hs Hi). destruct w as [s i c r cl ca t d e x]; simpl in *. subst x i.
  destruct s as [| | |er]; [done|..].
  - exists [Listen true; MainReturns]. eexists. by split_and!.
  - exists [ServeReturns; MainReturns]. eexists. by split_and!.
  - exists [MainReturns]. eexists. split_and!; try done. simpl. lia.
Qed.

(** The exit statuses: 0 only after [Shutdown] closed the server, 1 when it cannot
    listen or accept, 2 for a ticker that cannot be made. *)
Lemma exit_status w c :
  reachable w -> exited w = Some c ->
  c = 0 /\ inShutdown w = true \/ c = 1 /\ (exists e, serve w = SvReturned e /\ e <> ErrServerClosed) \/ c = 2 /\ clInterval (cCleanup cfg) <= 0.
Proof.
  induction 1 as [|w ev w' Hr IH E]; [done|]. destruct (server_states w Hr) as [_ Hc]. revert E. unfold step.
  destruct w as [s i cn r cl ca t d e x]; simpl in Hc |- *. destruct x; [done|]. clear IH.
  destruct ev; simpl; try (repeat case_match; intros; simplify_eq/=; solve [done|auto]).
  - destruct s as [| | |er]; [done..|]. intros [= <-] [= <-]. destruct er; simpl; [by auto|right; left; split; [done|by eexists]..].
  - destruct cl; try done. destruct (Z.ltb_spec 0 (clInterval (cCleanup cfg))); intros [= <-]; [done|].
    intros [= <-]. simpl. auto.
  - destruct t as [[|act k]|]; [done| |done]. destruct act; simpl; repeat case_match; intros; simplify_eq/=; auto.
Qed.

End Theory.
