(* ===== verification/Server.v ===== *)
(** * The command of the server ([cmd/server/main.go], [internal/version])

    What [run] does before its goroutines: flags, the configuration, the
    assembly; and what follows from it for every state the process reaches. *)

From S2P Require Import Prelude GoStrings GoTime Matcher Storage Config RiskMatcher RiskEngine ConfigValidate.
From S2P Require Import ConfigTheory YamlStructure ConfigLoad Postgres Redis Auth App AppBuild Lifecycle.

(** ** [internal/version] *)

Record Info := MkInfoVersion { Version : string; Commit : string; BuildTime : string; GoVersion : string }.

(** The variables a build may set with [-ldflags], as they are declared. *)
Definition declared_info (goVersion : string) : Info := MkInfoVersion "dev" "none" "unknown" goVersion.

Definition Info_String (i : Info) : string :=
  (Version i +:+ " (commit=" +:+ Commit i +:+ ", built=" +:+ BuildTime i +:+ ", go=" +:+ GoVersion i +:+ ")")%string.

(** ** [run] *)

Inductive startup_error := NilLoaded | BuildFailed (e : build_error).

Section Run.
Context `{Unicode, Regexp, MapRange}.
Context {R : Type} `{Redis R}.
Variable known_level : string -> bool.
Variable redis_ping : RedisConfig -> option R.
Variable open_pool : PoolConfig -> option (gmap string PgUsage.row).
(** [config.LoadWithSource] in its environment. *)
Variable LoadWithSource : string -> bool -> result load_error Loaded.
Variable version : Info.

Definition BuildWithLoaded (loaded : option Loaded) : result startup_error (App (R := R)) * list resource :=
  match loaded with
  | None => (Err NilLoaded, [])
  | Some loaded =>
      match build known_level redis_ping open_pool (ldConfig loaded) with
      | (Ok a, open) => (Ok a, open)
      | (Err e, open) => (Err (BuildFailed e), open)
      end
  end.

(** The command line; [None] when a flag is not given. *)
Record flags := MkFlags { fgConfig : option string; fgVersion : bool }.

(** [run] up to [a.Start()]: gone with a status and a line of output, or with the
    application running. *)
Inductive start := Exited (code : Z) (out : string) | Running (a : App (R := R)) (open : list resource).

Definition run_server (f : flags) : start :=
  let configPath := default "" (fgConfig f) in
  let configExplicit := bool_decide (is_Some (fgConfig f)) in
  if fgVersion f then Exited 0 (Info_String version)
  else
    match LoadWithSource configPath configExplicit with
    | Err _ => Exited 2 ""
    | Ok loaded =>
        match BuildWithLoaded (Some loaded) with
        | (Err _, _) => Exited 1 ""
        | (Ok a, open) => Running a open
        end
    end.

(** Configurations that load have been validated. *)
Hypothesis load_valid : forall p e l, LoadWithSource p e = Ok l -> valid_config (ldConfig l).

Lemma run_server_inv f a open :
  run_server f = Running a open ->
  valid_config (Auth.cfg (apService a)) /\ open ≡ₚ shutdown_order a.
Proof.
  unfold run_server. destruct (fgVersion f); [done|].
  destruct (LoadWithSource _ _) as [l|] eqn:El; [|done]. cbn.
  destruct (build _ _ _ _) as [[a'|] open'] eqn:Eb; [|done]. intros [= <- <-].
  destruct (build_inv _ _ _ _ _ _ Eb) as [-> _]. split; [by eapply load_valid|by eapply build_open].
Qed.
End Run.

Section Theory.
Context `{Unicode, Regexp, MapRange}.
Context {R : Type} `{Redis R}.
Variable known_level : string -> bool.
Variable redis_ping : RedisConfig -> option R.
Variable open_pool : PoolConfig -> option (gmap string PgUsage.row).
Variable version : Info.
(** The environment of the loader. *)
Context {Settings : Type}.
Variable file_abs : string -> option string.
Variable os_stat : string -> bool.
Variable os_lstat : string -> option file_info.
Variable os_read : string -> option (list Z).
Variable read_in_config : option string -> result string Settings.
Variable unmarshal_exact : Settings -> option Config.

Notation load := (LoadWithSource file_abs os_stat os_lstat os_read read_in_config unmarshal_exact).
Notation server := (run_server known_level redis_ping open_pool load version).

Lemma server_inv f a open :
  server f = Running a open -> valid_config (Auth.cfg (apService a)) /\ open ≡ₚ shutdown_order a.
Proof.
  apply run_server_inv. intros p e l Hl. by apply LoadWithSource_inv in Hl as [? _].
Qed.

(** C7: In every state the server process reaches, whatever the order of its
    goroutines and of requests and signals: it runs on a validated configuration;
    each store, pool, client and limiter is closed at most once, and only what was
    opened; nothing is closed before the cleanup loop is over, nor, when the
    server was there to be shut down, before the last request is answered, unless
    the shutdown timeout ran out; and when [Shutdown] returns everything opened
    is closed. *)
Theorem shutdown_safe f a open w :
  server f = Running a open -> reachable (Auth.cfg (apService a)) a w ->
  valid_config (Auth.cfg (apService a)) /\
  NoDup (closed w) /\ closed w ⊆ open /\ (todo w = Some [] -> closed w ≡ₚ open) /\
  (closed w <> [] ->
     (cleaner w = if apCleanup a then ClDone else ClOff) /\
     (inShutdown w = true -> quiet w = true \/ MainServerShutdown ∈ errs w)).
Proof.
  intros [Hv Ho]%server_inv Hw. destruct (closed_after _ _ _ Hw) as (Hp & Hd & Hs). split_and!; try done.
  - destruct Hp as [l Hl]. pose proof (shutdown_order_NoDup a) as Hn. rewrite Hl in Hn.
    by apply NoDup_app in Hn as [? _].
  - intros r Hr. rewrite Ho. destruct Hp as [l ->]. apply elem_of_app. by left.
  - intros Ht. by rewrite Ho, (Hd Ht).
Qed.
End Theory.

(** ** Runs of the default service *)

Module ServerSample.
#[local] Existing Instances ascii_unicode literal_regexp key_order.
#[local] Existing Instance MapRedis.MapRedis_ops.

Definition version : Info := declared_info "go1.24".
Definition server : flags -> start (R := gmap string (rvalue * option Z)) :=
  run_server BuildSample.levels BuildSample.no_redis BuildSample.no_pool LoadSample.load version.
Definition with_file : flags := MkFlags (Some "/etc/waf.yaml"%string) false.

Definition config (a : App (R := gmap string (rvalue * option Z))) : Config := Auth.cfg (apService a).

(** A request is at hand when the signal comes, and is answered; the cleanup is at
    a tick. *)
Definition orderly : list event :=
  [HttpServerSet; Listen true; CleanupStarts; CleanupCounted; Connect; RequestBegins; CleanupTick; SignalArrives;
   ShutdownStep true; CleanupTicked true; CleanupCounted; CleanupStops; ShutdownStep true; ShutdownStep true;
   ServeReturns; RequestEnds false; ShutdownStep true; ShutdownStep true; ShutdownStep true].

(** The same until the server is being shut down. *)
Definition hurried : list event := take 14 orderly.

Lemma start_and_run evs (P : App -> list resource -> world -> bool) :
  match server with_file with
  | Running a open => match run (config a) a evs (started a) with Some w => P a open w | None => false end
  | Exited _ _ => false
  end = true ->
  exists a open w, server with_file = Running a open /\ reachable (config a) a w /\ P a open w = true.
Proof.
  destruct (server with_file) as [|a open]; [done|]. destruct (run _ _ _ _) as [w|] eqn:Er; [|done].
  intros Hp. exists a, open, w. split_and!; [done| |done]. eapply run_reachable; [constructor|exact Er].
Qed.

Lemma shutdown_safe_witness :
  exists a open w, server with_file = Running a open /\ valid_config (config a) /\ todo w = Some [] /\
    closed w ≡ₚ open /\ NoDup (closed w) /\ errs w = [].
Proof.
  destruct (start_and_run orderly (fun a open w => match todo w, errs w with Some [], [] => true | _, _ => false end)
              ltac:(vm_compute; reflexivity)) as (a & open & w & Hs & Hr & Hp).
  exists a, open, w. split; [exact Hs|].
  destruct (shutdown_safe BuildSample.levels BuildSample.no_redis BuildSample.no_pool version
    Some (fun p => p =? "/etc/waf.yaml")%string
    (fun p => if (p =? "/etc/waf.yaml")%string then Some (MkInfo true false) else None)
    (fun p => if (p =? "/etc/waf.yaml")%string then Some (bytes_of "pow: {}") else None)
    (fun f => match f with Some _ => Ok LoadSample.raw_config | None => Err "Config File Not Found"%string end) Some
    with_file a open w Hs Hr) as (Hv & Hn & _ & Hd & _).
  destruct (todo w) as [[|]|] eqn:Et; try discriminate Hp. destruct (errs w); [|discriminate Hp].
  split; [exact Hv|]. split; [reflexivity|]. split; [exact (Hd eq_refl)|]. split; [exact Hn|reflexivity].
Defined.

(** The signal comes, the request at hand has not been answered and no store has
    been closed: the process is already gone, with status 0. *)
Lemma exit_does_not_wait_witness :
  exists a open w evs w', server with_file = Running a open /\ reachable (config a) a w /\
    active w = 1%nat /\ run (config a) a evs w = Some w' /\ exited w' = Some 0 /\ active w' = 1%nat /\ closed w' = [].
Proof.
  destruct (start_and_run hurried (fun a open w => match exited w, serve w, closed w with
      | None, SvServing, [] => inShutdown w && (active w =? 1)%nat | _, _, _ => false end)
    ltac:(vm_compute; reflexivity)) as (a & open & w & Hs & Hr & Hp).
  destruct (exited w) eqn:Ex; [discriminate Hp|]. destruct (serve w) eqn:Es; try discriminate Hp.
  destruct (closed w) eqn:Ec; [|discriminate Hp]. apply andb_prop in Hp as [Hi Ha%Nat.eqb_eq].
  destruct (exit_does_not_wait (config a) a w Hr Ex Hi) as (evs & w' & Hrun & _ & Hx & _ & Hc & Ha').
  exists a, open, w, evs, w'. rewrite Es in Hx. rewrite Ec in Hc. rewrite Ha in Ha'.
  split; [exact Hs|]. split; [exact Hr|]. split; [exact Ha|]. split; [exact Hrun|]. split; [exact Hx|].
  split; [exact Ha'|exact Hc].
Defined.

Lemma shutdown_completes_witness :
  exists a open w evs w', server with_file = Running a open /\ todo w = Some (drop 3 (Shutdown a)) /\
    run (config a) a evs w = Some w' /\ todo w' = Some [] /\ closed w' = shutdown_order a /\ errs w' = [].
Proof.
  destruct (start_and_run hurried (fun a open w => match exited w, errs w, todo w with
      | None, [], Some [AwaitServer; CloseRes TheUsageStore; CloseRes TheCounterStore] =>
          match Shutdown a with
          | [_; _; _; AwaitServer; CloseRes TheUsageStore; CloseRes TheCounterStore] => 0 <? clInterval (cCleanup (config a))
          | _ => false
          end
      | _, _, _ => false end)
    ltac:(vm_compute; reflexivity)) as (a & open & w & Hs & Hr & Hp).
  destruct (exited w) eqn:Ex; [discriminate Hp|]. destruct (errs w) eqn:Ee; [|discriminate Hp].
  destruct (todo w) as [k|] eqn:Et; [|discriminate Hp].
  assert (k = drop 3 (Shutdown a) /\ 0 < clInterval (cCleanup (config a))) as [Hk Hi].
  { destruct (Shutdown a) as [|? [|? [|? k']]]; [by repeat case_match..|]. simpl.
    repeat (case_match; try discriminate Hp). simplify_eq. split; [done|by apply Z.ltb_lt]. }
  destruct (shutdown_completes (config a) a w k Hr Ex Et Hi) as (evs & w' & Hrun & _ & Ht & Hc & He).
  exists a, open, w, evs, w'. rewrite Ee in He. rewrite <- Hk.
  split; [exact Hs|]. split; [exact Et|]. split; [exact Hrun|]. split; [exact Ht|]. split; [exact Hc|exact He].
Defined.

(** A signal before the server exists: [Shutdown] finds nothing to shut down and
    closes the stores; the server then serves with them. *)
Example missed_server :
  match server with_file with
  | Running a open =>
      match run (config a) a [CleanupStarts; CleanupCounted; SignalArrives; ShutdownStep true; CleanupStops;
                              ShutdownStep true; ShutdownStep true; ShutdownStep true; ShutdownStep true;
                              HttpServerSet; Listen true; Connect; RequestBegins] (started a) with
      | Some w => match serve w, todo w with SvServing, Some [] => (active w =? 1)%nat | _, _ => false end
      | None => false
      end
  | Exited _ _ => false
  end = true.
Proof. vm_compute. reflexivity. Qed.

Example version_asked :
  server (MkFlags None true) = Exited 0 "dev (commit=none, built=unknown, go=go1.24)" /\
  server (MkFlags (Some "/etc/none.yaml"%string) false) = Exited 2 "" /\
  server (MkFlags (Some ""%string) false) = Exited 2 "".
Proof. split_and!; vm_compute; reflexivity. Qed.
End ServerSample.
