(* ===== verification/Metrics.v ===== *)
(** * The metrics ([internal/metrics/metrics.go])

    The collectors and their labels, their registration, and what they hold after
    the events of a run: a sample for every collector and tuple of label values
    that was touched.  Prometheus is a parameter: its vectors accept the right
    number of label values in UTF-8, may panic on others, and keep different
    tuples apart. *)

From S2P Require Import Prelude GoStrings GoTime Pow Matcher Storage Instrumented Config RiskMatcher RiskEngine.
From S2P Require Import RiskCounter Pending Auth AuthLogic AuthTheory AuthSound AuthRecord AuthComplete.
From S2P Require Import AuthLabels RiskEngineTheory MemoryUsage MemoryCounter AuthSample.

(** ** The container *)

Inductive metric_kind := Counter | Gauge | Histogram.
#[export] Instance metric_kind_eq : EqDecision metric_kind.
Proof. solve_decision. Defined.

Record collector := MkCollector { coName : string; coKind : metric_kind; coLabels : list string }.
#[export] Instance collector_eq : EqDecision collector.
Proof. solve_decision. Defined.

Record Container := MkContainer {
  PowVerifyTotal : collector;
  PowVerifyLatencySeconds : collector;
  RiskDecisionTotal : collector;
  StorageOperations : collector;
  StorageLatencySeconds : collector;
  ActiveSignatures : collector;
  PendingAutoBlocks : collector;
  PowFlags : collector;
}.

(** [prometheus.BuildFQName]. *)
Definition fq_name (subsystem name : string) : string := ("mirrors_waf_" +:+ subsystem +:+ "_" +:+ name)%string.

Definition New : Container := {|
  PowVerifyTotal := MkCollector (fq_name "pow" "verify_total") Counter ["result"; "reason"; "mode"; "protected"];
  PowVerifyLatencySeconds := MkCollector (fq_name "pow" "verify_latency_seconds") Histogram ["mode"];
  RiskDecisionTotal := MkCollector (fq_name "risk" "decision_total") Counter ["target"; "reason"];
  StorageOperations := MkCollector (fq_name "storage" "operations_total") Counter ["driver"; "operation"; "outcome"];
  StorageLatencySeconds := MkCollector (fq_name "storage" "latency_seconds") Histogram ["driver"; "operation"];
  ActiveSignatures := MkCollector (fq_name "storage" "active_signatures") Gauge [];
  PendingAutoBlocks := MkCollector (fq_name "pending" "auto_blocks_total") Counter [];
  PowFlags := MkCollector (fq_name "pow" "flags") Gauge ["flag"];
|}%string.

Definition BoolValue (v : bool) : Z := if v then 1 else 0.

(** ** Registration *)

Definition collectors (c : Container) : list collector :=
  [PowVerifyTotal c; PowVerifyLatencySeconds c; RiskDecisionTotal c; StorageOperations c; StorageLatencySeconds c;
   ActiveSignatures c; PendingAutoBlocks c; PowFlags c].

Inductive register_error := AlreadyRegisteredError | OtherRegisterError.

Section Register.
Context {Reg : Type}.
(** [prometheus.Register] on the default registry. *)
Variable prometheus_Register : collector -> Reg -> result register_error Reg.

Fixpoint register_all (cs : list collector) (r : Reg) : result register_error unit * Reg :=
  match cs with
  | [] => (Ok tt, r)
  | col :: cs =>
      match prometheus_Register col r with
      | Ok r => register_all cs r
      | Err AlreadyRegisteredError => register_all cs r
      | Err e => (Err e, r)
      end
  end.

Definition Register (c : Container) (r : Reg) : result register_error unit * Reg := register_all (collectors c) r.
End Register.

(** ** Samples *)

(** The library: [WithLabelValues] of a vector, or the collector itself with no
    values, is the series of a tuple of label values; [None] is a panic. *)
Class Prometheus := {
  Series : Type;
  series_eq :: EqDecision Series;
  series_countable :: Countable Series;
  WithLabelValues : collector -> list string -> option Series;
}.

(** What its documentation promises. *)
Class PrometheusLaws `{Prometheus} := {
  with_accepts : forall c vals, length vals = length (coLabels c) -> Forall (fun v => valid v) vals ->
    is_Some (WithLabelValues c vals);
  with_distinct : forall c c' vals vals' k, WithLabelValues c vals = Some k -> WithLabelValues c' vals' = Some k ->
    coName c = coName c' /\ vals = vals';
}.

Notation samples := (gmap Series Z).

Section Samples.
Context `{Prometheus}.

Definition add (k : Series) (n : Z) (m : samples) : samples := <[k := default 0 (m !! k) + n]> m.

(** What the code does with a collector: a counter is incremented, a histogram
    given one observation more, a gauge set. *)
Definition inc (c : collector) (vals : list string) (m : samples) : option samples :=
  (fun k => add k 1 m) <$> WithLabelValues c vals.
Definition set_gauge (c : collector) (vals : list string) (v : Z) (m : samples) : option samples :=
  (fun k => <[k := v]> m) <$> WithLabelValues c vals.

(** The calls of the service and of the cleanup loop. *)
Definition observe_event (c : Container) (ev : event) (m : samples) : option samples :=
  match ev with
  | MVerifyTotal result reason mode prot => inc (PowVerifyTotal c) [result; reason; mode; prot] m
  | MVerifyLatency mode _ => inc (PowVerifyLatencySeconds c) [mode] m
  | MRiskDecision target reason => inc (RiskDecisionTotal c) [target; reason] m
  | MPendingAutoBlock => inc (PendingAutoBlocks c) [] m
  | MActiveSignatures n => set_gauge (ActiveSignatures c) [] n m
  | Log _ _ _ => Some m
  end.

(** Those of the instrumented stores. *)
Definition observe_operation (c : Container) (l : labels) (m : samples) : option samples :=
  let '(driver, operation, outcome) := l in
  m ← inc (StorageOperations c) [driver; operation; outcome] m;
  inc (StorageLatencySeconds c) [driver; operation] m.

(** The switches, set once by [build]. *)
Definition set_flags (c : Container) (p : PowConfig) (m : samples) : option samples :=
  m ← set_gauge (PowFlags c) ["enabled"%string] (BoolValue (enabled_by_default (pEnabled p))) m;
  m ← set_gauge (PowFlags c) ["dry_run"%string] (BoolValue (pDryRun p)) m;
  set_gauge (PowFlags c) ["bypass_all"%string] (BoolValue (pBypassAll p)) m.

Fixpoint observe_events (c : Container) (evs : list event) (m : samples) : option samples :=
  match evs with
  | [] => Some m
  | ev :: evs => m ← observe_event c ev m; observe_events c evs m
  end.
End Samples.

(** ** Registering *)

(** The default registry, as far as the code relies on it: one collector per
    name, and the same one again is recognised. *)
Definition default_registry (col : collector) (r : gmap string collector) : result register_error (gmap string collector) :=
  match r !! coName col with
  | None => Ok (<[coName col := col]> r)
  | Some col' => if bool_decide (col = col') then Err AlreadyRegisteredError else Err OtherRegisterError
  end.

(** The names are different, so that all eight register, and doing it again changes
    nothing and is no error. *)
Example register_twice :
  let '(e1, r1) := Register default_registry New ∅ in
  let '(e2, r2) := Register default_registry New r1 in
  e1 = Ok tt /\ size r1 = 8%nat /\ e2 = Ok tt /\ bool_decide (r2 = r1) = true.
Proof. vm_compute. auto. Qed.

(** ** Exactness *)

Lemma names_NoDup : NoDup (map coName (collectors New)).
Proof. apply (bool_decide_unpack _). vm_compute. done. Qed.

Section Exact.
Context `{PrometheusLaws}.

(** No event with labels in UTF-8 makes a vector panic. *)
Lemma with_some c vals : length vals = length (coLabels c) -> Forall (fun v => valid v) vals ->
  exists k, WithLabelValues c vals = Some k.
Proof. intros Hl Hv. by apply with_accepts. Qed.

Lemma observe_event_total ev m : labelled ev -> is_Some (observe_event New ev m).
Proof.
  destruct ev; simpl; try done; unfold inc, set_gauge;
    match goal with |- _ -> is_Some (_ <$> WithLabelValues ?c ?vals) =>
      intros Hl; destruct (with_some c vals eq_refl) as [k ->]; [|by eexists] end;
    repeat constructor; tauto.
Qed.

Lemma observe_operation_total d o r m :
  valid d -> valid o -> valid r -> is_Some (observe_operation New (d, o, r) m).
Proof.
  intros Hd Ho Hr. unfold observe_operation, inc.
  destruct (with_some (StorageOperations New) [d; o; r] eq_refl) as [k ->]; [by repeat constructor|].
  cbn [mbind option_bind fmap option_fmap option_map].
  destruct (with_some (StorageLatencySeconds New) [d; o] eq_refl) as [k' ->]; [by repeat constructor|]. by eexists.
Qed.

Lemma observe_events_total evs m : Forall labelled evs -> is_Some (observe_events New evs m).
Proof.
  intros Hl. revert m; induction Hl as [|ev evs Hev _ IH]; intros m; [by eexists|]. simpl.
  destruct (observe_event_total ev m Hev) as [m' ->]. apply IH.
Qed.

(** The labels under which an event counts a verdict. *)
Definition verdict_labels (ev : event) : option (list string) :=
  match ev with MVerifyTotal a b c d => Some [a; b; c; d] | _ => None end.

Definition verdicts (ls : list string) (evs : list event) : Z :=
  Z.of_nat (length (filter (fun ev => verdict_labels ev = Some ls) evs)).

(** The series of a tuple of labels of a verdict. *)
Definition verify_series (ls : list string) : option Series := WithLabelValues (PowVerifyTotal New) ls.

Lemma add_lookup (k k' : Series) (n : Z) (m : samples) :
  default 0 (add k n m !! k') = default 0 (m !! k') + (if decide (k = k') then n else 0).
Proof.
  unfold add. destruct (decide (k = k')) as [->|Hne]; [by rewrite lookup_insert_eq|].
  rewrite lookup_insert_ne by done. lia.
Qed.

(** Another collector's series is another one. *)
Lemma other_series c vals k ls k' :
  coName c <> coName (PowVerifyTotal New) -> WithLabelValues c vals = Some k' -> verify_series ls = Some k -> k' <> k.
Proof. intros Hc Hk' Hk ->. by destruct (with_distinct _ _ _ _ _ Hk' Hk). Qed.

Lemma observe_event_verdicts ev m m' ls k :
  verify_series ls = Some k -> observe_event New ev m = Some m' ->
  default 0 (m' !! k) = default 0 (m !! k) + verdicts ls [ev].
Proof.
  intros Hk. unfold verdicts. rewrite filter_cons, filter_nil.
  destruct ev; cbn [observe_event verdict_labels]; unfold inc, set_gauge;
    try match goal with |- context [WithLabelValues ?c ?vals] => destruct (WithLabelValues c vals) as [k'|] eqn:Ek; [|done] end;
    intros [= <-]; try (rewrite decide_False by done); cbn [length Z.of_nat];
    try (rewrite add_lookup, decide_False; [done|by eapply other_series; [|exact Ek|exact Hk]]).
  - rewrite add_lookup. destruct (decide (k' = k)) as [->|Hne], (decide (Some _ = Some ls)) as [E|E]; try done.
    + destruct (with_distinct _ _ _ _ _ Ek Hk) as [_ <-]. done.
    + exfalso. apply Hne. injection E as <-. unfold verify_series in Hk. congruence.
  - rewrite lookup_insert_ne; [lia|by eapply other_series; [|exact Ek|exact Hk]].
  - lia.
Qed.

(** The exported counter of verdicts is the number of events under its labels. *)
Lemma observe_events_verdicts evs m m' ls k :
  verify_series ls = Some k -> observe_events New evs m = Some m' ->
  default 0 (m' !! k) = default 0 (m !! k) + verdicts ls evs.
Proof.
  intros Hk. revert m; induction evs as [|ev evs IH]; intros m; simpl; [intros [= <-]; unfold verdicts; simpl; lia|].
  destruct (observe_event New ev m) as [m1|] eqn:E; [|done]. simpl. intros Hm.
  rewrite (IH _ Hm), (observe_event_verdicts _ _ _ _ _ Hk E). unfold verdicts.
  rewrite (filter_app _ [ev] evs), length_app. lia.
Qed.
End Exact.

(** ** What a run of the service exports *)

Section Exported.
Context `{Unicode, JsonCodec, Regexp, MapRange}.
Context {U C : Type} `{UsageStore U, CounterStore C}.
Context `{PrometheusLaws}.
Variable clk : nat -> Z.
Variable uenv : nat -> us_env.
Variable cenv : nat -> cs_env.
Variable s : Service.

(** [encoding/json] decodes to valid UTF-8. *)
Hypothesis json_utf8 : forall b p, json_unmarshal b = Some p -> valid (tpMode p).

Notation W := (world (U := U) (C := C)).
#[local] Existing Instances M_ret M_bind.

(** Requests in a row, with their results. *)
Fixpoint serve (reqs : list AuthRequest) (w : W) : list (AuthRequest * AuthResult) * W :=
  match reqs with
  | [] => ([], w)
  | req :: reqs =>
      let '(res, w) := Verify clk uenv cenv s req w in
      let '(l, w) := serve reqs w in ((req, res) :: l, w)
  end.

Definition result_labels (r : AuthRequest * AuthResult) : list string :=
  [statusBucket (Allowed r.2); Reason r.2; Mode r.2; protectedLabel (Some (svMatcher s (OriginalURI r.1)))].

Definition results_with (ls : list string) (rs : list (AuthRequest * AuthResult)) : Z :=
  Z.of_nat (length (filter (fun r => result_labels r = ls) rs)).

Lemma verdicts_totals ls evs : verdicts ls evs = verdicts ls (totals evs).
Proof.
  unfold verdicts, totals. rewrite list_filter_filter. do 2 f_equal. apply list_filter_iff.
  intros ev. destruct ev; simpl; naive_solver.
Qed.

Lemma serve_totals reqs w :
  hasMetrics s = true ->
  totals (wEvents (serve reqs w).2) =
  totals (wEvents w) ++ map (fun r => MVerifyTotal (statusBucket (Allowed r.2)) (Reason r.2) (Mode r.2)
    (protectedLabel (Some (svMatcher s (OriginalURI r.1))))) (serve reqs w).1.
Proof.
  intros Hm. revert w; induction reqs as [|req reqs IH]; intros w; simpl; [by rewrite app_nil_r|].
  pose proof (Verify_counts clk uenv cenv s req w) as Hc.
  destruct (Verify clk uenv cenv s req w) as [res w1]. specialize (IH w1).
  destruct (serve reqs w1) as [l w2]. simpl in *. unfold counted in Hc. rewrite Hm in Hc.
  by rewrite IH, Hc, <- app_assoc.
Qed.

Lemma verdicts_results ls rs :
  verdicts ls (map (fun r => MVerifyTotal (statusBucket (Allowed r.2)) (Reason r.2) (Mode r.2)
    (protectedLabel (Some (svMatcher s (OriginalURI r.1))))) rs) = results_with ls rs.
Proof.
  unfold verdicts, results_with. f_equal. induction rs as [|r rs IH]; [done|].
  cbn [map]. rewrite !filter_cons. cbn [verdict_labels]. fold (result_labels r).
  destruct (decide (result_labels r = ls)) as [->|Hne].
  - rewrite decide_True by done. cbn [length]. f_equal. exact IH.
  - rewrite decide_False by congruence. exact IH.
Qed.

Lemma exported_verdicts reqs w m :
  hasMetrics s = true -> wEvents w = [] -> observe_events New (wEvents (serve reqs w).2) ∅ = Some m ->
  forall ls k, verify_series ls = Some k -> default 0 (m !! k) = results_with ls (serve reqs w).1.
Proof.
  intros Hm Hw Ho ls k Hk. rewrite (observe_events_verdicts _ _ _ ls k Hk Ho), lookup_empty, verdicts_totals, serve_totals by done.
  rewrite Hw. change (totals []) with (@nil event). rewrite app_nil_l. apply verdicts_results.
Qed.

Lemma serve_labels reqs (w : W) :
  (forall e, riskEngine s = Some e -> engine_utf8 e) -> Forall labelled (wEvents w) ->
  Forall labelled (wEvents (serve reqs w).2).
Proof.
  intros He. revert w; induction reqs as [|req reqs IH]; intros w Hw; simpl; [done|].
  pose proof (Verify_labels clk uenv cenv s json_utf8 He req w Hw) as Hv.
  destruct (Verify clk uenv cenv s req w) as [res w1]. specialize (IH w1 Hv). by destruct (serve reqs w1).
Qed.

Lemma exported reqs (w : W) :
  (forall e, riskEngine s = Some e -> engine_utf8 e) -> wEvents w = [] ->
  is_Some (observe_events New (wEvents (serve reqs w).2) ∅).
Proof. intros He Hw. apply observe_events_total, serve_labels; [done|]. by rewrite Hw. Qed.

(** C23: No request makes a metric panic, and the exported verdict counter is exact:
    after any sequence of requests to a service with metrics, whose rules have
    targets and reasons in UTF-8, every vector accepted the label values it was
    given, the modes of the clients' tokens among them, and the sample of every
    tuple of labels is the number of requests whose result had that outcome,
    reason and mode, and whose path that protection. *)
Theorem verdicts_exported reqs w :
  hasMetrics s = true -> wEvents w = [] -> (forall e, riskEngine s = Some e -> engine_utf8 e) ->
  exists m, observe_events New (wEvents (serve reqs w).2) ∅ = Some m /\
    forall ls k, verify_series ls = Some k -> default 0 (m !! k) = results_with ls (serve reqs w).1.
Proof.
  intros Hm Hw He. destruct (exported reqs w He Hw) as [m Ho]. exists m. split; [done|by apply exported_verdicts].
Qed.

(** ** The mode label *)

(** A request for a protected path with a token of mode [md], which the service
    does not know. *)
Record unknown_mode (req : AuthRequest) (md : string) : Prop := {
  um_protected : svMatcher s (OriginalURI req) = true;
  um_uri : OriginalURI req <> ""%string;
  um_mode : mode_config s md = None;
  um_token : exists tok sg p, extractTokenAndSign s (OriginalArgs req) = (tok, sg) /\ tok <> ""%string /\ sg <> ""%string /\
    len tok <= pMaxTokenLength (cPow (cfg s)) /\ len sg <= pMaxSignLength (cPow (cfg s)) /\
    DecodeToken tok = Ok p /\ tpMode p = md;
}.

(** The PoW-only service. *)
Record pow_only : Prop := {
  po_pow : powEnabled s = true; po_bypass : bypassAllEffective s = false; po_dry : dryRunEffective s = false;
  po_engine : riskEngine s = None; po_pending : pendingBlocker s = None;
}.

Lemma Verify_unknown_mode req md w :
  pow_only -> unknown_mode req md ->
  (Verify clk uenv cenv s req w).1 = denyMode ReasonUnsupportedMode md.
Proof.
  intros [Hp Hb Hdry Hr Hpd] [Hm Hu Hmd (tok & sg & p & Hx & Ht & Hs & Hlt & Hls & Hd & Em)].
  change (wp (Verify clk uenv cenv s req) (fun res _ => res = denyMode ReasonUnsupportedMode md) w).
  unfold Verify. rewrite Hb, Hm, Hpd. cbv zeta.
  apply wp_bind, wp_set_token. intros w1 T1 S1 K1 _. apply wp_bind, wp_clock. intros w2 [T2 S2 K2 _].
  apply String.eqb_neq in Hu as ->. assert (forall b : bool, (if b then @None limits else None) = None) as Hif
    by by intros []. rewrite Hif.
  unfold verify_token, runRiskEngine. rewrite Hx, Hp, Hr. cbv zeta. cbn [negb].
  rewrite (proj2 (String.eqb_neq _ _) Ht), (proj2 (String.eqb_neq _ _) Hs). cbn [negb andb].
  apply wp_bind. eapply wp_mono; [by apply (wp_classify_frame _ _ _ _ _ _ p)|].
  intros [st mo] w3 (T3 & S3 & K3). apply wp_bind, wp_get_token, wp_bind, wp_ret. simpl.
  apply wp_bind. unfold verifyPoWOnly.
  apply String.eqb_neq in Ht as ->, Hs as ->. apply Z.ltb_ge in Hlt as ->, Hls as ->. simpl.
  apply wp_bind, wp_get_token. rewrite K3. apply wp_bind, wp_clock. intros w4 _. cbv zeta.
  unfold validateTokenForMode. rewrite Em, Hmd. apply wp_ret. unfold maybeDryRun. rewrite Hdry. simpl.
  unfold record_and_return. by apply wp_record.
Qed.

Definition mode_series (md : string) : option Series :=
  verify_series [statusBucket false; ReasonUnsupportedMode; md; protectedLabel (Some true)].

Lemma serve_unknown reqs mds w :
  pow_only -> Forall2 unknown_mode reqs mds ->
  Forall2 (fun r md => verify_series (result_labels r) = mode_series md) (serve reqs w).1 mds.
Proof.
  intros Hp Hf. revert w; induction Hf as [|req md reqs mds Hu _ IH]; intros w; simpl; [constructor|].
  pose proof (Verify_unknown_mode req md w Hp Hu) as Hv.
  destruct (Verify clk uenv cenv s req w) as [res w1]. simpl in Hv. subst res. specialize (IH w1).
  destruct (serve reqs w1) as [l w2]. constructor; [|exact IH].
  unfold result_labels. simpl. by rewrite (um_protected _ _ Hu).
Qed.

Lemma results_with_elem ls rs : (exists r, r ∈ rs /\ result_labels r = ls) -> 0 < results_with ls rs.
Proof.
  intros (r & Hr & E). unfold results_with.
  assert (r ∈ filter (fun r => result_labels r = ls) rs) as Hin by (by apply list_elem_of_filter).
  destruct (filter _ rs); [by apply not_elem_of_nil in Hin|simpl; lia].
Qed.

(** Modes come decoded, and so have a series. *)
Lemma mode_series_some reqs mds md : Forall2 unknown_mode reqs mds -> md ∈ mds -> is_Some (mode_series md).
Proof.
  intros Hf [i Hi]%list_elem_of_lookup. destruct (Forall2_lookup_r _ _ _ _ _ Hf Hi) as (req & _ & Hu).
  destruct (um_token _ _ Hu) as (tok & sg & p & _ & _ & _ & _ & _ & Hd & <-). apply (decoded_utf8 json_utf8) in Hd.
  apply with_accepts; [done|]. repeat constructor; first [exact Hd|by vm_compute].
Qed.

(** Distinct modes have distinct series. *)
Lemma series_each (m : samples) mds :
  NoDup mds -> (forall md, md ∈ mds -> exists k, mode_series md = Some k /\ is_Some (m !! k)) -> (length mds <= size m)%nat.
Proof.
  intros Hn Hs. rewrite <- size_dom. change (size (dom m)) with (length (elements (dom m))).
  rewrite <- (length_map mode_series mds), <- (length_map Some (elements (dom m))).
  apply submseteq_length, NoDup_submseteq; [|intros k (md & -> & Hmd)%list_elem_of_fmap].
  - apply NoDup_fmap_2_strong; [|done]. intros x y Hx _ Hxy. destruct (Hs x Hx) as (k & Hk & _).
    rewrite Hk in Hxy. symmetry in Hxy. destruct (with_distinct _ _ _ _ _ Hk Hxy) as [_ E]. by injection E.
  - destruct (Hs md Hmd) as (k & -> & Hk). apply list_elem_of_fmap. exists k. split; [done|].
    by apply elem_of_elements, elem_of_dom.
Qed.

(** C13: The mode label of the exported verdicts is the client's to choose: on a
    PoW-only service, requests for a protected path whose tokens bear distinct
    modes the service does not know leave a series each, without any proof of
    work; only the length of a token bounds their number. *)
Theorem mode_label_unbounded reqs mds w :
  hasMetrics s = true -> pow_only -> wEvents w = [] -> NoDup mds -> Forall2 unknown_mode reqs mds ->
  exists m, observe_events New (wEvents (serve reqs w).2) ∅ = Some m /\
    (forall md, md ∈ mds -> exists k, mode_series md = Some k /\ is_Some (m !! k)) /\ (length mds <= size m)%nat.
Proof.
  intros Hm Hp Hw Hn Hf. destruct (exported reqs w) as [m Ho]; [by rewrite (po_engine Hp)|done|].
  pose proof (exported_verdicts reqs w m Hm Hw Ho) as He.
  assert (forall md, md ∈ mds -> exists k, mode_series md = Some k /\ is_Some (m !! k)) as Hs.
  { intros md Hmd. destruct (mode_series_some reqs mds md Hf Hmd) as [k Hk]. exists k. split; [done|].
    pose proof (serve_unknown reqs mds w Hp Hf) as Hr.
    apply list_elem_of_lookup in Hmd as [i Hi]. destruct (Forall2_lookup_r _ _ _ _ _ Hr Hi) as (r & Hri & E).
    pose proof (results_with_elem (result_labels r) (serve reqs w).1) as Hpos.
    rewrite <- (He _ k) in Hpos by congruence. destruct (m !! _) eqn:El; [by eexists|]. simpl in Hpos.
    exfalso. apply (Z.lt_irrefl 0), Hpos. exists r. split; [by eapply list_elem_of_lookup_2|done]. }
  exists m. split_and!; [done..|]. by apply (series_each m).
Qed.

End Exported.

(** ** A run of the PoW-only deployment *)

Module MetricsSample.
#[local] Existing Instances ascii_unicode literal_regexp key_order MemUsage.UsageStore_ops MemCounter.CounterStore_ops.

(** A codec whose tokens are their modes, in UTF-8. *)
Definition mode_codec : JsonCodec := {|
  json_marshal p := Some (bytes_of (tpMode p));
  json_unmarshal b :=
    if ValidString (of_bytes b)
    then Some (MkTokenPayload 1 (of_bytes b) "sha256" "" path 1700000000 1700000600 4 "4" "") else None;
|}.
#[local] Existing Instance mode_codec.

Lemma codec_utf8 b p : json_unmarshal b = Some p -> valid (tpMode p).
Proof. simpl. destruct (ValidString (of_bytes b)) eqn:E; [|done]. by intros [= <-]. Qed.

(** Vectors that panic on anything else. *)
Definition strict : Prometheus := {|
  Series := string * list string;
  WithLabelValues c vals :=
    if (length vals =? length (coLabels c))%nat && forallb ValidString vals then Some (coName c, vals) else None;
|}.
#[local] Existing Instance strict.
#[local] Instance strict_laws : PrometheusLaws.
Proof.
  split.
  - intros c vals Hl Hv. simpl. apply Nat.eqb_eq in Hl as ->. apply forallb_Forall in Hv as ->. by eexists.
  - intros c c' vals vals' k. simpl. case_if; [|done]. case_if; [|done]. by intros [= <-] [= -> ->].
Qed.

Definition token (md : string) : TokenPayload := MkTokenPayload 1 md "sha256" "" path 1700000000 1700000600 4 "4" "".
Definition ask (md : string) : AuthRequest :=
  MkAuthRequest path "GET" ("token=" +:+ default "" (EncodeToken (token md)) +:+ "&sign=0") "192.0.2.1" "curl/8" "".

Definition modes : list string := ["a"; "b"; "c"].
Definition run : list (AuthRequest * AuthResult) * world (U := MemUsage.UsageStore) (C := MemCounter.CounterStore) :=
  serve clk uenv cenv plain (map ask modes) start.

Lemma mode_label_unbounded_witness :
  exists m, observe_events New (wEvents run.2) ∅ = Some m /\ (length modes <= size m)%nat.
Proof.
  destruct (mode_label_unbounded clk uenv cenv plain codec_utf8 (map ask modes) modes start) as (m & Ho & _ & Hs).
  - vm_compute. reflexivity.
  - split; vm_compute; reflexivity.
  - reflexivity.
  - apply (bool_decide_unpack _). vm_compute. exact I.
  - repeat constructor.
    all: try (vm_compute; reflexivity); try (vm_compute; discriminate).
    all: match goal with |- context [OriginalArgs (ask ?md)] =>
      exists (default ""%string (EncodeToken (token md))), "0"%string, (token md) end.
    all: split_and!; try (vm_compute; reflexivity); try (vm_compute; discriminate).
  - exists m. split; [exact Ho|exact Hs].
Defined.

(** The deployment with an engine, which accepts all but missing tokens. *)
Lemma service_engine c e l x : riskEngine (service_with c e l) = Some x -> e = Some x.
Proof.
  unfold service_with. destruct (Auth.New _) as [s|] eqn:E; [|done].
  unfold Auth.New in E. cbn [oConfig oMatcher] in E. repeat (case_if_in E; [done|]). by injection E as <-.
Qed.

Lemma service_utf8 e : riskEngine service = Some e -> engine_utf8 e.
Proof.
  intros He%service_engine%(inj Some) k c Hk. subst e.
  assert ((ValidString (poTarget (cPolicy c)) && ValidString (poReason (cPolicy c)) &&
    forallb (fun r : Rule => ValidString (rTarget r) && ValidString (rReason r)) (cRules c)) = true) as Hc.
  { revert k c Hk. apply (Sample.chains_check (fun _ c => ValidString (poTarget (cPolicy c)) &&
      ValidString (poReason (cPolicy c)) && forallb (fun r => ValidString (rTarget r) && ValidString (rReason r)) (cRules c))).
    vm_compute. reflexivity. }
  clear Hk. apply andb_true_iff in Hc as [[Ht Hr]%andb_true_iff Hf]. split; [exact (conj Ht Hr)|].
  apply forallb_Forall in Hf. eapply Forall_impl; [exact Hf|]. intros r Hx. cbv beta in Hx.
  apply andb_true_iff in Hx as [H1 H2]. exact (conj H1 H2).
Qed.

Definition engine_run : list (AuthRequest * AuthResult) * world (U := MemUsage.UsageStore) (C := MemCounter.CounterStore) :=
  serve clk uenv cenv service (map ask modes) start.

Lemma verdicts_exported_witness :
  exists m, observe_events New (wEvents engine_run.2) ∅ = Some m /\
    default 0 (m !! ("mirrors_waf_pow_verify_total", ["allow"; "risk_accept"; "b"; "true"])%string : option Z) = 1.
Proof.
  destruct (verdicts_exported clk uenv cenv service codec_utf8 (map ask modes) start) as (m & Ho & Hm).
  - vm_compute. reflexivity.
  - reflexivity.
  - exact service_utf8.
  - exists m. split; [exact Ho|].
    transitivity (results_with service ["allow"; "risk_accept"; "b"; "true"]%string engine_run.1);
      [apply Hm|]; vm_compute; reflexivity.
Defined.
End MetricsSample.
