(* ===== verification/Logging.v ===== *)
(** * The log ([internal/logging])

    Which lines a logger writes, and with which fields: its own, those of the
    context, those of the call, in this order.  Of zap, a core has a set of enabled
    levels, and a checked entry is written exactly when its level is one. *)

From S2P Require Import Prelude GoStrings GoTime Pow Matcher Storage Config RiskMatcher RiskEngine RiskCounter.
From S2P Require Import Pending Auth App AppBuild.

(** ** Loggers ([logger.go]) *)

(** Levels as zap numbers them. *)
Definition DebugLevel : Z := -1.
Definition InfoLevel : Z := 0.
Definition WarnLevel : Z := 1.
Definition ErrorLevel : Z := 2.

(** What [zap.Logger.Sync] may report. *)
Record sync_error := MkSyncError { seInvalid : bool; seText : string }.

Inductive encoder := ConsoleEncoder | JSONEncoder | NoEncoder.

(** A [zap.Logger]: its encoder, what it enables, what its sink answers to a sync. *)
Record zap_logger := MkZap { zEncoder : encoder; zEnabled : Z -> bool; zSync : option sync_error }.

Record Logger := MkLogger { lgZap : option zap_logger; lgFields : list field; lgCallerSkip : Z }.

Record line := MkLine { lnLevel : Z; lnMessage : string; lnFields : list field }.

(** A context: the values under the two keys of the package. *)
Record ctx := MkCtx { cxLogger : option Logger; cxFields : list field }.
Definition Background : ctx := MkCtx None [].

Inductive logging_error := BadLevel | UnknownFormat (format : string).

(** [zapcore.NewCore] enables a level and those above. *)
Definition at_least (lvl l : Z) : bool := lvl <=? l.

Definition New (parse_level : string -> option Z) (stderr_sync : option sync_error) (level format : string)
  : result logging_error Logger :=
  match parse_level level with
  | None => Err BadLevel
  | Some lvl =>
      let logger enc := Ok (MkLogger (Some (MkZap enc (at_least lvl) stderr_sync)) [] 1) in
      if (format =? "console")%string then logger ConsoleEncoder
      else if (format =? "json")%string || (format =? "")%string then logger JSONEncoder
      else Err (UnknownFormat format)
  end.

Definition NewFromZap (z : option zap_logger) : Logger := MkLogger z [] 1.
Definition NewNop : Logger := MkLogger (Some (MkZap NoEncoder (fun _ => false) None)) [] 0.

(** [ctxFields]; a nil context has none. *)
Definition ctxFields (c : option ctx) : list field := match c with None => [] | Some c => cxFields c end.

(** [emit] on a logger with a zap logger; [None] is the nil dereference. *)
Definition emit (l : Logger) (c : option ctx) (lvl : Z) (msg : string) (fields : list field) : option (list line) :=
  z ← lgZap l;
  Some (if negb (zEnabled z lvl) then []
        else [MkLine lvl msg (lgFields l ++ ctxFields c ++ fields)]).

Definition Debug (l : Logger) (c : option ctx) := emit l c DebugLevel.
Definition Info (l : Logger) (c : option ctx) := emit l c InfoLevel.
Definition Warn (l : Logger) (c : option ctx) := emit l c WarnLevel.
Definition Error (l : Logger) (c : option ctx) := emit l c ErrorLevel.

Definition With (l : Logger) (fields : list field) : Logger := MkLogger (lgZap l) (lgFields l ++ fields) (lgCallerSkip l).

Definition Sync (l : Logger) : option sync_error :=
  match lgZap l with
  | None => None
  | Some z =>
      match zSync z with
      | Some e => if seInvalid e || (seText e =? "sync stdout: The handle is invalid")%string then None else Some e
      | None => None
      end
  end.

(** ** Contexts ([context.go]) *)

Definition WithLogger (c : ctx) (l : Logger) : ctx := MkCtx (Some l) (cxFields c).
Definition FromContext (c : ctx) : Logger := match cxLogger c with Some l => l | None => NewNop end.
Definition WithFields (c : ctx) (fields : list field) : ctx :=
  match fields with [] => c | _ => MkCtx (cxLogger c) (ctxFields (Some c) ++ fields) end.
Definition FieldForRequestID (rid : string) : field := ("request_id"%string, FString rid).

(** ** Facts *)

(** [build] starts on the same levels and formats. *)
Lemma New_known parse_level sync level format :
  is_ok (New parse_level sync level format) = logging_New (fun l => bool_decide (is_Some (parse_level l))) level format.
Proof.
  unfold New, logging_New. cbn [existsb]. rewrite !(String.eqb_sym _ format), orb_false_r.
  destruct (parse_level level); [|done]. rewrite bool_decide_true by eauto.
  by destruct (format =? "console")%string, (format =? "json")%string, (format =? "")%string.
Qed.

(** Loggers and contexts only add, in order, and adding is one call or several. *)
Lemma With_With l f g : With (With l f) g = With l (f ++ g).
Proof. unfold With. simpl. by rewrite app_assoc. Qed.

Lemma WithFields_WithFields c f g : WithFields (WithFields c f) g = WithFields c (f ++ g).
Proof.
  destruct f as [|x f]; [done|]. destruct g as [|y g]; [by rewrite app_nil_r|].
  unfold WithFields. simpl. by rewrite <- app_assoc.
Qed.

Lemma With_emit l c lvl msg f g : emit (With l f) (Some c) lvl msg g = emit l (Some (MkCtx None (f ++ cxFields c))) lvl msg g.
Proof. unfold emit, With. simpl. destruct (lgZap l); [|done]. simpl. by rewrite <- !app_assoc. Qed.

(** ** The lines of the service *)

Definition level_of (l : string) : Z :=
  if (l =? "error")%string then ErrorLevel else if (l =? "warn")%string then WarnLevel else InfoLevel.

(** [recordResult] and the cleanup log under the background context, so that no
    field of a request's context is on their lines. *)
Definition line_of (l : Logger) (ev : event) : list line :=
  match ev with
  | Log lvl msg fields => default [] (emit l (Some Background) (level_of lvl) msg fields)
  | _ => []
  end.
Definition lines (l : Logger) (evs : list event) : list line := concat (map (line_of l) evs).

Section Service.
Context `{Unicode, JsonCodec, Regexp, MapRange}.
Context {U C : Type} `{UsageStore U, CounterStore C}.
Variable clk : nat -> Z.
Variable s : Service.
Variable z : zap_logger.
Variable fields : list field.

Let logger : Logger := MkLogger (Some z) fields 1.

(** The line of a verdict: none when the configuration silences it or its level
    is not enabled, otherwise one, at the level of the verdict. *)
Lemma recordResult_lines (v : verifyCtx) res (w : world (U := U) (C := C)) :
  let '(_, w') := recordResult s v res w in
  exists evs fs, wEvents w' = wEvents w ++ evs /\
    lines logger evs =
      (if shouldLogResult s res && zEnabled z (level_of (log_level res))
       then [MkLine (level_of (log_level res)) "pow_verify" (fields ++ fs)] else []) /\
    ("status"%string, FInt (HTTPStatus res)) ∈ fs /\ ("allowed"%string, FBool (Allowed res)) ∈ fs /\
    ("reason"%string, FString (Reason res)) ∈ fs.
Proof.
  set (elapsed := Since (vcStart v) (wTick w)).
  unfold recordResult, mbind, M_bind, time_since. cbn beta iota. fold elapsed.
  set (fs := result_fields s v (wToken w) elapsed res).
  set (ms := if hasMetrics s then [MVerifyTotal (statusBucket (Allowed res)) (Reason res) (Mode res)
              (protectedLabel (vcProtected v)); MVerifyLatency (Mode res) elapsed] else []).
  assert (forall e, lines logger (ms ++ e) = lines logger e) as Hms by (intros e; unfold ms; by destruct (hasMetrics s)).
  assert (forall x, x ∈ [("event", FString "pow_verify"); ("allowed", FBool (Allowed res)); ("status", FInt (HTTPStatus res));
      ("reason", FString (Reason res))]%string -> x ∈ fs) as Hin.
  { intros x Hx. unfold fs, result_fields. apply elem_of_app. right. apply elem_of_app. left.
    repeat (apply elem_of_cons in Hx as [->|Hx]; [by repeat (left || right)|]). by apply not_elem_of_nil in Hx. }
  destruct (hasMetrics s) eqn:Em; destruct (shouldLogResult s res) eqn:Es; cbn [negb andb];
    eexists (ms ++ (if shouldLogResult s res then [Log (log_level res) "pow_verify" fs] else [])), fs;
    rewrite Es, Hms; (split; [by unfold ms; cbn; rewrite <- ?app_assoc, ?app_nil_r|]);
    (split; [|split_and!; apply Hin; by repeat (left || right)]).
  all: try done; unfold lines; cbn; by destruct (zEnabled z _).
Qed.

(** A fault of the service is on the log whatever the configuration silences, at
    every level up to error. *)
Lemma faults_are_logged (v : verifyCtx) res (w : world (U := U) (C := C)) :
  500 <= HTTPStatus res -> Allowed res = false -> zEnabled z ErrorLevel = true ->
  exists evs fs, wEvents (recordResult s v res w).2 = wEvents w ++ evs /\
    lines logger evs = [MkLine ErrorLevel "pow_verify" (fields ++ fs)] /\
    ("status"%string, FInt (HTTPStatus res)) ∈ fs /\ ("reason"%string, FString (Reason res)) ∈ fs.
Proof.
  intros Hst Ha Hz. pose proof (recordResult_lines v res w) as Hr.
  destruct (recordResult s v res w) as [u w']. destruct Hr as (evs & fs & He & Hl & Hf1 & _ & Hf2).
  exists evs, fs. split; [done|]. split; [|done]. rewrite Hl. unfold shouldLogResult, log_level.
  apply Z.leb_le in Hst as ->. rewrite Ha. change (level_of "error") with ErrorLevel. by rewrite Hz.
Qed.
End Service.
