(* ===== verification/Front.v ===== *)
(** * The web front ([internal/transport/echo/{server,routes,middleware,handlers}.go])

    The chain of middleware [NewMain] builds, the routes, the error handler, and
    what a request gets through them.  The framework (echo) is a class: its router
    and its own middleware, with the documented behaviour the code relies on as
    laws. *)

From S2P Require Import Prelude GoStrings GoTime Strconv Storage Config Matcher Pow RiskMatcher RiskEngine.
From S2P Require Import RiskCounter Pending Auth Transport TransportTheory MemoryUsage MemoryCounter AuthSample.

(** ** Requests under way *)

Inductive body := NoBody | JSONObject (l : list (string * string)) | OtherBody.

(** A request with its context, and the response as far as it is written; the
    status is there once it is committed. *)
Record exchange := MkExchange {
  exMethod : string; exPath : string; exHeader : header; exLength : Z;
  exDeadline : option Z; exFields : list field;
  exResponse : header; exStatus : option Z; exBody : body; exLog : list event;
}.

Definition set_deadline (d : Z) (c : exchange) : exchange :=
  MkExchange (exMethod c) (exPath c) (exHeader c) (exLength c)
    (Some (match exDeadline c with Some d' => Z.min d d' | None => d end)) (exFields c) (exResponse c) (exStatus c)
    (exBody c) (exLog c).
Definition add_field (f : field) (c : exchange) : exchange :=
  MkExchange (exMethod c) (exPath c) (exHeader c) (exLength c) (exDeadline c) (exFields c ++ [f]) (exResponse c)
    (exStatus c) (exBody c) (exLog c).
Definition set_response (h : header) (c : exchange) : exchange :=
  MkExchange (exMethod c) (exPath c) (exHeader c) (exLength c) (exDeadline c) (exFields c) h (exStatus c)
    (exBody c) (exLog c).
Definition log_event (ev : event) (c : exchange) : exchange :=
  MkExchange (exMethod c) (exPath c) (exHeader c) (exLength c) (exDeadline c) (exFields c) (exResponse c) (exStatus c)
    (exBody c) (exLog c ++ [ev]).

(** [c.JSON] and [c.NoContent]. *)
Definition answer (status : Z) (b : body) (c : exchange) : exchange :=
  MkExchange (exMethod c) (exPath c) (exHeader c) (exLength c) (exDeadline c) (exFields c) (exResponse c)
    (Some status) b (exLog c).

(** [echo.HTTPError], with the text of its [Error] method, or any other error. *)
Inductive handler_error := HTTPError (code : Z) (text : string) | OtherError.

Inductive outcome := Done | Failed (e : handler_error) | Panicked.

(** ** The code ([server.go], [routes.go], [handlers.go], [middleware.go]) *)

Definition errorHandler (logger : bool) (err : handler_error) (c : exchange) : exchange :=
  match exStatus c with
  | Some _ => c
  | None =>
      match err with
      | HTTPError code text => answer code (JSONObject [("error", text)]%string) c
      | OtherError =>
          answer 500 (JSONObject [("error", "internal")]%string)
            (if logger then log_event (Log "error" "unhandled error" []) c else c)
      end
  end.

Section Front.
Context {W : Type}.

Definition handler : Type := exchange -> W -> outcome * exchange * W.
Definition middleware : Type := handler -> handler.

Record route := MkRoute { rtMethod : string; rtPath : string; rtHandler : handler; rtMiddleware : list middleware }.

(** [Use] and the middleware of a route: the first given is the outermost. *)
Definition chain (ms : list middleware) (h : handler) : handler := foldr (fun m h => m h) h ms.

Class Echo := {
  Recover : middleware;
  RequestID : (Z -> string) -> middleware;
  BodyLimit : string -> middleware;
  body_limit : string -> Z;
  Gzip : middleware;
  promhttp : handler;
  router : list route -> handler;
  ServeHTTP : list middleware -> list route -> (handler_error -> exchange -> exchange) -> exchange -> W -> option exchange * W;
}.

Definition healthz : handler := fun c w => (Done, answer 200 (JSONObject [("status", "ok")]%string) c, w).
Definition readyz : handler :=
  fun c w => (Done, answer 200 (JSONObject [("status", "ok"); ("storage", "ok")]%string) c, w).

Section Server.
Context `{Unicode, Echo}.
Variable Verify : AuthRequest -> W -> AuthResult * W.

(** [Server.verifyPow]; a panic leaves the response as the middleware made it. *)
Definition verify_pow : handler := fun c w =>
  let '(r, w) := verifyPow Verify (exHeader c) (exResponse c) w in
  match r with
  | Ok r => (Done, answer (rsStatus r) NoBody (set_response (rsHeader r) c), w)
  | Err _ => (Panicked, c, w)
  end.

Definition registerMainRoutes (metrics : bool) : list route :=
  [MkRoute "GET" "/healthz" healthz []; MkRoute "GET" "/readyz" readyz []]
  ++ (if metrics then [MkRoute "GET" "/metrics" promhttp []] else [])
  ++ [MkRoute "GET" "/verify_pow" verify_pow [Gzip]; MkRoute "POST" "/verify_pow" verify_pow []].

(** The id is put in the context when [wrapped] has returned. *)
Definition requestIDMiddleware (logger : bool) : middleware := fun next c w =>
  let '(o, c, w) := RequestID generateRequestID next c w in
  match o with
  | Panicked => (Panicked, c, w)
  | _ =>
      (o, match request_id_after logger (exHeader c) (exResponse c) with
          | Some rid => add_field ("request_id"%string, FString rid) c
          | None => c
          end, w)
  end.

Definition timeout_middleware (read write : Z) : middleware := fun next c w =>
  match timeoutMiddleware read write with
  | None => next c w
  | Some d => next (set_deadline d c) w
  end.

(** What [NewMain] installs, in order. *)
Definition NewMain (c : ServerConfig) (logger : bool) : list middleware :=
  [Recover] ++ (if logger then [requestIDMiddleware logger] else [])
  ++ [BodyLimit "1K"; timeout_middleware (sReadTimeout c) (sWriteTimeout c)].

(** A request through the server that [NewMain] makes. *)
Definition server (cfg : ServerConfig) (logger metrics : bool) : exchange -> W -> option exchange * W :=
  ServeHTTP (NewMain cfg logger) (registerMainRoutes metrics) (errorHandler logger).
End Server.

(** ** What the framework promises *)

(** The same request, before anything is answered. *)
Definition same_request (c c' : exchange) : Prop :=
  exMethod c' = exMethod c /\ exPath c' = exPath c /\ exHeader c' = exHeader c /\ exLength c' = exLength c /\
  exStatus c' = exStatus c.

(** The same answer, up to headers that are not the service's. *)
Definition same_answer (c c' : exchange) : Prop :=
  exStatus c' = exStatus c /\
  forall k, HasPrefix (canonical_key k) "X-Pow-" = true -> header_get (exResponse c') k = header_get (exResponse c) k.

(** [m] passes a request to the next handler and hands back its answer. *)
Definition transparent (m : middleware) : Prop :=
  forall next c w, exists c0, same_request c c0 /\
    let '(o, c1, w1) := next c0 w in exists c2, m next c w = (o, c2, w1) /\ same_answer c1 c2.

Class EchoLaws `{Echo} : Prop := {
  recover_law : forall next c w, Recover next c w =
    (let '(o, c1, w1) := next c w in (match o with Panicked => Failed OtherError | _ => o end, c1, w1));
  request_id_law : forall g, transparent (RequestID g);
  gzip_law : transparent Gzip;
  body_limit_over : forall l next c w, body_limit l < exLength c -> exists text,
    BodyLimit l next c w = (Failed (HTTPError 413 text), c, w);
  body_limit_within : forall l next c w, exLength c <= body_limit l -> BodyLimit l next c w = next c w;
  router_hit : forall rs r c w, r ∈ rs -> rtMethod r = exMethod c -> rtPath r = exPath c ->
    (forall r', r' ∈ rs -> rtMethod r' = exMethod c -> rtPath r' = exPath c -> r' = r) ->
    router rs c w = chain (rtMiddleware r) (rtHandler r) c w;
  router_miss : forall rs c w, (forall r, r ∈ rs -> rtPath r <> exPath c) -> exists text,
    router rs c w = (Failed (HTTPError 404 text), c, w);
  (** The chain, and the error handler on what it returns; a panic that gets
      through aborts the connection. *)
  serve_law : forall ms rs eh c w, ServeHTTP ms rs eh c w =
    (let '(o, c1, w1) := chain ms (router rs) c w in
     (match o with Done => Some c1 | Failed e => Some (eh e c1) | Panicked => None end, w1));
}.
End Front.
Arguments handler : clear implicits.
Arguments middleware : clear implicits.
Arguments Echo : clear implicits.
Arguments EchoLaws W {_}.

(** ** What a request gets *)

Section Theory.
Context {W : Type} `{Unicode, EchoLaws W}.
Variable Verify : AuthRequest -> W -> AuthResult * W.
Variable cfg : ServerConfig.
Variables logger metrics : bool.

Notation serve := (server Verify cfg logger metrics).

(** The only result whose headers cannot be written. *)
Definition blank_rate (res : AuthResult) : bool :=
  negb (LimitRate res =? "")%string && (ToLower (TrimSpace (LimitRate res)) =? "")%string.

(** The answer [c2] tells the verdict [res]. *)
Definition tells (res : AuthResult) (c2 : exchange) : Prop :=
  exStatus c2 = Some (if Allowed res then 200 else HTTPStatus res) /\
  header_get (exResponse c2) "X-Pow-Result" = (if Allowed res then "allow" else "deny")%string /\
  header_get (exResponse c2) "X-Pow-Reason" = Reason res.

(** A request for a verdict that nobody has answered, its body within the limit. *)
Definition asks (c : exchange) : Prop :=
  exStatus c = None /\ exPath c = "/verify_pow"%string /\ (exMethod c = "GET" \/ exMethod c = "POST")%string /\
  exLength c <= body_limit "1K".

Definition verdict (c : exchange) (w : W) (r : outcome * exchange * W) : Prop :=
  let '(o, c2, w2) := r in
  let '(res, w1) := Verify (request_of (exHeader c)) w in
  w2 = w1 /\ if blank_rate res then o = Panicked /\ exStatus c2 = None else o = Done /\ tells res c2.

Lemma verify_pow_verdict c w : exStatus c = None -> verdict c w (verify_pow Verify c w).
Proof.
  intros Hc. unfold verdict, verify_pow, verifyPow. destruct (Verify (request_of (exHeader c)) w) as [res w1].
  pose proof (writeAuthResult_panics (exResponse c) res) as Hp.
  destruct (writeAuthResult (exResponse c) res) as [r|[]] eqn:Ew; (split; [done|]).
  - assert (blank_rate res = false) as ->.
    { apply not_true_iff_false. intros [Hb1%negb_true_iff%String.eqb_neq Hb2%String.eqb_eq]%andb_prop.
      discriminate (proj2 Hp (conj Hb1 Hb2)). }
    destruct (writeAuthResult_inv _ _ _ Ew) as (Hs & Hr & Hre & _). split; [done|]. unfold tells. cbn. by rewrite Hs.
  - destruct (proj1 Hp eq_refl) as [Hn He]. unfold blank_rate. rewrite He.
    by rewrite (proj2 (String.eqb_neq _ _) Hn).
Qed.

Lemma asks_same c c' : same_request c c' -> asks c -> asks c'.
Proof. intros (E1 & E2 & _ & E4 & E5) (? & ? & ? & ?). unfold asks. by rewrite E1, E2, E4, E5. Qed.

Lemma verdict_same c c' c1 c2 o (w w1 : W) :
  same_request c c' -> same_answer c1 c2 -> verdict c' w (o, c1, w1) -> verdict c w (o, c2, w1).
Proof.
  intros (_ & _ & Eh & _) [Es Ek]. unfold verdict, tells. rewrite Eh, Es, !Ek by (vm_compute; reflexivity). done.
Qed.

(** What transparent middleware hands on: a relation of a request, the state it
    met and what came back, for requests of a kind, up to what it may change. *)
Record handed_on (I : exchange -> Prop) (Q : exchange -> W -> outcome * exchange * W -> Prop) : Prop := {
  ho_request : forall c c', same_request c c' -> I c -> I c';
  ho_answer : forall c c' c1 c2 o w w1, same_request c c' -> same_answer c1 c2 -> Q c' w (o, c1, w1) -> Q c w (o, c2, w1);
}.

Lemma through I Q (m : middleware W) next :
  handed_on I Q -> transparent m -> (forall c w, I c -> Q c w (next c w)) -> forall c w, I c -> Q c w (m next c w).
Proof.
  intros [Hi Hq] Hm Hn c w Hc. destruct (Hm next c w) as (c0 & Hs & Hr). specialize (Hn c0 w (Hi _ _ Hs Hc)).
  destruct (next c0 w) as [[o c1] w1]. destruct Hr as (c2 & -> & He). by eapply Hq.
Qed.

Lemma verdict_handed_on : handed_on asks verdict.
Proof. split; [exact asks_same|exact verdict_same]. Qed.

(** A refusal of the framework: the service was not asked. *)
Definition refused (code : Z) (c : exchange) (w : W) (r : outcome * exchange * W) : Prop :=
  let '(o, c2, w2) := r in (exists text, o = Failed (HTTPError code text)) /\ exStatus c2 = None /\ w2 = w.

Lemma refused_handed_on I code : (forall c c', same_request c c' -> I c -> I c') -> handed_on I (refused code).
Proof. intros Hi. split; [exact Hi|]. intros c c' c1 c2 o w w1 _ [Es _]. unfold refused. by rewrite Es. Qed.

Lemma transparent_timeout r wr : transparent (timeout_middleware (W := W) r wr).
Proof.
  intros next c w. unfold timeout_middleware. destruct (timeoutMiddleware r wr) as [d|].
  - exists (set_deadline d c). split; [done|]. destruct (next _ w) as [[o c1] w1]. exists c1. by repeat split.
  - exists c. split; [done|]. destruct (next c w) as [[o c1] w1]. exists c1. by repeat split.
Qed.

Lemma transparent_request_id b : transparent (requestIDMiddleware (W := W) b).
Proof.
  intros next c w. unfold requestIDMiddleware.
  destruct (request_id_law generateRequestID next c w) as (c0 & Hs & Hr). exists c0. split; [done|].
  destruct (next c0 w) as [[o c1] w1]. destruct Hr as (c2 & -> & He).
  destruct o; eexists; (split; [done|]); try exact He; destruct (request_id_after _ _ _); exact He.
Qed.

Lemma routes_verdict c w : asks c -> verdict c w (router (registerMainRoutes Verify metrics) c w).
Proof.
  intros Ha. pose proof Ha as (Hst & Hp & Hm & _).
  assert (forall r' ms, r' ∈ registerMainRoutes Verify metrics -> rtMethod r' = exMethod c -> rtPath r' = exPath c ->
    MkRoute (exMethod c) "/verify_pow" (verify_pow Verify) ms ∈ registerMainRoutes Verify metrics ->
    r' = MkRoute (exMethod c) "/verify_pow" (verify_pow Verify) ms) as Hu.
  { rewrite Hp. unfold registerMainRoutes. intros r' ms Hr' Em Ep Hin.
    repeat match goal with
    | Hx : _ ∈ _ ++ _ |- _ => apply elem_of_app in Hx as [Hx|Hx]
    | Hx : _ ∈ _ :: _ |- _ => apply elem_of_cons in Hx as [Hx|Hx]
    | Hx : _ ∈ (if ?b then _ else _) |- _ => destruct b
    | Hx : _ ∈ [] |- _ => by apply not_elem_of_nil in Hx
    end; subst; simplify_eq/=; congruence. }
  assert (forall ms, MkRoute (exMethod c) "/verify_pow" (verify_pow Verify) ms ∈ registerMainRoutes Verify metrics ->
    router (registerMainRoutes Verify metrics) c w = chain ms (verify_pow Verify) c w) as Hhit.
  { intros ms Hin. apply (router_hit _ (MkRoute (exMethod c) "/verify_pow" (verify_pow Verify) ms)); try done.
    intros r' Hr' Em Ep. by eapply Hu. }
  unfold registerMainRoutes in *. destruct Hm as [Hm|Hm]; rewrite Hm in *.
  - rewrite (Hhit [Gzip]) by (rewrite !elem_of_app; right; right; left).
    simpl. apply (through asks); [apply verdict_handed_on|apply gzip_law| |done]. intros c' w' (Hc' & _). by apply verify_pow_verdict.
  - rewrite (Hhit []) by (rewrite !elem_of_app; right; right; right; left). simpl. by apply verify_pow_verdict.
Qed.

(** The chain below the recovery, and below the request id. *)
Definition inner : handler W := timeout_middleware (sReadTimeout cfg) (sWriteTimeout cfg) (router (registerMainRoutes Verify metrics)).
Definition limited : handler W := BodyLimit "1K" inner.
Definition named : handler W := if logger then requestIDMiddleware logger limited else limited.

Lemma server_named c w :
  serve c w =
  (let '(o, c1, w1) := named c w in
   (Some (match o with Done => c1 | Failed e => errorHandler logger e c1 | Panicked => errorHandler logger OtherError c1 end), w1)).
Proof.
  unfold server. rewrite serve_law. unfold NewMain, chain. rewrite !foldr_app. cbn [foldr].
  rewrite recover_law. unfold named, limited, inner.
  destruct logger; cbn [foldr app]; match goal with |- context [let '(_, _) := ?r in _] => by destruct r as [[[] ?] ?] end.
Qed.

Lemma named_through I Q :
  handed_on I Q -> (forall c w, I c -> Q c w (limited c w)) -> forall c w, I c -> Q c w (named c w).
Proof. intros Hh Hl c w Hc. unfold named. destruct logger; [|by apply Hl]. by eapply through; [|apply transparent_request_id|..]. Qed.

Lemma named_verdict c w : asks c -> verdict c w (named c w).
Proof.
  apply (named_through asks); [apply verdict_handed_on|]. clear c w. intros c w Ha. unfold limited.
  rewrite body_limit_within by apply Ha.
  apply (through asks verdict (timeout_middleware _ _)); [apply verdict_handed_on|apply transparent_timeout|exact routes_verdict|done].
Qed.

Lemma named_over c w : exStatus c = None -> body_limit "1K" < exLength c -> refused 413 c w (named c w).
Proof.
  intros Hs Hl. apply (named_through (fun c => exStatus c = None /\ body_limit "1K" < exLength c)); [|clear c w Hs Hl|done].
  - apply refused_handed_on. intros c1 c2 (_ & _ & _ & E4 & E5). by rewrite E4, E5.
  - intros c w [Hs Hl]. unfold limited. destruct (body_limit_over "1K" inner c w Hl) as [text ->]. split; [by eexists|done].
Qed.

Lemma named_miss c w :
  exStatus c = None -> exLength c <= body_limit "1K" ->
  exPath c ∉ ["/healthz"; "/readyz"; "/metrics"; "/verify_pow"]%string -> refused 404 c w (named c w).
Proof.
  set (I c := exStatus c = None /\ exLength c <= body_limit "1K" /\
              exPath c ∉ ["/healthz"; "/readyz"; "/metrics"; "/verify_pow"]%string).
  intros Hs Hl Hp. assert (handed_on I (refused 404)) as Hh.
  { apply refused_handed_on. intros c1 c2 (_ & E2 & _ & E4 & E5). unfold I. by rewrite E2, E4, E5. }
  apply (named_through I); [exact Hh|clear c w Hs Hl Hp|done].
  intros c w (Hs & Hl & Hp). unfold limited. rewrite body_limit_within by done.
  apply (through I (refused 404) (timeout_middleware _ _)); [exact Hh|apply transparent_timeout|clear c w Hs Hl Hp|done].
  intros c w (Hs & Hl & Hp). destruct (router_miss (registerMainRoutes Verify metrics) c w) as [text ->].
  - intros r Hr E. apply Hp. rewrite <- E. unfold registerMainRoutes in Hr. rewrite !elem_of_app in Hr.
    repeat match goal with
    | Hx : _ \/ _ |- _ => destruct Hx as [Hx|Hx]
    | Hx : _ ∈ _ :: _ |- _ => apply elem_of_cons in Hx as [->|Hx]
    | Hx : _ ∈ (if ?b then _ else _) |- _ => destruct b
    | Hx : _ ∈ [] |- _ => by apply not_elem_of_nil in Hx
    end; by repeat (left || right).
  - split; [by eexists|done].
Qed.

(** C8: What the web server gets for a request.  Asking for a verdict, by GET or
    POST: within the body limit, the verdict of one [Verify] on the headers, its
    status, result and reason, or 500 when its rate is blank; over it, 413 and
    the service is not asked, so that nothing is charged.  Off the routes: 404,
    and the service is not asked either. *)
Theorem front_spec c w :
  exStatus c = None ->
  let '(o, w') := serve c w in
  (exPath c = "/verify_pow"%string -> (exMethod c = "GET" \/ exMethod c = "POST")%string ->
   exists c', o = Some c' /\
     if body_limit "1K" <? exLength c then exStatus c' = Some 413 /\ w' = w
     else let '(res, w1) := Verify (request_of (exHeader c)) w in
          w' = w1 /\ if blank_rate res then exStatus c' = Some 500 else tells res c') /\
  (exPath c ∉ ["/healthz"; "/readyz"; "/metrics"; "/verify_pow"]%string -> exLength c <= body_limit "1K" ->
   exists c', o = Some c' /\ exStatus c' = Some 404 /\ w' = w).
Proof.
  intros Hc. rewrite server_named. destruct (named c w) as [[o c1] w1] eqn:En. split.
  - intros Hp Hm. eexists. split; [done|]. destruct (Z.ltb_spec (body_limit "1K") (exLength c)) as [Hl|Hl].
    + pose proof (named_over c w Hc Hl) as Hr. rewrite En in Hr. destruct Hr as ([text ->] & Hs & ->).
      unfold errorHandler. by rewrite Hs.
    + pose proof (named_verdict c w (conj Hc (conj Hp (conj Hm Hl)))) as Hv. rewrite En in Hv. unfold verdict in Hv.
      destruct (Verify (request_of (exHeader c)) w) as [res w2]. destruct Hv as [-> Hv]. split; [done|].
      destruct (blank_rate res); destruct Hv as [-> Hv]; [|done]. unfold errorHandler. rewrite Hv. by destruct logger.
  - intros Hp Hl. eexists. split; [done|]. pose proof (named_miss c w Hc Hl Hp) as Hr. rewrite En in Hr.
    destruct Hr as ([text ->] & Hs & ->). unfold errorHandler. by rewrite Hs.
Qed.

End Theory.

(** ** A simple framework, and the deployment of [AuthSample] behind it *)

Module FrontSample.
#[local] Existing Instances ascii_unicode literal_regexp key_order AuthSample.codec
  MemUsage.UsageStore_ops MemCounter.CounterStore_ops.

Section Plain.
Context {W : Type}.

Definition find_route (rs : list (route (W := W))) (c : exchange) : option (route (W := W)) :=
  List.find (fun r => (rtMethod r =? exMethod c)%string && (rtPath r =? exPath c)%string) rs.

Definition plain_router (rs : list (route (W := W))) : handler W := fun c w =>
  match find_route rs c with
  | Some r => chain (rtMiddleware r) (rtHandler r) c w
  | None =>
      if existsb (fun r => rtPath r =? exPath c)%string rs then (Failed (HTTPError 405 "Method Not Allowed"), c, w)
      else (Failed (HTTPError 404 "Not Found"), c, w)
  end.

#[local] Instance plain_echo : Echo W := {|
  Recover next c w := let '(o, c1, w1) := next c w in (match o with Panicked => Failed OtherError | _ => o end, c1, w1);
  RequestID g next c w :=
    let rid := header_get (exHeader c) "X-Request-Id" in
    next (set_response (header_set "X-Request-Id" (if (rid =? "")%string then g 1 else rid) (exResponse c)) c) w;
  BodyLimit _ next c w := if 1024 <? exLength c then (Failed (HTTPError 413 "Request Entity Too Large"), c, w) else next c w;
  body_limit _ := 1024;
  Gzip next := next;
  promhttp c w := (Done, answer 200 OtherBody c, w);
  router := plain_router;
  ServeHTTP ms rs eh c w :=
    let '(o, c1, w1) := chain ms (plain_router rs) c w in
    (match o with Done => Some c1 | Failed e => Some (eh e c1) | Panicked => None end, w1);
|}.

#[local] Instance plain_laws : EchoLaws W.
Proof.
  split.
  - done.
  - intros g next c w. cbn. match goal with |- context [next (set_response ?h c) w] => exists (set_response h c) end.
    split; [done|]. destruct (next _ w) as [[o c1] w1]. exists c1. by repeat split.
  - intros next c w. exists c. split; [done|]. cbn. destruct (next c w) as [[o c1] w1]. exists c1. by repeat split.
  - intros l next c w Hl. cbn in *. apply Z.ltb_lt in Hl as ->. by eexists.
  - intros l next c w Hl. cbn in *. by apply Z.ltb_ge in Hl as ->.
  - intros rs r c w Hr Hm Hp Hu. cbn. unfold plain_router, find_route.
    destruct (List.find _ rs) as [r'|] eqn:Ef.
    + apply List.find_some in Ef as [Hin [Em%String.eqb_eq Ep%String.eqb_eq]%andb_prop].
      by rewrite (Hu r' (proj2 (list_elem_of_In _ _) Hin) Em Ep).
    + exfalso. pose proof (List.find_none _ _ Ef r (proj1 (list_elem_of_In _ _) Hr)) as Hn. cbn in Hn.
      by rewrite Hm, Hp, !String.eqb_refl in Hn.
  - intros rs c w Hn. cbn. unfold plain_router, find_route. assert (forall r, r ∈ rs -> (rtPath r =? exPath c)%string = false) as Hf
      by (intros r Hr; by apply String.eqb_neq, Hn).
    destruct (List.find _ rs) as [r|] eqn:Ef.
    + apply List.find_some in Ef as [Hin [_ Ep]%andb_prop].
      by rewrite (Hf r (proj2 (list_elem_of_In _ _) Hin)) in Ep.
    + assert (existsb (fun r => rtPath r =? exPath c)%string rs = false) as ->; [|by eexists].
      apply Forall_existsb_false, Forall_forall. exact Hf.
  - done.
Qed.
End Plain.

#[local] Existing Instances plain_echo plain_laws.

Notation W := (world (U := MemUsage.UsageStore) (C := MemCounter.CounterStore)).

Definition ask (method path : string) (length : Z) : exchange :=
  MkExchange method path (headers_of (AuthSample.get bound_token "192.0.2.1")) length None [] ∅ None NoBody [].

Definition front (c : exchange) : option exchange * W :=
  server (Verify AuthSample.clk AuthSample.uenv AuthSample.cenv plain) (cServer plain_config) true true c start.

Lemma front_spec_witness :
  (exists c', (front (ask "GET" "/verify_pow" 0)).1 = Some c' /\ exStatus c' = Some 200 /\
     header_get (exResponse c') "X-Pow-Result" = "allow"%string) /\
  (exists c', front (ask "POST" "/verify_pow" 2000) = (Some c', start) /\ exStatus c' = Some 413) /\
  (exists c', front (ask "GET" "/" 0) = (Some c', start) /\ exStatus c' = Some 404).
Proof.
  split; [|split].
  - pose proof (front_spec (Verify AuthSample.clk AuthSample.uenv AuthSample.cenv plain) (cServer plain_config) true true
      (ask "GET" "/verify_pow" 0) start eq_refl) as Hf. fold (front (ask "GET" "/verify_pow" 0)) in Hf.
    destruct (front (ask "GET" "/verify_pow" 0)) as [o w'].
    destruct Hf as [Hf _]. destruct (Hf eq_refl (or_introl eq_refl)) as (c' & -> & Hv).
    exists c'. split; [reflexivity|].
    assert (body_limit (W := W) "1K" <? exLength (ask "GET" "/verify_pow" 0) = false) as El by reflexivity. rewrite El in Hv.
    assert (let r := (Verify AuthSample.clk AuthSample.uenv AuthSample.cenv plain
                        (request_of (exHeader (ask "GET" "/verify_pow" 0))) start).1 in
            Allowed r = true /\ blank_rate r = false) as [Ha Hb] by (vm_compute; split; reflexivity).
    destruct (Verify _ _ _ _ _ start) as [res w1]. cbn in Ha, Hb. destruct Hv as [_ Hv]. rewrite Hb in Hv.
    destruct Hv as (Hs & Hr & _). rewrite Ha in Hs, Hr. split; assumption.
  - pose proof (front_spec (Verify AuthSample.clk AuthSample.uenv AuthSample.cenv plain) (cServer plain_config) true true
      (ask "POST" "/verify_pow" 2000) start eq_refl) as Hf. fold (front (ask "POST" "/verify_pow" 2000)) in Hf.
    destruct (front (ask "POST" "/verify_pow" 2000)) as [o w'].
    destruct Hf as [Hf _]. destruct (Hf eq_refl (or_intror eq_refl)) as (c' & -> & Hv).
    assert (body_limit (W := W) "1K" <? exLength (ask "POST" "/verify_pow" 2000) = true) as El by reflexivity. rewrite El in Hv.
    destruct Hv as [Hs ->]. exists c'. split; [reflexivity|exact Hs].
  - pose proof (front_spec (Verify AuthSample.clk AuthSample.uenv AuthSample.cenv plain) (cServer plain_config) true true
      (ask "GET" "/" 0) start eq_refl) as Hf. fold (front (ask "GET" "/" 0)) in Hf.
    destruct (front (ask "GET" "/" 0)) as [o w']. destruct Hf as [_ Hf].
    assert (exPath (ask "GET" "/" 0) ∉ ["/healthz"; "/readyz"; "/metrics"; "/verify_pow"]%string) as Hp
      by (apply (bool_decide_unpack _); vm_compute; exact I).
    destruct (Hf Hp ltac:(vm_compute; discriminate)) as (c' & -> & Hs & ->). exists c'. split; [reflexivity|exact Hs].
Defined.

(** The other routes; [readyz] says the storage is well without asking it. *)
Example other_routes :
  (exStatus <$> (front (ask "GET" "/healthz" 0)).1) = Some (Some 200) /\
  (exBody <$> (front (ask "GET" "/readyz" 0)).1) = Some (JSONObject [("status", "ok"); ("storage", "ok")]%string) /\
  (exStatus <$> (front (ask "PUT" "/verify_pow" 0)).1) = Some (Some 405).
Proof. split_and!; vm_compute; reflexivity. Qed.

(** The id of the request reaches the context only after the verdict: the log
    fields while the handler runs are those the request came with. *)
Example id_after_verdict :
  let seen : handler W := fun c w => (Done, answer (Z.of_nat (length (exFields c))) NoBody c, w) in
  let '(_, c, _) := requestIDMiddleware true seen (ask "GET" "/verify_pow" 0) start in
  exStatus c = Some 0 /\ length (exFields c) = 1%nat.
Proof. vm_compute. split; reflexivity. Qed.
End FrontSample.
